(* ===== verification/_CoqProject ===== *)
-Q . S2P
Prelude.v
GoBytes.v
GoStrings.v
Keys.v
Iso7064.v
Retry.v
Concurrency.v
SagaStore.v
SagaDef.v
SagaEngine.v
SagaSteps.v
SagaProtocol.v
SagaRefine.v
SagaTheorems.v
RetryQueue.v
DepGraph.v
IdempotencyStore.v
Idempotency.v
IdempotencyTheorems.v
RateLimit.v
RateLimitBucket.v
RateLimitStore.v
RateLimitOps.v
RateLimitMulti.v
RateLimitAdmit.v
RateLimitAllow.v
RateLimitTheorems.v
Wal.v
WalFormat.v
WalStore.v
WalRead.v
WalInv.v
WalOps.v
WalActions.v
WalBatch.v
WalSystem.v
WalProto.v
WalRun.v
WalRecover.v
WalHistory.v
WalLive.v
WalTheorems.v
Dispatch.v
DispatchQueue.v
DispatchCrew.v
DispatchLog.v
DispatchTheorems.v
Keyset.v
KeysetTheorems.v
KeysetPages.v
HmacSign.v
HmacTheorems.v
CuckooFilter.v
CuckooTheorems.v
LruCache.v
LruTheorems.v
Singleflight.v
SingleflightTheorems.v
ImmutableMap.v
ImmutableWords.v
ImmutableMapTheorems.v
FieldPolicy.v
FieldPolicyTheorems.v
SqlDialect.v
Projection.v
ProjectionParser.v
ProjectionTheorems.v
SqlTheorems.v
Scope.v
ScopeTheorems.v
SchedulerStore.v
Scheduler.v
SchedulerRun.v
SchedulerLogic.v
SchedulerTheorems.v
SchedulerRecovery.v
SchedulerOneShot.v
