(* ===== verification/Prelude.v ===== *)
(** * A verification of go-atlas

    The repository is a Go library of building blocks for services.  This
    development models twenty-one of its parts, each a shallow embedding of the
    code under src/, and proves what their callers rely on.

    ** How the code is modelled

    Pure functions are functions; a method that runs under a mutex is one
    function of the state, and code that releases the mutex half way is two.
    Code that calls its caller's functions, reads the clock or may panic is a
    computation [M W A] over a world [W] (this file): [None] is a panic or an
    exhausted fuel, and [wp m Q w] says that [m] returns and [Q] holds, so a
    contract stated with [wp] includes that the code returns.  Integers are [Z],
    wrapped with [Go.i64] where the code can overflow; [time.Time] and
    [time.Duration] are nanoseconds.  An instant read from the clock, an outcome
    chosen by the operating system, a random choice and the step of a scheduler
    are arguments, so that a theorem covers each of them.  Concurrency is a
    sequence of critical sections, or a transition system, in any order.

    ** The parts

    - Iso7064.v: domain/validation/iso7064.  [Mod11_10] on strings and integers;
      replacing one digit of a valid identifier is always detected.
    - Retry.v: core/retry.  [doWithOptions] and the backoff policies.  The loop
      equals a reference, is bounded, and its backoff stays within its cap.
    - Concurrency.v: core/runtime/concurrency/batch.go.  The workers of
      [Process] are split at their synchronisation points, and a scheduler picks
      who moves: each item runs at most once, in every interleaving.
    - SagaStore.v, SagaDef.v, SagaEngine.v: data/saga with its memory store.
      [Storage] and [StorageLaws] are what the orchestrator relies on, and
      [memory_laws] shows that the memory store provides it.  SagaProtocol.v is
      an abstract protocol of what an executor may persist and call;
      SagaSteps.v and SagaRefine.v show that the engine keeps it, over the
      contracts of Retry.v and Concurrency.v; SagaTheorems.v draws the
      consequences (complete rollback, the pivot, order, intent before action,
      exclusion of stale executors, totality).
    - RetryQueue.v: data/retryqueue with its memory storage.  Items stay
      well-formed, stale workers are fenced, sweeps reach every due item.
    - DepGraph.v: transport/internal/depgraph.  [Build] succeeds exactly on
      acyclic, complete declarations and returns a topological order.
    - Keys.v, IdempotencyStore.v, Idempotency.v, IdempotencyTheorems.v:
      core/encoding/keys and data/idempotency with its memory storage.  The
      [Keeper] is written against a storage class; a request is run by one
      caller until its lock times out, and replays see its result.
    - RateLimit.v, RateLimitBucket.v, RateLimitStore.v, RateLimitOps.v,
      RateLimitMulti.v, RateLimitAdmit.v, RateLimitAllow.v, RateLimitTheorems.v:
      the memory provider of data/limiters.  A bucket is a sliding-window log;
      answers are exact, no window exceeds its limit, multi-key calls are all or
      nothing, and the number of keys stays within the capacity.
    - Wal.v and the files Wal*.v: core/io/wal.  WalFormat.v is the record
      format, WalStore.v and WalInv.v the invariant, WalRead.v, WalOps.v,
      WalActions.v, WalBatch.v, WalSystem.v, WalProto.v and WalRun.v the
      operations and the transition system of appending callers, group commit,
      background fsync and [Close]; WalRecover.v is [Open]; WalHistory.v follows
      a log through restarts and crashes; WalLive.v is progress.
      WalTheorems.v: synced records survive a crash, a restart recovers what
      callers were told, [ReadPending] is exact, every [Append] returns.
    - Dispatch.v, DispatchQueue.v, DispatchCrew.v, DispatchLog.v,
      DispatchTheorems.v: service/dispatch on top of the write-ahead log.
      Producers, workers, [Start] and [Shutdown] are transitions that interleave
      with those of WalSystem.v, the engine's log.  DispatchQueue.v is the
      engine without a log: accepted items are stored, given up, queued or held,
      each once.  DispatchCrew.v and DispatchLog.v are the invariants of the
      workers' claims and of the log; DispatchTheorems.v composes them with the
      theorems of the log: a logged item is stored or recovered by the next
      start, no record is stored twice in a session, and a [Shutdown] without
      error has stored everything.
    - Keyset.v, KeysetTheorems.v, KeysetPages.v: data/keyset.  Tokens resolve
      to what was issued or to the first failing check, nothing else resolves,
      and following the tokens neither repeats nor skips an item.
    - HmacSign.v, HmacTheorems.v: security/hmacsign and its httpsign.  A scheme
      is a record with the laws [SchemeLaws], which the GitHub and Stripe
      schemes meet; the errors of [Verify] are exact, it accepts what [Sign]
      made within the tolerance, and the middleware is a gate.
    - CuckooFilter.v, CuckooTheorems.v: data/probfilter/cuckoo in memory.  The
      filter implements a multiset of signatures and has no false negatives; a
      failed insertion is undone completely.
    - LruCache.v, LruTheorems.v: [ExpirableCache] of data/cache/lru over the
      class [LRU] of the third-party list, with its documented laws [LRULaws].
      The cache cannot be told apart from an ideal one that drops each entry
      when it expires; [list_lru_laws] shows that the laws can be met.
    - Singleflight.v, SingleflightTheorems.v: core/runtime/singleflight, and
      [GetOrCompute] of data/cache/lru over it.  Callers of one key share one
      computation in every interleaving, and a cache computes a key once;
      [clocked_laws] instantiates the cache with [ExpirableCache].
    - ImmutableMap.v, ImmutableWords.v, ImmutableMapTheorems.v: the frozen hash
      table of core/collections, with its control words of eight lanes.  No
      operation tells it from the map the same assignments give.
    - FieldPolicy.v, FieldPolicyTheorems.v: data/internal/fieldpolicy, the
      allow-lists and name mappings over frozen tables.
    - SqlDialect.v, SqlTheorems.v: quoting of internal/sqldialect, and what a
      database reads in the columns that data/projection makes with it.
    - Projection.v, ProjectionParser.v, ProjectionTheorems.v: data/projection.
      The parser accepts exactly its grammar, and a projection shows what was
      asked for and nothing that is denied, for MongoDB and for SQL.
    - Scope.v, ScopeTheorems.v: auth/scope.  An action is allowed exactly when
      its registration is public or a role of the principal grants it.
    - SchedulerStore.v, Scheduler.v: service/scheduler with its memory storage.
      Every goroutine is a program over calls of the storage and of what its
      instance shares; the world interleaves the programs of all instances, which
      stop and restart, and loses calls and replies of the storage.
      SchedulerRun.v runs programs and scripts.  SchedulerLogic.v is a logic of
      tokens, each the right to one run, and shows that all programs keep its
      protocol; SchedulerTheorems.v shows that two runs of a task meet only after
      a lease has passed or the task was deleted, SchedulerOneShot.v that a
      completed one-shot task does not run again, and SchedulerRecovery.v that
      recovery frees exactly the abandoned runs.

    Prelude.v holds the shared definitions, tactics, the hint database [go] and
    the computation monad; GoBytes.v the byte-level parts of Go's standard
    library (encoding/binary, hash/crc32, encoding/base64, crypto/sha256,
    crypto/hmac), with published test vectors; GoStrings.v decimal and
    hexadecimal coding and the functions of package strings.

    ** Bounds and fuel

    Loops that are not structural take fuel, and each has a lemma that its fuel
    suffices: [enough_fuel] (the attempts and two), [pool_fuel] (three steps for
    each item and each worker), [stage_fuel] (the number of stages),
    [sort_fuel] (nodes and edges), the length of the input for the scans of
    segments, tokens and the binary search of a bucket, and ten groups of seven
    bits or twenty digits for a 64-bit integer.

    ** Simplifications

    - The results of floating-point expressions in the backoff are arguments.
    - The touch sequence of the limiter is unbounded; the code's has 64 bits.
    - In the write-ahead log the publication of a written run (three atomic
      counters) is one transition; fsync failures, short writes and read errors
      are outcomes, and a crash keeps of every file the prefix that was synced,
      followed by anything.
    - In the dispatcher the backoff, the tickers and the timeouts of the sink are
      the choice of when a timer fires and of what the sink returns; in
      singleflight the timeout is the choice of what the callback returns.
    - The instances of the scheduler read one clock, which does not go back, and
      the identifiers they draw are different.  Heartbeats renew any number of
      times, fixed when they start.  The mutex of the registrations is not
      taken, which only adds interleavings.
    - JSON of a cursor type is a class with the instance of [int].
    - Deferred logging and metrics have no effect on the results and are left
      out.
    - Time readings are exact instants without the monotonic component.

    ** Not modelled

    Clients of external services (Redis, NATS, MongoDB, SQL, ClickHouse, Vault
    and the like) behave as the service and its driver do, which are not part
    of the repository.  Transport, configuration, observability and code
    generation are wiring over libraries or reflection.  Plain code that could
    be modelled in the same way and is not: the denylist of auth, the parsers of
    data/orderby and data/filter, the outbox, the lists with page tokens and the
    main loop of the scheduler, and money and the event bus of domain. *)

From Stdlib Require Export ZArith Lia.
From stdpp Require Export base decidable option list gmap strings sorting numbers pretty.

#[export] Set Default Proof Using "Type".
Global Open Scope Z_scope.

(** ** Machine integers *)

Module Go.

(** Two's-complement wrap-around of a Go [int64] (and of [int] on the 64-bit
    platforms the module targets). *)
Definition i64 (z : Z) : Z := (z + 2 ^ 63) mod 2 ^ 64 - 2 ^ 63.
Definition max_int64 : Z := 2 ^ 63 - 1.
Definition min_int64 : Z := - 2 ^ 63.

(** Go's [time.Time] is an instant: nanoseconds counted from the zero time
    [time.Time{}], which is the instant 0.  Locations are not represented, so
    [UTC()] is the identity. *)
Abbreviation time := Z (only parsing).
Abbreviation duration := Z (only parsing).
Definition zero_time : time := 0.
Definition is_zero (t : time) : bool := t =? 0.
Definition after (t u : time) : bool := u <? t.
Definition before (t u : time) : bool := t <? u.

(** [Time.Sub]: the difference, saturated to the range of a duration. *)
Definition sub (t u : time) : duration := Z.max min_int64 (Z.min max_int64 (t - u)).

(** Seconds between the zero time (year 1) and the Unix epoch. *)
Definition unix_epoch_sec : Z := 62135596800.
Definition nanos_per_sec : Z := 1000000000.

(** [Time.Unix()]: whole seconds since the Unix epoch, rounded down. *)
Definition unix (t : time) : Z := t / nanos_per_sec - unix_epoch_sec.

(** [cmp.Or]: the first non-zero value of a list of three-way comparisons. *)
Definition cmp_or (a b : comparison) : comparison :=
  match a with Eq => b | _ => a end.

End Go.

Lemma i64_id z : - 2 ^ 63 <= z < 2 ^ 63 -> Go.i64 z = z.
Proof. intros ?. unfold Go.i64. rewrite Z.mod_small; lia. Qed.

Lemma i64_range z : - 2 ^ 63 <= Go.i64 z < 2 ^ 63.
Proof.
  unfold Go.i64.
  pose proof (Z.mod_pos_bound (z + 2 ^ 63) (2 ^ 64) ltac:(lia)). lia.
Qed.

(** The hints the components share: facts that close the common side goals
    (ranges of machine integers, members of an empty list, computations that only
    return, read or write). *)
Create HintDb go.
#[export] Hint Resolve i64_id i64_range : go.

#[export] Hint Resolve not_elem_of_nil : go.
#[export] Hint Extern 1 => match goal with H : _ ∈ [] |- _ => destruct (not_elem_of_nil _ H) end : go.

(** [lia] with quotients and remainders replaced by their Euclidean equations. *)
Ltac lia_mod := Z.to_euclidean_division_equations; lia.

(** ** Lists *)

Lemma NoDup_take {A} n (l : list A) : NoDup l -> NoDup (take n l).
Proof. rewrite <-(take_drop n l) at 1. by intros [? _]%list.NoDup_app. Qed.

Lemma StronglySorted_mono {A} (R R' : relation A) (l : list A) :
  StronglySorted R l -> (forall x y, x ∈ l -> y ∈ l -> R x y -> R' x y) -> StronglySorted R' l.
Proof.
  induction 1 as [|x l Hs IH Hx]; intros Himpl; constructor.
  - apply IH. intros y z Hy Hz. apply Himpl; by right.
  - rewrite list.Forall_forall in *. intros y Hy. apply Himpl; [left|by right|auto].
Qed.

Lemma StronglySorted_filter_list {A} (R : relation A) (P : A -> Prop) `{!forall x, Decision (P x)} (l : list A) :
  StronglySorted R l -> StronglySorted R (filter P l).
Proof.
  induction 1 as [|x l Hs IH Hx]; [constructor|]. rewrite filter_cons. case_decide; [|done].
  constructor; [done|]. rewrite list.Forall_forall in *. intros y [_ Hy]%list_elem_of_filter. auto.
Qed.

Lemma StronglySorted_lookup_lt {A} (R : relation A) (l : list A) i j x y :
  StronglySorted R l -> l !! i = Some x -> l !! j = Some y -> (i < j)%nat -> R x y.
Proof.
  intros Hs. revert i j. induction Hs as [|z l Hs IH Hz]; intros i j Hx Hy Hij; [done|].
  destruct j as [|j]; [lia|]. change (l !! j = Some y) in Hy. destruct i as [|i].
  - injection Hx as ->. rewrite list.Forall_forall in Hz. apply Hz. by eapply list_elem_of_lookup_2.
  - apply (IH i j); [done|done|lia].
Qed.

(** The sum of [f] over a list, and over the list with one element replaced. *)
Fixpoint sum_by {A} (f : A -> nat) (l : list A) : nat :=
  match l with [] => 0%nat | x :: l => (f x + sum_by f l)%nat end.

Lemma sum_by_insert {A} (f : A -> nat) (l : list A) i x y :
  l !! i = Some x -> (sum_by f (<[i := y]> l) + f x = sum_by f l + f y)%nat.
Proof.
  revert i. induction l as [|z l IH]; intros [|i] Hi; [done|done|..].
  - cbn in Hi. simplify_eq. change (<[0%nat := y]> (x :: l)) with (y :: l). cbn [sum_by]. lia.
  - change (<[S i := y]> (z :: l)) with (z :: <[i := y]> l). cbn [sum_by]. specialize (IH i Hi). lia.
Qed.

Lemma list_find_ext_in {A} (P Q : A -> Prop) `{!forall x, Decision (P x)} `{!forall x, Decision (Q x)} (l : list A) :
  Forall (fun x => P x <-> Q x) l -> list_find P l = list_find Q l.
Proof.
  induction 1 as [|x l Hx _ IH]; [done|]. cbn. rewrite (decide_ext _ _ _ _ Hx), IH. done.
Qed.

Section filters.
Context {A} (P : A -> Prop) `{!forall x, Decision (P x)}.

Lemma filter_none l : Forall (fun x => ~ P x) l -> filter P l = [].
Proof. induction 1 as [|x l Hx _ IH]; [done|]. by rewrite filter_cons_False. Qed.

Lemma filter_full l : Forall P l -> filter P l = l.
Proof. induction 1 as [|x l Hx _ IH]; [done|]. by rewrite filter_cons_True, IH. Qed.
End filters.

Lemma filter_ext_in {A} (P Q : A -> Prop) `{!forall x, Decision (P x)} `{!forall x, Decision (Q x)} (l : list A) :
  (forall x, x ∈ l -> P x <-> Q x) -> filter P l = filter Q l.
Proof.
  induction l as [|x l IH]; intros Hl; [done|]. rewrite !filter_cons, IH by (intros y Hy; apply Hl; by right).
  destruct (Hl x ltac:(by left)) as [H1 H2]. do 2 case_decide; done || (exfalso; auto).
Qed.

(** Replacing an element of a list of lists. *)
Lemma concat_fmap_insert {A B} (f : A -> list B) l i x y :
  l !! i = Some x -> exists k, concat (f <$> l) ≡ₚ f x ++ k /\ concat (f <$> <[i := y]> l) ≡ₚ f y ++ k.
Proof.
  intros Hi. rewrite (insert_take_drop l i y) by (by eapply lookup_lt_Some).
  exists (concat (f <$> take i l) ++ concat (f <$> drop (S i) l)). split.
  - rewrite <-(take_drop_middle l i x Hi) at 1. rewrite fmap_app, concat_app. cbn. solve_Permutation.
  - rewrite fmap_app, concat_app. cbn. solve_Permutation.
Qed.

Lemma sum_list_insert {A} (f : A -> nat) l i x y :
  l !! i = Some x -> exists k, sum_list_with f l = (f x + k)%nat /\ sum_list_with f (<[i := y]> l) = (f y + k)%nat.
Proof.
  intros Hi. rewrite (insert_take_drop l i y) by (by eapply lookup_lt_Some).
  exists (sum_list_with f (take i l) + sum_list_with f (drop (S i) l))%nat. split.
  - rewrite <-(take_drop_middle l i x Hi) at 1. rewrite sum_list_with_app. cbn. lia.
  - rewrite sum_list_with_app. cbn. lia.
Qed.

Lemma filter_fmap {A B} (f : A -> B) (P : B -> Prop) `{!forall x, Decision (P x)} (l : list A) :
  filter P (f <$> l) = f <$> filter (fun x => P (f x)) l.
Proof.
  induction l as [|x l IH]; [done|]. rewrite fmap_cons, !filter_cons, IH. by case_decide.
Qed.

(** ** Strings *)

Fixpoint has_char (c : Ascii.ascii) (s : string) : bool :=
  match s with
  | EmptyString => false
  | String c' s => bool_decide (c = c') || has_char c s
  end.

(** Go's order on strings: bytewise lexicographic. *)
Fixpoint str_leb (a b : string) : bool :=
  match a, b with
  | EmptyString, _ => true
  | String _ _, EmptyString => false
  | String c a, String c' b =>
      let m := Ascii.N_of_ascii c in let n := Ascii.N_of_ascii c' in
      (m <? n)%N || ((m =? n)%N && str_leb a b)
  end.

Lemma str_leb_total a b : str_leb a b = true \/ str_leb b a = true.
Proof.
  revert b. induction a as [|c a IH]; intros [|c' b]; cbn; auto.
  destruct (N.lt_trichotomy (Ascii.N_of_ascii c) (Ascii.N_of_ascii c')) as [Hlt|[->|Hlt]].
  - left. by apply N.ltb_lt in Hlt as ->.
  - rewrite N.ltb_irrefl, N.eqb_refl. apply IH.
  - right. by apply N.ltb_lt in Hlt as ->.
Qed.

Lemma str_leb_antisym a b : str_leb a b = true -> str_leb b a = true -> a = b.
Proof.
  revert b. induction a as [|c a IH]; intros [|c' b]; cbn; try done.
  rewrite !orb_true_iff, !andb_true_iff, !N.ltb_lt, !N.eqb_eq.
  intros [?|[Hc Ha]] [?|[Hd Hb]]; [exfalso; lia|exfalso; lia|exfalso; lia|].
  assert (c = c') as -> by (by rewrite <-(Ascii.ascii_N_embedding c), <-(Ascii.ascii_N_embedding c'), Hc).
  by rewrite (IH b Ha Hb).
Qed.

Lemma str_leb_trans a b c : str_leb a b = true -> str_leb b c = true -> str_leb a c = true.
Proof.
  revert b c. induction a as [|x a IH]; intros [|y b] [|z c]; cbn; try done.
  rewrite !orb_true_iff, !andb_true_iff, !N.ltb_lt, !N.eqb_eq.
  intros [Hx|[Hx Ha]] [Hy|[Hy Hb]]; [left; lia|left; lia|left; lia|right].
  split; [lia|]. by apply (IH b).
Qed.

Lemma app_sep_inj c a b x y :
  has_char c a = false -> has_char c b = false ->
  (a +:+ String c x = b +:+ String c y)%string -> a = b /\ x = y.
Proof.
  revert b. induction a as [|c1 a IH]; intros [|c2 b] Ha Hb E; cbn in *; simplify_eq; auto.
  - by rewrite bool_decide_eq_true_2 in Hb.
  - by rewrite bool_decide_eq_true_2 in Ha.
  - apply orb_false_iff in Ha as [_ Ha], Hb as [_ Hb]. destruct (IH b Ha Hb) as [-> ->]; done.
Qed.

Lemma app_length_inj (a b x y : string) :
  String.length a = String.length b -> (a +:+ x = b +:+ y)%string -> a = b /\ x = y.
Proof.
  revert b. induction a as [|c1 a IH]; intros [|c2 b] Hl E; cbn in *; simplify_eq; auto.
  destruct (IH b) as [-> ->]; auto.
Qed.

Lemma pretty_N_go_char c x s :
  (forall n, c <> pretty_N_char n) -> has_char c s = false -> has_char c (pretty_N_go x s) = false.
Proof.
  intros Hc. revert s. induction (N.lt_wf_0 x) as [x _ IH]; intros s Hs.
  destruct (decide (x = 0)%N) as [->|Hx]; [done|].
  rewrite pretty_N_go_step by lia. apply IH; [apply N.div_lt; lia|].
  cbn. by rewrite bool_decide_eq_false_2.
Qed.

(** A character that is neither a digit nor the sign does not occur in a
    printed integer. *)
Lemma pretty_Z_char c (z : Z) :
  (forall n, c <> pretty_N_char n) -> c <> Ascii.ascii_of_nat 45 -> has_char c (pretty z) = false.
Proof.
  intros Hc Hd.
  assert (forall p, has_char c (pretty_N_go (N.pos p) EmptyString) = false) as Hp
    by (intros p; by apply pretty_N_go_char).
  destruct z as [|p|p].
  - change (bool_decide (c = pretty_N_char 0) || false = false).
    by rewrite bool_decide_eq_false_2 by apply Hc.
  - apply Hp.
  - change (bool_decide (c = Ascii.ascii_of_nat 45) || has_char c (pretty_N_go (N.pos p) EmptyString) = false).
    rewrite bool_decide_eq_false_2 by done. apply Hp.
Qed.

Lemma pretty_no_colon (z : Z) : has_char (Ascii.ascii_of_nat 58) (pretty z) = false.
Proof. apply pretty_Z_char; [|done]. intros n. unfold pretty_N_char. by repeat case_match. Qed.

Lemma app_string_assoc (a b c : string) : ((a +:+ b) +:+ c = a +:+ (b +:+ c))%string.
Proof.
  induction a as [|x a IH]; [done|].
  change (String x ((a +:+ b) +:+ c) = String x (a +:+ (b +:+ c)))%string. by rewrite IH.
Qed.

(** ** Errors *)

(** A Go error value.  [ErrNew] is a package-level sentinel, identified by its
    text; [ErrExt] an error produced outside the modelled code (a callback, a
    driver), identified by a number; [ErrWrap] the result of
    [fmt.Errorf("<pre>%w", e)]; [ErrSuffix] that of
    [fmt.Errorf("%w<post>", e)]; [ErrBoth] that of [fmt.Errorf("%w: %w")]
    ([errors.JoinWrap] of core/errors); [ErrJoin] that of [errors.Join]. *)
Inductive error :=
| ErrNew (text : string)
| ErrExt (id : Z) (text : string)
| ErrWrap (pre : string) (e : error)
| ErrSuffix (e : error) (post : string)
| ErrBoth (sentinel cause : error)
| ErrJoin (e1 e2 : error).

#[export] Instance error_eq_dec : EqDecision error.
Proof. solve_decision. Defined.

Module Errors.

Definition newline : Ascii.ascii := Ascii.ascii_of_nat 10.

(** [errors.Is]: the target is met at the error itself or below it. *)
Fixpoint Is (target e : error) : bool :=
  bool_decide (e = target) ||
  match e with
  | ErrNew _ | ErrExt _ _ => false
  | ErrWrap _ e => Is target e
  | ErrSuffix e _ => Is target e
  | ErrBoth e1 e2 => Is target e1 || Is target e2
  | ErrJoin e1 e2 => Is target e1 || Is target e2
  end.

(** [err.Error()]. *)
Fixpoint text (e : error) : string :=
  match e with
  | ErrNew s => s
  | ErrExt _ s => s
  | ErrWrap pre e => (pre +:+ text e)%string
  | ErrSuffix e post => (text e +:+ post)%string
  | ErrBoth e1 e2 => (text e1 +:+ ": " +:+ text e2)%string
  | ErrJoin e1 e2 => (text e1 +:+ String newline (text e2))%string
  end.

(** [errors.Join] of two possibly nil errors. *)
Definition join (a b : option error) : option error :=
  match a, b with
  | None, b => b
  | a, None => a
  | Some a, Some b => Some (ErrJoin a b)
  end.

(** core/errors: [Wrapf] (with the format already rendered),
    [WrapOperation], [JoinWrap]. *)
Definition Wrapf (e : error) (msg : string) : error := ErrWrap (msg +:+ ": ") e.
Definition WrapOperation (e : error) (op : string) : error :=
  ErrWrap ("failed to " +:+ op +:+ ": ") e.
Definition JoinWrap (sentinel cause : error) : error := ErrBoth sentinel cause.

(** The canonical sentinels of core/errors/canonical.go. *)
Definition ErrNotFound : error := ErrNew "not found".
Definition ErrAlreadyExists : error := ErrNew "already exists".
Definition ErrConflict : error := ErrNew "version conflict".
Definition ErrInvalidArgument : error := ErrNew "invalid argument".
Definition ErrBusy : error := ErrNew "busy".

Definition context_canceled : error := ErrNew "context canceled".
Definition context_deadline_exceeded : error := ErrNew "context deadline exceeded".

(** core/errors: [IsContextCanceled]. *)
Definition IsContextCanceled (e : error) : bool := Is context_canceled e.

Lemma Is_refl e : Is e e = true.
Proof. destruct e; simpl; by rewrite bool_decide_eq_true_2. Qed.

Lemma Is_JoinWrap s c : Is s (JoinWrap s c) = true /\ Is c (JoinWrap s c) = true.
Proof. simpl. rewrite !Is_refl, !orb_true_r. done. Qed.

End Errors.

(** ** A state monad with failure

    Effectful code is written over a world [W].  A run that has no result, a
    run-time panic or an exhausted fuel, is [None]: a theorem that a program
    returns is a theorem that its run is [Some]. *)

Definition M (W A : Type) : Type := W -> option (A * W).

Section monad.
Context {W : Type}.

Definition mret {A} (a : A) : M W A := fun w => Some (a, w).
Definition mbind {A B} (m : M W A) (f : A -> M W B) : M W B :=
  fun w => match m w with Some (a, w') => f a w' | None => None end.
Definition mpanic {A} : M W A := fun _ => None.
Definition mget {A} (f : W -> A) : M W A := fun w => Some (f w, w).
Definition mmod (f : W -> W) : M W unit := fun w => Some (tt, f w).

(** [m.(i)] of a slice: out of range panics. *)
Definition mindex {A} (l : list A) (i : Z) : M W A :=
  if i <? 0 then mpanic
  else match l !! Z.to_nat i with Some a => mret a | None => mpanic end.

(** Total-correctness weakest precondition. *)
Definition wp {A} (m : M W A) (Q : A -> W -> Prop) (w : W) : Prop :=
  match m w with Some (a, w') => Q a w' | None => False end.

Lemma wp_ret {A} (a : A) Q w : Q a w -> wp (mret a) Q w.
Proof. done. Qed.

Lemma wp_bind {A B} (m : M W A) (f : A -> M W B) Q w :
  wp m (fun a w' => wp (f a) Q w') w -> wp (mbind m f) Q w.
Proof. unfold wp, mbind. by destruct (m w) as [[a w']|]. Qed.

Lemma wp_mono {A} (m : M W A) (P Q : A -> W -> Prop) w :
  wp m P w -> (forall a w', P a w' -> Q a w') -> wp m Q w.
Proof. unfold wp. destruct (m w) as [[a w']|]; naive_solver. Qed.

Lemma wp_get {A} (f : W -> A) Q w : Q (f w) w -> wp (mget f) Q w.
Proof. done. Qed.

Lemma wp_mod f Q w : Q tt (f w) -> wp (mmod f) Q w.
Proof. done. Qed.

Lemma wp_index {A} (l : list A) (i : Z) (a : A) Q w :
  0 <= i -> l !! Z.to_nat i = Some a -> Q a w -> wp (mindex l i) Q w.
Proof.
  intros Hi Hl HQ. unfold mindex.
  destruct (Z.ltb_spec i 0) as [?|_]; [lia|]. by rewrite Hl.
Qed.

Lemma wp_run {A} (m : M W A) Q w :
  wp m Q w -> exists a w', m w = Some (a, w') /\ Q a w'.
Proof. unfold wp. destruct (m w) as [[a w']|]; naive_solver. Qed.

Lemma wp_elim {A} (m : M W A) Q w a w' :
  wp m Q w -> m w = Some (a, w') -> Q a w'.
Proof. unfold wp. intros H E. by rewrite E in H. Qed.
End monad.
#[export] Hint Resolve wp_ret wp_get wp_mod : go.

(** [wp_seq tac]: run the first computation of a sequence with [tac], and go on
    with the rest under its postcondition. *)
Ltac wp_seq tac := apply wp_bind; eapply wp_mono; [tac|cbv beta].

(** ** Local variables captured by a closure

    [mwith l m] runs [m] over the world extended with the variables [l] and
    returns their final values; [mlift m] is [m] inside such a scope. *)
Section locals.
Context {W L A : Type}.

Definition mwith (l : L) (m : M (W * L) A) : M W (A * L) :=
  fun w => match m (w, l) with Some (a, (w', l')) => Some ((a, l'), w') | None => None end.
Definition mlift (m : M W A) : M (W * L) A :=
  fun wl => match m wl.1 with Some (a, w') => Some (a, (w', wl.2)) | None => None end.

Lemma wp_with l (m : M (W * L) A) Q w :
  wp m (fun a wl => Q (a, wl.2) wl.1) (w, l) -> wp (mwith l m) Q w.
Proof. unfold wp, mwith. by destruct (m (w, l)) as [[a [w' l']]|]. Qed.

Lemma wp_lift (m : M W A) Q wl :
  wp m (fun a w' => Q a (w', wl.2)) wl.1 -> wp (mlift m) Q wl.
Proof. unfold wp, mlift. by destruct (m wl.1) as [[a w']|]. Qed.
End locals.

Declare Scope go_scope.
Delimit Scope go_scope with go.
Notation "'let*' x := c 'in' k" := (mbind c (fun x => k))
  (at level 10, x pattern, c at level 100, k at level 200) : go_scope.
Notation "'do*' c 'in' k" := (mbind c (fun _ => k))
  (at level 10, c at level 100, k at level 200) : go_scope.

Example let_star_example :
  (let* (a, b) := mret (1, 2) in do* mmod (Z.add a) in let* w := mget id in mret (w + b))%go 5
  = Some (8, 6).
Proof. reflexivity. Qed.
