(* ===== verification/GoBytes.v ===== *)
(** * Bytes: the parts of Go's standard library the components share

    Byte slices with their lengths and slices, fixed-width and variable-width
    integers ([encoding/binary]), the checksum of [hash/crc32], strict base64
    ([encoding/base64]), and [crypto/sha256] with [crypto/hmac]. *)

From S2P Require Import Prelude.
From Stdlib Require Import Strings.Byte.

Module GoBytes.

Abbreviation bytes := (list byte) (only parsing).

Definition zlen {A} (l : list A) : Z := Z.of_nat (length l).

#[export] Instance byte_eq_dec : EqDecision byte := Byte.byte_eq_dec.

(** [b[i:j]] of a byte slice. *)
Definition zslice {A} (i j : Z) (l : list A) : list A :=
  take (Z.to_nat (j - i)) (drop (Z.to_nat i) l).

(** ** Bytes and integers *)

#[export] Instance byte_countable : Countable byte.
Proof. refine (inj_countable Byte.to_N Byte.of_N Byte.of_to_N). Defined.

Definition byte_of_Z (z : Z) : byte := default x00 (Byte.of_N (Z.to_N (z mod 256))).
Definition Z_of_byte (b : byte) : Z := Z.of_N (Byte.to_N b).

(** [binary.LittleEndian.AppendUint32] and [binary.LittleEndian.Uint32]. *)
Definition AppendUint32 (b : bytes) (v : Z) : bytes :=
  b ++ [byte_of_Z v; byte_of_Z (v / 2 ^ 8); byte_of_Z (v / 2 ^ 16); byte_of_Z (v / 2 ^ 24)].

Definition Uint32 (b : bytes) : Z :=
  match b with
  | b0 :: b1 :: b2 :: b3 :: _ =>
      Z_of_byte b0 + Z_of_byte b1 * 2 ^ 8 + Z_of_byte b2 * 2 ^ 16 + Z_of_byte b3 * 2 ^ 24
  | _ => 0
  end.

(** [crc32.ChecksumIEEE]: the reflected polynomial 0xEDB88320, bit by bit. *)
Definition crc_shift (c : Z) : Z :=
  if Z.odd c then Z.lxor (Z.shiftr c 1) 0xEDB88320 else Z.shiftr c 1.
Definition crc_update (c : Z) (b : byte) : Z := Nat.iter 8 crc_shift (Z.lxor c (Z_of_byte b)).
Definition ChecksumIEEE (p : bytes) : Z :=
  Z.lxor (fold_left crc_update p 0xFFFFFFFF) 0xFFFFFFFF.

(** ** Integers of [encoding/binary] *)

(** [binary.BigEndian.AppendUint64] and [binary.BigEndian.Uint64]. *)
Fixpoint be_bytes (k : nat) (v : Z) : bytes :=
  match k with
  | O => []
  | S k => byte_of_Z (v / 2 ^ (8 * Z.of_nat k)) :: be_bytes k v
  end.
Definition AppendUint64 (b : bytes) (v : Z) : bytes := b ++ be_bytes 8 v.

Definition be_value (b : bytes) : Z := fold_left (fun n c => n * 256 + Z_of_byte c) b 0.
Definition Uint64 (b : bytes) : Z := be_value (take 8 b).

(** [binary.AppendUvarint], with fuel for the seven-bit groups of a 64-bit
    value, and [binary.Uvarint], which returns the value and the number of
    bytes it read, not positive when the encoding is cut short or overflows. *)
Fixpoint uvarint_groups (fuel : nat) (x : Z) : bytes :=
  match fuel with
  | O => []
  | S fuel => if x <? 128 then [byte_of_Z x] else byte_of_Z (x mod 128 + 128) :: uvarint_groups fuel (x / 128)
  end.
Definition MaxVarintLen64 : nat := 10.
Definition AppendUvarint (b : bytes) (x : Z) : bytes := b ++ uvarint_groups MaxVarintLen64 x.

Fixpoint uvarint_loop (i : nat) (x s : Z) (b : bytes) : Z * Z :=
  match b with
  | [] => (0, 0)
  | c :: b =>
      if (i =? MaxVarintLen64)%nat then (0, - Z.of_nat (S i))
      else if Z_of_byte c <? 128 then
        if (i =? MaxVarintLen64 - 1)%nat && (1 <? Z_of_byte c) then (0, - Z.of_nat (S i))
        else (Z.lor x (Z.shiftl (Z_of_byte c) s), Z.of_nat (S i))
      else uvarint_loop (S i) (Z.lor x (Z.shiftl (Z.land (Z_of_byte c) 127) s)) (s + 7) b
  end.
Definition Uvarint (b : bytes) : Z * Z := uvarint_loop 0 0 0 b.

(** ** Strict base64 *)

(** [base64.RawURLEncoding.Strict()]: the URL-safe alphabet, no padding, and
    unused bits of the last character that are zero. *)
Definition b64_char (v : Z) : byte :=
  byte_of_Z (if v <? 26 then 65 + v else if v <? 52 then 71 + v else if v <? 62 then v - 4 else if v =? 62 then 45 else 95).
Definition b64_value (c : byte) : option Z :=
  let v := Z_of_byte c in
  if (65 <=? v) && (v <=? 90) then Some (v - 65)
  else if (97 <=? v) && (v <=? 122) then Some (v - 71)
  else if (48 <=? v) && (v <=? 57) then Some (v + 4)
  else if v =? 45 then Some 62 else if v =? 95 then Some 63 else None.

Fixpoint b64_encode (l : bytes) : bytes :=
  match l with
  | a :: b :: c :: l =>
      let v := Z_of_byte a * 65536 + Z_of_byte b * 256 + Z_of_byte c in
      b64_char (v / 262144) :: b64_char (v / 4096 mod 64) :: b64_char (v / 64 mod 64) :: b64_char (v mod 64) :: b64_encode l
  | [a; b] =>
      let v := Z_of_byte a * 65536 + Z_of_byte b * 256 in
      [b64_char (v / 262144); b64_char (v / 4096 mod 64); b64_char (v / 64 mod 64)]
  | [a] =>
      let v := Z_of_byte a * 65536 in [b64_char (v / 262144); b64_char (v / 4096 mod 64)]
  | [] => []
  end.

(** The number of characters and of bytes. *)
Definition EncodedLen (n : Z) : Z := n / 3 * 4 + (n mod 3 * 8 + 5) / 6.

Fixpoint b64_quanta (l : list Z) : option bytes :=
  match l with
  | v1 :: v2 :: v3 :: v4 :: l =>
      let v := v1 * 262144 + v2 * 4096 + v3 * 64 + v4 in
      (fun r => byte_of_Z (v / 65536) :: byte_of_Z (v / 256) :: byte_of_Z v :: r) <$> b64_quanta l
  | [v1; v2; v3] =>
      let v := v1 * 262144 + v2 * 4096 + v3 * 64 in
      if v mod 256 =? 0 then Some [byte_of_Z (v / 65536); byte_of_Z (v / 256)] else None
  | [v1; v2] =>
      let v := v1 * 262144 + v2 * 4096 in if v mod 65536 =? 0 then Some [byte_of_Z (v / 65536)] else None
  | [_] => None
  | [] => Some []
  end.

(** The decoder skips carriage returns and line feeds. *)
Definition is_newline (c : byte) : bool := (Z_of_byte c =? 10) || (Z_of_byte c =? 13).
Definition b64_decode (l : bytes) : option bytes :=
  mapM b64_value (filter (fun c => is_newline c = false) l) ≫= b64_quanta.

(** ** SHA-256 and HMAC *)

Definition w32 (z : Z) : Z := z mod 2 ^ 32.
Definition rotr (n x : Z) : Z := w32 (Z.lor (Z.shiftr x n) (Z.shiftl x (32 - n))).

(** The constants are those of the standard: the first 32 bits of the fractional
    parts of the cube roots of the first 64 primes, and of the square roots of
    the first eight. *)
Definition is_prime (n : nat) : bool := forallb (fun d => negb (n mod d =? 0)%nat) (seq 2 (n - 2)).
Definition first_primes : list Z := Eval vm_compute in Z.of_nat <$> List.filter is_prime (seq 2 310).

(** The integer cube root below [2 ^ n], from the highest bit down. *)
Fixpoint cbrt (n : nat) (x r : Z) : Z :=
  match n with
  | O => r
  | S n => let r' := r + 2 ^ Z.of_nat n in cbrt n x (if r' ^ 3 <=? x then r' else r)
  end.

Definition sha_k : list Z := Eval vm_compute in (fun p => cbrt 35 (p * 2 ^ 96) 0 mod 2 ^ 32) <$> first_primes.

Record sha_state := mkSha { s_a : Z; s_b : Z; s_c : Z; s_d : Z; s_e : Z; s_f : Z; s_g : Z; s_h : Z }.
Definition sha_init : sha_state := Eval vm_compute in
  match (fun p => Z.sqrt (p * 2 ^ 64) mod 2 ^ 32) <$> take 8 first_primes with
  | [a; b; c; d; e; f; g; h] => mkSha a b c d e f g h
  | _ => mkSha 0 0 0 0 0 0 0 0
  end.

(** The message schedule, the newest word first. *)
Fixpoint sha_schedule (n : nat) (ws : list Z) : list Z :=
  match n with
  | O => ws
  | S n =>
      let w k := default 0 (ws !! k) in
      let s0 := Z.lxor (Z.lxor (rotr 7 (w 14%nat)) (rotr 18 (w 14%nat))) (Z.shiftr (w 14%nat) 3) in
      let s1 := Z.lxor (Z.lxor (rotr 17 (w 1%nat)) (rotr 19 (w 1%nat))) (Z.shiftr (w 1%nat) 10) in
      sha_schedule n (w32 (w 15%nat + s0 + w 6%nat + s1) :: ws)
  end.

Definition sha_round (s : sha_state) (kw : Z * Z) : sha_state :=
  let '(mkSha a b c d e f g h) := s in
  let s1 := Z.lxor (Z.lxor (rotr 6 e) (rotr 11 e)) (rotr 25 e) in
  let ch := Z.lxor (Z.land e f) (Z.land (Z.lxor e 0xffffffff) g) in
  let t1 := h + s1 + ch + kw.1 + kw.2 in
  let s0 := Z.lxor (Z.lxor (rotr 2 a) (rotr 13 a)) (rotr 22 a) in
  let maj := Z.lxor (Z.lxor (Z.land a b) (Z.land a c)) (Z.land b c) in
  mkSha (w32 (t1 + s0 + maj)) a b c (w32 (d + t1)) e f g.

Definition sha_add (s t : sha_state) : sha_state :=
  let '(mkSha a b c d e f g h) := s in
  let '(mkSha a' b' c' d' e' f' g' h') := t in
  mkSha (w32 (a + a')) (w32 (b + b')) (w32 (c + c')) (w32 (d + d')) (w32 (e + e')) (w32 (f + f')) (w32 (g + g')) (w32 (h + h')).

Fixpoint be_words (n : nat) (b : bytes) : list Z :=
  match n with O => [] | S n => be_value (take 4 b) :: be_words n (drop 4 b) end.

Definition sha_block (s : sha_state) (b : bytes) : sha_state :=
  let ws := rev (sha_schedule 48 (rev (be_words 16 b))) in
  sha_add s (fold_left sha_round (zip sha_k ws) s).

Fixpoint sha_blocks (n : nat) (s : sha_state) (b : bytes) : sha_state :=
  match n with O => s | S n => sha_blocks n (sha_block s (take 64 b)) (drop 64 b) end.

Definition sha_pad (msg : bytes) : bytes :=
  msg ++ x80 :: repeat x00 (Z.to_nat ((55 - zlen msg) mod 64)) ++ be_bytes 8 (8 * zlen msg).

Definition sha_bytes (s : sha_state) : bytes :=
  let '(mkSha a b c d e f g h) := s in
  be_bytes 4 a ++ be_bytes 4 b ++ be_bytes 4 c ++ be_bytes 4 d ++
  be_bytes 4 e ++ be_bytes 4 f ++ be_bytes 4 g ++ be_bytes 4 h.

Definition Sum256 (msg : bytes) : bytes :=
  let p := sha_pad msg in sha_bytes (sha_blocks (length p / 64) sha_init p).

Definition xor_bytes (v : Z) (b : bytes) : bytes := (fun c => byte_of_Z (Z.lxor (Z_of_byte c) v)) <$> b.

Definition hmac (key msg : bytes) : bytes :=
  let key := if (64 <? length key)%nat then Sum256 key else key in
  let key := key ++ repeat x00 (64 - length key) in
  Sum256 (xor_bytes 0x5c key ++ Sum256 (xor_bytes 0x36 key ++ msg)).

(** [hmac.Equal], the constant-time comparison. *)
Definition hmac_Equal (a b : bytes) : bool := bool_decide (a = b).

(** ** Lengths *)

Lemma zlen_app {A} (l k : list A) : zlen (l ++ k) = zlen l + zlen k.
Proof. unfold zlen. rewrite length_app. lia. Qed.

Lemma zlen_nonneg {A} (l : list A) : 0 <= zlen l.
Proof. unfold zlen. lia. Qed.

Lemma zlen_cons {A} (x : A) l : zlen (x :: l) = 1 + zlen l.
Proof. unfold zlen. cbn. lia. Qed.

Lemma zlen_take {A} n (l : list A) : zlen (take n l) = Z.min (Z.of_nat n) (zlen l).
Proof. unfold zlen. rewrite length_take. lia. Qed.

Lemma to_nat_zlen {A} (l : list A) : Z.to_nat (zlen l) = length l.
Proof. unfold zlen. lia. Qed.

(** ** Bytes and checksums *)

Lemma Z_of_byte_range b : 0 <= Z_of_byte b < 256.
Proof. unfold Z_of_byte. pose proof (Byte.to_N_bounded b). lia. Qed.

Lemma Z_of_byte_of_Z z : Z_of_byte (byte_of_Z z) = z mod 256.
Proof.
  unfold byte_of_Z, Z_of_byte. pose proof (Z.mod_pos_bound z 256 ltac:(lia)).
  pose proof (Byte.to_of_N_option_map (Z.to_N (z mod 256))) as E.
  destruct (Byte.of_N (Z.to_N (z mod 256))) as [b|] eqn:Hb; cbn.
  - apply Byte.to_of_N in Hb. rewrite Hb. lia.
  - apply Byte.of_N_None_iff in Hb. lia.
Qed.

Lemma byte_of_Z_eq z b : z mod 256 = Z_of_byte b -> byte_of_Z z = b.
Proof. intros E. unfold byte_of_Z, Z_of_byte in *. by rewrite E, N2Z.id, Byte.of_to_N. Qed.

Lemma Uint32_nonneg l : 0 <= Uint32 l.
Proof.
  destruct l as [|b0 [|b1 [|b2 [|b3 l]]]]; cbn; try lia.
  pose proof (Z_of_byte_range b0). pose proof (Z_of_byte_range b1).
  pose proof (Z_of_byte_range b2). pose proof (Z_of_byte_range b3). lia.
Qed.

Lemma lxor_range n a b : 0 <= n -> 0 <= a < 2 ^ n -> 0 <= b < 2 ^ n -> 0 <= Z.lxor a b < 2 ^ n.
Proof.
  intros Hn Ha Hb. assert (0 <= Z.lxor a b) by (apply Z.lxor_nonneg; lia). split; [done|].
  destruct (Z.eq_dec (Z.lxor a b) 0) as [->|]; [lia|].
  apply Z.log2_lt_pow2; [lia|]. eapply Z.le_lt_trans; [apply Z.log2_lxor; lia|].
  destruct (Z.eq_dec a 0) as [->|]; [|destruct (Z.eq_dec b 0) as [->|]].
  - rewrite Z.lxor_0_l in *. change (Z.log2 0) with 0. apply Z.max_lub_lt.
    + destruct (Z.eq_dec n 0) as [->|]; lia.
    + apply Z.log2_lt_pow2; lia.
  - rewrite Z.lxor_0_r in *. change (Z.log2 0) with 0. apply Z.max_lub_lt.
    + apply Z.log2_lt_pow2; lia.
    + destruct (Z.eq_dec n 0) as [->|]; lia.
  - apply Z.max_lub_lt; apply Z.log2_lt_pow2; lia.
Qed.

Lemma crc_shift_range c : 0 <= c < 2 ^ 32 -> 0 <= crc_shift c < 2 ^ 32.
Proof.
  intros Hc. unfold crc_shift.
  assert (0 <= Z.shiftr c 1 < 2 ^ 32) by (rewrite Z.shiftr_div_pow2 by lia; lia_mod).
  case_match; [|done]. by apply lxor_range.
Qed.

Lemma ChecksumIEEE_range p : 0 <= ChecksumIEEE p < 2 ^ 32.
Proof.
  unfold ChecksumIEEE. apply lxor_range; [lia| |lia].
  assert (forall c, 0 <= c < 2 ^ 32 -> 0 <= fold_left crc_update p c < 2 ^ 32) as H; [|by apply H].
  induction p as [|b p IH]; intros c Hc; [done|]. cbn. apply IH. unfold crc_update. cbn [Nat.iter].
  do 8 apply crc_shift_range. pose proof (Z_of_byte_range b). apply lxor_range; lia.
Qed.

(** ** Integers *)

Lemma length_be_bytes k v : length (be_bytes k v) = k.
Proof. induction k as [|k IH]; [done|]. cbn. by rewrite IH. Qed.

Lemma be_value_snoc b c : be_value (b ++ [c]) = be_value b * 256 + Z_of_byte c.
Proof. unfold be_value. by rewrite fold_left_app. Qed.

Lemma be_bytes_S k v : be_bytes (S k) v = be_bytes k (v / 256) ++ [byte_of_Z v].
Proof.
  induction k as [|k IH]; [cbn; by rewrite Z.div_1_r|].
  change (be_bytes (S (S k)) v) with (byte_of_Z (v / 2 ^ (8 * Z.of_nat (S k))) :: be_bytes (S k) v).
  rewrite IH. cbn [be_bytes app]. do 2 f_equal.
  rewrite Z.div_div by lia. f_equal. change 256 with (2 ^ 8). rewrite <-Z.pow_add_r by lia. f_equal. lia.
Qed.

Lemma be_value_bytes k v : be_value (be_bytes k v) = v mod 2 ^ (8 * Z.of_nat k).
Proof.
  revert v. induction k as [|k IH]; intros v; [cbn; by rewrite Z.mod_1_r|].
  rewrite be_bytes_S, be_value_snoc, IH, Z_of_byte_of_Z.
  replace (8 * Z.of_nat (S k)) with (8 + 8 * Z.of_nat k) by lia. rewrite Z.pow_add_r by lia. change (2 ^ 8) with 256.
  rewrite Z.rem_mul_r by lia. lia.
Qed.

Lemma lor_shiftl a v s : 0 <= s -> 0 <= a < 2 ^ s -> 0 <= v -> Z.lor a (Z.shiftl v s) = a + v * 2 ^ s.
Proof.
  intros Hs Ha Hv. rewrite <-Z.shiftl_mul_pow2 by lia. symmetry. apply Z.add_nocarry_lor.
  apply Z.bits_inj'. intros n Hn. rewrite Z.land_spec, Z.bits_0. destruct (decide (n < s)) as [Hlt|Hge].
  - rewrite (Z.shiftl_spec_low v) by lia. apply andb_false_r.
  - destruct (Z.eq_dec a 0) as [->|]; [by rewrite Z.bits_0|].
    assert (Z.log2 a < s) by (apply Z.log2_lt_pow2; lia). rewrite (Z.bits_above_log2 a n); [done|lia|lia].
Qed.

Lemma uvarint_loop_groups fuel i x s y rest :
  (i + fuel = MaxVarintLen64)%nat -> s = 7 * Z.of_nat i -> 0 <= x < 2 ^ s -> 0 <= y -> y * 2 ^ s < 2 ^ 64 ->
  (0 < fuel)%nat ->
  uvarint_loop i x s (uvarint_groups fuel y ++ rest) =
    (x + y * 2 ^ s, Z.of_nat (i + length (uvarint_groups fuel y))).
Proof.
  revert i x s y. induction fuel as [|fuel IH]; intros i x s y Hi Hs Hx Hy Hm Hf; [lia|].
  unfold MaxVarintLen64 in *. cbn [uvarint_groups]. destruct (Z.ltb_spec y 128) as [Hlt|Hge].
  - cbn [app uvarint_loop length]. rewrite Z_of_byte_of_Z, Z.mod_small by lia.
    replace (i =? MaxVarintLen64)%nat with false by (symmetry; apply Nat.eqb_neq; unfold MaxVarintLen64; lia).
    replace (y <? 128) with true by lia.
    replace ((i =? MaxVarintLen64 - 1)%nat && (1 <? y)) with false.
    + rewrite lor_shiftl by lia. f_equal. lia.
    + symmetry. apply andb_false_iff. destruct (decide (i = 9%nat)) as [->|Hne]; [right|left; apply Nat.eqb_neq; unfold MaxVarintLen64; lia].
      change (7 * Z.of_nat 9) with 63 in Hs. subst s. apply Z.ltb_ge. lia.
  - cbn [app uvarint_loop length]. rewrite Z_of_byte_of_Z.
    pose proof (Z.mod_pos_bound y 128 ltac:(lia)). rewrite Z.mod_small by lia.
    replace (i =? MaxVarintLen64)%nat with false by (symmetry; apply Nat.eqb_neq; unfold MaxVarintLen64; lia).
    replace (y mod 128 + 128 <? 128) with false by lia.
    replace (Z.land (y mod 128 + 128) 127) with (y mod 128)
      by (change 127 with (Z.ones 7); rewrite Z.land_ones by lia; change (2 ^ 7) with 128; lia_mod).
    rewrite lor_shiftl by lia. rewrite IH; [| |lia| | | |].
    + f_equal; [|lia]. rewrite Z.pow_add_r by lia. pose proof (Z.div_mod y 128 ltac:(lia)). nia.
    + lia.
    + rewrite Z.pow_add_r by lia. change (2 ^ 7) with 128. nia.
    + apply Z.div_pos; lia.
    + rewrite Z.pow_add_r by lia. pose proof (Z.div_mod y 128 ltac:(lia)). nia.
    + destruct fuel; [|lia]. assert (i = 9%nat) as -> by lia. change (7 * Z.of_nat 9) with 63 in Hs. subst s. lia.
Qed.

Lemma Uvarint_append x rest :
  0 <= x < 2 ^ 64 -> Uvarint (uvarint_groups MaxVarintLen64 x ++ rest) = (x, zlen (uvarint_groups MaxVarintLen64 x)).
Proof.
  intros Hx. unfold Uvarint. rewrite (uvarint_loop_groups MaxVarintLen64 0 0 0); [|done|done|done|lia|lia|unfold MaxVarintLen64; lia].
  f_equal. lia.
Qed.

(** ** Base64 *)

(** A property of all values of a range, by evaluation. *)
Lemma range_check (P : Z -> bool) n v : forallb P (seqZ 0 n) = true -> 0 <= v < n -> P v = true.
Proof. intros H Hv. apply (proj1 (forallb_forall _ _) H), list_elem_of_In, elem_of_seqZ. lia. Qed.

Lemma b64_value_char v : 0 <= v < 64 -> b64_value (b64_char v) = Some v.
Proof.
  intros Hv. pose proof (range_check (fun v => bool_decide (b64_value (b64_char v) = Some v)) 64 v) as H.
  apply bool_decide_eq_true_1 in H; [done|by vm_compute|done].
Qed.

Definition b64_char_check (c : byte) : bool :=
  match b64_value c with
  | Some v => (0 <=? v) && (v <? 64) && bool_decide (b64_char v = c) && negb (is_newline c)
  | None => true
  end.

Lemma b64_value_range c v : b64_value c = Some v -> 0 <= v < 64 /\ b64_char v = c /\ is_newline c = false.
Proof.
  assert (b64_char_check c = true) as H.
  { rewrite <-(byte_of_Z_eq (Z_of_byte c) c) by (pose proof (Z_of_byte_range c); lia_mod).
    apply (range_check (fun z => b64_char_check (byte_of_Z z)) 256); [by vm_compute|apply Z_of_byte_range]. }
  unfold b64_char_check in H. intros E. rewrite E in H. rewrite !andb_true_iff in H. destruct H as [[[H1 H2] H3] H4].
  apply bool_decide_eq_true_1 in H3. apply negb_true_iff in H4. split_and!; [lia|lia|done|done].
Qed.

Lemma b64_char_plain v : 0 <= v < 64 -> is_newline (b64_char v) = false.
Proof. intros Hv. apply (b64_value_range _ v), b64_value_char, Hv. Qed.

(** The characters of an encoding, by value. *)
Fixpoint b64_values (l : bytes) : list Z :=
  match l with
  | a :: b :: c :: l =>
      let v := Z_of_byte a * 65536 + Z_of_byte b * 256 + Z_of_byte c in
      v / 262144 :: v / 4096 mod 64 :: v / 64 mod 64 :: v mod 64 :: b64_values l
  | [a; b] => let v := Z_of_byte a * 65536 + Z_of_byte b * 256 in [v / 262144; v / 4096 mod 64; v / 64 mod 64]
  | [a] => let v := Z_of_byte a * 65536 in [v / 262144; v / 4096 mod 64]
  | [] => []
  end.

(** Induction over a list in groups of three, and of four. *)
Lemma list_ind3 {A} (P : list A -> Prop) :
  P [] -> (forall a, P [a]) -> (forall a b, P [a; b]) -> (forall a b c l, P l -> P (a :: b :: c :: l)) -> forall l, P l.
Proof. intros H0 H1 H2 H3. fix IH 1. intros [|a [|b [|c l]]]; [apply H0|apply H1|apply H2|apply H3, IH]. Qed.

Lemma list_ind4 {A} (P : list A -> Prop) :
  P [] -> (forall a, P [a]) -> (forall a b, P [a; b]) -> (forall a b c, P [a; b; c]) ->
  (forall a b c d l, P l -> P (a :: b :: c :: d :: l)) -> forall l, P l.
Proof.
  intros H0 H1 H2 H3 H4. fix IH 1. intros [|a [|b [|c [|d l]]]]; [apply H0|apply H1|apply H2|apply H3|apply H4, IH].
Qed.

Ltac byte_ranges := repeat match goal with b : byte |- _ =>
  lazymatch goal with _ : 0 <= Z_of_byte b < 256 |- _ => fail | _ => pose proof (Z_of_byte_range b) end end.

Lemma b64_encode_values l : b64_encode l = b64_char <$> b64_values l /\ Forall (fun v => 0 <= v < 64) (b64_values l).
Proof.
  induction l as [|a|a b|a b c l [IH1 IH2]] using list_ind3; byte_ranges.
  - by split.
  - split; [done|]. cbn. repeat constructor; lia_mod.
  - split; [done|]. cbn. repeat constructor; lia_mod.
  - split; [cbn; by rewrite IH1|]. cbn. repeat (constructor; [lia_mod|]). done.
Qed.

Lemma b64_quanta_values l : b64_quanta (b64_values l) = Some l.
Proof.
  induction l as [|a|a b|a b c l IH] using list_ind3; byte_ranges; cbn [b64_values b64_quanta].
  - done.
  - rewrite (proj2 (Z.eqb_eq _ _)) by lia_mod. do 2 f_equal. apply byte_of_Z_eq. lia_mod.
  - rewrite (proj2 (Z.eqb_eq _ _)) by lia_mod. do 2 f_equal; [|f_equal]; apply byte_of_Z_eq; lia_mod.
  - rewrite IH. cbn. do 2 f_equal; [|f_equal; [|f_equal]]; apply byte_of_Z_eq; lia_mod.
Qed.

Lemma b64_values_quanta vs l : Forall (fun v => 0 <= v < 64) vs -> b64_quanta vs = Some l -> b64_values l = vs.
Proof.
  revert l. induction vs as [|a|a b|a b c|a b c d vs IH] using list_ind4; intros l HF; cbn [b64_quanta]; intros H.
  - by injection H as <-.
  - done.
  - destruct (Z.eqb_spec ((a * 262144 + b * 4096) mod 65536) 0) as [E|]; [|done]. injection H as <-.
    inversion HF as [|? ? ? HF1]; inversion HF1 as [|? ? ?]; subst. cbn. rewrite !Z_of_byte_of_Z. f_equal; [|f_equal]; lia_mod.
  - destruct (Z.eqb_spec ((a * 262144 + b * 4096 + c * 64) mod 256) 0) as [E|]; [|done]. injection H as <-.
    inversion HF as [|? ? ? HF1]; inversion HF1 as [|? ? ? HF2]; inversion HF2; subst. cbn. rewrite !Z_of_byte_of_Z.
    f_equal; [|f_equal; [|f_equal]]; lia_mod.
  - apply fmap_Some in H as (r & Hr & ->).
    inversion HF as [|? ? ? HF1]; inversion HF1 as [|? ? ? HF2]; inversion HF2 as [|? ? ? HF3]; inversion HF3; subst.
    cbn. rewrite !Z_of_byte_of_Z, (IH r) by done. f_equal; [|f_equal; [|f_equal; [|f_equal]]]; lia_mod.
Qed.

Lemma filter_plain l : Forall (fun c => is_newline c = false) l -> filter (fun c => is_newline c = false) l = l.
Proof. induction 1 as [|c l Hc _ IH]; [done|]. rewrite filter_cons, decide_True by done. by rewrite IH. Qed.

Lemma mapM_values vs : Forall (fun v => 0 <= v < 64) vs -> mapM b64_value (b64_char <$> vs) = Some vs.
Proof. intros HF. apply mapM_Some. induction HF; cbn; constructor; [by apply b64_value_char|done]. Qed.

Lemma values_mapM s vs :
  mapM b64_value s = Some vs -> Forall (fun v => 0 <= v < 64) vs /\ b64_char <$> vs = s /\ Forall (fun c => is_newline c = false) s.
Proof.
  rewrite mapM_Some. induction 1 as [|c v s vs Hc _ (IH1 & IH2 & IH3)]; [done|].
  apply b64_value_range in Hc as (? & Hc & ?). cbn. rewrite Hc, IH2. split_and!; by constructor.
Qed.

Lemma b64_encode_plain l : Forall (fun c => is_newline c = false) (b64_encode l).
Proof.
  destruct (b64_encode_values l) as [-> HF]. apply list.Forall_fmap. eapply Forall_impl; [exact HF|]. intros v. apply b64_char_plain.
Qed.

Lemma b64_decode_encode l : b64_decode (b64_encode l) = Some l.
Proof.
  unfold b64_decode. rewrite filter_plain by apply b64_encode_plain. destruct (b64_encode_values l) as [-> HF].
  rewrite (mapM_values _ HF). apply b64_quanta_values.
Qed.

(** The strict decoder accepts one encoding only. *)
Lemma b64_encode_decode s l : Forall (fun c => is_newline c = false) s -> b64_decode s = Some l -> b64_encode l = s.
Proof.
  intros Hs H. unfold b64_decode in H. rewrite (filter_plain s Hs) in H. apply bind_Some in H as (vs & Hv & Hq).
  apply values_mapM in Hv as (HF & <- & _). destruct (b64_encode_values l) as [-> _]. by rewrite (b64_values_quanta vs l).
Qed.

Lemma b64_encode_app a b k : length a = (3 * k)%nat -> b64_encode (a ++ b) = b64_encode a ++ b64_encode b.
Proof.
  revert k. induction a as [|x|x y|x y z a IH] using list_ind3; intros k H; cbn [length] in H; [done|lia|lia|].
  cbn [app b64_encode]. rewrite (IH (k - 1)%nat) by lia. done.
Qed.

Lemma b64_quanta_app a b k :
  length a = (4 * k)%nat -> b64_quanta (a ++ b) = b64_quanta a ≫= fun x => b64_quanta b ≫= fun y => Some (x ++ y).
Proof.
  revert k. induction a as [|x|x y|x y z|x y z w a IH] using list_ind4; intros k H; cbn [length] in H; [|lia|lia|lia|].
  - cbn. by destruct (b64_quanta b).
  - cbn [app b64_quanta]. rewrite (IH (k - 1)%nat) by lia.
    destruct (b64_quanta a); cbn; [|done]. by destruct (b64_quanta b).
Qed.

Lemma mapM_option_app {A B} (f : A -> option B) (l k : list A) :
  mapM f (l ++ k) = mapM f l ≫= fun x => mapM f k ≫= fun y => Some (x ++ y).
Proof.
  induction l as [|a l IH]; [cbn; by destruct (mapM f k)|]. cbn. destruct (f a); [|done]. cbn. rewrite IH.
  destruct (mapM f l); [|done]. cbn. by destruct (mapM f k).
Qed.

Lemma b64_decode_app a b k :
  Forall (fun c => is_newline c = false) a -> length a = (4 * k)%nat ->
  b64_decode (a ++ b) = b64_decode a ≫= fun x => b64_decode b ≫= fun y => Some (x ++ y).
Proof.
  intros Ha Hl. unfold b64_decode. rewrite filter_app, (filter_plain a Ha), mapM_option_app.
  destruct (mapM b64_value a) as [vs|] eqn:Hv; [|done]. cbn.
  destruct (mapM b64_value (filter _ b)) as [ws|]; cbn.
  - apply (b64_quanta_app _ _ k). by rewrite <-(length_mapM _ _ _ Hv).
  - by destruct (b64_quanta vs).
Qed.

Lemma length_b64_encode l : zlen (b64_encode l) = EncodedLen (zlen l).
Proof.
  unfold EncodedLen. induction l as [|a|a b|a b c l IH] using list_ind3; try done.
  cbn [b64_encode]. rewrite !zlen_cons, IH. lia_mod.
Qed.

(** ** Hashes *)

Lemma length_Sum256 msg : length (Sum256 msg) = 32%nat.
Proof. unfold Sum256, sha_bytes. destruct (sha_blocks _ _ _). by rewrite !length_app, !length_be_bytes. Qed.

Lemma length_hmac key msg : length (hmac key msg) = 32%nat.
Proof. apply length_Sum256. Qed.

(** The test vectors of FIPS 180-4 and RFC 4231. *)
Example Sum256_abc : be_value (Sum256 (String.list_byte_of_string "abc")) =
  0xba7816bf8f01cfea414140de5dae2223b00361a396177a9cb410ff61f20015ad.
Proof. by vm_compute. Qed.

Example hmac_rfc4231_2 :
  be_value (hmac (String.list_byte_of_string "Jefe") (String.list_byte_of_string "what do ya want for nothing?")) =
  0x5bdcc146bf60754e6a042426089575c75a003f089d2739839dec58b964ec3843.
Proof. by vm_compute. Qed.

End GoBytes.
