(* ===== verification/GoStrings.v ===== *)
(** * Strings: the parts of Go's strings, strconv and encoding/hex in use

    A Go string is its bytes.  White space is that of [unicode.IsSpace] in its
    UTF-8 encodings: a lead byte never occurs inside another encoding, so a
    scan by bytes finds the same runs of spaces as one by runes. *)

From S2P Require Import Prelude GoBytes.
From Stdlib Require Import Strings.Byte.

Module GoStrings.
Import GoBytes.

Definition bs (s : string) : bytes := String.list_byte_of_string s.

(** ** Decimal integers *)

Definition digit_byte (d : Z) : byte := byte_of_Z (48 + d).

Fixpoint dec_digits (fuel : nat) (n : Z) (acc : bytes) : bytes :=
  match fuel with
  | O => acc
  | S fuel => if n <? 10 then digit_byte n :: acc else dec_digits fuel (n / 10) (digit_byte (n mod 10) :: acc)
  end.

(** [strconv.FormatInt(n, 10)]; an [int64] has at most nineteen digits. *)
Definition FormatInt (n : Z) : bytes :=
  if n <? 0 then x2d :: dec_digits 20 (- n) [] else dec_digits 20 n [].

Definition digit_step (n : option Z) (c : byte) : option Z :=
  v ← n; let d := Z_of_byte c - 48 in if (0 <=? d) && (d <=? 9) then Some (v * 10 + d) else None.
Definition digits_value (l : bytes) : option Z := fold_left digit_step l (Some 0).

(** [strconv.ParseInt(s, 10, 64)]; the two kinds of error are one here. *)
Definition ParseInt (l : bytes) : option Z :=
  let unsigned ds := match ds with [] => None | _ => digits_value ds end in
  n ← match l with
      | c :: ds =>
          if bool_decide (c = x2b) then unsigned ds
          else if bool_decide (c = x2d) then Z.opp <$> unsigned ds
          else unsigned l
      | [] => None
      end;
  if (Go.min_int64 <=? n) && (n <=? Go.max_int64) then Some n else None.

(** ** Hexadecimal *)

Definition hex_char (v : Z) : byte := byte_of_Z (if v <? 10 then 48 + v else 87 + v).
Definition hex_value (c : byte) : option Z :=
  let v := Z_of_byte c in
  if (48 <=? v) && (v <=? 57) then Some (v - 48)
  else if (97 <=? v) && (v <=? 102) then Some (v - 87)
  else if (65 <=? v) && (v <=? 70) then Some (v - 55)
  else None.

(** [hex.EncodeToString] and [hex.DecodeString]. *)
Fixpoint hex_encode (l : bytes) : bytes :=
  match l with
  | [] => []
  | b :: l => hex_char (Z_of_byte b / 16) :: hex_char (Z_of_byte b mod 16) :: hex_encode l
  end.
Fixpoint hex_decode (l : bytes) : option bytes :=
  match l with
  | [] => Some []
  | [_] => None
  | a :: b :: l =>
      match hex_value a, hex_value b with
      | Some x, Some y => cons (byte_of_Z (x * 16 + y)) <$> hex_decode l
      | _, _ => None
      end
  end.

(** ** White space *)

Definition space1 (c : byte) : bool := existsb (Z.eqb (Z_of_byte c)) [9; 10; 11; 12; 13; 32].
Definition space2 (a b : byte) : bool :=
  (Z_of_byte a =? 0xC2) && ((Z_of_byte b =? 0x85) || (Z_of_byte b =? 0xA0)).
Definition space3 (a b c : byte) : bool :=
  let '(a, b, c) := (Z_of_byte a, Z_of_byte b, Z_of_byte c) in
  ((a =? 0xE1) && (b =? 0x9A) && (c =? 0x80)) ||
  ((a =? 0xE2) && (b =? 0x80) && (((0x80 <=? c) && (c <=? 0x8A)) || existsb (Z.eqb c) [0xA8; 0xA9; 0xAF])) ||
  ((a =? 0xE2) && (b =? 0x81) && (c =? 0x9F)) ||
  ((a =? 0xE3) && (b =? 0x80) && (c =? 0x80)).

Fixpoint trim_left (l : bytes) : bytes :=
  match l with
  | a :: l1 =>
      if space1 a then trim_left l1
      else match l1 with
      | b :: l2 =>
          if space2 a b then trim_left l2
          else match l2 with
          | c :: l3 => if space3 a b c then trim_left l3 else l
          | [] => l
          end
      | [] => l
      end
  | [] => []
  end.

(** The same from the right, on the reversed bytes. *)
Fixpoint trim_rev (l : bytes) : bytes :=
  match l with
  | c :: l1 =>
      if space1 c then trim_rev l1
      else match l1 with
      | b :: l2 =>
          if space2 b c then trim_rev l2
          else match l2 with
          | a :: l3 => if space3 a b c then trim_rev l3 else l
          | [] => l
          end
      | [] => l
      end
  | [] => []
  end.

(** [strings.TrimSpace]. *)
Definition TrimSpace (l : bytes) : bytes := rev (trim_rev (rev (trim_left l))).

(** [strings.Fields]; [cur] is the field being read, reversed. *)
Definition close_field (cur : bytes) (out : list bytes) : list bytes :=
  match cur with [] => out | _ => rev cur :: out end.
Fixpoint fields_loop (cur l : bytes) : list bytes :=
  match l with
  | a :: l1 =>
      if space1 a then close_field cur (fields_loop [] l1)
      else match l1 with
      | b :: l2 =>
          if space2 a b then close_field cur (fields_loop [] l2)
          else match l2 with
          | c :: l3 => if space3 a b c then close_field cur (fields_loop [] l3) else fields_loop (a :: cur) l1
          | [] => fields_loop (a :: cur) l1
          end
      | [] => fields_loop (a :: cur) l1
      end
  | [] => close_field cur []
  end.
Definition Fields (l : bytes) : list bytes := fields_loop [] l.

(** ** Searching and splitting *)

(** [strings.Split] and [strings.SplitSeq] at a byte. *)
Fixpoint Split (sep : byte) (l : bytes) : list bytes :=
  match l with
  | [] => [[]]
  | c :: l =>
      if bool_decide (c = sep) then [] :: Split sep l
      else match Split sep l with
           | s :: ss => (c :: s) :: ss
           | [] => [[c]]
           end
  end.

(** [strings.Cut] at a byte. *)
Fixpoint Cut (sep : byte) (l : bytes) : option (bytes * bytes) :=
  match l with
  | [] => None
  | c :: l => if bool_decide (c = sep) then Some ([], l) else (fun '(a, b) => (c :: a, b)) <$> Cut sep l
  end.

(** [strings.CutPrefix], [HasPrefix], [TrimPrefix], [HasSuffix]. *)
Fixpoint CutPrefix (l p : bytes) {struct p} : option bytes :=
  match p, l with
  | [], _ => Some l
  | c :: p, c' :: l => if bool_decide (c = c') then CutPrefix l p else None
  | _ :: _, [] => None
  end.
Definition HasPrefix (l p : bytes) : bool := bool_decide (is_Some (CutPrefix l p)).
Definition TrimPrefix (l p : bytes) : bytes := default l (CutPrefix l p).
Definition HasSuffix (l p : bytes) : bool := HasPrefix (rev l) (rev p).
Definition TrimSuffix (l p : bytes) : bytes := if HasSuffix l p then take (length l - length p) l else l.

(** [strings.Count] of a byte and [strings.Contains]. *)
Definition Count (c : byte) (l : bytes) : nat := length (filter (fun x => x = c) l).
Definition Contains (c : byte) (l : bytes) : bool := bool_decide (c ∈ l).

(** [strings.ToLower] on ASCII letters. *)
Definition lower (c : byte) : byte :=
  let v := Z_of_byte c in if (65 <=? v) && (v <=? 90) then byte_of_Z (v + 32) else c.
Definition ToLower (l : bytes) : bytes := lower <$> l.

(** Letters and the underscore, which start an identifier, and digits. *)
Definition is_digit (c : byte) : bool := let v := Z_of_byte c in (48 <=? v) && (v <=? 57).
Definition is_letter (c : byte) : bool :=
  let v := Z_of_byte c in (v =? 95) || ((97 <=? v) && (v <=? 122)) || ((65 <=? v) && (v <=? 90)).

(** [strings.Join]. *)
Fixpoint Join (sep : bytes) (l : list bytes) : bytes :=
  match l with
  | [] => []
  | [s] => s
  | s :: l => s ++ sep ++ Join sep l
  end.

(** ** Sorting *)

(** [a <= b] on strings: by bytes. *)
Fixpoint bytes_leb (a b : bytes) : bool :=
  match a, b with
  | [], _ => true
  | _ :: _, [] => false
  | x :: a, y :: b =>
      if Z_of_byte x <? Z_of_byte y then true
      else if Z_of_byte y <? Z_of_byte x then false
      else bytes_leb a b
  end.
Definition bytes_le (a b : bytes) : Prop := bytes_leb a b = true.

#[export] Instance bytes_le_dec a b : Decision (bytes_le a b).
Proof. unfold bytes_le. apply _. Defined.

(** [slices.Sort] and [slices.Compact]. *)
Definition Sort (l : list bytes) : list bytes := merge_sort bytes_le l.
Fixpoint Compact (l : list bytes) : list bytes :=
  match l with
  | x :: (y :: _) as r => if bool_decide (x = y) then Compact r else x :: Compact r
  | _ => l
  end.

(** [slices.SortFunc] by decreasing length. *)
Definition longer {A} (f : A -> bytes) (a b : A) : Prop := (length (f b) <= length (f a))%nat.
#[export] Instance longer_dec {A} (f : A -> bytes) a b : Decision (longer f a b).
Proof. unfold longer. apply _. Defined.
Definition SortLongest {A} (f : A -> bytes) (l : list A) : list A := merge_sort (longer f) l.

(** * Facts *)

(** ** Decimal integers *)

Lemma digit_step_byte v d : 0 <= d < 10 -> digit_step (Some v) (digit_byte d) = Some (v * 10 + d).
Proof.
  intros Hd. unfold digit_step, digit_byte. cbn [option_bind mbind]. rewrite Z_of_byte_of_Z, Z.mod_small by lia.
  replace (48 + d - 48) with d by lia. cbn. by replace ((0 <=? d) && (d <=? 9)) with true by (symmetry; apply andb_true_iff; lia).
Qed.

Lemma digit_byte_value d : 0 <= d < 10 -> Z_of_byte (digit_byte d) = 48 + d.
Proof. intros Hd. unfold digit_byte. rewrite Z_of_byte_of_Z. apply Z.mod_small. lia. Qed.

(** The digits of [n], most significant first. *)
Fixpoint digits_of (fuel : nat) (n : Z) : bytes :=
  match fuel with
  | O => []
  | S fuel => if n <? 10 then [digit_byte n] else digits_of fuel (n / 10) ++ [digit_byte (n mod 10)]
  end.

Lemma dec_digits_eq fuel n acc : dec_digits fuel n acc = digits_of fuel n ++ acc.
Proof.
  revert n acc. induction fuel as [|fuel IH]; intros n acc; [done|]. cbn. case_match; [done|].
  by rewrite IH, <-app_assoc.
Qed.

Lemma digits_of_value fuel n : 0 <= n < 10 ^ Z.of_nat fuel -> (0 < fuel)%nat -> digits_value (digits_of fuel n) = Some n.
Proof.
  revert n. induction fuel as [|fuel IH]; intros n Hn Hf; [lia|]. cbn [digits_of].
  destruct (Z.ltb_spec n 10) as [Hlt|Hge].
  - unfold digits_value. cbn [fold_left]. by rewrite digit_step_byte by lia.
  - rewrite Nat2Z.inj_succ, Z.pow_succ_r in Hn by lia. unfold digits_value in *. rewrite fold_left_app, IH.
    + cbn [fold_left]. rewrite digit_step_byte by (apply Z.mod_pos_bound; lia). f_equal. lia_mod.
    + split; [apply Z.div_pos; lia|]. apply Z.div_lt_upper_bound; lia.
    + destruct fuel; [cbn in Hn; lia|lia].
Qed.

(** The first digit is no zero unless it is the only one. *)
Lemma digits_of_head fuel n :
  0 < n < 10 ^ Z.of_nat fuel -> exists c l, digits_of fuel n = c :: l /\ 48 < Z_of_byte c <= 57.
Proof.
  revert n. induction fuel as [|fuel IH]; intros n Hn; [cbn in Hn; lia|]. cbn [digits_of].
  destruct (Z.ltb_spec n 10) as [Hlt|Hge].
  - exists (digit_byte n), []. split; [done|]. rewrite digit_byte_value; lia.
  - rewrite Nat2Z.inj_succ, Z.pow_succ_r in Hn by lia. destruct (IH (n / 10)) as (c & l & -> & Hc).
    + split; [apply Z.div_str_pos; lia|]. apply Z.div_lt_upper_bound; lia.
    + exists c, (l ++ [digit_byte (n mod 10)]). by split.
Qed.

Lemma digits_of_last fuel n :
  0 <= n -> (0 < fuel)%nat -> exists l c, digits_of fuel n = l ++ [c] /\ 48 <= Z_of_byte c <= 57.
Proof.
  intros Hn Hf. destruct fuel as [|fuel]; [lia|]. cbn [digits_of]. destruct (Z.ltb_spec n 10).
  - exists [], (digit_byte n). split; [done|]. rewrite digit_byte_value; lia.
  - exists (digits_of fuel (n / 10)), (digit_byte (n mod 10)). split; [done|].
    pose proof (Z.mod_pos_bound n 10 ltac:(lia)). rewrite digit_byte_value; lia.
Qed.

Lemma digits_of_chars fuel n : 0 <= n -> Forall (fun c => 48 <= Z_of_byte c <= 57) (digits_of fuel n).
Proof.
  revert n. induction fuel as [|fuel IH]; intros n Hn; cbn [digits_of]; [done|].
  destruct (Z.ltb_spec n 10); [constructor; [rewrite digit_byte_value; lia|done]|].
  apply list.Forall_app. split; [apply IH, Z.div_pos; lia|]. pose proof (Z.mod_pos_bound n 10 ltac:(lia)).
  constructor; [rewrite digit_byte_value; lia|done].
Qed.

(** A printed integer is made of digits and perhaps a sign. *)
Lemma FormatInt_chars n : Forall (fun c => Z_of_byte c = 45 \/ 48 <= Z_of_byte c <= 57) (FormatInt n).
Proof.
  unfold FormatInt. rewrite !dec_digits_eq, !app_nil_r.
  assert (forall m, 0 <= m -> Forall (fun c => Z_of_byte c = 45 \/ 48 <= Z_of_byte c <= 57) (digits_of 20 m)) as Hd.
  { intros m Hm. eapply Forall_impl; [by apply digits_of_chars|]. intros c Hc. by right. }
  destruct (Z.ltb_spec n 0); [constructor; [by left|]|]; apply Hd; lia.
Qed.

Lemma FormatInt_last n : exists l c, FormatInt n = l ++ [c] /\ 48 <= Z_of_byte c <= 57.
Proof.
  unfold FormatInt. rewrite !dec_digits_eq, !app_nil_r. destruct (Z.ltb_spec n 0).
  - destruct (digits_of_last 20 (- n)) as (l & c & -> & Hc); [lia..|]. by exists (x2d :: l), c.
  - apply digits_of_last; lia.
Qed.

(** [strconv.ParseInt] reads back what [strconv.FormatInt] writes. *)
Lemma ParseInt_FormatInt n : Go.min_int64 <= n <= Go.max_int64 -> ParseInt (FormatInt n) = Some n.
Proof.
  unfold Go.min_int64, Go.max_int64. intros Hn.
  assert (10 ^ Z.of_nat 20 = 100000000000000000000) as H20 by reflexivity.
  assert (Hin : (Go.min_int64 <=? n) && (n <=? Go.max_int64) = true)
    by (apply andb_true_iff; unfold Go.min_int64, Go.max_int64; lia).
  unfold ParseInt, FormatInt. rewrite !dec_digits_eq, !app_nil_r. destruct (Z.ltb_spec n 0).
  - pose proof (digits_of_value 20 (- n) ltac:(lia) ltac:(lia)) as Hv.
    destruct (digits_of_last 20 (- n)) as (l & c & E & _); [lia..|].
    rewrite bool_decide_eq_false_2, bool_decide_eq_true_2 by done.
    assert (match digits_of 20 (- n) with [] => None | _ => digits_value (digits_of 20 (- n)) end = Some (- n)) as ->
      by (rewrite Hv, E; by destruct l). change (Z.opp <$> Some (- n)) with (Some (- - n)).
    rewrite Z.opp_involutive. cbn. by rewrite Hin.
  - pose proof (digits_of_value 20 n ltac:(lia) ltac:(lia)) as Hv. pose proof (digits_of_chars 20 n ltac:(lia)) as Hc.
    destruct (digits_of_last 20 n) as (l & c & E & _); [lia..|].
    destruct (digits_of 20 n) as [|c0 l0]; [by destruct l|]. apply list.Forall_cons in Hc as [Hc _].
    rewrite !bool_decide_eq_false_2; [|intros ->; unfold Z_of_byte in Hc; cbn in Hc; lia..].
    rewrite Hv. cbn. by rewrite Hin.
Qed.

Lemma FormatInt_inj m n :
  Go.min_int64 <= m <= Go.max_int64 -> Go.min_int64 <= n <= Go.max_int64 -> FormatInt m = FormatInt n -> m = n.
Proof. intros Hm Hn E. apply ParseInt_FormatInt in Hm, Hn. congruence. Qed.

(** ** Hexadecimal *)

Lemma hex_value_char v : 0 <= v < 16 -> hex_value (hex_char v) = Some v.
Proof.
  intros Hv. apply (bool_decide_eq_true_1 (hex_value (hex_char v) = Some v)).
  apply (range_check (fun v => bool_decide (hex_value (hex_char v) = Some v)) 16 v); [by vm_compute|done].
Qed.

Lemma hex_decode_encode l : hex_decode (hex_encode l) = Some l.
Proof.
  induction l as [|b l IH]; [done|]. pose proof (Z_of_byte_range b). cbn [hex_encode hex_decode].
  rewrite !hex_value_char by lia_mod. rewrite IH. cbn. do 2 f_equal.
  apply byte_of_Z_eq. rewrite Z.mod_small; lia_mod.
Qed.

(** Hexadecimal digits are letters and digits. *)
Lemma hex_encode_chars l :
  Forall (fun c => 48 <= Z_of_byte c <= 57 \/ 97 <= Z_of_byte c <= 102) (hex_encode l).
Proof.
  assert (forall v, 0 <= v < 16 -> 48 <= Z_of_byte (hex_char v) <= 57 \/ 97 <= Z_of_byte (hex_char v) <= 102) as Hc.
  { intros v Hv. unfold hex_char. rewrite Z_of_byte_of_Z. destruct (Z.ltb_spec v 10); rewrite Z.mod_small; lia. }
  induction l as [|b l IH]; [constructor|]. cbn [hex_encode].
  pose proof (Z_of_byte_range b). apply list.Forall_cons. split; [apply Hc; lia_mod|]. apply list.Forall_cons. split; [apply Hc; lia_mod|exact IH].
Qed.

(** ** White space *)

(** A printable ASCII byte. *)
Definition graphic (c : byte) : Prop := 33 <= Z_of_byte c <= 126.

Lemma graphic_space1 c : graphic c -> space1 c = false.
Proof. unfold graphic, space1. cbn. intros. rewrite !orb_false_iff. split_and!; try done; apply Z.eqb_neq; lia. Qed.

Lemma graphic_space2 a b : graphic a \/ graphic b -> space2 a b = false.
Proof.
  unfold graphic, space2. intros [H|H].
  - by replace (Z_of_byte a =? 0xC2) with false by lia.
  - replace (Z_of_byte b =? 0x85) with false by lia. replace (Z_of_byte b =? 0xA0) with false by lia. by rewrite andb_false_r.
Qed.

Lemma graphic_space3 a b c : graphic a \/ graphic c -> space3 a b c = false.
Proof.
  unfold graphic, space3. intros [H|H].
  - replace (Z_of_byte a =? 0xE1) with false by lia. replace (Z_of_byte a =? 0xE2) with false by lia.
    by replace (Z_of_byte a =? 0xE3) with false by lia.
  - replace (Z_of_byte c =? 0x80) with false by lia. replace (0x80 <=? Z_of_byte c) with false by lia.
    replace (Z_of_byte c =? 0x9F) with false by lia. cbn [existsb].
    replace (Z_of_byte c =? 0xA8) with false by lia. replace (Z_of_byte c =? 0xA9) with false by lia.
    replace (Z_of_byte c =? 0xAF) with false by lia. by rewrite !andb_false_r.
Qed.

Lemma trim_left_graphic c l : graphic c -> trim_left (c :: l) = c :: l.
Proof.
  intros Hc. cbn [trim_left]. rewrite graphic_space1 by done. destruct l as [|b l]; [done|].
  rewrite graphic_space2 by auto. destruct l as [|d l]; [done|]. by rewrite graphic_space3 by auto.
Qed.

Lemma trim_rev_graphic c l : graphic c -> trim_rev (c :: l) = c :: l.
Proof.
  intros Hc. cbn [trim_rev]. rewrite graphic_space1 by done. destruct l as [|b l]; [done|].
  rewrite graphic_space2 by auto. destruct l as [|d l]; [done|]. by rewrite graphic_space3 by auto.
Qed.

(** A string that begins and ends with a printable byte is trimmed to itself. *)
Lemma TrimSpace_graphic c l l' c' : c :: l = l' ++ [c'] -> graphic c -> graphic c' -> TrimSpace (c :: l) = c :: l.
Proof.
  intros E Hc Hc'. unfold TrimSpace. rewrite trim_left_graphic by done.
  rewrite E, rev_app_distr. cbn [rev app]. rewrite trim_rev_graphic by done. cbn [rev]. by rewrite rev_involutive.
Qed.

(** White space of ASCII. *)
Definition blank (w : bytes) : Prop := Forall (fun c => space1 c = true) w.

Lemma trim_left_blank w l : blank w -> trim_left (w ++ l) = trim_left l.
Proof. induction 1 as [|c w Hc Hw IH]; [done|]. cbn [app trim_left]. by rewrite Hc. Qed.

Lemma trim_rev_blank w l : blank w -> trim_rev (w ++ l) = trim_rev l.
Proof. induction 1 as [|c w Hc Hw IH]; [done|]. cbn [app trim_rev]. by rewrite Hc. Qed.

Lemma blank_rev w : blank w -> blank (rev w).
Proof. unfold blank. rewrite rev_alt. apply (proj2 (Forall_reverse _ w)). Qed.

Lemma TrimSpace_padded w c l l' c' w' :
  c :: l = l' ++ [c'] -> graphic c -> graphic c' -> blank w -> blank w' -> TrimSpace (w ++ (c :: l) ++ w') = c :: l.
Proof.
  intros E Hc Hc' Hw Hw'. unfold TrimSpace. rewrite trim_left_blank by done. cbn [app]. rewrite trim_left_graphic by done.
  change (c :: l ++ w') with ((c :: l) ++ w'). rewrite rev_app_distr, trim_rev_blank by by apply blank_rev.
  rewrite E, rev_app_distr. cbn [rev app]. rewrite trim_rev_graphic by done. cbn [rev]. by rewrite rev_involutive.
Qed.

(** ** Splitting *)

Lemma Split_notin sep l : sep ∉ l -> Split sep l = [l].
Proof.
  induction l as [|c l IH]; [done|]. intros [Hc Hl]%not_elem_of_cons. cbn.
  by rewrite bool_decide_eq_false_2, IH by done.
Qed.

Lemma Split_app sep a b : sep ∉ a -> Split sep (a ++ sep :: b) = a :: Split sep b.
Proof.
  induction a as [|c a IH]; intros Ha; cbn; [by rewrite bool_decide_eq_true_2|].
  apply not_elem_of_cons in Ha as [Hc Ha]. by rewrite bool_decide_eq_false_2, IH by done.
Qed.

Lemma Split_nonempty sep l : Split sep l <> [].
Proof. destruct l as [|c l]; [done|]. cbn. case_bool_decide; [done|]. by case_match. Qed.

Lemma Join_cons sep s l : l <> [] -> Join sep (s :: l) = s ++ sep ++ Join sep l.
Proof. by destruct l. Qed.

Lemma Join_Split sep l : Join [sep] (Split sep l) = l.
Proof.
  induction l as [|c l IH]; [done|]. cbn [Split]. case_bool_decide as E.
  - subst. rewrite Join_cons by apply Split_nonempty. by rewrite IH.
  - destruct (Split sep l) as [|s ss] eqn:Es; [by apply Split_nonempty in Es|]. rewrite <-IH. by destruct ss.
Qed.

Lemma Split_Join sep ss : ss <> [] -> (forall s, s ∈ ss -> sep ∉ s) -> Split sep (Join [sep] ss) = ss.
Proof.
  induction ss as [|s ss IH]; [done|]. intros _ Hs. destruct ss as [|s' ss]; [apply Split_notin, Hs; by left|].
  rewrite Join_cons by done. cbn [app]. rewrite Split_app by (apply Hs; by left). f_equal.
  apply IH; [done|]. intros x Hx. apply Hs. by right.
Qed.

Lemma Split_parts sep l s : s ∈ Split sep l -> sep ∉ s.
Proof.
  revert s. induction l as [|c l IH]; intros s; cbn [Split]; [intros ->%list_elem_of_singleton; by intros ?%elem_of_nil|].
  case_bool_decide as E.
  - intros [->|Hs]%elem_of_cons; [by intros ?%elem_of_nil|by apply IH].
  - destruct (Split sep l) as [|s' ss]; [by intros ->%list_elem_of_singleton Hc%list_elem_of_singleton|].
    intros [->|Hs]%elem_of_cons; [|apply IH; by right]. intros [->|Hc]%elem_of_cons; [done|]. apply (IH s'); [by left|done].
Qed.

Lemma length_Split sep l : length (Split sep l) = S (Count sep l).
Proof.
  induction l as [|c l IH]; [done|]. unfold Count in *. cbn [Split]. rewrite filter_cons. case_bool_decide as E.
  - rewrite decide_True by done. cbn. by rewrite IH.
  - rewrite decide_False by done. destruct (Split sep l) as [|s ss]; [done|exact IH].
Qed.

Lemma Cut_app sep a b : sep ∉ a -> Cut sep (a ++ sep :: b) = Some (a, b).
Proof.
  induction a as [|c a IH]; intros Ha; cbn; [by rewrite bool_decide_eq_true_2|].
  apply not_elem_of_cons in Ha as [Hc Ha]. by rewrite bool_decide_eq_false_2, IH by done.
Qed.

Lemma CutPrefix_app p l : CutPrefix (p ++ l) p = Some l.
Proof. induction p as [|c p IH]; cbn; [by destruct l|]. by rewrite bool_decide_eq_true_2. Qed.

Lemma CutPrefix_Some l p r : CutPrefix l p = Some r <-> l = p ++ r.
Proof.
  split; [|intros ->; apply CutPrefix_app]. revert l. induction p as [|c p IH]; intros l; cbn; [by intros [= ->]|].
  destruct l as [|c' l]; [done|]. destruct (bool_decide_reflect (c = c')) as [->|]; [|done].
  intros E. by rewrite (IH l E).
Qed.

(** Bytes kept apart by a separator are determined by the whole. *)
Lemma app_sep_bytes_inj (sep : byte) a b x y : sep ∉ a -> sep ∉ b -> a ++ sep :: x = b ++ sep :: y -> a = b /\ x = y.
Proof.
  intros Ha Hb E. apply (Cut_app sep a x) in Ha. apply (Cut_app sep b y) in Hb. rewrite E, Hb in Ha. by simplify_eq.
Qed.

(** ** Prefixes and suffixes *)

Lemma HasPrefix_spec l p : HasPrefix l p = true <-> exists r, l = p ++ r.
Proof.
  unfold HasPrefix. rewrite bool_decide_eq_true. split; intros [r E]; exists r; by apply CutPrefix_Some.
Qed.

Lemma HasSuffix_spec l p : HasSuffix l p = true <-> exists r, l = r ++ p.
Proof.
  unfold HasSuffix. rewrite HasPrefix_spec. split; intros [r E].
  - exists (rev r). by rewrite <-(rev_involutive l), E, rev_app_distr, rev_involutive.
  - exists (rev r). by rewrite E, rev_app_distr.
Qed.

(** ** Sorting *)

Lemma bytes_leb_refl a : bytes_leb a a = true.
Proof. induction a as [|x a IH]; [done|]. cbn. by rewrite Z.ltb_irrefl. Qed.

Lemma Z_of_byte_inj x y : Z_of_byte x = Z_of_byte y -> x = y.
Proof.
  intros E. pose proof (Z_of_byte_range y). rewrite <-(byte_of_Z_eq (Z_of_byte y) x) by (rewrite Z.mod_small by lia; done).
  apply byte_of_Z_eq. apply Z.mod_small. lia.
Qed.

#[export] Instance bytes_le_total : Total bytes_le.
Proof.
  unfold bytes_le. intros a. induction a as [|x a IH]; intros [|y b]; cbn; [by left|by left|by right|].
  destruct (Z.ltb_spec (Z_of_byte x) (Z_of_byte y)), (Z.ltb_spec (Z_of_byte y) (Z_of_byte x)); [by left|by left|by right|apply IH].
Qed.

#[export] Instance bytes_le_trans : Transitive bytes_le.
Proof.
  unfold bytes_le. intros a. induction a as [|x a IH]; intros [|y b] [|z c]; cbn; try done.
  destruct (Z.ltb_spec (Z_of_byte x) (Z_of_byte y)), (Z.ltb_spec (Z_of_byte y) (Z_of_byte x)); try lia; try done;
    destruct (Z.ltb_spec (Z_of_byte y) (Z_of_byte z)), (Z.ltb_spec (Z_of_byte z) (Z_of_byte y)); try lia; try done;
    destruct (Z.ltb_spec (Z_of_byte x) (Z_of_byte z)), (Z.ltb_spec (Z_of_byte z) (Z_of_byte x)); try lia; try done.
  apply IH.
Qed.

#[export] Instance bytes_le_antisymm : AntiSymm (=) bytes_le.
Proof.
  unfold bytes_le. intros a. induction a as [|x a IH]; intros [|y b]; cbn; try done.
  destruct (Z.ltb_spec (Z_of_byte x) (Z_of_byte y)), (Z.ltb_spec (Z_of_byte y) (Z_of_byte x)); try lia; try done.
  intros H1 H2. rewrite (IH b H1 H2). f_equal. apply Z_of_byte_inj. lia.
Qed.

(** A string is at most its extensions. *)
Lemma bytes_le_app a b : bytes_le a (a ++ b).
Proof. unfold bytes_le. induction a as [|x a IH]; [done|]. cbn. by rewrite Z.ltb_irrefl. Qed.

Lemma Compact_cons a b l : Compact (a :: b :: l) = if bool_decide (a = b) then Compact (b :: l) else a :: Compact (b :: l).
Proof. done. Qed.

Lemma elem_of_Compact l x : x ∈ Compact l <-> x ∈ l.
Proof.
  induction l as [|a l IH]; [done|]. destruct l as [|b l]; [done|]. rewrite Compact_cons. case_bool_decide as E.
  - subst b. rewrite IH. rewrite !elem_of_cons. tauto.
  - rewrite elem_of_cons, IH, (elem_of_cons (b :: l)). done.
Qed.

Lemma Compact_sorted l : StronglySorted bytes_le l -> StronglySorted bytes_le (Compact l) /\ NoDup (Compact l).
Proof.
  induction l as [|a l IH]; intros Hs; [split; constructor|]. inversion Hs as [|? ? Hl Ha]; subst.
  destruct (IH Hl) as [Hc Hn]. destruct l as [|b l]; [split; [done|apply NoDup_singleton]|].
  rewrite Compact_cons. case_bool_decide as E; [done|].
  assert (forall x, x ∈ Compact (b :: l) -> bytes_le a x) as Hle.
  { intros x Hx. rewrite list.Forall_forall in Ha. by apply Ha, elem_of_Compact. }
  split; [constructor; [done|]; by rewrite list.Forall_forall|]. apply NoDup_cons. split; [|done].
  intros Hin%(proj1 (elem_of_Compact _ _)). apply E. inversion Hl as [|? ? _ Hb]; subst.
  apply elem_of_cons in Hin as [->|Hin]; [done|]. rewrite list.Forall_forall in Ha, Hb.
  apply (anti_symm bytes_le); [apply Ha; by left|by apply Hb].
Qed.

(** The sorted set of a list: what [slices.Sort] and [slices.Compact] make of it. *)
Lemma elem_of_sorted_set l x : x ∈ Compact (Sort l) <-> x ∈ l.
Proof. rewrite elem_of_Compact. unfold Sort. by rewrite merge_sort_Permutation. Qed.

Lemma sorted_set_sorted l : StronglySorted bytes_le (Compact (Sort l)) /\ NoDup (Compact (Sort l)).
Proof. apply Compact_sorted. apply (StronglySorted_merge_sort bytes_le). Qed.

(** It depends on the elements alone. *)
Lemma sorted_set_ext l l' : (forall x, x ∈ l <-> x ∈ l') -> Compact (Sort l) = Compact (Sort l').
Proof.
  intros E. destruct (sorted_set_sorted l) as [Hs Hn], (sorted_set_sorted l') as [Hs' Hn'].
  apply (StronglySorted_unique bytes_le); [done..|]. apply NoDup_Permutation; [done..|].
  intros x. by rewrite !elem_of_sorted_set.
Qed.

#[export] Instance longer_total {A} (f : A -> bytes) : Total (longer f).
Proof. unfold longer. intros a b. lia. Qed.
#[export] Instance longer_trans {A} (f : A -> bytes) : Transitive (longer f).
Proof. unfold longer. intros a b c. lia. Qed.

Lemma SortLongest_sorted {A} (f : A -> bytes) l : StronglySorted (longer f) (SortLongest f l).
Proof. apply StronglySorted_merge_sort; apply _. Qed.
Lemma SortLongest_perm {A} (f : A -> bytes) l : SortLongest f l ≡ₚ l.
Proof. apply merge_sort_Permutation. Qed.

End GoStrings.
