(* ===== verification/Keys.v ===== *)
(** * Composed keys: core/encoding/keys

    [keys.Compose] joins the parts of a key, each framed by its length, so
    that distinct tuples of parts never meet. *)

From S2P Require Import Prelude.

Module Keys.

(** [keys.Compose]: every part framed by its length. *)
Definition frame (part : string) : string :=
  (pretty (Z.of_nat (String.length part)) +:+ ":" +:+ part)%string.

Fixpoint Compose (parts : list string) : string :=
  match parts with
  | [] => EmptyString
  | part :: parts => (frame part +:+ Compose parts)%string
  end.

Lemma compose_cons part parts :
  Compose (part :: parts) =
  (pretty (Z.of_nat (String.length part)) +:+ String (Ascii.ascii_of_nat 58) (part +:+ Compose parts))%string.
Proof. cbn [Compose]. unfold frame. by rewrite !app_string_assoc. Qed.

Lemma compose_inj parts parts' : Compose parts = Compose parts' -> parts = parts'.
Proof.
  revert parts'. induction parts as [|p parts IH]; intros [|p' parts'] E; [done|..].
  - rewrite compose_cons in E. by destruct (pretty (Z.of_nat (String.length p'))).
  - rewrite compose_cons in E. by destruct (pretty (Z.of_nat (String.length p))).
  - rewrite !compose_cons in E.
    apply app_sep_inj in E as [Hlen E]; [|apply pretty_no_colon..].
    apply (inj pretty), Nat2Z.inj in Hlen. apply app_length_inj in E as [-> E]; [|done].
    by rewrite (IH _ E).
Qed.

End Keys.
