(* ===== verification/Iso7064.v ===== *)
(** ISO 7064 MOD 11-10 check digits: domain/validation/iso7064/mod11_10.go.

    [Mod11_10] validates the check digit of a nine-digit identifier, given as a
    string or as an [int64].  The theorems say what a check digit is for: every
    eight-digit prefix has exactly one valid ninth digit, and changing any one
    digit of a valid identifier is detected. *)

From Stdlib Require Import Ascii.
From stdpp Require Import pretty.
From S2P Require Import Prelude.

Module Iso7064.

Definition errInvalidNumber : error := ErrNew "invalid number".

Definition mod11_10Len : nat := 9.
Definition mod11_10DataDigits : nat := 8.

(** The byte tests of the loop: [ch < '0' || ch > '9'] rejects, otherwise the
    digit is [ch - '0']. *)
Definition digit (ch : Ascii.ascii) : option Z :=
  let n := Z.of_nat (Ascii.nat_of_ascii ch) in
  if (n <? 48) || (57 <? n) then None else Some (n - 48).

(** One round of the loop body: the new product from the old one and a digit. *)
Definition round (product n : Z) : Z :=
  let sum := (n + product) mod 10 in
  let sum := if sum =? 0 then 10 else sum in
  (2 * sum) mod 11.

Fixpoint rounds (b : list Ascii.ascii) (product : Z) : option Z :=
  match b with
  | [] => Some product
  | ch :: b =>
      match digit ch with
      | None => None
      | Some n => rounds b (round product n)
      end
  end.

(** The two instances of the type parameter [T interface{ string | int64 }]. *)
Inductive input :=
| InString (s : string)
| InInt64 (n : Z).

(** [strconv.FormatInt(t, 10)] is the decimal rendering. *)
Definition num (data : input) : string :=
  match data with InString s => s | InInt64 n => pretty n end.

Definition Mod11_10 (data : input) : bool * option error :=
  let b := String.list_ascii_of_string (num data) in
  if negb (length b =? mod11_10Len)%nat then (false, Some errInvalidNumber)
  else
    match rounds (take mod11_10DataDigits b) 10 with
    | None => (false, Some errInvalidNumber)
    | Some product =>
        match b !! mod11_10DataDigits with
        | None => (false, Some errInvalidNumber)
        | Some lastCh =>
            match digit lastCh with
            | None => (false, Some errInvalidNumber)
            | Some lastDigit => (((product + lastDigit) mod 10) =? 1, None)
            end
        end
    end.

Definition IsValidMod11_10 (data : input) : bool :=
  match Mod11_10 data with
  | (_, Some _) => false
  | (ok, None) => ok
  end.

(** ** The check-digit code *)

Lemma round_range p n : 0 <= n <= 9 -> 1 <= p <= 10 -> 1 <= round p n <= 10.
Proof. intros ??. unfold round. destruct (Z.eqb_spec ((n + p) mod 10) 0); lia_mod. Qed.

Lemma round_inj_l p p' n :
  0 <= n <= 9 -> 1 <= p <= 10 -> 1 <= p' <= 10 -> round p n = round p' n -> p = p'.
Proof.
  intros ???. unfold round.
  destruct (Z.eqb_spec ((n + p) mod 10) 0), (Z.eqb_spec ((n + p') mod 10) 0); lia_mod.
Qed.

Lemma round_inj_r p n n' :
  0 <= n <= 9 -> 0 <= n' <= 9 -> 1 <= p <= 10 -> round p n = round p n' -> n = n'.
Proof.
  intros ???. unfold round.
  destruct (Z.eqb_spec ((n + p) mod 10) 0), (Z.eqb_spec ((n' + p) mod 10) 0); lia_mod.
Qed.

Lemma digit_range ch n : digit ch = Some n -> 0 <= n <= 9.
Proof. unfold digit. case_match; intros; simplify_eq; lia. Qed.

Lemma digit_inj ch ch' n : digit ch = Some n -> digit ch' = Some n -> ch = ch'.
Proof.
  unfold digit. intros H1 H2.
  repeat case_match; simplify_eq.
  rewrite <-(Ascii.ascii_nat_embedding ch), <-(Ascii.ascii_nat_embedding ch').
  f_equal. lia.
Qed.

Lemma digit_surj n : 0 <= n <= 9 -> exists ch, digit ch = Some n.
Proof.
  intros ?. exists (Ascii.ascii_of_nat (Z.to_nat (n + 48))).
  unfold digit. rewrite Ascii.nat_ascii_embedding by lia.
  rewrite Z2Nat.id by lia.
  destruct (Z.ltb_spec (n + 48) 48), (Z.ltb_spec 57 (n + 48)); try lia.
  simpl. f_equal. lia.
Qed.

Lemma rounds_app b1 b2 p : rounds (b1 ++ b2) p = rounds b1 p ≫= rounds b2.
Proof. revert p. induction b1 as [|c b1 IH]; intros p; simpl; [done|]. by case_match. Qed.

Lemma rounds_range b p q : 1 <= p <= 10 -> rounds b p = Some q -> 1 <= q <= 10.
Proof.
  revert p. induction b as [|c b IH]; simpl; intros p Hp H; [congruence|].
  destruct (digit c) as [n|] eqn:Hd; [|done].
  eapply IH; [|done]. apply round_range; [by eapply digit_range|done].
Qed.

Lemma rounds_inj b p p' q :
  1 <= p <= 10 -> 1 <= p' <= 10 ->
  rounds b p = Some q -> rounds b p' = Some q -> p = p'.
Proof.
  revert p p'. induction b as [|c b IH]; simpl; intros p p' ?? H1 H2; [congruence|].
  destruct (digit c) as [n|] eqn:Hd; [|done]. apply digit_range in Hd.
  eapply (round_inj_l _ _ n); [done..|].
  eapply IH; eauto using round_range.
Qed.

(** The result on a well-formed identifier: eight digits and a ninth. *)
Lemma Mod11_10_digits s b ch q d :
  String.list_ascii_of_string s = b ++ [ch] -> length b = 8%nat ->
  rounds b 10 = Some q -> digit ch = Some d ->
  Mod11_10 (InString s) = ((q + d) mod 10 =? 1, None).
Proof.
  intros Hs Hlen Hr Hd. unfold Mod11_10, num, mod11_10Len, mod11_10DataDigits.
  rewrite Hs, length_app, Hlen; simpl.
  rewrite take_app_le by lia. rewrite (firstn_all2 b) by lia. rewrite Hr.
  rewrite lookup_app_r by lia. rewrite Hlen; simpl. by rewrite Hd.
Qed.

(** An identifier is accepted only when it has this form. *)
Lemma Mod11_10_accepts s :
  Mod11_10 (InString s) = (true, None) ->
  exists b ch q d,
    String.list_ascii_of_string s = b ++ [ch] /\ length b = 8%nat /\
    rounds b 10 = Some q /\ digit ch = Some d /\ (q + d) mod 10 = 1.
Proof.
  unfold Mod11_10, num, mod11_10Len, mod11_10DataDigits.
  set (b := String.list_ascii_of_string s). clearbody b.
  case_match eqn:Hlen; [done|]. apply negb_false_iff, Nat.eqb_eq in Hlen.
  destruct (rounds (take 8 b) 10) as [q|] eqn:Hr; [|done].
  destruct (b !! 8%nat) as [ch|] eqn:Hch; [|done].
  destruct (digit ch) as [d|] eqn:Hd; [|done]. intros [= Hc%Z.eqb_eq].
  exists (take 8 b), ch, q, d. split_and!; try done; [|rewrite length_take; lia].
  rewrite <-(take_drop 8 b) at 1. f_equal.
  rewrite (drop_S _ ch) by done. rewrite drop_ge by lia. done.
Qed.

(** Replacing one digit of a run of rounds by another one changes the product. *)
Lemma rounds_substitution b i c c' p q n' :
  1 <= p <= 10 -> rounds b p = Some q -> b !! i = Some c -> digit c' = Some n' -> c <> c' ->
  exists q', rounds (<[i:=c']> b) p = Some q' /\ 1 <= q' <= 10 /\ q' <> q.
Proof.
  intros Hp Hr Hi Hd' Hne.
  rewrite <-(take_drop_middle b i c Hi), rounds_app in Hr.
  destruct (rounds (take i b) p) as [p1|] eqn:H1; [|done]. simpl in Hr.
  assert (1 <= p1 <= 10) as Hp1 by eauto using rounds_range.
  destruct (digit c) as [n|] eqn:Hd; [|done].
  assert (n <> n') as Hnn by (intros ->; by eauto using digit_inj).
  apply digit_range in Hd as Hn. apply digit_range in Hd' as Hn'.
  assert (is_Some (rounds (drop (S i) b) (round p1 n'))) as [q' Hq'].
  { clear -Hr. revert Hr. generalize (round p1 n), (round p1 n').
    induction (drop (S i) b) as [|ch l IH]; simpl; intros x y; [by eauto|].
    case_match; [eauto|done]. }
  exists q'. rewrite insert_take_drop by eauto using lookup_lt_Some.
  rewrite rounds_app, H1. simpl. rewrite Hd'. split_and!; [done|..].
  1,2: by eapply (rounds_range _ (round p1 n')); [apply round_range|].
  intros ->. apply Hnn, (round_inj_r p1); try done.
  eapply (rounds_inj (drop (S i) b)); eauto using round_range.
Qed.

(** a valid identifier stays detectably different after any single-digit
    substitution: replacing the digit at one position by a different digit
    makes [Mod11_10] answer [false] with a nil error. *)
Theorem mod11_10_detects_substitution s i c c' :
  Mod11_10 (InString s) = (true, None) ->
  String.list_ascii_of_string s !! i = Some c ->
  is_Some (digit c') -> c <> c' ->
  Mod11_10 (InString (String.string_of_list_ascii
    (<[i:=c']> (String.list_ascii_of_string s)))) = (false, None).
Proof.
  intros (b & ch & q & d & Hs & Hlen & Hr & Hd & Hc)%Mod11_10_accepts Hi [n' Hd'] Hne.
  rewrite Hs in *. apply rounds_range in Hr as Hq; [|lia].
  apply digit_range in Hd as Hdr. apply digit_range in Hd' as Hdr'.
  destruct (decide (i < length b)%nat) as [Hlt|Hge].
  - rewrite lookup_app_l in Hi by done. rewrite insert_app_l by done.
    destruct (rounds_substitution b i c c' 10 q n') as (q' & Hq' & ? & ?); [lia|done..|].
    rewrite (Mod11_10_digits _ (<[i:=c']> b) ch q' d);
      [|apply String.list_ascii_of_string_of_list_ascii|by rewrite length_insert|done..].
    f_equal. apply Z.eqb_neq. lia_mod.
  - rewrite lookup_app_r in Hi by lia. rewrite insert_app_r_alt by lia.
    apply lookup_lt_Some in Hi as ?; simpl in *.
    replace (i - length b)%nat with 0%nat in * by lia. simplify_eq/=.
    rewrite (Mod11_10_digits _ b c' q n');
      [|apply String.list_ascii_of_string_of_list_ascii|done..].
    assert (n' <> d) by (intros ->; apply Hne; eauto using digit_inj).
    f_equal. apply Z.eqb_neq. lia_mod.
Qed.

Lemma mod11_10_detects_substitution_witness :
  Mod11_10 (InString "123456788") = (true, None) /\
  Mod11_10 (InString "123956788") = (false, None).
Proof.
  split; [reflexivity|].
  apply (mod11_10_detects_substitution "123456788" 3 "4" "9")%char;
    [reflexivity|reflexivity|by eexists|done].
Defined.

(** every eight-digit prefix has exactly one check digit. *)
Theorem mod11_10_unique_check_digit (b : list Ascii.ascii) :
  length b = 8%nat -> Forall (fun ch => is_Some (digit ch)) b ->
  exists! ch, Mod11_10 (InString (String.string_of_list_ascii (b ++ [ch]))) = (true, None).
Proof.
  intros Hlen Hb.
  assert (forall p, is_Some (rounds b p)) as Hsome.
  { clear Hlen. induction Hb as [|ch b [n Hn] _ IH]; simpl; [by eauto|]. intros p. by rewrite Hn. }
  destruct (Hsome 10) as [q Hq]. apply rounds_range in Hq as Hqr; [|lia].
  destruct (digit_surj ((11 - q) mod 10)) as [ch Hch]; [lia_mod|].
  exists ch. split.
  - rewrite (Mod11_10_digits _ b ch q _) by
      (try apply String.list_ascii_of_string_of_list_ascii; done).
    f_equal. apply Z.eqb_eq. lia_mod.
  - intros ch' (b' & ch'' & q' & d & Hs & Hlen' & Hr & Hd & Hc)%Mod11_10_accepts.
    rewrite String.list_ascii_of_string_of_list_ascii in Hs.
    apply app_inj_tail in Hs as [-> ->]. simplify_eq.
    apply digit_range in Hd as ?. apply (digit_inj _ _ d); [|done].
    rewrite Hch. f_equal. lia_mod.
Qed.

Lemma mod11_10_unique_check_digit_witness :
  exists! ch, Mod11_10 (InString (String.string_of_list_ascii
    (String.list_ascii_of_string "12345678" ++ [ch]))) = (true, None).
Proof.
  apply mod11_10_unique_check_digit; [reflexivity|].
  repeat constructor; by eexists.
Defined.

End Iso7064.
