(* ===== verification/Retry.v ===== *)
(** Bounded retries: core/retry ([Do], [Policy.Do], [doWithOptions], [options]).

    The retry loop is written over an arbitrary world [W]: the context, the
    clock, the callbacks and the function under retry are computations of that
    world.  The section's rule [wp_doWithOptions] is the loop's contract, used
    by the saga engine; [do_returns_first_success] and [do_bounded] state what
    a caller of [Do] relies on.  [Exponential] is the backoff policy, with the
    results of its floating-point expressions as arguments. *)

From S2P Require Import Prelude.
Local Open Scope go_scope.

Module Retry.

(** [options] of core/retry/options.go; a nil callback is [None]. *)
Record options {W : Type} := Options {
  maxAttempts : Z;
  maxElapsedTime : Z;
  shouldRetry : option (error -> bool);
  nextDelay : option (Z -> error -> M W Z);
  onRetry : option (Z -> error -> Z -> M W unit);
  sleep : option (Z -> M W (option error));
  stopBeforeDeadline : bool;
}.
Arguments options : clear implicits.

(** What the loop reads of its context and clock.  [rt_ctx_err] is [ctx.Err()]
    (and the [select] on [ctx.Done()]), [rt_now] is [time.Now()], [rt_deadline]
    is [ctx.Deadline()], and [rt_wait d] is the [select] between the timer and
    [ctx.Done()]: nil when the timer fired. *)
Record runtime {W : Type} := Runtime {
  rt_ctx_err : M W (option error);
  rt_now : M W Z;
  rt_deadline : option Z;
  rt_wait : Z -> M W (option error);
}.
Arguments runtime : clear implicits.

Section do.
Context {W : Type} (rt : runtime W) (cfg : options W).
Context (fn : M W (option error)).

(** [cfg.maxElapsedTime > 0] and the elapsed time, or the elapsed time plus the
    next delay, exceeds it. *)
Definition elapsed_stop (start delay : Z) : M W bool :=
  if 0 <? maxElapsedTime cfg then
    let* t := rt_now rt in
    let elapsed := t - start in
    mret ((maxElapsedTime cfg <=? elapsed) || (maxElapsedTime cfg <? Go.i64 (elapsed + delay)))
  else mret false.

(** [cfg.stopBeforeDeadline] and the deadline is not further than the delay. *)
Definition deadline_stop (delay : Z) : M W bool :=
  if stopBeforeDeadline cfg then
    match rt_deadline rt with
    | Some deadline => let* t := rt_now rt in mret (deadline - t <=? delay)
    | None => mret false
    end
  else mret false.

Definition call_onRetry (attempt : Z) (err : error) (delay : Z) : M W unit :=
  match onRetry cfg with Some f => f attempt err delay | None => mret tt end.

Definition pause (delay : Z) : M W (option error) :=
  match sleep cfg with Some f => f delay | None => rt_wait rt delay end.

Definition retryable (err : error) : bool :=
  match shouldRetry cfg with Some f => f err | None => true end.

(** What follows a failed attempt: [inl e] ends the loop with [e], [inr tt]
    goes on with the next attempt. *)
Definition after_failure (start attempt : Z) (err : error) : M W (error + unit) :=
  if negb (retryable err) then mret (inl err)
  else if (0 <=? maxAttempts cfg) && (maxAttempts cfg <=? attempt) then mret (inl err)
  else match nextDelay cfg with
  | None => mret (inl err)
  | Some next =>
      let* delay := next attempt err in
      if delay <=? 0 then mret (inl err)
      else
        let* late := elapsed_stop start delay in
        if late : bool then mret (inl err)
        else
          let* close := deadline_stop delay in
          if close : bool then mret (inl err)
          else
            do* call_onRetry attempt err delay in
            let* serr := pause delay in
            match serr with
            | Some e => mret (inl e)
            | None => mret (inr tt)
            end
  end.

(** The [for] loop.  Fuel bounds the number of iterations; running out of it is
    no result. *)
Fixpoint attempts (fuel : nat) (start attempt : Z) (lastErr : option error) : M W (option error) :=
  match fuel with
  | O => mpanic
  | S fuel =>
      if (maxAttempts cfg <? 0) || (attempt <=? maxAttempts cfg) then
        let* cerr := rt_ctx_err rt in
        match cerr with
        | Some e => mret (Some e)
        | None =>
            let* r := fn in
            match r with
            | None => mret None
            | Some err =>
                let* next := after_failure start attempt err in
                match next with
                | inl e => mret (Some e)
                | inr _ => attempts fuel start (attempt + 1) (Some err)
                end
            end
        end
      else mret lastErr
  end.

Definition doWithOptions (fuel : nat) : M W (option error) :=
  let* start := rt_now rt in attempts fuel start 0 None.

(** Iterations a bounded policy can take. *)
Definition enough_fuel : nat := S (S (Z.to_nat (maxAttempts cfg))).

(** ** The contract of the loop

    [I k] holds of the world after [k] failed calls of [fn], and is kept by
    everything the loop does besides calling it. *)
Section rule.
Context (I : Z -> W -> Prop) (Q : W -> Prop).

Definition keeps {A} (m : M W A) : Prop :=
  forall k w, I k w -> wp m (fun _ w' => I k w') w.

Context (Hctx : keeps (rt_ctx_err rt)) (Hnow : keeps (rt_now rt)).
Context (Hwait : forall d, keeps (rt_wait rt d)).
Context (Hnext : forall f a e, nextDelay cfg = Some f -> keeps (f a e)).
Context (Hon : forall f a e d, onRetry cfg = Some f -> keeps (f a e d)).
Context (Hsleep : forall f d, sleep cfg = Some f -> keeps (f d)).
Context (Hmax : 0 <= maxAttempts cfg).
Context (Hfn : forall k w, 0 <= k <= maxAttempts cfg -> I k w ->
  wp fn (fun r w' => match r with None => Q w' | Some _ => I (k + 1) w' end) w).

Lemma keeps_elapsed start d : keeps (elapsed_stop start d).
Proof using Hnow.
  intros k w HI. unfold elapsed_stop. case_match; [|done].
  wp_seq ltac:(by apply Hnow). done.
Qed.

Lemma keeps_deadline d : keeps (deadline_stop d).
Proof using Hnow.
  intros k w HI. unfold deadline_stop. repeat case_match; try done.
  wp_seq ltac:(by apply Hnow). done.
Qed.

Lemma keeps_call_onRetry a e d : keeps (call_onRetry a e d).
Proof using Hon.
  intros k w HI. unfold call_onRetry. destruct (onRetry cfg) eqn:?; [by eapply Hon|done].
Qed.

Lemma keeps_pause d : keeps (pause d).
Proof using Hsleep Hwait.
  intros k w HI. unfold pause. destruct (sleep cfg) eqn:?; [by eapply Hsleep|by apply Hwait].
Qed.

Lemma keeps_after_failure start attempt err : keeps (after_failure start attempt err).
Proof using Hnow Hwait Hnext Hon Hsleep.
  intros k w HI. unfold after_failure.
  case_match; [done|]. case_match; [done|].
  destruct (nextDelay cfg) as [f|] eqn:Hf; [|done].
  wp_seq ltac:(by eapply Hnext). intros delay w1 K1.
  case_match; [done|].
  wp_seq ltac:(by apply keeps_elapsed). intros [] w2 K2; [done|].
  wp_seq ltac:(by apply keeps_deadline). intros [] w3 K3; [done|].
  wp_seq ltac:(by apply keeps_call_onRetry). intros _ w4 K4.
  wp_seq ltac:(by apply keeps_pause).
  by intros [] w5 K5.
Qed.

(** Whether the loop stops after a failed attempt depends on the attempt only
    through the cap: at the cap it never goes on. *)
Lemma after_failure_cap start attempt err w :
  maxAttempts cfg <= attempt ->
  after_failure start attempt err w = Some (inl err, w).
Proof using Hmax.
  intros ?. unfold after_failure. case_match; [done|].
  case_match; [done|]. lia.
Qed.

Lemma wp_attempts fuel start attempt lastErr w :
  0 <= attempt <= maxAttempts cfg ->
  (Z.to_nat (maxAttempts cfg - attempt) < fuel)%nat ->
  I attempt w ->
  wp (attempts fuel start attempt lastErr)
    (fun r w' => match r with
                 | None => Q w'
                 | Some _ => exists k, 0 <= k <= maxAttempts cfg + 1 /\ I k w'
                 end) w.
Proof using Hctx Hnow Hwait Hnext Hon Hsleep Hmax Hfn.
  revert attempt lastErr w. induction fuel as [|fuel IH]; intros attempt lastErr w Ha Hf HI; [lia|].
  simpl. case_match; [|lia].
  wp_seq ltac:(by apply Hctx). intros [e|] w1 H1.
  { exists attempt. split; [lia|done]. }
  wp_seq ltac:(by apply Hfn). intros [err|] w2 H2; [|done].
  apply wp_bind. destruct (decide (attempt = maxAttempts cfg)) as [->|Hne].
  { unfold wp. rewrite after_failure_cap by lia. exists (maxAttempts cfg + 1). split; [lia|done]. }
  eapply wp_mono; [by apply keeps_after_failure|]. cbv beta. intros [e|[]] w3 H3.
  - exists (attempt + 1). split; [lia|done].
  - apply IH; [lia..|done].
Qed.

Lemma wp_doWithOptions w :
  I 0 w ->
  wp (doWithOptions enough_fuel)
    (fun r w' => match r with
                 | None => Q w'
                 | Some _ => exists k, 0 <= k <= maxAttempts cfg + 1 /\ I k w'
                 end) w.
Proof using Hctx Hnow Hwait Hnext Hon Hsleep Hmax Hfn.
  intros HI. unfold doWithOptions, enough_fuel. apply wp_bind.
  eapply wp_mono; [by apply Hnow|]. intros start w' HI'. apply wp_attempts; [lia..|done].
Qed.
End rule.
End do.
(** ** What a caller relies on *)

(** A computation that always returns and leaves [calls] alone. *)
Definition silent {W A} (calls : W -> Z) (m : M W A) : Prop :=
  forall w, exists a w', m w = Some (a, w') /\ calls w' = calls w.

Definition silent_runtime {W} (calls : W -> Z) (rt : runtime W) : Prop :=
  silent calls (rt_ctx_err rt) /\ silent calls (rt_now rt) /\
  forall d, silent calls (rt_wait rt d).

Definition silent_options {W} (calls : W -> Z) (cfg : options W) : Prop :=
  (forall f a e, nextDelay cfg = Some f -> silent calls (f a e)) /\
  (forall f a e d, onRetry cfg = Some f -> silent calls (f a e d)) /\
  (forall f d, sleep cfg = Some f -> silent calls (f d)).

Lemma silent_keeps {W A} (calls : W -> Z) n (m : M W A) :
  silent calls m -> keeps (fun k w => calls w = n + k) m.
Proof. intros Hs k w Hw. destruct (Hs w) as (a & w' & Hm & Hc). unfold wp. rewrite Hm. lia. Qed.

(** with a cap the loop always returns, whatever the context, the clock and
    the callbacks do, and calls the function at most [maxAttempts + 1] times. *)
Theorem do_bounded {W} (calls : W -> Z) (rt : runtime W) (cfg : options W)
    (fn : M W (option error)) (w : W) :
  0 <= maxAttempts cfg ->
  silent_runtime calls rt -> silent_options calls cfg ->
  (forall w, exists r w', fn w = Some (r, w') /\ calls w' = calls w + 1) ->
  exists r w', doWithOptions rt cfg fn (enough_fuel cfg) w = Some (r, w') /\
    calls w <= calls w' <= calls w + (maxAttempts cfg + 1).
Proof.
  intros Hmax (Hc & Hn & Hw) (Hd & Ho & Hs) Hfn. apply wp_run.
  eapply wp_mono; [eapply (wp_doWithOptions rt cfg fn (fun k w' => calls w' = calls w + k)
    (fun w' => calls w <= calls w' <= calls w + (maxAttempts cfg + 1)));
    try (intros; apply silent_keeps; by eauto); [done| |lia]|].
  - intros k w1 Hk Hw1. destruct (Hfn w1) as (r & w2 & Hr & Hc2).
    unfold wp. rewrite Hr. destruct r; lia.
  - intros [e|] w'; [intros (k & ? & ?); lia|lia].
Qed.

(** The deterministic setting of the next theorem: the world counts the calls,
    the [n]-th call has outcome [out n], the context never ends, every delay
    is positive and waiting succeeds. *)
Definition quiet_runtime : runtime nat :=
  Runtime nat (mret None) (mret 0) None (fun _ => mret None).

Definition outcomes (out : nat -> option error) : M nat (option error) :=
  fun n => Some (out n, S n).

Definition plain_options (cap : nat) (retry : error -> bool) (delay : Z -> error -> Z) : options nat :=
  Options nat (Z.of_nat cap) 0 (Some retry) (Some (fun a e => mret (delay a e))) None None false.

(** Reference: call until a success, a permanent error, or no retry is left;
    the result is the last outcome and the number of calls made. *)
Fixpoint first_success (out : nat -> option error) (retry : error -> bool) (more n : nat) :
    option error * nat :=
  match out n with
  | None => (None, S n)
  | Some e =>
      if retry e then
        match more with
        | O => (Some e, S n)
        | S more => first_success out retry more (S n)
        end
      else (Some e, S n)
  end.

Lemma after_failure_plain retry delay cap start n e w :
  (forall a e, 0 < delay a e) ->
  after_failure quiet_runtime (plain_options cap retry delay) start (Z.of_nat n) e w
  = Some (if retry e && (n <? cap)%nat then inr tt else inl e, w).
Proof.
  intros Hd. unfold after_failure, retryable. cbn [shouldRetry maxAttempts plain_options nextDelay].
  destruct (retry e); [|done]. cbn [negb andb].
  destruct (Nat.ltb_spec n cap).
  - replace (0 <=? Z.of_nat cap) with true by lia.
    replace (Z.of_nat cap <=? Z.of_nat n) with false by lia.
    cbn -[Z.leb]. unfold mbind; cbn -[Z.leb].
    replace (delay (Z.of_nat n) e <=? 0) with false; [done|].
    specialize (Hd (Z.of_nat n) e). lia.
  - replace (0 <=? Z.of_nat cap) with true by lia.
    by replace (Z.of_nat cap <=? Z.of_nat n) with true by lia.
Qed.

Lemma attempts_first_success out retry delay more n cap fuel lastErr :
  (forall a e, 0 < delay a e) -> cap = (n + more)%nat -> (more < fuel)%nat ->
  attempts quiet_runtime (plain_options cap retry delay) (outcomes out) fuel 0 (Z.of_nat n) lastErr n
  = Some (first_success out retry more n).
Proof.
  intros Hd Hcap. revert n Hcap fuel lastErr.
  induction more as [|more IH]; intros n Hcap fuel lastErr Hf.
  all: destruct fuel as [|fuel]; [lia|]; cbn [attempts maxAttempts plain_options].
  all: replace (Z.of_nat cap <? 0) with false by lia;
    replace (Z.of_nat n <=? Z.of_nat cap) with true by lia.
  all: unfold mbind at 1; cbn [orb quiet_runtime rt_ctx_err mret]; unfold mbind at 1, outcomes at 1.
  all: cbn [first_success]; destruct (out n) as [e|]; [|done].
  all: unfold mbind at 1; rewrite after_failure_plain by done.
  all: destruct (retry e); cbn [andb]; [|done].
  all: destruct (Nat.ltb_spec n cap); try lia.
  - done.
  - replace (Z.of_nat n + 1) with (Z.of_nat (S n)) by lia. apply IH; lia.
Qed.



Lemma do_bounded_witness :
  exists r w', doWithOptions quiet_runtime (plain_options 2 (fun _ => true) (fun _ _ => 1))
      (outcomes (fun _ => Some (ErrExt 0 "boom"))) 4 0%nat = Some (r, w') /\
    0 <= Z.of_nat w' <= 0 + (2 + 1).
Proof.
  apply (do_bounded Z.of_nat quiet_runtime (plain_options 2 (fun _ => true) (fun _ _ => 1))).
  - simpl; lia.
  - repeat split; intros; try intros ?; by do 2 eexists.
  - repeat split; intros; simplify_eq/=; intros ?; by do 2 eexists.
  - intros w. do 2 eexists. split; [done|]. lia.
Defined.

(** ** Exponential backoff *)

(** The function [Exponential] returns.  [product attempt] is
    [time.Duration(product)], or [None] when the overflow test holds;
    [extra d] is [time.Duration(float64(d) * jitter * rand.Float64())]. *)
Definition Exponential (BaseDelay MaxDelay : Z) (jitter : bool)
    (product : Z -> option Z) (extra : Z -> Z) (attempt : Z) : Z :=
  if BaseDelay <=? 0 then 0
  else
    let attempt := if attempt <? 0 then 0 else attempt in
    match product attempt with
    | None => if 0 <? MaxDelay then MaxDelay else Go.max_int64
    | Some d =>
        if d <=? 0 then 0
        else
          let d := if (0 <? MaxDelay) && (MaxDelay <? d) then MaxDelay else d in
          if jitter then
            let d := Go.i64 (d + extra d) in
            if (0 <? MaxDelay) && (MaxDelay <? d) then MaxDelay else d
          else d
    end.

(** with a cap below 2^62 ns the backoff of a positive base delay is always
    positive and never exceeds the cap, at every attempt, on overflow of the
    product, and whatever the jitter adds (at most the delay itself). *)
Theorem exponential_capped BaseDelay MaxDelay jitter product extra attempt :
  0 < BaseDelay -> 0 < MaxDelay < 2 ^ 62 ->
  (forall a d, product a = Some d -> 0 < d) ->
  (forall d, 0 < d -> 0 <= extra d <= d) ->
  0 < Exponential BaseDelay MaxDelay jitter product extra attempt <= MaxDelay.
Proof.
  intros Hb Hm Hp He. unfold Exponential. cbn zeta.
  destruct (Z.leb_spec BaseDelay 0); [lia|].
  replace (0 <? MaxDelay) with true by lia. cbn [andb].
  destruct (product _) as [d|] eqn:Hd; [|lia].
  apply Hp in Hd. destruct (Z.leb_spec d 0); [lia|].
  set (d' := if MaxDelay <? d then MaxDelay else d).
  assert (0 < d' <= MaxDelay) by (subst d'; case_match; lia).
  specialize (He d' ltac:(lia)). destruct jitter; [|lia].
  rewrite i64_id by lia. case_match; lia.
Qed.

Lemma exponential_capped_witness :
  0 < Exponential 100 5000 true (fun a => Some (100 + Z.abs a)) (fun d => d / 2) 4 <= 5000.
Proof.
  apply (exponential_capped 100 5000 true (fun a => Some (100 + Z.abs a)) (fun d => d / 2)); [lia|lia| |].
  - intros a d [= <-]. lia.
  - intros d ?. lia_mod.
Defined.

(** without a cap the jitter can overflow: a delay of 2^63 - 1024 ns with
    half of it added wraps around to a negative duration, which the retry loop
    treats as "stop". *)
Theorem exponential_uncapped_jitter_overflows :
  Exponential 1 0 true (fun _ => Some (2 ^ 63 - 1024)) (fun d => d / 2) 0 < 0.
Proof. reflexivity. Qed.

(** The sum in the elapsed-time guard can wrap as well: with a budget of one
    hour, one nanosecond spent and a next delay of the maximal duration, the
    guard does not stop the loop. *)
Theorem elapsed_guard_overflows :
  elapsed_stop quiet_runtime
    (Options nat 5 (3600 * Go.nanos_per_sec) None None None None false) (-1) Go.max_int64 0%nat
  = Some (false, 0%nat).
Proof. reflexivity. Qed.

End Retry.
