(* ===== verification/Concurrency.v ===== *)
(** Bounded parallel batches: core/runtime/concurrency/batch.go ([Process],
    [processWithOptions], [processSequential], [getConcurrency]).

    The parallel path is a pool of workers that claim indices from a shared
    counter.  A worker's loop is split at its synchronisation points (the
    context check, the atomic claim, the call), and an arbitrary scheduler
    chooses which worker moves next, so the theorems hold for every
    interleaving of those steps. *)

From S2P Require Import Prelude.
Local Open Scope go_scope.

Module Concurrency.

Section process.
Context {W T : Type}.

(** [options] of options.go.  [limitFunc] is given by the value it returns. *)
Record options := Options {
  concurrency : Z;
  limitFunc : option Z;
  stopOnError : bool;
  onSuccess : option (T -> M W unit);
  onError : option (T -> error -> M W unit);
}.

(** The per-item work: an item callback or an index callback. *)
Inductive batchFunc :=
| ByItem (f : T -> M W (option error))
| ByIndex (f : nat -> M W (option error)).

Definition call (f : batchFunc) (items : list T) (idx : nat) : M W (option error) :=
  match f with
  | ByIndex f => f idx
  | ByItem f => match items !! idx with Some x => f x | None => mpanic end
  end.

Context (ctx_err : M W (option error)).   (* [ctx.Err()] of the caller's context *)
Context (numCPU : Z).                     (* [runtime.NumCPU()] *)

(** [getConcurrency]; the fallback is [DefaultLimitFunc], twice the CPU count. *)
Definition getConcurrency (cfg : options) : Z :=
  match limitFunc cfg with
  | Some limit => if 0 <? limit then limit
                  else if 0 <? concurrency cfg then concurrency cfg else numCPU * 2
  | None => if 0 <? concurrency cfg then concurrency cfg else numCPU * 2
  end.

Definition run_onError (cfg : options) (x : T) (e : error) : M W unit :=
  match onError cfg with Some f => f x e | None => mret tt end.
Definition run_onSuccess (cfg : options) (x : T) : M W unit :=
  match onSuccess cfg with Some f => f x | None => mret tt end.

(** ** The sequential path *)

Fixpoint sequential (f : batchFunc) (cfg : options) (items rest : list T) (idx : nat)
    (firstErr : option error) : M W (option error) :=
  match rest with
  | [] => mret firstErr
  | x :: rest =>
      let* cerr := ctx_err in
      match cerr with
      | Some e => mret (match firstErr with Some fe => Some fe | None => Some e end)
      | None =>
          let* r := call f items idx in
          match r with
          | Some e =>
              do* run_onError cfg x e in
              if stopOnError cfg then mret (Some e)
              else sequential f cfg items rest (S idx)
                     (match firstErr with Some fe => Some fe | None => Some e end)
          | None =>
              do* run_onSuccess cfg x in
              sequential f cfg items rest (S idx) firstErr
          end
      end
  end.

Definition processSequential (f : batchFunc) (cfg : options) (items : list T) : M W (option error) :=
  sequential f cfg items items 0 None.

(** ** The worker pool *)

(** Where a worker is in its loop [for gCtx.Err() == nil { claim; handle }]. *)
Inductive worker :=
| Checking
| Claiming
| Handling (idx : nat)
| Stopped.

#[export] Instance worker_eq_dec : EqDecision worker.
Proof. solve_decision. Defined.

(** [next] is the shared counter, [firstErr] the [sync.Once]-guarded error,
    [cancelled] whether the pool's own cancel function ran. *)
Record pool := Pool {
  next : nat;
  firstErr : option error;
  cancelled : bool;
  workers : list worker;
}.

Definition set_worker (p : pool) (i : nat) (s : worker) : pool :=
  Pool (next p) (firstErr p) (cancelled p) (<[i:=s]> (workers p)).

(** [gCtx.Err()]: the derived context exists only with [stopOnError]. *)
Definition gctx_err (p : pool) : M W (option error) :=
  if cancelled p then mret (Some Errors.context_canceled) else ctx_err.

(** [handle(idx)] up to the callbacks. *)
Definition handle (f : batchFunc) (cfg : options) (items : list T) (p : pool) (idx : nat) : M W pool :=
  let* r := call f items idx in
  match r with
  | Some e =>
      let p := match firstErr p with
               | None => Pool (next p) (Some e) (stopOnError cfg || cancelled p) (workers p)
               | Some _ => p
               end in
      match items !! idx with
      | Some x => do* run_onError cfg x e in mret p
      | None => mpanic
      end
  | None =>
      match items !! idx with
      | Some x => do* run_onSuccess cfg x in mret p
      | None => mpanic
      end
  end.

(** One step of worker [i]. *)
Definition worker_step (f : batchFunc) (cfg : options) (items : list T) (i : nat) (p : pool) : M W pool :=
  match workers p !! i with
  | Some Checking =>
      let* e := gctx_err p in
      mret (set_worker p i (match e with None => Claiming | Some _ => Stopped end))
  | Some Claiming =>
      let idx := next p in
      let p := Pool (S idx) (firstErr p) (cancelled p) (workers p) in
      mret (set_worker p i (if (idx <? length items)%nat then Handling idx else Stopped))
  | Some (Handling idx) =>
      let* p := handle f cfg items p idx in
      mret (set_worker p i Checking)
  | Some Stopped | None => mpanic
  end.

Definition active (p : pool) : list nat :=
  filter (fun i => workers p !! i <> Some Stopped) (seq 0 (length (workers p))).

(** Run the pool under the scheduler [sched] until [wg.Wait()] returns. *)
Fixpoint run_pool (sched : nat -> nat) (fuel k : nat) (f : batchFunc) (cfg : options) (items : list T)
    (p : pool) : M W pool :=
  match active p with
  | [] => mret p
  | i0 :: rest =>
      match fuel with
      | O => mpanic
      | S fuel =>
          let i := default i0 ((i0 :: rest) !! (sched k mod length (i0 :: rest))%nat) in
          let* p := worker_step f cfg items i p in
          run_pool sched fuel (S k) f cfg items p
      end
  end.

Definition start_pool (cfg : options) (items : list T) : pool :=
  Pool 0 None false
    (replicate (Z.to_nat (Z.min (getConcurrency cfg) (Z.of_nat (length items)))) Checking).

(** A bound on the steps of the pool. *)
Definition pool_fuel (p : pool) (n : nat) : nat := (3 * n + 3 * length (workers p))%nat.

Definition processWithOptions (sched : nat -> nat) (f : batchFunc) (cfg : options) (items : list T) :
    M W (option error) :=
  if (getConcurrency cfg =? 1) || (length items =? 1)%nat then processSequential f cfg items
  else
    let p := start_pool cfg items in
    let* p := run_pool sched (pool_fuel p (length items)) 0 f cfg items p in
    match firstErr p with
    | None => if (next p <? length items)%nat then ctx_err else mret None
    | Some e => mret (Some e)
    end.

Definition Process (sched : nat -> nat) (f : batchFunc) (cfg : options) (items : list T) :
    M W (option error) :=
  if (length items =? 0)%nat then mret None else processWithOptions sched f cfg items.

(** ** The contract of a batch

    [J ok bad w] describes the world after the items of [ok] succeeded and those
    of [bad] failed, both in completion order; [ended] describes a world whose
    context has ended, which it stays. *)
Section rule.
Context (f : batchFunc) (cfg : options) (items : list T).
Context (J : list nat -> list nat -> W -> Prop) (ended : W -> Prop).
Local Abbreviation n := (length items).

Context (Hctx : forall ok bad w, J ok bad w ->
  wp ctx_err (fun r w' => J ok bad w' /\ (r <> None -> ended w') /\
                          (ended w -> r <> None /\ ended w')) w).
Context (Hcall : forall ok bad idx w, (idx < n)%nat -> idx ∉ ok ++ bad -> J ok bad w ->
  wp (call f items idx) (fun r w' =>
    (ended w -> ended w') /\
    match r with None => J (ok ++ [idx]) bad w' | Some _ => J ok (bad ++ [idx]) w' end) w).
Context (Hok : forall ok bad x w, J ok bad w ->
  wp (run_onSuccess cfg x) (fun _ w' => J ok bad w' /\ (ended w -> ended w')) w).
Context (Herr : forall ok bad x e w, J ok bad w ->
  wp (run_onError cfg x e) (fun _ w' => J ok bad w' /\ (ended w -> ended w')) w).
Context (Hpos : 0 < numCPU).

(** How a batch ends: [m] items, a prefix, were processed. *)
Definition batch_post (r : option error) (w : W) : Prop :=
  exists ok bad m, J ok bad w /\ (m <= n)%nat /\ ok ++ bad ≡ₚ seq 0 m /\
    (r = None -> bad = [] /\ m = n) /\
    (r <> None -> bad <> [] \/ ended w) /\
    (m = n \/ ended w \/ (stopOnError cfg = true /\ bad <> [])).

(** *** Sequential *)

Lemma wp_sequential rest idx ok bad fe w :
  rest = drop idx items -> J ok bad w -> ok ++ bad ≡ₚ seq 0 idx -> (idx <= n)%nat ->
  (fe = None <-> bad = []) ->
  wp (sequential f cfg items rest idx fe) batch_post w.
Proof using Hctx Hcall Hok Herr.
  revert idx ok bad fe w. induction rest as [|x rest IH]; intros idx ok bad fe w Hrest HJ Hperm Hle [Hfe1 Hfe2].
  { assert (idx = n) as -> by (apply (f_equal length) in Hrest; rewrite length_drop in Hrest; simpl in *; lia).
    exists ok, bad, n. split_and!; auto. }
  assert (items !! idx = Some x) as Hx.
  { rewrite <-(Nat.add_0_r idx), <-lookup_drop, <-Hrest. done. }
  apply lookup_lt_Some in Hx as Hlt.
  simpl. wp_seq ltac:(by apply (Hctx ok bad)). intros [e|] w1 (HJ1 & He1 & _).
  { exists ok, bad, idx. split_and!; [done|done|done|by destruct fe|by right; apply He1|]. right; left. by apply He1. }
  assert (idx ∉ ok ++ bad) as Hfresh.
  { rewrite Hperm. rewrite elem_of_seq. lia. }
  wp_seq ltac:(by apply (Hcall ok bad idx)). intros [e|] w2 (_ & HJ2).
  - wp_seq ltac:(by apply (Herr ok (bad ++ [idx]))). intros _ w3 [HJ3 _].
    assert (ok ++ bad ++ [idx] ≡ₚ seq 0 (S idx)) as Hperm'.
    { rewrite seq_S. simpl. rewrite <-Hperm. by rewrite app_assoc. }
    destruct (stopOnError cfg) eqn:Hstop.
    + exists ok, (bad ++ [idx]), (S idx). assert (bad ++ [idx] <> []) by (by destruct bad). split_and!; auto. done.
    + eapply (IH (S idx) ok (bad ++ [idx])); try done.
      * by rewrite (drop_S items x idx Hx) in Hrest; simplify_eq.
      * split; intros Hn; [by destruct fe|by destruct bad].
  - wp_seq ltac:(by apply (Hok (ok ++ [idx]) bad)). intros _ w3 [HJ3 _].
    eapply (IH (S idx) (ok ++ [idx]) bad); try done.
    + by rewrite (drop_S items x idx Hx) in Hrest; simplify_eq.
    + rewrite seq_S. simpl. rewrite <-Hperm.
      rewrite <-(app_assoc ok). rewrite (Permutation_app_comm [idx] bad). by rewrite app_assoc.
Qed.


(** *** The pool *)

Definition busy (s : worker) : list nat := match s with Handling i => [i] | _ => [] end.
Definition inflight (p : pool) : list nat := workers p ≫= busy.

Lemma inflight_insert (ws : list worker) i s s' :
  ws !! i = Some s ->
  exists rest, ws ≫= busy ≡ₚ busy s ++ rest /\ (<[i:=s']> ws) ≫= busy ≡ₚ busy s' ++ rest.
Proof.
  intros Hi. exists ((take i ws ++ drop (S i) ws) ≫= busy).
  rewrite insert_take_drop by eauto using lookup_lt_Some.
  rewrite <-(take_drop_middle ws i s Hi) at 1.
  rewrite !bind_app. simpl. split; solve_Permutation.
Qed.

Definition weight (s : worker) : nat :=
  match s with Checking => 2 | Claiming => 1 | Handling _ => 3 | Stopped => 0 end.
Definition steps_left (p : pool) : nat :=
  (3 * (n - next p) + sum_list (weight <$> workers p))%nat.

Lemma weight_insert (ws : list worker) i s s' :
  ws !! i = Some s ->
  (sum_list (weight <$> <[i:=s']> ws) + weight s = sum_list (weight <$> ws) + weight s')%nat.
Proof.
  intros Hi. rewrite insert_take_drop by eauto using lookup_lt_Some.
  rewrite <-(take_drop_middle ws i s Hi) at 3.
  rewrite !fmap_app, !sum_list_with_app. simpl. lia.
Qed.

(** The invariant of the pool between two steps. *)
Record pool_inv (ok bad : list nat) (p : pool) (w : W) : Prop := {
  inv_world : J ok bad w;
  inv_claimed : ok ++ bad ++ inflight p ≡ₚ seq 0 (Nat.min (next p) n);
  inv_first : firstErr p = None <-> bad = [];
  inv_cancel : cancelled p = true -> stopOnError cfg = true /\ bad <> [];
  inv_stopped : Stopped ∈ workers p -> (n <= next p)%nat \/ ended w \/ cancelled p = true;
}.

(** What one step of a worker establishes. *)
Definition step_post (p : pool) (p' : pool) (w' : W) : Prop :=
  (exists ok bad, pool_inv ok bad p' w') /\
  (steps_left p' < steps_left p)%nat /\ length (workers p') = length (workers p).

Lemma set_worker_stopped p i s :
  Stopped ∈ workers (set_worker p i s) -> Stopped ∈ workers p \/ s = Stopped.
Proof.
  intros [j Hj]%list_elem_of_lookup.
  apply list_lookup_insert_Some in Hj as [(_ & -> & _)|[_ Hj]]; [by right|].
  left. eapply list_elem_of_lookup_2, Hj.
Qed.

Lemma step_checking ok bad p i w :
  pool_inv ok bad p w -> workers p !! i = Some Checking ->
  wp (worker_step f cfg items i p) (step_post p) w.
Proof using Hctx.
  intros [HJ Hcl Hfe Hca Hst] Hi. unfold worker_step. rewrite Hi.
  apply wp_bind. eapply (wp_mono _ (fun r w' => J ok bad w' /\ (ended w -> ended w') /\
    (r <> None -> ended w' \/ cancelled p = true))).
  { unfold gctx_err. destruct (cancelled p).
    - apply wp_ret. auto.
    - eapply wp_mono; [by apply (Hctx ok bad)|]. cbv beta. intros r w' (H1 & H2 & H3).
      split_and!; [done| |auto]. intros He. by apply H3. }
  intros r w' (HJ' & Hen & Hr). apply wp_ret.
  set (s' := match r with None => Claiming | Some _ => Stopped end).
  destruct (inflight_insert (workers p) i Checking s' Hi) as (rest & Hold & Hnew).
  pose proof (weight_insert (workers p) i Checking s' Hi) as Hw.
  split_and!.
  - exists ok, bad. split; try done.
    + unfold inflight in *. simpl. rewrite Hnew. replace (busy s') with (@nil nat) by (by destruct r).
      by rewrite Hold in Hcl.
    + intros [Hs|Hs]%set_worker_stopped; simpl.
      * destruct (Hst Hs) as [?|[?|?]]; auto.
      * right. apply Hr. by destruct r.
  - unfold steps_left. simpl. destruct r; simpl in *; lia.
  - simpl. by rewrite length_insert.
Qed.

Lemma step_claiming ok bad p i w :
  pool_inv ok bad p w -> workers p !! i = Some Claiming ->
  wp (worker_step f cfg items i p) (step_post p) w.
Proof.
  intros [HJ Hcl Hfe Hca Hst] Hi. unfold worker_step. rewrite Hi. apply wp_ret.
  set (s' := if (next p <? n)%nat then Handling (next p) else Stopped).
  destruct (inflight_insert (workers p) i Claiming s' Hi) as (rest & Hold & Hnew).
  pose proof (weight_insert (workers p) i Claiming s' Hi) as Hw.
  split_and!.
  - exists ok, bad. split; try done.
    + unfold inflight in *. cbn [workers next set_worker] in *.
      rewrite Hnew. rewrite Hold in Hcl. cbn [busy app] in Hcl. subst s'.
      destruct (Nat.ltb_spec (next p) n); cbn [busy app].
      * replace (Nat.min (S (next p)) n) with (S (Nat.min (next p) n)) by lia.
        rewrite seq_S, <-Hcl, Nat.add_0_l. replace (Nat.min (next p) n) with (next p) by lia.
        solve_Permutation.
      * rewrite Hcl. f_equiv. lia.
    + intros [Hs|Hs]%set_worker_stopped; simpl in *.
      * destruct (Hst Hs) as [?|?]; [left; lia|auto].
      * subst s'. destruct (Nat.ltb_spec (next p) n); [done|]. left; lia.
  - unfold steps_left. simpl. subst s'. destruct (Nat.ltb_spec (next p) n); simpl in *; lia.
  - simpl. by rewrite length_insert.
Qed.

Lemma step_handling ok bad p i idx w :
  pool_inv ok bad p w -> workers p !! i = Some (Handling idx) ->
  wp (worker_step f cfg items i p) (step_post p) w.
Proof using Hcall Hok Herr.
  intros [HJ Hcl Hfe Hca Hst] Hi. unfold worker_step. rewrite Hi.
  destruct (inflight_insert (workers p) i _ Checking Hi) as (rest & Hold & Hnew).
  pose proof (weight_insert (workers p) i _ Checking Hi) as Hw.
  unfold inflight in Hcl. rewrite Hold in Hcl. cbn [busy app weight] in *.
  assert (NoDup (ok ++ bad ++ idx :: rest)) as Hnd by (rewrite Hcl; apply NoDup_seq).
  assert (idx ∈ seq 0 (Nat.min (next p) n)) as Hin.
  { rewrite <-Hcl. rewrite !elem_of_app, elem_of_cons. auto. }
  apply elem_of_seq in Hin.
  destruct (lookup_lt_is_Some_2 items idx) as [x Hx]; [lia|].
  assert (idx ∉ ok ++ bad) as Hfresh.
  { intros Hin'. rewrite app_assoc in Hnd. apply list.NoDup_app in Hnd as (_ & Hnd & _).
    apply (Hnd idx Hin'). left. }
  unfold handle. rewrite Hx. apply wp_bind.
  wp_seq ltac:(apply (Hcall ok bad idx); [lia|done..]). intros [e|] w1 [Hen1 HJ1].
  - wp_seq ltac:(by apply (Herr ok (bad ++ [idx]))). intros _ w2 [HJ2 Hen2]. apply wp_ret, wp_ret.
    split_and!; destruct (firstErr p) as [fe|] eqn:Efe.
    all: try (unfold steps_left; cbn [workers next set_worker]; lia).
    all: try (cbn [workers set_worker]; by rewrite length_insert).
    all: exists ok, (bad ++ [idx]); split; try done; cbn [workers next set_worker cancelled firstErr];
      try (unfold inflight; cbn [workers set_worker]; rewrite Hnew, <-Hcl; cbn [busy app]; solve_Permutation).
    all: try (split; [by rewrite ?Efe|by destruct bad]).
    all: try (intros [Hs|Hs]%set_worker_stopped; [|done]; cbn [workers cancelled] in Hs |- *;
      destruct (Hst Hs) as [?|[?|Hc]]; auto; rewrite Hc, orb_true_r; auto).
    + intros Hc. destruct (Hca Hc). split; [done|by destruct bad].
    + intros Hc. split; [|by destruct bad]. destruct (stopOnError cfg); [done|]. by apply Hca.
  - wp_seq ltac:(by apply (Hok (ok ++ [idx]) bad)). intros _ w2 [HJ2 Hen2]. apply wp_ret, wp_ret.
    split_and!; [|unfold steps_left; cbn [workers next set_worker]; lia|cbn [workers set_worker]; by rewrite length_insert].
    exists (ok ++ [idx]), bad. split; try done; cbn [workers next set_worker cancelled firstErr].
    + unfold inflight; cbn [workers set_worker]; rewrite Hnew, <-Hcl; cbn [busy app]; solve_Permutation.
    + intros [Hs|Hs]%set_worker_stopped; [|done]. destruct (Hst Hs) as [?|[?|?]]; auto.
Qed.

Lemma wp_worker_step ok bad p i w :
  pool_inv ok bad p w -> i ∈ active p ->
  wp (worker_step f cfg items i p) (step_post p) w.
Proof using Hctx Hcall Hok Herr.
  intros Hinv [Hns Hi]%list_elem_of_filter. apply elem_of_seq in Hi.
  destruct (lookup_lt_is_Some_2 (workers p) i) as [s Hs]; [lia|].
  destruct s; [by eapply step_checking|by eapply step_claiming|by eapply step_handling|congruence].
Qed.

Lemma active_nil p s : active p = [] -> s ∈ workers p -> s = Stopped.
Proof.
  intros Hact [i Hi]%list_elem_of_lookup. destruct (decide (s = Stopped)) as [|Hne]; [done|].
  assert (i ∈ active p) as Hin.
  { apply list_elem_of_filter. rewrite elem_of_seq. apply lookup_lt_Some in Hi as ?. split; [congruence|lia]. }
  rewrite Hact in Hin. by apply not_elem_of_nil in Hin.
Qed.

(** The pool always drains within its fuel, keeping the invariant. *)
Lemma wp_run_pool sched fuel k ok bad p w :
  pool_inv ok bad p w -> (steps_left p <= fuel)%nat -> workers p <> [] ->
  wp (run_pool sched fuel k f cfg items p) (fun p' w' =>
    (exists ok' bad', pool_inv ok' bad' p' w') /\ active p' = [] /\ workers p' <> []) w.
Proof using Hctx Hcall Hok Herr.
  revert k ok bad p w. induction fuel as [|fuel IH]; intros k ok bad p w Hinv Hfuel Hne; cbn [run_pool].
  all: destruct (active p) as [|i0 rest] eqn:Hact; [apply wp_ret; eauto|].
  { assert (wp (worker_step f cfg items i0 p) (step_post p) w) as (? & ? & _ & _ & ? & _)%wp_run;
      [|lia]. eapply wp_worker_step; [done|]. rewrite Hact. left. }
  set (i := default i0 ((i0 :: rest) !! (sched k mod length (i0 :: rest))%nat)).
  assert (i ∈ active p) as Hi.
  { rewrite Hact. subst i. destruct ((i0 :: rest) !! _) eqn:E; simpl; [|left].
    by eapply list_elem_of_lookup_2. }
  wp_seq ltac:(by eapply wp_worker_step). intros p' w' ((ok' & bad' & Hinv') & Hlt & Hlen).
  eapply IH; [done|lia|]. intros E. rewrite E in Hlen. by destruct (workers p).
Qed.

Lemma getConcurrency_pos : 0 < getConcurrency cfg.
Proof using Hpos. unfold getConcurrency. repeat case_match; lia. Qed.

Lemma drained_post ok bad p w :
  pool_inv ok bad p w -> active p = [] -> workers p <> [] ->
  wp (match firstErr p with
      | None => if (next p <? n)%nat then ctx_err else mret None
      | Some e => mret (Some e)
      end) batch_post w.
Proof using Hctx.
  intros [HJ Hcl [Hfe1 Hfe2] Hca Hst] Hact Hne.
  assert (inflight p = []) as Hno.
  { unfold inflight. pose proof (fun s => active_nil p s Hact) as Hall.
    induction (workers p) as [|s ws IH]; [done|]. simpl.
    rewrite (Hall s) by left. destruct ws as [|s' ws]; [done|].
    apply IH; [|done|]; intros; [apply Hst|apply Hall]; by right. }
  assert (Stopped ∈ workers p) as Hs.
  { destruct (workers p) as [|s ws] eqn:E; [done|].
    rewrite <-(active_nil p s Hact); [left|]. rewrite E. left. }
  rewrite Hno, app_nil_r in Hcl. specialize (Hst Hs).
  assert (forall r w', J ok bad w' -> (ended w -> ended w') ->
    (r = None -> bad = [] /\ Nat.min (next p) n = n) ->
    (r <> None -> bad <> [] \/ ended w') -> batch_post r w') as Hpost.
  { intros r w' HJ' Hen Hr Hr'. exists ok, bad, (Nat.min (next p) n). split_and!; try done; [lia|].
    destruct Hst as [?|[?|Hc]]; [left; lia|auto|]. right; right. by apply Hca. }
  destruct (firstErr p) as [e|].
  { apply wp_ret, Hpost; auto. done. }
  rewrite Hfe1 in * by done.
  destruct (Nat.ltb_spec (next p) n).
  - eapply wp_mono; [by apply (Hctx ok [])|]. cbv beta. intros r w' (HJ' & _ & Hr).
    assert (ended w) as Hew.
    { destruct Hst as [?|[?|Hc]]; [lia|done|]. by destruct (Hca Hc) as [_ []]. }
    destruct (Hr Hew). apply Hpost; auto. done.
  - apply wp_ret, Hpost; auto. intros _. split; [done|lia].
Qed.

Theorem wp_Process sched w :
  J [] [] w -> wp (Process sched f cfg items) batch_post w.
Proof using Hctx Hcall Hok Herr Hpos.
  intros HJ. unfold Process. destruct (Nat.eqb_spec n 0) as [Hn|Hn].
  { apply wp_ret. exists [], [], 0%nat. split_and!; auto with lia. }
  unfold processWithOptions. case_match eqn:Hseq.
  { unfold processSequential. eapply (wp_sequential items 0 [] []); try done. lia. }
  apply orb_false_iff in Hseq as [Hc%Z.eqb_neq _].
  pose proof getConcurrency_pos.
  set (p := start_pool cfg items).
  assert (workers p <> []) as Hne.
  { subst p. simpl. destruct (Z.to_nat _) eqn:E; [lia|done]. }
  wp_seq ltac:(eapply (wp_run_pool sched _ 0 [] [] p)).
  - split; simpl; try done. all: unfold inflight; simpl.
    + by induction (Z.to_nat _).
    + intros [? _]%elem_of_replicate. done.
  - unfold steps_left, pool_fuel. subst p. simpl. rewrite fmap_replicate, length_replicate.
    assert (forall k, sum_list (replicate k (weight Checking)) = 2 * k)%nat as ->; [|lia].
    induction k; simpl in *; lia.
  - done.
  - intros p' w' ((ok' & bad' & Hinv) & Hact & Hne'). by eapply drained_post.
Qed.
End rule.
End process.
Arguments options : clear implicits.
Arguments batchFunc : clear implicits.

(** ** What a caller relies on *)

(** Item [idx] has outcome [out idx]; the world records the calls in order. *)
Definition logged (out : nat -> option error) : batchFunc (list nat) Z :=
  ByIndex (fun idx log => Some (out idx, log ++ [idx])).



End Concurrency.
