(* ===== verification/SagaStore.v ===== *)
(** Saga instances and their storage: data/saga/storage.go and
    data/saga/storages/memory/memory.go.

    [Instance] is the persisted state of one saga.  [Storage] is the interface
    the orchestrator drives, [StorageLaws] what its comments promise, and the
    in-memory store implements it: the instance [memory_laws] discharges the
    promises. *)

From S2P Require Import Prelude.

Module SagaErrs.
Definition ErrInstanceBusy : error := ErrWrap "saga: instance is executing: " Errors.ErrBusy.
Definition ErrInstanceNotFound : error := ErrWrap "saga: instance " Errors.ErrNotFound.
Definition ErrInstanceExists : error := ErrWrap "saga: instance " Errors.ErrAlreadyExists.
Definition ErrVersionConflict : error := ErrWrap "saga: optimistic concurrency: " Errors.ErrConflict.
Definition ErrDefinitionNotFound : error := ErrNew "saga: definition mismatch".
Definition ErrAlreadyTerminal : error := ErrNew "saga: instance already terminal".
Definition ErrCompensationFailed : error := ErrNew "saga: compensation failed".
Definition ErrNoCompensation : error := ErrNew "saga: step without compensation".
Definition ErrEmptyDefinition : error := ErrNew "saga: definition has no steps".
Definition ErrEmptyID : error := ErrNew "saga: empty instance id".
End SagaErrs.

Module SagaStore.

(** [Status] of an instance; its string constants are the constructors. *)
Inductive Status :=
| StatusRunning
| StatusCompensating
| StatusCompleted
| StatusCompensated
| StatusFailed.

#[export] Instance Status_eq_dec : EqDecision Status.
Proof. solve_decision. Defined.

Definition IsTerminal (s : Status) : bool :=
  match s with
  | StatusCompleted | StatusCompensated | StatusFailed => true
  | StatusRunning | StatusCompensating => false
  end.

Inductive StepStatus := StepPending | StepCompleted | StepCompensated | StepFailed.

#[export] Instance StepStatus_eq_dec : EqDecision StepStatus.
Proof. solve_decision. Defined.

Record StepRecord := MkStepRecord {
  rName : string;
  rStage : Z;
  rStatus : StepStatus;
  rAttempts : Z;
  rError : string;
  rStartedAt : Z;
  rFinishedAt : Z;
}.

#[export] Instance StepRecord_eq_dec : EqDecision StepRecord.
Proof. solve_decision. Defined.

(** [Instance].  [iData] is the opaque payload; a nil slice is the empty one. *)
Record Instance := MkInstance {
  iID : string;
  iDefinition : string;
  iStatus : Status;
  iStage : Z;
  iPendingSteps : list Z;
  iData : string;
  iSteps : list StepRecord;
  iCreatedAt : Z;
  iUpdatedAt : Z;
  iDeadline : Z;
  iLeaseOwner : string;
  iLeaseUntil : Z;
  iVersion : Z;
  iLastError : string;
}.

#[export] Instance Instance_eq_dec : EqDecision Instance.
Proof. solve_decision. Defined.

(** Field assignments [inst.F = v]. *)
Definition set_status (v : Status) (i : Instance) : Instance :=
  MkInstance (iID i) (iDefinition i) v (iStage i) (iPendingSteps i) (iData i) (iSteps i)
    (iCreatedAt i) (iUpdatedAt i) (iDeadline i) (iLeaseOwner i) (iLeaseUntil i) (iVersion i) (iLastError i).
Definition set_stage (v : Z) (i : Instance) : Instance :=
  MkInstance (iID i) (iDefinition i) (iStatus i) v (iPendingSteps i) (iData i) (iSteps i)
    (iCreatedAt i) (iUpdatedAt i) (iDeadline i) (iLeaseOwner i) (iLeaseUntil i) (iVersion i) (iLastError i).
Definition set_pending (v : list Z) (i : Instance) : Instance :=
  MkInstance (iID i) (iDefinition i) (iStatus i) (iStage i) v (iData i) (iSteps i)
    (iCreatedAt i) (iUpdatedAt i) (iDeadline i) (iLeaseOwner i) (iLeaseUntil i) (iVersion i) (iLastError i).
Definition set_data (v : string) (i : Instance) : Instance :=
  MkInstance (iID i) (iDefinition i) (iStatus i) (iStage i) (iPendingSteps i) v (iSteps i)
    (iCreatedAt i) (iUpdatedAt i) (iDeadline i) (iLeaseOwner i) (iLeaseUntil i) (iVersion i) (iLastError i).
Definition set_steps (v : list StepRecord) (i : Instance) : Instance :=
  MkInstance (iID i) (iDefinition i) (iStatus i) (iStage i) (iPendingSteps i) (iData i) v
    (iCreatedAt i) (iUpdatedAt i) (iDeadline i) (iLeaseOwner i) (iLeaseUntil i) (iVersion i) (iLastError i).
Definition set_updatedAt (v : Z) (i : Instance) : Instance :=
  MkInstance (iID i) (iDefinition i) (iStatus i) (iStage i) (iPendingSteps i) (iData i) (iSteps i)
    (iCreatedAt i) v (iDeadline i) (iLeaseOwner i) (iLeaseUntil i) (iVersion i) (iLastError i).
Definition set_lease (owner : string) (until : Z) (i : Instance) : Instance :=
  MkInstance (iID i) (iDefinition i) (iStatus i) (iStage i) (iPendingSteps i) (iData i) (iSteps i)
    (iCreatedAt i) (iUpdatedAt i) (iDeadline i) owner until (iVersion i) (iLastError i).
Definition set_version (v : Z) (i : Instance) : Instance :=
  MkInstance (iID i) (iDefinition i) (iStatus i) (iStage i) (iPendingSteps i) (iData i) (iSteps i)
    (iCreatedAt i) (iUpdatedAt i) (iDeadline i) (iLeaseOwner i) (iLeaseUntil i) v (iLastError i).
Definition set_lastError (v : string) (i : Instance) : Instance :=
  MkInstance (iID i) (iDefinition i) (iStatus i) (iStage i) (iPendingSteps i) (iData i) (iSteps i)
    (iCreatedAt i) (iUpdatedAt i) (iDeadline i) (iLeaseOwner i) (iLeaseUntil i) (iVersion i) v.

(** [Instance.Recoverable]. *)
Definition Recoverable (i : Instance) (now : Z) : bool :=
  if IsTerminal (iStatus i) || Go.after (iLeaseUntil i) now then false
  else bool_decide (iStatus i = StatusCompensating) || negb (bool_decide (iLeaseOwner i = ""))
       || (negb (Go.is_zero (iDeadline i)) && negb (Go.before now (iDeadline i))).

(** The [Storage] interface.  [Update] returns the instance as it leaves it in
    the caller's hands ([inst.Version] is set on success). *)
Class Storage (S : Type) := {
  Create : Instance -> S -> option error * S;
  Get : string -> S -> (error + Instance) * S;
  Update : Instance -> S -> (option error * Instance) * S;
  FetchRecoverable : string -> Z -> Z -> S -> (error + list Instance) * S;
  Delete : string -> S -> option error * S;
}.

(** [Update] hands the instance back with at most its version changed. *)
Class UpdateFrame (S : Type) `{Storage S} :=
  update_frame i s : (Update i s).1.2 = set_version (iVersion (Update i s).1.2) i.

(** What the interface promises: [holds s m] says that the store is in a proper
    state and holds the instances [m], by id. *)
Class StorageLaws (S : Type) `{Storage S} := {
  holds : S -> gmap string Instance -> Prop;
  Create_fresh i s m : holds s m -> m !! iID i = None ->
    exists s', Create i s = (None, s') /\ holds s' (<[iID i := i]> m);
  Create_exists i s m : holds s m -> is_Some (m !! iID i) ->
    exists s', Create i s = (Some SagaErrs.ErrInstanceExists, s') /\ holds s' m;
  Get_held id s m : holds s m ->
    exists s', holds s' m /\
    Get id s = (match m !! id with
                | Some i => inr i
                | None => inl SagaErrs.ErrInstanceNotFound
                end, s');
  Update_match i cur s m : holds s m -> m !! iID i = Some cur -> iVersion cur = iVersion i ->
    exists s', Update i s = ((None, set_version (Go.i64 (iVersion cur + 1)) i), s') /\
      holds s' (<[iID i := set_version (Go.i64 (iVersion cur + 1)) i]> m);
  Update_conflict i cur s m : holds s m -> m !! iID i = Some cur -> iVersion cur <> iVersion i ->
    exists s', Update i s = ((Some SagaErrs.ErrVersionConflict, i), s') /\ holds s' m;
  Update_missing i s m : holds s m -> m !! iID i = None ->
    exists s', Update i s = ((Some SagaErrs.ErrInstanceNotFound, i), s') /\ holds s' m;
  Fetch_held def now limit s m : holds s m ->
    exists l s', FetchRecoverable def now limit s = (inr l, s') /\ holds s' m /\
      NoDup l /\ (0 < limit -> Z.of_nat (length l) <= limit) /\
      (forall i, i ∈ l -> m !! iID i = Some i /\ Recoverable i now = true /\
         (def = "" \/ iDefinition i = def)) /\
      (limit <= 0 \/ Z.of_nat (length l) < limit ->
       forall k i, m !! k = Some i -> Recoverable i now = true ->
         (def = "" \/ iDefinition i = def) -> i ∈ l);
  Delete_gone id s m : holds s m ->
    exists s', Delete id s = (None, s') /\ holds s' (delete id m);
}.

(** ** The in-memory store

    [store.instances]; the lock makes each method one atomic step.  Instances
    are values, so [Clone] is the identity.  [iter] is the order in which a Go
    [range] visits the map: any enumeration of its bindings. *)
Module Memory.
Abbreviation Store := (gmap string Instance) (only parsing).

Section memory.
Context (iter : gmap string Instance -> list (string * Instance)).

Definition mem_create (inst : Instance) (s : Store) : option error * Store :=
  match s !! iID inst with
  | Some _ => (Some SagaErrs.ErrInstanceExists, s)
  | None => (None, <[iID inst := inst]> s)
  end.

Definition mem_get (id : string) (s : Store) : (error + Instance) * Store :=
  match s !! id with
  | Some inst => (inr inst, s)
  | None => (inl SagaErrs.ErrInstanceNotFound, s)
  end.

Definition mem_update (inst : Instance) (s : Store) : (option error * Instance) * Store :=
  match s !! iID inst with
  | None => ((Some SagaErrs.ErrInstanceNotFound, inst), s)
  | Some cur =>
      if negb (iVersion cur =? iVersion inst) then ((Some SagaErrs.ErrVersionConflict, inst), s)
      else
        let stored := set_version (Go.i64 (iVersion cur + 1)) inst in
        ((None, set_version (iVersion stored) inst), <[iID inst := stored]> s)
  end.

Definition skipped (definition : string) (now : Z) (inst : Instance) : bool :=
  (negb (bool_decide (definition = "")) && negb (bool_decide (iDefinition inst = definition)))
  || negb (Recoverable inst now).

(** The [for range] of [FetchRecoverable] with its accumulator. *)
Fixpoint fetch_loop (definition : string) (now limit : Z) (l : list (string * Instance))
    (out : list Instance) : list Instance :=
  match l with
  | [] => out
  | (_, inst) :: l =>
      if skipped definition now inst then fetch_loop definition now limit l out
      else
        let out := out ++ [inst] in
        if (0 <? limit) && (limit <=? Z.of_nat (length out)) then out
        else fetch_loop definition now limit l out
  end.

Definition mem_fetchRecoverable (definition : string) (now limit : Z) (s : Store) :
    (error + list Instance) * Store :=
  (inr (fetch_loop definition now limit (iter s) []), s).

Definition mem_delete (id : string) (s : Store) : option error * Store :=
  (None, delete id s).

#[export] Instance memory_storage : Storage Store := {
  Create := mem_create;
  Get := mem_get;
  Update := mem_update;
  FetchRecoverable := mem_fetchRecoverable;
  Delete := mem_delete;
}.

#[export] Instance memory_update_frame : UpdateFrame (H := memory_storage) Store.
Proof.
  intros i s. cbn. unfold mem_update. destruct (s !! iID i); [|by destruct i].
  case_match; by destruct i.
Qed.
End memory.

(** The loop is "filter, then the first [limit] if positive". *)
Definition take_limit {A} (limit : Z) (l : list A) : list A :=
  if 0 <? limit then take (Z.to_nat limit) l else l.

Lemma fetch_loop_spec definition now limit l out :
  (0 < limit -> Z.of_nat (length out) < limit) ->
  fetch_loop definition now limit l out =
  take_limit limit (out ++ filter (fun i => skipped definition now i = false) l.*2).
Proof.
  unfold take_limit. revert out. induction l as [|[k i] l IH]; intros out Hout; cbn [fetch_loop fmap list_fmap].
  { rewrite filter_nil, app_nil_r. case_match; [|done]. rewrite take_ge; [done|lia]. }
  cbn [snd]. rewrite filter_cons. destruct (skipped definition now i) eqn:Hs.
  { rewrite decide_False by done. auto. }
  rewrite decide_True by done. cbn zeta.
  destruct (Z.ltb_spec 0 limit); cbn [andb].
  - destruct (Z.leb_spec limit (Z.of_nat (length (out ++ [i])))) as [Hle|Hlt].
    + rewrite length_app in Hle. cbn in Hle. rewrite take_app.
      replace (Z.to_nat limit) with (length out + 1)%nat by lia.
      rewrite take_ge by lia. by replace (length out + 1 - length out)%nat with 1%nat by lia.
    + rewrite IH by lia. by rewrite <-app_assoc.
  - rewrite IH by lia. by rewrite <-app_assoc.
Qed.

Lemma skipped_false definition now i :
  skipped definition now i = false <->
  Recoverable i now = true /\ (definition = "" \/ iDefinition i = definition).
Proof.
  unfold skipped. rewrite orb_false_iff, andb_false_iff, !negb_false_iff, !bool_decide_eq_true. tauto.
Qed.

(** ** The memory store keeps the promises of the interface *)
Section laws.
Context (iter : gmap string Instance -> list (string * Instance)).
Context (iter_perm : forall m, iter m ≡ₚ map_to_list m).

(** Instances are filed under their id. *)
Definition keyed (s : Store) : Prop := forall k i, s !! k = Some i -> iID i = k.

Lemma elem_of_iter s i : i ∈ (iter s).*2 <-> exists k, s !! k = Some i.
Proof using iter_perm.
  rewrite iter_perm, list_elem_of_fmap. split.
  - intros ([k j] & -> & Hkj%elem_of_map_to_list). by exists k.
  - intros [k Hk%elem_of_map_to_list]. by exists (k, i).
Qed.

Lemma NoDup_iter s : keyed s -> NoDup (iter s).*2.
Proof using iter_perm.
  intros Hk. rewrite iter_perm.
  apply (NoDup_fmap_1 iID). rewrite <-list_fmap_compose.
  erewrite list_fmap_ext; [apply NoDup_fst_map_to_list|].
  intros n [k i] Hi. cbn. apply Hk, elem_of_map_to_list. by apply list_elem_of_lookup_2 in Hi.
Qed.

Lemma fetch_keyed definition now limit s l :
  keyed s -> l = fetch_loop definition now limit (iter s) [] ->
  NoDup l /\ (0 < limit -> Z.of_nat (length l) <= limit) /\
  (forall i, i ∈ l -> s !! iID i = Some i /\ Recoverable i now = true /\
     (definition = "" \/ iDefinition i = definition)) /\
  (limit <= 0 \/ Z.of_nat (length l) < limit ->
   forall k i, s !! k = Some i -> Recoverable i now = true ->
     (definition = "" \/ iDefinition i = definition) -> i ∈ l).
Proof using iter_perm.
  intros Hk ->. rewrite fetch_loop_spec by (simpl; lia). cbn [app].
  set (l := filter _ _).
  assert (Hl : forall i, i ∈ l <-> skipped definition now i = false /\ exists k, s !! k = Some i).
  { intros i. unfold l. by rewrite list_elem_of_filter, elem_of_iter. }
  assert (Hsub : forall i, i ∈ take_limit limit l -> i ∈ l).
  { intros i. unfold take_limit. case_match; [|done]. apply subseteq_take. }
  split_and!.
  - unfold take_limit. case_match; [apply NoDup_take|]; by apply list.NoDup_filter, NoDup_iter.
  - intros ?. unfold take_limit. case_match; [|lia]. rewrite length_take. lia.
  - intros i [Hs [k Hi]]%Hsub%Hl. apply skipped_false in Hs as [? ?].
    by rewrite (Hk _ _ Hi).
  - intros Hlim k i Hi Hr Hd. assert (i ∈ l) by (apply Hl; rewrite skipped_false; eauto).
    unfold take_limit in *. case_match; [|done].
    rewrite length_take in Hlim. rewrite take_ge; [done|lia].
Qed.

Lemma keyed_insert s i : keyed s -> keyed (<[iID i := i]> s).
Proof. intros Hk k j [[<- <-]|[? Hj]]%lookup_insert_Some; [done|by apply Hk]. Qed.

Lemma keyed_delete s id : keyed s -> keyed (delete id s).
Proof. intros Hk k j [? Hj]%lookup_delete_Some. by apply Hk. Qed.

#[refine] Instance memory_laws : StorageLaws (H := memory_storage iter) Store := {
  holds s m := s = m /\ keyed m;
}.
Proof using iter_perm.
  - intros i s m [-> Hk] Hi. eexists. cbn. unfold mem_create. rewrite Hi. split; [done|].
    split; [done|by apply keyed_insert].
  - intros i s m [-> Hk] [j Hi]. eexists. cbn. unfold mem_create. by rewrite Hi.
  - intros id s m [-> Hk]. eexists. cbn. unfold mem_get. by destruct (m !! id).
  - intros i cur s m [-> Hk] Hi Hv. eexists. cbn. unfold mem_update.
    rewrite Hi, Hv, Z.eqb_refl. split; [done|]. split; [done|].
    by apply (keyed_insert m (set_version _ i)).
  - intros i cur s m [-> Hk] Hi Hv. eexists. cbn. unfold mem_update.
    rewrite Hi. by apply Z.eqb_neq in Hv as ->.
  - intros i s m [-> Hk] Hi. eexists. cbn. unfold mem_update. by rewrite Hi.
  - intros def now limit s m [-> Hk]. do 2 eexists. cbn. split; [done|]. split; [done|].
    by apply fetch_keyed.
  - intros id s m [-> Hk]. eexists. cbn. split; [done|]. split; [done|by apply keyed_delete].
Defined.
End laws.

(** ** Recovery scans and fences *)

(** a recovery scan is exact.  It returns stored instances without
    repetition, each recoverable at [now] (not terminal, no live lease) and of
    the requested definition, at most [limit] of them; below the limit it
    returns them all.  The order in which the map is visited does not matter. *)
Theorem memory_fetch_exact iter definition now limit s :
  (forall m, iter m ≡ₚ map_to_list m) -> keyed s ->
  exists l, mem_fetchRecoverable iter definition now limit s = (inr l, s) /\
    NoDup l /\ (0 < limit -> Z.of_nat (length l) <= limit) /\
    (forall i, i ∈ l -> s !! iID i = Some i /\ IsTerminal (iStatus i) = false /\
       iLeaseUntil i <= now /\ (definition = "" \/ iDefinition i = definition)) /\
    (limit <= 0 \/ Z.of_nat (length l) < limit ->
     forall k i, s !! k = Some i -> Recoverable i now = true ->
       (definition = "" \/ iDefinition i = definition) -> i ∈ l).
Proof.
  intros Hiter Hk. eexists. split; [reflexivity|].
  destruct (fetch_keyed iter Hiter definition now limit s _ Hk eq_refl) as (Hnd & Hlim & Hin & Hall).
  split_and!; [done|done| |done]. intros i Hi. destruct (Hin i Hi) as (Hs & Hr & Hd).
  unfold Recoverable in Hr. destruct (IsTerminal (iStatus i)); [done|]. cbn [orb] in Hr.
  unfold Go.after in Hr. destruct (Z.ltb_spec now (iLeaseUntil i)); [done|]. by split_and!.
Qed.

(** Apply updates one after the other: the versions the successful ones return. *)
Fixpoint update_all (l : list Instance) (s : Store) : list Z * Store :=
  match l with
  | [] => ([], s)
  | i :: l =>
      let '((e, i'), s') := mem_update i s in
      let '(vs, s'') := update_all l s' in
      (match e with None => iVersion i' :: vs | Some _ => vs end, s'')
  end.

(** fences increase.  Whatever copies of an instance executors write, in
    whatever order, the versions the successful writes return (the fences of
    acquisitions among them) strictly increase, from the stored one on, as long
    as the counter does not overflow; two writes never share a version. *)
Theorem fences_increase id l s cur :
  s !! id = Some cur -> (forall i, i ∈ l -> iID i = id) ->
  0 <= iVersion cur -> iVersion cur + Z.of_nat (length l) < 2 ^ 63 ->
  StronglySorted Z.lt (iVersion cur :: (update_all l s).1).
Proof.
  revert s cur. induction l as [|i l IH]; intros s cur Hs Hid Hpos Hmax; cbn [update_all].
  { repeat constructor. }
  assert (iID i = id) as Hi by (apply Hid; left).
  assert (forall j, j ∈ l -> iID j = id) as Hl by (intros j Hj; apply Hid; by right).
  cbn [length] in Hmax. unfold mem_update. rewrite Hi, Hs.
  destruct (Z.eqb_spec (iVersion cur) (iVersion i)) as [Hv|Hv]; cbn [negb].
  - rewrite i64_id by lia.
    specialize (IH (<[id := set_version (iVersion cur + 1) i]> s) (set_version (iVersion cur + 1) i)).
    destruct (update_all l _) as [vs s'']. cbn [fst iVersion set_version] in *.
    specialize (IH (lookup_insert_eq _ _ _) Hl ltac:(lia) ltac:(lia)). constructor; [done|].
    inversion IH as [|? ? _ Hall]. subst. constructor; [lia|].
    eapply Forall_impl; [exact Hall|]. cbn. lia.
  - specialize (IH s cur Hs Hl Hpos). destruct (update_all l s) as [vs s'']. apply IH. lia.
Qed.

Definition witness_instance (v : Z) : Instance :=
  MkInstance "a" "d" StatusRunning 0 [] "" [] 0 0 1 "o" 2 v "".

Lemma fences_increase_witness :
  StronglySorted Z.lt (7 :: (update_all [witness_instance 7; witness_instance 7; witness_instance 8]
    {["a" := witness_instance 7]}).1).
Proof.
  apply (fences_increase "a" _ _ (witness_instance 7)); [reflexivity| |done|done].
  intros i Hi. repeat (apply elem_of_cons in Hi as [->|Hi]; [reflexivity|]).
  by apply not_elem_of_nil in Hi.
Defined.

Lemma memory_fetch_exact_witness :
  exists l, mem_fetchRecoverable map_to_list "d" 5 10 {["a" := witness_instance 7]} = (inr l, {["a" := witness_instance 7]}) /\
    NoDup l /\ witness_instance 7 ∈ l.
Proof.
  destruct (memory_fetch_exact map_to_list "d" 5 10 {["a" := witness_instance 7]}) as (l & E & Hnd & _ & _ & Hall).
  - reflexivity.
  - intros k i Hi. apply lookup_singleton_Some in Hi as [<- <-]. reflexivity.
  - exists l. split; [exact E|]. split; [exact Hnd|]. apply (Hall ltac:(right; injection E as <-; vm_compute; reflexivity) "a"); [reflexivity|reflexivity|by right].
Defined.
End Memory.
End SagaStore.
