(* ===== verification/SagaDef.v ===== *)
(** Saga definitions: data/saga/definition.go and data/saga/policy.go.

    A definition is an ordered list of stages, each a step or a parallel group,
    with the index of the first stage holding a pivot.  Actions and
    compensations are the caller's code: functions of the execution metadata,
    the step's timeout, the saga data and an external world [X], which may
    succeed, fail or panic. *)

From stdpp Require Import pretty.
From S2P Require Import Prelude SagaStore.

Module SagaDef.
Import SagaStore.

(** [Execution] of data/saga/execution.go. *)
Record Execution := MkExecution {
  eInstanceID : string;
  eFence : Z;
  eStepKey : string;
  eStage : Z;
}.

#[export] Instance Execution_eq_dec : EqDecision Execution.
Proof. solve_decision. Defined.

(** How a call of user code ends. *)
Inductive outcome := Ok | Err (e : error) | Panic (msg : string).

#[export] Instance outcome_eq_dec : EqDecision outcome.
Proof. solve_decision. Defined.

Record RetryPolicy := MkRetryPolicy { MaxAttempts : Z; BaseDelay : Z; MaxDelay : Z }.

Inductive Policy := PolicyWarn | PolicyEnforce | PolicyDisabled.

#[export] Instance Policy_eq_dec : EqDecision Policy.
Proof. solve_decision. Defined.

Section definition.
Context {T X : Type}.

(** [StepFunc] and [CompensateFunc]. *)
Definition StepFunc : Type := Execution -> Z -> T -> X -> outcome * T * X.

Record Step := MkStep {
  sName : string;
  sAction : StepFunc;
  sCompensation : option StepFunc;
  sPivot : bool;
  sReadOnly : bool;
  sTimeout : Z;
  sRetry : option RetryPolicy;
}.

Record stage := MkStage {
  stName : string;
  stSteps : list Step;
  stParallel : bool;
}.

Definition hasPivot (st : stage) : bool := existsb sPivot (stSteps st).

(** The struct [Definition]. *)
Record SagaDefinition := MkDefinition {
  dName : string;
  dStages : list stage;
  dPivotIdx : Z;
  dMissing : list string;
  dPolicy : Policy;
}.

(** ** The builder *)

Record Builder := MkBuilder { bName : string; bStages : list stage }.

Definition NewDefinition (name : string) : Builder := MkBuilder name [].

Definition bStep (b : Builder) (name : string) (action : StepFunc) : Builder :=
  MkBuilder (bName b)
    (bStages b ++ [MkStage name [MkStep name action None false false 0 None] false]).

Definition bParallel (b : Builder) (name : string) (specs : list Step) : Builder :=
  MkBuilder (bName b) (bStages b ++ [MkStage name specs true]).

(** The step setters shared by [StepBuilder] and [StepSpec]. *)
Definition NewStep (name : string) (action : StepFunc) : Step :=
  MkStep name action None false false 0 None.
Definition Compensate (fn : StepFunc) (s : Step) : Step :=
  MkStep (sName s) (sAction s) (Some fn) (sPivot s) (sReadOnly s) (sTimeout s) (sRetry s).
Definition Pivot (s : Step) : Step :=
  MkStep (sName s) (sAction s) (sCompensation s) true (sReadOnly s) (sTimeout s) (sRetry s).
Definition ReadOnly (s : Step) : Step :=
  MkStep (sName s) (sAction s) (sCompensation s) (sPivot s) true (sTimeout s) (sRetry s).
Definition Timeout (d : Z) (s : Step) : Step :=
  if 0 <? d then
    MkStep (sName s) (sAction s) (sCompensation s) (sPivot s) (sReadOnly s) d (sRetry s)
  else s.
Definition WithRetryPolicy (p : RetryPolicy) (s : Step) : Step :=
  MkStep (sName s) (sAction s) (sCompensation s) (sPivot s) (sReadOnly s) (sTimeout s) (Some p).

(** [StepBuilder]: the setter applied to [sb.last()], the first step of the last
    stage; [None] is the index panic, which [Builder.Step] rules out. *)
Definition on_last (f : Step -> Step) (b : Builder) : option Builder :=
  match rev (bStages b) with
  | MkStage n (s :: rest) par :: before =>
      Some (MkBuilder (bName b) (rev before ++ [MkStage n (f s :: rest) par]))
  | _ => None
  end.

(** The index of the first stage with a pivot, or the number of stages. *)
Fixpoint pivot_from (i : Z) (stages : list stage) : Z :=
  match stages with
  | [] => i
  | st :: stages => if hasPivot st then i else pivot_from (i + 1) stages
  end.

Definition lacks_compensation (s : Step) : bool :=
  match sCompensation s with None => negb (sReadOnly s) | Some _ => false end.

Definition missing_of (stages : list stage) : list string :=
  sName <$> filter (fun s => lacks_compensation s = true) (stages ≫= stSteps).

(** [fmt.Sprintf("%v")] of a string slice. *)
Definition show_strings (l : list string) : string :=
  ("[" +:+ String.concat " " l +:+ "]")%string.

Definition Build (policy : Policy) (b : Builder) : error + SagaDefinition :=
  if (length (bStages b) =? 0)%nat then inl SagaErrs.ErrEmptyDefinition
  else
    let pivotIdx := pivot_from 0 (bStages b) in
    let missing := missing_of (take (Z.to_nat pivotIdx) (bStages b)) in
    if bool_decide (policy = PolicyEnforce) && negb (length missing =? 0)%nat then
      inl (Errors.Wrapf SagaErrs.ErrNoCompensation ("steps " +:+ show_strings missing))
    else inr (MkDefinition (bName b) (bStages b) pivotIdx missing policy).

(** ** What [Build] guarantees *)

(** The shape of a definition the engine relies on. *)
Definition well_built (d : SagaDefinition) : Prop :=
  dStages d <> [] /\ dPivotIdx d = pivot_from 0 (dStages d).

Lemma pivot_from_spec i stages :
  i <= pivot_from i stages <= i + Z.of_nat (length stages) /\
  (forall k st, stages !! k = Some st -> i + Z.of_nat k < pivot_from i stages -> hasPivot st = false) /\
  (forall k st, stages !! k = Some st -> i + Z.of_nat k = pivot_from i stages -> hasPivot st = true).
Proof.
  revert i. induction stages as [|st stages IH]; intros i; cbn [pivot_from length].
  { split_and!; [lia..| |]; intros k st; by rewrite lookup_nil. }
  destruct (hasPivot st) eqn:Hp.
  - split_and!; [lia..| |]; intros [|k] st' Hk ?; simplify_eq/=; [lia|lia|done|lia].
  - destruct (IH (i + 1)) as (? & H1 & H2). split_and!; [lia..| |].
    all: intros [|k] st' Hk ?; simplify_eq/=; [first [done|lia]|eauto with lia].
Qed.

Lemma before_pivot stages k st :
  stages !! k = Some st ->
  Z.of_nat k < pivot_from 0 stages <-> (forall j st', (j <= k)%nat -> stages !! j = Some st' -> hasPivot st' = false).
Proof.
  intros Hk. destruct (pivot_from_spec 0 stages) as (Hr & Hlt & Heq). split.
  - intros Hp j st' Hj Hst. apply (Hlt j); [done|lia].
  - intros Hall. apply lookup_lt_Some in Hk as Hlen.
    destruct (decide (Z.of_nat k < pivot_from 0 stages)) as [?|Hge]; [done|exfalso].
    destruct (lookup_lt_is_Some_2 stages (Z.to_nat (pivot_from 0 stages))) as [st' Hst']; [lia|].
    assert (hasPivot st' = true) by (eapply Heq; [done|lia]).
    rewrite (Hall (Z.to_nat (pivot_from 0 stages)) st') in *; [done|lia|done].
Qed.

Definition compensable (s : Step) : Prop := is_Some (sCompensation s) \/ sReadOnly s = true.

Lemma lacks_compensation_spec s : lacks_compensation s = true <-> ~ compensable s.
Proof.
  unfold lacks_compensation, compensable. destruct (sCompensation s), (sReadOnly s); cbn.
  all: split; try done; try (by intros []; eauto).
  intros _ [[? ?]|?]; done.
Qed.

Lemma elem_of_missing stages nm :
  nm ∈ missing_of stages <->
  exists k st s, stages !! k = Some st /\ s ∈ stSteps st /\ ~ compensable s /\ nm = sName s.
Proof.
  unfold missing_of. rewrite list_elem_of_fmap. split.
  - intros (s & -> & [Hl Hs]%list_elem_of_filter).
    apply lacks_compensation_spec in Hl.
    apply list_elem_of_bind in Hs as (st & Hs & [k Hk]%list_elem_of_lookup). eauto 8.
  - intros (k & st & s & Hk & Hs & Hl%lacks_compensation_spec & ->). exists s. split; [done|].
    apply list_elem_of_filter. split; [done|]. apply list_elem_of_bind.
    exists st. split; [done|]. by eapply list_elem_of_lookup_2.
Qed.

Lemma Build_inr policy b d :
  Build policy b = inr d ->
  d = MkDefinition (bName b) (bStages b) (pivot_from 0 (bStages b))
        (missing_of (take (Z.to_nat (pivot_from 0 (bStages b))) (bStages b))) policy /\
  bStages b <> [] /\ (policy = PolicyEnforce -> dMissing d = []).
Proof.
  unfold Build. destruct (Nat.eqb_spec (length (bStages b)) 0) as [|Hne]; [done|].
  cbn zeta. set (mis := missing_of _). case_match eqn:Hm; [done|]. intros [= <-]. split; [done|].
  split; [by intros E; rewrite E in Hne|]. intros ->. cbn [dMissing]. cbn [bool_decide] in Hm.
  destruct mis; [done|]. by rewrite bool_decide_eq_true_2 in Hm.
Qed.

(** [Build] records the first stage with a pivot, and names as missing
    exactly the steps of the stages before it that have no compensation and are
    not read-only; a definition built under [PolicyEnforce] has none. *)
Theorem build_missing_exact policy (b : Builder) d :
  Build policy b = inr d ->
  (forall k st, dStages d !! k = Some st ->
     Z.of_nat k < dPivotIdx d <->
     (forall j st', (j <= k)%nat -> dStages d !! j = Some st' -> hasPivot st' = false)) /\
  (forall nm, nm ∈ dMissing d <->
     exists k st s, dStages d !! k = Some st /\ Z.of_nat k < dPivotIdx d /\
       s ∈ stSteps st /\ ~ compensable s /\ nm = sName s) /\
  (policy = PolicyEnforce -> dMissing d = []).
Proof.
  intros Hb. apply Build_inr in Hb as (-> & Hne & Henf). split_and!; [|intros nm|done].
  { intros k st Hk. by apply (before_pivot _ k st). }
  cbn [dMissing dPivotIdx dStages]. rewrite elem_of_missing. split.
  - intros (k & st & s & Hk & Hs & Hc & ->). apply lookup_take_Some in Hk as [Hk ?].
    exists k, st, s. split_and!; auto. lia.
  - intros (k & st & s & Hk & Hp & Hs & Hc & ->). exists k, st, s. split_and!; auto.
    apply lookup_take_Some. split; [done|lia].
Qed.
End definition.
Arguments Step : clear implicits.
Arguments stage : clear implicits.
Arguments SagaDefinition : clear implicits.
Arguments Builder : clear implicits.
Arguments StepFunc : clear implicits.

(** A two-stage definition: a compensable step, then the pivot. *)
Definition done_action : StepFunc nat nat := fun _ _ t x => (Ok, S t, x).
Definition order_builder : Builder nat nat :=
  MkBuilder "order"
    [MkStage "reserve" [Compensate done_action (NewStep "reserve" done_action)] false;
     MkStage "pay" [Pivot (NewStep "pay" done_action)] false].

Lemma build_missing_exact_witness :
  exists d, Build PolicyEnforce order_builder = inr d /\ dPivotIdx d = 1 /\ dMissing d = [].
Proof.
  eexists. split; [reflexivity|]. split; [reflexivity|].
  exact (proj2 (proj2 (build_missing_exact PolicyEnforce order_builder _ eq_refl)) eq_refl).
Defined.
End SagaDef.
