(* ===== verification/SagaEngine.v ===== *)
(** The saga orchestrator: data/saga/orchestrator.go, data/saga/execution.go and
    data/saga/recovery.go.

    The engine runs over a [World]: the shared store, the instance and the data
    the current invocation holds by pointer, the world of the user's callbacks,
    and a ghost log of the successful writes and of the calls made.  [Env] is
    everything the engine reads from its surroundings: clocks, contexts, random
    tokens, the scheduler of parallel steps, and what other executors do to the
    store between two of its operations. *)

From stdpp Require Import pretty.
From S2P Require Import Prelude Retry Concurrency SagaStore SagaDef.
Local Open Scope go_scope.

Module SagaEngine.
Import SagaStore SagaDef.

(** ** Surroundings *)

Section types.
Context (S T X : Type).

Inductive event :=
| EvPersist (i : Instance)
| EvCall (ex : Execution) (compensating : bool) (name : string) (r : outcome)
| EvDeadLetter (i : Instance).

(** Every reading of the surroundings is indexed by a tick that only grows. *)
Record Env := MkEnv {
  env_now : nat -> Z;                        (* time.Now().UTC() *)
  env_text : nat -> string;                  (* rand.Text() *)
  env_run_ctx : nat -> nat -> option error;  (* runCtx.Err() of an invocation *)
  env_release_ctx : nat -> option error;     (* releaseCtx.Err() *)
  env_cycle_ctx : nat -> option error;       (* cycleCtx.Err() *)
  env_step_ctx : nat -> option error;        (* the context of one step's retries *)
  env_deadline : nat -> option Z;            (* the caller's ctx.Deadline() *)
  env_product : nat -> Z -> option Z;        (* the floats of retry.Exponential *)
  env_extra : nat -> Z -> Z;
  env_sched : nat -> nat -> nat;             (* interleaving of parallel steps *)
  env_cpus : Z;                              (* runtime.NumCPU() *)
  env_others : nat -> S -> S;                (* other executors' store operations *)
}.

Record World := MkWorld {
  w_store : S;
  w_tick : nat;
  w_run : nat;        (* number of the current invocation *)
  w_inst : Instance;  (* *inst *)
  w_data : T;         (* *data *)
  w_ext : X;
  w_log : list event;
}.

(** The fields of [Orchestrator] the engine reads; [o_retryJitter] is whether
    the package constant [retryJitter] is positive. *)
Record Orchestrator := MkOrchestrator {
  o_def : SagaDefinition T X;
  o_serialize : T -> error + string;
  o_deserialize : string -> error + T;
  o_zero : T;                                (* var data T *)
  o_stepTimeout : Z;
  o_sagaTimeout : Z;
  o_defaultRetry : RetryPolicy;
  o_maxCompensationAttempts : Z;
  o_stepConcurrency : Z;
  o_executionTimeout : Z;
  o_leaseGrace : Z;
  o_recoveryBatchSize : Z;
  o_isLeader : option bool;                  (* leaderElector, if any *)
  o_onDeadLetter : option (Instance -> X -> X);
  o_shouldRetry : option (error -> bool);
}.
End types.

Arguments MkEnv {S}. Arguments env_now {S}. Arguments env_text {S}.
Arguments env_run_ctx {S}. Arguments env_release_ctx {S}. Arguments env_cycle_ctx {S}.
Arguments env_step_ctx {S}. Arguments env_deadline {S}. Arguments env_product {S}.
Arguments env_extra {S}. Arguments env_sched {S}. Arguments env_cpus {S}. Arguments env_others {S}.
Arguments MkWorld {S T X}. Arguments w_store {S T X}. Arguments w_tick {S T X}.
Arguments w_run {S T X}. Arguments w_inst {S T X}. Arguments w_data {S T X}.
Arguments w_ext {S T X}. Arguments w_log {S T X}.
Arguments MkOrchestrator {T X}. Arguments o_def {T X}. Arguments o_serialize {T X}.
Arguments o_deserialize {T X}. Arguments o_zero {T X}. Arguments o_stepTimeout {T X}.
Arguments o_sagaTimeout {T X}. Arguments o_defaultRetry {T X}.
Arguments o_maxCompensationAttempts {T X}. Arguments o_stepConcurrency {T X}.
Arguments o_executionTimeout {T X}. Arguments o_leaseGrace {T X}.
Arguments o_recoveryBatchSize {T X}. Arguments o_isLeader {T X}.
Arguments o_onDeadLetter {T X}. Arguments o_shouldRetry {T X}.

#[export] Instance event_eq_dec : EqDecision event.
Proof. solve_decision. Defined.

(** What the engine relies on: a context that has ended stays ended
    ([context.Context]), and there is a processor. *)
Class EnvLaws {S} (env : Env S) := {
  run_ctx_stays n k k' : (k <= k')%nat -> env_run_ctx env n k <> None -> env_run_ctx env n k' <> None;
  cpus_pos : 0 < env_cpus env;
}.

Section engine.
Context {S T X : Type} `{Storage S} (env : Env S) (o : Orchestrator T X).
Local Abbreviation W := (World S T X).
Local Abbreviation def := (o_def o).
Local Abbreviation stages := (dStages (o_def o)).
Local Abbreviation nstages := (Z.of_nat (length (dStages (o_def o)))).

(** ** Primitive readings and writes *)

Definition tick (w : W) : W :=
  MkWorld (w_store w) (w_tick w + 1)%nat (w_run w) (w_inst w) (w_data w) (w_ext w) (w_log w).
Definition set_inst (f : Instance -> Instance) (w : W) : W :=
  MkWorld (w_store w) (w_tick w) (w_run w) (f (w_inst w)) (w_data w) (w_ext w) (w_log w).
Definition set_store (s : S) (w : W) : W :=
  MkWorld s (w_tick w) (w_run w) (w_inst w) (w_data w) (w_ext w) (w_log w).
Definition set_payload (t : T) (w : W) : W :=
  MkWorld (w_store w) (w_tick w) (w_run w) (w_inst w) t (w_ext w) (w_log w).
Definition set_ext (x : X) (w : W) : W :=
  MkWorld (w_store w) (w_tick w) (w_run w) (w_inst w) (w_data w) x (w_log w).
Definition next_run (w : W) : W :=
  MkWorld (w_store w) (w_tick w) (w_run w + 1)%nat (w_inst w) (w_data w) (w_ext w) (w_log w).
Definition log (e : event) (w : W) : W :=
  MkWorld (w_store w) (w_tick w) (w_run w) (w_inst w) (w_data w) (w_ext w) (w_log w ++ [e]).

(** Read the surroundings at the current tick. *)
Definition sense {A} (f : nat -> A) : M W A := fun w => Some (f (w_tick w), tick w).
Definition now : M W Z := sense (env_now env).
Definition modi (f : Instance -> Instance) : M W unit := mmod (set_inst f).
Definition touch : M W unit := let* t := now in modi (set_updatedAt t).

(** [ctx.Err()] of the invocation's [runCtx]. *)
Definition run_ctx_err : M W (option error) := fun w =>
  Some (env_run_ctx env (w_run w) (w_tick w), tick w).

(** A store operation: other executors act first. *)
Definition on_store {A} (op : S -> A * S) : M W A := fun w =>
  let '(a, s) := op (env_others env (w_tick w) (w_store w)) in
  Some (a, set_store s (tick w)).

(** ** execution.go: [boundedStorage]

    The derived contexts only add a deadline; [Update] refuses an ended one. *)
Definition bs_create (inst : Instance) : M W (option error) := on_store (Create inst).
Definition bs_get (id : string) : M W (error + Instance) := on_store (Get id).
Definition bs_fetch (definition : string) (t limit : Z) : M W (error + list Instance) :=
  on_store (FetchRecoverable definition t limit).

Definition bs_update (ctx_err : M W (option error)) (inst : Instance) : M W (option error * Instance) :=
  let* e := ctx_err in
  match e with
  | Some e => mret (Some e, inst)
  | None =>
      let* (r, inst') := on_store (Update inst) in
      match r with
      | Some e => mret (Some e, inst')
      | None => do* mmod (log (EvPersist inst')) in mret (None, inst')
      end
  end.

(** [o.store.Update(ctx, inst)] on the invocation's own instance. *)
Definition update : M W (option error) :=
  let* inst := mget w_inst in
  let* (e, inst') := bs_update run_ctx_err inst in
  do* modi (fun _ => inst') in mret e.

(** ** execution.go: metadata *)

Definition withStage (ex : Execution) (stage : Z) : Execution :=
  MkExecution (eInstanceID ex) (eFence ex) (eStepKey ex) stage.

Definition step_key (id : string) (stage : Z) (name : string) : string :=
  (pretty (Z.of_nat (String.length id)) +:+ ":" +:+ id +:+ ":" +:+ pretty stage +:+ ":" +:+ name)%string.

Definition withStep (ex : Execution) (name : string) : Execution :=
  MkExecution (eInstanceID ex) (eFence ex) (step_key (eInstanceID ex) (eStage ex) name) (eStage ex).

(** ** orchestrator.go: one step *)

Definition resolveTimeout (s : Step T X) : Z :=
  if 0 <? sTimeout s then sTimeout s else o_stepTimeout o.

Definition maxRetries (totalAttempts : Z) : Z :=
  if totalAttempts <=? 1 then 0 else totalAttempts - 1.

Definition retryPredicate (err : error) : bool :=
  if Errors.IsContextCanceled err then false
  else match o_shouldRetry o with Some f => f err | None => true end.

(** The world of a retried call: the engine's and the counter [attempts]. *)
Local Abbreviation WA := (World S T X * Z)%type.

Definition retryOptions (policy : RetryPolicy) : Retry.options WA :=
  Retry.Options WA (maxRetries (MaxAttempts policy)) 0 (Some retryPredicate)
    (Some (fun attempt _ => mlift (sense (fun k =>
       Retry.Exponential (BaseDelay policy) (MaxDelay policy) true
         (env_product env k) (env_extra env k) attempt))))
    (Some (fun _ _ _ => mret tt)) None false.

Definition retry_runtime : Retry.runtime WA :=
  Retry.Runtime WA (mlift (sense (env_step_ctx env))) (mlift now) None
    (fun _ => mlift (sense (env_step_ctx env))).

Definition errPanic : error := ErrNew "saga: panic".

Definition dquote : Ascii.ascii := Ascii.ascii_of_nat 34.
Definition quoted (s : string) : string := (String dquote s +:+ String dquote EmptyString)%string.

(** Call user code: the action or the compensation [fn] of step [s], with the
    panic handler's conversion. *)
Definition invoke (ex : Execution) (compensating : bool) (s : Step T X) (fn : StepFunc T X) :
    M W (option error) :=
  let* t := mget w_data in
  let* x := mget w_ext in
  let ex := withStep ex (sName s) in
  let '(r, t', x') := fn ex (resolveTimeout s) t x in
  do* mmod (set_payload t') in
  do* mmod (set_ext x') in
  do* mmod (log (EvCall ex compensating (sName s) r)) in
  mret match r with
       | Ok => None
       | Err e => Some e
       | Panic msg =>
           Some (Errors.Wrapf errPanic
             ((if compensating then "compensation " else "step ") +:+ quoted (sName s)
              +:+ " panicked: " +:+ msg))
       end.

(** [coreretry.Do] around a counted call: the number of attempts and the result. *)
Definition retried (cfg : Retry.options WA) (call : M W (option error)) : M W (Z * option error) :=
  let* (err, attempts) := mwith 0
    (Retry.doWithOptions retry_runtime cfg
       (do* mmod (fun wa => (wa.1, wa.2 + 1)) in mlift call) (Retry.enough_fuel cfg)) in
  mret (attempts, err).

Definition step_policy (s : Step T X) : RetryPolicy :=
  match sRetry s with Some p => p | None => o_defaultRetry o end.

Definition comp_policy : RetryPolicy :=
  MkRetryPolicy (o_maxCompensationAttempts o) (BaseDelay (o_defaultRetry o)) (MaxDelay (o_defaultRetry o)).

Definition runStep (ex : Execution) (s : Step T X) : M W (Z * option error) :=
  retried (retryOptions (step_policy s)) (invoke ex false s (sAction s)).

Definition compensateStep (ex : Execution) (s : Step T X) : M W (Z * option error) :=
  match sCompensation s with
  | None => mret (0, None)
  | Some fn => retried (retryOptions comp_policy) (invoke ex true s fn)
  end.

(** ** orchestrator.go: one stage *)

(** The arrays [attempts] and [succeeded] the parallel workers fill. *)
Record slots := Slots { sl_attempts : list Z; sl_succeeded : list bool }.

Definition run_of (compensating : bool) (ex : Execution) (s : Step T X) : M W (Z * option error) :=
  if compensating then compensateStep ex s else runStep ex s.

(** The worker's callback on index [i]. *)
Definition stage_worker (ex : Execution) (st : stage T X) (compensating : bool) (i : nat) :
    M (World S T X * slots) (option error) :=
  match stSteps st !! i with
  | None => mpanic
  | Some s =>
      let* (n, e) := mlift (run_of compensating ex s) in
      do* mmod (fun wl => (wl.1, Slots (<[i:=n]> (sl_attempts wl.2))
                                       (<[i:=bool_decide (e = None)]> (sl_succeeded wl.2)))) in
      mret e
  end.

(** The indices of the slots that hold [true]. *)
Definition completed_of (succeeded : list bool) : list Z :=
  Z.of_nat <$> filter (fun i => succeeded !! i = Some true) (seq 0 (length succeeded)).

Definition stage_options (compensating : bool) : Concurrency.options (World S T X * slots) Z :=
  Concurrency.Options (if 0 <? o_stepConcurrency o then o_stepConcurrency o else 0) None
    (negb compensating) None None.

Definition runStage (ex : Execution) (st : stage T X) (compensating : bool) :
    M W (list Z * list Z * option error) :=
  match stSteps st with
  | [s] =>
      let* (n, err) := run_of compensating ex s in
      mret ([n], match err with None => [0] | Some _ => [] end, err)
  | steps =>
      let n := length steps in
      let* k := sense id in
      let* (err, sl) := mwith (Slots (replicate n 0) (replicate n false))
        (Concurrency.Process (mlift run_ctx_err) (env_cpus env) (env_sched env k)
           (Concurrency.ByIndex (stage_worker ex st compensating))
           (stage_options compensating) (Z.of_nat <$> seq 0 n)) in
      mret (sl_attempts sl, completed_of (sl_succeeded sl), err)
  end.

Definition encodeInto : M W (option error) :=
  let* t := mget w_data in
  match o_serialize o t with
  | inl e => mret (Some (Errors.WrapOperation e "serialize saga data"))
  | inr b => do* modi (set_data b) in mret None
  end.

Definition recordStage (st : stage T X) (stageIdx : Z) (status : StepStatus) (attempts : list Z) :
    M W unit :=
  let* t := now in
  if (length attempts <? length (stSteps st))%nat then mpanic
  else modi (fun i => set_steps (iSteps i ++
    zip_with (fun s n => MkStepRecord (sName s) stageIdx status n EmptyString Go.zero_time t)
      (stSteps st) attempts) i).

(** ** orchestrator.go: the forward phase *)

Definition all_steps (st : stage T X) : list Z := Z.of_nat <$> seq 0 (length (stSteps st)).

(** A failed stage: to [Failed] at or after the pivot, else to [Compensating]. *)
Definition forward_failed (st : stage T X) (postPivot : bool) (err : error) : M W (option error) :=
  do* modi (set_lastError (Errors.text err)) in
  do* modi (set_status (if postPivot then StatusFailed else StatusCompensating)) in
  do* touch in
  let* perr := update in
  match perr with
  | Some e => do* modi (set_status StatusRunning) in mret (Some e)
  | None =>
      mret (Some (if postPivot
                  then Errors.Wrapf err ("post-pivot stage " +:+ quoted (stName st) +:+ " failed")
                  else err))
  end.

(** A stage that committed: [inl e] ends the phase, [inr tt] goes on. *)
Definition forward_commit (st : stage T X) (attempts : list Z) : M W (error + unit) :=
  let* stageIdx := mget (fun w => iStage (w_inst w)) in
  do* recordStage st stageIdx StepCompleted attempts in
  do* modi (set_pending []) in
  do* modi (fun i => set_stage (iStage i + 1) i) in
  do* touch in
  let* e := encodeInto in
  match e with
  | Some e => mret (inl e)
  | None =>
      let* e := update in
      mret match e with Some e => inl e | None => inr tt end
  end.

(** One turn of the loop of [runForward]: [inl r] returns [r]. *)
Definition forward_stage (ex : Execution) (st : stage T X) : M W (option error + unit) :=
  let* stageIdx := mget (fun w => iStage (w_inst w)) in
  let postPivot := dPivotIdx def <=? stageIdx in
  do* modi (set_pending (all_steps st)) in
  let* e := update in
  match e with
  | Some e => mret (inl (Some e))
  | None =>
      let* (attempts, succeeded, err) := runStage (withStage ex stageIdx) st false in
      let* cerr := run_ctx_err in
      match cerr with
      | Some e => mret (inl (Some e))
      | None =>
          do* modi (set_pending succeeded) in
          let* e := encodeInto in
          match e with
          | Some e => mret (inl (Some e))
          | None =>
              match err with
              | Some err => let* r := forward_failed st postPivot err in mret (inl r)
              | None =>
                  let* r := forward_commit st attempts in
                  mret match r with inl e => inl (Some e) | inr _ => inr tt end
              end
          end
      end
  end.

Definition forward_done : M W (option error) :=
  do* modi (set_status StatusCompleted) in
  do* touch in
  let* e := update in
  match e with
  | Some e => do* modi (set_status StatusRunning) in mret (Some e)
  | None => mret None
  end.

Fixpoint runForward (fuel : nat) (ex : Execution) : M W (option error) :=
  let* stageIdx := mget (fun w => iStage (w_inst w)) in
  if stageIdx <? nstages then
    match fuel with
    | O => mpanic
    | Datatypes.S fuel =>
        let* st := mindex stages stageIdx in
        let* r := forward_stage ex st in
        match r with
        | inl r => mret r
        | inr _ => runForward fuel (withStage ex stageIdx)
        end
    end
  else forward_done.

(** ** orchestrator.go: the rollback *)

Definition compensationFailed (err : error) : M W (option error) :=
  let* cerr := run_ctx_err in
  match cerr with
  | Some e => mret (Some e)
  | None =>
      if Errors.IsContextCanceled err then mret (Some err)
      else
        do* modi (set_status StatusFailed) in
        do* modi (set_lastError (Errors.text err)) in
        do* touch in
        let* perr := update in
        match perr with
        | Some e => do* modi (set_status StatusCompensating) in mret (Some e)
        | None => mret (Some (Errors.JoinWrap SagaErrs.ErrCompensationFailed err))
        end
  end.

(** [pending.steps]: the steps of the interrupted stage, by persisted index. *)
Fixpoint pick_steps (steps : list (Step T X)) (idx : list Z) : M W (list (Step T X)) :=
  match idx with
  | [] => mret []
  | i :: idx =>
      let* s := mindex steps i in
      let* rest := pick_steps steps idx in
      mret (s :: rest)
  end.

(** Persist after a compensated stage: [inl e] ends the phase. *)
Definition checkpoint : M W (error + unit) :=
  let* e := encodeInto in
  match e with
  | Some e => mret (inl e)
  | None =>
      let* e := update in
      mret match e with Some e => inl e | None => inr tt end
  end.

(** The interrupted stage. *)
Definition compensate_pending (ex : Execution) : M W (option error + unit) :=
  let* inst := mget w_inst in
  match iPendingSteps inst with
  | [] => mret (inr tt)
  | pend =>
      let* st := mindex stages (iStage inst) in
      let* steps := pick_steps (stSteps st) pend in
      let pending := MkStage (stName st) steps false in
      let* (attempts, _, err) := runStage (withStage ex (iStage inst)) pending true in
      match err with
      | Some err => let* r := compensationFailed err in mret (inl r)
      | None =>
          do* recordStage pending (iStage inst) StepCompensated attempts in
          do* modi (set_pending []) in
          let* r := checkpoint in
          mret match r with inl e => inl (Some e) | inr _ => inr tt end
      end
  end.

(** One turn of the loop of [compensate], on the stage below the cursor. *)
Definition compensate_stage (ex : Execution) : M W (option error + unit) :=
  let* stageIdx := mget (fun w => iStage (w_inst w)) in
  let* st := mindex stages (stageIdx - 1) in
  let* (attempts, _, err) := runStage (withStage ex (stageIdx - 1)) st true in
  match err with
  | Some err => let* r := compensationFailed err in mret (inl r)
  | None =>
      do* recordStage st (stageIdx - 1) StepCompensated attempts in
      do* modi (fun i => set_stage (iStage i - 1) i) in
      do* touch in
      let* r := checkpoint in
      mret match r with inl e => inl (Some e) | inr _ => inr tt end
  end.

Definition compensate_done : M W (option error) :=
  do* modi (set_status StatusCompensated) in
  do* touch in
  let* e := update in
  match e with
  | Some e => do* modi (set_status StatusCompensating) in mret (Some e)
  | None => mret None
  end.

Fixpoint compensate_stages (fuel : nat) (ex : Execution) : M W (option error) :=
  let* stageIdx := mget (fun w => iStage (w_inst w)) in
  if 0 <? stageIdx then
    match fuel with
    | O => mpanic
    | Datatypes.S fuel =>
        let* r := compensate_stage ex in
        match r with
        | inl r => mret r
        | inr _ => compensate_stages fuel ex
        end
    end
  else compensate_done.

Definition compensate (fuel : nat) (ex : Execution) : M W (option error) :=
  let* r := compensate_pending ex in
  match r with
  | inl r => mret r
  | inr _ => compensate_stages fuel ex
  end.

(** ** orchestrator.go: [drive] *)

Definition fireDeadLetter : M W unit :=
  match o_onDeadLetter o with
  | None => mret tt
  | Some hook =>
      let* inst := mget w_inst in
      do* mmod (fun w => set_ext (hook inst (w_ext w)) w) in
      mmod (log (EvDeadLetter inst))
  end.

(** Loop turns: one per stage. *)
Definition stage_fuel : nat := length stages.

Definition drive_rollback (ex : Execution) (triggerErr : option error) : M W (option error) :=
  let* status := mget (fun w => iStatus (w_inst w)) in
  if bool_decide (status = StatusCompensating) then
    let* err := compensate stage_fuel ex in
    match err with
    | Some e =>
        let* status := mget (fun w => iStatus (w_inst w)) in
        do* (if bool_decide (status = StatusFailed) then fireDeadLetter else mret tt) in
        mret (Some e)
    | None => mret triggerErr
    end
  else mret triggerErr.

Definition drive (ex : Execution) : M W (option error) :=
  let* status := mget (fun w => iStatus (w_inst w)) in
  if bool_decide (status = StatusRunning) then
    let* triggerErr := runForward stage_fuel ex in
    let* status := mget (fun w => iStatus (w_inst w)) in
    match triggerErr with
    | None => mret None
    | Some e =>
        if bool_decide (status = StatusFailed) then do* fireDeadLetter in mret (Some e)
        else if negb (bool_decide (status = StatusCompensating)) then mret (Some e)
        else drive_rollback ex (Some e)
    end
  else drive_rollback ex None.

(** ** execution.go: [execute] *)

(** The deadline of [corecontext.WithMaxTimeout(ctx, max)], the zero time when
    there is none. *)
Definition max_timeout_deadline (parent : option Z) (t max : Z) : Z :=
  if max =? 0 then default Go.zero_time parent
  else match parent with
       | Some d => if d - t <=? max then d else t + max
       | None => t + max
       end.

Definition stage_at (i : Z) : list (Step T X) :=
  if i <? 0 then [] else from_option stSteps [] (stages !! Z.to_nat i).

Definition bad_stage (inst : Instance) : bool :=
  (iStage inst <? 0) || (nstages <? iStage inst)
  || (negb (length (iPendingSteps inst) =? 0)%nat && (iStage inst =? nstages)).

Definition bad_pending (inst : Instance) : option Z :=
  head (filter (fun i => i < 0 \/ Z.of_nat (length (stage_at (iStage inst))) <= i) (iPendingSteps inst)).

(** The deferred release of the lease. *)
Definition release (owner : string) (err : option error) : M W (option error) :=
  let* inst := mget w_inst in
  let* got := bs_get (iID inst) in
  match got with
  | inl e => mret (Errors.join err (Some e))
  | inr current =>
      if bool_decide (iLeaseOwner current = owner) then
        let* t := now in
        let current :=
          if IsTerminal (iStatus current) then set_lease EmptyString Go.zero_time current
          else set_lease (iLeaseOwner current) t current in
        let* (releaseErr, current) := bs_update (sense (env_release_ctx env)) current in
        match releaseErr with
        | None =>
            do* modi (fun i => set_version (iVersion current)
                                (set_lease (iLeaseOwner current) (iLeaseUntil current) i)) in
            mret err
        | Some e => mret (Errors.join err (Some e))
        end
      else mret err
  end.

(** [recovering] and the saga's deadline has passed before the pivot. *)
Definition rolls_back (recovering : bool) (t : Z) (inst : Instance) : bool :=
  recovering && bool_decide (iStatus inst = StatusRunning) && negb (Go.is_zero (iDeadline inst))
  && negb (Go.before t (iDeadline inst)) && (iStage inst <? dPivotIdx def).

(** The body of [execute] after the lease is acquired. *)
Definition execute_owned (recovering : bool) (t : Z) : M W (option error) :=
  let* inst := mget w_inst in
  let ex := MkExecution (iID inst) (iVersion inst) EmptyString 0 in
  if rolls_back recovering t inst then
    do* modi (set_status StatusCompensating) in
    do* modi (set_lastError "saga: deadline exceeded; rolling back") in
    let* e := update in
    match e with
    | Some e => mret (Some e)
    | None => drive ex
    end
  else drive ex.

Definition execute (recovering : bool) : M W (option error) :=
  let* inst := mget w_inst in
  if bad_stage inst then
    mret (Some (ErrNew ("saga: invalid persisted stage " +:+ pretty (iStage inst))))
  else match bad_pending inst with
  | Some i => mret (Some (ErrNew ("saga: invalid pending step " +:+ pretty i)))
  | None =>
      let* t := now in
      if Go.after (iLeaseUntil inst) t then mret (Some SagaErrs.ErrInstanceBusy)
      else
        do* mmod next_run in
        let* parent := sense (env_deadline env) in
        let* t' := now in
        let* owner := sense (env_text env) in
        let until := max_timeout_deadline parent t' (o_executionTimeout o) + o_leaseGrace o in
        do* modi (set_lease owner until) in
        let* e := update in
        match e with
        | Some e => mret (Some e)
        | None =>
            let* err := execute_owned recovering t in
            release owner err
        end
  end.

(** ** orchestrator.go: [Start] and [Resume]; [None] is a nil instance *)

Definition set_current (inst : Instance) (t : T) : M W unit :=
  do* modi (fun _ => inst) in mmod (set_payload t).

Definition run_current (recovering : bool) : M W (option Instance * option error) :=
  let* err := execute recovering in
  let* inst := mget w_inst in
  mret (Some inst, err).

(** [var data T], decoded from a non-empty payload. *)
Definition decode (inst : Instance) : error + T :=
  if (String.length (iData inst) =? 0)%nat then inr (o_zero o) else o_deserialize o (iData inst).

Definition Resume (id : string) : M W (option Instance * option error) :=
  if bool_decide (id = EmptyString) then mret (None, Some SagaErrs.ErrEmptyID)
  else
    let* got := bs_get id in
    match got with
    | inl e => mret (None, Some e)
    | inr inst =>
        if negb (bool_decide (iDefinition inst = dName def)) then
          mret (None, Some SagaErrs.ErrDefinitionNotFound)
        else if IsTerminal (iStatus inst) then mret (Some inst, Some SagaErrs.ErrAlreadyTerminal)
        else match decode inst with
        | inl e => mret (None, Some (Errors.WrapOperation e "deserialize saga data"))
        | inr t => do* set_current inst t in run_current false
        end
    end.

Definition Start (id : string) (t : T) : M W (option Instance * option error) :=
  if bool_decide (id = EmptyString) then mret (None, Some SagaErrs.ErrEmptyID)
  else match o_serialize o t with
  | inl e => mret (None, Some (Errors.WrapOperation e "serialize saga data"))
  | inr payload =>
      let* at_ := now in
      let deadline := if 0 <? o_sagaTimeout o then at_ + o_sagaTimeout o else Go.zero_time in
      let inst := MkInstance id (dName def) StatusRunning 0 [] payload [] at_ at_ deadline
                    EmptyString Go.zero_time 0 EmptyString in
      let* e := bs_create inst in
      match e with
      | Some e =>
          if Errors.Is SagaErrs.ErrInstanceExists e then Resume id
          else mret (None, Some (Errors.WrapOperation e "create saga instance"))
      | None => do* set_current inst t in run_current false
      end
  end.

(** ** recovery.go *)

(** Errors of an instance another executor owns or finished are dropped. *)
Definition benign (err : option error) : option error :=
  match err with
  | None => None
  | Some e =>
      if Errors.Is SagaErrs.ErrAlreadyTerminal e || Errors.Is SagaErrs.ErrVersionConflict e
         || Errors.Is SagaErrs.ErrInstanceBusy e then None else Some e
  end.

Definition recoverInstance (candidate : Instance) : M W (option error) :=
  let* got := bs_get (iID candidate) in
  match got with
  | inl e => mret (Some e)
  | inr inst =>
      if IsTerminal (iStatus inst) || negb (bool_decide (iDefinition inst = dName def)) then mret None
      else match decode inst with
      | inl e => mret (Some e)
      | inr t =>
          do* set_current inst t in
          let* err := execute true in
          mret (benign err)
      end
  end.

Fixpoint recover_all (insts : list Instance) (failures : option error) : M W (option error) :=
  match insts with
  | [] => let* e := sense (env_cycle_ctx env) in mret (Errors.join failures e)
  | inst :: insts =>
      let* e := sense (env_cycle_ctx env) in
      match e with
      | Some e => mret (Some e)
      | None =>
          if negb (bool_decide (iDefinition inst = dName def)) then recover_all insts failures
          else
            let* err := recoverInstance inst in
            recover_all insts (Errors.join failures err)
      end
  end.

Definition runRecoveryCycleInternal : M W (option error) :=
  if match o_isLeader o with Some leader => negb leader | None => false end then mret None
  else
    let* t := now in
    let* got := bs_fetch (dName def) t (o_recoveryBatchSize o) in
    match got with
    | inl e => mret (Some (Errors.WrapOperation e "fetch recoverable saga instances"))
    | inr [] => mret None
    | inr insts => recover_all insts None
    end.
End engine.
End SagaEngine.
