(* ===== verification/SagaSteps.v ===== *)
(** What one step and one stage of a saga do: the contracts of [runStep],
    [compensateStep] and [runStage] of data/saga/orchestrator.go, in terms of the
    calls they add to the log.  They rest on the contracts of the retry loop
    and of the worker pool. *)

From stdpp Require Import pretty.
From S2P Require Import Prelude Retry Concurrency SagaStore SagaDef SagaEngine.
Local Open Scope go_scope.

Module SagaSteps.
Import SagaStore SagaDef SagaEngine.

Section steps.
Context {S T X : Type} `{Storage S} (env : Env S) `{!EnvLaws env} (o : Orchestrator T X).
Local Abbreviation W := (World S T X).

(** The world but for the data, the clock and the log. *)
Definition same (w w' : W) : Prop :=
  w_store w' = w_store w /\ w_inst w' = w_inst w /\ w_run w' = w_run w /\ (w_tick w <= w_tick w')%nat.

(** [w'] is [w] with the events [l] added. *)
Definition grown (w : W) (l : list event) (w' : W) : Prop :=
  same w w' /\ w_log w' = w_log w ++ l.

Lemma same_refl w : same w w.
Proof. repeat split; lia. Qed.

Lemma same_trans w1 w2 w3 : same w1 w2 -> same w2 w3 -> same w1 w3.
Proof. intros (?&?&?&?) (?&?&?&?). repeat split; congruence || lia. Qed.

Lemma grown_refl w : grown w [] w.
Proof. split; [apply same_refl|by rewrite app_nil_r]. Qed.

Lemma grown_trans w1 l w2 l' w3 : grown w1 l w2 -> grown w2 l' w3 -> grown w1 (l ++ l') w3.
Proof. intros [? E] [? E']. split; [by eapply same_trans|]. by rewrite E', E, app_assoc. Qed.

Lemma grown_tick w l w' : grown w l w' -> grown w l (tick w').
Proof. intros [(?&?&?&?) ?]. repeat split; cbn; congruence || lia || done. Qed.

(** Reading the surroundings changes nothing but the tick. *)
Lemma wp_sense {A} (f : nat -> A) Q (w : W) : Q (f (w_tick w)) (tick w) -> wp (sense f) Q w.
Proof. done. Qed.

(** ** Calls *)

Definition call_of (compensating : bool) (ex : Execution) (s : Step T X) (r : outcome) : event :=
  EvCall (withStep ex (sName s)) compensating (sName s) r.

(** An attempt that did not succeed. *)
Definition failed_call (compensating : bool) (ex : Execution) (s : Step T X) (ev : event) : Prop :=
  exists r, ev = call_of compensating ex s r /\ r <> Ok.

Lemma wp_invoke ex compensating s fn (w : W) :
  wp (invoke o ex compensating s fn) (fun e w' => exists r,
    grown w [call_of compensating ex s r] w' /\ (e = None <-> r = Ok)) w.
Proof.
  unfold invoke. do 2 (apply wp_bind, wp_get).
  destruct (fn _ _ _ _) as [[r t'] x']. do 3 (apply wp_bind, wp_mod). apply wp_ret.
  exists r. split; [repeat split; cbn; lia|]. by destruct r.
Qed.

(** What a retried call adds to the log: failures, then at most one success. *)
Definition retried_post (compensating : bool) (ex : Execution) (s : Step T X) (max : Z) (w : W)
    (res : Z * option error) (w' : W) : Prop :=
  exists fails last, grown w (fails ++ last) w' /\
    Forall (failed_call compensating ex s) fails /\
    last = match res.2 with None => [call_of compensating ex s Ok] | Some _ => [] end /\
    res.1 = Z.of_nat (length (fails ++ last)) /\ res.1 <= max + 1.

Lemma wp_retried ex compensating s fn policy w :
  wp (retried env (retryOptions env o policy) (invoke o ex compensating s fn))
     (retried_post compensating ex s (maxRetries (MaxAttempts policy)) w) w.
Proof.
  unfold retried. set (max := maxRetries _).
  assert (0 <= max) by (unfold max, maxRetries; case_match; lia).
  pose (I := fun (k : Z) (wa : W * Z) => exists fails, grown w fails wa.1 /\
    Forall (failed_call compensating ex s) fails /\ wa.2 = Z.of_nat (length fails) /\ wa.2 = k).
  apply wp_bind, wp_with.
  assert (forall A (f : nat -> A), Retry.keeps I (mlift (sense f))) as Hsense.
  { intros A f k [w1 a] (fails & Hg & ?). apply wp_lift, wp_sense. exists fails.
    split; [by apply grown_tick|done]. }
  eapply wp_mono; [apply (Retry.wp_doWithOptions _ _ _ I (fun wa => exists fails,
      grown w (fails ++ [call_of compensating ex s Ok]) wa.1 /\
      Forall (failed_call compensating ex s) fails /\ wa.2 = Z.of_nat (length fails + 1) /\
      wa.2 <= max + 1))|]; cbn.
  1-3: intros; apply Hsense.
  - intros f a e [= <-]. apply Hsense.
  - by intros f a e d [= <-] k w1 ?.
  - done.
  - done.
  - intros k [w1 a] Hk (fails & Hg & Hall & ? & ?). cbn in *.
    apply wp_bind, wp_mod. cbn. apply wp_lift. cbn.
    eapply wp_mono; [apply wp_invoke|]. cbv beta. intros [e|] w2 (r & Hg2 & Hr).
    + exists (fails ++ [call_of compensating ex s r]). cbn. split_and!; [by eapply grown_trans| |rewrite length_app; cbn; lia|lia].
      apply Forall_app. split; [done|]. apply Forall_singleton. exists r. split; [done|].
      intros ->. by destruct Hr as [_ Hr]; specialize (Hr eq_refl).
    + assert (r = Ok) as -> by tauto. exists fails. cbn. split_and!; [by eapply grown_trans|done|lia|lia].
  - exists []. split_and!; [apply grown_refl|done..].
  - intros [e|] [w' a].
    + intros (k & Hk & fails & Hg & Hall & Hn & ?). exists fails, []. cbn in *.
      rewrite app_nil_r. split_and!; auto. lia.
    + intros (fails & Hg & Hall & Hn & ?). exists fails, [call_of compensating ex s Ok]. cbn in *.
      split_and!; auto. rewrite length_app. cbn. lia.
Qed.

(** ** One step *)

Definition done_in (compensating : bool) (ex : Execution) (s : Step T X) (l : list event) : Prop :=
  (compensating = true /\ sCompensation s = None) \/ call_of compensating ex s Ok ∈ l.

Lemma done_in_app_l compensating ex s l l' :
  done_in compensating ex s l -> done_in compensating ex s (l ++ l').
Proof. unfold done_in. rewrite elem_of_app. tauto. Qed.

Lemma done_in_app_r compensating ex s l l' :
  done_in compensating ex s l' -> done_in compensating ex s (l ++ l').
Proof. unfold done_in. rewrite elem_of_app. tauto. Qed.

Definition step_post (compensating : bool) (ex : Execution) (s : Step T X) (w : W)
    (res : Z * option error) (w' : W) : Prop :=
  exists l, grown w l w' /\
    (forall ev, ev ∈ l -> exists r, ev = call_of compensating ex s r) /\
    (res.2 = None -> done_in compensating ex s l) /\
    (res.2 <> None -> call_of compensating ex s Ok ∉ l) /\
    res.1 = Z.of_nat (length l).

Lemma retried_step_post compensating ex s max w res w' :
  retried_post compensating ex s max w res w' -> step_post compensating ex s w res w'.
Proof.
  intros (fails & last & Hg & Hf & -> & Hn & _). exists (fails ++ match res.2 with None => [call_of compensating ex s Ok] | Some _ => [] end).
  rewrite list.Forall_forall in Hf.
  split_and!; [done| | | |done].
  - intros ev [[r [-> _]]%Hf|Hev]%elem_of_app; [by eexists|]. destruct res.2; [by apply not_elem_of_nil in Hev|].
    apply list_elem_of_singleton in Hev as ->. by eexists.
  - intros ->. right. apply elem_of_app. right. by apply list_elem_of_singleton.
  - destruct res.2; [|done]. rewrite app_nil_r. intros _ [r [E ?]]%Hf. by injection E as <-.
Qed.

Lemma wp_run_of compensating ex s (w : W) :
  wp (run_of env o compensating ex s) (step_post compensating ex s w) w.
Proof.
  unfold run_of, compensateStep, runStep. destruct compensating; [destruct (sCompensation s) eqn:Hs|].
  - eapply wp_mono; [apply wp_retried|]. eauto using retried_step_post.
  - apply wp_ret. exists []. split_and!; [apply grown_refl| |by left|done|done].
    intros ev []%not_elem_of_nil.
  - eapply wp_mono; [apply wp_retried|]. eauto using retried_step_post.
Qed.

(** ** One stage *)

(** The log [l] of a stage whose steps at [completed] succeeded. *)
Record stage_log (compensating : bool) (ex : Execution) (steps : list (Step T X))
    (completed : nat -> Prop) (l : list event) : Prop := {
  sl_calls : forall ev, ev ∈ l -> exists s r, s ∈ steps /\ ev = call_of compensating ex s r;
  sl_done : forall i s, completed i -> steps !! i = Some s -> done_in compensating ex s l;
  sl_ok : forall s, call_of compensating ex s Ok ∈ l ->
    exists i s', completed i /\ steps !! i = Some s' /\ sName s' = sName s;
}.

Lemma call_of_ok_inj compensating ex s s' r :
  call_of compensating ex s Ok = call_of compensating ex s' r -> sName s' = sName s /\ r = Ok.
Proof. unfold call_of. by intros [= _ -> <-]. Qed.

(** One more step, at index [idx], ended with [e]. *)
Lemma stage_log_step compensating ex steps completed l idx s n e w w' l' :
  stage_log compensating ex steps completed l -> steps !! idx = Some s ->
  step_post compensating ex s w (n, e) w' -> w_log w' = w_log w ++ l' ->
  stage_log compensating ex steps (fun i => completed i \/ (i = idx /\ e = None)) (l ++ l').
Proof.
  intros [Hc Hd Hk] Hs (l0 & [_ Hl0] & Hev & Hok & Hno & _) Hl'.
  rewrite Hl0 in Hl'. apply app_inv_head in Hl' as <-. cbn in *. split.
  - intros ev [?|[r ->]%Hev]%elem_of_app; [by apply Hc|]. exists s, r. split; [|done].
    by eapply list_elem_of_lookup_2.
  - intros i s' [Hi|[-> ->]] Hs'; [by eapply done_in_app_l, Hd|]. simplify_eq.
    by apply done_in_app_r, Hok.
  - intros s' [Hin|Hin]%elem_of_app.
    + destruct (Hk s' Hin) as (i & s1 & ? & ? & ?). eauto 8.
    + destruct (Hev _ Hin) as [r Hr]. apply call_of_ok_inj in Hr as [Hn ->].
      exists idx, s. split_and!; [right; split; [done|]|done|done].
      destruct e; [|done]. destruct Hno; [done|]. unfold call_of in *. by rewrite Hn.
Qed.

Lemma stage_log_ext compensating ex steps (P Q : nat -> Prop) l :
  (forall i, P i <-> Q i) -> stage_log compensating ex steps P l -> stage_log compensating ex steps Q l.
Proof.
  intros HPQ [Hc Hd Hk]. split; [done| |].
  - intros i s Hi%HPQ. by apply Hd.
  - intros s (i & s' & Hi%HPQ & ?)%Hk. eauto.
Qed.

Definition stage_post (compensating : bool) (ex : Execution) (steps : list (Step T X)) (w : W)
    (res : list Z * list Z * option error) (w' : W) : Prop :=
  let '(attempts, completed, err) := res in
  length attempts = length steps /\
  (forall i, i ∈ completed -> 0 <= i < Z.of_nat (length steps)) /\
  (err = None -> completed = Z.of_nat <$> seq 0 (length steps)) /\
  exists l, grown w l w' /\
    stage_log compensating ex steps (fun i => Z.of_nat i ∈ completed) l.

Lemma elem_of_completed (b : list bool) i :
  Z.of_nat i ∈ completed_of b <-> b !! i = Some true.
Proof.
  unfold completed_of. rewrite list_elem_of_fmap. split.
  - intros (j & ->%Nat2Z.inj & [? _]%list_elem_of_filter). done.
  - intros Hi. exists i. split; [done|]. apply list_elem_of_filter. split; [done|].
    apply elem_of_seq. apply lookup_lt_Some in Hi. lia.
Qed.

Lemma completed_range (b : list bool) i :
  i ∈ completed_of b -> 0 <= i < Z.of_nat (length b).
Proof.
  unfold completed_of. intros (j & -> & [Hj _]%list_elem_of_filter)%list_elem_of_fmap.
  apply lookup_lt_Some in Hj. lia.
Qed.

Lemma completed_all (b : list bool) :
  (forall i, (i < length b)%nat -> b !! i = Some true) ->
  completed_of b = Z.of_nat <$> seq 0 (length b).
Proof.
  intros Hall. unfold completed_of. f_equal.
  assert (forall l : list nat, (forall i, i ∈ l -> b !! i = Some true) ->
    filter (fun i => b !! i = Some true) l = l) as Hf.
  { induction l as [|x l IH]; intros Hl; [done|]. rewrite filter_cons_True by (apply Hl; left).
    f_equal. apply IH. intros. apply Hl. by right. }
  apply Hf. intros i Hi%elem_of_seq. apply Hall. lia.
Qed.

(** The run context of the invocation has ended. *)
Definition run_ended (w : W) : Prop :=
  forall k, (w_tick w <= k)%nat -> env_run_ctx env (w_run w) k <> None.

(** The world of a parallel stage after the steps [ok] succeeded and [bad] failed. *)
Definition par_inv (compensating : bool) (ex : Execution) (steps : list (Step T X)) (w : W)
    (ok bad : list nat) (wl : W * slots) : Prop :=
  length (sl_attempts wl.2) = length steps /\ length (sl_succeeded wl.2) = length steps /\
  (forall i, sl_succeeded wl.2 !! i = Some true <-> i ∈ ok) /\
  exists l, grown w l wl.1 /\ stage_log compensating ex steps (fun i => i ∈ ok) l.

Lemma par_inv_worker compensating ex st w ok bad idx wl :
  (idx < length (stSteps st))%nat -> idx ∉ ok ++ bad ->
  par_inv compensating ex (stSteps st) w ok bad wl ->
  wp (stage_worker env o ex st compensating idx) (fun r wl' =>
    (run_ended wl.1 -> run_ended wl'.1) /\
    match r with
    | None => par_inv compensating ex (stSteps st) w (ok ++ [idx]) bad wl'
    | Some _ => par_inv compensating ex (stSteps st) w ok (bad ++ [idx]) wl'
    end) wl.
Proof.
  intros Hidx Hfresh (Ha & Hs & Hsucc & l & Hg & Hl). unfold stage_worker.
  destruct (lookup_lt_is_Some_2 _ _ Hidx) as [s Hlk]. rewrite Hlk.
  apply wp_bind, wp_lift. eapply wp_mono; [apply wp_run_of|]. cbv beta. intros [n e] w1 Hpost.
  apply wp_bind, wp_mod, wp_ret.
  destruct (id Hpost) as (l1 & Hg1 & _). split.
  { destruct Hg1 as [(_&_&Hr&Ht) _]. unfold run_ended. cbn. rewrite Hr. intros Hend k Hk. apply Hend. lia. }
  pose proof (stage_log_step _ _ _ _ l idx s n e wl.1 w1 l1 Hl Hlk Hpost (proj2 Hg1)) as Hl'.
  assert (grown w (l ++ l1) w1) as Hg' by (by eapply grown_trans).
  assert (idx ∉ ok) by (intros ?; apply Hfresh, elem_of_app; auto).
  destruct e; unfold par_inv; cbn [fst snd sl_attempts sl_succeeded]; (split_and!; [by rewrite length_insert|by rewrite length_insert| |exists (l ++ l1); split; [done|]]).
  - intros i. destruct (decide (i = idx)) as [->|].
    + rewrite list_lookup_insert_eq by lia. rewrite bool_decide_eq_false_2 by done. split; done.
    + by rewrite list_lookup_insert_ne by done.
  - eapply stage_log_ext, Hl'. intros i. split; [intros [?|[_ ?]]; done|by left].
  - intros i. rewrite elem_of_app, list_elem_of_singleton. destruct (decide (i = idx)) as [->|].
    + rewrite list_lookup_insert_eq by lia. rewrite bool_decide_eq_true_2 by done. split; auto.
    + rewrite list_lookup_insert_ne by done. rewrite Hsucc. tauto.
  - eapply stage_log_ext, Hl'. intros i. rewrite elem_of_app, list_elem_of_singleton. tauto.
Qed.

Lemma wp_run_ctx_err Q (w : W) :
  Q (env_run_ctx env (w_run w) (w_tick w)) (tick w) -> wp (run_ctx_err env) Q w.
Proof. done. Qed.

Lemma wp_stage_process compensating ex st sched w :
  let n := length (stSteps st) in
  wp (Concurrency.Process (mlift (run_ctx_err env)) (env_cpus env) sched
        (Concurrency.ByIndex (stage_worker env o ex st compensating))
        (stage_options o compensating) (Z.of_nat <$> seq 0 n))
    (Concurrency.batch_post (stage_options o compensating) (Z.of_nat <$> seq 0 n)
       (par_inv compensating ex (stSteps st) w) (fun wl => run_ended wl.1))
    (w, Slots (replicate n 0) (replicate n false)).
Proof using EnvLaws0.
  cbn zeta. apply Concurrency.wp_Process.
  - intros ok bad [w1 sl] (?&?&?&l&Hg&Hl). apply wp_lift, wp_run_ctx_err. cbn. split_and!.
    + split_and!; try done. exists l. split; [by apply grown_tick|done].
    + intros Hr k Hk. cbn in *. eapply run_ctx_stays, Hr. lia.
    + intros Hend. split; [apply Hend; lia|]. intros k Hk. apply Hend. cbn in Hk. lia.
  - intros ok bad idx wl Hidx. rewrite length_fmap, length_seq in Hidx. by apply par_inv_worker.
  - intros. by apply wp_ret.
  - intros. by apply wp_ret.
  - apply cpus_pos.
  - split_and!; cbn; [by rewrite length_replicate|by rewrite length_replicate| |].
    + intros i. split; [intros [? _]%lookup_replicate; done|by intros []%not_elem_of_nil].
    + exists []. split; [apply grown_refl|]. split.
      * by intros ? []%not_elem_of_nil.
      * by intros ? ? []%not_elem_of_nil.
      * by intros ? []%not_elem_of_nil.
Qed.

(** What the fan-out of [runStage] returns, once its result is read off the slots. *)
Lemma par_stage_post compensating ex st w wl err :
  Concurrency.batch_post (stage_options o compensating) (Z.of_nat <$> seq 0 (length (stSteps st)))
    (par_inv compensating ex (stSteps st) w) (fun wl => run_ended wl.1) err wl ->
  stage_post compensating ex (stSteps st) w
    (sl_attempts wl.2, completed_of (sl_succeeded wl.2), err) wl.1.
Proof.
  intros (ok & bad & m & (Ha & Hs & Hsucc & l & Hg & Hl) & _ & Hperm & Hnil & _).
  split_and!; [done|intros i Hi; rewrite <-Hs; by apply completed_range| |].
  - intros ->. destruct (Hnil eq_refl) as [-> ->]. rewrite length_fmap, length_seq, app_nil_r in Hperm.
    rewrite <-Hs. apply completed_all. intros i Hi. apply Hsucc. rewrite Hperm. apply elem_of_seq. lia.
  - exists l. split; [done|]. eapply stage_log_ext, Hl. intros i. by rewrite elem_of_completed.
Qed.

Lemma single_stage_post compensating ex s w n err w' :
  step_post compensating ex s w (n, err) w' ->
  stage_post compensating ex [s] w ([n], match err with None => [0] | Some _ => [] end, err) w'.
Proof.
  intros Hpost. destruct (id Hpost) as (l & Hg & _). split_and!; [done| |by intros ->|].
  - destruct err; [by intros i []%not_elem_of_nil|]. intros i ->%list_elem_of_singleton. cbn. lia.
  - exists l. split; [done|].
    assert (stage_log compensating ex [s] (fun _ => False) []) as Hnil.
    { split; [by intros ? []%not_elem_of_nil|done|by intros ? []%not_elem_of_nil]. }
    eapply stage_log_ext, (stage_log_step _ _ _ _ [] 0 s n err w w' l Hnil); [|done|done|apply Hg].
    intros i. destruct err.
    + split; [by intros [?|[? ?]]|by intros []%not_elem_of_nil].
    + rewrite list_elem_of_singleton. split; [intros [?|[-> _]]; done|]. right. split; [lia|done].
Qed.

Lemma wp_runStage compensating ex st w :
  wp (runStage env o ex st compensating) (stage_post compensating ex (stSteps st) w) w.
Proof using EnvLaws0.
  assert (wp (let n := length (stSteps st) in
      let* k := sense id in
      let* (err, sl) := mwith (Slots (replicate n 0) (replicate n false))
        (Concurrency.Process (mlift (run_ctx_err env)) (env_cpus env) (env_sched env k)
           (Concurrency.ByIndex (stage_worker env o ex st compensating))
           (stage_options o compensating) (Z.of_nat <$> seq 0 n)) in
      mret (sl_attempts sl, completed_of (sl_succeeded sl), err))
    (stage_post compensating ex (stSteps st) w) w) as Hpar.
  { cbn zeta. apply wp_bind, wp_sense, wp_bind, wp_with.
    eapply wp_mono; [apply wp_stage_process|]. cbv beta. intros err wl Hb. apply wp_ret.
    apply par_stage_post in Hb as (?&?&?&l&Hg&?). split_and!; [done..|]. exists l. split; [|done].
    by apply (grown_trans w [] (tick w) l wl.1); [apply grown_tick, grown_refl|]. }
  unfold runStage. destruct (stSteps st) as [|s [|s' rest]]; [exact Hpar| |exact Hpar].
  apply wp_bind. eapply wp_mono; [apply wp_run_of|]. cbv beta. intros [n err] w' Hpost.
  apply wp_ret. by apply single_stage_post.
Qed.
End steps.
End SagaSteps.
