(* ===== verification/SagaProtocol.v ===== *)
(** The saga protocol: an abstract specification of what an executor that owns
    an instance may persist and call, and what follows from it.

    A state is the persisted [Status], [Stage] and [PendingSteps]; the events
    since the last write are the evidence a write needs (a stage commits only
    after a successful call of each of its steps, a rollback step only after
    the compensations).  SagaRefine.v proves that the engine of
    data/saga/orchestrator.go keeps the protocol. *)

From S2P Require Import Prelude SagaStore SagaDef SagaEngine.

Module SagaProtocol.
Import SagaStore SagaDef SagaEngine.

Record view := MkView { v_status : Status; v_stage : Z; v_pending : list Z }.

Definition view_of (i : Instance) : view := MkView (iStatus i) (iStage i) (iPendingSteps i).

(** The metadata a call of step [nm] of stage [k] carries. *)
Definition exec_at (id : string) (fence k : Z) (nm : string) : Execution :=
  MkExecution id fence (step_key id k nm) k.

Section protocol.
Context {T X : Type} (d : SagaDefinition T X) (id : string) (fence : Z).
Local Abbreviation stages := (dStages d).

Definition fwd (k : Z) (nm : string) (r : outcome) : event := EvCall (exec_at id fence k nm) false nm r.
Definition undo (k : Z) (nm : string) (r : outcome) : event := EvCall (exec_at id fence k nm) true nm r.

Definition stage_of (k : Z) (st : stage T X) : Prop := 0 <= k /\ stages !! Z.to_nat k = Some st.

(** The steps of a stage an index list names. *)
Definition picked (st : stage T X) (p : list Z) (s : Step T X) : Prop :=
  exists i, Z.of_nat i ∈ p /\ stSteps st !! i = Some s.

Definition undone (k : Z) (s : Step T X) (l : list event) : Prop :=
  sCompensation s = None \/ undo k (sName s) Ok ∈ l.

(** [Transition v seen v']: after the events [seen] an executor may write [v']
    over [v]. *)
Inductive Transition : view -> list event -> view -> Prop :=
| T_intent k p st :
    stage_of k st ->
    Transition (MkView StatusRunning k p) [] (MkView StatusRunning k (all_steps st))
| T_commit k st seen :
    stage_of k st ->
    (forall s, s ∈ stSteps st -> fwd k (sName s) Ok ∈ seen) ->
    Transition (MkView StatusRunning k (all_steps st)) seen (MkView StatusRunning (k + 1) [])
| T_abort k st p seen :
    stage_of k st -> k < dPivotIdx d ->
    (forall i, i ∈ p -> 0 <= i < Z.of_nat (length (stSteps st))) ->
    (forall s, picked st p s -> fwd k (sName s) Ok ∈ seen) ->
    (forall nm, fwd k nm Ok ∈ seen -> exists s, picked st p s /\ sName s = nm) ->
    Transition (MkView StatusRunning k (all_steps st)) seen (MkView StatusCompensating k p)
| T_fail k st p seen :
    stage_of k st -> dPivotIdx d <= k ->
    Transition (MkView StatusRunning k (all_steps st)) seen (MkView StatusFailed k p)
| T_complete :
    Transition (MkView StatusRunning (Z.of_nat (length stages)) []) []
               (MkView StatusCompleted (Z.of_nat (length stages)) [])
| T_rollback k p :
    k < dPivotIdx d ->
    Transition (MkView StatusRunning k p) [] (MkView StatusCompensating k p)
| T_undo_pending k st p seen :
    stage_of k st -> p <> [] -> (forall s, picked st p s -> undone k s seen) ->
    Transition (MkView StatusCompensating k p) seen (MkView StatusCompensating k [])
| T_undo k st seen :
    stage_of k st -> (forall s, s ∈ stSteps st -> undone k s seen) ->
    Transition (MkView StatusCompensating (k + 1) []) seen (MkView StatusCompensating k [])
| T_undone :
    Transition (MkView StatusCompensating 0 []) [] (MkView StatusCompensated 0 [])
| T_stuck k p seen :
    Transition (MkView StatusCompensating k p) seen (MkView StatusFailed k p).

(** The calls a state allows: the steps of the announced stage forward, the
    pending steps or those of the stage below the cursor in rollback. *)
Inductive allowed : view -> event -> Prop :=
| A_fwd k st s r :
    stage_of k st -> s ∈ stSteps st ->
    allowed (MkView StatusRunning k (all_steps st)) (fwd k (sName s) r)
| A_undo_pending k st p s r :
    stage_of k st -> picked st p s ->
    allowed (MkView StatusCompensating k p) (undo k (sName s) r)
| A_undo k st s r :
    stage_of k st -> s ∈ stSteps st ->
    allowed (MkView StatusCompensating (k + 1) []) (undo k (sName s) r).

(** [protocol v seen l v']: the events [l] take a state [v], with [seen] since
    its write, to [v']. *)
Inductive protocol : view -> list event -> list event -> view -> Prop :=
| P_nil v seen : protocol v seen [] v
| P_call v seen ev l v' :
    allowed v ev -> protocol v (seen ++ [ev]) l v' -> protocol v seen (ev :: l) v'
| P_write v seen i l v' :
    Transition v seen (view_of i) -> protocol (view_of i) [] l v' ->
    protocol v seen (EvPersist i :: l) v'
| P_dead v seen i l v' :
    v_status v = StatusFailed -> protocol v seen l v' ->
    protocol v seen (EvDeadLetter i :: l) v'.

(** ** Composition *)

(** The events since the last write of [l], after [seen]. *)
Fixpoint since (seen l : list event) : list event :=
  match l with
  | [] => seen
  | EvPersist _ :: l => since [] l
  | EvCall ex c nm r :: l => since (seen ++ [EvCall ex c nm r]) l
  | EvDeadLetter _ :: l => since seen l
  end.

Lemma allowed_call v ev : allowed v ev -> exists ex c nm r, ev = EvCall ex c nm r.
Proof. destruct 1; unfold fwd, undo; eauto. Qed.

Lemma protocol_app v seen l v1 l' v2 :
  protocol v seen l v1 -> protocol v1 (since seen l) l' v2 -> protocol v seen (l ++ l') v2.
Proof.
  induction 1 as [| v seen ev l v' Ha Hp IH | v seen i l v' Ht Hp IH | v seen i l v' Hs Hp IH];
    intros Hp'; cbn [app].
  - done.
  - destruct (allowed_call _ _ Ha) as (ex & c & nm & r & ->). constructor; [done|]. by apply IH.
  - constructor; [done|]. by apply IH.
  - constructor; [done|]. by apply IH.
Qed.

Lemma since_app seen l l' : since seen (l ++ l') = since (since seen l) l'.
Proof. revert seen. induction l as [|[] l IH]; intros seen; cbn; auto. Qed.

(** A run of calls. *)
Lemma protocol_calls v seen l :
  (forall ev, ev ∈ l -> allowed v ev) -> protocol v seen l v /\ since seen l = seen ++ l.
Proof.
  revert seen. induction l as [|ev l IH]; intros seen Hall; [split; [constructor|by rewrite app_nil_r]|].
  assert (allowed v ev) as Ha by (apply Hall; left).
  destruct (IH (seen ++ [ev])) as [Hp Hs]; [intros; apply Hall; by right|].
  split; [by constructor|]. destruct (allowed_call _ _ Ha) as (ex & c & nm & r & ->).
  cbn. by rewrite Hs, <-app_assoc.
Qed.

(** ** What the protocol implies *)

Definition terminal (v : view) : Prop := IsTerminal (v_status v) = true.

Lemma terminal_stays v seen l v' :
  protocol v seen l v' -> terminal v -> v' = v /\ forall ev, ev ∈ l -> exists i, ev = EvDeadLetter i.
Proof.
  unfold terminal. induction 1 as [| v seen ev l v' Ha Hp IH | v seen i l v' Ht Hp IH | v seen i l v' Hs Hp IH];
    intros Hv.
  - split; [done|]. by intros ? []%not_elem_of_nil.
  - by destruct Ha.
  - by inversion Ht; subst; cbn in Hv.
  - destruct (IH Hv) as [? Hl]. split; [done|]. intros ev [->|?]%elem_of_cons; eauto.
Qed.

Lemma undo_inj k nm r k' nm' r' : undo k nm r = undo k' nm' r' -> k = k' /\ nm = nm' /\ r = r'.
Proof. unfold undo, exec_at. by intros [= _ -> -> ->]. Qed.

Lemma sub_app (ev : event) seen l : l ⊆ seen ++ ev :: l.
Proof. intros x Hx. apply elem_of_app. right. by right. Qed.

Lemma sub_seen (ev : event) seen l : seen ++ l ⊆ seen ++ ev :: l.
Proof. intros x [?|?]%elem_of_app; apply elem_of_app; [by left|]. right. by right. Qed.

Lemma sub_first (l1 l2 : list event) : l1 ⊆ l1 ++ l2.
Proof. intros x ?. apply elem_of_app. by left. Qed.

Lemma stage_of_inj k st st' : stage_of k st -> stage_of k st' -> st = st'.
Proof. intros [_ ?] [_ ?]. congruence. Qed.

Lemma picked_nil st s : ~ picked st [] s.
Proof. by intros (i & []%not_elem_of_nil & _). Qed.

Lemma undone_mono k s l l' : l ⊆ l' -> undone k s l -> undone k s l'.
Proof. intros Hl [?|?]; [by left|right; by apply Hl]. Qed.

(** Step [nm] of stage [k] is compensated in [l], or has no compensation. *)
Definition settled (k : Z) (nm : string) (l : list event) : Prop :=
  exists st s, stage_of k st /\ s ∈ stSteps st /\ sName s = nm /\ undone k s l.

Lemma settled_mono k nm l l' : l ⊆ l' -> settled k nm l -> settled k nm l'.
Proof. intros Hl (st & s & ? & ? & ? & ?). exists st, s. eauto using undone_mono. Qed.

(** What a rollback from a state still has to compensate. *)
Definition owed (v : view) (seen : list event) (k : Z) (nm : string) : Prop :=
  ((k < v_stage v /\ exists st s, stage_of k st /\ s ∈ stSteps st /\ sName s = nm) /\
     (v_status v = StatusRunning \/ v_status v = StatusCompensating)) \/
  (v_status v = StatusRunning /\ fwd k nm Ok ∈ seen) \/
  (v_status v = StatusCompensating /\ k = v_stage v /\
     exists st s, stage_of k st /\ picked st (v_pending v) s /\ sName s = nm).

Lemma picked_elem st p s : picked st p s -> s ∈ stSteps st.
Proof. intros (i & _ & Hi). by eapply list_elem_of_lookup_2. Qed.

Lemma allowed_fwd_inv v k nm r :
  allowed v (fwd k nm r) ->
  v_status v = StatusRunning /\ v_stage v = k /\
  exists st s, stage_of k st /\ s ∈ stSteps st /\ sName s = nm.
Proof.
  inversion 1 as [k' st s r' Hst Hs E1 E2| |]; subst; unfold fwd, undo, exec_at in *; simplify_eq.
  cbn. eauto 8.
Qed.

(** The stage a rollback works on. *)
Definition undo_stage (v : view) : Z :=
  match v_pending v with [] => v_stage v - 1 | _ => v_stage v end.

Lemma allowed_undo_inv v k nm r :
  allowed v (undo k nm r) -> v_status v = StatusCompensating /\ k = undo_stage v.
Proof.
  inversion 1 as [|k' st p s r' Hst Hs E1 E2|k' st s r' Hst Hs E1 E2]; subst;
    unfold fwd, undo, exec_at in *; simplify_eq; unfold undo_stage; cbn.
  - split; [done|]. destruct p; [by apply picked_nil in Hs|done].
  - split; [done|lia].
Qed.

Lemma allowed_cases v ev :
  allowed v ev ->
  (v_status v = StatusRunning /\ exists nm r, ev = fwd (v_stage v) nm r) \/
  (v_status v = StatusCompensating /\ exists nm r, ev = undo (undo_stage v) nm r).
Proof.
  intros Ha. pose proof Ha as Ha'. destruct Ha'.
  - left. cbn. eauto.
  - right. apply allowed_undo_inv in Ha as [? <-]. eauto.
  - right. apply allowed_undo_inv in Ha as [? <-]. eauto.
Qed.

(** One write keeps what is owed, or settles it. *)
Lemma owed_write v seen v' k nm :
  Transition v seen v' -> (forall ev, ev ∈ seen -> allowed v ev) -> ~ terminal v' ->
  owed v seen k nm -> owed v' [] k nm \/ settled k nm seen.
Proof.
  unfold owed, terminal. intros Ht Hseen Hnt Ho.
  destruct Ht as [k0 p st Hst|k0 st seen Hst Hall|k0 st p seen Hst Hpv Hp Hok Hpick|
    |  |k0 p Hpv|k0 st p seen Hst Hp Hall|k0 st seen Hst Hall| |]; cbn in *; try done.
  - left. left. destruct Ho as [[? _]|[[_ []%not_elem_of_nil]|[? _]]]; auto; done.
  - left. left. destruct Ho as [[[? ?] _]|[[_ Hin]|[? _]]]; [split; [split; [lia|done]|by left]| |done].
    destruct (allowed_fwd_inv _ _ _ _ (Hseen _ Hin)) as (_ & Hk & ?). cbn in Hk.
    split; [|by left]. split; [lia|done].
  - left. destruct Ho as [[? _]|[[_ Hin]|[? _]]]; [auto| |done].
    right; right. destruct (allowed_fwd_inv _ _ _ _ (Hseen _ Hin)) as (_ & Hk & ?). cbn in Hk. subst k0.
    destruct (Hpick _ Hin) as (s' & ? & ?). split; [done|]. split; [done|]. eauto.
  - left. left. destruct Ho as [[? _]|[[_ []%not_elem_of_nil]|[? _]]]; auto; done.
  - destruct Ho as [[? _]|[[? _]|(_ & -> & st' & s & Hst' & Hps & <-)]]; [by left; left; auto|done|].
    right. rewrite (stage_of_inj _ _ _ Hst' Hst) in *. exists st, s. split_and!; eauto using picked_elem.
  - destruct Ho as [[(Hlt & st' & s & Hst' & Hs & <-) _]|[[? _]|(_ & _ & st' & s & _ & Hp & _)]]; [|done|].
    + destruct (decide (k = k0)) as [->|]; [|left; left; split; [split; [lia|eauto 8]|auto]].
      right. rewrite (stage_of_inj _ _ _ Hst' Hst) in *. exists st, s. auto.
    + by apply picked_nil in Hp.
Qed.

Lemma owed_seen v seen ev k nm : owed v seen k nm -> owed v (seen ++ [ev]) k nm.
Proof. unfold owed. rewrite elem_of_app. tauto. Qed.

Lemma seen_call v seen ev :
  (forall ev, ev ∈ seen -> allowed v ev) -> allowed v ev ->
  forall ev', ev' ∈ seen ++ [ev] -> allowed v ev'.
Proof. intros Hseen Ha ev' [?|E%list_elem_of_singleton]%elem_of_app; [auto|by rewrite E]. Qed.

Lemma seen_nil v ev : ev ∈ @nil event -> allowed v ev.
Proof. by intros []%not_elem_of_nil. Qed.

(** Nothing is owed when the rollback is declared finished. *)
Lemma owed_compensated v seen v' k nm :
  Transition v seen v' -> v_status v' = StatusCompensated -> ~ owed v seen k nm.
Proof.
  intros Ht Hv'. destruct Ht; try done. unfold owed; cbn.
  intros [[(Hk & st & s & [? _] & _) _]|[[? _]|(_ & _ & st & s & _ & Hp & _)]]; [lia|done|].
  by apply picked_nil in Hp.
Qed.

Lemma protocol_settles v seen l v' k nm :
  protocol v seen l v' -> (forall ev, ev ∈ seen -> allowed v ev) ->
  v_status v' = StatusCompensated -> owed v seen k nm -> settled k nm (seen ++ l).
Proof.
  induction 1 as [v seen|v seen ev l v' Ha Hp IH|v seen i l v' Ht Hp IH|v seen i l v' Hs Hp IH];
    intros Hseen Hv' Ho.
  - destruct Ho as [[_ [?|?]]|[[? _]|[? _]]]; congruence.
  - rewrite cons_middle, app_assoc. apply IH; [|done|by apply owed_seen].
    by apply seen_call.
  - destruct (decide (terminal (view_of i))) as [Hterm|Hnt].
    + rewrite (proj1 (terminal_stays _ _ _ _ Hp Hterm)) in Hv'.
      exfalso. by eapply (owed_compensated v seen).
    + destruct (owed_write _ _ _ _ _ Ht Hseen Hnt Ho) as [Ho'|Hset].
      * eapply settled_mono, IH; [apply sub_app|apply seen_nil|done|done].
      * eapply settled_mono, Hset. apply sub_first.
  - eapply settled_mono, IH; [apply sub_seen|done|done|done].
Qed.


(** Every successful forward call of a run that ends compensated is followed by
    its compensation. *)
Lemma protocol_undoes v seen l v' k nm :
  protocol v seen l v' -> (forall ev, ev ∈ seen -> allowed v ev) ->
  v_status v' = StatusCompensated -> fwd k nm Ok ∈ l ->
  exists l1 l2, l = l1 ++ fwd k nm Ok :: l2 /\ settled k nm l2.
Proof.
  induction 1 as [v seen|v seen ev l v' Ha Hp IH|v seen i l v' Ht Hp IH|v seen i l v' Hs Hp IH];
    intros Hseen Hv' Hin.
  - by apply not_elem_of_nil in Hin.
  - apply elem_of_cons in Hin as [<-|Hin].
    + exists [], l. split; [done|]. apply allowed_fwd_inv in Ha as Hr. destruct Hr as (Hrun & <- & _).
      destruct (protocol_settles _ _ _ _ (v_stage v) nm Hp (seen_call _ _ _ Hseen Ha) Hv')
        as (st & s & ? & ? & ? & [?|Hu]).
      { right; left. split; [done|]. apply elem_of_app. right. by apply list_elem_of_singleton. }
      { exists st, s. split_and!; auto. by left. }
      exists st, s. split_and!; auto. right. apply elem_of_app in Hu as [Hu%(seen_call _ _ _ Hseen Ha)|?]; [|done].
      apply allowed_undo_inv in Hu as [? _]. congruence.
    + destruct (IH (seen_call _ _ _ Hseen Ha) Hv' Hin) as (l1 & l2 & -> & ?). by exists (ev :: l1), l2.
  - apply elem_of_cons in Hin as [?|Hin]; [done|].
    destruct (IH (seen_nil _) Hv' Hin) as (l1 & l2 & -> & ?). by exists (EvPersist i :: l1), l2.
  - apply elem_of_cons in Hin as [?|Hin]; [done|].
    destruct (IH Hseen Hv' Hin) as (l1 & l2 & -> & ?). by exists (EvDeadLetter i :: l1), l2.
Qed.

(** *** Order of the rollback *)

Definition is_fwd (ev : event) : Prop := exists k nm r, ev = fwd k nm r.
Definition is_undo (ev : event) : Prop := exists k nm r, ev = undo k nm r.

Lemma fwd_not_undo ev : is_fwd ev -> ~ is_undo ev.
Proof. by intros (?&?&?&->) (?&?&?&?). Qed.

Lemma undo_write v seen v' :
  Transition v seen v' -> v_status v = StatusCompensating ->
  v_status v' = StatusCompensating /\ undo_stage v' <= undo_stage v \/
  v_status v' = StatusCompensated \/ v_status v' = StatusFailed.
Proof.
  intros Ht. destruct Ht as [| | | | | |k st p seen Hst Hp Hall|k st seen Hst Hall| |]; cbn; try done; auto.
  - left. split; [done|]. unfold undo_stage; cbn. destruct p; [done|lia].
  - left. split; [done|]. unfold undo_stage; cbn. lia.
Qed.

Lemma rollback_bound v seen l v' :
  protocol v seen l v' -> v_status v = StatusCompensating ->
  (v_status v' = StatusCompensating \/ v_status v' = StatusCompensated \/ v_status v' = StatusFailed) /\
  forall ev, ev ∈ l -> ~ is_fwd ev /\ (forall k nm r, ev = undo k nm r -> k <= undo_stage v).
Proof.
  induction 1 as [v seen|v seen ev l v' Ha Hp IH|v seen i l v' Ht Hp IH|v seen i l v' Hs Hp IH];
    intros Hv.
  - split; [auto|]. by intros ? []%not_elem_of_nil.
  - destruct (IH Hv) as [? Hl]. split; [done|]. intros ev' [->|?]%elem_of_cons; [|auto].
    destruct (allowed_cases _ _ Ha) as [[? _]|(_ & nm & r & ->)]; [congruence|].
    split; [by intros (?&?&?&?)|]. intros k nm' r' (<- & _)%undo_inj. lia.
  - assert (v_status (view_of i) = StatusCompensating /\ undo_stage (view_of i) <= undo_stage v \/
            v_status (view_of i) = StatusCompensated \/ v_status (view_of i) = StatusFailed) as Hi.
    { by eapply undo_write. }
    destruct Hi as [[Hi Hle]|Hi].
    + destruct (IH Hi) as [? Hl]. split; [done|]. intros ev [->|Hev]%elem_of_cons; [by split; [intros (?&?&?&?)|]|].
      destruct (Hl _ Hev) as [? Hk]. split; [done|]. intros k nm r Hu. specialize (Hk _ _ _ Hu). lia.
    + assert (terminal (view_of i)) as Hterm by (unfold terminal; by destruct Hi as [->| ->]).
      destruct (terminal_stays _ _ _ _ Hp Hterm) as [-> Hl]. split; [tauto|].
      intros ev [->|[j ->]%Hl]%elem_of_cons; by split; [intros (?&?&?&?)|].
  - destruct (IH Hv) as [? Hl]. split; [done|]. intros ev [->|?]%elem_of_cons; [|auto].
    by split; [intros (?&?&?&?)|].
Qed.

(** The end of a run, from any of its events. *)
Lemma protocol_split v seen l1 l2 v' :
  protocol v seen (l1 ++ l2) v' -> exists v1 seen1, protocol v1 seen1 l2 v'.
Proof.
  revert v seen. induction l1 as [|ev l1 IH]; intros v seen Hp; [by exists v, seen|].
  inversion Hp; subst; eauto.
Qed.

(** After a compensation there is no forward call, and no compensation of a
    later stage. *)
Lemma protocol_reverse v seen l1 k nm r l2 v' :
  protocol v seen (l1 ++ undo k nm r :: l2) v' ->
  forall ev, ev ∈ l2 -> ~ is_fwd ev /\ (forall k' nm' r', ev = undo k' nm' r' -> k' <= k).
Proof.
  intros (v1 & seen1 & Hp)%protocol_split.
  inversion Hp as [|? ? ? ? ? Ha Hp'| |]; subst.
  apply allowed_undo_inv in Ha as [Hc ->]. by apply (rollback_bound _ _ _ _ Hp').
Qed.

Lemma running_write v seen v' :
  Transition v seen v' -> v_status v = StatusRunning ->
  (v_status v' = StatusRunning /\ v_stage v <= v_stage v') \/
  (v_status v' = StatusCompensating /\ v_stage v < dPivotIdx d) \/
  v_status v' = StatusCompleted \/ v_status v' = StatusFailed.
Proof.
  intros Ht. destruct Ht; cbn; intros; try done; first [left; split; [done|lia]|by auto].
Qed.

(** From the pivot on there is no way back. *)
Lemma protocol_pivot v seen l v' :
  protocol v seen l v' -> v_status v = StatusRunning -> dPivotIdx d <= v_stage v ->
  (forall ev, ev ∈ l -> ~ is_undo ev) /\
  v_status v' <> StatusCompensating /\ v_status v' <> StatusCompensated.
Proof.
  induction 1 as [v seen|v seen ev l v' Ha Hp IH|v seen i l v' Ht Hp IH|v seen i l v' Hs Hp IH];
    intros Hv Hk.
  - rewrite Hv. split; [by intros ? []%not_elem_of_nil|done].
  - destruct (IH Hv Hk) as [Hl ?]. split; [|done]. intros ev' [->|?]%elem_of_cons; [|auto].
    intros (k & nm & r & ->). apply allowed_undo_inv in Ha as [? _]. congruence.
  - destruct (running_write _ _ _ Ht Hv) as [[Hi Hle]|[[? ?]|Hi]]; [|lia|].
    + destruct (IH Hi) as [Hl ?]; [lia|]. split; [|done].
      intros ev [->|?]%elem_of_cons; [by intros (?&?&?&?)|auto].
    + assert (terminal (view_of i)) as Hterm by (unfold terminal; by destruct Hi as [->| ->]).
      destruct (terminal_stays _ _ _ _ Hp Hterm) as [-> Hl].
      split; [|destruct Hi as [->| ->]; done].
      intros ev [->|[j ->]%Hl]%elem_of_cons; by intros (?&?&?&?).
  - congruence.
Qed.

Lemma protocol_before_pivot v seen l v' k nm r ev :
  protocol v seen l v' -> ev ∈ l -> is_undo ev -> fwd k nm r ∈ l -> k < dPivotIdx d.
Proof.
  intros Hp Hev Hu (l1 & l2 & ->)%list_elem_of_split.
  destruct (decide (k < dPivotIdx d)) as [|Hge]; [done|exfalso].
  pose proof Hp as (v1 & seen1 & Hp1)%protocol_split.
  inversion Hp1 as [|? ? ? ? ? Ha Hp'| |]; subst.
  apply allowed_fwd_inv in Ha as (Hrun & <- & _).
  destruct (protocol_pivot _ _ _ _ Hp1 Hrun) as [Hno _]; [lia|].
  apply elem_of_app in Hev as [(l3 & l4 & ->)%list_elem_of_split|Hev]; [|by eapply Hno].
  destruct Hu as (k & nm' & r' & ->). rewrite <-app_assoc in Hp. cbn in Hp.
  destruct (protocol_reverse _ _ _ _ _ _ _ _ Hp (fwd (v_stage v1) nm r)) as [Hf _].
  - apply elem_of_app. right. left.
  - destruct Hf. by do 3 eexists.
Qed.

(** A run that ends completed has called every step of every stage with success. *)
Lemma protocol_completes v seen l v' k st s :
  protocol v seen l v' -> v_status v = StatusRunning -> v_status v' = StatusCompleted ->
  v_stage v <= k -> stage_of k st -> s ∈ stSteps st -> fwd k (sName s) Ok ∈ seen ++ l.
Proof.
  induction 1 as [v seen|v seen ev l v' Ha Hp IH|v seen i l v' Ht Hp IH|v seen i l v' Hs Hp IH];
    intros Hv Hv' Hk Hst Hs'.
  - congruence.
  - rewrite cons_middle, app_assoc. by apply IH.
  - pose proof (running_write _ _ _ Ht Hv) as [[Hi _]|[[Hi _]|Hi]].
    + cut (fwd k (sName s) Ok ∈ seen \/ v_stage (view_of i) <= k).
      { intros [?|?]; [by apply sub_first|]. eapply sub_app. by apply IH. }
      remember (view_of i) as vi. destruct Ht as [|k0 st0 seen Hst0 Hall| | | | | | | |]; cbn in *; try done; [by right|].
      destruct (decide (k = k0)) as [->|]; [|right; lia].
      rewrite (stage_of_inj _ _ _ Hst Hst0) in *. left. by apply Hall.
    + destruct (rollback_bound _ _ _ _ Hp Hi) as [[?|[?|?]] _]; congruence.
    + remember (view_of i) as vi. destruct Ht; cbn in *; destruct Hi; try done.
      * assert (terminal (MkView StatusFailed k0 p)) as Hterm by done.
        destruct (terminal_stays _ _ _ _ Hp Hterm) as [-> _]. done.
      * destruct Hst as [? Hlk%lookup_lt_Some]. lia.
  - congruence.
Qed.

(** *** The state behind an event *)

(** The last state written in [l], or [v] when there is none. *)
Fixpoint last_view (v : view) (l : list event) : view :=
  match l with
  | [] => v
  | EvPersist i :: l => last_view (view_of i) l
  | _ :: l => last_view v l
  end.

Lemma protocol_last v seen l1 l2 v' :
  protocol v seen (l1 ++ l2) v' -> protocol (last_view v l1) (since seen l1) l2 v'.
Proof.
  revert v seen. induction l1 as [|ev l1 IH]; intros v seen Hp; [done|].
  inversion Hp as [|? ? ? ? ? Ha Hp'| |]; subst; cbn; try by apply IH.
  apply allowed_call in Ha as (ex & c & nm & r & ->). by apply IH.
Qed.

Lemma protocol_allowed v seen l1 ex c nm r l2 v' :
  protocol v seen (l1 ++ EvCall ex c nm r :: l2) v' -> allowed (last_view v l1) (EvCall ex c nm r).
Proof. intros Hp%protocol_last. by inversion Hp. Qed.

(** A run with a compensation ends rolling back, rolled back or failed. *)
Lemma protocol_undo_end v seen l v' ev :
  protocol v seen l v' -> ev ∈ l -> is_undo ev ->
  v_status v' = StatusCompensating \/ v_status v' = StatusCompensated \/ v_status v' = StatusFailed.
Proof.
  intros Hp (l1 & l2 & ->)%list_elem_of_split (k & nm & r & ->).
  apply protocol_last in Hp. inversion Hp as [|? ? ? ? ? Ha Hp'| |]; subst.
  apply allowed_undo_inv in Ha as [Hc _]. by apply (rollback_bound _ _ _ _ Hp).
Qed.
End protocol.
End SagaProtocol.
