(* ===== verification/SagaRefine.v ===== *)
(** The engine of data/saga/orchestrator.go keeps the saga protocol: the
    refinement of SagaProtocol.v by SagaEngine.v, phase by phase, and the
    properties of sagas it yields. *)

From stdpp Require Import pretty.
From S2P Require Import Prelude Retry Concurrency SagaStore SagaDef SagaEngine SagaSteps SagaProtocol.
Local Open Scope go_scope.

Module SagaRefine.
Import SagaStore SagaDef SagaEngine SagaSteps SagaProtocol.

Section refine.
Context {S T X : Type} `{Storage S, !UpdateFrame S} (env : Env S) `{!EnvLaws env} (o : Orchestrator T X).
Local Abbreviation W := (World S T X).
Local Abbreviation def := (o_def o).
Local Abbreviation stages := (dStages (o_def o)).
Local Abbreviation nstages := (Z.of_nat (length (dStages (o_def o)))).

(** The run under consideration: it starts in [w0] with the persisted state
    [v0], for the instance [id] under the fence [fence]. *)
Context (w0 : W) (v0 : view) (id : string) (fence : Z).

(** In [w] the persisted state is [v], and [seen] happened since it was written. *)
Definition run_at (v : view) (seen : list event) (w : W) : Prop :=
  iID (w_inst w) = id /\
  exists l, w_log w = w_log w0 ++ l /\ protocol def id fence v0 [] l v /\ since [] l = seen.

Lemma run_at_eq v seen w w' :
  w_log w' = w_log w -> iID (w_inst w') = iID (w_inst w) -> run_at v seen w -> run_at v seen w'.
Proof. intros Hl Hi [? ?]. split; [congruence|]. by rewrite Hl. Qed.

Lemma run_at_calls v seen w l w' :
  run_at v seen w -> grown w l w' -> (forall ev, ev ∈ l -> allowed def id fence v ev) ->
  run_at v (seen ++ l) w'.
Proof.
  intros [Hid (l0 & Hl0 & Hp & <-)] [(_ & Hi & _) Hl] Ha. split; [by rewrite Hi|].
  exists (l0 ++ l). destruct (protocol_calls def id fence v (since [] l0) l Ha) as [Hp' Hs].
  split_and!; [by rewrite Hl, Hl0, app_assoc|by eapply protocol_app|by rewrite since_app].
Qed.

Lemma run_at_write v seen w i :
  run_at v seen w -> Transition def id fence v seen (view_of i) ->
  run_at (view_of i) [] (SagaEngine.log (EvPersist i) w).
Proof.
  intros [Hid (l0 & Hl0 & Hp & <-)] Ht. split; [done|].
  exists (l0 ++ [EvPersist i]). cbn. split_and!; [by rewrite Hl0, app_assoc| |by rewrite since_app].
  eapply protocol_app; [done|]. constructor; [done|]. constructor.
Qed.

Lemma run_at_dead v seen w i :
  run_at v seen w -> v_status v = StatusFailed -> run_at v seen (SagaEngine.log (EvDeadLetter i) w).
Proof.
  intros [Hid (l0 & Hl0 & Hp & <-)] Hv. split; [done|].
  exists (l0 ++ [EvDeadLetter i]). cbn. split_and!; [by rewrite Hl0, app_assoc| |by rewrite since_app].
  eapply protocol_app; [done|]. constructor; [done|]. constructor.
Qed.

(** ** Primitive steps *)

Lemma wp_modi f Q (w : W) : Q tt (set_inst f w) -> wp (modi f) Q w.
Proof. done. Qed.

Lemma wp_touch Q (w : W) :
  (forall t, Q tt (set_inst (set_updatedAt t) (tick w))) -> wp (touch env) Q w.
Proof. intros HQ. apply HQ. Qed.

Lemma wp_encodeInto Q (w : W) :
  (forall e, Q (Some e) w) -> (forall b, Q None (set_inst (set_data b) w)) -> wp (encodeInto o) Q w.
Proof. intros He Hb. unfold encodeInto. apply wp_bind, wp_get. case_match; [apply He|apply Hb]. Qed.

Lemma wp_recordStage st k status attempts Q (w : W) :
  length attempts = length (stSteps st) ->
  (forall l, Q tt (set_inst (fun i => set_steps (iSteps i ++ l) i) (tick w))) ->
  wp (recordStage env st k status attempts) Q w.
Proof.
  intros Hl HQ. unfold recordStage. apply wp_bind. apply wp_sense.
  destruct (Nat.ltb_spec (length attempts) (length (stSteps st))); [lia|]. apply HQ.
Qed.

(** A write of the instance in hand. *)
Lemma wp_update v seen (w : W) :
  run_at v seen w -> Transition def id fence v seen (view_of (w_inst w)) ->
  wp (update env) (fun e w' =>
    view_of (w_inst w') = view_of (w_inst w) /\
    match e with
    | None => run_at (view_of (w_inst w')) [] w'
    | Some _ => run_at v seen w'
    end) w.
Proof using UpdateFrame0.
  intros Hat Ht. unfold update, bs_update. apply wp_bind, wp_get, wp_bind, wp_bind, wp_run_ctx_err.
  destruct (env_run_ctx _ _ _) as [e|].
  { apply wp_ret, wp_bind, wp_modi, wp_ret. split; [done|]. by eapply run_at_eq, Hat. }
  apply wp_bind. unfold wp at 1, on_store.
  pose proof (update_frame (w_inst w) (env_others env (w_tick (tick w)) (w_store (tick w)))) as Hf.
  destruct (Update (w_inst w) _) as [[r i'] s']. cbn in Hf.
  destruct r as [e|].
  - apply wp_ret, wp_bind, wp_modi, wp_ret. cbn. rewrite Hf. split; [done|]. by eapply run_at_eq, Hat.
  - apply wp_bind, wp_mod, wp_ret, wp_bind, wp_modi, wp_ret. cbn.
    assert (view_of i' = view_of (w_inst w)) as Hv by (by rewrite Hf). split; [done|].
    eapply run_at_eq; [| |apply (run_at_write v seen w i' Hat); by rewrite Hv];
      [done|cbn; by rewrite Hf].
Qed.

(** ** Stages *)

(** The execution metadata of this run. *)
Definition mine (ex : Execution) : Prop := eInstanceID ex = id /\ eFence ex = fence.

Lemma mine_withStage ex k : mine ex -> mine (withStage ex k).
Proof. done. Qed.

Lemma call_of_fwd ex k (s : Step T X) r :
  mine ex -> call_of false (withStage ex k) s r = fwd id fence k (sName s) r.
Proof. unfold mine. destruct ex; cbn. by intros [-> ->]. Qed.

Lemma call_of_undo ex k (s : Step T X) r :
  mine ex -> call_of true (withStage ex k) s r = undo id fence k (sName s) r.
Proof. unfold mine. destruct ex; cbn. by intros [-> ->]. Qed.

(** What a forward stage leaves as evidence. *)
Definition fwd_evidence (k : Z) (st : stage T X) (completed : list Z) (err : option error)
    (seen : list event) : Prop :=
  (forall i, i ∈ completed -> 0 <= i < Z.of_nat (length (stSteps st))) /\
  (forall s, picked st completed s -> fwd id fence k (sName s) Ok ∈ seen) /\
  (forall nm, fwd id fence k nm Ok ∈ seen -> exists s, picked st completed s /\ sName s = nm) /\
  (err = None -> forall s, s ∈ stSteps st -> fwd id fence k (sName s) Ok ∈ seen).

Lemma wp_forward_run ex st k v w :
  mine ex -> v = MkView StatusRunning k (all_steps st) -> stage_of def k st -> run_at v [] w ->
  wp (runStage env o (withStage ex k) st false) (fun res w' =>
    let '(attempts, completed, err) := res in
    length attempts = length (stSteps st) /\ w_inst w' = w_inst w /\
    exists seen, run_at v seen w' /\ fwd_evidence k st completed err seen) w.
Proof using EnvLaws0.
  intros Hm -> Hst Hat. eapply wp_mono; [apply (wp_runStage env o)|]. cbv beta.
  intros [[attempts completed] err] w' (Hlen & Hrange & Hall & l & Hg & [Hcalls Hdone Hok]).
  split; [done|]. split; [apply Hg|]. exists l.
  assert (forall s, picked st completed s -> fwd id fence k (sName s) Ok ∈ l) as Hpick.
  { intros s (i & Hi & Hs). destruct (Hdone i s Hi Hs) as [[? _]|Hin]; [done|].
    by rewrite call_of_fwd in Hin. }
  split; [|split_and!; [done|done| |]].
  - apply (run_at_calls _ [] w); [done|done|]. intros ev (s & r & Hs & ->)%Hcalls.
    rewrite call_of_fwd by done. by econstructor.
  - intros nm Hin. destruct (Hcalls _ Hin) as (s & r & Hs & E).
    rewrite call_of_fwd in E by done. unfold fwd in E. injection E as _ -> <-.
    rewrite <-(call_of_fwd ex) in Hin by done.
    destruct (Hok s Hin) as (i & s' & Hi & Hs' & ?). exists s'. split; [by exists i|done].
  - intros ->. rewrite (Hall eq_refl) in Hpick. intros s [i Hi]%list_elem_of_lookup.
    apply Hpick. exists i. split; [|done]. apply list_elem_of_fmap. exists i. split; [done|].
    apply elem_of_seq. apply lookup_lt_Some in Hi. lia.
Qed.

Lemma wp_undo_run ex st k v w :
  mine ex -> (forall s r, s ∈ stSteps st -> allowed def id fence v (undo id fence k (sName s) r)) ->
  run_at v [] w ->
  wp (runStage env o (withStage ex k) st true) (fun res w' =>
    let '(attempts, _, err) := res in
    length attempts = length (stSteps st) /\ w_inst w' = w_inst w /\
    exists seen, run_at v seen w' /\
      (err = None -> forall s, s ∈ stSteps st -> undone id fence k s seen)) w.
Proof using EnvLaws0.
  intros Hm Ha Hat. eapply wp_mono; [apply (wp_runStage env o)|]. cbv beta.
  intros [[attempts completed] err] w' (Hlen & Hrange & Hall & l & Hg & [Hcalls Hdone Hok]).
  split; [done|]. split; [apply Hg|]. exists l. split.
  - apply (run_at_calls _ [] w); [done|done|]. intros ev (s & r & Hs & ->)%Hcalls.
    rewrite call_of_undo by done. by apply Ha.
  - intros E s [i Hi]%list_elem_of_lookup. rewrite (Hall E) in Hdone.
    destruct (Hdone i s) as [[_ ?]|Hin]; [|done|by left|right; by rewrite call_of_undo in Hin].
    apply list_elem_of_fmap. exists i. split; [done|].
    apply elem_of_seq. apply lookup_lt_Some in Hi. lia.
Qed.

(** ** The forward phase *)

(** How a phase that does not go on leaves the run: still running, rolling back
    with a proper cursor, or failed; only the last two were written. *)
Definition pending_ok (v : view) : Prop :=
  0 <= v_stage v <= nstages /\
  (v_pending v = [] \/ exists st, stage_of def (v_stage v) st /\
     forall i, i ∈ v_pending v -> 0 <= i < Z.of_nat (length (stSteps st))).

Definition forward_end (r : option error) (w : W) : Prop :=
  r <> None /\
  ((iStatus (w_inst w) = StatusRunning /\ exists v seen, run_at v seen w /\ v_status v = StatusRunning) \/
   (iStatus (w_inst w) = StatusCompensating /\ run_at (view_of (w_inst w)) [] w /\
      pending_ok (view_of (w_inst w))) \/
   (iStatus (w_inst w) = StatusFailed /\ run_at (view_of (w_inst w)) [] w)).

(** Ready for the next stage. *)
Definition forward_ready (k : Z) (w : W) : Prop :=
  iStatus (w_inst w) = StatusRunning /\ iStage (w_inst w) = k /\
  (k = nstages -> iPendingSteps (w_inst w) = []) /\ run_at (view_of (w_inst w)) [] w.

Lemma stage_of_range k st : stage_of def k st -> 0 <= k < nstages.
Proof. intros [? Hl%lookup_lt_Some]. lia. Qed.

Lemma wp_forward_failed st k err completed seen v w :
  stage_of def k st -> iStatus (w_inst w) = StatusRunning -> iStage (w_inst w) = k ->
  iPendingSteps (w_inst w) = completed ->
  v = MkView StatusRunning k (all_steps st) -> run_at v seen w ->
  fwd_evidence k st completed (Some err) seen ->
  wp (forward_failed env st (dPivotIdx def <=? k) err) forward_end w.
Proof using UpdateFrame0.
  intros Hst Hrun Hk Hc -> Hat (Hr & Hp & Hn & _). unfold forward_failed.
  apply wp_bind, wp_modi, wp_bind, wp_modi, wp_bind, wp_touch. intros t. apply wp_bind.
  set (w1 := set_inst _ _).
  assert (view_of (w_inst w1) = MkView (if dPivotIdx def <=? k then StatusFailed else StatusCompensating) k completed) as Hv1.
  { unfold w1, view_of; cbn. by rewrite Hk, Hc. }
  eapply wp_mono; [apply (wp_update (MkView StatusRunning k (all_steps st)) seen)|].
  - by eapply run_at_eq, Hat.
  - rewrite Hv1. destruct (Z.leb_spec (dPivotIdx def) k); by econstructor.
  - cbv beta. intros [e|] w2 [Hv2 Hat2].
    + apply wp_bind, wp_modi, wp_ret. split; [done|]. left. split; [done|].
      eexists _, _. split; [by eapply run_at_eq, Hat2|done].
    + apply wp_ret. split; [done|]. right. rewrite Hv1 in Hv2.
      assert (iStatus (w_inst w2) = v_status (view_of (w_inst w2))) as E by done. rewrite Hv2 in E.
      rewrite E. cbn. destruct (Z.leb_spec (dPivotIdx def) k); [by right|left].
      split_and!; [done|done| ]. rewrite Hv2. pose proof (stage_of_range _ _ Hst).
      split; [cbn; lia|]. right. exists st. auto.
Qed.

(** Evidence that changing unrelated fields of the instance keeps the run. *)
Ltac same_run H := by eapply run_at_eq, H.

Lemma running_end (r : option error) v seen w :
  r <> None -> iStatus (w_inst w) = StatusRunning -> v_status v = StatusRunning ->
  run_at v seen w -> forward_end r w.
Proof. intros. split; [done|]. left. eauto. Qed.

Lemma wp_forward_commit st k attempts seen v w :
  stage_of def k st -> iStatus (w_inst w) = StatusRunning -> iStage (w_inst w) = k ->
  length attempts = length (stSteps st) ->
  v = MkView StatusRunning k (all_steps st) -> run_at v seen w ->
  (forall s, s ∈ stSteps st -> fwd id fence k (sName s) Ok ∈ seen) ->
  wp (forward_commit env o st attempts) (fun r w' =>
    match r with inl e => forward_end (Some e) w' | inr _ => forward_ready (k + 1) w' end) w.
Proof using UpdateFrame0.
  intros Hst Hrun Hk Hlen -> Hat Hall. unfold forward_commit.
  apply wp_bind, wp_get, wp_bind, wp_recordStage; [done|]. intros recs.
  apply wp_bind, wp_modi, wp_bind, wp_modi, wp_bind, wp_touch. intros t. apply wp_bind, wp_encodeInto.
  { intros e. apply wp_ret.
    by apply (running_end _ (MkView StatusRunning k (all_steps st)) seen); [|exact Hrun| |same_run Hat]. }
  intros b. apply wp_bind. set (w1 := set_inst _ _).
  assert (view_of (w_inst w1) = MkView StatusRunning (k + 1) []) as Hv1.
  { unfold w1, view_of; cbn. by rewrite Hk, Hrun. }
  eapply wp_mono; [apply (wp_update (MkView StatusRunning k (all_steps st)) seen)|].
  - same_run Hat.
  - rewrite Hv1. by apply T_commit.
  - cbv beta. intros e w2 [Hv2 Hat2]. apply wp_ret. rewrite Hv1 in Hv2.
    injection Hv2 as Hs2 Hk2 Hp2.
    destruct e as [e|]; [by eapply running_end; [| | |exact Hat2]|].
    split_and!; done.
Qed.

Lemma wp_forward_stage ex st k w :
  mine ex -> stage_of def k st -> forward_ready k w ->
  wp (forward_stage env o ex st) (fun r w' =>
    match r with inl r => forward_end r w' | inr _ => forward_ready (k + 1) w' end) w.
Proof using UpdateFrame0 EnvLaws0.
  intros Hm Hst (Hrun & Hk & _ & Hat). unfold forward_stage.
  apply wp_bind, wp_get. rewrite Hk. apply wp_bind, wp_modi, wp_bind.
  set (w1 := set_inst _ _).
  assert (view_of (w_inst w1) = MkView StatusRunning k (all_steps st)) as Hv1.
  { unfold w1, view_of; cbn. by rewrite Hk, Hrun. }
  eapply wp_mono; [apply (wp_update (view_of (w_inst w)) [])|].
  { same_run Hat. }
  { rewrite Hv1. unfold view_of. rewrite Hrun, Hk. by constructor. }
  cbv beta. intros e w2 [Hv2 Hat2]. rewrite Hv1 in Hv2. destruct e as [e|].
  { apply wp_ret. injection Hv2 as ? ? ?. by eapply running_end; [| | |exact Hat2]. }
  rewrite Hv2 in Hat2. injection Hv2 as Hs2 Hk2 Hp2.
  apply wp_bind. eapply wp_mono; [by apply (wp_forward_run ex st k (MkView StatusRunning k (all_steps st)))|]. cbv beta.
  intros [[attempts completed] err] w3 (Hlen & Hi3 & seen & Hat3 & Hev).
  apply wp_bind, wp_run_ctx_err. destruct (env_run_ctx _ _ _) as [e|].
  { apply wp_ret. 
    by apply (running_end _ (MkView StatusRunning k (all_steps st)) seen); [|cbn; rewrite Hi3| |same_run Hat3]. }
  apply wp_bind, wp_modi, wp_bind, wp_encodeInto.
  { intros e. apply wp_ret. 
    by apply (running_end _ (MkView StatusRunning k (all_steps st)) seen); [|cbn; rewrite Hi3| |same_run Hat3]. }
  intros b. destruct err as [err|]; apply wp_bind.
  - eapply wp_mono; [apply (wp_forward_failed st k err completed seen (MkView StatusRunning k (all_steps st))); try done|].
    + cbn. by rewrite Hi3.
    + cbn. by rewrite Hi3.
    + intros r w4 Hr. by apply wp_ret.
  - eapply wp_mono; [apply (wp_forward_commit st k attempts seen (MkView StatusRunning k (all_steps st))); try done|].
    + cbn. by rewrite Hi3.
    + cbn. by rewrite Hi3.
    + by apply Hev.
    + intros [r|r] w4 Hr; by apply wp_ret.
Qed.

(** Either the phase ends early, or every stage is committed and the completion
    is written. *)
Definition forward_post (r : option error) (w : W) : Prop :=
  forward_end r w \/
  (r = None /\ iStatus (w_inst w) = StatusCompleted /\ run_at (view_of (w_inst w)) [] w).

Lemma wp_forward_done w :
  forward_ready nstages w -> wp (forward_done env) forward_post w.
Proof using UpdateFrame0.
  intros (Hrun & Hk & Hp & Hat). specialize (Hp eq_refl). unfold forward_done.
  apply wp_bind, wp_modi, wp_bind, wp_touch. intros t. apply wp_bind. set (w1 := set_inst _ _).
  assert (view_of (w_inst w1) = MkView StatusCompleted nstages []) as Hv1.
  { unfold w1, view_of; cbn. by rewrite Hk, Hp. }
  eapply wp_mono; [apply (wp_update (view_of (w_inst w)) [])|].
  - same_run Hat.
  - rewrite Hv1. unfold view_of. rewrite Hrun, Hk, Hp. apply T_complete.
  - cbv beta. intros e w2 [Hv2 Hat2]. rewrite Hv1 in Hv2. injection Hv2 as Hs2 Hk2 Hp2.
    destruct e as [e|].
    + apply wp_bind, wp_modi, wp_ret. left.
      by apply (running_end _ (view_of (w_inst w)) []); [| |exact Hrun|same_run Hat2].
    + apply wp_ret. by right.
Qed.

Lemma stage_of_index k : 0 <= k < nstages -> exists st, stage_of def k st.
Proof.
  intros Hk. destruct (lookup_lt_is_Some_2 stages (Z.to_nat k)) as [st Hst]; [lia|].
  exists st. split; [lia|done].
Qed.

Lemma wp_stage_index k st Q (w : W) : stage_of def k st -> Q st w -> wp (mindex stages k) Q w.
Proof. intros [? ?] ?. by eapply wp_index. Qed.

Lemma wp_runForward fuel ex k w :
  mine ex -> 0 <= k <= nstages -> nstages - k <= Z.of_nat fuel -> forward_ready k w ->
  wp (runForward env o fuel ex) forward_post w.
Proof using UpdateFrame0 EnvLaws0.
  revert ex k w. induction fuel as [|fuel IH]; intros ex k w Hm Hk Hf Hready; cbn [runForward].
  all: apply wp_bind, wp_get; rewrite (proj1 (proj2 Hready)).
  all: destruct (Z.ltb_spec k nstages); [|assert (k = nstages) as -> by lia; by apply wp_forward_done].
  { lia. }
  destruct (stage_of_index k) as [st Hst]; [lia|].
  apply wp_bind. eapply wp_stage_index; [done|]. apply wp_bind.
  eapply wp_mono; [by apply (wp_forward_stage ex st k)|]. cbv beta. intros [r|[]] w' Hr.
  - apply wp_ret. by left.
  - apply (IH _ (k + 1)); [by apply mine_withStage|lia|lia|done].
Qed.

(** ** The rollback *)

(** How a rollback ends: interrupted, failed with the compensation error, or
    finished; the last two were written. *)
Definition rollback_post (r : option error) (w : W) : Prop :=
  (r <> None /\ iStatus (w_inst w) = StatusCompensating /\
     exists v seen, run_at v seen w /\ v_status v = StatusCompensating) \/
  ((exists e, r = Some e /\ Errors.Is SagaErrs.ErrCompensationFailed e = true) /\
     iStatus (w_inst w) = StatusFailed /\ run_at (view_of (w_inst w)) [] w) \/
  (r = None /\ iStatus (w_inst w) = StatusCompensated /\ run_at (view_of (w_inst w)) [] w).

Definition rollback_ready (k : Z) (w : W) : Prop :=
  iStatus (w_inst w) = StatusCompensating /\ iStage (w_inst w) = k /\
  iPendingSteps (w_inst w) = [] /\ run_at (view_of (w_inst w)) [] w.

Lemma interrupted_end (r : option error) v seen w :
  r <> None -> iStatus (w_inst w) = StatusCompensating -> v_status v = StatusCompensating ->
  run_at v seen w -> rollback_post r w.
Proof. intros. left. split_and!; eauto. Qed.

Lemma wp_compensationFailed err v seen w :
  v = view_of (w_inst w) -> iStatus (w_inst w) = StatusCompensating -> run_at v seen w ->
  wp (compensationFailed env err) rollback_post w.
Proof using UpdateFrame0.
  intros -> Hc Hat. unfold compensationFailed. apply wp_bind, wp_run_ctx_err.
  destruct (env_run_ctx _ _ _) as [e|].
  { apply wp_ret. by apply (interrupted_end _ (view_of (w_inst w)) seen); [| | |same_run Hat]. }
  case_match.
  { apply wp_ret. by apply (interrupted_end _ (view_of (w_inst w)) seen); [| | |same_run Hat]. }
  apply wp_bind, wp_modi, wp_bind, wp_modi, wp_bind, wp_touch. intros t. apply wp_bind.
  set (w1 := set_inst _ _).
  assert (view_of (w_inst w1) = MkView StatusFailed (iStage (w_inst w)) (iPendingSteps (w_inst w))) as Hv1 by done.
  eapply wp_mono; [apply (wp_update (view_of (w_inst w)) seen)|].
  - same_run Hat.
  - rewrite Hv1. unfold view_of. rewrite Hc. apply T_stuck.
  - cbv beta. intros e w2 [Hv2 Hat2]. rewrite Hv1 in Hv2. injection Hv2 as Hs2 Hk2 Hp2.
    destruct e as [e|].
    + apply wp_bind, wp_modi, wp_ret.
      by apply (interrupted_end _ (view_of (w_inst w)) seen); [| | |same_run Hat2].
    + apply wp_ret. right; left. split; [|done]. eexists. split; [done|]. by apply Errors.Is_JoinWrap.
Qed.

(** The write after a compensated stage: from the cursor [v] to that of [w]. *)
Lemma wp_checkpoint v seen w :
  v_status v = StatusCompensating -> run_at v seen w ->
  iStatus (w_inst w) = StatusCompensating ->
  Transition def id fence v seen (view_of (w_inst w)) ->
  wp (checkpoint env o) (fun r w' =>
    match r with
    | inl e => rollback_post (Some e) w'
    | inr _ => view_of (w_inst w') = view_of (w_inst w) /\ run_at (view_of (w_inst w')) [] w'
    end) w.
Proof using UpdateFrame0.
  intros Hv Hat Hc Ht. unfold checkpoint. apply wp_bind, wp_encodeInto.
  { intros e. apply wp_ret. by apply (interrupted_end _ v seen). }
  intros b. apply wp_bind. eapply wp_mono; [apply (wp_update v seen); [same_run Hat|done]|].
  cbv beta. intros e w2 [Hv2 Hat2]. apply wp_ret. destruct e; [|done].
  apply (interrupted_end _ v seen); [done| |done|done].
  assert (iStatus (w_inst w2) = v_status (view_of (w_inst w2))) as -> by done. by rewrite Hv2.
Qed.

Lemma wp_compensate_stage ex k w :
  mine ex -> 0 < k <= nstages -> rollback_ready k w ->
  wp (compensate_stage env o ex) (fun r w' =>
    match r with inl r => rollback_post r w' | inr _ => rollback_ready (k - 1) w' end) w.
Proof using UpdateFrame0 EnvLaws0.
  intros Hm Hk (Hc & Hst & Hp & Hat). unfold compensate_stage.
  apply wp_bind, wp_get. rewrite Hst. destruct (stage_of_index (k - 1)) as [st Hs]; [lia|].
  apply wp_bind. eapply wp_stage_index; [done|]. apply wp_bind.
  assert (view_of (w_inst w) = MkView StatusCompensating (k - 1 + 1) []) as Hv.
  { unfold view_of. rewrite Hc, Hst, Hp. f_equal. lia. }
  eapply wp_mono; [apply (wp_undo_run ex st (k - 1) (view_of (w_inst w))); [done| |done]|].
  { intros s r Hin. rewrite Hv. by eapply A_undo. }
  cbv beta. intros [[attempts completed] err] w2 (Hlen & Hi2 & seen & Hat2 & Hev).
  destruct err as [err|]; apply wp_bind.
  { eapply wp_mono; [apply (wp_compensationFailed err (view_of (w_inst w)) seen); rewrite ?Hi2; done|].
    intros r w3 Hr. by apply wp_ret. }
  apply wp_recordStage; [done|]. intros recs. apply wp_bind, wp_modi, wp_bind, wp_touch. intros t.
  apply wp_bind. set (w3 := set_inst _ _).
  assert (view_of (w_inst w3) = MkView StatusCompensating (k - 1) []) as Hv3.
  { unfold w3, view_of; cbn. by rewrite Hi2, Hst, Hc, Hp. }
  eapply wp_mono; [apply (wp_checkpoint (view_of (w_inst w)) seen)|].
  - done.
  - same_run Hat2.
  - unfold w3. cbn. by rewrite Hi2.
  - rewrite Hv3, Hv. eapply T_undo; [done|]. by apply Hev.
  - cbv beta. intros [e|[]] w4 Hr; apply wp_ret; [done|]. destruct Hr as [Hv4 Hat4].
    rewrite Hv3 in Hv4. injection Hv4 as ? ? ?. by split_and!.
Qed.

Lemma wp_compensate_done w :
  rollback_ready 0 w -> wp (compensate_done env) rollback_post w.
Proof using UpdateFrame0.
  intros (Hc & Hk & Hp & Hat). unfold compensate_done.
  apply wp_bind, wp_modi, wp_bind, wp_touch. intros t. apply wp_bind. set (w1 := set_inst _ _).
  assert (view_of (w_inst w1) = MkView StatusCompensated 0 []) as Hv1.
  { unfold w1, view_of; cbn. by rewrite Hk, Hp. }
  eapply wp_mono; [apply (wp_update (view_of (w_inst w)) [])|].
  - same_run Hat.
  - rewrite Hv1. unfold view_of. rewrite Hc, Hk, Hp. apply T_undone.
  - cbv beta. intros e w2 [Hv2 Hat2]. rewrite Hv1 in Hv2. injection Hv2 as ? ? ?. destruct e as [e|].
    + apply wp_bind, wp_modi, wp_ret.
      by apply (interrupted_end _ (view_of (w_inst w)) []); [| | |same_run Hat2].
    + apply wp_ret. right; right. by split_and!.
Qed.

Lemma wp_compensate_stages fuel ex k w :
  mine ex -> 0 <= k <= nstages -> k <= Z.of_nat fuel -> rollback_ready k w ->
  wp (compensate_stages env o fuel ex) rollback_post w.
Proof using UpdateFrame0 EnvLaws0.
  revert k w. induction fuel as [|fuel IH]; intros k w Hm Hk Hf Hready; cbn [compensate_stages].
  all: apply wp_bind, wp_get; rewrite (proj1 (proj2 Hready)).
  all: destruct (Z.ltb_spec 0 k); [|assert (k = 0) as -> by lia; by apply wp_compensate_done].
  { lia. }
  apply wp_bind. eapply wp_mono; [apply (wp_compensate_stage ex k); [done|lia|done]|].
  cbv beta. intros [r|[]] w' Hr; [by apply wp_ret|]. apply (IH (k - 1)); [done|lia|lia|done].
Qed.

Lemma wp_pick_steps steps p Q (w : W) :
  (forall i, i ∈ p -> 0 <= i < Z.of_nat (length steps)) ->
  (forall l, (forall s, s ∈ l <-> exists i, Z.of_nat i ∈ p /\ steps !! i = Some s) -> Q l w) ->
  wp (pick_steps (T:=T) (X:=X) steps p) Q w.
Proof.
  revert Q. induction p as [|i p IH]; intros Q Hr HQ; cbn [pick_steps].
  { apply wp_ret, HQ. intros s. split; [by intros []%not_elem_of_nil|by intros (i & []%not_elem_of_nil & _)]. }
  destruct (Hr i) as [Hi0 Hi]; [left|]. destruct (lookup_lt_is_Some_2 steps (Z.to_nat i)) as [s Hs]; [lia|].
  apply wp_bind. eapply wp_index; [lia|done|]. apply wp_bind.
  apply IH; [intros j Hj; apply Hr; by right|]. intros l Hl. apply wp_ret, HQ. intros s'.
  rewrite elem_of_cons, Hl. split.
  - intros [->|(j & Hj & Hs')]; [exists (Z.to_nat i)|exists j]; (split; [|done]); [|by right].
    rewrite Z2Nat.id by lia. left.
  - intros (j & [<-|Hj]%elem_of_cons & Hs'); [|right; eauto]. rewrite Nat2Z.id in Hs. left. congruence.
Qed.

Lemma wp_compensate_pending ex w :
  mine ex -> iStatus (w_inst w) = StatusCompensating -> pending_ok (view_of (w_inst w)) ->
  run_at (view_of (w_inst w)) [] w ->
  wp (compensate_pending env o ex) (fun r w' =>
    match r with
    | inl r => rollback_post r w'
    | inr _ => rollback_ready (iStage (w_inst w)) w'
    end) w.
Proof using UpdateFrame0 EnvLaws0.
  intros Hm Hc [Hk Hpend] Hat. unfold compensate_pending. apply wp_bind, wp_get.
  destruct (iPendingSteps (w_inst w)) as [|i0 rest] eqn:Hp; [by apply wp_ret|].
  destruct Hpend as [Hn|(st & Hst & Hr)]; [cbn in Hn; congruence|]. cbn in Hst, Hr. rewrite Hp in Hr.
  apply wp_bind. eapply wp_stage_index; [done|]. apply wp_bind, wp_pick_steps; [done|]. intros steps Hsteps.
  apply wp_bind. set (pend := MkStage (stName st) steps false).
  assert (view_of (w_inst w) = MkView StatusCompensating (iStage (w_inst w)) (i0 :: rest)) as Hv.
  { unfold view_of. by rewrite Hc, Hp. }
  eapply wp_mono; [apply (wp_undo_run ex pend _ (view_of (w_inst w))); [done| |done]|].
  { intros s r Hin%Hsteps. rewrite Hv. by eapply A_undo_pending. }
  cbv beta. intros [[attempts completed] err] w2 (Hlen & Hi2 & seen & Hat2 & Hev).
  destruct err as [err|]; apply wp_bind.
  { eapply wp_mono; [apply (wp_compensationFailed err (view_of (w_inst w)) seen); rewrite ?Hi2; done|].
    intros r w3 Hr3. by apply wp_ret. }
  apply wp_recordStage; [done|]. intros recs. apply wp_bind, wp_modi, wp_bind. set (w3 := set_inst _ _).
  assert (view_of (w_inst w3) = MkView StatusCompensating (iStage (w_inst w)) []) as Hv3.
  { unfold w3, view_of; cbn. by rewrite Hi2, Hc. }
  eapply wp_mono; [apply (wp_checkpoint (view_of (w_inst w)) seen)|].
  - done.
  - same_run Hat2.
  - unfold w3. cbn. by rewrite Hi2.
  - rewrite Hv3, Hv. eapply T_undo_pending; [done|done|]. intros s Hs. apply Hev; [done|]. by apply Hsteps.
  - cbv beta. intros [e|[]] w4 Hr4; apply wp_ret; [done|]. destruct Hr4 as [Hv4 Hat4].
    rewrite Hv3 in Hv4. injection Hv4 as ? ? ?. by split_and!.
Qed.

Lemma wp_compensate ex w :
  mine ex -> iStatus (w_inst w) = StatusCompensating -> pending_ok (view_of (w_inst w)) ->
  run_at (view_of (w_inst w)) [] w ->
  wp (compensate env o (stage_fuel o) ex) rollback_post w.
Proof using UpdateFrame0 EnvLaws0.
  intros Hm Hc Hp Hat. unfold compensate. apply wp_bind.
  eapply wp_mono; [by apply wp_compensate_pending|]. cbv beta. intros [r|[]] w' Hr; [by apply wp_ret|].
  destruct Hp as [Hk _]. cbn in Hk. eapply wp_compensate_stages; [done|exact Hk| |done].
  unfold stage_fuel. lia.
Qed.

(** ** [drive] *)

(** How an invocation ends: interrupted, with the instance left for recovery,
    or in a terminal state it has written. *)
Definition drive_post (r : option error) (w : W) : Prop :=
  (r <> None /\ IsTerminal (iStatus (w_inst w)) = false /\
     exists v seen, run_at v seen w /\ v_status v = iStatus (w_inst w)) \/
  (IsTerminal (iStatus (w_inst w)) = true /\ run_at (view_of (w_inst w)) [] w /\
     (iStatus (w_inst w) = StatusCompleted -> r = None) /\
     (iStatus (w_inst w) = StatusFailed -> r <> None)).

Lemma wp_fireDeadLetter w :
  iStatus (w_inst w) = StatusFailed -> run_at (view_of (w_inst w)) [] w ->
  wp (fireDeadLetter o) (fun _ w' => w_inst w' = w_inst w /\ run_at (view_of (w_inst w)) [] w') w.
Proof.
  intros Hf Hat. unfold fireDeadLetter. destruct (o_onDeadLetter o) as [hook|]; [|by apply wp_ret].
  apply wp_bind, wp_get, wp_bind, wp_mod. apply wp_mod. split; [done|].
  apply (run_at_eq _ _ (SagaEngine.log (EvDeadLetter (w_inst w)) w)); [done|done|]. by apply run_at_dead.
Qed.

Lemma wp_drive_rollback ex trigger w :
  mine ex -> iStatus (w_inst w) = StatusCompensating -> pending_ok (view_of (w_inst w)) ->
  run_at (view_of (w_inst w)) [] w ->
  wp (drive_rollback env o ex trigger) drive_post w.
Proof using UpdateFrame0 EnvLaws0.
  intros Hm Hc Hp Hat. unfold drive_rollback. apply wp_bind, wp_get.
  rewrite bool_decide_eq_true_2 by done. apply wp_bind.
  eapply wp_mono; [by apply wp_compensate|]. cbv beta.
  intros r w' [(Hr & Hs & v & seen & Hat' & Hv)|[((e & -> & _) & Hs & Hat')|(-> & Hs & Hat')]].
  - destruct r as [e|]; [|done]. apply wp_bind, wp_get, wp_bind.
    rewrite bool_decide_eq_false_2 by congruence. apply wp_ret, wp_ret. left.
    rewrite Hs. split_and!; [done|done|]. exists v, seen. by rewrite Hv.
  - apply wp_bind, wp_get, wp_bind. rewrite bool_decide_eq_true_2 by done.
    eapply wp_mono; [by apply wp_fireDeadLetter|]. cbv beta. intros _ w2 [Hi2 Hat2]. apply wp_ret.
    right. rewrite Hi2, Hs. by split_and!.
  - apply wp_ret. right. rewrite Hs. by split_and!.
Qed.

Lemma wp_drive ex w :
  mine ex -> IsTerminal (iStatus (w_inst w)) = false -> pending_ok (view_of (w_inst w)) ->
  (iStage (w_inst w) = nstages -> iPendingSteps (w_inst w) = []) ->
  run_at (view_of (w_inst w)) [] w ->
  wp (drive env o ex) drive_post w.
Proof using UpdateFrame0 EnvLaws0.
  intros Hm Hnt Hp Hlast Hat. unfold drive. apply wp_bind, wp_get.
  destruct (iStatus (w_inst w)) eqn:Hs; try done.
  2: { by apply wp_drive_rollback. }
  rewrite bool_decide_eq_true_2 by done. apply wp_bind.
  pose proof (proj1 Hp) as Hk. cbn in Hk.
  eapply wp_mono; [apply (wp_runForward _ ex (iStage (w_inst w))); [done|apply Hp|unfold stage_fuel; lia|]|].
  { split_and!; done. }
  cbv beta. intros r w' [[Hr Hend]|(-> & Hc & Hat')]; apply wp_bind, wp_get.
  2: { apply wp_ret. right. rewrite Hc. by split_and!. }
  destruct r as [e|]; [|done]. destruct Hend as [(Hc & v & seen & Hat' & Hv)|[(Hc & Hat' & Hp')|(Hc & Hat')]]; rewrite Hc.
  - rewrite !bool_decide_eq_false_2 by done. apply wp_ret. left. rewrite Hc. split_and!; eauto.
  - rewrite bool_decide_eq_false_2, bool_decide_eq_true_2 by done. by apply wp_drive_rollback.
  - rewrite bool_decide_eq_true_2 by done. apply wp_bind.
    eapply wp_mono; [by apply wp_fireDeadLetter|]. cbv beta. intros _ w2 [Hi2 Hat2]. apply wp_ret.
    right. rewrite Hi2, Hc. by split_and!.
Qed.
End refine.
End SagaRefine.
