(* ===== verification/SagaTheorems.v ===== *)
(** What the saga engine guarantees: the properties of [execute_owned], the part
    of [execute] (data/saga/execution.go) that runs once the lease is held, of
    the entry points [Start], [Resume] and [runRecoveryCycleInternal], and of
    ownership over a lawful store. *)

From stdpp Require Import pretty.
From S2P Require Import Prelude Retry SagaStore SagaDef SagaEngine SagaSteps SagaProtocol SagaRefine.
Local Open Scope go_scope.

Module SagaTheorems.
Import SagaStore SagaDef SagaEngine SagaSteps SagaProtocol SagaRefine.

Section theorems.
Context {S T X : Type} `{Storage S, !UpdateFrame S} (env : Env S) `{!EnvLaws env} (o : Orchestrator T X).
Local Abbreviation W := (World S T X).
Local Abbreviation def := (o_def o).

(** An instance [execute] accepts. *)
Definition ready (i : Instance) : bool :=
  negb (IsTerminal (iStatus i)) && negb (bad_stage o i) && bool_decide (bad_pending o i = None).

Lemma filter_head_None {A} (P : A -> Prop) `{forall x, Decision (P x)} (l : list A) :
  head (filter P l) = None -> forall x, x ∈ l -> ~ P x.
Proof.
  intros Hh x Hx HP. assert (x ∈ filter P l) as Hin by (by apply list_elem_of_filter).
  destruct (filter P l); [by apply not_elem_of_nil in Hin|done].
Qed.

Lemma ready_spec i :
  ready i = true ->
  IsTerminal (iStatus i) = false /\ pending_ok o (view_of i) /\
  (iStage i = Z.of_nat (length (dStages def)) -> iPendingSteps i = []).
Proof.
  unfold ready. rewrite !andb_true_iff, !negb_true_iff, bool_decide_eq_true.
  intros [[Hnt Hst] Hp]. unfold bad_stage in Hst. apply orb_false_iff in Hst as [Hst Hlast].
  apply orb_false_iff in Hst as [Hlo Hhi].
  split; [done|]. split; [split; [cbn; lia|]|].
  - destruct (iPendingSteps i) as [|i0 rest] eqn:E; [by left|right]. cbn in *. rewrite E.
    destruct (stage_of_index o (iStage i)) as [st Hstage]; [lia|]. exists st. split; [done|].
    intros j Hj. unfold bad_pending in Hp. rewrite E in Hp.
    pose proof (filter_head_None _ _ Hp j Hj) as Hn. cbv beta in Hn.
    unfold stage_at in Hn. destruct (Z.ltb_spec (iStage i) 0); [lia|].
    destruct Hstage as [_ Hlk]. rewrite Hlk in Hn. cbn in Hn. lia.
  - intros E. rewrite E, Z.eqb_refl, andb_true_r in Hlast.
    by destruct (iPendingSteps i).
Qed.

(** How an owned invocation ends, with [v] the last state it persisted. *)
Definition owned_end (r : option error) (i : Instance) (v : view) : Prop :=
  (IsTerminal (v_status v) = false /\ IsTerminal (iStatus i) = false /\ r <> None) \/
  (IsTerminal (v_status v) = true /\ v = view_of i /\
   (v_status v = StatusCompleted -> r = None) /\ (v_status v = StatusFailed -> r <> None)).

Definition owned_post (w0 : W) (v0 : view) (r : option error) (w : W) : Prop :=
  exists v seen, run_at o w0 v0 (iID (w_inst w0)) (iVersion (w_inst w0)) v seen w /\ owned_end r (w_inst w) v.

Lemma drive_post_owned w0 v0 r w :
  drive_post o w0 v0 (iID (w_inst w0)) (iVersion (w_inst w0)) r w -> owned_post w0 v0 r w.
Proof.
  intros [(Hr & Hnt & v & seen & Hat & Hv)|(Ht & Hat & Hc & Hf)].
  - exists v, seen. split; [done|]. left. by rewrite Hv.
  - exists (view_of (w_inst w)), []. split; [done|]. by right.
Qed.

Lemma wp_execute_owned recovering t w :
  ready (w_inst w) = true ->
  wp (execute_owned env o recovering t) (owned_post w (view_of (w_inst w))) w.
Proof using UpdateFrame0 EnvLaws0.
  intros (Hnt & Hp & Hlast)%ready_spec. unfold execute_owned. apply wp_bind, wp_get.
  set (v0 := view_of (w_inst w)). set (id := iID (w_inst w)). set (fence := iVersion (w_inst w)).
  assert (run_at o w v0 id fence v0 [] w) as Hat.
  { split; [done|]. exists []. split_and!; [by rewrite app_nil_r|constructor|done]. }
  destruct (rolls_back _ _ _ _) eqn:Hroll.
  2: { eapply wp_mono; [by apply (wp_drive env o w v0 id fence)|]. apply drive_post_owned. }
  unfold rolls_back in Hroll. rewrite !andb_true_iff, bool_decide_eq_true in Hroll.
  destruct Hroll as [[[[_ Hrun] _] _] Hpiv].
  apply wp_bind, wp_modi, wp_bind, wp_modi, wp_bind. set (w1 := set_inst _ _).
  assert (view_of (w_inst w1) = MkView StatusCompensating (v_stage v0) (v_pending v0)) as Hv1 by done.
  eapply wp_mono; [apply (wp_update env o w v0 id fence v0 [])|].
  - by eapply run_at_eq, Hat.
  - rewrite Hv1. unfold v0, view_of. rewrite Hrun. apply T_rollback. cbn. lia.
  - cbv beta. intros e w2 [Hv2 Hat2]. rewrite Hv1 in Hv2. injection Hv2 as Hs2 Hk2 Hp2. destruct e as [e|].
    + apply wp_ret. exists v0, []. split; [done|]. left. rewrite Hs2. unfold v0. cbn. by rewrite Hrun.
    + eapply wp_mono; [apply (wp_drive env o w v0 id fence); try done|apply drive_post_owned].
      * by rewrite Hs2.
      * unfold pending_ok in *. cbn. by rewrite Hk2, Hp2.
      * rewrite Hk2, Hp2. done.
Qed.

(** C1: the engine refines the saga protocol.  An invocation that owns a valid,
    unfinished instance always returns, whatever its surroundings, other
    executors and callbacks do; what it persists and calls is a run of the
    protocol from the state it read; it reports success exactly in line with
    the terminal state it persisted, and an error when it leaves the instance
    unfinished. *)
Theorem execute_refines_protocol recovering t w :
  ready (w_inst w) = true ->
  exists r w' l v,
    execute_owned env o recovering t w = Some (r, w') /\ w_log w' = w_log w ++ l /\
    protocol def (iID (w_inst w)) (iVersion (w_inst w)) (view_of (w_inst w)) [] l v /\
    owned_end r (w_inst w') v.
Proof using UpdateFrame0 EnvLaws0.
  intros Hr. destruct (wp_run _ _ _ (wp_execute_owned recovering t w Hr))
    as (r & w' & Hrun & v & seen & (_ & l & Hl & Hp & _) & Hend). by exists r, w', l, v.
Qed.

Local Abbreviation id_of w := (iID (w_inst w)).
Local Abbreviation fence_of w := (iVersion (w_inst w)).

(** The protocol run of an invocation that ends in a terminal state. *)
Lemma owned_run recovering t w :
  ready (w_inst w) = true ->
  exists r w' l v,
    execute_owned env o recovering t w = Some (r, w') /\ w_log w' = w_log w ++ l /\
    protocol def (id_of w) (fence_of w) (view_of (w_inst w)) [] l v /\ owned_end r (w_inst w') v /\
    (IsTerminal (iStatus (w_inst w')) = true -> v_status v = iStatus (w_inst w')).
Proof using UpdateFrame0 EnvLaws0.
  intros Hr. destruct (wp_run _ _ _ (wp_execute_owned recovering t w Hr))
    as (r & w' & Hrun & v & seen & (_ & l & Hl & Hp & _) & Hend).
  exists r, w', l, v. split_and!; [done..|]. intros Ht.
  destruct Hend as [(_ & Hnt & _)|(_ & -> & _)]; [congruence|done].
Qed.


(** completion is earned.  When an invocation leaves the saga [Completed]
    it was running, it reports success, it compensated nothing, and every step
    of every stage from its cursor on was called with success. *)
Theorem completed_all_steps recovering t w :
  ready (w_inst w) = true ->
  exists r w' l,
    execute_owned env o recovering t w = Some (r, w') /\ w_log w' = w_log w ++ l /\
    (iStatus (w_inst w') = StatusCompleted ->
     r = None /\ iStatus (w_inst w) = StatusRunning /\
     (forall ev, ev ∈ l -> ~ is_undo (id_of w) (fence_of w) ev) /\
     (forall k st s, stage_of def k st -> s ∈ stSteps st -> iStage (w_inst w) <= k ->
        fwd (id_of w) (fence_of w) k (sName s) Ok ∈ l)).
Proof using UpdateFrame0 EnvLaws0.
  intros Hr. destruct (owned_run recovering t w Hr) as (r & w' & l & v & Hrun & Hl & Hp & Hend & Hv).
  apply ready_spec in Hr as (Hnt & _).
  exists r, w', l. split_and!; [done..|]. intros Hc. rewrite Hc in Hv. specialize (Hv eq_refl).
  assert (iStatus (w_inst w) = StatusRunning) as Hs.
  { destruct (iStatus (w_inst w)) eqn:E; try done.
    destruct (rollback_bound _ _ _ _ _ _ _ Hp E) as [[?|[?|?]] _]; congruence. }
  split_and!; [|done| |].
  - destruct Hend as [(Ht & _)|(_ & _ & Hn & _)]; [by rewrite Hv in Ht|by apply Hn].
  - intros ev Hev Hu. destruct (protocol_undo_end _ _ _ _ _ _ _ _ Hp Hev Hu) as [?|[?|?]]; congruence.
  - intros k st s Hst Hs' Hk.
    by apply (protocol_completes _ _ _ _ _ _ _ k st s Hp Hs Hv Hk Hst Hs').
Qed.

(** C25: the pivot is a point of no return.  If an invocation compensates
    anything, none of its forward calls was at or after the pivot stage; and an
    invocation that starts running at or after the pivot compensates nothing
    and ends running, completed or failed. *)
Theorem pivot_no_return recovering t w :
  ready (w_inst w) = true ->
  exists r w' l,
    execute_owned env o recovering t w = Some (r, w') /\ w_log w' = w_log w ++ l /\
    (forall ev k nm res, ev ∈ l -> is_undo (id_of w) (fence_of w) ev ->
       fwd (id_of w) (fence_of w) k nm res ∈ l -> k < dPivotIdx def) /\
    (iStatus (w_inst w) = StatusRunning -> dPivotIdx def <= iStage (w_inst w) ->
       (forall ev, ev ∈ l -> ~ is_undo (id_of w) (fence_of w) ev) /\
       iStatus (w_inst w') <> StatusCompensated).
Proof using UpdateFrame0 EnvLaws0.
  intros Hr. destruct (owned_run recovering t w Hr) as (r & w' & l & v & Hrun & Hl & Hp & _ & Hv).
  exists r, w', l. split_and!; [done|done| |].
  - intros ev k nm res Hev Hu Hf. by apply (protocol_before_pivot _ _ _ _ _ _ _ _ _ _ _ Hp Hev Hu Hf).
  - intros Hs Hk. destruct (protocol_pivot _ _ _ _ _ _ _ Hp Hs Hk) as (Hno & _ & Hc).
    split; [done|]. intros E. rewrite E in Hv. by rewrite Hv in Hc.
Qed.

(** rollback runs backwards.  After a compensation the invocation makes no
    forward call, and no compensation of a later stage. *)
Theorem rollback_reverse_order recovering t w :
  ready (w_inst w) = true ->
  exists r w' l,
    execute_owned env o recovering t w = Some (r, w') /\ w_log w' = w_log w ++ l /\
    forall l1 k nm res l2, l = l1 ++ undo (id_of w) (fence_of w) k nm res :: l2 ->
      forall ev, ev ∈ l2 ->
        ~ is_fwd (id_of w) (fence_of w) ev /\
        (forall k' nm' res', ev = undo (id_of w) (fence_of w) k' nm' res' -> k' <= k).
Proof using UpdateFrame0 EnvLaws0.
  intros Hr. destruct (owned_run recovering t w Hr) as (r & w' & l & v & Hrun & Hl & Hp & _).
  exists r, w', l. split_and!; [done..|]. intros l1 k nm res l2 ->.
  by apply (protocol_reverse _ _ _ _ _ _ _ _ _ _ _ Hp).
Qed.

(** C26: intent is written ahead.  Every call is made under a persisted state
    that announces it: a forward call of a step of stage [k] only when the last
    state written (or read at the start) is [Running] at [k] with every step of
    the stage pending, a compensation only when it is [Compensating]. *)
Theorem intent_written_ahead recovering t w :
  ready (w_inst w) = true ->
  exists r w' l,
    execute_owned env o recovering t w = Some (r, w') /\ w_log w' = w_log w ++ l /\
    forall l1 ex c nm res l2, l = l1 ++ EvCall ex c nm res :: l2 ->
      let v := last_view (view_of (w_inst w)) l1 in
      (c = false -> exists st, stage_of def (eStage ex) st /\ nm ∈ sName <$> stSteps st /\
         v = MkView StatusRunning (eStage ex) (all_steps st)) /\
      (c = true -> v_status v = StatusCompensating /\ eStage ex = undo_stage v) /\
      eInstanceID ex = id_of w /\ eFence ex = fence_of w /\
      eStepKey ex = step_key (id_of w) (eStage ex) nm.
Proof using UpdateFrame0 EnvLaws0.
  intros Hr. destruct (owned_run recovering t w Hr) as (r & w' & l & v & Hrun & Hl & Hp & _).
  exists r, w', l. split_and!; [done..|]. intros l1 ex c nm res l2 -> v1.
  apply protocol_allowed in Hp. fold v1 in Hp.
  remember (EvCall ex c nm res) as ev eqn:E.
  destruct Hp as [k st s r' Hst Hs|k st p s r' Hst Hs|k st s r' Hst Hs];
    injection E as <- <- <- <-; cbn; (split_and!; [..|done|done|done]); try done.
  - intros _. exists st. split_and!; [done| |done]. apply list_elem_of_fmap. eauto.
  - intros _. split; [done|]. unfold undo_stage; cbn. destruct p; [by apply picked_nil in Hs|done].
  - intros _. split; [done|]. unfold undo_stage; cbn. lia.
Qed.

(** ** The entry points *)

Lemma wp_on_store {A} (op : S -> A * S) (Q : A -> W -> Prop) w :
  (forall a s, op (env_others env (w_tick w) (w_store w)) = (a, s) -> Q a (set_store s (tick w))) ->
  wp (on_store env op) Q w.
Proof. intros HQ. unfold wp, on_store. destruct (op _) eqn:E. by apply HQ. Qed.

Lemma wp_bs_update_total ctx i (w : W) (Q : option error * Instance -> W -> Prop) :
  (forall w, wp ctx (fun _ _ => True) w) -> (forall a w', Q a w') -> wp (bs_update env ctx i) Q w.
Proof.
  intros Hc HQ. unfold bs_update. apply wp_bind. eapply wp_mono; [apply Hc|]. cbv beta.
  intros [e|] w1 _; [by apply wp_ret|]. apply wp_bind, wp_on_store. intros [[e|] i'] s _; [by apply wp_ret|].
  by apply wp_bind, wp_mod, wp_ret.
Qed.

Lemma wp_release owner err (w : W) : wp (release env owner err) (fun _ _ => True) w.
Proof.
  unfold release. apply wp_bind, wp_get, wp_bind, wp_on_store. intros [e|cur] s _; [by apply wp_ret|].
  case_match; [|by apply wp_ret]. apply wp_bind, wp_sense, wp_bind, wp_bs_update_total; [done|].
  intros [[e|] cur'] w'; [by apply wp_ret|]. by apply wp_bind, wp_modi, wp_ret.
Qed.

Lemma wp_update_frame (w : W) :
  wp (update env) (fun _ w' => exists n, w_inst w' = set_version n (w_inst w)) w.
Proof using UpdateFrame0.
  assert (exists n, w_inst w = set_version n (w_inst w)) as Hself.
  { exists (iVersion (w_inst w)). by destruct (w_inst w). }
  unfold update, bs_update. apply wp_bind, wp_get, wp_bind, wp_bind, wp_run_ctx_err.
  destruct (env_run_ctx _ _ _) as [e|]; [by apply wp_ret, wp_bind, wp_modi, wp_ret|].
  apply wp_bind, wp_on_store. intros [r i'] s E.
  pose proof (update_frame (w_inst w) (env_others env (w_tick (tick w)) (w_store (tick w)))) as Hf.
  rewrite E in Hf. cbn in Hf. destruct r as [e|].
  - apply wp_ret, wp_bind, wp_modi, wp_ret. cbn. eauto.
  - apply wp_bind, wp_mod, wp_ret, wp_bind, wp_modi, wp_ret. cbn. eauto.
Qed.

Lemma ready_lease i owner until n : ready (set_version n (set_lease owner until i)) = ready i.
Proof. done. Qed.

Lemma wp_execute recovering w :
  IsTerminal (iStatus (w_inst w)) = false -> wp (execute env o recovering) (fun _ _ => True) w.
Proof using UpdateFrame0 EnvLaws0.
  intros Hnt. unfold execute. apply wp_bind, wp_get. destruct (bad_stage o (w_inst w)) eqn:Hbs; [by apply wp_ret|].
  destruct (bad_pending o (w_inst w)) eqn:Hbp; [by apply wp_ret|].
  apply wp_bind, wp_sense. case_match; [by apply wp_ret|].
  apply wp_bind, wp_mod, wp_bind, wp_sense, wp_bind, wp_sense, wp_bind, wp_sense, wp_bind, wp_modi, wp_bind.
  eapply wp_mono; [apply wp_update_frame|]. cbv beta. intros [e|] w2 [n Hn]; [by apply wp_ret|].
  apply wp_bind. eapply wp_mono; [apply wp_execute_owned|intros; apply wp_release].
  rewrite Hn. cbn [w_inst set_inst]. rewrite ready_lease. cbn [w_inst tick next_run].
  unfold ready. by rewrite Hnt, Hbs, Hbp.
Qed.

Lemma wp_run_current recovering w :
  IsTerminal (iStatus (w_inst w)) = false -> wp (run_current env o recovering) (fun _ _ => True) w.
Proof using UpdateFrame0 EnvLaws0.
  intros Hnt. unfold run_current. apply wp_bind. eapply wp_mono; [by apply wp_execute|]. done.
Qed.

Lemma wp_Resume id w : wp (Resume env o id) (fun _ _ => True) w.
Proof using UpdateFrame0 EnvLaws0.
  unfold Resume. case_match; [by apply wp_ret|]. apply wp_bind, wp_on_store.
  intros [e|inst] s _; [by apply wp_ret|]. case_match; [by apply wp_ret|].
  destruct (IsTerminal (iStatus inst)) eqn:Ht; [by apply wp_ret|]. case_match; [by apply wp_ret|].
  apply wp_bind, wp_bind, wp_modi, wp_mod. by apply wp_run_current.
Qed.

Lemma wp_recoverInstance inst w : wp (recoverInstance env o inst) (fun _ _ => True) w.
Proof using UpdateFrame0 EnvLaws0.
  unfold recoverInstance. apply wp_bind, wp_on_store. intros [e|cur] s _; [by apply wp_ret|].
  destruct (IsTerminal (iStatus cur)) eqn:Ht; cbn [orb]; [by apply wp_ret|].
  case_match; [by apply wp_ret|]. case_match; [by apply wp_ret|].
  apply wp_bind, wp_bind, wp_modi, wp_mod, wp_bind. eapply wp_mono; [by apply wp_execute|]. done.
Qed.

Lemma wp_recover_all insts failures w : wp (recover_all env o insts failures) (fun _ _ => True) w.
Proof using UpdateFrame0 EnvLaws0.
  revert failures w. induction insts as [|inst insts IH]; intros failures w; cbn [recover_all].
  { by apply wp_bind, wp_sense, wp_ret. }
  apply wp_bind, wp_sense. case_match; [by apply wp_ret|]. case_match; [apply IH|].
  apply wp_bind. eapply wp_mono; [apply wp_recoverInstance|]. intros. apply IH.
Qed.

(** C31: the entry points always return.  [Start], [Resume] and a recovery cycle
    never panic and never loop, whatever is in the store (corrupt cursors and
    pending lists included), whatever other executors do to it, and whatever
    the user's actions return or panic with. *)
Theorem entry_points_total id t w :
  is_Some (Start env o id t w) /\ is_Some (Resume env o id w) /\
  is_Some (runRecoveryCycleInternal env o w).
Proof using UpdateFrame0 EnvLaws0.
  assert (forall A (m : M W A), wp m (fun _ _ => True) w -> is_Some (m w)) as Hsome.
  { intros A m (a & w' & E & _)%wp_run. by rewrite E. }
  split_and!; apply Hsome.
  - unfold Start. case_match; [by apply wp_ret|]. case_match; [by apply wp_ret|].
    apply wp_bind, wp_sense, wp_bind, wp_on_store. intros [e|] s' _.
    + case_match; [apply wp_Resume|by apply wp_ret].
    + apply wp_bind, wp_bind, wp_modi, wp_mod. by apply wp_run_current.
  - apply wp_Resume.
  - unfold runRecoveryCycleInternal. case_match; [by apply wp_ret|].
    apply wp_bind, wp_sense, wp_bind, wp_on_store. intros [e|[|i l]] s' _; [by apply wp_ret..|].
    apply wp_recover_all.
Qed.

(** one step.  A forward step calls its action at most
    [max(1, MaxAttempts)] times, always under the same idempotency key; it
    reports the number of calls it made, success exactly when the last call
    succeeded, and no call follows a success. *)
Theorem run_step_calls ex s w :
  exists n e w' fails last,
    runStep env o ex s w = Some ((n, e), w') /\
    w_log w' = w_log w ++ fails ++ last /\ w_inst w' = w_inst w /\
    Forall (failed_call false ex s) fails /\
    last = match e with None => [call_of false ex s Ok] | Some _ => [] end /\
    n = Z.of_nat (length (fails ++ last)) /\ n <= Z.max 1 (MaxAttempts (step_policy o s)).
Proof.
  destruct (wp_run _ _ _ (wp_retried env o ex false s (sAction s) (step_policy o s) w))
    as ([n e] & w' & Hrun & fails & last & [(_ & Hi & _) Hl] & Hf & Hlast & Hn & Hmax).
  exists n, e, w', fails, last. split_and!; try done.
  unfold maxRetries in Hmax. cbn in Hmax. destruct (Z.leb_spec (MaxAttempts (step_policy o s)) 1); lia.
Qed.

(** ** Ownership *)

(** a stale executor does nothing.  An invocation whose copy of the
    instance is older than the stored one (another executor acquired or wrote
    it since) ends with an error, without writing and without calling any
    action or compensation. *)
Theorem stale_executor_excluded `{!StorageLaws S} recovering w :
  (forall k, exists m cur, holds (env_others env k (w_store w)) m /\
     m !! iID (w_inst w) = Some cur /\ iVersion cur <> iVersion (w_inst w)) ->
  exists e w', execute env o recovering w = Some (Some e, w') /\ w_log w' = w_log w.
Proof.
  intros Hstale.
  cut (wp (execute env o recovering) (fun r w' => r <> None /\ w_log w' = w_log w) w).
  { intros ([e|] & w' & Hrun & Hr & Hl)%wp_run; [by exists e, w'|done]. }
  unfold execute. apply wp_bind, wp_get. case_match; [by apply wp_ret|].
  case_match; [by apply wp_ret|]. apply wp_bind, wp_sense. case_match; [by apply wp_ret|].
  apply wp_bind, wp_mod, wp_bind, wp_sense, wp_bind, wp_sense, wp_bind, wp_sense, wp_bind, wp_modi, wp_bind.
  unfold update, bs_update. apply wp_bind, wp_get, wp_bind, wp_bind, wp_run_ctx_err.
  destruct (env_run_ctx _ _ _) as [e|]; [by apply wp_ret, wp_bind, wp_modi, wp_ret, wp_ret|].
  apply wp_bind, wp_on_store. intros [r i'] s E. cbn in E.
  match type of E with Update ?i (env_others _ ?k _) = _ =>
    destruct (Hstale k) as (m & cur & Hm & Hc & Hv);
    destruct (Update_conflict i cur _ m Hm Hc Hv) as (s' & E' & _) end.
  rewrite E' in E. simplify_eq.
  apply wp_ret, wp_bind, wp_modi, wp_ret, wp_ret. done.
Qed.
End theorems.

(** ** A concrete saga

    Two stages before the pivot, the second a parallel group one of whose steps
    fails: the run rolls back.  The memory store, a live context and a clock
    that ticks. *)

Definition sample_env : Env (gmap string Instance) :=
  MkEnv (fun k => 1000 + Z.of_nat k) (fun _ => "token") (fun _ _ => None) (fun _ => None) (fun _ => None)
    (fun _ => None) (fun _ => None) (fun _ _ => Some 5) (fun _ _ => 0) (fun k j => (k + j)%nat) 2 (fun _ s => s).

#[export] Instance sample_laws : EnvLaws sample_env.
Proof. split; done. Qed.

#[export] Instance sample_storage : Storage (gmap string Instance) := Memory.memory_storage map_to_list.

#[export] Instance sample_frame : UpdateFrame (gmap string Instance).
Proof. apply (Memory.memory_update_frame map_to_list). Qed.

#[export] Instance sample_storage_laws : StorageLaws (gmap string Instance) :=
  Memory.memory_laws map_to_list (fun m => Permutation_refl _).

Definition fail_action : StepFunc nat nat := fun _ _ t x => (Err (ErrExt 7 "no stock"), t, x).

Definition sample_def (last : StepFunc nat nat) : SagaDefinition nat nat :=
  MkDefinition "order"
    [MkStage "reserve" [Compensate done_action (NewStep "reserve" done_action)] false;
     MkStage "notify" [Compensate done_action (NewStep "mail" done_action); NewStep "stock" last] true;
     MkStage "pay" [Pivot (NewStep "pay" done_action)] false]
    2 ["stock"] PolicyWarn.

Definition sample_orchestrator (last : StepFunc nat nat) : Orchestrator nat nat :=
  MkOrchestrator (sample_def last) (fun t => inr (pretty t)) (fun _ => inr 0%nat) 0%nat
    30 0 (MkRetryPolicy 2 1 10) 3 0 300 30 100 None None None.

Definition sample_instance : Instance :=
  MkInstance "o-1" "order" StatusRunning 0 [] EmptyString [] 1 1 0 EmptyString 0 4 EmptyString.

Definition sample_world : World (gmap string Instance) nat nat :=
  MkWorld {["o-1" := sample_instance]} 0 0 sample_instance 0%nat 0%nat [].

(** The status an owned run of the sample ends with, and how many calls of each
    kind it makes. *)
Definition outcome_of (last : StepFunc nat nat) : option (Status * nat * nat) :=
  match execute_owned sample_env (sample_orchestrator last) false 0 sample_world with
  | Some (_, w) => Some (iStatus (w_inst w),
      length (filter (fun ev => match ev with EvCall _ false _ _ => true | _ => false end = true) (w_log w)),
      length (filter (fun ev => match ev with EvCall _ true _ _ => true | _ => false end = true) (w_log w)))
  | None => None
  end.

Example sample_completes : outcome_of done_action = Some (StatusCompleted, 4%nat, 0%nat).
Proof. vm_compute. reflexivity. Qed.

Example sample_rolls_back : outcome_of fail_action = Some (StatusCompensated, 4%nat, 2%nat).
Proof. vm_compute. reflexivity. Qed.

Definition sample_o : Orchestrator nat nat := sample_orchestrator fail_action.

Lemma execute_refines_protocol_witness :
  exists r w' l v,
    execute_owned sample_env sample_o false 0 sample_world = Some (r, w') /\ w_log w' = [] ++ l /\
    protocol (sample_def fail_action) "o-1" 4 (MkView StatusRunning 0 []) [] l v /\
    owned_end r (w_inst w') v.
Proof. apply (execute_refines_protocol sample_env sample_o false 0 sample_world). reflexivity. Defined.


Lemma completed_all_steps_witness :
  exists r w' l,
    execute_owned sample_env (sample_orchestrator done_action) false 0 sample_world = Some (r, w') /\
    w_log w' = [] ++ l /\ (iStatus (w_inst w') = StatusCompleted -> r = None).
Proof.
  destruct (completed_all_steps sample_env (sample_orchestrator done_action) false 0 sample_world)
    as (r & w' & l & H1 & H2 & H3); [reflexivity|].
  exists r, w', l. split; [exact H1|]. split; [exact H2|]. intros Hc. exact (proj1 (H3 Hc)).
Defined.

Lemma pivot_no_return_witness :
  exists r w' l,
    execute_owned sample_env sample_o false 0 sample_world = Some (r, w') /\ w_log w' = [] ++ l /\
    forall ev k nm res, ev ∈ l -> is_undo "o-1" 4 ev -> fwd "o-1" 4 k nm res ∈ l -> k < 2.
Proof.
  destruct (pivot_no_return sample_env sample_o false 0 sample_world) as (r & w' & l & H1 & H2 & H3 & _);
    [reflexivity|].
  exists r, w', l. split; [exact H1|]. split; [exact H2|exact H3].
Defined.

Lemma rollback_reverse_order_witness :
  exists r w' l,
    execute_owned sample_env sample_o false 0 sample_world = Some (r, w') /\ w_log w' = [] ++ l /\
    forall l1 k nm res l2, l = l1 ++ undo "o-1" 4 k nm res :: l2 ->
      forall ev, ev ∈ l2 -> ~ is_fwd "o-1" 4 ev /\
        (forall k' nm' res', ev = undo "o-1" 4 k' nm' res' -> k' <= k).
Proof. apply (rollback_reverse_order sample_env sample_o false 0 sample_world). reflexivity. Defined.

Lemma intent_written_ahead_witness :
  exists r w' l,
    execute_owned sample_env sample_o false 0 sample_world = Some (r, w') /\ w_log w' = [] ++ l /\
    forall l1 ex nm res l2, l = l1 ++ EvCall ex false nm res :: l2 ->
      exists st, stage_of (sample_def fail_action) (eStage ex) st /\ nm ∈ sName <$> stSteps st /\
        last_view (MkView StatusRunning 0 []) l1 = MkView StatusRunning (eStage ex) (all_steps st).
Proof.
  destruct (intent_written_ahead sample_env sample_o false 0 sample_world) as (r & w' & l & H1 & H2 & H3);
    [reflexivity|].
  exists r, w', l. split; [exact H1|]. split; [exact H2|]. intros l1 ex nm res l2 E.
  exact (proj1 (H3 l1 ex false nm res l2 E) eq_refl).
Defined.

Lemma entry_points_total_witness :
  is_Some (Start sample_env sample_o "o-1" 0%nat sample_world) /\
  is_Some (Resume sample_env sample_o "o-1" sample_world) /\
  is_Some (runRecoveryCycleInternal sample_env sample_o sample_world).
Proof. apply (entry_points_total sample_env sample_o "o-1" 0%nat sample_world). Defined.

(** A world whose store is one version ahead of the copy in hand. *)
Definition stale_world : World (gmap string Instance) nat nat :=
  MkWorld {["o-1" := set_version 5 sample_instance]} 0 0 sample_instance 0%nat 0%nat [].

Lemma stale_executor_excluded_witness :
  exists e w', execute sample_env sample_o false stale_world = Some (Some e, w') /\ w_log w' = [].
Proof.
  apply (stale_executor_excluded sample_env sample_o false stale_world).
  intros k. exists {["o-1" := set_version 5 sample_instance]}, (set_version 5 sample_instance).
  split; [|split; [reflexivity|done]]. split; [reflexivity|].
  intros id i Hi. apply lookup_singleton_Some in Hi as [<- <-]. reflexivity.
Defined.

(** idempotency keys identify steps.  The key of a call determines the
    instance, the stage and the step name, whatever characters they contain. *)
Theorem step_key_injective id k nm id' k' nm' :
  step_key id k nm = step_key id' k' nm' -> id = id' /\ k = k' /\ nm = nm'.
Proof.
  unfold step_key. intros E.
  apply (app_sep_inj (Ascii.ascii_of_nat 58)) in E as [Hlen E]; [|apply pretty_no_colon..].
  apply (inj pretty), Nat2Z.inj in Hlen. apply app_length_inj in E as [-> E]; [|done].
  cbn in E. injection E as E.
  apply (app_sep_inj (Ascii.ascii_of_nat 58)) in E as [->%(inj pretty) ->]; [done|apply pretty_no_colon..].
Qed.

Lemma step_key_injective_witness : "a" = "a" /\ 3 = 3 /\ "b:c" = "b:c".
Proof. apply (step_key_injective "a" 3 "b:c" "a" 3 "b:c"). reflexivity. Defined.
End SagaTheorems.
