(* ===== verification/RetryQueue.v ===== *)
(** The retry queue: data/retryqueue/item.go, storage.go and
    storages/memory/memory.go.

    Items are filed by key; every method runs under one mutex, so each is one
    atomic transition of the map.  The theorems state the fencing by
    generation, the life cycle of an item, what a sweep lists, and that sweeps
    which reschedule what they cannot complete reach every due item. *)

From S2P Require Import Prelude.

Module RetryQueue.

Inductive State := StatePending | StateExpired | StateResolved.

#[export] Instance State_eq_dec : EqDecision State.
Proof. solve_decision. Defined.

Definition DefaultListLimit : Z := 200.

Section queue.
Context {P : Type}.

Record Item := MkItem {
  Key : string;
  Generation : Z;
  state : State;
  Since : Z;
  Attempts : Z;
  NextAttemptAt : Z;
  ExpiredAt : Z;
  ResolvedAt : Z;
  Flagged : bool;
  FlagReason : string;
  Payload : P;
}.

Local Abbreviation Store := (gmap string Item).

(** ** Operations *)

(** [at]: the item of [key] when it is at generation [gen]. *)
Definition at_ (s : Store) (key : string) (gen : Z) : option Item :=
  match s !! key with
  | Some it => if Generation it =? gen then Some it else None
  | None => None
  end.

Definition utc (t : Z) : Z := if Go.is_zero t then Go.zero_time else t.

Definition fresh (item : Item) : Item :=
  MkItem (Key item) (Generation item) StatePending (utc (Since item)) 0 (utc (NextAttemptAt item))
    Go.zero_time Go.zero_time false EmptyString (Payload item).

Definition Mark (item : Item) (s : Store) : Item * Store :=
  match s !! Key item with
  | Some cur => (cur, s)
  | None => let it := fresh item in (it, <[Key item := it]> s)
  end.

Definition Reopen (item : Item) (s : Store) : Item * Store :=
  let put := let it := fresh item in (it, <[Key item := it]> s) in
  match s !! Key item with
  | Some cur =>
      if (Generation item <? Generation cur)
         || ((Generation cur =? Generation item) && bool_decide (state cur = StatePending))
      then (cur, s) else put
  | None => put
  end.

Definition collect (keep : Item -> bool) (s : Store) : list Item :=
  filter (fun it => keep it = true) (map_to_list s).*2.

Definition truncate (items : list Item) (limit : Z) : list Item :=
  let limit := if limit <=? 0 then DefaultListLimit else limit in
  if limit <? Z.of_nat (length items) then take (Z.to_nat limit) items else items.

(** [slices.SortFunc] by an instant, ties by key. *)
Definition before_by (at_ : Item -> Z) (a b : Item) : Prop :=
  at_ a < at_ b \/ (at_ a = at_ b /\ str_leb (Key a) (Key b) = true).

#[local] Instance before_by_dec at_ : RelDecision (before_by at_).
Proof. intros a b. unfold before_by. apply _. Defined.

Definition is_due (now : Z) (it : Item) : bool :=
  bool_decide (state it = StatePending) && negb (Go.after (NextAttemptAt it) now).

Definition ListDue (now limit : Z) (s : Store) : list Item :=
  truncate (merge_sort (before_by NextAttemptAt) (collect (is_due now) s)) limit.

Definition ListByState (st : State) (limit : Z) (s : Store) : list Item :=
  truncate (merge_sort (before_by Since) (collect (fun it => bool_decide (state it = st)) s)) limit.

Definition wake (now : Z) (it : Item) : Item :=
  if bool_decide (state it = StatePending) && Go.after (NextAttemptAt it) now then
    MkItem (Key it) (Generation it) (state it) (Since it) (Attempts it) now
      (ExpiredAt it) (ResolvedAt it) (Flagged it) (FlagReason it) (Payload it)
  else it.

Definition WakeDue (now : Z) (s : Store) : Store := wake now <$> s.

Definition Reschedule (key : string) (generation next : Z) (s : Store) : Store :=
  match at_ s key generation with
  | Some it =>
      if bool_decide (state it = StatePending) then
        <[key := MkItem (Key it) (Generation it) (state it) (Since it) (Attempts it + 1) next
                   (ExpiredAt it) (ResolvedAt it) (Flagged it) (FlagReason it) (Payload it)]> s
      else s
  | None => s
  end.

Definition Expire (key : string) (generation since at' : Z) (s : Store) : bool * Store :=
  match at_ s key generation with
  | Some it =>
      if negb (bool_decide (state it = StatePending)) || negb (Since it =? since) then (false, s)
      else (true, <[key := MkItem (Key it) (Generation it) StateExpired (Since it) (Attempts it)
                             (NextAttemptAt it) at' (ResolvedAt it) (Flagged it) (FlagReason it) (Payload it)]> s)
  | None => (false, s)
  end.

Definition Resolve (key : string) (generation at' : Z) (s : Store) : Store :=
  match at_ s key generation with
  | Some it =>
      if bool_decide (state it = StateResolved) then s
      else <[key := MkItem (Key it) (Generation it) StateResolved (Since it) (Attempts it)
                      (NextAttemptAt it) Go.zero_time at' false EmptyString (Payload it)]> s
  | None => s
  end.

Definition Flag (key : string) (generation : Z) (reason : string) (s : Store) : bool * Store :=
  match at_ s key generation with
  | Some it =>
      if negb (bool_decide (state it = StatePending))
         || (Flagged it && bool_decide (FlagReason it = reason)) then (false, s)
      else (true, <[key := MkItem (Key it) (Generation it) (state it) (Since it) (Attempts it)
                             (NextAttemptAt it) (ExpiredAt it) (ResolvedAt it) true reason (Payload it)]> s)
  | None => (false, s)
  end.

Definition ClearFlag (key : string) (generation : Z) (s : Store) : Store :=
  match at_ s key generation with
  | Some it =>
      if Flagged it then
        <[key := MkItem (Key it) (Generation it) (state it) (Since it) (Attempts it)
                   (NextAttemptAt it) (ExpiredAt it) (ResolvedAt it) false EmptyString (Payload it)]> s
      else s
  | None => s
  end.

Definition DeleteObsolete (key : string) (generation : Z) (s : Store) : bool * Store :=
  match s !! key with
  | None => (false, s)
  | Some it => if generation <? Generation it then (true, s) else (false, delete key s)
  end.

Definition Delete (key : string) (s : Store) : Store := delete key s.

(** The items [Requeue] moves, and what it makes of one. *)
Definition requeues (keys : list string) (key : string) (it : Item) : bool :=
  bool_decide (state it = StateExpired)
  && ((length keys =? 0)%nat || bool_decide (key ∈ keys)).

Definition requeued (now : Z) (it : Item) : Item :=
  MkItem (Key it) (Generation it) StatePending now 0 now
    Go.zero_time (ResolvedAt it) (Flagged it) (FlagReason it) (Payload it).

Definition Requeue (now : Z) (keys : list string) (s : Store) : Z * Store :=
  (Z.of_nat (size (filter (fun kv => requeues keys kv.1 kv.2 = true) s)),
   map_imap (fun key it => Some (if requeues keys key it then requeued now it else it)) s).

(** ** Histories *)

Inductive op :=
| OMark (item : Item)
| OReopen (item : Item)
| OWakeDue (now : Z)
| OReschedule (key : string) (generation next : Z)
| OExpire (key : string) (generation since at' : Z)
| OResolve (key : string) (generation at' : Z)
| OFlag (key : string) (generation : Z) (reason : string)
| OClearFlag (key : string) (generation : Z)
| ODeleteObsolete (key : string) (generation : Z)
| ODelete (key : string)
| ORequeue (now : Z) (keys : list string).

Definition apply_op (s : Store) (o : op) : Store :=
  match o with
  | OMark item => (Mark item s).2
  | OReopen item => (Reopen item s).2
  | OWakeDue now => WakeDue now s
  | OReschedule key g next => Reschedule key g next s
  | OExpire key g since at' => (Expire key g since at' s).2
  | OResolve key g at' => Resolve key g at' s
  | OFlag key g reason => (Flag key g reason s).2
  | OClearFlag key g => ClearFlag key g s
  | ODeleteObsolete key g => (DeleteObsolete key g s).2
  | ODelete key => Delete key s
  | ORequeue now keys => (Requeue now keys s).2
  end.

Definition history (ops : list op) (s : Store) : Store := foldl apply_op s ops.

Lemma at_Some (s : Store) key g it : at_ s key g = Some it <-> s !! key = Some it /\ Generation it = g.
Proof.
  unfold at_. destruct (s !! key) as [it'|]; [|by split; [|intros []]].
  destruct (Z.eqb_spec (Generation it') g); (split; [intros E; simplify_eq; auto|intros [E ?]; simplify_eq; auto]).
Qed.

(** What one operation makes of the item of a key: nothing, or one of the
    listed changes. *)
Inductive change (key : string) : option Item -> op -> option Item -> Prop :=
| Ch_none x o : change key x o x
| Ch_mark item : key = Key item -> change key None (OMark item) (Some (fresh item))
| Ch_reopen x item : key = Key item ->
    (forall it, x = Some it -> Generation it < Generation item \/
       (Generation it = Generation item /\ state it <> StatePending)) ->
    change key x (OReopen item) (Some (fresh item))
| Ch_wake it now : change key (Some it) (OWakeDue now) (Some (wake now it))
| Ch_reschedule it next : state it = StatePending ->
    change key (Some it) (OReschedule key (Generation it) next)
      (Some (MkItem (Key it) (Generation it) (state it) (Since it) (Attempts it + 1) next
               (ExpiredAt it) (ResolvedAt it) (Flagged it) (FlagReason it) (Payload it)))
| Ch_expire it at' : state it = StatePending ->
    change key (Some it) (OExpire key (Generation it) (Since it) at')
      (Some (MkItem (Key it) (Generation it) StateExpired (Since it) (Attempts it) (NextAttemptAt it)
               at' (ResolvedAt it) (Flagged it) (FlagReason it) (Payload it)))
| Ch_resolve it at' : state it <> StateResolved ->
    change key (Some it) (OResolve key (Generation it) at')
      (Some (MkItem (Key it) (Generation it) StateResolved (Since it) (Attempts it) (NextAttemptAt it)
               Go.zero_time at' false EmptyString (Payload it)))
| Ch_flag it reason : state it = StatePending ->
    change key (Some it) (OFlag key (Generation it) reason)
      (Some (MkItem (Key it) (Generation it) (state it) (Since it) (Attempts it) (NextAttemptAt it)
               (ExpiredAt it) (ResolvedAt it) true reason (Payload it)))
| Ch_clear it : Flagged it = true ->
    change key (Some it) (OClearFlag key (Generation it))
      (Some (MkItem (Key it) (Generation it) (state it) (Since it) (Attempts it) (NextAttemptAt it)
               (ExpiredAt it) (ResolvedAt it) false EmptyString (Payload it)))
| Ch_obsolete it g : Generation it <= g -> change key (Some it) (ODeleteObsolete key g) None
| Ch_delete x : change key x (ODelete key) None
| Ch_requeue it now keys : state it = StateExpired ->
    change key (Some it) (ORequeue now keys) (Some (requeued now it)).

Lemma change_insert key o (s : Store) key' it x :
  change key' (Some it) o x -> s !! key' = Some it ->
  (forall y, key <> key' -> change key y o y) ->
  forall it', x = Some it' -> change key (s !! key) o ((<[key' := it']> s) !! key).
Proof.
  intros Hc Hs Hne it' ->. destruct (decide (key = key')) as [->|].
  - by rewrite lookup_insert_eq, Hs.
  - rewrite lookup_insert_ne by done. by apply Hne.
Qed.

(** The semantics of the operations, item by item. *)
Lemma apply_change (s : Store) o key : change key (s !! key) o (apply_op s o !! key).
Proof.
  destruct o as [item|item|now|k g next|k g since at'|k g at'|k g reason|k g|k g|k|now keys]; cbn [apply_op].
  - unfold Mark. destruct (s !! Key item) eqn:E; cbn [snd]; [constructor|].
    destruct (decide (key = Key item)) as [->|]; [rewrite lookup_insert_eq, E; by constructor|].
    rewrite lookup_insert_ne by done. constructor.
  - assert (forall it', (forall it, s !! Key item = Some it -> Generation it < Generation item \/
       (Generation it = Generation item /\ state it <> StatePending)) -> it' = fresh item ->
       change key (s !! key) (OReopen item) ((<[Key item := it']> s) !! key)) as Hput.
    { intros it' Hc ->. destruct (decide (key = Key item)) as [->|]; [rewrite lookup_insert_eq; by constructor|].
      rewrite lookup_insert_ne by done. constructor. }
    unfold Reopen. destruct (s !! Key item) as [cur|] eqn:E; cbn [snd]; [|by apply Hput].
    case_match eqn:Hg; [constructor|]. apply Hput; [|done]. intros it [= <-].
    apply orb_false_iff in Hg as [Hlt Hg]. apply andb_false_iff in Hg as [Hg|Hg]; [left; lia|].
    apply bool_decide_eq_false in Hg. destruct (decide (Generation cur = Generation item)); [by right|left; lia].
  - unfold WakeDue. rewrite lookup_fmap. destruct (s !! key); constructor.
  - unfold Reschedule. destruct (at_ s k g) as [it|] eqn:E; [|constructor].
    apply at_Some in E as [E <-]. case_bool_decide; [|constructor].
    eapply change_insert; [by constructor|done|constructor|done].
  - unfold Expire. destruct (at_ s k g) as [it|] eqn:E; [|constructor].
    apply at_Some in E as [E <-]. case_match eqn:Hc; [constructor|]. cbn [snd].
    apply orb_false_iff in Hc as [Hp%negb_false_iff%bool_decide_eq_true Hs%negb_false_iff%Z.eqb_eq].
    subst since. eapply change_insert; [by apply Ch_expire|done|constructor|done].
  - unfold Resolve. destruct (at_ s k g) as [it|] eqn:E; [|constructor].
    apply at_Some in E as [E <-]. case_bool_decide; [constructor|].
    eapply change_insert; [by constructor|done|constructor|done].
  - unfold Flag. destruct (at_ s k g) as [it|] eqn:E; [|constructor].
    apply at_Some in E as [E <-]. case_match eqn:Hc; [constructor|]. cbn [snd].
    apply orb_false_iff in Hc as [Hp%negb_false_iff%bool_decide_eq_true _].
    eapply change_insert; [by constructor|done|constructor|done].
  - unfold ClearFlag. destruct (at_ s k g) as [it|] eqn:E; [|constructor].
    apply at_Some in E as [E <-]. destruct (Flagged it) eqn:Hf; [|constructor].
    eapply change_insert; [by constructor|done|constructor|done].
  - unfold DeleteObsolete. destruct (s !! k) as [it|] eqn:E; [|constructor].
    case_match; cbn [snd]; [constructor|]. destruct (decide (key = k)) as [->|].
    + rewrite lookup_delete_eq, E. constructor. lia.
    + rewrite lookup_delete_ne by done. constructor.
  - unfold Delete. destruct (decide (key = k)) as [->|]; [rewrite lookup_delete_eq; constructor|].
    rewrite lookup_delete_ne by done. constructor.
  - unfold Requeue. cbn [snd]. rewrite map_lookup_imap. destruct (s !! key) as [it|]; cbn; [|constructor].
    case_match eqn:Hr; [|constructor]. unfold requeues in Hr.
    apply andb_true_iff in Hr as [Hr%bool_decide_eq_true _]. by constructor.
Qed.

(** ** Life cycle *)

(** What every stored item satisfies: filed under its key, times and flags in
    line with its state. *)
Definition item_ok (key : string) (it : Item) : Prop :=
  Key it = key /\ 0 <= Attempts it /\
  (state it <> StateExpired -> ExpiredAt it = Go.zero_time) /\
  (state it <> StateResolved -> ResolvedAt it = Go.zero_time) /\
  (state it = StateResolved -> Flagged it = false) /\
  (Flagged it = false -> FlagReason it = EmptyString).

Definition store_ok (s : Store) : Prop := map_Forall item_ok s.

Lemma change_ok key x o y :
  change key x o y -> (forall it, x = Some it -> item_ok key it) ->
  forall it, y = Some it -> item_ok key it.
Proof.
  unfold item_ok. destruct 1; intros Hx it' Hy; simplify_eq; cbn; try (by apply Hx); try done.
  all: try (specialize (Hx _ eq_refl) as (Hk & ? & He & Hr & Hf & Hreason)).
  - unfold wake. case_match; cbn; split_and!; auto.
  - split_and!; auto; lia.
  - split_and!; auto; try done. intros _. apply Hr. congruence.
  - split_and!; auto; done.
  - split_and!; auto; [intros ?; congruence|done].
  - split_and!; auto.
  - split_and!; auto; try done. intros _. apply Hr. congruence.
Qed.

Lemma store_ok_apply s o : store_ok s -> store_ok (apply_op s o).
Proof.
  intros Hok key it Hit. eapply (change_ok key _ _ _ (apply_change s o key)); [|done].
  intros it' Hit'. by apply Hok.
Qed.

(** C39: after any history of operations, every item is filed under its key,
    has an expiry time only if expired and a resolution time only if resolved,
    a flag reason only if flagged, and no flag once resolved. *)
Theorem history_well_formed ops : store_ok (history ops ∅).
Proof.
  unfold history. assert (store_ok ∅) as H0 by apply map_Forall_empty. revert H0.
  generalize (∅ : Store). induction ops as [|o ops IH]; intros s Hs; [done|]. by apply IH, store_ok_apply.
Qed.

(** ** Fencing *)

(** [o] acts for work older than generation [g] of [key], or not on [key]. *)
Definition stale (key : string) (g : Z) (o : op) : Prop :=
  match o with
  | OMark _ => True
  | OReopen item => Key item = key -> Generation item < g
  | OReschedule k g' _ | OExpire k g' _ _ | OResolve k g' _ | OFlag k g' _ | OClearFlag k g'
  | ODeleteObsolete k g' => k = key -> g' < g
  | ODelete k => k <> key
  | OWakeDue _ | ORequeue _ _ => False
  end.

Lemma change_stale key it o y : change key (Some it) o y -> stale key (Generation it) o -> y = Some it.
Proof.
  intros Hc Hst. inversion Hc; subst; cbn in *; try done.
  - specialize (Hst eq_refl). destruct (H0 it eq_refl) as [?|[? _]]; lia.
  - specialize (Hst eq_refl). lia.
  - specialize (Hst eq_refl). lia.
  - specialize (Hst eq_refl). lia.
  - specialize (Hst eq_refl). lia.
  - specialize (Hst eq_refl). lia.
  - specialize (Hst eq_refl). lia.
Qed.

(** generations fence.  Whatever workers holding an older snapshot of the
    work do, in whatever number and order (marks, reopens, reschedules,
    expiries, resolutions, flags and obsolete deletes), the newer item is left
    exactly as it is. *)
Theorem stale_work_fenced key it ops s :
  s !! key = Some it -> Forall (stale key (Generation it)) ops ->
  history ops s !! key = Some it.
Proof.
  unfold history. intros Hs Hall. revert s Hs. induction Hall as [|o ops Ho _ IH]; intros s Hs; [done|].
  cbn. apply IH. eapply change_stale; [|done]. rewrite <-Hs. apply apply_change.
Qed.

(** ** At most once *)

(** Successive [Expire] calls: how many of them report the transition. *)
Fixpoint expire_all (key : string) (calls : list (Z * Z * Z)) (s : Store) : nat * Store :=
  match calls with
  | [] => (0%nat, s)
  | (g, since, at') :: calls =>
      let '(won, s) := Expire key g since at' s in
      let '(n, s) := expire_all key calls s in
      ((if won then 1 else 0) + n, s)%nat
  end.

Lemma expire_not_pending key g since at' s :
  (forall it, s !! key = Some it -> state it <> StatePending) -> Expire key g since at' s = (false, s).
Proof.
  intros Hn. unfold Expire. destruct (at_ s key g) as [it|] eqn:E; [|done].
  apply at_Some in E as [E _]. by rewrite bool_decide_eq_false_2 by (by apply Hn).
Qed.

(** of several racing callers that expire the same item, whatever
    generation and age each observed, at most one observes true. *)
Theorem expire_at_most_once key calls s : ((expire_all key calls s).1 <= 1)%nat.
Proof.
  assert (forall s, (forall it, s !! key = Some it -> state it <> StatePending) ->
    (expire_all key calls s).1 = 0%nat) as Hzero.
  { induction calls as [|[[g since] at'] calls IH]; intros s' Hs; [done|]. cbn [expire_all].
    rewrite expire_not_pending by done. specialize (IH s' Hs). by destruct (expire_all key calls s'). }
  revert s. induction calls as [|[[g since] at'] calls IH]; intros s; cbn [expire_all]; [cbn; lia|].
  assert (forall s, (forall it, s !! key = Some it -> state it <> StatePending) ->
    (expire_all key calls s).1 = 0%nat) as Hzero'.
  { intros s' Hs. specialize (Hzero s' Hs). cbn [expire_all] in Hzero.
    rewrite expire_not_pending in Hzero by done. by destruct (expire_all key calls s'). }
  specialize (IH Hzero').
  destruct (Expire key g since at' s) as [[|] s'] eqn:E.
  - rewrite (surjective_pairing (expire_all key calls s')). cbn. rewrite Hzero'; [cbn; lia|].
    unfold Expire in E. destruct (at_ s key g) as [it|] eqn:Hat; [|done]. case_match; [done|].
    injection E as <-. intros it'. rewrite lookup_insert_eq. by intros [= <-].
  - specialize (IH s'). destruct (expire_all key calls s'). done.
Qed.

(** ** Sweeps *)

#[local] Instance before_by_total f : Total (before_by f).
Proof.
  intros a b. unfold before_by. destruct (Z.lt_trichotomy (f a) (f b)) as [?|[?|?]]; [by left; left| |by right; left].
  destruct (str_leb_total (Key a) (Key b)); [left|right]; by right.
Qed.

#[local] Instance before_by_trans f : Transitive (before_by f).
Proof.
  intros a b c [?|[E ?]] [?|[E' ?]]; [left; lia|left; lia|left; lia|right]. split; [lia|]. by eapply str_leb_trans.
Qed.

(** Items are filed under their key. *)
Definition keyed (s : Store) : Prop := forall k it, s !! k = Some it -> Key it = k.

Lemma elem_of_collect keep (s : Store) it :
  keyed s -> it ∈ collect keep s <-> s !! Key it = Some it /\ keep it = true.
Proof.
  intros Hk. unfold collect. rewrite list_elem_of_filter, list_elem_of_fmap. split.
  - intros [Hkeep ([k it'] & -> & Hin%elem_of_map_to_list)]. cbn in *. by rewrite (Hk _ _ Hin).
  - intros [Hs ?]. split; [done|]. exists (Key it, it). split; [done|]. by apply elem_of_map_to_list.
Qed.

Lemma collect_keys keep (s : Store) : keyed s -> NoDup (Key <$> collect keep s).
Proof.
  intros Hk. unfold collect.
  assert (NoDup (Key <$> (map_to_list s).*2)) as Hnd.
  { rewrite <-list_fmap_compose. erewrite list_fmap_ext; [apply NoDup_fst_map_to_list|].
    intros n [k it] Hi. cbn. apply Hk, elem_of_map_to_list. by eapply list_elem_of_lookup_2. }
  induction (map_to_list s).*2 as [|it l IH]; [constructor|]. cbn in Hnd.
  apply NoDup_cons in Hnd as [Hnin Hnd]. rewrite filter_cons. case_decide; [|by apply IH].
  cbn. apply NoDup_cons. split; [|by apply IH]. intros (it' & E & [_ ?]%list_elem_of_filter)%list_elem_of_fmap.
  apply Hnin, list_elem_of_fmap. eauto.
Qed.

(** Every due item, in the order of the sweep. *)
Definition due_list (now : Z) (s : Store) : list Item :=
  merge_sort (before_by NextAttemptAt) (collect (is_due now) s).

Lemma due_list_perm now s : due_list now s ≡ₚ collect (is_due now) s.
Proof. apply merge_sort_Permutation. Qed.

Lemma due_list_sorted now s : StronglySorted (before_by NextAttemptAt) (due_list now s).
Proof. apply StronglySorted_merge_sort; apply _. Qed.

Lemma due_list_keys now s : keyed s -> NoDup (Key <$> due_list now s).
Proof. intros Hk. rewrite due_list_perm. by apply collect_keys. Qed.

Lemma elem_of_due_list now s it :
  keyed s -> it ∈ due_list now s <-> s !! Key it = Some it /\ is_due now it = true.
Proof. intros Hk. rewrite due_list_perm. by apply elem_of_collect. Qed.

Lemma NoDup_keys_inj (l : list Item) a b : NoDup (Key <$> l) -> a ∈ l -> b ∈ l -> Key a = Key b -> a = b.
Proof.
  intros Hnd [i Hi]%list_elem_of_lookup [j Hj]%list_elem_of_lookup E.
  assert (i = j) as ->; [|congruence]. eapply NoDup_lookup; [done|..].
  - by rewrite list_lookup_fmap, Hi.
  - rewrite list_lookup_fmap, Hj. cbn. by rewrite E.
Qed.

(** A sorted list of the due items is the due list: the order in which the map
    is visited does not matter. *)
Lemma due_list_unique now s l :
  keyed s -> StronglySorted (before_by NextAttemptAt) l -> NoDup l ->
  (forall it, it ∈ l <-> s !! Key it = Some it /\ is_due now it = true) -> due_list now s = l.
Proof.
  intros Hk Hsort Hnd Hin. eapply (StronglySorted_unique_strong (before_by NextAttemptAt)).
  - intros a b Ha Hb [?|[? Hab]] [?|[? Hba]]; [lia..|].
    assert (Key a = Key b) as E by (by apply str_leb_antisym).
    apply (elem_of_due_list now s a Hk) in Ha as [Ha _]. apply Hin in Hb as [Hb _]. congruence.
  - apply due_list_sorted.
  - done.
  - apply NoDup_Permutation; [|done|].
    + eapply NoDup_fmap_1, due_list_keys, Hk.
    + intros it. by rewrite elem_of_due_list, Hin.
Qed.

(** A sweep lists due items and reschedules each of them. *)
Definition reschedule_all (next : Z) (l : list Item) (s : Store) : Store :=
  foldl (fun s it => Reschedule (Key it) (Generation it) next s) s l.

Definition sweep (now next limit : Z) (s : Store) : list Item * Store :=
  let listed := ListDue now limit s in (listed, reschedule_all next listed s).

Fixpoint sweeps (n : nat) (now next limit : Z) (s : Store) : list Item * Store :=
  match n with
  | O => ([], s)
  | S n =>
      let '(l, s) := sweep now next limit s in
      let '(l', s) := sweeps n now next limit s in (l ++ l', s)
  end.

Definition bumped (next : Z) (it : Item) : Item :=
  MkItem (Key it) (Generation it) (state it) (Since it) (Attempts it + 1) next
    (ExpiredAt it) (ResolvedAt it) (Flagged it) (FlagReason it) (Payload it).

Lemma reschedule_pending next it (s : Store) :
  s !! Key it = Some it -> state it = StatePending ->
  Reschedule (Key it) (Generation it) next s = <[Key it := bumped next it]> s.
Proof.
  intros Hs Hp. unfold Reschedule, at_. rewrite Hs, Z.eqb_refl. by rewrite bool_decide_eq_true_2.
Qed.

Lemma reschedule_all_lookup next l (s : Store) k :
  NoDup (Key <$> l) -> (forall it, it ∈ l -> s !! Key it = Some it /\ state it = StatePending) ->
  reschedule_all next l s !! k =
    match list_find (fun it => Key it = k) l with
    | Some (_, it) => Some (bumped next it)
    | None => s !! k
    end.
Proof.
  unfold reschedule_all. revert s. induction l as [|it l IH]; intros s Hnd Hl; [done|].
  cbn in Hnd. apply NoDup_cons in Hnd as [Hnin Hnd]. destruct (Hl it) as [Hs Hp]; [left|].
  cbn [foldl list_find]. rewrite reschedule_pending by done. rewrite IH; [|done|].
  - case_decide as Hk.
    + destruct (list_find _ l) as [[j it']|] eqn:Ef; [|by rewrite <-Hk, lookup_insert_eq].
      apply list_find_Some in Ef as (Hj & Hk' & _). exfalso. apply Hnin, list_elem_of_fmap.
      exists it'. split; [congruence|]. by eapply list_elem_of_lookup_2.
    + destruct (list_find _ l) as [[j it']|]; [done|]. by rewrite lookup_insert_ne.
  - intros it' Hit'. rewrite lookup_insert_ne; [apply Hl; by right|].
    intros E. apply Hnin, list_elem_of_fmap. by exists it'.
Qed.

Lemma truncate_take (l : list Item) limit : 0 < limit -> truncate l limit = take (Z.to_nat limit) l.
Proof.
  intros ?. unfold truncate. destruct (Z.leb_spec limit 0); [lia|].
  destruct (Z.ltb_spec limit (Z.of_nat (length l))); [done|]. rewrite take_ge; [done|lia].
Qed.

Lemma is_due_pending now it : is_due now it = true -> state it = StatePending.
Proof. unfold is_due. intros [?%bool_decide_eq_true _]%andb_true_iff. done. Qed.

Lemma keyed_reschedule next key g (s : Store) : keyed s -> keyed (Reschedule key g next s).
Proof.
  intros Hk. unfold Reschedule. destruct (at_ s key g) as [it|] eqn:E; [|done]. case_bool_decide; [|done].
  apply at_Some in E as [E _]. intros k it' [[<- <-]|[? ?]]%lookup_insert_Some; [exact (Hk _ _ E)|by apply Hk].
Qed.

Lemma keyed_reschedule_all next l (s : Store) : keyed s -> keyed (reschedule_all next l s).
Proof.
  unfold reschedule_all. revert s. induction l as [|it l IH]; intros s Hk; [done|]. by apply IH, keyed_reschedule.
Qed.

(** Rescheduling the first [n] due items leaves the others, in order. *)
Lemma due_list_rescheduled now next n s :
  keyed s -> now < next ->
  due_list now (reschedule_all next (take n (due_list now s)) s) = drop n (due_list now s).
Proof.
  intros Hk Hnext. set (l := due_list now s).
  assert (NoDup (Key <$> l)) as Hnd by (by apply due_list_keys).
  assert (NoDup (Key <$> take n l)) as Hndt by (rewrite fmap_take; by apply NoDup_take).
  assert (forall it, it ∈ take n l -> s !! Key it = Some it /\ state it = StatePending) as Htake.
  { intros it Hit%subseteq_take. apply elem_of_due_list in Hit as [? ?%is_due_pending]; done. }
  apply due_list_unique.
  - by apply keyed_reschedule_all.
  - pose proof (due_list_sorted now s) as Hsort. fold l in Hsort. rewrite <-(take_drop n l) in Hsort.
    by apply StronglySorted_app in Hsort as (_ & _ & ?).
  - apply (NoDup_fmap_1 Key). rewrite <-(take_drop n l), fmap_app in Hnd. by apply list.NoDup_app in Hnd as (_ & _ & ?).
  - intros it. rewrite reschedule_all_lookup by done.
    destruct (list_find _ (take n l)) as [[j it']|] eqn:Ef.
    + apply list_find_Some in Ef as (Hj & Hkey & _). apply list_elem_of_lookup_2 in Hj. split.
      * intros Hdrop. exfalso. rewrite <-(take_drop n l), fmap_app in Hnd.
        apply list.NoDup_app in Hnd as (_ & Hdis & _).
        apply (Hdis (Key it)); [rewrite <-Hkey|]; by apply list_elem_of_fmap_2.
      * intros [[= <-] Hdue]. exfalso. unfold is_due, Go.after in Hdue. cbn in Hdue.
        apply andb_true_iff in Hdue as [_ Hdue]. apply negb_true_iff, Z.ltb_ge in Hdue. lia.
    + apply list_find_None in Ef. rewrite list.Forall_forall in Ef. rewrite <-(elem_of_due_list now s it Hk). fold l.
      split; [intros Hd; rewrite <-(take_drop n l), elem_of_app; by right|].
      rewrite <-(take_drop n l) at 1. intros [Ht|?]%elem_of_app; [|done]. by destruct (Ef it Ht).
Qed.

Lemma sweeps_listed n now next limit s :
  keyed s -> now < next -> 0 < limit ->
  (sweeps n now next limit s).1 = take (n * Z.to_nat limit) (due_list now s).
Proof.
  intros Hk Hnext Hlim. revert s Hk. induction n as [|n IH]; intros s Hk; [done|]. cbn [sweeps].
  unfold sweep. assert (ListDue now limit s = take (Z.to_nat limit) (due_list now s)) as ->
    by (by apply truncate_take).
  set (s' := reschedule_all _ _ s).
  specialize (IH s' (keyed_reschedule_all _ _ _ Hk)). destruct (sweeps n now next limit s') as [l' s''].
  cbn [fst] in *. subst l'. unfold s'. rewrite due_list_rescheduled by done.
  rewrite take_take_drop. f_equal.
Qed.

(** no due item starves.  If every sweep reschedules what it lists to a
    later time, then after enough sweeps of any positive size every item that
    was due has been listed exactly once, oldest first. *)
Theorem sweeps_reach_every_item n now next limit s :
  keyed s -> now < next -> 0 < limit ->
  (length (due_list now s) <= n * Z.to_nat limit)%nat ->
  (sweeps n now next limit s).1 = due_list now s /\
  StronglySorted (before_by NextAttemptAt) (due_list now s) /\
  NoDup (due_list now s) /\
  (forall it, it ∈ due_list now s <-> s !! Key it = Some it /\ is_due now it = true).
Proof.
  intros Hk Hnext Hlim Hn. rewrite sweeps_listed by done. rewrite take_ge by done.
  split_and!; [done|apply due_list_sorted| |].
  - eapply NoDup_fmap_1, due_list_keys, Hk.
  - intros it. by apply elem_of_due_list.
Qed.

(** [Requeue] reports how many items it moves, and afterwards none of the
    requested items is expired, each moved one is due at [now] with a fresh age
    and no attempts, and the others are untouched. *)
Theorem requeue_exact now keys s :
  let '(moved, s') := Requeue now keys s in
  moved = Z.of_nat (size (filter (fun kv => requeues keys kv.1 kv.2 = true) s)) /\
  (forall k it, s !! k = Some it ->
     s' !! k = Some (if requeues keys k it then requeued now it else it) /\
     (requeues keys k it = true -> is_due now (requeued now it) = true)) /\
  (forall k it, s' !! k = Some it -> keys = [] \/ k ∈ keys -> state it <> StateExpired).
Proof.
  unfold Requeue. split_and!; [done| |].
  - intros k it Hs. rewrite map_lookup_imap, Hs. split; [done|]. intros _.
    unfold is_due, Go.after. cbn. rewrite Z.ltb_irrefl. done.
  - intros k it. rewrite map_lookup_imap. destruct (s !! k) as [it0|]; [|done]. cbn. intros [= <-] Hkeys.
    destruct (requeues keys k it0) eqn:Hr; [done|]. unfold requeues in Hr.
    apply andb_false_iff in Hr as [?%bool_decide_eq_false|Hr]; [done|]. exfalso.
    apply orb_false_iff in Hr as [Hlen Hin%bool_decide_eq_false].
    destruct Hkeys as [->|?]; done.
Qed.
End queue.
Arguments Item : clear implicits.
Arguments op : clear implicits.

(** ** Concrete queues *)

Definition sample_item (key : string) (g next : Z) : Item nat :=
  MkItem key g StatePending 5 0 next 0 0 false EmptyString 0%nat.

Lemma stale_work_fenced_witness :
  history [OReopen (sample_item "a" 2 9); OResolve "a" 1 7; ODeleteObsolete "a" 2]
    {["a" := sample_item "a" 3 4]} !! "a" = Some (sample_item "a" 3 4).
Proof.
  apply (stale_work_fenced "a" (sample_item "a" 3 4)); [reflexivity|].
  repeat constructor; intros _; reflexivity.
Defined.

Definition sample_queue : gmap string (Item nat) :=
  {["b" := sample_item "b" 1 3; "a" := sample_item "a" 1 3; "c" := sample_item "c" 1 9]}.

Lemma sweeps_reach_every_item_witness :
  (sweeps 2 5 6 1 sample_queue).1 = [sample_item "a" 1 3; sample_item "b" 1 3].
Proof.
  rewrite (proj1 (sweeps_reach_every_item 2 5 6 1 sample_queue
    ltac:(intros k it Hk; unfold sample_queue in Hk; repeat (apply lookup_insert_Some in Hk as [[<- <-]|[_ Hk]]; [reflexivity|]);
          apply lookup_singleton_Some in Hk as [<- <-]; reflexivity)
    ltac:(lia) ltac:(lia) ltac:(vm_compute; lia))).
  vm_compute. reflexivity.
Defined.
End RetryQueue.
