(* ===== verification/DepGraph.v ===== *)
(** Dependency ordering of middleware: transport/internal/depgraph/depgraph.go.

    A graph keyed by name with the in-degree of every node, Kahn's algorithm
    over it with a queue kept in insertion order, and [Build], which validates
    the items, wires the declared dependencies and sorts.  The theorems: a
    successful [Build] is a permutation of its input in which every present
    dependency comes first; it succeeds exactly when the names are distinct and
    non-empty, the required dependencies are present and the dependencies are
    acyclic; and it keeps an order that is already valid. *)

From S2P Require Import Prelude.

Module DepGraph.

Definition ErrCyclicDependency : error := ErrNew "depgraph: circular dependency".
Definition ErrMissingDependency : error := ErrNew "depgraph: required dependency not registered".
Definition ErrDuplicateName : error := ErrNew "depgraph: duplicate item name".
Definition ErrEmptyName : error := ErrNew "depgraph: item has no name".

(** [Namer], [RequiredDependencyDeclarer] and [DependencyDeclarer]; a type that
    does not implement one of the last two declares nothing. *)
Class Declarer (T : Type) := {
  Name : T -> string;
  RequiredDependencies : T -> list string;
  Dependencies : T -> list string;
}.

Section graph.
Context {T : Type} `{Declarer T}.
Context (zero : T).   (* the zero value of T *)

Record Graph := MkGraph {
  nodes : gmap string T;
  edges : gmap string (list string);
  inDegree : gmap string Z;
  order : gmap string Z;
}.

Definition New : Graph := MkGraph ∅ ∅ ∅ ∅.

(** Reading a missing key of a Go map gives the zero value. *)
Definition deg (m : gmap string Z) (n : string) : Z := default 0 (m !! n).

Definition HasNode (g : Graph) (name : string) : bool :=
  match nodes g !! name with Some _ => true | None => false end.

Definition AddNode (g : Graph) (name : string) (item : T) : Graph :=
  if HasNode g name then g
  else MkGraph (<[name := item]> (nodes g)) (edges g) (<[name := 0]> (inDegree g))
         (<[name := Z.of_nat (size (nodes g))]> (order g)).

Definition AddEdge (g : Graph) (dep dependent : string) : Graph :=
  MkGraph (nodes g) (<[dep := default [] (edges g !! dep) ++ [dependent]]> (edges g))
    (<[dependent := deg (inDegree g) dependent + 1]> (inDegree g)) (order g).

(** [Dedupe]. *)
Fixpoint dedupe_loop (seen : gset string) (items : list T) : list T :=
  match items with
  | [] => []
  | item :: items =>
      let name := Name item in
      if bool_decide (name = "") then item :: dedupe_loop seen items
      else if bool_decide (name ∈ seen) then dedupe_loop seen items
      else item :: dedupe_loop ({[name]} ∪ seen) items
  end.

Definition Dedupe (items : list T) : list T :=
  if (length items <? 2)%nat then items else dedupe_loop ∅ items.

(** ** Kahn's algorithm *)

(** [slices.SortStableFunc] by insertion order: a stable insertion sort. *)
Fixpoint insert_by (ord : string -> Z) (x : string) (l : list string) : list string :=
  match l with
  | [] => [x]
  | y :: l => if ord x <=? ord y then x :: y :: l else y :: insert_by ord x l
  end.

Definition sort_by (ord : string -> Z) (l : list string) : list string := foldr (insert_by ord) [] l.

(** The inner loop over the dependents: the in-degrees it leaves, and [newZero]. *)
Fixpoint relax (deps : list string) (indeg : gmap string Z) (newZero : list string) :
    gmap string Z * list string :=
  match deps with
  | [] => (indeg, newZero)
  | dep :: deps =>
      let indeg := <[dep := deg indeg dep - 1]> indeg in
      relax deps indeg (if deg indeg dep =? 0 then newZero ++ [dep] else newZero)
  end.

(** The main loop; fuel bounds the nodes dequeued. *)
Fixpoint kahn (fuel : nat) (g : Graph) (queue : list string) (indeg : gmap string Z) (result : list T) :
    option (list T * gmap string Z) :=
  match queue with
  | [] => Some (result, indeg)
  | name :: queue =>
      match fuel with
      | O => None
      | S fuel =>
          let result := result ++ [default zero (nodes g !! name)] in
          let '(indeg, newZero) := relax (default [] (edges g !! name)) indeg [] in
          let queue := match newZero with
                       | [] => queue
                       | _ => sort_by (deg (order g)) (queue ++ newZero)
                       end in
          kahn fuel g queue indeg result
      end
  end.

Definition show_names (l : list string) : string := ("[" +:+ String.concat " " l +:+ "]")%string.

(** Every node is dequeued at most once, unknown dependents included. *)
Definition sort_fuel (g : Graph) : nat := (size (nodes g) + length (map_to_list (edges g) ≫= snd))%nat.

(** [TopologicalSort]; the outer option is the fuel. *)
Definition TopologicalSort (g : Graph) : option (error + list T) :=
  if (size (nodes g) =? 0)%nat then Some (inr [])
  else
    let queue := sort_by (deg (order g))
      (filter (fun name => deg (inDegree g) name = 0) (map_to_list (nodes g)).*1) in
    match kahn (sort_fuel g) g queue (inDegree g) [] with
    | None => None
    | Some (result, indeg) =>
        if (length result =? size (nodes g))%nat then Some (inr result)
        else
          let cycleNodes := filter (fun name => 0 < deg indeg name) (map_to_list (nodes g)).*1 in
          Some (inl (Errors.Wrapf ErrCyclicDependency ("involving: " +:+ show_names cycleNodes)))
    end.

(** ** [Build] *)

Definition dquote : Ascii.ascii := Ascii.ascii_of_nat 34.
Definition quoted (s : string) : string := (String dquote s +:+ String dquote EmptyString)%string.

Fixpoint add_nodes (i : nat) (items : list T) (g : Graph) : error + Graph :=
  match items with
  | [] => inr g
  | item :: items =>
      let name := Name item in
      if bool_decide (name = "") then
        inl (Errors.Wrapf ErrEmptyName ("item at index " +:+ pretty (Z.of_nat i)))
      else if HasNode g name then
        inl (Errors.Wrapf ErrDuplicateName (quoted name +:+ " is registered more than once"))
      else add_nodes (S i) items (AddNode g name item)
  end.

Fixpoint add_required (name : string) (deps : list string) (added : gset string) (g : Graph) :
    error + (Graph * gset string) :=
  match deps with
  | [] => inr (g, added)
  | dep :: deps =>
      if negb (HasNode g dep) then
        inl (Errors.Wrapf ErrMissingDependency
          ("item " +:+ quoted name +:+ " requires dependency " +:+ quoted dep +:+ " which is not registered"))
      else add_required name deps ({[dep]} ∪ added) (AddEdge g dep name)
  end.

Fixpoint add_optional (name : string) (deps : list string) (added : gset string) (g : Graph) : Graph :=
  match deps with
  | [] => g
  | dep :: deps =>
      if bool_decide (dep ∈ added) then add_optional name deps added g
      else if HasNode g dep then add_optional name deps added (AddEdge g dep name)
      else add_optional name deps added g
  end.

Fixpoint add_edges (items : list T) (g : Graph) : error + Graph :=
  match items with
  | [] => inr g
  | item :: items =>
      let name := Name item in
      match add_required name (RequiredDependencies item) ∅ g with
      | inl e => inl e
      | inr (g, added) => add_edges items (add_optional name (Dependencies item) added g)
      end
  end.

Definition Build (items : list T) : option (error + list T) :=
  if (length items =? 0)%nat then Some (inr items)
  else match add_nodes 0 items New with
  | inl e => Some (inl e)
  | inr g =>
      match add_edges items g with
      | inl e => Some (inl e)
      | inr g =>
          match TopologicalSort g with
          | None => None
          | Some (inl e) => Some (inl (ErrWrap "dependency ordering failed: " e))
          | Some (inr sorted) => Some (inr sorted)
          end
      end
  end.

(** ** Counting arcs *)

(** How often [n] occurs in [l]. *)
Fixpoint cnt (n : string) (l : list string) : Z :=
  match l with
  | [] => 0
  | x :: l => (if bool_decide (x = n) then 1 else 0) + cnt n l
  end.

Lemma cnt_nonneg n l : 0 <= cnt n l.
Proof. induction l; cbn; [lia|]. case_bool_decide; lia. Qed.

Lemma cnt_app n l l' : cnt n (l ++ l') = cnt n l + cnt n l'.
Proof. induction l; cbn; lia. Qed.

Lemma cnt_pos n l : 0 < cnt n l <-> n ∈ l.
Proof.
  induction l as [|x l IH]; cbn; [rewrite elem_of_nil; split; [lia|done]|].
  pose proof (cnt_nonneg n l). rewrite elem_of_cons. case_bool_decide; [subst; split; [auto|lia]|].
  rewrite Z.add_0_l, IH. split; [auto|]. by intros [->|?].
Qed.

Lemma deg_insert m k v n : deg (<[k := v]> m) n = if bool_decide (n = k) then v else deg m n.
Proof.
  unfold deg. case_bool_decide; [subst; by rewrite lookup_insert_eq|by rewrite lookup_insert_ne].
Qed.

Lemma relax_spec deps indeg nz indeg' nz' :
  relax deps indeg nz = (indeg', nz') ->
  (forall n, deg indeg' n = deg indeg n - cnt n deps) /\
  (forall n, n ∈ nz' <-> n ∈ nz \/ 0 < deg indeg n <= cnt n deps) /\
  (NoDup nz -> (forall n, n ∈ nz -> deg indeg n <= 0) -> NoDup nz').
Proof.
  revert indeg nz. induction deps as [|d deps IH]; intros indeg nz Hr; cbn [relax] in Hr.
  { injection Hr as <- <-. split_and!; [intros; cbn; lia|intros n; cbn; split; [auto|intros [?|?]; [done|lia]]|done]. }
  apply IH in Hr as (Hdeg & Hin & Hnd). cbn [cnt].
  assert (forall n, deg (<[d := deg indeg d - 1]> indeg) n = deg indeg n - if bool_decide (d = n) then 1 else 0) as Hd.
  { intros n. rewrite deg_insert. repeat case_bool_decide; subst; try done; lia. }
  set (nz1 := if deg (<[d := deg indeg d - 1]> indeg) d =? 0 then nz ++ [d] else nz) in *.
  assert (forall n, n ∈ nz1 <-> n ∈ nz \/ (n = d /\ deg indeg d = 1)) as Hnz1.
  { intros n. unfold nz1. rewrite Hd, bool_decide_eq_true_2 by done.
    destruct (Z.eqb_spec (deg indeg d - 1) 0); [rewrite elem_of_app, list_elem_of_singleton|].
    - split; [intros [?|?]; [by left|right; split; [done|lia]]|intros [?|[? _]]; auto].
    - split; [by left|intros [?|[_ ?]]; [done|lia]]. }
  split_and!.
  - intros n. rewrite Hdeg, Hd. lia.
  - intros n. rewrite Hin, Hnz1, Hd. pose proof (cnt_nonneg n deps). case_bool_decide; [subst n|].
    + split; [intros [[?|[_ ?]]|?]; [by left|right; lia|right; lia]|].
      intros [?|?]; [by left; left|]. destruct (decide (deg indeg d = 1)); [left; right; auto|right; lia].
    + split; [intros [[?|[? _]]|?]; [by left|congruence|right; lia]|intros [?|?]; [by left; left|right; lia]].
  - intros Hndz Hle. apply Hnd.
    + unfold nz1. destruct (Z.eqb_spec (deg (<[d := deg indeg d - 1]> indeg) d) 0) as [E|]; [|done].
      rewrite Hd, bool_decide_eq_true_2 in E by done.
      apply list.NoDup_app. split_and!; [done| |apply NoDup_singleton].
      intros x Hx ->%list_elem_of_singleton. specialize (Hle d Hx). lia.
    + intros n [Hn|[-> ?]]%Hnz1; rewrite Hd; [specialize (Hle n Hn)|rewrite bool_decide_eq_true_2 by done]; [case_bool_decide|]; lia.
Qed.

(** *** Sorting *)

Lemma insert_by_perm ord x l : insert_by ord x l ≡ₚ x :: l.
Proof. induction l as [|y l IH]; cbn; [done|]. case_match; [done|]. rewrite IH. constructor. Qed.

Lemma sort_by_perm ord l : sort_by ord l ≡ₚ l.
Proof. unfold sort_by. induction l as [|x l IH]; cbn; [done|]. rewrite insert_by_perm. by rewrite IH. Qed.

Definition in_order (ord : string -> Z) : relation string := fun a b => ord a <= ord b.

Lemma insert_by_sorted ord x l :
  StronglySorted (in_order ord) l -> StronglySorted (in_order ord) (insert_by ord x l).
Proof.
  induction 1 as [|y l Hs IH Hall]; cbn; [repeat constructor|].
  destruct (Z.leb_spec (ord x) (ord y)).
  - constructor; [by constructor|]. constructor; [done|]. eapply Forall_impl; [done|].
    unfold in_order. intros z ?. lia.
  - constructor; [done|]. apply list.Forall_forall. intros z. rewrite insert_by_perm, elem_of_cons.
    rewrite list.Forall_forall in Hall. intros [->|?]; [unfold in_order; lia|by apply Hall].
Qed.

Lemma sort_by_sorted ord l : StronglySorted (in_order ord) (sort_by ord l).
Proof. unfold sort_by. induction l; cbn; [constructor|]. by apply insert_by_sorted. Qed.

(** ** The invariant of Kahn's algorithm *)

(** Arcs go from a dependency to its dependent. *)
Local Abbreviation arc := (string * string)%type.

Definition out_of (A : list arc) (d : string) : list string := (filter (fun a => a.1 = d) A).*2.

(** The arcs into [n] from a node not yet in [R]. *)
Definition pending (A : list arc) (R : list string) (n : string) : Z :=
  cnt n (filter (fun a => a.1 ∉ R) A).*2.

Lemma pending_step A R d n :
  d ∉ R -> pending A (R ++ [d]) n = pending A R n - cnt n (out_of A d).
Proof.
  intros Hd. unfold pending, out_of. induction A as [|[x y] A IH]; [done|].
  destruct (decide (x = d)) as [->|Hxd].
  - rewrite (filter_cons_False (fun a => a.1 ∉ R ++ [d])) by (cbn; rewrite not_elem_of_app, list_elem_of_singleton; tauto).
    rewrite (filter_cons_True (fun a => a.1 ∉ R)), (filter_cons_True (fun a => a.1 = d)) by done.
    cbn. rewrite IH. lia.
  - rewrite (filter_cons_False (fun a => a.1 = d)) by done. destruct (decide (x ∈ R)).
    + rewrite !(filter_cons_False (fun a => a.1 ∉ _)); [done|cbn; tauto|cbn; rewrite not_elem_of_app; tauto].
    + rewrite !(filter_cons_True (fun a => a.1 ∉ _)); [cbn; rewrite IH; lia|done|].
      cbn. rewrite not_elem_of_app, list_elem_of_singleton. tauto.
Qed.

Lemma pending_nonneg A R n : 0 <= pending A R n.
Proof. apply cnt_nonneg. Qed.

Lemma pending_pos A R n : 0 < pending A R n <-> exists d, (d, n) ∈ A /\ d ∉ R.
Proof.
  unfold pending. rewrite cnt_pos, list_elem_of_fmap. split.
  - intros ([d n'] & -> & [? ?]%list_elem_of_filter). eauto.
  - intros (d & ? & ?). exists (d, n). split; [done|]. by apply list_elem_of_filter.
Qed.

Lemma pending_zero A R n : pending A R n = 0 <-> forall d, (d, n) ∈ A -> d ∈ R.
Proof.
  pose proof (pending_nonneg A R n). split.
  - intros Hz d Hd. destruct (decide (d ∈ R)); [done|].
    assert (0 < pending A R n); [apply pending_pos; eauto|lia].
  - intros Hall. destruct (decide (0 < pending A R n)) as [(d & ? & Hn)%pending_pos|]; [|lia].
    by destruct Hn; apply Hall.
Qed.

(** [g] has the nodes [N] and the arcs [A]. *)
Record represents (g : Graph) (N : list string) (A : list arc) : Prop := {
  rep_nodup : NoDup N;
  rep_nodes : forall n, is_Some (nodes g !! n) <-> n ∈ N;
  rep_size : size (nodes g) = length N;
  rep_edges : forall d, default [] (edges g !! d) = out_of A d;
  rep_deg : forall n, deg (inDegree g) n = pending A [] n;
  rep_arcs : forall d n, (d, n) ∈ A -> d ∈ N /\ n ∈ N;
}.

(** Dependencies come first in [R]. *)
Definition topo (A : list arc) (R : list string) : Prop :=
  forall i n, R !! i = Some n -> forall d, (d, n) ∈ A -> exists j, (j < i)%nat /\ R !! j = Some d.

Record kahn_inv (N : list string) (A : list arc) (queue : list string) (indeg : gmap string Z)
    (R : list string) : Prop := {
  ki_nodup : NoDup R;
  ki_nodup_queue : NoDup queue;
  ki_sub : forall n, n ∈ R -> n ∈ N;
  ki_deg : forall n, deg indeg n = pending A R n;
  ki_queue : forall n, n ∈ queue <-> n ∈ N /\ (n ∉ R) /\ pending A R n = 0;
  ki_topo : topo A R;
}.

Lemma topo_snoc A R n : topo A R -> (forall d, (d, n) ∈ A -> d ∈ R) -> topo A (R ++ [n]).
Proof.
  intros Ht Hn i m Hi d Hd. apply lookup_app_Some in Hi as [Hi|[Hge Hi]].
  - destruct (Ht i m Hi d Hd) as (j & ? & Hj). exists j. split; [done|]. by apply lookup_app_l_Some.
  - apply list_lookup_singleton_Some in Hi as [? <-].
    destruct (proj1 (list_elem_of_lookup _ _) (Hn d Hd)) as [j Hj]. exists j.
    pose proof (lookup_lt_Some _ _ _ Hj). split; [lia|]. by apply lookup_app_l_Some.
Qed.

Lemma kahn_inv_step g N A name queue indeg R indeg' nz :
  represents g N A -> kahn_inv N A (name :: queue) indeg R ->
  relax (default [] (edges g !! name)) indeg [] = (indeg', nz) ->
  kahn_inv N A (match nz with [] => queue | _ => sort_by (deg (order g)) (queue ++ nz) end) indeg' (R ++ [name]).
Proof.
  intros [HN Hnodes Hsize Hedges Hdeg Harcs] [HR Hq Hsub Hd Hqueue Htopo] (Hdeg' & Hin & Hnd)%relax_spec.
  rewrite Hedges in *. apply NoDup_cons in Hq as [Hname Hq].
  destruct (proj1 (Hqueue name)) as (HnN & HnR & Hn0); [left|].
  assert (queue ++ nz ≡ₚ match nz with [] => queue | _ => sort_by (deg (order g)) (queue ++ nz) end) as Hperm.
  { destruct nz; [by rewrite app_nil_r|]. by rewrite sort_by_perm. }
  assert (forall n, pending A (R ++ [name]) n = pending A R n - cnt n (out_of A name)) as Hstep
    by (intros n; by apply pending_step).
  assert (forall n, n ∈ nz <-> 0 < pending A R n /\ pending A (R ++ [name]) n = 0) as Hnz.
  { intros n. rewrite Hin, Hd, Hstep, elem_of_nil.
    pose proof (pending_nonneg A (R ++ [name]) n) as Hge. rewrite Hstep in Hge. split; [intros [[]|?]; lia|intros ?; right; lia]. }
  split.
  - apply list.NoDup_app. split_and!; [done| |apply NoDup_singleton]. by intros x Hx ->%list_elem_of_singleton.
  - rewrite <-Hperm. apply list.NoDup_app. split_and!; [done| |].
    + intros x Hx [? _]%Hnz. destruct (proj1 (Hqueue x)) as (_ & _ & ?); [by right|]. lia.
    + apply Hnd; [constructor|by intros ? []%not_elem_of_nil].
  - intros n [?| ->%list_elem_of_singleton]%elem_of_app; auto.
  - intros n. rewrite Hdeg', Hd, Hstep. done.
  - intros n. rewrite <-Hperm, elem_of_app, Hnz, not_elem_of_app, list_elem_of_singleton.
    pose proof (pending_nonneg A R n). pose proof (pending_nonneg A (R ++ [name]) n). pose proof (cnt_nonneg n (out_of A name)). specialize (Hstep n). split.
    + intros [Hx|[? ?]].
      * destruct (proj1 (Hqueue n)) as (? & ? & ?); [by right|]. split_and!; [done|done| |lia]. by intros ->.
      * assert (0 < pending A R n) as (d & Hda & HdR)%pending_pos by done.
        split_and!; [by apply (Harcs d)| | |done].
        -- intros [i Hi]%list_elem_of_lookup. apply HdR.
           destruct (Htopo i n Hi d Hda) as (j & _ & Hj). by eapply list_elem_of_lookup_2.
        -- intros ->. lia.
    + intros (HnN' & [HnR' Hne] & Hz). destruct (decide (pending A R n = 0)); [|right; lia]. left.
      assert (n ∈ name :: queue) as [E|?]%elem_of_cons by (by apply Hqueue); [by subst|done].
  - apply topo_snoc; [done|]. by apply pending_zero.
Qed.

(** The items under the names of [R]. *)
Definition items_of (g : Graph) (R : list string) : list T :=
  (fun n => default zero (nodes g !! n)) <$> R.

Lemma kahn_inv_le N A queue indeg R : NoDup N -> kahn_inv N A queue indeg R -> (length R <= length N)%nat.
Proof. intros HN [HR _ Hsub _ _ _]. apply submseteq_length, NoDup_submseteq; done. Qed.

Lemma kahn_inv_lt N A name queue indeg R :
  NoDup N -> kahn_inv N A (name :: queue) indeg R -> (length R < length N)%nat.
Proof.
  intros HN [HR _ Hsub _ Hq _]. destruct (proj1 (Hq name)) as (? & ? & _); [left|].
  enough (length (R ++ [name]) <= length N)%nat by (rewrite length_app in *; cbn in *; lia).
  apply submseteq_length, NoDup_submseteq.
  - apply list.NoDup_app. split_and!; [done| |apply NoDup_singleton]. by intros x Hx ->%list_elem_of_singleton.
  - intros n [?| ->%list_elem_of_singleton]%elem_of_app; auto.
Qed.

Lemma kahn_spec fuel g N A queue indeg R :
  represents g N A -> kahn_inv N A queue indeg R -> (length N <= fuel + length R)%nat ->
  exists R' indeg', kahn fuel g queue indeg (items_of g R) = Some (items_of g R', indeg') /\
    kahn_inv N A [] indeg' R'.
Proof.
  intros Hrep. revert queue indeg R.
  induction fuel as [|fuel IH]; intros [|name queue] indeg R Hinv Hf; cbn [kahn]; try (by exists R, indeg).
  { apply kahn_inv_lt in Hinv; [lia|apply Hrep]. }
  destruct (relax _ indeg []) as [indeg' nz] eqn:Er.
  assert (items_of g R ++ [default zero (nodes g !! name)] = items_of g (R ++ [name])) as ->
    by (unfold items_of; by rewrite fmap_app).
  apply IH; [by eapply kahn_inv_step|]. rewrite length_app. cbn. lia.
Qed.

Lemma kahn_start g N A :
  represents g N A ->
  kahn_inv N A (sort_by (deg (order g))
    (filter (fun name => deg (inDegree g) name = 0) (map_to_list (nodes g)).*1)) (inDegree g) [].
Proof.
  intros [HN Hnodes Hsize Hedges Hdeg Harcs]. split.
  - constructor.
  - rewrite sort_by_perm. apply list.NoDup_filter, NoDup_fst_map_to_list.
  - by intros n []%not_elem_of_nil.
  - done.
  - intros n. rewrite sort_by_perm, list_elem_of_filter, list_elem_of_fmap, <-Hnodes, Hdeg, elem_of_nil. split.
    + intros [? ([n' t] & -> & Hin%elem_of_map_to_list)]. cbn. rewrite Hin. split_and!; auto.
    + intros ([t Ht] & _ & ?). split; [done|]. exists (n, t). split; [done|]. by apply elem_of_map_to_list.
  - by intros i n Hi.
Qed.

(** The sort lists the nodes that are not behind a cycle; the rest each wait for
    another of them. *)
Lemma sort_spec g N A :
  represents g N A ->
  exists R, NoDup R /\ (forall n, n ∈ R -> n ∈ N) /\ topo A R /\
    (forall n, n ∈ N -> n ∉ R -> exists d, (d, n) ∈ A /\ d ∉ R) /\
    exists msg, TopologicalSort g =
      Some (if (length R =? length N)%nat then inr (items_of g R)
            else inl (Errors.Wrapf ErrCyclicDependency msg)).
Proof.
  intros Hrep. pose proof (rep_size _ _ _ Hrep) as Hsize. unfold TopologicalSort.
  destruct (Nat.eqb_spec (size (nodes g)) 0) as [H0|H0].
  { exists []. assert (N = []) as -> by (destruct N; [done|cbn in *; lia]).
    split_and!; [constructor|done|by intros i n Hi|by intros n []%not_elem_of_nil|by exists ""]. }
  destruct (kahn_spec (sort_fuel g) g N A _ _ [] Hrep (kahn_start g N A Hrep)) as (R & indeg' & Hrun & Hinv).
  { unfold sort_fuel. cbn. lia. }
  change (items_of g []) with (@nil T) in Hrun. rewrite Hrun.
  destruct Hinv as [HR _ Hsub Hd Hq Ht]. exists R. split_and!; [done|done|done| |].
  - intros n Hn HnR. apply pending_pos. pose proof (pending_nonneg A R n).
    destruct (decide (pending A R n = 0)); [|lia]. assert (n ∈ []) as []%not_elem_of_nil by (by apply Hq).
  - unfold items_of at 1. rewrite length_fmap, Hsize. eexists. by destruct (length R =? length N)%nat.
Qed.

(** ** The graph [Build] makes *)

Lemma AddEdge_rep g N A d n :
  represents g N A -> d ∈ N -> n ∈ N -> represents (AddEdge g d n) N (A ++ [(d, n)]).
Proof.
  intros [HN Hnodes Hsize Hedges Hdeg Harcs] Hd Hn. split; try done.
  - intros d'. cbn. unfold out_of. rewrite filter_app, fmap_app. fold (out_of A d').
    rewrite filter_cons. cbn. destruct (decide (d' = d)) as [->|Hne].
    + rewrite lookup_insert_eq, decide_True by done. cbn. by rewrite Hedges.
    + rewrite lookup_insert_ne, decide_False by done. cbn. by rewrite Hedges, app_nil_r.
  - intros n'. cbn. rewrite deg_insert, !Hdeg. unfold pending. rewrite filter_app, fmap_app, cnt_app.
    rewrite (filter_cons_True (fun a => a.1 ∉ [])) by apply not_elem_of_nil. cbn.
    repeat case_bool_decide; subst; try done; lia.
  - intros d' n' [?|E%list_elem_of_singleton]%elem_of_app; [by apply Harcs|]. by injection E as -> ->.
Qed.

Lemma HasNode_rep g N A n : represents g N A -> HasNode g n = true <-> n ∈ N.
Proof.
  intros Hrep. rewrite <-(rep_nodes _ _ _ Hrep). unfold HasNode.
  destruct (nodes g !! n); split; try done; by intros [].
Qed.

Lemma add_required_rep name deps added g N A :
  represents g N A -> name ∈ N ->
  match add_required name deps added g with
  | inr (g', added') => Forall (fun d => d ∈ N) deps /\ nodes g' = nodes g /\ order g' = order g /\
      represents g' N (A ++ ((fun d => (d, name)) <$> deps)) /\ (forall d, d ∈ added' <-> d ∈ added \/ d ∈ deps)
  | inl e => ~ Forall (fun d => d ∈ N) deps
  end.
Proof.
  intros Hrep Hname. revert added g A Hrep. induction deps as [|d deps IH]; intros added g A Hrep; cbn [add_required].
  { split_and!; [constructor|done|done|by rewrite app_nil_r|]. intros d. rewrite elem_of_nil. tauto. }
  destruct (HasNode g d) eqn:Hd; cbn [negb].
  - apply (HasNode_rep _ _ _ _ Hrep) in Hd.
    specialize (IH ({[d]} ∪ added) (AddEdge g d name) _ (AddEdge_rep _ _ _ _ _ Hrep Hd Hname)).
    destruct (add_required _ _ _ _) as [e|[g' added']].
    + intros Hall. apply IH. by inversion Hall.
    + destruct IH as (? & ? & ? & Hrep' & Hadd). split_and!; [by constructor|done|done|by rewrite <-app_assoc in Hrep'|].
      intros d'. rewrite Hadd, elem_of_union, elem_of_singleton, elem_of_cons. tauto.
  - intros Hall. inversion Hall as [|? ? Hd']; subst. apply (HasNode_rep _ _ _ _ Hrep) in Hd'. congruence.
Qed.

Lemma add_optional_rep name deps added g N A :
  represents g N A -> name ∈ N ->
  let g' := add_optional name deps added g in
  nodes g' = nodes g /\ order g' = order g /\
  represents g' N (A ++ ((fun d => (d, name)) <$> filter (fun d => (d ∉ added) /\ d ∈ N) deps)).
Proof.
  intros Hrep Hname. revert g A Hrep. induction deps as [|d deps IH]; intros g A Hrep; cbn [add_optional].
  { by rewrite app_nil_r. }
  case_bool_decide as Ha; [rewrite filter_cons_False by tauto; by apply IH|].
  destruct (HasNode g d) eqn:Hd.
  - apply (HasNode_rep _ _ _ _ Hrep) in Hd. rewrite filter_cons_True by done.
    destruct (IH (AddEdge g d name) _ (AddEdge_rep _ _ _ _ _ Hrep Hd Hname)) as (? & ? & Hrep').
    by rewrite <-app_assoc in Hrep'.
  - rewrite filter_cons_False; [by apply IH|]. intros [_ Hd']. apply (HasNode_rep _ _ _ _ Hrep) in Hd'. congruence.
Qed.

(** The arcs an item declares, among the names [N]. *)
Definition arcs_of (N : list string) (item : T) : list arc :=
  (fun d => (d, Name item)) <$>
    RequiredDependencies item ++ filter (fun d => (d ∉ RequiredDependencies item) /\ d ∈ N) (Dependencies item).

Definition required_ok (N : list string) (item : T) : Prop :=
  Forall (fun d => d ∈ N) (RequiredDependencies item).

Lemma add_edges_rep items g N A :
  represents g N A -> (forall item, item ∈ items -> Name item ∈ N) ->
  match add_edges items g with
  | inr g' => Forall (required_ok N) items /\ nodes g' = nodes g /\ order g' = order g /\
      represents g' N (A ++ (items ≫= arcs_of N))
  | inl e => ~ Forall (required_ok N) items
  end.
Proof.
  revert g A. induction items as [|item items IH]; intros g A Hrep Hnames; cbn [add_edges].
  { split_and!; [constructor|done|done|by rewrite app_nil_r]. }
  assert (Name item ∈ N) as Hname by (apply Hnames; left).
  pose proof (add_required_rep (Name item) (RequiredDependencies item) ∅ g N A Hrep Hname) as Hreq.
  destruct (add_required _ _ _ _) as [e|[g1 added]].
  { intros Hall. apply Hreq. by inversion Hall. }
  destruct Hreq as (Hall1 & Hn1 & Ho1 & Hrep1 & Hadd).
  destruct (add_optional_rep (Name item) (Dependencies item) added g1 N _ Hrep1 Hname) as (Hn2 & Ho2 & Hrep2).
  rewrite <-app_assoc, <-fmap_app in Hrep2.
  rewrite (list_filter_iff _ (fun d => (d ∉ RequiredDependencies item) /\ d ∈ N)) in Hrep2
    by (intros d; rewrite Hadd, elem_of_empty; tauto).
  specialize (IH _ _ Hrep2 ltac:(intros; apply Hnames; by right)).
  destruct (add_edges items _) as [e|g'].
  - intros Hall. apply IH. by inversion Hall.
  - destruct IH as (? & Hn3 & Ho3 & Hrep3). rewrite <-app_assoc in Hrep3.
    split_and!; [by constructor|congruence|congruence|done].
Qed.

Lemma AddNode_rep g N n item :
  represents g N [] -> n ∉ N -> represents (AddNode g n item) (N ++ [n]) [].
Proof.
  intros Hrep Hn. assert (HasNode g n = false) as Hh.
  { destruct (HasNode g n) eqn:E; [|done]. by apply (HasNode_rep _ _ _ _ Hrep) in E. }
  destruct Hrep as [HN Hnodes Hsize Hedges Hdeg Harcs]. unfold AddNode. rewrite Hh.
  assert (nodes g !! n = None) as Hnone by (apply eq_None_not_Some; by rewrite Hnodes).
  split; cbn; try done.
  - apply list.NoDup_app. split_and!; [done| |apply NoDup_singleton]. by intros x Hx ->%list_elem_of_singleton.
  - intros m. rewrite lookup_insert_is_Some, Hnodes, elem_of_app, list_elem_of_singleton.
    destruct (decide (n = m)) as [->|]; [tauto|]. split; [intros [?|[_ ?]]; auto; congruence|].
    intros [?| ->]; auto.
  - rewrite map_size_insert_None, length_app by done. cbn. lia.
  - intros m. rewrite deg_insert, Hdeg. by case_bool_decide.
  - by intros d m []%not_elem_of_nil.
Qed.

Definition in_place (g : Graph) (N : list string) : Prop :=
  forall k n, N !! k = Some n -> deg (order g) n = Z.of_nat k.

Lemma add_nodes_rep i items g N :
  represents g N [] -> in_place g N ->
  match add_nodes i items g with
  | inr g' => Forall (fun item => Name item <> "") items /\ represents g' (N ++ (Name <$> items)) [] /\
      in_place g' (N ++ (Name <$> items)) /\ nodes g ⊆ nodes g' /\
      (forall item, item ∈ items -> nodes g' !! Name item = Some item)
  | inl e => ~ (Forall (fun item => Name item <> "") items /\ NoDup (N ++ (Name <$> items)))
  end.
Proof.
  revert i g N. induction items as [|item items IH]; intros i g N Hrep Hord; cbn [add_nodes].
  { rewrite app_nil_r. split_and!; [constructor|done|done|done|by intros ? []%not_elem_of_nil]. }
  case_bool_decide as He; [intros [Hall _]; by inversion Hall|].
  destruct (HasNode g (Name item)) eqn:Hh.
  { apply (HasNode_rep _ _ _ _ Hrep) in Hh. intros [_ Hnd]. apply list.NoDup_app in Hnd as (_ & Hdis & _).
    apply (Hdis _ Hh). left. }
  assert (Name item ∉ N) as Hn by (rewrite <-(HasNode_rep _ _ _ _ Hrep), Hh; done).
  assert (in_place (AddNode g (Name item) item) (N ++ [Name item])) as Hord'.
  { intros k n Hk. unfold AddNode. rewrite Hh. cbn. rewrite deg_insert.
    apply lookup_app_Some in Hk as [Hk|[Hge Hk]].
    - rewrite bool_decide_eq_false_2; [by apply Hord|]. intros ->. by eapply Hn, list_elem_of_lookup_2.
    - apply list_lookup_singleton_Some in Hk as [Hk <-]. rewrite bool_decide_eq_true_2 by done.
      rewrite (rep_size _ _ _ Hrep). lia. }
  specialize (IH (S i) _ _ (AddNode_rep _ _ _ item Hrep Hn) Hord').
  rewrite <-app_assoc in IH. destruct (add_nodes _ items _) as [e|g'].
  { intros [Hall Hnd]. apply IH. split; [by inversion Hall|done]. }
  destruct IH as (? & ? & ? & Hsub & Hin). split_and!; [by constructor|done|done| |].
  - etrans; [|exact Hsub]. unfold AddNode. rewrite Hh. apply insert_subseteq.
    apply eq_None_not_Some. by rewrite (rep_nodes _ _ _ Hrep).
  - intros x [->|?]%elem_of_cons; [|by apply Hin]. eapply lookup_weaken, Hsub.
    unfold AddNode. rewrite Hh. apply lookup_insert_eq.
Qed.

Lemma New_rep : represents New [] [].
Proof.
  split; try done; [constructor| |by intros d n []%not_elem_of_nil].
  intros n. split; [by intros [? ?]|by intros []%not_elem_of_nil].
Qed.

(** ** What [Build] guarantees *)

Local Abbreviation names := (fmap Name).

(** What [Build] checks before it sorts. *)
Definition valid (items : list T) : Prop :=
  Forall (fun item => Name item <> "") items /\ NoDup (names items) /\
  Forall (required_ok (names items)) items.

(** [item] declares the present name [d]. *)
Definition needs (items : list T) (item : T) (d : string) : Prop :=
  d ∈ names items /\ (d ∈ RequiredDependencies item \/ d ∈ Dependencies item).

Lemma elem_of_arcs items d n :
  Forall (required_ok (names items)) items ->
  (d, n) ∈ (items ≫= arcs_of (names items)) <->
  exists item, item ∈ items /\ Name item = n /\ needs items item d.
Proof.
  intros Hreq. rewrite list_elem_of_bind. unfold arcs_of, needs. split.
  - intros (item & (d' & E & Hd')%list_elem_of_fmap & Hitem). injection E as -> ->. exists item.
    rewrite list.Forall_forall in Hreq. specialize (Hreq item Hitem). unfold required_ok in Hreq.
    rewrite list.Forall_forall in Hreq. split_and!; [done|done| |].
    + apply elem_of_app in Hd' as [?|[[_ ?] _]%list_elem_of_filter]; auto.
    + apply elem_of_app in Hd' as [?|[_ ?]%list_elem_of_filter]; auto.
  - intros (item & Hitem & <- & Hn & Hd). exists item. split; [|done]. apply list_elem_of_fmap. exists d.
    split; [done|]. apply elem_of_app. destruct (decide (d ∈ RequiredDependencies item)); [by left|right].
    apply list_elem_of_filter. split; [done|]. by destruct Hd.
Qed.

Lemma Build_cases items :
  items <> [] ->
  (~ valid items /\ exists e, Build items = Some (inl e)) \/
  (valid items /\ exists g, represents g (names items) (items ≫= arcs_of (names items)) /\
     in_place g (names items) /\ (forall item, item ∈ items -> nodes g !! Name item = Some item) /\
     Build items = match TopologicalSort g with
                   | None => None
                   | Some (inl e) => Some (inl (ErrWrap "dependency ordering failed: " e))
                   | Some (inr sorted) => Some (inr sorted)
                   end).
Proof.
  intros Hne. unfold Build, valid. destruct (Nat.eqb_spec (length items) 0) as [E|_]; [by destruct items|].
  pose proof (add_nodes_rep 0 items New [] New_rep ltac:(done)) as Hnodes. cbn [app] in Hnodes.
  destruct (add_nodes 0 items New) as [e|g].
  { left. split; [|by eexists]. intros (? & ? & _). by apply Hnodes. }
  destruct Hnodes as (Hemp & Hrep & Hord & _ & Hin).
  pose proof (add_edges_rep items g (names items) [] Hrep) as Hedges.
  specialize (Hedges ltac:(intros; by apply list_elem_of_fmap_2)).
  destruct (add_edges items g) as [e|g'].
  { left. split; [|by eexists]. intros (_ & _ & ?). by apply Hedges. }
  destruct Hedges as (Hreq & Hn & Ho & Hrep'). right.
  split; [split_and!; [done|apply Hrep|done]|]. exists g'. cbn [app] in Hrep'.
  split_and!; [done|by unfold in_place; rewrite Ho|by rewrite Hn|done].
Qed.

Lemma items_of_names g items :
  (forall item, item ∈ items -> nodes g !! Name item = Some item) -> items_of g (names items) = items.
Proof.
  unfold items_of. induction items as [|x items IH]; intros Hin; cbn; [done|].
  rewrite Hin by left. cbn. f_equal. apply IH. intros. apply Hin. by right.
Qed.

(** All names are sorted: the list is a permutation, in dependency order. *)
Lemma sorted_all items g R :
  valid items -> represents g (names items) (items ≫= arcs_of (names items)) ->
  (forall item, item ∈ items -> nodes g !! Name item = Some item) ->
  NoDup R -> (forall n, n ∈ R -> n ∈ names items) -> length R = length items ->
  topo (items ≫= arcs_of (names items)) R ->
  R ≡ₚ names items /\ items_of g R ≡ₚ items /\
  forall i item, items_of g R !! i = Some item -> forall d, needs items item d ->
    exists j dep, (j < i)%nat /\ items_of g R !! j = Some dep /\ Name dep = d.
Proof.
  intros (_ & _ & Hreq) Hrep Hin HR Hsub Hlen Htopo.
  assert (R ≡ₚ names items) as Hperm.
  { apply submseteq_length_Permutation; [by apply NoDup_submseteq|]. rewrite length_fmap. lia. }
  split; [done|]. split; [rewrite <-(items_of_names g items Hin); unfold items_of; by rewrite Hperm|].
  assert (forall k item, items_of g R !! k = Some item -> R !! k = Some (Name item) /\ item ∈ items) as Hat.
  { intros k item Hk. unfold items_of in Hk. rewrite list_lookup_fmap in Hk.
    destruct (R !! k) as [n|] eqn:Hn; [|done]. cbn in Hk. injection Hk as Hk.
    assert (n ∈ names items) as (x & -> & Hx)%list_elem_of_fmap by (rewrite <-Hperm; by eapply list_elem_of_lookup_2).
    rewrite Hin in Hk by done. cbn in Hk. by subst. }
  intros i item Hi d Hd. destruct (Hat _ _ Hi) as [Hn Hitem].
  destruct (Htopo i _ Hn d) as (j & Hj & Hdj); [apply elem_of_arcs; eauto|].
  assert (is_Some (items_of g R !! j)) as [dep Hdep].
  { unfold items_of. rewrite list_lookup_fmap, Hdj. by eexists. }
  exists j, dep. split_and!; [done|done|]. destruct (Hat _ _ Hdep) as [E _]. congruence.
Qed.

(** [Build] always returns, and a list it returns holds every item exactly
    once with each of its present dependencies, required or optional, somewhere
    before it. *)
Theorem build_sorts items :
  exists r, Build items = Some r /\
    forall out, r = inr out ->
      out ≡ₚ items /\
      forall i item, out !! i = Some item -> forall d, needs items item d ->
        exists j dep, (j < i)%nat /\ out !! j = Some dep /\ Name dep = d.
Proof.
  destruct items as [|x rest] eqn:E.
  { exists (inr []). split; [done|]. intros out [= <-]. split; [done|]. intros i item Hi. done. }
  rewrite <-E. destruct (Build_cases items) as [[_ [e ->]]|(Hv & g & Hrep & Hord & Hin & ->)]; [by subst|by exists (inl e)|].
  destruct (sort_spec g _ _ Hrep) as (R & HR & Hsub & Htopo & _ & msg & ->).
  rewrite length_fmap. destruct (Nat.eqb_spec (length R) (length items)); [|by eexists].
  eexists. split; [done|]. intros out [= <-]. by apply sorted_all.
Qed.

(** The position of a name. *)
Definition pos (R : list string) (n : string) : nat := default 0%nat (fst <$> list_find (fun m => m = n) R).

Lemma pos_lookup R i n : NoDup R -> R !! i = Some n -> pos R n = i.
Proof.
  intros HR Hi. unfold pos. destruct (list_find (fun m => m = n) R) as [[j m]|] eqn:E.
  - apply list_find_Some in E as (Hj & -> & _). cbn. by eapply NoDup_lookup.
  - apply list_find_None in E. rewrite list.Forall_forall in E. exfalso. by eapply (E n), eq_refl; eapply list_elem_of_lookup_2.
Qed.

(** A ranking of the names under which every item is above its dependencies:
    what makes the declared dependencies acyclic. *)
Definition acyclic (items : list T) : Prop :=
  exists rank : string -> nat, forall item d, item ∈ items -> needs items item d -> (rank d < rank (Name item))%nat.

Lemma sort_all_acyclic g items R :
  acyclic items -> valid items -> represents g (names items) (items ≫= arcs_of (names items)) ->
  NoDup R -> (forall n, n ∈ R -> n ∈ names items) ->
  (forall n, n ∈ names items -> n ∉ R -> exists d, (d, n) ∈ (items ≫= arcs_of (names items)) /\ d ∉ R) ->
  length R = length items.
Proof.
  intros [rank Hrank] (_ & Hnd & Hreq) Hrep HR Hsub Hwait.
  assert (forall k n, (rank n < k)%nat -> n ∈ names items -> n ∈ R) as Hall.
  { induction k as [|k IH]; intros n Hk Hn; [lia|]. destruct (decide (n ∈ R)); [done|].
    destruct (Hwait n Hn) as (d & Hd & HdR); [done|]. destruct HdR. apply IH.
    - apply elem_of_arcs in Hd as (item & ? & <- & ?); [|done]. specialize (Hrank item d). naive_solver lia.
    - by apply (rep_arcs _ _ _ Hrep) in Hd as [? _]. }
  rewrite <-(length_fmap Name items). apply Permutation_length, NoDup_Permutation; [done|done|].
  intros n. split; [apply Hsub|]. intros Hn. by apply (Hall (S (rank n))); [lia|].
Qed.

(** C38: [Build] succeeds exactly when every name is non-empty and distinct,
    every required dependency is present, and the dependencies are acyclic. *)
Theorem build_succeeds_iff items :
  (exists out, Build items = Some (inr out)) <-> valid items /\ acyclic items.
Proof.
  destruct (decide (items = [])) as [->|Hne].
  { split; [|by exists []]. intros _. split; [split_and!; constructor|]. exists (fun _ => 0%nat).
    by intros ? ? []%not_elem_of_nil. }
  destruct (Build_cases items Hne) as [[Hv [e ->]]|(Hv & g & Hrep & Hord & Hin & ->)].
  { split; [by intros []|tauto]. }
  destruct (sort_spec g _ _ Hrep) as (R & HR & Hsub & Htopo & Hwait & msg & ->).
  rewrite length_fmap. destruct (Nat.eqb_spec (length R) (length items)) as [Hlen|Hlen].
  - split; [|by eexists]. intros _. split; [done|].
    assert (R ≡ₚ names items) as Hperm.
    { apply submseteq_length_Permutation; [by apply NoDup_submseteq|]. rewrite length_fmap. lia. }
    exists (pos R). intros item d Hitem Hd.
    assert (Name item ∈ R) as [i Hi]%list_elem_of_lookup by (rewrite Hperm; by apply list_elem_of_fmap_2).
    destruct (Htopo i _ Hi d) as (j & Hj & Hdj); [apply elem_of_arcs; [apply Hv|eauto]|].
    by rewrite (pos_lookup R j d HR Hdj), (pos_lookup R i _ HR Hi).
  - split; [by intros []|]. intros [_ Hac]. exfalso. apply Hlen. by eapply sort_all_acyclic.
Qed.

(** *** Stability *)

Lemma kahn_prefix fuel g N A queue indeg k :
  represents g N A -> in_place g N -> topo A N -> kahn_inv N A queue indeg (take k N) ->
  StronglySorted (in_order (deg (order g))) queue -> (k <= length N)%nat -> (length N <= fuel + k)%nat ->
  exists indeg', kahn fuel g queue indeg (items_of g (take k N)) = Some (items_of g N, indeg').
Proof.
  intros Hrep Hplace Htopo. revert queue indeg k. induction fuel as [|fuel IH]; intros queue indeg k Hinv Hsort Hk Hf.
  all: destruct (decide (k = length N)) as [->|Hne]; [|try lia].
  1,2: rewrite firstn_all in *; destruct queue as [|q queue]; [by eexists|];
    apply kahn_inv_lt in Hinv; [lia|apply Hrep].
  destruct (lookup_lt_is_Some_2 N k) as [n Hn]; [lia|]. pose proof (rep_nodup _ _ _ Hrep) as HN.
  assert (n ∈ queue) as Hq.
  { apply (ki_queue _ _ _ _ _ Hinv). split_and!; [by eapply list_elem_of_lookup_2| |].
    - intros [j [Hj ?]%lookup_take_Some]%list_elem_of_lookup. assert (j = k) by (by eapply NoDup_lookup). lia.
    - apply pending_zero. intros d Hd. destruct (Htopo k n Hn d Hd) as (j & ? & Hj).
      eapply list_elem_of_lookup_2, lookup_take_Some. eauto. }
  destruct queue as [|q queue]; [by apply not_elem_of_nil in Hq|].
  assert (q = n) as ->.
  { destruct (proj1 (ki_queue _ _ _ _ _ Hinv q)) as ([i Hi]%list_elem_of_lookup & HqR & _); [left|].
    assert (k <= i)%nat. { destruct (decide (i < k)%nat); [|lia]. destruct HqR.
      eapply list_elem_of_lookup_2, lookup_take_Some. eauto. }
    apply elem_of_cons in Hq as [?|Hq]; [done|]. inversion Hsort as [|? ? _ Hall]; subst.
    rewrite list.Forall_forall in Hall. specialize (Hall n Hq). unfold in_order in Hall.
    rewrite (Hplace _ _ Hi), (Hplace _ _ Hn) in Hall. assert (i = k) as -> by lia. congruence. }
  cbn [kahn]. destruct (relax _ indeg []) as [indeg' nz] eqn:Er.
  assert (items_of g (take k N) ++ [default zero (nodes g !! n)] = items_of g (take (S k) N)) as ->
    by (unfold items_of; by rewrite (take_S_r _ _ _ Hn), fmap_app).
  apply IH; [|..|lia|lia].
  - rewrite (take_S_r _ _ _ Hn). by eapply kahn_inv_step.
  - inversion Hsort; subst. destruct nz; [done|]. apply sort_by_sorted.
Qed.

(** [Build] is stable: items already listed in an order that satisfies
    their dependencies come back unchanged. *)
Theorem build_keeps_order items :
  valid items ->
  (forall i item, items !! i = Some item -> forall d, needs items item d ->
     exists j dep, (j < i)%nat /\ items !! j = Some dep /\ Name dep = d) ->
  Build items = Some (inr items).
Proof.
  intros Hv Horder. destruct (decide (items = [])) as [->|Hne]; [done|].
  destruct (Build_cases items Hne) as [[? _]|(_ & g & Hrep & Hplace & Hin & ->)]; [done|].
  assert (topo (items ≫= arcs_of (names items)) (names items)) as Htopo.
  { intros i n Hi d (item & Hitem & <- & Hd)%elem_of_arcs; [|apply Hv].
    rewrite list_lookup_fmap in Hi. destruct (items !! i) as [x|] eqn:Hx; [|done]. injection Hi as Hi.
    assert (x = item) as ->.
    { apply list_elem_of_lookup in Hitem as [i' Hi']. assert (i = i') as ->; [|congruence].
      eapply (NoDup_lookup (names items)); [apply Hv| |]; rewrite list_lookup_fmap, ?Hx, ?Hi'; cbn; [by rewrite Hi|done]. }
    destruct (Horder i item Hx d Hd) as (j & dep & ? & Hj & <-). exists j. split; [done|].
    by rewrite list_lookup_fmap, Hj. }
  pose proof (rep_size _ _ _ Hrep) as Hsize. unfold TopologicalSort.
  rewrite length_fmap in Hsize. destruct (Nat.eqb_spec (size (nodes g)) 0) as [E0|_]; [rewrite E0 in Hsize; by destruct items|].
  destruct (kahn_prefix (sort_fuel g) g _ _ _ _ 0 Hrep Hplace Htopo (kahn_start g _ _ Hrep)) as [indeg' Hrun].
  - apply sort_by_sorted.
  - lia.
  - unfold sort_fuel. rewrite length_fmap. lia.
  - change (items_of g (take 0 (names items))) with (@nil T) in Hrun. rewrite Hrun.
    rewrite items_of_names by done. by rewrite Hsize, Nat.eqb_refl.
Qed.

(** ** [Dedupe] *)

Definition named (items : list T) : list T := filter (fun item => Name item <> "") items.

Lemma dedupe_loop_spec seen items :
  dedupe_loop seen items `sublist_of` items /\
  NoDup (Name <$> named (dedupe_loop seen items)) /\
  (forall n, n ∈ Name <$> named (dedupe_loop seen items) -> n ∉ seen) /\
  (forall item, item ∈ items -> Name item ∉ seen -> exists x, x ∈ dedupe_loop seen items /\ Name x = Name item) /\
  filter (fun item => Name item = "") (dedupe_loop seen items) = filter (fun item => Name item = "") items.
Proof.
  revert seen. induction items as [|item items IH]; intros seen; cbn [dedupe_loop].
  { split_and!; try constructor; by intros ? []%not_elem_of_nil. }
  case_bool_decide as He; [|case_bool_decide as Hs].
  - destruct (IH seen) as (H1 & H2 & H3 & H4 & H5). unfold named.
    rewrite (filter_cons_False (fun item => Name item <> "")) by tauto.
    rewrite !(filter_cons_True (fun item => Name item = "")) by done.
    split_and!; [by constructor|done|done| |by f_equal].
    intros x [->|Hx]%elem_of_cons Hn; [exists item; split; [left|done]|].
    destruct (H4 x Hx Hn) as (y & ? & ?). exists y. split; [by right|done].
  - destruct (IH seen) as (H1 & H2 & H3 & H4 & H5).
    rewrite (filter_cons_False (fun item => Name item = "")) by done.
    split_and!; [by constructor|done|done| |done].
    intros x [->|Hx]%elem_of_cons Hn; [done|]. by apply H4.
  - destruct (IH ({[Name item]} ∪ seen)) as (H1 & H2 & H3 & H4 & H5). unfold named in *.
    rewrite (filter_cons_True (fun item => Name item <> "")) by done.
    rewrite !(filter_cons_False (fun item => Name item = "")) by done. cbn [fmap list_fmap].
    split_and!; [by constructor| | | |done].
    + apply NoDup_cons. split; [|done]. intros Hin%H3. apply Hin, elem_of_union. left. by apply elem_of_singleton.
    + intros n [->|Hin%H3]%elem_of_cons; [done|]. intros ?. apply Hin, elem_of_union. by right.
    + intros x [->|Hx]%elem_of_cons Hn; [exists item; split; [left|done]|].
      destruct (decide (Name x = Name item)) as [E|Hne]; [exists item; split; [left|done]|].
      destruct (H4 x Hx) as (y & ? & ?); [by rewrite elem_of_union, elem_of_singleton; tauto|].
      exists y. split; [by right|done].
Qed.

(** [Dedupe] keeps the order, loses no name, leaves no repeated name, and
    keeps every unnamed item. *)
Theorem dedupe_keeps_names items :
  Dedupe items `sublist_of` items /\ NoDup (Name <$> named (Dedupe items)) /\
  (forall item, item ∈ items -> exists x, x ∈ Dedupe items /\ Name x = Name item) /\
  filter (fun item => Name item = "") (Dedupe items) = filter (fun item => Name item = "") items.
Proof.
  unfold Dedupe. destruct (Nat.ltb_spec (length items) 2) as [Hlt|_].
  - split_and!; [done| |eauto|done]. destruct items as [|a [|b l]]; [constructor| |cbn in Hlt; lia].
    unfold named. rewrite filter_cons. case_decide; cbn; [apply NoDup_singleton|constructor].
  - destruct (dedupe_loop_spec ∅ items) as (? & ? & _ & Hin & ?). split_and!; [done|done| |done].
    intros item Hitem. apply Hin; [done|]. apply not_elem_of_empty.
Qed.
End graph.

(** ** Concrete graphs *)

(** A middleware: its name and what it requires and prefers before it. *)
Definition middleware : Type := string * list string * list string.

#[export] Instance middleware_declarer : Declarer middleware := {
  Name m := m.1.1;
  RequiredDependencies m := m.1.2;
  Dependencies m := m.2;
}.

Definition no_middleware : middleware := ("", [], []).

Definition chain : list middleware :=
  [("log", [], []); ("auth", ["log"], ["trace"]); ("limit", ["auth"], ["log"])].

Example build_reorders :
  Build no_middleware (rev chain) = Some (inr chain).
Proof. vm_compute. reflexivity. Qed.

Lemma build_keeps_order_witness : Build no_middleware chain = Some (inr chain).
Proof.
  apply (build_keeps_order no_middleware chain).
  - split_and!; [repeat constructor; done| |].
    + apply (bool_decide_unpack _). vm_compute. exact I.
    + unfold required_ok. apply (bool_decide_unpack _). vm_compute. exact I.
  - intros [|[|[|i]]] item Hi d [Hd Hdep]; cbn in Hi; simplify_eq; cbn in Hdep.
    + by destruct Hdep as [[]%not_elem_of_nil|[]%not_elem_of_nil].
    + assert ("trace" ∉ Name <$> chain) by (apply (bool_decide_unpack _); vm_compute; exact I).
      destruct Hdep as [->%list_elem_of_singleton| ->%list_elem_of_singleton]; [|done].
      exists 0%nat, ("log", [], []). split_and!; [lia|done|done].
    + rewrite !elem_of_cons, !elem_of_nil in Hdep.
      assert (d = "log" \/ d = "auth") as [-> | ->] by (intuition congruence).
      * exists 0%nat, ("log", [], []). split_and!; [lia|done|done].
      * exists 1%nat, ("auth", ["log"], ["trace"]). split_and!; [lia|done|done].
Defined.

(** Edges to unknown nodes do not always make the sort fail: here [b] waits for
    itself, but the unknown dependent of [a] takes its place in the result as a
    zero value, and the sort reports success. *)
Definition unknown_edge : Graph (T := middleware) :=
  AddEdge (AddEdge (AddNode (AddNode New "a" (("a", [], []) : middleware)) "b" ("b", [], [])) "b" "b") "a" "x".

(** a sort over a graph with an edge to an unknown node can report success
    while leaving out a node that is on a cycle. *)
Theorem sort_unknown_edge_unsound :
  TopologicalSort no_middleware unknown_edge = Some (inr [("a", [], []); no_middleware]).
Proof. vm_compute. reflexivity. Qed.
End DepGraph.
