(* ===== verification/IdempotencyStore.v ===== *)
(** The in-memory storage of idempotency keys:
    data/idempotency/storages/memory/memory.go, with the sweep of
    data/internal/memcleanup.  The storage is a map; its operations take the
    instants they read from the clock. *)

From S2P Require Import Prelude.

Module IdempotencyStore.

Definition ErrEmptyKey : error := ErrNew "idempotency: empty key".
Definition ErrLockStolen : error := ErrNew "idempotency: lock stolen by another holder".
Definition ErrMissingLockState : error := ErrNew "idempotency: missing lock state".

(** A byte slice that may be nil: [len], the bytes, and [bytes.Equal], which
    does not tell a nil slice from an empty one. *)
Abbreviation slice := (option string).
Definition bstr (b : slice) : string := default EmptyString b.
Definition blen (b : slice) : nat := String.length (bstr b).
Definition bytes_Equal (a b : slice) : bool := bool_decide (bstr a = bstr b).

(** *** The in-memory storage *)

Module Memory.

Record entry := Entry { e_key : string; value : slice; expiresAt : Go.time }.

Definition expired (e : entry) (now : Go.time) : bool :=
  negb (Go.is_zero (expiresAt e)) && negb (Go.before now (expiresAt e)).

Abbreviation Store := (gmap string entry).

Section ops.
(** [options.ttl] *)
Variable ttl : Go.duration.

(** The operations hold the mutex throughout: each is one atomic step.  [now]
    and [now'] are the instants [time.Now] returns, in the order of its calls. *)
Definition AttemptLockWithTTL (key : string) (val : slice) (lockTtl : Go.duration) (now now' : Go.time)
    (s : Store) : bool * slice * slice * option error * Store :=
  if String.eqb key EmptyString then (false, None, None, Some ErrEmptyKey, s)
  else
    let ttl := if 0 <? lockTtl then lockTtl else ttl in
    let write s :=
      let e := Entry key val (if 0 <? ttl then now' + ttl else Go.zero_time) in
      (true, None, val, None, <[key := e]> s) in
    match s !! key with
    | Some e =>
        if negb (Go.is_zero (expiresAt e)) && Go.after now (expiresAt e)
        then write (delete key s)
        else (false, value e, None, None, s)
    | None => write s
    end.

Definition AttemptLock (key : string) (val : slice) (now now' : Go.time) (s : Store) :=
  AttemptLockWithTTL key val 0 now now' s.

Definition Complete (key : string) (val lockToken : slice) (now now' : Go.time) (s : Store)
    : option error * Store :=
  if String.eqb key EmptyString then (Some ErrEmptyKey, s)
  else match s !! key with
  | None => (Some ErrLockStolen, s)
  | Some e =>
      if expired e now then (Some ErrLockStolen, s)
      else if bool_decide (lockToken <> None) && negb (bytes_Equal (value e) lockToken)
      then (Some ErrLockStolen, s)
      else (None, <[key := Entry (e_key e) val (if 0 <? ttl then now' + ttl else Go.zero_time)]> s)
  end.

Definition Steal (key : string) (expectedVal newVal : slice) (now now' : Go.time) (s : Store)
    : slice * option error * Store :=
  if String.eqb key EmptyString then (None, Some ErrEmptyKey, s)
  else match s !! key with
  | None => (None, Some ErrLockStolen, s)
  | Some e =>
      if expired e now then (None, Some ErrLockStolen, s)
      else if negb (bytes_Equal (value e) expectedVal) then (None, Some ErrLockStolen, s)
      else (newVal, None,
            <[key := Entry (e_key e) newVal (if 0 <? ttl then now' + ttl else expiresAt e)]> s)
  end.

Definition Delete (key : string) (s : Store) : option error * Store :=
  if String.eqb key EmptyString then (Some ErrEmptyKey, s) else (None, delete key s).

Definition Release (key : string) (lockToken : slice) (now : Go.time) (s : Store) : option error * Store :=
  if String.eqb key EmptyString then (Some ErrEmptyKey, s)
  else if (blen lockToken =? 0)%nat then (Some ErrMissingLockState, s)
  else match s !! key with
  | None => (Some ErrLockStolen, s)
  | Some e =>
      if negb (bytes_Equal (value e) lockToken) || expired e now then (Some ErrLockStolen, s)
      else (None, delete key s)
  end.
End ops.

(** [memcleanup.Sweep], its two critical sections apart: the keys collected
    under the read lock, and the deletion that checks each one again. *)
Definition sweep_collect {V} (expired : V -> bool) (entries : gmap string V) : list string :=
  map fst (filter (fun kv => expired kv.2) (map_to_list entries)).
Definition sweep_delete {V} (expired : V -> bool) (keys : list string) (entries : gmap string V) : gmap string V :=
  foldl (fun entries k =>
    match entries !! k with
    | Some v => if expired v then delete k entries else entries
    | None => entries
    end) entries keys.

(** The two phases of [runCleanupCycle]: both use the instant [now] read at its
    start. *)
Definition cleanup_collect (now : Go.time) (s : Store) : list string :=
  sweep_collect (fun e => expired e now) s.
Definition cleanup_delete (now : Go.time) (keys : list string) (s : Store) : Store :=
  sweep_delete (fun e => expired e now) keys s.
End Memory.
End IdempotencyStore.
