(* ===== verification/Idempotency.v ===== *)
(** Idempotency keys: core/encoding/keys/keys.go, data/idempotency/key.go and
    data/idempotency/idempotency.go, the [Keeper], written against the storage
    interface: a class of computations over the world of an implementation. *)

From S2P Require Import Prelude Keys IdempotencyStore.
Local Open Scope go_scope.

Module Idempotency.
Import Keys IdempotencyStore.

(** ** Composed keys *)

Definition keyFormatPrefix : string := "idk:v2:".

Definition ComposeKey (parts : list string) : string := (keyFormatPrefix +:+ Compose parts)%string.

(** composed keys are injective: distinct tuples of parts, of any lengths and
    whatever bytes they hold, never share a key; so no tenant's namespace and
    key reach another's storage key. *)
Theorem compose_key_injective parts parts' : ComposeKey parts = ComposeKey parts' -> parts = parts'.
Proof. unfold ComposeKey. intros [_ E]%app_length_inj; [|done]. by apply compose_inj. Qed.

Lemma compose_key_injective_witness : ["a:b"; "c"] = ["a:b"; "c"].
Proof. apply compose_key_injective. reflexivity. Defined.

(** ** The keeper *)

Definition ErrFingerprintMismatch : error := ErrNew "idempotency: key reused with a different request".
Definition ErrOwnerMismatch : error := ErrNew "idempotency: key belongs to another owner".

Inductive Status := StatusInProgress | StatusSuccess.

#[export] Instance Status_eq_dec : EqDecision Status.
Proof. solve_decision. Defined.

(** The storage interface of storages/interface.go, over the world [W] of an
    implementation. *)
Class KStorage (W : Type) := {
  st_AttemptLockWithTTL : string -> slice -> Go.duration -> M W (bool * slice * slice * option error);
  st_Complete : string -> slice -> slice -> M W (option error);
  st_Steal : string -> slice -> slice -> M W (slice * option error);
  st_Release : string -> slice -> M W (option error);
  st_Delete : string -> M W (option error);
}.

Module Keeper.
Section keeper.
(** [D] is the type of the data a caller stores (Go's [any], nil being [None]),
    [C] that of request contexts. *)
Context {W D C : Type} {ST : KStorage W}.

Record serializedState := SerializedState {
  s_Status : Status; s_Data : option D; Nonce : string; LockedAt : Go.time;
  s_Fingerprint : slice; s_Owner : string;
}.

Record State := MkState {
  st_status : Status; st_Data : option D; lockToken : slice; fingerprint : slice; owner : string;
}.

(** The accessors accept a nil [*State]. *)
Definition LockToken (s : option State) : slice := s ≫= lockToken.
Definition Fingerprint (s : option State) : slice := s ≫= fingerprint.
Definition Owner (s : option State) : string := default EmptyString (owner <$> s).

Record Serializer := {
  Serialize : serializedState -> error + slice;
  Deserialize : slice -> error + serializedState;
}.

Record options := {
  serializer : Serializer;
  maxLockDuration : Go.duration;
  keyNamespace : option (C -> string);
  o_owner : option (C -> string);
  replayAuthorizer : option (C -> string -> option error);
}.

Record AttemptLockOpts := {
  LockTTL : Go.duration; MaxLockDuration : Go.duration; o_Fingerprint : slice;
}.

Definition DefaultMaxLockDuration : Go.duration := 5 * 60 * 1000000000.

(** [New], given the options with their generated defaults applied. *)
Definition New (o : options) : options :=
  {| serializer := serializer o;
     maxLockDuration := if maxLockDuration o =? 0 then DefaultMaxLockDuration else maxLockDuration o;
     keyNamespace := keyNamespace o; o_owner := o_owner o; replayAuthorizer := replayAuthorizer o |}.

Variables (Now : M W Go.time) (NewString : M W string).
Variable i : options.

Definition effectiveKey (ctx : C) (key : string) : string :=
  let ns := match keyNamespace i with Some f => f ctx | None => EmptyString end in
  ComposeKey ["namespace"%string; ns; key].

Definition heldState (token fp : slice) (own : string) : State :=
  MkState StatusInProgress None token fp own.

Definition mayTakeOver (existing : serializedState) (own : string) : bool :=
  match o_owner i with
  | None => true
  | Some _ => String.eqb (s_Owner existing) EmptyString || String.eqb (s_Owner existing) own
  end.

Definition ownerOf (ctx : C) : string :=
  match o_owner i with None => EmptyString | Some f => f ctx end.

(** The switch of [checkReplay]. *)
Definition replay_refused (ctx : C) (existing : serializedState) (own : string) : option error :=
  match replayAuthorizer i, o_owner i with
  | Some f, _ =>
      match f ctx (s_Owner existing) with
      | Some err => Some (ErrBoth ErrOwnerMismatch err)
      | None => None
      end
  | None, Some _ =>
      if negb (String.eqb (s_Owner existing) EmptyString) && negb (String.eqb (s_Owner existing) own)
      then Some ErrOwnerMismatch else None
  | None, None => None
  end.

Definition checkReplay (ctx : C) (existing : serializedState) (own : string) (fp : slice) : option error :=
  match replay_refused ctx existing own with
  | Some err => Some err
  | None =>
      if (0 <? blen fp)%nat && (0 <? blen (s_Fingerprint existing))%nat && negb (bytes_Equal fp (s_Fingerprint existing))
      then Some ErrFingerprintMismatch else None
  end.

Definition resolveMaxLockDuration (opts : AttemptLockOpts) : Go.duration :=
  if 0 <? MaxLockDuration opts then MaxLockDuration opts else maxLockDuration i.

(** The tail of [AttemptLockWithOpts]: the caller is shown the record. *)
Definition denied (existing : serializedState) : bool * option State * option error :=
  (false, Some (MkState (s_Status existing) (s_Data existing) None (s_Fingerprint existing) (s_Owner existing)), None).

(** The takeover payload: the caller's lock with the record's own fingerprint
    and owner, where it has them. *)
Definition takeover (wire existing : serializedState) : serializedState :=
  SerializedState (s_Status wire) (s_Data wire) (Nonce wire) (LockedAt wire)
    (if (0 <? blen (s_Fingerprint existing))%nat then s_Fingerprint existing else s_Fingerprint wire)
    (if String.eqb (s_Owner existing) EmptyString then s_Owner wire else s_Owner existing).

(** Whether an existing in-progress record is an orphan of this caller's: reads
    the clock only when the other conditions hold. *)
Definition orphaned (existing : serializedState) (own : string) (opts : AttemptLockOpts) : M W bool :=
  let maxLock := resolveMaxLockDuration opts in
  if bool_decide (s_Status existing = StatusInProgress) && mayTakeOver existing own &&
     (0 <? maxLock) && negb (Go.is_zero (LockedAt existing))
  then let* now := Now in mret (maxLock <? Go.sub now (LockedAt existing))
  else mret false.

Definition AttemptLockWithOpts (ctx : C) (key : string) (opts : AttemptLockOpts)
    : M W (bool * option State * option error) :=
  if String.eqb key EmptyString then mret (false, None, Some ErrEmptyKey)
  else
    let ek := effectiveKey ctx key in
    let own := ownerOf ctx in
    let* nonce := NewString in
    let* lockedAt := Now in
    let wire := SerializedState StatusInProgress None nonce lockedAt (o_Fingerprint opts) own in
    match Serialize (serializer i) wire with
    | inl err => mret (false, None, Some (Errors.WrapOperation err "serialize state"))
    | inr val =>
        let* (ok, existingVal, token, err) := st_AttemptLockWithTTL ek val (LockTTL opts) in
        match err with
        | Some err => mret (false, None, Some err)
        | None =>
            if (ok : bool) then mret (true, Some (heldState token (s_Fingerprint wire) own), None)
            else match Deserialize (serializer i) existingVal with
            | inl err => mret (false, None, Some (Errors.WrapOperation err "deserialize existing state"))
            | inr existing =>
                match checkReplay ctx existing own (o_Fingerprint opts) with
                | Some err => mret (false, None, Some err)
                | None =>
                    let* orphan := orphaned existing own opts in
                    if (orphan : bool) then
                      let wire := takeover wire existing in
                      match Serialize (serializer i) wire with
                      | inl err => mret (false, None, Some (Errors.WrapOperation err "serialize state"))
                      | inr stealVal =>
                          let* (newToken, stealErr) := st_Steal ek existingVal stealVal in
                          match stealErr with
                          | None => mret (true, Some (heldState newToken (s_Fingerprint wire) (s_Owner wire)), None)
                          | Some e =>
                              if Errors.Is ErrLockStolen e then mret (denied existing)
                              else mret (false, None, Some e)
                          end
                      end
                    else mret (denied existing)
                end
            end
        end
    end.

Definition AttemptLock (ctx : C) (key : string) : M W (bool * option State * option error) :=
  AttemptLockWithOpts ctx key {| LockTTL := 0; MaxLockDuration := 0; o_Fingerprint := None |}.

Definition Complete (ctx : C) (key : string) (data : option D) (lockState : option State) : M W (option error) :=
  if String.eqb key EmptyString then mret (Some ErrEmptyKey)
  else if (blen (LockToken lockState) =? 0)%nat then mret (Some ErrMissingLockState)
  else
    match Serialize (serializer i)
            (SerializedState StatusSuccess data EmptyString Go.zero_time (Fingerprint lockState) (Owner lockState)) with
    | inl err => mret (Some (Errors.WrapOperation err "serialize state"))
    | inr val => st_Complete (effectiveKey ctx key) val (LockToken lockState)
    end.

Definition Delete (ctx : C) (key : string) : M W (option error) :=
  if String.eqb key EmptyString then mret (Some ErrEmptyKey)
  else st_Delete (effectiveKey ctx key).

Definition Release (ctx : C) (key : string) (lockState : option State) : M W (option error) :=
  if String.eqb key EmptyString then mret (Some ErrEmptyKey)
  else if (blen (LockToken lockState) =? 0)%nat then mret (Some ErrMissingLockState)
  else st_Release (effectiveKey ctx key) (LockToken lockState).
End keeper.
End Keeper.
End Idempotency.
