(* ===== verification/IdempotencyTheorems.v ===== *)
(** Idempotency keys: the lock of the in-memory storage is exclusive, and the
    keeper over it runs a request at most once while its record lives. *)

From S2P Require Import Prelude IdempotencyStore Idempotency.
Local Open Scope go_scope.

Module IdempotencyTheorems.
Import IdempotencyStore Idempotency.

(** ** Histories of the in-memory storage *)

Section memory.
Import Memory.
Variable ttl : Go.duration.

(** One critical section of one caller. *)
Inductive op :=
| OLock (key : string) (val : slice) (lockTtl : Go.duration) (now now' : Go.time)
| OComplete (key : string) (val token : slice) (now now' : Go.time)
| OSteal (key : string) (expected new : slice) (now now' : Go.time)
| ORelease (key : string) (token : slice) (now : Go.time)
| ODelete (key : string)
| OCleanup (now : Go.time) (keys : list string).

Definition apply_op (s : Store) (o : op) : Store :=
  match o with
  | OLock k v t n n' => (Memory.AttemptLockWithTTL ttl k v t n n' s).2
  | OComplete k v t n n' => (Memory.Complete ttl k v t n n' s).2
  | OSteal k e v n n' => (Memory.Steal ttl k e v n n' s).2
  | ORelease k t n => (Memory.Release k t n s).2
  | ODelete k => (Memory.Delete k s).2
  | OCleanup n keys => cleanup_delete n keys s
  end.

(** A critical section of someone who does not hold the lock [e] of [key]: it
    runs before [e] expires, presents another token and does not delete [key]
    by force. *)
Definition foreign (key : string) (e : entry) (o : op) : Prop :=
  match o with
  | OLock k _ _ n _ => k = key -> expired e n = false
  | OComplete k _ t _ _ => k = key -> t <> None /\ bytes_Equal (value e) t = false
  | OSteal k x _ _ _ => k = key -> bytes_Equal (value e) x = false
  | ORelease k t _ => k = key -> bytes_Equal (value e) t = false
  | ODelete k => k <> key
  | OCleanup n _ => expired e n = false
  end.

Lemma not_after e now : expired e now = false -> negb (Go.is_zero (expiresAt e)) && Go.after now (expiresAt e) = false.
Proof.
  unfold expired, Go.before, Go.after, Go.is_zero.
  destruct (Z.eqb_spec (expiresAt e) 0); [done|]. cbn [negb andb].
  rewrite negb_false_iff, Z.ltb_lt, Z.ltb_ge. lia.
Qed.

Lemma sweep_delete_keeps {V} (ex : V -> bool) keys (s : gmap string V) k v :
  s !! k = Some v -> ex v = false -> sweep_delete ex keys s !! k = Some v.
Proof.
  intros Hk Hv. revert s Hk. unfold sweep_delete. induction keys as [|k' keys IH]; intros s Hk; [done|].
  cbn [foldl]. apply IH. destruct (s !! k') as [v'|] eqn:Hk'; [|done]. destruct (ex v') eqn:E; [|done].
  rewrite lookup_delete_ne; [done|]. intros ->. congruence.
Qed.

Lemma foreign_keeps key e s o :
  s !! key = Some e -> foreign key e o -> apply_op s o !! key = Some e.
Proof.
  intros Hs Hf. destruct o as [k v t n n'|k v t n n'|k x v n n'|k t n|k|n keys]; cbn in *.
  6: by apply sweep_delete_keeps.
  1: unfold Memory.AttemptLockWithTTL. 2: unfold Memory.Complete. 3: unfold Memory.Steal.
  4: unfold Memory.Release. 5: unfold Memory.Delete.
  all: destruct (String.eqb k EmptyString); [done|].
  all: destruct (decide (k = key)) as [->|Hk];
    [|repeat case_match; cbn [snd]; rewrite ?lookup_insert_ne, ?lookup_delete_ne by done; done].
  - rewrite Hs, not_after by auto. done.
  - destruct (Hf eq_refl) as [Ht E]. rewrite Hs, E, bool_decide_eq_true_2 by done. cbn. by case_match.
  - rewrite Hs, (Hf eq_refl). by case_match.
  - rewrite Hs, (Hf eq_refl). by case_match.
  - by destruct Hf.
Qed.

Lemma foreign_history key e s ops :
  s !! key = Some e -> Forall (foreign key e) ops -> foldl apply_op s ops !! key = Some e.
Proof. intros Hs Hf. revert s Hs. induction Hf; intros s Hs; cbn [foldl]; auto using foreign_keeps. Qed.

(** the in-memory lock is exclusive.  Once a caller holds a key, whatever
    critical sections the others run until the lock expires (attempts on the
    key, completions, steals and releases with tokens of their own, cleanup
    sweeps, any operation on other keys), the holder's completion still
    succeeds and every attempt to lock the key is denied and shown the holder's
    value. *)
Theorem memory_lock_exclusive key e s ops now now' :
  key <> EmptyString -> s !! key = Some e -> value e <> None ->
  Forall (foreign key e) ops -> expired e now = false ->
  let s' := foldl apply_op s ops in
  (forall val, (Memory.Complete ttl key val (value e) now now' s').1 = None) /\
  (forall val lockTtl, Memory.AttemptLockWithTTL ttl key val lockTtl now now' s' = (false, value e, None, None, s')).
Proof.
  intros Hkey Hs Hv Hf Hnow s'. pose proof (foreign_history key e s ops Hs Hf) as Hs'.
  change (foldl apply_op s ops) with s' in Hs'. apply String.eqb_neq in Hkey. split.
  - intros val. unfold Memory.Complete. rewrite Hkey, Hs', Hnow. unfold bytes_Equal.
    by rewrite bool_decide_eq_true_2, (bool_decide_eq_true_2 (bstr _ = _)).
  - intros val lockTtl. unfold Memory.AttemptLockWithTTL. by rewrite Hkey, Hs', not_after.
Qed.
End memory.

Lemma memory_lock_exclusive_witness :
  let e := Memory.Entry "k" (Some "A"%string) 100 in
  (Memory.Complete 50 "k" (Some "r"%string) (Some "A"%string) 90 91
     (foldl (apply_op 50) {["k"%string := e]}
        [OLock "k" (Some "B"%string) 10 60 61; ORelease "k" (Some "B"%string) 70; OCleanup 80 ["k"%string]])).1 = None.
Proof.
  refine (proj1 (memory_lock_exclusive 50 "k" (Memory.Entry "k" (Some "A"%string) 100) _ _ 90 91 _ _ _ _ _)
            (Some "r"%string)); [done..| |done].
  repeat constructor.
Defined.

(** ** The keeper over the in-memory storage *)

Section world.
Variables (ttl : Go.duration) (clock : nat -> Go.time) (uuid : nat -> string).
(** What the other callers do before the [n]-th step of this one. *)
Variable others : nat -> list op.

(** [reads] counts the readings of the clock, [minted] the nonces. *)
Record World := MkWorld { entries : Memory.Store; reads : nat; minted : nat }.

Definition now : M World Go.time :=
  fun w => Some (clock (reads w), MkWorld (entries w) (S (reads w)) (minted w)).
Definition newString : M World string :=
  fun w => Some (uuid (minted w), MkWorld (entries w) (reads w) (S (minted w))).

(** A storage operation: the others run, then its critical section, which reads
    the clock at most twice. *)
Definition atomically {A} (f : Go.time -> Go.time -> Memory.Store -> A * Memory.Store) : M World A :=
  fun w =>
    let s := foldl (apply_op ttl) (entries w) (others (reads w)) in
    let r := f (clock (reads w)) (clock (S (reads w))) s in
    Some (r.1, MkWorld r.2 (S (S (reads w))) (minted w)).

#[export] Instance memory_kstorage : KStorage World := {|
  st_AttemptLockWithTTL key val t := atomically (Memory.AttemptLockWithTTL ttl key val t);
  st_Complete key val token := atomically (Memory.Complete ttl key val token);
  st_Steal key x v := atomically (Memory.Steal ttl key x v);
  st_Release key token := atomically (fun n _ => Memory.Release key token n);
  st_Delete key := atomically (fun _ _ => Memory.Delete key);
|}.
End world.

(** What the keeper relies on of its serializer (encoding/json by default): a
    serialized state is not empty and decodes to the state it was made from, up
    to the representation [decoded] of the caller's data and to a nil slice for
    an empty fingerprint.  Owners and nonces are valid UTF-8. *)
Class SerializerLaws {D} (ser : @Keeper.Serializer D) (decoded : option D -> option D) : Prop := {
  serialize_nonempty x v : Keeper.Serialize ser x = inr v -> blen v <> 0%nat;
  serialize_decodes x v : Keeper.Serialize ser x = inr v ->
    exists y, Keeper.Deserialize ser v = inr y /\
      Keeper.s_Status y = Keeper.s_Status x /\ Keeper.s_Data y = decoded (Keeper.s_Data x) /\
      Keeper.Nonce y = Keeper.Nonce x /\ Keeper.LockedAt y = Keeper.LockedAt x /\
      bstr (Keeper.s_Fingerprint y) = bstr (Keeper.s_Fingerprint x) /\ Keeper.s_Owner y = Keeper.s_Owner x;
}.

(** When a caller may see a record locked with [own] and [fp]: the replay
    authorizer accepts it or, without one, the record has no owner or the
    caller's; and the fingerprints, where both are given, agree. *)
Definition may_see {D C} (i : @Keeper.options D C) (ctx : C) (own : string) (fp fp' : slice) : Prop :=
  match Keeper.replayAuthorizer i with
  | Some f => f ctx own = None
  | None => Keeper.o_owner i = None \/ own = EmptyString \/ own = Keeper.ownerOf i ctx
  end /\
  (blen fp' = 0%nat \/ blen fp = 0%nat \/ bstr fp' = bstr fp).

Lemma checkReplay_None {D C} (i : @Keeper.options D C) ctx x fp :
  Keeper.checkReplay i ctx x (Keeper.ownerOf i ctx) fp = None <->
  may_see i ctx (Keeper.s_Owner x) (Keeper.s_Fingerprint x) fp.
Proof.
  unfold Keeper.checkReplay, may_see.
  assert (Keeper.replay_refused i ctx x (Keeper.ownerOf i ctx) = None <->
    match Keeper.replayAuthorizer i with
    | Some f => f ctx (Keeper.s_Owner x) = None
    | None => Keeper.o_owner i = None \/ Keeper.s_Owner x = EmptyString \/ Keeper.s_Owner x = Keeper.ownerOf i ctx
    end) as Href.
  { unfold Keeper.replay_refused. destruct (Keeper.replayAuthorizer i) as [f|]; [by destruct (f ctx _)|].
    destruct (Keeper.o_owner i); [|tauto].
    destruct (String.eqb_spec (Keeper.s_Owner x) EmptyString), (String.eqb_spec (Keeper.s_Owner x) (Keeper.ownerOf i ctx)); cbn; intuition congruence. }
  destruct (Keeper.replay_refused _ _ _ _) as [err|]; [intuition congruence|].
  assert (match Keeper.replayAuthorizer i with
    | Some f => f ctx (Keeper.s_Owner x) = None
    | None => Keeper.o_owner i = None \/ Keeper.s_Owner x = EmptyString \/ Keeper.s_Owner x = Keeper.ownerOf i ctx
    end) as Hsee by tauto.
  destruct (Nat.ltb_spec 0 (blen fp)) as [H1|H1], (Nat.ltb_spec 0 (blen (Keeper.s_Fingerprint x))) as [H2|H2]; cbn [andb];
    [|split; [intros _; split; [done|lia]|done]..].
  unfold bytes_Equal. destruct (bool_decide_reflect (bstr fp = bstr (Keeper.s_Fingerprint x))); cbn [negb].
  - split; [intros _; split; [done|auto]|done].
  - split; [done|]. intros [_ [?|[?|?]]]; [lia|lia|done].
Qed.

(** The ways an attempt can end without an error, on any storage. *)
Section attempt.
Context {W D C : Type} {ST : KStorage W} (Now : M W Go.time) (NewString : M W string) (i : @Keeper.options D C).

Lemma attempt_inv ctx key opts w ok st w' :
  Keeper.AttemptLockWithOpts Now NewString i ctx key opts w = Some ((ok, st, None), w') ->
  exists nonce at_ w1 w2 w3 ok' val v token,
    let wire := Keeper.SerializedState StatusInProgress None nonce at_ (Keeper.o_Fingerprint opts) (Keeper.ownerOf i ctx) in
    NewString w = Some (nonce, w1) /\ Now w1 = Some (at_, w2) /\ Keeper.Serialize (Keeper.serializer i) wire = inr val /\
    st_AttemptLockWithTTL (Keeper.effectiveKey i ctx key) val (Keeper.LockTTL opts) w2 = Some ((ok', v, token, None), w3) /\
    ((ok' = true /\ ok = true /\ w' = w3 /\
      st = Some (Keeper.heldState token (Keeper.o_Fingerprint opts) (Keeper.ownerOf i ctx))) \/
     (ok' = false /\ exists x, Keeper.Deserialize (Keeper.serializer i) v = inr x /\
        Keeper.checkReplay i ctx x (Keeper.ownerOf i ctx) (Keeper.o_Fingerprint opts) = None /\
        ((ok, st, None) = Keeper.denied x \/
         exists w4 val' token',
           Keeper.orphaned Now i x (Keeper.ownerOf i ctx) opts w3 = Some (true, w4) /\
           Keeper.Serialize (Keeper.serializer i) (Keeper.takeover wire x) = inr val' /\
           st_Steal (Keeper.effectiveKey i ctx key) v val' w4 = Some ((token', None), w') /\
           ok = true /\
           st = Some (Keeper.heldState token' (Keeper.s_Fingerprint (Keeper.takeover wire x))
                        (Keeper.s_Owner (Keeper.takeover wire x)))))).
Proof.
  unfold Keeper.AttemptLockWithOpts, mbind, mret. destruct (String.eqb key EmptyString); [done|].
  destruct (NewString w) as [[nonce w1]|] eqn:E1; [|done]. destruct (Now w1) as [[at_ w2]|] eqn:E2; [|done].
  destruct (Keeper.Serialize _ _) as [|val] eqn:Eser; [done|].
  destruct (st_AttemptLockWithTTL _ _ _ w2) as [[[[[ok' v] token] [err|]] w3]|] eqn:E3; [done| |done].
  intros E. exists nonce, at_, w1, w2, w3, ok', val, v, token. split_and!; [done..|].
  destruct ok'; [left; by simplify_eq|right]. split; [done|].
  destruct (Keeper.Deserialize _ v) as [|x]; [done|]. exists x. split; [done|].
  destruct (Keeper.checkReplay _ _ _ _ _) as [|]; [done|]. split; [done|].
  destruct (Keeper.orphaned _ _ _ _ _ w3) as [[[] w4]|]; [|left; by simplify_eq|done].
  destruct (Keeper.Serialize _ (Keeper.takeover _ _)) as [|val'] eqn:Eser'; [done|].
  destruct (st_Steal _ _ _ w4) as [[[token' [err|]] w5]|] eqn:E5; [|right|done].
  - destruct (Errors.Is _ _); [left; by simplify_eq|done].
  - simplify_eq. by exists w4, val', token'.
Qed.

(** no caller learns of, or acts on, a record it may not see, on any
    storage.  An attempt that ends without an error either took a free key, or
    met a record the caller may see: it is then shown that record's status,
    data, fingerprint and owner, or takes it over.  A takeover happens only of
    an in-progress record that is unowned or the caller's own (where owners are
    configured) and older than the positive [MaxLockDuration]. *)
Theorem attempt_authorized ctx key opts w ok st w' :
  Keeper.AttemptLockWithOpts Now NewString i ctx key opts w = Some ((ok, st, None), w') ->
  (exists val v token w1 w2,
     st_AttemptLockWithTTL (Keeper.effectiveKey i ctx key) val (Keeper.LockTTL opts) w1 = Some ((true, v, token, None), w2) /\
     ok = true /\ Keeper.LockToken st = token) \/
  (exists val v token w1 w2 x,
     st_AttemptLockWithTTL (Keeper.effectiveKey i ctx key) val (Keeper.LockTTL opts) w1 = Some ((false, v, token, None), w2) /\
     Keeper.Deserialize (Keeper.serializer i) v = inr x /\
     may_see i ctx (Keeper.s_Owner x) (Keeper.s_Fingerprint x) (Keeper.o_Fingerprint opts) /\
     ((ok = false /\ st = Some (Keeper.MkState (Keeper.s_Status x) (Keeper.s_Data x) None (Keeper.s_Fingerprint x) (Keeper.s_Owner x))) \/
      (ok = true /\ Keeper.s_Status x = StatusInProgress /\
       (Keeper.o_owner i = None \/ Keeper.s_Owner x = EmptyString \/ Keeper.s_Owner x = Keeper.ownerOf i ctx) /\
       exists now w3, Now w2 = Some (now, w3) /\
         0 < Keeper.resolveMaxLockDuration i opts < Go.sub now (Keeper.LockedAt x)))).
Proof.
  intros (nonce & at_ & w1 & w2 & w3 & ok' & val & v & token & _ & _ & _ & Hat & [(-> & -> & _ & ->)|(-> & x & Hx & Hchk & Hend)])%attempt_inv.
  { left. by exists val, v, token, w2, w3. }
  right. exists val, v, token, w2, w3, x. split; [done|]. split; [done|]. split; [by apply checkReplay_None|].
  destruct Hend as [Hd|(w4 & val' & token' & Hor & _ & _ & -> & _)]; [left; by unfold Keeper.denied in Hd; simplify_eq|right].
  unfold Keeper.orphaned in Hor. destruct (_ && _) eqn:E; [|done].
  rewrite !andb_true_iff, bool_decide_eq_true, Z.ltb_lt in E. destruct E as [[[Hst Hmay] Hmax] _].
  split; [done|]. split; [done|]. split.
  - unfold Keeper.mayTakeOver in Hmay. destruct (Keeper.o_owner i); [|auto]. right.
    apply orb_true_iff in Hmay as [H%String.eqb_eq|H%String.eqb_eq]; auto.
  - unfold mbind, mret in Hor. destruct (Now w3) as [[now w5]|]; [|done]. simplify_eq.
    exists now, w4. split; [done|]. split; [done|]. by apply Z.ltb_lt.
Qed.
End attempt.

Section keeper.
Context {D C : Type} (ttl : Go.duration) (clock : nat -> Go.time) (uuid : nat -> string) (others : nat -> list op).
Context (i : @Keeper.options D C) (decoded : option D -> option D) {SL : SerializerLaws (Keeper.serializer i) decoded}.
Local Existing Instance memory_kstorage.
#[local] Instance kst : KStorage World := memory_kstorage ttl clock others.

Abbreviation attempt := (Keeper.AttemptLockWithOpts (now clock) (newString uuid)).

Lemma wp_atomically {A} f (Q : A -> World -> Prop) w :
  let s := foldl (apply_op ttl) (entries w) (others (reads w)) in
  let r := f (clock (reads w)) (clock (S (reads w))) s in
  Q r.1 (MkWorld r.2 (S (S (reads w))) (minted w)) -> wp (atomically ttl clock others f) Q w.
Proof. done. Qed.

Lemma effectiveKey_nonempty (k : @Keeper.options D C) ctx key :
  String.eqb (Keeper.effectiveKey k ctx key) EmptyString = false.
Proof. done. Qed.

(** The payload and the storage entry of a lock taken in the world [w]. *)
Definition lock_wire (ctx : C) (opts : Keeper.AttemptLockOpts) (w : World) : @Keeper.serializedState D :=
  Keeper.SerializedState StatusInProgress None (uuid (minted w)) (clock (reads w))
    (Keeper.o_Fingerprint opts) (Keeper.ownerOf i ctx).
Definition lock_entry (ctx : C) (key : string) (opts : Keeper.AttemptLockOpts) (val : slice) (w : World) : Memory.entry :=
  let t := if 0 <? Keeper.LockTTL opts then Keeper.LockTTL opts else ttl in
  Memory.Entry (Keeper.effectiveKey i ctx key) val
    (if 0 <? t then clock (S (S (reads w))) + t else Go.zero_time).

(** An attempt on a free key takes the lock. *)
Lemma attempt_free ctx key opts val w :
  key <> EmptyString -> Keeper.Serialize (Keeper.serializer i) (lock_wire ctx opts w) = inr val ->
  foldl (apply_op ttl) (entries w) (others (S (reads w))) !! Keeper.effectiveKey i ctx key = None ->
  wp (attempt i ctx key opts)
    (fun r w' => r = (true, Some (Keeper.heldState val (Keeper.o_Fingerprint opts) (Keeper.ownerOf i ctx)), None) /\
       entries w' !! Keeper.effectiveKey i ctx key = Some (lock_entry ctx key opts val w) /\
       reads w' = S (S (S (reads w)))) w.
Proof.
  intros Hkey Hser Hfree. unfold Keeper.AttemptLockWithOpts. apply String.eqb_neq in Hkey as ->.
  apply wp_bind. unfold newString, wp at 1. cbv beta iota. apply wp_bind. unfold now, wp at 1. cbv beta iota.
  cbn [entries reads minted]. unfold lock_wire in Hser. rewrite Hser.
  apply wp_bind. apply wp_atomically. cbn [entries reads minted]. unfold Memory.AttemptLockWithTTL.
  rewrite effectiveKey_nonempty, Hfree. cbn. unfold wp, mret. cbn.
  rewrite lookup_insert_eq. done.
Qed.

(** Whether an existing record may be taken over depends on the clock only
    through its age. *)
Lemma wp_orphaned ctx opts x (Q : bool -> World -> Prop) w :
  (Keeper.s_Status x = StatusInProgress ->
   Go.sub (clock (reads w)) (Keeper.LockedAt x) <= Keeper.resolveMaxLockDuration i opts) ->
  (forall w', entries w' = entries w -> reads w <= reads w' <= S (reads w) -> Q false w')%nat ->
  wp (Keeper.orphaned (now clock) i x (Keeper.ownerOf i ctx) opts) Q w.
Proof.
  intros Hage HQ. unfold Keeper.orphaned. destruct (_ && _) eqn:E; [|apply wp_ret, HQ; [done|lia]].
  rewrite !andb_true_iff, bool_decide_eq_true in E. destruct E as [[[Hst _] _] _].
  apply wp_bind. unfold now, wp at 1. cbv beta iota. apply wp_ret. specialize (Hage Hst).
  destruct (Z.ltb_spec (Keeper.resolveMaxLockDuration i opts) (Go.sub (clock (reads w)) (Keeper.LockedAt x))); [lia|].
  apply HQ; cbn; [done|lia].
Qed.

(** The result of an attempt that meets the record [x]. *)
Definition seen (ctx : C) (opts : Keeper.AttemptLockOpts) (x : Keeper.serializedState) (w : World)
    : bool * option Keeper.State * option error :=
  match Keeper.Serialize (Keeper.serializer i) (lock_wire ctx opts w) with
  | inl err => (false, None, Some (Errors.WrapOperation err "serialize state"))
  | inr _ =>
      match Keeper.checkReplay i ctx x (Keeper.ownerOf i ctx) (Keeper.o_Fingerprint opts) with
      | Some err => (false, None, Some err)
      | None => Keeper.denied x
      end
  end.

(** An attempt on a key whose record lives and is no orphan: the caller is
    refused, or shown the record, and the record stays. *)
Lemma attempt_seen ctx key opts e x w :
  key <> EmptyString ->
  entries w !! Keeper.effectiveKey i ctx key = Some e ->
  Forall (foreign (Keeper.effectiveKey i ctx key) e) (others (S (reads w))) ->
  Memory.expired e (clock (S (reads w))) = false ->
  Keeper.Deserialize (Keeper.serializer i) (Memory.value e) = inr x ->
  (Keeper.s_Status x = StatusInProgress ->
   Go.sub (clock (S (S (S (reads w))))) (Keeper.LockedAt x) <= Keeper.resolveMaxLockDuration i opts) ->
  wp (attempt i ctx key opts)
    (fun r w' => r = seen ctx opts x w /\
       entries w' !! Keeper.effectiveKey i ctx key = Some e /\
       (reads w < reads w' <= 4 + reads w)%nat) w.
Proof.
  intros Hkey He Hf Hlive Hde Hage. pose proof (foreign_history ttl _ e _ _ He Hf) as He'.
  unfold Keeper.AttemptLockWithOpts. apply String.eqb_neq in Hkey as ->.
  apply wp_bind. unfold newString, wp at 1. cbv beta iota. apply wp_bind. unfold now, wp at 1. cbv beta iota.
  cbn [entries reads minted]. unfold seen, lock_wire.
  destruct (Keeper.Serialize _ _) as [err|val]; [apply wp_ret; cbn; split_and!; [done..|lia|lia]|].
  apply wp_bind. apply wp_atomically. cbn [entries reads minted]. unfold Memory.AttemptLockWithTTL.
  rewrite effectiveKey_nonempty, He', not_after by done. cbn [fst snd]. rewrite Hde.
  destruct (Keeper.checkReplay _ _ _ _ _) as [err|]; [apply wp_ret; cbn; split_and!; [done..|lia|lia]|].
  apply wp_bind. apply wp_orphaned; [done|]. cbn [entries reads].
  intros w' Hw' Hr. apply wp_ret. rewrite Hw'. split_and!; [done..|lia|lia].
Qed.

(** The holder's completion replaces the record. *)
Lemma complete_held ctx key data st e val w :
  key <> EmptyString -> Keeper.lockToken st = Memory.value e -> blen (Memory.value e) <> 0%nat ->
  Keeper.Serialize (Keeper.serializer i)
    (Keeper.SerializedState StatusSuccess data EmptyString Go.zero_time (Keeper.fingerprint st) (Keeper.owner st)) = inr val ->
  entries w !! Keeper.effectiveKey i ctx key = Some e ->
  Forall (foreign (Keeper.effectiveKey i ctx key) e) (others (reads w)) ->
  Memory.expired e (clock (reads w)) = false ->
  wp (Keeper.Complete i ctx key data (Some st))
    (fun r w' => r = None /\ reads w' = S (S (reads w)) /\
       entries w' !! Keeper.effectiveKey i ctx key =
         Some (Memory.Entry (Memory.e_key e) val (if 0 <? ttl then clock (S (reads w)) + ttl else Go.zero_time))) w.
Proof.
  intros Hkey Htok Hne Hser He Hf Hlive. pose proof (foreign_history ttl _ e _ _ He Hf) as He'.
  unfold Keeper.Complete. apply String.eqb_neq in Hkey as ->.
  change (Keeper.LockToken (Some st)) with (Keeper.lockToken st). rewrite Htok.
  apply Nat.eqb_neq in Hne as ->. change (Keeper.Fingerprint (Some st)) with (Keeper.fingerprint st).
  change (Keeper.Owner (Some st)) with (Keeper.owner st). rewrite Hser.
  apply wp_atomically. unfold Memory.Complete. rewrite effectiveKey_nonempty, He', Hlive.
  unfold bytes_Equal. rewrite (bool_decide_eq_true_2 (bstr _ = _)), andb_false_r by done.
  cbn. by rewrite lookup_insert_eq.
Qed.

(** C6: a request runs once.  A caller that takes a free key through the keeper
    holds it: another attempt on the key, whoever makes it and with whatever
    options, does not acquire it while the lock is younger than that attempt's
    [MaxLockDuration] and has not expired, and the holder's completion then
    succeeds; other callers' interleaved storage operations included. *)
Theorem lock_exclusive_until_timeout ctxA ctxB key optsA optsB data val val' w :
  let e := lock_entry ctxA key optsA val w in
  key <> EmptyString -> Keeper.effectiveKey i ctxB key = Keeper.effectiveKey i ctxA key ->
  Keeper.Serialize (Keeper.serializer i) (lock_wire ctxA optsA w) = inr val ->
  Keeper.Serialize (Keeper.serializer i)
    (Keeper.SerializedState StatusSuccess data EmptyString Go.zero_time
       (Keeper.o_Fingerprint optsA) (Keeper.ownerOf i ctxA)) = inr val' ->
  foldl (apply_op ttl) (entries w) (others (S (reads w))) !! Keeper.effectiveKey i ctxA key = None ->
  (forall n, (reads w + 3 < n <= reads w + 7)%nat ->
     Forall (foreign (Keeper.effectiveKey i ctxA key) e) (others n) /\
     Memory.expired e (clock n) = false /\
     Go.sub (clock n) (clock (reads w)) <= Keeper.resolveMaxLockDuration i optsB) ->
  wp (let* a := attempt i ctxA key optsA in
      let* b := attempt i ctxB key optsB in
      let* c := Keeper.Complete i ctxA key data a.1.2 in
      mret (a.1.1, b.1.1, c))
    (fun r _ => r = (true, false, None)) w.
Proof using SL.
  intros e Hkey Hek Hser Hser' Hfree Hn.
  wp_seq ltac:(by apply (attempt_free ctxA key optsA val)). intros a w1 (-> & He & Hr1).
  destruct (serialize_decodes _ _ Hser) as (x & Hx & Hst & _ & _ & Hat & _).
  wp_seq ltac:(apply (attempt_seen ctxB key optsB e x); [done|by rewrite Hek|..]).
  - rewrite Hek. apply Hn. lia.
  - apply Hn. lia.
  - done.
  - intros _. rewrite Hat. apply Hn. lia.
  - intros b w2 (-> & He2 & Hr2). rewrite Hek in He2.
    wp_seq ltac:(apply (complete_held ctxA key data _ e val'); [done..|by apply (serialize_nonempty _ _ Hser)|done|done|apply Hn; lia|apply Hn; lia]).
    intros c w3 (-> & _). apply wp_ret. cbn. unfold seen. by repeat case_match.
Qed.

(** the result is replayed.  The holder's completion succeeds, and an
    attempt on the key before the record expires does not run the request
    again, however old the lock was: a caller that may see the record gets the
    stored data, the lock's fingerprint and its owner. *)
Theorem complete_then_replay ctxA ctxB key optsB data st e val w :
  let e' := Memory.Entry (Memory.e_key e) val (if 0 <? ttl then clock (S (reads w)) + ttl else Go.zero_time) in
  key <> EmptyString -> Keeper.effectiveKey i ctxB key = Keeper.effectiveKey i ctxA key ->
  Keeper.lockToken st = Memory.value e -> blen (Memory.value e) <> 0%nat ->
  Keeper.Serialize (Keeper.serializer i)
    (Keeper.SerializedState StatusSuccess data EmptyString Go.zero_time (Keeper.fingerprint st) (Keeper.owner st)) = inr val ->
  (forall w', exists v, Keeper.Serialize (Keeper.serializer i) (lock_wire ctxB optsB w') = inr v) ->
  entries w !! Keeper.effectiveKey i ctxA key = Some e ->
  Forall (foreign (Keeper.effectiveKey i ctxA key) e) (others (reads w)) ->
  Memory.expired e (clock (reads w)) = false ->
  Forall (foreign (Keeper.effectiveKey i ctxA key) e') (others (3 + reads w)%nat) ->
  Memory.expired e' (clock (3 + reads w)%nat) = false ->
  may_see i ctxB (Keeper.owner st) (Keeper.fingerprint st) (Keeper.o_Fingerprint optsB) ->
  wp (let* c := Keeper.Complete i ctxA key data (Some st) in
      let* b := attempt i ctxB key optsB in
      mret (c, b))
    (fun r w' => exists fp, bstr fp = bstr (Keeper.fingerprint st) /\
       r = (None, (false, Some (Keeper.MkState StatusSuccess (decoded data) None fp (Keeper.owner st)), None)) /\
       entries w' !! Keeper.effectiveKey i ctxA key = Some e') w.
Proof using SL.
  intros e' Hkey Hek Htok Hne Hser Hlock He Hf Hlive Hf' Hlive' Hsee.
  wp_seq ltac:(by apply (complete_held ctxA key data st e val)). intros c w1 (-> & Hr1 & He1).
  destruct (serialize_decodes _ _ Hser) as (x & Hx & Hst & Hdata & _ & _ & Hfp & Hown). cbn in Hst, Hdata, Hfp, Hown.
  wp_seq ltac:(apply (attempt_seen ctxB key optsB e' x); [done|by rewrite Hek|..]).
  - rewrite Hek, Hr1. exact Hf'.
  - rewrite Hr1. exact Hlive'.
  - done.
  - by rewrite Hst.
  - intros b w2 (-> & He2 & _). rewrite Hek in He2. apply wp_ret. exists (Keeper.s_Fingerprint x).
    split; [done|]. split; [|done]. unfold seen. destruct (Hlock w1) as [v ->].
    rewrite (proj2 (checkReplay_None i ctxB x (Keeper.o_Fingerprint optsB))).
    + unfold Keeper.denied. by rewrite Hst, Hdata, Hown.
    + unfold may_see, blen in *. by rewrite Hown, Hfp.
Qed.

(** A caller that acquired the lock is the holder the storage records, and its
    token carries the nonce of this attempt. *)
Lemma attempt_acquired ctx key opts w st w' :
  attempt i ctx key opts w = Some ((true, st, None), w') ->
  exists e x, entries w' !! Keeper.effectiveKey i ctx key = Some e /\ Keeper.LockToken st = Memory.value e /\
    Keeper.Serialize (Keeper.serializer i) x = inr (Memory.value e) /\ Keeper.Nonce x = uuid (minted w).
Proof.
  intros (nonce & at_ & w1 & w2 & w3 & ok' & val & v & token & Hn & _ & Hser & Hat & [(-> & _ & -> & ->)|(-> & x & Hx & _ & Hend)])%attempt_inv.
  - unfold newString in Hn. simplify_eq. cbn in Hat. unfold atomically, Memory.AttemptLockWithTTL in Hat.
    rewrite effectiveKey_nonempty in Hat.
    repeat case_match; cbn in Hat; simplify_eq; cbn [entries];
      eexists _, _; (split; [by rewrite lookup_insert_eq|]); (split; [done|]); (split; [exact Hser|done]).
  - destruct Hend as [Hd|(w4 & val' & token' & _ & Hser' & Hst & _ & ->)]; [by unfold Keeper.denied in Hd|].
    unfold newString in Hn. simplify_eq. cbn in Hst. unfold atomically, Memory.Steal in Hst.
    rewrite effectiveKey_nonempty in Hst.
    repeat case_match; cbn in Hst; simplify_eq; cbn [entries];
      eexists _, _; (split; [by rewrite lookup_insert_eq|]); (split; [done|]); (split; [exact Hser'|done]).
Qed.

End keeper.

(** ** A concrete serializer, and concrete runs *)

Fixpoint bits (p : positive) : string :=
  match p with
  | xH => String (Ascii.ascii_of_nat 49) EmptyString
  | xO p => String (Ascii.ascii_of_nat 48) (bits p)
  | xI p => String (Ascii.ascii_of_nat 105) (bits p)
  end.
Fixpoint unbits (s : string) : option positive :=
  match s with
  | EmptyString => None
  | String c s =>
      if Ascii.eqb c (Ascii.ascii_of_nat 49) then Some xH
      else if Ascii.eqb c (Ascii.ascii_of_nat 48) then xO <$> unbits s else xI <$> unbits s
  end.

Lemma unbits_bits p : unbits (bits p) = Some p.
Proof. induction p as [p IH|p IH|]; cbn; by rewrite ?IH. Qed.

Abbreviation plain := (bool * option string * string * Z * option string * string)%type.
Definition to_plain (x : @Keeper.serializedState string) : plain :=
  (bool_decide (Keeper.s_Status x = StatusSuccess), Keeper.s_Data x, Keeper.Nonce x, Keeper.LockedAt x,
   Keeper.s_Fingerprint x, Keeper.s_Owner x).
Definition of_plain (p : plain) : @Keeper.serializedState string :=
  let '(st, d, n, t, fp, o) := p in
  Keeper.SerializedState (if (st : bool) then StatusSuccess else StatusInProgress) d n t fp o.

Definition bit_serializer : @Keeper.Serializer string := {|
  Keeper.Serialize x := inr (Some (bits (encode (to_plain x))));
  Keeper.Deserialize v :=
    match unbits (bstr v) ≫= decode with
    | Some p => inr (of_plain p)
    | None => inl (ErrNew "malformed state")
    end |}.

#[export] Instance bit_serializer_laws : SerializerLaws bit_serializer id.
Proof.
  split.
  - intros x v [= <-]. unfold blen. cbn. by destruct (encode (to_plain x)).
  - intros x v [= <-]. exists x. split; [|done]. cbn. rewrite unbits_bits. cbn. rewrite decode_encode.
    by destruct x as [[]].
Qed.

(** Two tenants' callers, told apart by owner. *)
Definition sample_options : @Keeper.options string string := {|
  Keeper.serializer := bit_serializer; Keeper.maxLockDuration := 100;
  Keeper.keyNamespace := None; Keeper.o_owner := Some id; Keeper.replayAuthorizer := None |}.
Definition no_opts : Keeper.AttemptLockOpts :=
  {| Keeper.LockTTL := 0; Keeper.MaxLockDuration := 0; Keeper.o_Fingerprint := None |}.
Definition ticking (n : nat) : Go.time := 1000 + Z.of_nat n.
Definition nonces (n : nat) : string := pretty (Z.of_nat n).
Definition alone (_ : nat) : list op := [].
Definition sample_kst : KStorage World := memory_kstorage 500 ticking alone.

Lemma lock_exclusive_until_timeout_witness :
  wp (let* a := Keeper.AttemptLockWithOpts (ST := sample_kst) (now ticking) (newString nonces) sample_options "alice"%string "k" no_opts in
      let* b := Keeper.AttemptLockWithOpts (ST := sample_kst) (now ticking) (newString nonces) sample_options "alice"%string "k" no_opts in
      let* c := Keeper.Complete (ST := sample_kst) sample_options "alice"%string "k" (Some "result"%string) a.1.2 in
      mret (a.1.1, b.1.1, c))
    (fun r _ => r = (true, false, None)) (MkWorld ∅ 0 0).
Proof.
  eapply (lock_exclusive_until_timeout 500 ticking nonces alone sample_options id); [done..|].
  intros n Hn. split; [constructor|]. cbn in Hn.
  assert (n = 4 \/ n = 5 \/ n = 6 \/ n = 7)%nat as [-> | [-> | [-> | ->]]] by lia; done.
Defined.

(** The key, the lock and the holder's state after that first attempt. *)
Definition sample_key : string := Keeper.effectiveKey sample_options "alice"%string "k".
Definition sample_wire (nonce : string) (at_ : Go.time) : @Keeper.serializedState string :=
  Keeper.SerializedState StatusInProgress None nonce at_ None "alice".
Definition sample_token (nonce : string) (at_ : Go.time) : slice := Some (bits (encode (to_plain (sample_wire nonce at_)))).
Definition sample_state (nonce : string) (at_ : Go.time) : @Keeper.State string :=
  Keeper.heldState (sample_token nonce at_) None "alice".
Definition sample_entry : Memory.entry := Memory.Entry sample_key (sample_token "0" 1000) 1502.

Definition sample_result : slice :=
  Some (bits (encode (to_plain (Keeper.SerializedState StatusSuccess (Some "result"%string) EmptyString 0 None "alice")))).

Lemma complete_then_replay_witness :
  wp (let* c := Keeper.Complete (ST := sample_kst) sample_options "alice"%string "k" (Some "result"%string) (Some (sample_state "0" 1000)) in
      let* b := Keeper.AttemptLockWithOpts (ST := sample_kst) (now ticking) (newString nonces) sample_options "alice"%string "k" no_opts in
      mret (c, b))
    (fun r w' => exists fp, bstr fp = EmptyString /\
       r = (None, (false, Some (Keeper.MkState StatusSuccess (Some "result"%string) None fp "alice"), None)) /\
       entries w' !! sample_key = Some (Memory.Entry sample_key sample_result 1504))
    (MkWorld {[sample_key := sample_entry]} 3 1).
Proof.
  eapply (complete_then_replay 500 ticking nonces alone sample_options id _ _ _ _ _ (sample_state "0" 1000) sample_entry);
    [done|done|done|done|reflexivity|by eexists|vm_compute; reflexivity|constructor|done|constructor|done|].
  split; [right; right; reflexivity|left; reflexivity].
Defined.

(** Two hundred ticks later the same owner takes the lock over. *)
Definition sample_late : World := MkWorld {[sample_key := sample_entry]} 200 1.
Definition sample_taken : World :=
  MkWorld {[sample_key := Memory.Entry sample_key (sample_token "1" 1200) 1705]} 206 2.

Example sample_takeover :
  Keeper.AttemptLockWithOpts (ST := sample_kst) (now ticking) (newString nonces) sample_options "alice"%string "k" no_opts sample_late
  = Some ((true, Some (sample_state "1" 1200), None), sample_taken).
Proof. vm_compute. reflexivity. Qed.


Lemma attempt_authorized_witness :
  exists x : @Keeper.serializedState string,
    may_see sample_options "alice"%string (Keeper.s_Owner x) (Keeper.s_Fingerprint x) None.
Proof.
  destruct (attempt_authorized (ST := sample_kst) (now ticking) (newString nonces) sample_options "alice"%string "k" no_opts
    sample_late true (Some (sample_state "1" 1200)) sample_taken sample_takeover)
    as [(val & v & token & w1 & w2 & H & _)|(val & v & token & w1 & w2 & x & _ & _ & H & _)]; [|by exists x].
  exists (sample_wire EmptyString 0). split; [right; right; reflexivity|left; reflexivity].
Defined.

(** At the very instant an entry expires, a new attempt is still denied while
    the holder's completion already fails: the two expiry tests differ there. *)
Theorem expiry_boundary_gap ttl key e val lockTtl now' (s : Memory.Store) :
  key <> EmptyString -> s !! key = Some e -> Memory.expiresAt e <> 0 ->
  let now := Memory.expiresAt e in
  Memory.AttemptLockWithTTL ttl key val lockTtl now now' s = (false, Memory.value e, None, None, s) /\
  Memory.Complete ttl key val (Memory.value e) now now' s = (Some ErrLockStolen, s).
Proof.
  intros Hkey%String.eqb_neq Hs Hexp. cbv zeta.
  unfold Memory.AttemptLockWithTTL, Memory.Complete, Memory.expired, Go.is_zero, Go.after, Go.before.
  apply Z.eqb_neq in Hexp. rewrite Hkey, Hs, Hexp, Z.ltb_irrefl. done.
Qed.

(** A takeover lives for the storage's TTL, 500 here, whatever [LockTTL] the
    attempt asked for. *)
Example takeover_ignores_lock_ttl :
  Keeper.AttemptLockWithOpts (ST := sample_kst) (now ticking) (newString nonces) sample_options "alice"%string "k"
    {| Keeper.LockTTL := 10; Keeper.MaxLockDuration := 0; Keeper.o_Fingerprint := None |} sample_late
  = Some ((true, Some (sample_state "1" 1200), None), sample_taken).
Proof. vm_compute. reflexivity. Qed.
End IdempotencyTheorems.
