(* ===== verification/RateLimit.v ===== *)
(** The in-memory sliding-window rate limiter:
    data/limiters/storages/memory/memory.go, multi.go and scheduler.go, with
    the argument check of data/limiters/storages/multi.go.

    A provider is a list of shards, each a map of buckets with its LRU list,
    and three shared counters.  A call is one or two critical sections, each a
    function of the provider and of the instants it reads; between the two
    sections of a call any sections of other calls may run.  The touch sequence
    is unbounded (the code's is 64 bits wide). *)

From S2P Require Import Prelude.

Module RateLimit.

Definition ErrLimitExceeded : error := ErrNew "rate limit exceeded".
Definition ErrCapacityExceeded : error := ErrNew "rate limit storage capacity exceeded".
Definition ErrDuplicateKey : error := ErrNew "duplicate key in multi-key admission".

Record LimitInfo := MkInfo { Remaining : Z; Reset : Z }.

(** ** A bucket *)

Record bucket := MkBucket {
  requests : list Go.time;
  head : nat;
  limit : Z;
  window : Go.duration;
  lastUsed : Go.time;
  recency : Z;
}.

(** [sort.Search]: binary search for the first index at which [f] holds. *)
Fixpoint search_loop (fuel : nat) (f : nat -> bool) (i j : nat) : nat :=
  match fuel with
  | O => i
  | S fuel =>
      if (i <? j)%nat then
        let h := ((i + j) / 2)%nat in
        if f h then search_loop fuel f i h else search_loop fuel f (S h) j
      else i
  end.
Definition Search (n : nat) (f : nat -> bool) : nat := search_loop n f 0 n.

(** The first half of [bucket.apply]: the expired prefix is skipped, and
    dropped once it dominates the slice. *)
Definition prune (b : bucket) (cutoff : Go.time) : bucket :=
  let live := drop (head b) (requests b) in
  let head' := (head b + Search (length live) (fun i => match live !! i with Some t => Go.after t cutoff | None => false end))%nat in
  if (length (requests b) / 2 <? head')%nat
  then MkBucket (drop head' (requests b)) 0 (limit b) (window b) (lastUsed b) (recency b)
  else MkBucket (requests b) head' (limit b) (window b) (lastUsed b) (recency b).

Definition apply (b : bucket) (now : Go.time) (limit : Z) (period : Go.duration) (take : bool)
    : LimitInfo * bool * bucket :=
  let b := prune b (now - period) in
  let validRequests := Z.of_nat (length (requests b) - head b) in
  let resetTime :=
    match drop (head b) (requests b) with
    | oldest :: _ => Go.unix (oldest + period)
    | [] => 0
    end in
  if limit <=? validRequests then (MkInfo 0 resetTime, false, b)
  else if negb take then (MkInfo (limit - validRequests) resetTime, true, b)
  else
    let requests' := requests b ++ [now] in
    let resetTime := if validRequests =? 0 then Go.unix (now + period) else resetTime in
    (MkInfo (Z.max (limit - Z.of_nat (length requests' - head b)) 0) resetTime, true,
     MkBucket requests' (head b) (RateLimit.limit b) (window b) (lastUsed b) (recency b)).

Definition expiry (b : bucket) : Go.time :=
  if (length (requests b) =? head b)%nat then Go.zero_time
  else match last (requests b) with Some t => t + window b | None => Go.zero_time end.

Definition expiredAt (b : bucket) (now : Go.time) : bool := negb (Go.after (expiry b) now).

(** ** The provider *)

(** [lru] holds the keys of the shard, the most recently used first. *)
Record shard := MkShard { buckets : gmap string bucket; lru : list string }.

Record Provider := MkProvider {
  shards : list shard;
  sequence : Z;
  count : Z;
  nextExpiry : Z;
}.

Inductive Eviction := EvictionLRU | EvictionReject.

#[export] Instance Eviction_eq_dec : EqDecision Eviction.
Proof. solve_decision. Defined.

Definition set_shards (p : Provider) (l : list shard) := MkProvider l (sequence p) (count p) (nextExpiry p).
Definition set_sequence (p : Provider) (n : Z) := MkProvider (shards p) n (count p) (nextExpiry p).
Definition set_count (p : Provider) (n : Z) := MkProvider (shards p) (sequence p) n (nextExpiry p).
Definition set_nextExpiry (p : Provider) (n : Z) := MkProvider (shards p) (sequence p) (count p) n.

(** [p.shards[i]]; the index is in range by construction. *)
Definition no_shard : shard := MkShard ∅ [].
Definition shard_at (p : Provider) (i : nat) : shard := default no_shard (shards p !! i).
Definition put_shard (p : Provider) (i : nat) (sh : shard) : Provider := set_shards p (<[i := sh]> (shards p)).

(** container/list on keys: [PushFront], [MoveToFront], [Remove], [Back]. *)
Definition without (key : string) (l : list string) : list string := filter (fun k => k <> key) l.
Definition MoveToFront (key : string) (l : list string) : list string := key :: without key l.

(** [shard.drop] *)
Definition drop_key (sh : shard) (key : string) : bool * shard :=
  match buckets sh !! key with
  | Some _ => (true, MkShard (delete key (buckets sh)) (without key (lru sh)))
  | None => (false, sh)
  end.

Section provider.
(** The immutable part of a provider: the hash of its seed and its options. *)
Variables (hash : string -> Z) (epoch : Go.time) (maxBuckets : Z) (eviction : Eviction) (maxIdleTime : Go.duration).

Definition New (nshards : Z) : Provider :=
  MkProvider (replicate (Z.to_nat (Z.max nshards 1)) no_shard) 0 0 Go.max_int64.

Definition shardIndex (p : Provider) (key : string) : nat :=
  if (length (shards p) =? 1)%nat then 0%nat
  else Z.to_nat (hash key mod Z.of_nat (length (shards p))).

Definition offset (t : Go.time) : Z :=
  if Go.is_zero t then Go.min_int64 else Go.sub t epoch.

Definition lowerExpiry (p : Provider) (t : Go.time) : Provider :=
  if nextExpiry p <=? offset t then p else set_nextExpiry p (offset t).

Definition purgeDue (p : Provider) (now : Go.time) : bool := nextExpiry p <=? offset now.

Definition reserveSlot (p : Provider) : bool * Provider :=
  if (0 <? maxBuckets) && (maxBuckets <=? count p) then (false, p)
  else (true, set_count p (count p + 1)).

Definition reserveSlots (n : nat) (partial : bool) (p : Provider) : nat * Provider :=
  let k := if 0 <? maxBuckets then Z.min (Z.of_nat n) (maxBuckets - count p) else Z.of_nat n in
  if (k <=? 0) || ((k <? Z.of_nat n) && negb partial) then (0%nat, p)
  else (Z.to_nat k, set_count p (count p + k)).

Definition freeSlots (p : Provider) : Z :=
  if maxBuckets <=? 0 then Go.max_int64 else Z.max (maxBuckets - count p) 0.

Definition releaseSlots (n : nat) (p : Provider) : Provider :=
  if (0 <? n)%nat then set_count p (count p - Z.of_nat n) else p.

Definition new_bucket : bucket := MkBucket [] 0 0 0 Go.zero_time 0.

Definition insertLocked (i : nat) (key : string) (p : Provider) : bucket * Provider :=
  let sh := shard_at p i in
  (new_bucket, put_shard p i (MkShard (<[key := new_bucket]> (buckets sh)) (key :: lru sh))).

(** The bucket [b] of [key] in shard [i], as the pointer the code holds. *)
Definition touchAtLocked (i : nat) (key : string) (b : bucket) (now : Go.time) (limit : Z) (period : Go.duration)
    (take : bool) (p : Provider) : LimitInfo * bool * Provider :=
  let seq := sequence p + 1 in
  let sh := shard_at p i in
  let reshaped := negb (window b =? period) in
  let '(info, ok, b) := apply (MkBucket (requests b) (head b) limit period now seq) now limit period take in
  let p := put_shard (set_sequence p seq) i (MkShard (<[key := b]> (buckets sh)) (MoveToFront key (lru sh))) in
  (info, ok, if reshaped then lowerExpiry p (expiry b) else p).

Definition result : Type := option LimitInfo * option error.

Definition touchLocked (i : nat) (key : string) (b : bucket) (now : Go.time) (limit : Z) (period : Go.duration)
    (p : Provider) : result * Provider :=
  let '(info, ok, p) := touchAtLocked i key b now limit period true p in
  ((Some info, if (ok : bool) then None else Some ErrLimitExceeded), p).

Definition removeLocked (i : nat) (key : string) (p : Provider) : Provider :=
  let '(ok, sh) := drop_key (shard_at p i) key in
  if (ok : bool) then let p := put_shard p i sh in set_count p (count p - 1) else p.

(** The body of [purgeLocked] for one bucket, with the bound [next]. *)
Definition purge_key (now : Go.time) (i : nat) (acc : Z * Provider) (kb : string * bucket) : Z * Provider :=
  let '(next, p) := acc in
  if expiredAt kb.2 now then (next, removeLocked i kb.1 p)
  else (Z.min next (offset (expiry kb.2)), p).
Definition purge_shard (now : Go.time) (acc : Z * Provider) (i : nat) : Z * Provider :=
  foldl (purge_key now i) acc (map_to_list (buckets (shard_at acc.2 i))).
Definition purgeLocked (now : Go.time) (p : Provider) : Provider :=
  let '(next, p) := foldl (purge_shard now) (Go.max_int64, p) (seq 0 (length (shards p))) in
  set_nextExpiry p next.

Definition reclaimLocked (now : Go.time) (p : Provider) : bool * Provider :=
  if negb (purgeDue p now) then (false, p) else reserveSlot (purgeLocked now p).

(** The shard whose least recently used bucket is the oldest, with its recency. *)
Fixpoint oldest_shard (i : nat) (l : list shard) (oldest : option (nat * Z)) : option (nat * Z) :=
  match l with
  | [] => oldest
  | sh :: l =>
      oldest_shard (S i) l
        match last (lru sh) with
        | None => oldest
        | Some key =>
            let r := default 0 (recency <$> buckets sh !! key) in
            match oldest with
            | Some (_, r') => if r <? r' then Some (i, r) else oldest
            | None => Some (i, r)
            end
        end
  end.

Definition evictLRULocked (p : Provider) : Provider :=
  match oldest_shard 0 (shards p) None with
  | None => p
  | Some (i, _) =>
      match last (lru (shard_at p i)) with
      | Some key => put_shard p i (drop_key (shard_at p i) key).2
      | None => p
      end
  end.

Definition admitAtCapLocked (i : nat) (key : string) (limit : Z) (period : Go.duration) (now : Go.time)
    (p : Provider) : result * Provider :=
  let '(ok, p) := reclaimLocked now p in
  if negb ok && bool_decide (eviction = EvictionReject) then ((None, Some ErrCapacityExceeded), p)
  else
    let p := if (ok : bool) then p else evictLRULocked p in
    let '(b, p) := insertLocked i key p in
    let '(info, _, p) := touchAtLocked i key b now limit period true p in
    ((Some info, None), p).

(** *** [Allow], [Reset] and the cleanup cycle *)

(** The critical section of [Allow] under the key's shard lock; no result means
    that the call goes on to lock every shard.  [now] is the instant read by
    the touch or by the check for expired windows, [now'] the one read by
    [admitAtCapLocked]. *)
Definition allow_shard (key : string) (limit : Z) (period : Go.duration) (now now' : Go.time) (p : Provider)
    : option result * Provider :=
  let i := shardIndex p key in
  match buckets (shard_at p i) !! key with
  | Some b => let '(r, p) := touchLocked i key b now limit period p in (Some r, p)
  | None =>
      let '(ok, p) := reserveSlot p in
      if (ok : bool) then
        let '(b, p) := insertLocked i key p in
        let '(r, p) := touchLocked i key b now limit period p in (Some r, p)
      else if bool_decide (eviction = EvictionReject) && negb (purgeDue p now)
      then (Some (None, Some ErrCapacityExceeded), p)
      else if (length (shards p) =? 1)%nat then
        let '(r, p) := admitAtCapLocked i key limit period now' p in (Some r, p)
      else (None, p)
  end.

(** The critical section under every shard lock. *)
Definition allow_every (key : string) (limit : Z) (period : Go.duration) (now : Go.time) (p : Provider)
    : result * Provider :=
  let i := shardIndex p key in
  match buckets (shard_at p i) !! key with
  | Some b => touchLocked i key b now limit period p
  | None =>
      let '(ok, p) := reserveSlot p in
      if (ok : bool) then
        let '(b, p) := insertLocked i key p in touchLocked i key b now limit period p
      else admitAtCapLocked i key limit period now p
  end.

(** The whole call, with what the other calls do between its two sections.  An
    empty key or a limit or period that is not positive panics. *)
Definition Allow (others : Provider -> Provider) (key : string) (limit : Z) (period : Go.duration)
    (now now' now'' : Go.time) (p : Provider) : option (result * Provider) :=
  if String.eqb key EmptyString || (limit <=? 0) || (period <=? 0) then None
  else match allow_shard key limit period now now' p with
  | (Some r, p) => Some (r, p)
  | (None, p) => Some (allow_every key limit period now'' (others p))
  end.

Definition put_bucket (i : nat) (key : string) (b : bucket) (p : Provider) : Provider :=
  let sh := shard_at p i in put_shard p i (MkShard (<[key := b]> (buckets sh)) (lru sh)).

Definition ResetKey (key : string) (p : Provider) : option Provider :=
  if String.eqb key EmptyString then None
  else
    let i := shardIndex p key in
    match buckets (shard_at p i) !! key with
    | Some b =>
        Some (lowerExpiry (put_bucket i key (MkBucket [] 0 (RateLimit.limit b) (window b) (lastUsed b) (recency b)) p)
                Go.zero_time)
    | None => Some p
    end.

(** One shard of [runCleanupCycle]: [keys] is the rest of the LRU list, from the
    back. *)
Fixpoint cleanup_walk (cutoff : Go.time) (i : nat) (keys : list string) (p : Provider) : Provider :=
  match keys with
  | [] => p
  | key :: keys =>
      match buckets (shard_at p i) !! key with
      | Some b => if Go.before (lastUsed b) cutoff then cleanup_walk cutoff i keys (removeLocked i key p) else p
      | None => p
      end
  end.
Definition cleanup_shard (now : Go.time) (i : nat) (p : Provider) : Provider :=
  cleanup_walk (now - maxIdleTime) i (rev (lru (shard_at p i))) p.
Definition runCleanupCycle (now : Go.time) (p : Provider) : Provider :=
  foldl (fun p i => cleanup_shard now i p) p (seq 0 (length (shards p))).

(** *** [AllowAll] *)

Record Limit := MkLimit { Key : string; l_Limit : Z; Period : Go.duration }.

(** [KeyError], or the bare error of [capacityError]. *)
Inductive multi_error :=
| KeyError (Index : nat) (Key : string) (Err : error)
| BareError (Err : error).

Fixpoint dup_pairwise (i : nat) (before : list string) (limits : list Limit) : option multi_error :=
  match limits with
  | [] => None
  | l :: limits =>
      if existsb (String.eqb (Key l)) before then Some (KeyError i (Key l) ErrDuplicateKey)
      else dup_pairwise (S i) (before ++ [Key l]) limits
  end.
Fixpoint dup_set (i : nat) (seen : gset string) (limits : list Limit) : option multi_error :=
  match limits with
  | [] => None
  | l :: limits =>
      if decide (Key l ∈ seen) then Some (KeyError i (Key l) ErrDuplicateKey)
      else dup_set (S i) ({[Key l]} ∪ seen) limits
  end.

Definition smallDuplicateScan : nat := 8.

(** [ValidateLimits]; no result is a panic. *)
Definition ValidateLimits (limits : list Limit) : option (option multi_error) :=
  if bool_decide (limits = []) ||
     existsb (fun l => String.eqb (Key l) EmptyString || (l_Limit l <=? 0) || (Period l <=? 0)) limits
  then None
  else if (length limits <=? smallDuplicateScan)%nat then Some (dup_pairwise 0 [] limits)
  else Some (dup_set 0 ∅ limits).

(** The bucket of a limit, nil when it has none. *)
Definition resolve (p : Provider) (l : Limit) : option bucket :=
  buckets (shard_at p (shardIndex p (Key l))) !! Key l.
(** Which limits have a bucket, and how many have none. *)
Definition resolveLocked (limits : list Limit) (p : Provider) : list bool * nat :=
  let found := map (fun l => bool_decide (is_Some (resolve p l))) limits in
  (found, length (filter (fun b => b = false) found)).

Fixpoint capacity_from (i : nat) (limits : list (Limit * bool)) (room : Z) : multi_error :=
  match limits with
  | [] => BareError ErrCapacityExceeded
  | (l, true) :: limits => capacity_from (S i) limits room
  | (l, false) :: limits =>
      if room <=? 0 then KeyError i (Key l) ErrCapacityExceeded
      else capacity_from (S i) limits (room - 1)
  end.
Definition capacityError (limits : list Limit) (found : list bool) (room : Z) : multi_error :=
  capacity_from 0 (zip limits found) room.

(** The loop that checks every window without taking a slot, and its body. *)
Definition check_step (now : Go.time) (i : nat) (l : Limit) (found : bool) (refused : option nat) (p : Provider)
    : LimitInfo * option nat * Provider :=
  if found then
    let b := default new_bucket (resolve p l) in
    let '(info, ok, b') := apply b now (l_Limit l) (Period l) false in
    let p := put_bucket (shardIndex p (Key l)) (Key l) b' p in
    (info, if negb ok && bool_decide (refused = None) then Some i else refused,
     if negb (Period l =? window b) then lowerExpiry p (expiry b') else p)
  else (MkInfo (l_Limit l) 0, refused, p).
Fixpoint check_all (now : Go.time) (i : nat) (limits : list (Limit * bool)) (refused : option nat) (p : Provider)
    : list LimitInfo * option nat * Provider :=
  match limits with
  | [] => ([], refused, p)
  | (l, found) :: limits =>
      let '(info, refused, p) := check_step now i l found refused p in
      let '(infos, refused, p) := check_all now (S i) limits refused p in
      (info :: infos, refused, p)
  end.

(** The loops that touch the existing buckets of the call. *)
Fixpoint touch_all (now : Go.time) (take : bool) (limits : list (Limit * bool * LimitInfo)) (p : Provider)
    : list LimitInfo * Provider :=
  match limits with
  | [] => ([], p)
  | (l, found, info) :: limits =>
      let '(info, p) :=
        if (found : bool) then
          let '(info, _, p) := touchAtLocked (shardIndex p (Key l)) (Key l) (default new_bucket (resolve p l))
                                 now (l_Limit l) (Period l) take p in
          (info, p)
        else (info, p) in
      let '(infos, p) := touch_all now take limits p in
      (info :: infos, p)
  end.

(** The loop that inserts the new buckets of the call. *)
Fixpoint insert_all (now : Go.time) (reserved : nat) (limits : list (Limit * bool * LimitInfo)) (p : Provider)
    : list LimitInfo * Provider :=
  match limits with
  | [] => ([], p)
  | (l, true, info) :: limits =>
      let '(infos, p) := insert_all now reserved limits p in (info :: infos, p)
  | (l, false, _) :: limits =>
      let p := if (0 <? reserved)%nat then p else evictLRULocked p in
      let i := shardIndex p (Key l) in
      let '(b, p) := insertLocked i (Key l) p in
      let '(info, _, p) := touchAtLocked i (Key l) b now (l_Limit l) (Period l) true p in
      let '(infos, p) := insert_all now (pred reserved) limits p in
      (info :: infos, p)
  end.

Definition multi_result : Type := list LimitInfo * option multi_error.

(** The end of [allowAllLocked], once every key has room. *)
Definition commit_all (now : Go.time) (limits : list Limit) (found : list bool) (infos : list LimitInfo)
    (reserved : nat) (p : Provider) : multi_result * Provider :=
  let '(infos, p) := touch_all now true (zip (zip limits found) infos) p in
  let '(infos, p) := insert_all now reserved (zip (zip limits found) infos) p in
  ((infos, None), p).

(** [allowAllLocked] after the buckets are resolved; no result means that the
    call must lock every shard. *)
Definition admit_all (limits : list Limit) (found : list bool) (missing : nat) (all : bool) (now : Go.time) (p : Provider)
    : option multi_result * Provider :=
  let '(infos, refused, p) := check_all now 0 (zip limits found) None p in
  match refused with
  | Some r =>
      let '(infos, p) := touch_all now false (zip (zip limits found) infos) p in
      (Some (infos, Some (KeyError r (default EmptyString (Key <$> limits !! r)) ErrLimitExceeded)), p)
  | None =>
      let '(reserved, p) := reserveSlots missing all p in
      let reject := bool_decide (eviction = EvictionReject) in
      if (reserved <? missing)%nat then
        if negb all && (negb reject || purgeDue p now) then (None, p)
        else if reject then
          let room := if all then Z.of_nat reserved else Z.min (freeSlots p) (Z.of_nat missing - 1) in
          (Some ([], Some (capacityError limits found room)), releaseSlots reserved p)
        else
          let room := maxBuckets - (Z.of_nat (length limits) - Z.of_nat missing) in
          if room <? Z.of_nat missing
          then (Some ([], Some (capacityError limits found room)), releaseSlots reserved p)
          else let '(r, p) := commit_all now limits found infos reserved p in (Some r, p)
      else let '(r, p) := commit_all now limits found infos reserved p in (Some r, p)
  end.

Definition allowAllLocked (limits : list Limit) (all : bool) (now : Go.time) (p : Provider)
    : option multi_result * Provider :=
  let '(found, missing) := resolveLocked limits p in
  if all && (freeSlots p <? Z.of_nat missing) && purgeDue p now then
    let p := purgeLocked now p in
    let '(found, missing) := resolveLocked limits p in
    admit_all limits found missing all now p
  else admit_all limits found missing all now p.

Definition AllowAll (others : Provider -> Provider) (limits : list Limit) (now now' : Go.time) (p : Provider)
    : option (multi_result * Provider) :=
  match ValidateLimits limits with
  | None => None
  | Some (Some err) => Some (([], Some err), p)
  | Some None =>
      let order := remove_dups (map (fun l => shardIndex p (Key l)) limits) in
      let all := (length order =? length (shards p))%nat in
      match allowAllLocked limits all now p with
      | (Some r, p) => Some (r, p)
      | (None, p) =>
          match allowAllLocked limits true now' (others p) with
          | (Some r, p) => Some (r, p)
          | (None, p) => Some (([], None), p)
          end
      end
  end.
End provider.
End RateLimit.
