(* ===== verification/RateLimitBucket.v ===== *)
(** Rate limiting, one bucket: the pruned and compacted slice of a bucket
    implements a sliding-window log. *)

From S2P Require Import Prelude RateLimit.

Module RateLimitBucket.
Import RateLimit.

(** The live requests of a bucket, oldest first. *)
Definition live (b : bucket) : list Go.time := drop (head b) (requests b).

(** The requests of a log that lie in the window of length [period] at [now]. *)
Definition recent (now : Go.time) (period : Go.duration) (l : list Go.time) : list Go.time :=
  filter (fun t => now - period < t) l.

Record bucket_ok (b : bucket) : Prop := {
  ok_head : (head b <= length (requests b))%nat;
  ok_sorted : StronglySorted Z.le (live b);
}.

(** ** Binary search *)

Lemma search_loop_spec f n fuel i j :
  (forall a b, (a <= b < n)%nat -> f a = true -> f b = true) ->
  (i <= j <= n)%nat -> (j - i <= fuel)%nat ->
  (forall a, (a < i)%nat -> f a = false) -> (forall a, (j <= a < n)%nat -> f a = true) ->
  let r := search_loop fuel f i j in
  (r <= n)%nat /\ (forall a, (a < r)%nat -> f a = false) /\ (forall a, (r <= a < n)%nat -> f a = true).
Proof.
  intros Hmono. revert i j. induction fuel as [|fuel IH]; intros i j Hij Hfuel Hlo Hhi; cbn [search_loop].
  { split_and!; [lia|done|]. intros a Ha. apply Hhi. lia. }
  destruct (Nat.ltb_spec i j) as [Hlt|Hge].
  2: { split_and!; [lia|done|]. intros a Ha. apply Hhi. lia. }
  assert (i <= (i + j) / 2 < j)%nat as Hh.
  { split; [apply Nat.div_le_lower_bound|apply Nat.Div0.div_lt_upper_bound]; lia. }
  destruct (f ((i + j) / 2)%nat) eqn:E.
  - apply IH; [lia|lia|done|]. intros a Ha. apply (Hmono ((i + j) / 2)%nat); [lia|done].
  - apply IH; [lia|lia| |done]. intros a Ha. destruct (f a) eqn:Ea; [|done].
    rewrite (Hmono a ((i + j) / 2)%nat) in E; [done|lia|done].
Qed.

Lemma sorted_lookup (l : list Z) a b x y :
  StronglySorted Z.le l -> (a <= b)%nat -> l !! a = Some x -> l !! b = Some y -> x <= y.
Proof.
  intros Hs. revert a b. induction Hs as [|z l Hs IH Hz]; intros a b Hab Ha Hb; [done|].
  destruct a as [|a], b as [|b]; cbn in *; simplify_eq; [lia| |lia|apply (IH a b); [lia|done..]].
  rewrite list.Forall_forall in Hz. apply Hz. by eapply list_elem_of_lookup_2.
Qed.

(** On a sorted list the search finds the end of the expired prefix. *)
Lemma search_sorted (l : list Z) c :
  StronglySorted Z.le l ->
  let k := Search (length l) (fun i => match l !! i with Some t => Go.after t c | None => false end) in
  (k <= length l)%nat /\ drop k l = filter (fun t => c < t) l.
Proof.
  intros Hs k. set (f := fun i => match l !! i with Some t => Go.after t c | None => false end) in k.
  destruct (search_loop_spec f (length l) (length l) 0 (length l)) as (Hk & Hlo & Hhi); [|lia..|].
  { intros a b Hab. unfold f. destruct (l !! a) as [x|] eqn:Ea; [|done].
    destruct (lookup_lt_is_Some_2 l b) as [y Eb]; [lia|]. rewrite Eb. unfold Go.after. rewrite !Z.ltb_lt.
    pose proof (sorted_lookup l a b x y Hs (proj1 Hab) Ea Eb). lia. }
  change (search_loop (length l) f 0 (length l)) with k in Hk, Hlo, Hhi. split; [done|].
  rewrite <-(take_drop k l) at 2. rewrite filter_app.
  assert (filter (fun t => c < t) (take k l) = []) as ->.
  { apply filter_none, list.Forall_forall. intros t (a & [Ha Hl]%lookup_take_Some)%list_elem_of_lookup. specialize (Hlo a Hl). unfold f in Hlo.
    rewrite Ha in Hlo. unfold Go.after in Hlo. apply Z.ltb_ge in Hlo. lia. }
  symmetry. apply filter_full, list.Forall_forall. intros t (a & Ha)%list_elem_of_lookup. rewrite lookup_drop in Ha.
  pose proof (lookup_lt_Some _ _ _ Ha). specialize (Hhi (k + a)%nat ltac:(lia)). unfold f in Hhi. rewrite Ha in Hhi.
  by apply Z.ltb_lt.
Qed.

(** ** The window *)

Lemma sorted_snoc (l : list Z) x : StronglySorted Z.le l -> Forall (fun t => t <= x) l -> StronglySorted Z.le (l ++ [x]).
Proof.
  intros Hs Hall. apply StronglySorted_app. split; [|split; [done|repeat constructor]].
  intros y z Hy ->%list_elem_of_singleton. rewrite list.Forall_forall in Hall. auto.
Qed.

Lemma prune_spec b c :
  bucket_ok b ->
  let b' := prune b c in
  bucket_ok b' /\ live b' = filter (fun t => c < t) (live b) /\
  limit b' = limit b /\ window b' = window b /\ lastUsed b' = lastUsed b /\ recency b' = recency b.
Proof.
  intros [Hh Hs] b'. destruct (search_sorted (live b) c Hs) as [Hk Hd].
  assert (live b' = filter (fun t => c < t) (live b)) as Hlive.
  { rewrite <-Hd. unfold b', prune. case_match; unfold live; cbn; rewrite ?drop_0, drop_drop; done. }
  split; [|split; [done|unfold b', prune; by case_match]].
  split; [|rewrite Hlive; by apply StronglySorted_filter_list].
  unfold b', prune. case_match; cbn; [lia|]. unfold live in Hk. rewrite length_drop in Hk |- *. lia.
Qed.

(** What one request does to a bucket: the outcome depends on the requests of
    the last period alone, which are all that the bucket keeps, with the new
    one when it is taken. *)
Lemma apply_spec b now lim period take :
  bucket_ok b -> Forall (fun t => t <= now) (live b) ->
  let '(info, ok, b') := apply b now lim period take in
  let seen := recent now period (live b) in
  let after := seen ++ (if ok && take then [now] else []) in
  ok = (Z.of_nat (length seen) <? lim) /\ bucket_ok b' /\ live b' = after /\
  Remaining info = (if ok then lim - Z.of_nat (length after) else 0) /\
  Reset info = (match after with t :: _ => Go.unix (t + period) | [] => 0 end) /\
  limit b' = limit b /\ window b' = window b /\ lastUsed b' = lastUsed b /\ recency b' = recency b.
Proof.
  intros Hok Hnow. destruct (prune_spec b (now - period) Hok) as (Hok' & Hlive & Hf1 & Hf2 & Hf3 & Hf4). unfold apply.
  set (b1 := prune b (now - period)) in *. cbv zeta.
  change (filter (fun t => now - period < t) (live b)) with (recent now period (live b)) in Hlive.
  assert (length (requests b1) - head b1 = length (recent now period (live b)))%nat as Hlen
    by (rewrite <-Hlive; unfold live; by rewrite length_drop).
  change (drop (head b1) (requests b1)) with (live b1). rewrite Hlen, Hlive. clearbody b1.
  destruct (Z.leb_spec lim (Z.of_nat (length (recent now period (live b))))) as [Hle|Hgt].
  { rewrite (proj2 (Z.ltb_ge _ _)) by lia. rewrite app_nil_r. by split_and!. }
  destruct take; cbn [negb andb].
  2: { rewrite (proj2 (Z.ltb_lt _ _)) by lia. rewrite app_nil_r. by split_and!. }
  rewrite (proj2 (Z.ltb_lt _ _)) by lia. cbn [requests head andb].
  assert (length (requests b1 ++ [now]) - head b1 = S (length (recent now period (live b))))%nat as Hlen'.
  { rewrite length_app. cbn. destruct Hok' as [? _]. lia. }
  rewrite Hlen', length_app. cbn [length].
  assert (drop (head b1) (requests b1 ++ [now]) = recent now period (live b) ++ [now]) as Hdrop.
  { rewrite drop_app_le by apply Hok'. by rewrite <-Hlive. }
  split; [done|]. split.
  { split; cbn; [rewrite length_app; destruct Hok'; lia|]. unfold live. cbn. rewrite Hdrop.
    apply sorted_snoc; [rewrite <-Hlive; apply Hok'|]. rewrite list.Forall_forall in *.
    intros t [_ Ht]%list_elem_of_filter. auto. }
  split; [done|]. split; [cbn; lia|]. split; [|done]. cbn [Reset].
  destruct (recent now period (live b)) as [|t l]; [done|]. by rewrite (proj2 (Z.eqb_neq _ _)) by (cbn; lia).
Qed.

(** ** Logs that respect a limit *)

(** A log of admissions, each made when fewer than [lim] of the earlier ones lay
    in the window before it. *)
Inductive conforming (lim : Z) (period : Go.duration) : list Go.time -> Prop :=
| conforming_nil : conforming lim period []
| conforming_snoc l now :
    conforming lim period l -> Forall (fun t => t <= now) l ->
    Z.of_nat (length (recent now period l)) < lim -> conforming lim period (l ++ [now]).

Definition within (t : Go.time) (period : Go.duration) (l : list Go.time) : list Go.time :=
  filter (fun x => t - period < x /\ x <= t) l.

Lemma within_recent t now period l :
  now <= t -> (length (within t period l) <= length (recent now period l))%nat.
Proof.
  intros Hle. induction l as [|x l IH]; [done|]. unfold within, recent in *. rewrite !filter_cons.
  repeat case_decide; cbn; lia.
Qed.

(** No window of length [period], wherever it ends, holds more than [lim]
    admissions of a conforming log. *)
Lemma conforming_bound lim period l t :
  0 <= lim -> conforming lim period l -> Z.of_nat (length (within t period l)) <= lim.
Proof.
  intros Hlim. induction 1 as [|l now Hc IH Hle Hlt]; [done|].
  unfold within in *. rewrite filter_app, length_app, filter_cons. case_decide as Hin; cbn; [|lia].
  pose proof (within_recent t now period l ltac:(lia)). unfold within in *. lia.
Qed.
End RateLimitBucket.
