(* ===== verification/RateLimitStore.v ===== *)
(** Rate limiting, the provider: the shards, their LRU lists and the shared
    counters stay consistent under every operation. *)

From S2P Require Import Prelude RateLimit RateLimitBucket.

Module RateLimitStore.
Import RateLimit RateLimitBucket.

Section store.
Variables (hash : string -> Z) (epoch : Go.time) (maxBuckets : Z).

Definition idx (n : nat) (key : string) : nat :=
  if (n =? 1)%nat then 0%nat else Z.to_nat (hash key mod Z.of_nat n).

Lemma shardIndex_idx p key : shardIndex hash p key = idx (length (shards p)) key.
Proof. done. Qed.

Lemma idx_lt n key : n <> 0%nat -> (idx n key < n)%nat.
Proof.
  intros Hn. unfold idx. destruct (Nat.eqb_spec n 1); [lia|].
  pose proof (Z.mod_pos_bound (hash key) (Z.of_nat n) ltac:(lia)). lia.
Qed.

(** The bucket of a key, wherever its shard. *)
Definition bucket_of (p : Provider) (key : string) : option bucket :=
  buckets (shard_at p (shardIndex hash p key)) !! key.

Definition rec_of (sh : shard) (key : string) : Z := default 0 (recency <$> buckets sh !! key).
Definition newer (sh : shard) (k k' : string) : Prop := rec_of sh k' < rec_of sh k.

(** A shard holds its own keys, its LRU list names each of them once, and runs
    from the most to the least recently used. *)
Record shard_ok (n i : nat) (sh : shard) : Prop := {
  so_place : forall key b, buckets sh !! key = Some b -> idx n key = i;
  so_nodup : NoDup (lru sh);
  so_keys : forall key, key ∈ lru sh <-> is_Some (buckets sh !! key);
  so_order : StronglySorted (newer sh) (lru sh);
}.

Lemma elem_of_without k key l : k ∈ without key l <-> k <> key /\ k ∈ l.
Proof. unfold without. by rewrite list_elem_of_filter. Qed.

Lemma without_not_in key l : key ∉ l -> without key l = l.
Proof. intros Hk. apply filter_full, list.Forall_forall. by intros k Hin ->. Qed.

Lemma no_shard_ok n i : shard_ok n i no_shard.
Proof.
  split; cbn; [by intros ? ? []%lookup_empty_Some|constructor| |constructor].
  intros key. rewrite lookup_empty. split; [by intros []%not_elem_of_nil|by intros []].
Qed.

Lemma shard_ok_front n i sh key b :
  shard_ok n i sh -> idx n key = i -> (forall k, k <> key -> k ∈ lru sh -> rec_of sh k < recency b) ->
  shard_ok n i (MkShard (<[key := b]> (buckets sh)) (MoveToFront key (lru sh))).
Proof.
  intros [Hplace Hnd Hkeys Hord] Hi Hnew. unfold MoveToFront. split; cbn.
  - intros k b'. destruct (decide (k = key)) as [->|Hk]; [done|]. rewrite lookup_insert_ne by done. apply Hplace.
  - constructor; [rewrite elem_of_without; tauto|]. by apply list.NoDup_filter.
  - intros k. rewrite elem_of_cons, elem_of_without. destruct (decide (k = key)) as [->|Hk].
    + rewrite lookup_insert_eq. split; [by eexists|by left].
    + rewrite lookup_insert_ne, <-Hkeys by done. tauto.
  - assert (forall k, k <> key -> rec_of (MkShard (<[key := b]> (buckets sh)) (MoveToFront key (lru sh))) k = rec_of sh k) as Hrec
      by (intros k Hk; unfold rec_of; cbn; by rewrite lookup_insert_ne).
    constructor.
    + eapply StronglySorted_mono; [by apply StronglySorted_filter_list, Hord|].
      intros x y [Hx _]%elem_of_without [Hy _]%elem_of_without. unfold newer.
      change (MoveToFront key (lru sh)) with (key :: without key (lru sh)) in Hrec. by rewrite !Hrec.
    + apply list.Forall_forall. intros k [Hk Hin]%elem_of_without. unfold newer.
      change (MoveToFront key (lru sh)) with (key :: without key (lru sh)) in Hrec. rewrite Hrec by done.
      unfold rec_of at 2. cbn. rewrite lookup_insert_eq. cbn. by apply Hnew.
Qed.

Lemma shard_ok_same n i sh key b b' :
  shard_ok n i sh -> buckets sh !! key = Some b -> recency b' = recency b ->
  shard_ok n i (MkShard (<[key := b']> (buckets sh)) (lru sh)).
Proof.
  intros [Hplace Hnd Hkeys Hord] Hb Hr. split; cbn; [| done | |].
  - intros k b''. destruct (decide (k = key)) as [->|Hk]; [intros _; by eapply Hplace|].
    rewrite lookup_insert_ne by done. apply Hplace.
  - intros k. rewrite Hkeys. destruct (decide (k = key)) as [->|Hk]; [|by rewrite lookup_insert_ne].
    rewrite lookup_insert_eq, Hb. split; by eexists.
  - eapply StronglySorted_mono; [apply Hord|]. intros x y _ _. unfold newer, rec_of. cbn.
    destruct (decide (x = key)) as [->|Hx], (decide (y = key)) as [->|Hy];
      rewrite ?lookup_insert_eq, ?lookup_insert_ne by done; rewrite ?Hb; cbn; lia.
Qed.

Lemma shard_ok_drop n i sh key : shard_ok n i sh -> shard_ok n i (drop_key sh key).2.
Proof.
  intros [Hplace Hnd Hkeys Hord]. unfold drop_key. destruct (buckets sh !! key) as [b|] eqn:Hb; [|done]. split; cbn.
  - intros k b' [_ Hk]%lookup_delete_Some. by eapply Hplace.
  - by apply list.NoDup_filter.
  - intros k. rewrite elem_of_without, Hkeys. destruct (decide (k = key)) as [->|Hk].
    + rewrite lookup_delete_eq. split; [tauto|by intros []].
    + rewrite lookup_delete_ne by done. tauto.
  - eapply StronglySorted_mono; [by apply StronglySorted_filter_list, Hord|].
    intros x y [Hx _]%elem_of_without [Hy _]%elem_of_without. unfold newer, rec_of. cbn.
    by rewrite !lookup_delete_ne.
Qed.

(** ** The whole provider *)

Definition total (p : Provider) : nat := sum_by (fun sh => size (buckets sh)) (shards p).

(** [r] is the number of slots reserved and not yet filled. *)
Record wf_store (r : Z) (p : Provider) : Prop := {
  ws_nonempty : length (shards p) <> 0%nat;
  ws_shard : forall i sh, shards p !! i = Some sh -> shard_ok (length (shards p)) i sh;
  ws_count : count p = Z.of_nat (total p) + r;
  ws_cap : 0 < maxBuckets -> count p <= maxBuckets;
  ws_seq : 0 <= sequence p;
  ws_rec : forall k b, bucket_of p k = Some b -> 0 < recency b <= sequence p;
  ws_inj : forall k k' b b', bucket_of p k = Some b -> bucket_of p k' = Some b' -> recency b = recency b' -> k = k';
}.

Lemma shard_at_lookup p i sh : shards p !! i = Some sh -> shard_at p i = sh.
Proof. unfold shard_at. by intros ->. Qed.

Lemma shard_at_lt p i : (i < length (shards p))%nat -> shards p !! i = Some (shard_at p i).
Proof. intros Hi. unfold shard_at. by destruct (lookup_lt_is_Some_2 _ _ Hi) as [sh ->]. Qed.

Lemma shardIndex_lt p key : length (shards p) <> 0%nat -> (shardIndex hash p key < length (shards p))%nat.
Proof. apply idx_lt. Qed.

Lemma shardIndex_put p i sh key : shardIndex hash (put_shard p i sh) key = shardIndex hash p key.
Proof. rewrite !shardIndex_idx. unfold put_shard. cbn. by rewrite length_insert. Qed.

Lemma shard_at_put p i sh j :
  (i < length (shards p))%nat -> shard_at (put_shard p i sh) j = if decide (i = j) then sh else shard_at p j.
Proof.
  intros Hi. unfold shard_at, put_shard. cbn. case_decide as E.
  - subst j. by rewrite list_lookup_insert_eq.
  - by rewrite list_lookup_insert_ne.
Qed.

(** Writing the shard of [key] changes the buckets of that shard alone. *)
Lemma bucket_of_put p key sh k :
  length (shards p) <> 0%nat ->
  bucket_of (put_shard p (shardIndex hash p key) sh) k =
  if decide (shardIndex hash p key = shardIndex hash p k) then buckets sh !! k else bucket_of p k.
Proof.
  intros Hne. unfold bucket_of. rewrite shardIndex_put, shard_at_put by by apply shardIndex_lt. by case_decide.
Qed.

Lemma bucket_of_set p key b l k :
  length (shards p) <> 0%nat ->
  bucket_of (put_shard p (shardIndex hash p key)
    (MkShard (<[key := b]> (buckets (shard_at p (shardIndex hash p key)))) l)) k =
  if decide (k = key) then Some b else bucket_of p k.
Proof.
  intros Hne. rewrite bucket_of_put by done. cbn. destruct (decide (k = key)) as [->|Hk].
  - rewrite decide_True by done. by rewrite lookup_insert_eq.
  - case_decide as E; [|done]. rewrite lookup_insert_ne by done. unfold bucket_of. by rewrite E.
Qed.

Lemma bucket_of_unset p key k :
  length (shards p) <> 0%nat ->
  bucket_of (put_shard p (shardIndex hash p key) (drop_key (shard_at p (shardIndex hash p key)) key).2) k =
  if decide (k = key) then None else bucket_of p k.
Proof.
  intros Hne. rewrite bucket_of_put by done. unfold drop_key.
  assert (buckets (shard_at p (shardIndex hash p key)) !! key = bucket_of p key) as Hb by done.
  destruct (buckets _ !! key) as [b|] eqn:E; cbn.
  - destruct (decide (k = key)) as [->|Hk].
    + rewrite decide_True by done. by rewrite lookup_delete_eq.
    + case_decide as E'; [|done]. rewrite lookup_delete_ne by done. unfold bucket_of. by rewrite E'.
  - destruct (decide (k = key)) as [->|Hk].
    + rewrite decide_True by done. done.
    + case_decide as E'; [|done]. unfold bucket_of. by rewrite E'.
Qed.

Lemma total_put p i sh :
  (i < length (shards p))%nat ->
  (total (put_shard p i sh) + size (buckets (shard_at p i)) = total p + size (buckets sh))%nat.
Proof. intros Hi. unfold total, put_shard. cbn.
  by apply (sum_by_insert (fun sh => size (buckets sh))), shard_at_lt.
Qed.

Lemma shards_put p i sh n :
  (i < length (shards p))%nat -> n = length (shards p) ->
  (forall j sh', shards p !! j = Some sh' -> shard_ok n j sh') -> shard_ok n i sh ->
  forall j sh', shards (put_shard p i sh) !! j = Some sh' -> shard_ok n j sh'.
Proof.
  intros Hi -> Hall Hsh j sh' Hj. unfold put_shard in Hj. cbn in Hj.
  destruct (decide (i = j)) as [->|Hne]; [|by rewrite list_lookup_insert_ne in Hj; auto].
  rewrite list_lookup_insert_eq in Hj by done. by simplify_eq.
Qed.

(** A bucket written and moved to the front, under a fresh sequence number. *)
Definition front (key : string) (b : bucket) (p : Provider) : Provider :=
  let i := shardIndex hash p key in
  put_shard (set_sequence p (sequence p + 1)) i
    (MkShard (<[key := b]> (buckets (shard_at p i))) (MoveToFront key (lru (shard_at p i)))).

Lemma bucket_of_front p key b k :
  length (shards p) <> 0%nat -> bucket_of (front key b p) k = if decide (k = key) then Some b else bucket_of p k.
Proof. intros Hne. apply (bucket_of_set (set_sequence p (sequence p + 1))). done. Qed.

Lemma length_put p i sh : length (shards (put_shard p i sh)) = length (shards p).
Proof. unfold put_shard. cbn. apply length_insert. Qed.

Lemma wf_front r p key b :
  wf_store (match bucket_of p key with Some _ => r | None => r + 1 end) p -> recency b = sequence p + 1 -> wf_store r (front key b p).
Proof.
  intros [Hne Hsh Hcount Hcap Hseq Hrec Hinj] Hb. pose proof (shardIndex_lt p key Hne) as Hi.
  pose proof (shard_at_lt p _ Hi) as Hat.
  assert (forall k b', bucket_of p k = Some b' -> recency b' < recency b) as Hlt
    by (intros k b' Hk; specialize (Hrec k b' Hk); lia).
  split.
  - unfold front. by rewrite length_put.
  - unfold front at 2. rewrite length_put. cbn [shards set_sequence].
    apply (shards_put (set_sequence p (sequence p + 1))); [done|done|done|].
    apply shard_ok_front; [by apply Hsh|done|]. intros k Hk Hin.
    destruct (Hsh _ _ Hat) as [Hplace _ Hkeys _]. apply Hkeys in Hin as [b' Hb'].
    unfold rec_of. rewrite Hb'. cbn. apply (Hlt k). unfold bucket_of. rewrite shardIndex_idx, (Hplace k b' Hb'). done.
  - pose proof (total_put (set_sequence p (sequence p + 1)) (shardIndex hash p key)
      (MkShard (<[key := b]> (buckets (shard_at p (shardIndex hash p key)))) (MoveToFront key (lru (shard_at p (shardIndex hash p key))))) Hi) as Ht.
    change (total (front key b p) + size (buckets (shard_at p (shardIndex hash p key))) =
      total p + size (<[key := b]> (buckets (shard_at p (shardIndex hash p key)))))%nat in Ht.
    rewrite map_size_insert in Ht. change (count (front key b p)) with (count p). rewrite Hcount.
    change (buckets (shard_at p (shardIndex hash p key)) !! key) with (bucket_of p key) in Ht.
    destruct (bucket_of p key); cbn in *; lia.
  - done.
  - change (sequence (front key b p)) with (sequence p + 1). lia.
  - intros k b'. rewrite bucket_of_front by done. change (sequence (front key b p)) with (sequence p + 1).
    case_decide; [intros [= <-]; lia|intros Hk%Hrec; lia].
  - intros k k' b1 b2. rewrite !bucket_of_front by done. repeat case_decide; intros E1 E2 E; simplify_eq; [done|..].
    + apply Hlt in E2. lia.
    + apply Hlt in E1. lia.
    + by apply (Hinj k k' b1 b2).
Qed.

(** A bucket rewritten in place. *)
Lemma wf_put_bucket r p key b b' :
  wf_store r p -> bucket_of p key = Some b -> recency b' = recency b ->
  wf_store r (put_bucket (shardIndex hash p key) key b' p).
Proof.
  intros [Hne Hsh Hcount Hcap Hseq Hrec Hinj] Hb Hr. pose proof (shardIndex_lt p key Hne) as Hi.
  pose proof (shard_at_lt p _ Hi) as Hat. set (p' := put_bucket _ _ _ _).
  assert (forall k, bucket_of p' k = if decide (k = key) then Some b' else bucket_of p k) as Hof
    by (intros k; by apply bucket_of_set).
  split; [by unfold p', put_bucket; rewrite length_put| | |done|done|..].
  - unfold p' at 2, put_bucket. rewrite length_put. apply shards_put; [done|done|done|].
    by apply (shard_ok_same _ _ _ _ b); [apply Hsh|..].
  - pose proof (total_put p _ (MkShard (<[key := b']> (buckets (shard_at p (shardIndex hash p key)))) (lru (shard_at p (shardIndex hash p key)))) Hi) as Ht.
    change (total p' + size (buckets (shard_at p (shardIndex hash p key))) =
      total p + size (<[key := b']> (buckets (shard_at p (shardIndex hash p key)))))%nat in Ht.
    rewrite map_size_insert_Some in Ht by done. change (count p') with (count p). lia.
  - intros k b''. rewrite Hof. change (sequence p') with (sequence p). case_decide; [intros [= <-]|apply Hrec].
    rewrite Hr. by apply (Hrec key).
  - intros k k' b1 b2. rewrite !Hof. repeat case_decide; intros E1 E2 E; simplify_eq; [done|..].
    + rewrite Hr in E. by apply (Hinj key k' b b2).
    + rewrite Hr in E. by apply (Hinj k key b1 b).
    + by apply (Hinj k k' b1 b2).
Qed.

(** A bucket dropped; its slot stays reserved. *)
Definition unset (key : string) (p : Provider) : Provider :=
  let i := shardIndex hash p key in put_shard p i (drop_key (shard_at p i) key).2.

Lemma bucket_of_unset' p key k :
  length (shards p) <> 0%nat -> bucket_of (unset key p) k = if decide (k = key) then None else bucket_of p k.
Proof. apply bucket_of_unset. Qed.

Lemma wf_unset r p key : wf_store r p -> wf_store (match bucket_of p key with Some _ => r + 1 | None => r end) (unset key p).
Proof.
  intros [Hne Hsh Hcount Hcap Hseq Hrec Hinj]. pose proof (shardIndex_lt p key Hne) as Hi.
  pose proof (shard_at_lt p _ Hi) as Hat.
  split; [by unfold unset; rewrite length_put| | |done|done|..].
  - unfold unset at 2. rewrite length_put. apply shards_put; [done|done|done|]. by apply shard_ok_drop, Hsh.
  - pose proof (total_put p _ (drop_key (shard_at p (shardIndex hash p key)) key).2 Hi) as Ht.
    change (put_shard p _ _) with (unset key p) in Ht. change (count (unset key p)) with (count p).
    unfold drop_key in Ht. change (buckets (shard_at p (shardIndex hash p key)) !! key) with (bucket_of p key) in Ht.
    destruct (bucket_of p key) as [b|] eqn:E; cbn in *; [|lia].
    rewrite map_size_delete_Some in Ht by (by exists b).
    assert (size (buckets (shard_at p (shardIndex hash p key))) <> 0%nat); [|lia].
    intros Hz%map_size_empty_iff. unfold bucket_of in E. by rewrite Hz in E.
  - intros k b'. rewrite bucket_of_unset' by done. case_decide; [done|apply Hrec].
  - intros k k' b1 b2. rewrite !bucket_of_unset' by done. repeat case_decide; [done..|apply Hinj].
Qed.

(** ** Windows and the expiry bound *)

(** A constraint on the period of each tracked key. *)
Variable Q : string -> Go.duration -> Prop.

(** A tracked bucket at [now]. *)
Record bucket_fine (now : Go.time) (b : bucket) : Prop := {
  bf_ok : bucket_ok b;
  bf_times : Forall (fun t => 0 < t <= lastUsed b) (live b);
  bf_window : 0 < window b;
  bf_used : lastUsed b <= now;
}.

(** The bound [n] does not hide the expiry of [b] from anyone who looks at [now]
    or later. *)
Definition due_bound (n : Z) (now : Go.time) (b : bucket) : Prop :=
  n <= offset epoch (expiry b) \/ (live b = [] /\ n <= offset epoch now).

Record wf (now : Go.time) (r : Z) (p : Provider) : Prop := {
  wf_st : wf_store r p;
  wf_now : 0 < now;
  wf_fine : forall k b, bucket_of p k = Some b -> bucket_fine now b;
  wf_due : forall k b, bucket_of p k = Some b -> due_bound (nextExpiry p) now b;
  wf_win : forall k b, bucket_of p k = Some b -> Q k (window b);
}.

Lemma offset_mono t t' : 0 <= t <= t' -> offset epoch t <= offset epoch t'.
Proof.
  intros Ht. unfold offset, Go.is_zero, Go.sub.
  destruct (Z.eqb_spec t 0), (Z.eqb_spec t' 0); unfold Go.min_int64, Go.max_int64; lia.
Qed.

Lemma expiry_live b :
  bucket_ok b -> expiry b = match last (live b) with Some t => t + window b | None => 0 end.
Proof.
  intros [Hh _]. unfold expiry, live. destruct (Nat.eqb_spec (length (requests b)) (head b)) as [E|E].
  - by rewrite drop_ge by lia.
  - rewrite <-(take_drop (head b) (requests b)) at 1. rewrite last_app.
    destruct (last (drop _ _)) eqn:El; [done|]. apply last_None, (f_equal length) in El.
    rewrite length_drop in El. cbn in El. lia.
Qed.

Lemma sorted_last_max (l : list Z) x : StronglySorted Z.le l -> last l = Some x -> Forall (fun t => t <= x) l.
Proof.
  intros Hs (l' & ->)%last_Some. apply Forall_app. split; [|repeat constructor; lia].
  apply StronglySorted_app in Hs as (Hle & _). apply list.Forall_forall. intros t Ht. apply Hle; [done|by left].
Qed.

(** Pruning keeps the last request, unless it removes them all. *)
Lemma recent_last now period (l : list Z) :
  StronglySorted Z.le l ->
  (recent now period l = [] /\ Forall (fun t => t + period <= now) l) \/ last (recent now period l) = last l.
Proof.
  intros Hs. destruct (last l) as [x|] eqn:E.
  2: { apply last_None in E as ->. by right. }
  destruct (decide (now - period < x)) as [Hx|Hx].
  - right. apply last_Some in E as [l' ->]. unfold recent.
    rewrite filter_app, (filter_full _ [x]), !last_snoc by (repeat constructor; done). done.
  - left. apply sorted_last_max in E; [|done].
    assert (Forall (fun t => t + period <= now) l) as Hall by (eapply Forall_impl; [apply E|cbn; lia]).
    split; [|done]. apply filter_none. eapply Forall_impl; [apply Hall|cbn; lia].
Qed.

Lemma due_mono n now now' b : 0 <= now <= now' -> due_bound n now b -> due_bound n now' b.
Proof. intros Hle [H|[H1 H2]]; [by left|right]. split; [done|]. pose proof (offset_mono now now' Hle). lia. Qed.

Lemma wf_mono now now' r p : now <= now' -> wf now r p -> wf now' r p.
Proof.
  intros Hle [Hst Hnow Hfine Hdue Hwin]. split; [done|lia|..|done].
  - intros k b Hk. destruct (Hfine k b Hk). split; [done..|lia].
  - intros k b Hk. apply (due_mono _ now); [lia|eauto].
Qed.

(** A request that leaves the period of the window alone needs no new bound. *)
Lemma due_apply n now0 now b b' (take : bool) :
  bucket_fine now0 b -> 0 < now0 <= now -> due_bound n now0 b -> bucket_ok b' -> window b' = window b ->
  live b' = recent now (window b) (live b) ++ (if take then [now] else []) -> due_bound n now b'.
Proof.
  intros [Hok Htimes Hw Hused] Hnow Hdue Hok' Hw' Hlive. unfold due_bound.
  rewrite (expiry_live b') by done. rewrite Hlive, Hw'.
  assert (forall t, last (live b) = Some t -> n <= offset epoch (t + window b) /\ 0 < t <= now) as Hlast.
  { intros t Ht. destruct Hdue as [Hd|[Hnil _]]; [|by rewrite Hnil in Ht].
    rewrite expiry_live, Ht in Hd by done. split; [done|]. rewrite list.Forall_forall in Htimes.
    specialize (Htimes t (last_Some_elem_of _ _ Ht)). lia. }
  assert (n <= offset epoch now \/ exists t, last (live b) = Some t /\ now < t + window b) as Hor.
  { destruct (last (live b)) as [t|] eqn:E.
    - destruct (Hlast t eq_refl) as [Hn Ht]. destruct (decide (now < t + window b)); [right; by exists t|left].
      pose proof (offset_mono (t + window b) now ltac:(lia)). lia.
    - left. apply last_None in E. destruct Hdue as [Hd|[_ Hd]].
      + rewrite expiry_live, E in Hd by done. change (n <= offset epoch 0) in Hd.
        pose proof (offset_mono 0 now ltac:(lia)). lia.
      + pose proof (offset_mono now0 now ltac:(lia)). lia. }
  destruct take.
  - left. rewrite last_snoc. destruct Hor as [Hn|(t & Et & _)].
    + pose proof (offset_mono now (now + window b) ltac:(lia)). lia.
    + destruct (Hlast t Et) as [Hn Ht]. pose proof (offset_mono (t + window b) (now + window b) ltac:(lia)). lia.
  - rewrite app_nil_r. destruct (recent_last now (window b) (live b) (ok_sorted _ Hok)) as [[Hnil Hall]|Heq].
    + right. split; [done|]. destruct Hor as [Hn|(t & Et & Hgt)]; [done|].
      rewrite list.Forall_forall in Hall. specialize (Hall t (last_Some_elem_of _ _ Et)). lia.
    + rewrite Heq. destruct (last (live b)) as [t|] eqn:E; [left; by apply Hlast|right].
      apply last_None in E. rewrite E. split; [done|]. destruct Hor as [Hn|(t & Et & _)]; done.
Qed.

(** ** The operations *)

Lemma lower_spec p t :
  nextExpiry (lowerExpiry epoch p t) <= nextExpiry p /\ nextExpiry (lowerExpiry epoch p t) <= offset epoch t /\
  shards (lowerExpiry epoch p t) = shards p /\ sequence (lowerExpiry epoch p t) = sequence p /\
  count (lowerExpiry epoch p t) = count p.
Proof. unfold lowerExpiry. destruct (Z.leb_spec (nextExpiry p) (offset epoch t)); cbn; split_and!; try done; lia. Qed.

Lemma bucket_of_shards p p' k : shards p' = shards p -> bucket_of p' k = bucket_of p k.
Proof. unfold bucket_of, shard_at, shardIndex. by intros ->. Qed.

Lemma wf_store_same r p p' :
  shards p' = shards p -> sequence p' = sequence p -> count p' = count p -> wf_store r p -> wf_store r p'.
Proof.
  intros E1 E2 E3 [Hne Hsh Hcount Hcap Hseq Hrec Hinj].
  assert (forall k, bucket_of p' k = bucket_of p k) as Hof by (intros k; by apply bucket_of_shards).
  split; rewrite ?E1, ?E2, ?E3; auto.
  - unfold total. rewrite E1. done.
  - intros k b. rewrite Hof. apply Hrec.
  - intros k k' b b'. rewrite !Hof. apply Hinj.
Qed.

Lemma due_lower n n' now b : n' <= n -> due_bound n now b -> due_bound n' now b.
Proof. intros Hn [H|[H1 H2]]; [left; lia|right]. split; [done|lia]. Qed.

Lemma bucket_of_lower p t k : bucket_of (lowerExpiry epoch p t) k = bucket_of p k.
Proof. apply bucket_of_shards, lower_spec. Qed.

Lemma wf_lower now r p t : wf now r p -> wf now r (lowerExpiry epoch p t).
Proof.
  intros [Hst Hnow Hfine Hdue Hwin]. destruct (lower_spec p t) as (Hle & _ & E1 & E2 & E3). split; [|done|..].
  - by apply (wf_store_same r p).
  - intros k b. rewrite bucket_of_lower. apply Hfine.
  - intros k b. rewrite bucket_of_lower. intros Hk. by apply (due_lower (nextExpiry p)), (Hdue k).
  - intros k b. rewrite bucket_of_lower. apply Hwin.
Qed.

(** What a touch does to the provider: the touched key's window is the recent
    part of the old one, with the request if it is taken, and no other window
    changes. *)
Record touched (key : string) (now : Go.time) (lim : Z) (period : Go.duration) (take : bool)
    (p : Provider) (info : LimitInfo) (ok : bool) (p' : Provider) : Prop := {
  t_ok : ok = (Z.of_nat (length (recent now period (default [] (live <$> bucket_of p key)))) <? lim);
  t_info : Remaining info =
    if ok then lim - Z.of_nat (length (recent now period (default [] (live <$> bucket_of p key)) ++ (if take then [now] else []))) else 0;
  t_key : exists b', bucket_of p' key = Some b' /\ window b' = period /\ lastUsed b' = now /\
    recency b' = sequence p + 1 /\
    live b' = recent now period (default [] (live <$> bucket_of p key)) ++ (if ok && take then [now] else []);
  t_others : forall k, k <> key -> bucket_of p' k = bucket_of p k;
  t_seq : sequence p' = sequence p + 1;
  t_count : count p' = count p;
  t_len : length (shards p') = length (shards p);
}.

Lemma touch_spec now0 now r p key lim period take :
  wf now0 (match bucket_of p key with Some _ => r | None => r + 1 end) p -> now0 <= now -> 0 < period -> Q key period ->
  let '(info, ok, p') := touchAtLocked epoch (shardIndex hash p key) key (default new_bucket (bucket_of p key))
                           now lim period take p in
  wf now r p' /\ touched key now lim period take p info ok p'.
Proof.
  intros [Hst Hnow0 Hfine Hdue Hwin] Hnow Hper HQ. set (b := default new_bucket (bucket_of p key)).
  assert (live b = default [] (live <$> bucket_of p key)) as Hlive0 by (unfold b; by destruct (bucket_of p key)).
  assert (bucket_ok b /\ Forall (fun t => 0 < t <= now) (live b)) as [Hok Htimes].
  { unfold b. destruct (bucket_of p key) as [b0|] eqn:E; cbn; [|split; [split; cbn; [lia|constructor]|constructor]].
    destruct (Hfine key b0 E) as [Hok Ht _ Hu]. split; [done|]. eapply Forall_impl; [apply Ht|]. cbn. lia. }
  unfold touchAtLocked. set (b1 := MkBucket (requests b) (head b) lim period now (sequence p + 1)).
  pose proof (apply_spec b1 now lim period take) as Happ.
  destruct (apply b1 now lim period take) as [[info ok] b'].
  destruct Happ as (Hok1 & Hok' & Hlive & Hrem & _ & _ & Hw & Hused & Hrec); [by destruct Hok|eapply Forall_impl; [apply Htimes|cbn; lia]|].
  change (live b1) with (live b) in *. rewrite Hlive0 in Hok1, Hlive, Hrem. cbn in Hw, Hused, Hrec.
  change (put_shard _ _ _) with (front key b' p). set (p1 := front key b' p).
  assert (bucket_of p1 key = Some b' /\ forall k, k <> key -> bucket_of p1 k = bucket_of p k) as [Hkey Hoth].
  { split; [|intros k Hk]; unfold p1; rewrite bucket_of_front by apply Hst; by case_decide. }
  assert (wf_store r p1) as Hst1 by by apply wf_front.
  assert (bucket_fine now b') as Hfb.
  { split; [done| |lia|lia]. rewrite Hlive, Hused. apply Forall_app. split.
    - apply list.Forall_forall. intros t [_ Ht]%list_elem_of_filter. rewrite <-Hlive0 in Ht.
      rewrite list.Forall_forall in Htimes. by apply Htimes.
    - destruct (ok && take); repeat constructor; lia. }
  assert (touched key now lim period take p info ok p1) as Ht1.
  { split; [done| |by exists b'|done|done|done|unfold p1, front; by rewrite length_put].
    rewrite Hrem. by destruct ok. }
  assert (forall k b2, bucket_of p1 k = Some b2 -> bucket_fine now b2) as Hfine1.
  { intros k b2. destruct (decide (k = key)) as [->|Hk]; [rewrite Hkey; by intros [= <-]|].
    rewrite Hoth by done. intros Hk2. destruct (Hfine k b2 Hk2). split; [done..|lia]. }
  assert (forall n k b2, n <= nextExpiry p -> k <> key -> bucket_of p1 k = Some b2 -> due_bound n now b2) as Hdue1.
  { intros n k b2 Hn Hk. rewrite Hoth by done. intros Hk2. apply (due_lower (nextExpiry p)); [done|].
    apply (due_mono _ now0); [lia|by apply (Hdue k)]. }
  assert (forall k b2, bucket_of p1 k = Some b2 -> Q k (window b2)) as Hwin1.
  { intros k b2. destruct (decide (k = key)) as [->|Hk]; [rewrite Hkey; intros [= <-]; by rewrite Hw|].
    rewrite Hoth by done. apply Hwin. }
  destruct (Z.eqb_spec (window b) period) as [Hsame|Hdiff]; cbn [negb].
  - split; [|done]. split; [done|lia|done| |done]. intros k b2 Hk2. destruct (decide (k = key)) as [->|Hk]; [|by apply (Hdue1 _ k)].
    rewrite Hkey in Hk2. injection Hk2 as <-. destruct (bucket_of p key) as [b0|] eqn:E; [|cbn in Hsame; lia].
    apply (due_apply _ now0 now b b' (ok && take)); [by apply (Hfine key)|lia|by apply (Hdue key)|done|by rewrite Hw|].
    by rewrite Hlive, Hsame.
  - destruct (lower_spec p1 (expiry b')) as (Hle & Hle' & E1 & E2 & E3). split.
    + split; [by apply (wf_store_same r p1)|lia|intros k b2; rewrite bucket_of_lower; apply Hfine1| |
        intros k b2; rewrite bucket_of_lower; apply Hwin1].
      intros k b2. rewrite bucket_of_lower. destruct (decide (k = key)) as [->|Hk]; [|by apply Hdue1].
      rewrite Hkey. intros [= <-]. by left.
    + destruct Ht1 as [H1 H2 H3 H4 H5 H6 H7]. split; [done|done| | |by rewrite E2|by rewrite E3|by rewrite E1].
      * by rewrite bucket_of_lower.
      * intros k Hk. rewrite bucket_of_lower. auto.
Qed.
End store.
End RateLimitStore.
