(* ===== verification/RateLimitOps.v ===== *)
(** Rate limiting, the operations of a provider: reservations, removal, the
    purge of expired windows and LRU eviction. *)

From S2P Require Import Prelude RateLimit RateLimitBucket RateLimitStore.

Module RateLimitOps.
Import RateLimit RateLimitBucket RateLimitStore.

Section ops.
Variables (hash : string -> Z) (epoch : Go.time) (maxBuckets : Z).
Variable Q : string -> Go.duration -> Prop.
Local Abbreviation bucket_of := (bucket_of hash).
Local Abbreviation wf_store := (wf_store hash maxBuckets).
Local Abbreviation wf := (wf hash epoch maxBuckets Q).
Local Abbreviation unset := (unset hash).

(** Buckets may go away without harm to the rest. *)
Lemma wf_shrink now r r' p p' :
  wf now r p -> wf_store r' p' -> nextExpiry p' <= nextExpiry p ->
  (forall k b, bucket_of p' k = Some b -> bucket_of p k = Some b) -> wf now r' p'.
Proof.
  intros [Hst Hnow Hfine Hdue Hwin] Hst' Hn Hsub. split; [done|done|eauto| |eauto].
  intros k b Hk. eapply due_lower; [done|eauto].
Qed.

(** ** Slots *)

Lemma wf_store_count r d p n :
  wf_store r p -> n = count p + d -> (0 < maxBuckets -> n <= maxBuckets) -> wf_store (r + d) (set_count p n).
Proof.
  intros [Hne Hsh Hcount Hcap Hseq Hrec Hinj] -> Hd. split; try done.
  change (count p + d = Z.of_nat (total p) + (r + d)). lia.
Qed.

Lemma wf_count now r d p n :
  wf now r p -> n = count p + d -> (0 < maxBuckets -> n <= maxBuckets) -> wf now (r + d) (set_count p n).
Proof. intros [Hst Hnow Hfine Hdue] Hn Hd. split; [by apply wf_store_count|done..]. Qed.

Lemma reserve_spec now r p :
  wf now r p ->
  let '(ok, p') := reserveSlot maxBuckets p in
  shards p' = shards p /\ sequence p' = sequence p /\
  if ok then wf now (r + 1) p' else p' = p /\ 0 < maxBuckets /\ count p = maxBuckets.
Proof.
  intros Hwf. unfold reserveSlot. pose proof (ws_cap _ _ _ _ (wf_st _ _ _ _ _ _ _ Hwf)) as Hcap.
  destruct (Z.ltb_spec 0 maxBuckets) as [Hm|Hm]; cbn [andb]; [destruct (Z.leb_spec maxBuckets (count p))|].
  1: { specialize (Hcap Hm). split_and!; try done. lia. }
  all: split_and!; [done|done|]; apply wf_count; [done|done|lia].
Qed.

Lemma reserve_all_spec now n partial p :
  wf now 0 p ->
  let '(k, p') := reserveSlots maxBuckets n partial p in
  wf now (Z.of_nat k) p' /\ p' = set_count p (count p') /\ (k <= n)%nat /\
  ((k < n)%nat -> 0 < maxBuckets /\ (partial = false -> k = 0%nat /\ p' = p) /\ (partial = true -> count p' = maxBuckets)).
Proof.
  intros Hwf. unfold reserveSlots. pose proof (ws_cap _ _ _ _ (wf_st _ _ _ _ _ _ _ Hwf)) as Hcap.
  assert (p = set_count p (count p)) as Hp by by destruct p.
  destruct (Z.ltb_spec 0 maxBuckets) as [Hm|Hm].
  - specialize (Hcap Hm). set (k := Z.min (Z.of_nat n) (maxBuckets - count p)).
    destruct (Z.leb_spec k 0) as [Hk|Hk]; cbn [orb].
    { split_and!; [done|done|lia|]. intros Hlt. split; [done|]. split; [done|]. intros _. lia. }
    destruct (Z.ltb_spec k (Z.of_nat n)), partial; cbn [andb negb].
    2: { split_and!; [done|done|lia|]. by intros _. }
    all: rewrite Z2Nat.id by lia; split_and!; [|done|lia|
      intros ?; split; [done|]; split; [intros ?; first [discriminate|exfalso; lia]|intros _; cbn; lia]].
    all: replace k with (0 + k) by lia; apply wf_count; [done|lia|lia].
  - destruct (Z.leb_spec (Z.of_nat n) 0); cbn [orb]; [split_and!; [done|done|lia|lia]|].
    rewrite Z.ltb_irrefl. cbn [andb]. rewrite Nat2Z.id. split_and!; [|done|lia|lia].
    replace (Z.of_nat n) with (0 + Z.of_nat n) at 1 by lia. apply wf_count; [done|lia|lia].
Qed.

Lemma release_spec now k p : wf now (Z.of_nat k) p -> wf now 0 (releaseSlots k p) /\ shards (releaseSlots k p) = shards p.
Proof.
  intros Hwf. unfold releaseSlots. destruct (Nat.ltb_spec 0 k).
  - split; [|done]. replace 0 with (Z.of_nat k + - Z.of_nat k) by lia. apply wf_count; [done|lia|].
    intros Hm. pose proof (ws_cap _ _ _ _ (wf_st _ _ _ _ _ _ _ Hwf) Hm). lia.
  - assert (k = 0%nat) as -> by lia. done.
Qed.

(** A fresh bucket that is touched at once. *)
Lemma insert_touch r p key now lim period take :
  wf_store r p -> bucket_of p key = None ->
  let '(b, p1) := insertLocked (shardIndex hash p key) key p in
  touchAtLocked epoch (shardIndex hash p key) key b now lim period take p1 =
  touchAtLocked epoch (shardIndex hash p key) key new_bucket now lim period take p.
Proof.
  intros Hst Hnone. set (i := shardIndex hash p key).
  pose proof (shardIndex_lt hash p key (ws_nonempty _ _ _ _ Hst)) as Hi. fold i in Hi.
  assert (without key (key :: lru (shard_at p i)) = without key (lru (shard_at p i))) as Hw
    by (unfold without; by rewrite filter_cons_False by auto).
  unfold insertLocked, touchAtLocked. destruct (apply _ _ _ _ _) as [[info ok] b'].
  rewrite shard_at_put, decide_True by done. cbn [buckets lru]. unfold MoveToFront. rewrite Hw, insert_insert_eq.
  unfold put_shard. cbn. by rewrite list_insert_insert_eq.
Qed.

(** ** Removal *)

Lemma remove_spec r p key :
  wf_store r p ->
  let p' := removeLocked (shardIndex hash p key) key p in
  wf_store r p' /\ nextExpiry p' = nextExpiry p /\ sequence p' = sequence p /\
  length (shards p') = length (shards p) /\
  (forall k, bucket_of p' k = if decide (k = key) then None else bucket_of p k).
Proof.
  intros Hst p'. pose proof (wf_unset hash maxBuckets r p key Hst) as Hun.
  pose proof (fun k => bucket_of_unset' hash p key k (ws_nonempty _ _ _ _ Hst)) as Hof.
  unfold p', removeLocked. unfold RateLimitStore.unset, RateLimitStore.bucket_of in *.
  unfold drop_key in *. destruct (buckets _ !! key) as [b|] eqn:E; cbn [fst snd] in *.
  - split_and!; try done; [|apply length_put].
    replace r with (r + 1 + -1) by lia. apply wf_store_count; [done|done|].
    intros Hm. pose proof (ws_cap _ _ _ _ Hst Hm). cbn. lia.
  - split_and!; try done. intros k. case_decide as Ek; [by subst|done].
Qed.

(** ** The purge *)

Definition purged (now : Go.time) (P : string -> Prop) `{!forall k, Decision (P k)} (p p' : Provider) : Prop :=
  forall k, bucket_of p' k =
    match bucket_of p k with
    | Some b => if decide (P k) then (if expiredAt b now then None else Some b) else Some b
    | None => None
    end.

Lemma purge_keys now i l next p r :
  wf_store r p -> NoDup l.*1 ->
  (forall k b, (k, b) ∈ l -> bucket_of p k = Some b /\ shardIndex hash p k = i) ->
  let '(next', p') := foldl (purge_key epoch now i) (next, p) l in
  wf_store r p' /\ nextExpiry p' = nextExpiry p /\ sequence p' = sequence p /\ length (shards p') = length (shards p) /\
  next' <= next /\ purged now (fun k => k ∈ l.*1) p p' /\
  (forall k b, (k, b) ∈ l -> expiredAt b now = false -> next' <= offset epoch (expiry b)).
Proof.
  revert next p. induction l as [|[k b] l IH]; intros next p Hst Hnd Hl.
  { cbn. split_and!; try done.
    - intros k. cbn. by destruct (bucket_of p k).
    - by intros ? ? ?%not_elem_of_nil. }
  apply NoDup_cons in Hnd as [Hnew Hnd]. destruct (Hl k b) as [Hb Hi]; [by left|].
  assert (forall k' b', (k', b') ∈ l -> k' <> k) as Hne.
  { intros k' b' Hin ->. apply Hnew, list_elem_of_fmap. by exists (k, b'). }
  set (p1 := if expiredAt b now then removeLocked i k p else p).
  set (next1 := if expiredAt b now then next else Z.min next (offset epoch (expiry b))).
  assert (wf_store r p1 /\ nextExpiry p1 = nextExpiry p /\ sequence p1 = sequence p /\
    length (shards p1) = length (shards p) /\
    forall k', bucket_of p1 k' = if decide (k' = k) then (if expiredAt b now then None else Some b) else bucket_of p k')
    as (Hst1 & Hn1 & Hs1 & Hlen1 & Hof1).
  { unfold p1. destruct (expiredAt b now); [rewrite <-Hi; by apply remove_spec|]. split_and!; try done.
    intros k'. case_decide; [by subst|done]. }
  specialize (IH next1 p1 Hst1 Hnd).
  change (foldl (purge_key epoch now i) (next, p) ((k, b) :: l))
    with (foldl (purge_key epoch now i) (purge_key epoch now i (next, p) (k, b)) l).
  replace (purge_key epoch now i (next, p) (k, b)) with (next1, p1)
    by (unfold purge_key, next1, p1; cbn [fst snd]; by case_match).
  destruct (foldl _ _ l) as [next' p'].
  destruct IH as (Hst' & Hn' & Hs' & Hlen' & Hle & Hpur & Hbound).
  { intros k' b' Hin. destruct (Hl k' b') as [Hb' Hi']; [by right|]. rewrite Hof1, decide_False by eauto.
    split; [done|]. rewrite <-Hi'. rewrite !shardIndex_idx. by rewrite Hlen1. }
  split_and!; try congruence.
  - unfold next1 in Hle. case_match; lia.
  - intros k'. rewrite Hpur, Hof1. destruct (decide (k' = k)) as [->|Hk].
    + rewrite Hb, decide_True by by left. destruct (expiredAt b now) eqn:Eexp; [done|]. by case_decide.
    + destruct (bucket_of p k') as [b'|]; [|done]. change (((k, b) :: l).*1) with (k :: l.*1).
      destruct (decide (k' ∈ l.*1)) as [Hin|Hin]; [by rewrite decide_True by by right|].
      rewrite decide_False; [done|]. by intros [?|?]%elem_of_cons.
  - intros k' b' Hin Eexp. apply elem_of_cons in Hin as [[= -> ->]|Hin]; [|by eapply Hbound].
    unfold next1 in Hle. rewrite Eexp in Hle. lia.
Qed.

(** The keys of one shard. *)
Lemma shard_entries r p i k b :
  wf_store r p -> (i < length (shards p))%nat ->
  (k, b) ∈ map_to_list (buckets (shard_at p i)) <-> bucket_of p k = Some b /\ shardIndex hash p k = i.
Proof.
  intros Hst Hi. rewrite elem_of_map_to_list. split.
  - intros Hk. assert (shardIndex hash p k = i) as Hix
      by (eapply (so_place _ _ _ _ (ws_shard _ _ _ _ Hst i _ (shard_at_lt p i Hi))); done).
    split; [|done]. unfold RateLimitStore.bucket_of. by rewrite Hix.
  - intros [Hk <-]. exact Hk.
Qed.

Lemma purge_shards now n a next p r :
  wf_store r p -> (a + n <= length (shards p))%nat ->
  let '(next', p') := foldl (purge_shard epoch now) (next, p) (seq a n) in
  wf_store r p' /\ nextExpiry p' = nextExpiry p /\ sequence p' = sequence p /\ length (shards p') = length (shards p) /\
  next' <= next /\ purged now (fun k => a <= shardIndex hash p k < a + n)%nat p p' /\
  (forall k b, bucket_of p' k = Some b -> (a <= shardIndex hash p k < a + n)%nat -> next' <= offset epoch (expiry b)).
Proof.
  revert a next p. induction n as [|n IH]; intros a next p Hst Hn.
  { cbn. split_and!; try done; [|lia]. intros k. destruct (bucket_of p k); [|done]. by rewrite decide_False by lia. }
  cbn [seq foldl]. unfold purge_shard at 2. cbn [snd].
  pose proof (purge_keys now a (map_to_list (buckets (shard_at p a))) next p r Hst (NoDup_fst_map_to_list _)) as H1.
  destruct (foldl _ (next, p) (map_to_list _)) as [next1 p1].
  destruct H1 as (Hst1 & Hn1 & Hs1 & Hlen1 & Hle1 & Hpur1 & Hb1); [intros k b; apply (shard_entries r); [done|lia]|].
  specialize (IH (S a) next1 p1 Hst1 ltac:(lia)). destruct (foldl _ _ (seq (S a) n)) as [next' p'].
  destruct IH as (Hst' & Hn' & Hs' & Hlen' & Hle' & Hpur' & Hb').
  assert (forall k, shardIndex hash p1 k = shardIndex hash p k) as Hix by (intros k; rewrite !shardIndex_idx; by rewrite Hlen1).
  assert (forall k, is_Some (bucket_of p k) -> k ∈ (map_to_list (buckets (shard_at p a))).*1 <-> shardIndex hash p k = a) as Hin.
  { intros k [b Hb]. rewrite list_elem_of_fmap. split.
    - intros ([k' b'] & -> & Hel). by apply (shard_entries r) in Hel as [_ ?]; [|done|lia].
    - intros Hk. exists (k, b). split; [done|]. apply (shard_entries r); [done|lia|done]. }
  split_and!; try congruence; [lia|..].
  - intros k. rewrite Hpur', Hpur1. destruct (bucket_of p k) as [b|] eqn:Hb; [|done].
    specialize (Hin k ltac:(by rewrite Hb)). rewrite (decide_ext _ _ _ _ Hin).
    rewrite Hix. destruct (expiredAt b now) eqn:Eexp; repeat case_decide; try done; try lia; by rewrite ?Eexp.
  - intros k b Hk Hrange. destruct (decide (shardIndex hash p k = a)) as [Ha|Ha].
    + rewrite Hpur' in Hk. destruct (bucket_of p1 k) as [b1|] eqn:Hb1'; [|done].
      rewrite Hix, decide_False in Hk by lia. simplify_eq. rewrite Hpur1 in Hb1'.
      destruct (bucket_of p k) as [b0|] eqn:Hb0; [|done]. specialize (Hin k ltac:(by rewrite Hb0)).
      rewrite decide_True in Hb1' by by apply Hin. destruct (expiredAt b0 now) eqn:Eexp; [done|]. simplify_eq.
      assert (next1 <= offset epoch (expiry b)); [|lia]. apply (Hb1 k); [|done]. by apply (shard_entries r); [|lia|].
    + apply (Hb' k); [done|]. rewrite Hix. lia.
Qed.

(** Purging drops exactly the expired windows, and makes the bound exact. *)
Lemma purge_spec now r p :
  wf now r p ->
  let p' := purgeLocked epoch now p in
  wf now r p' /\ sequence p' = sequence p /\ length (shards p') = length (shards p) /\ purged now (fun _ => True) p p'.
Proof.
  intros Hwf p'. destruct Hwf as [Hst Hnow Hfine Hdue Hwin]. unfold p', purgeLocked.
  pose proof (purge_shards now (length (shards p)) 0 Go.max_int64 p r Hst ltac:(lia)) as H.
  destruct (foldl _ _ _) as [next p1]. destruct H as (Hst1 & _ & Hs1 & Hlen1 & _ & Hpur & Hb).
  assert (forall k, (0 <= shardIndex hash p k < 0 + length (shards p))%nat) as Hall.
  { intros k. pose proof (shardIndex_lt hash p k (ws_nonempty _ _ _ _ Hst)). lia. }
  assert (forall k b, bucket_of p1 k = Some b -> bucket_of p k = Some b) as Hsub.
  { intros k b. rewrite Hpur. destruct (bucket_of p k); [|done]. repeat case_match; by intros [= ->]. }
  split_and!; [|done|done|].
  - split; [by apply (wf_store_same _ _ _ p1)|done|intros k b Hk; apply (Hfine k), Hsub, Hk| |intros k b Hk; apply Hwin, Hsub, Hk].
    intros k b Hk. left. by apply (Hb k).
  - intros k. change (bucket_of (set_nextExpiry p1 next) k) with (bucket_of p1 k). rewrite Hpur.
    destruct (bucket_of p k); [|done]. by rewrite !decide_True.
Qed.

(** A provider whose bound is not due holds no expired window. *)
Lemma not_due_live now r p k b :
  wf now r p -> purgeDue epoch p now = false -> bucket_of p k = Some b -> expiredAt b now = false.
Proof.
  intros [Hst Hnow Hfine Hdue] Hpd Hk. unfold purgeDue in Hpd. apply Z.leb_gt in Hpd.
  destruct (Hdue k b Hk) as [Hd|[_ Hd]]; [|lia]. destruct (Hfine k b Hk) as [Hok Ht Hw Hu].
  unfold expiredAt, Go.after. apply negb_false_iff, Z.ltb_lt.
  destruct (decide (now < expiry b)); [done|]. exfalso.
  assert (0 <= expiry b) as H0.
  { rewrite expiry_live by done. destruct (last (live b)) as [t|] eqn:E; [|done].
    rewrite list.Forall_forall in Ht. specialize (Ht t (last_Some_elem_of _ _ E)). lia. }
  pose proof (offset_mono epoch (expiry b) now ltac:(lia)). lia.
Qed.

(** ** Eviction *)

Lemma oldest_spec l : forall i o,
  match oldest_shard i l o with
  | None => o = None /\ Forall (fun sh => last (lru sh) = None) l
  | Some (j, r) =>
      (o = Some (j, r) \/ exists sh key, (i <= j)%nat /\ l !! (j - i)%nat = Some sh /\ last (lru sh) = Some key /\ rec_of sh key = r) /\
      (forall j' r', o = Some (j', r') -> r <= r') /\
      (forall sh key, sh ∈ l -> last (lru sh) = Some key -> r <= rec_of sh key)
  end.
Proof.
  induction l as [|sh l IH]; intros i o; cbn [oldest_shard].
  { destruct o as [[j r]|]; [|done]. split; [by left|]. split; [intros ? ? [= <- <-]; lia|by intros ? ? ?%not_elem_of_nil]. }
  set (o' := match last (lru sh) with None => o | Some _ => _ end). specialize (IH (S i) o').
  assert (match last (lru sh) with
          | None => o' = o
          | Some key => exists j r, o' = Some (j, r) /\ r <= rec_of sh key /\ (forall j' r', o = Some (j', r') -> r <= r') /\
                          (o = Some (j, r) \/ (j = i /\ r = rec_of sh key))
          end) as Ho'.
  { unfold o'. destruct (last (lru sh)) as [key|]; [|done]. fold (rec_of sh key).
    destruct o as [[j r]|]; [destruct (Z.ltb_spec (rec_of sh key) r)|].
    - eexists _, _. split_and!; [done|lia|intros ? ? [= <- <-]; lia|by right].
    - eexists _, _. split_and!; [done|lia|intros ? ? [= <- <-]; lia|by left].
    - eexists _, _. split_and!; [done|lia|done|by right]. }
  clearbody o'. destruct (oldest_shard (S i) l o') as [[j r]|].
  - destruct IH as (Hwho & Hmin & Hall). destruct (last (lru sh)) as [key|] eqn:El.
    + destruct Ho' as (j0 & r0 & -> & Hr0 & Ho & Hfrom). specialize (Hmin j0 r0 eq_refl). split_and!.
      * destruct Hwho as [[= -> ->]|(sh' & key' & Hj & Hl & Hlast & Hr)].
        -- destruct Hfrom as [->|[-> ->]]; [by left|right]. exists sh, key. by rewrite Nat.sub_diag.
        -- right. exists sh', key'. split; [lia|]. by replace (j - i)%nat with (S (j - S i)) by lia.
      * intros j' r' E. specialize (Ho j' r' E). lia.
      * intros sh' key' [->|Hin]%elem_of_cons Hlast; [|by apply (Hall sh')]. rewrite El in Hlast. simplify_eq. lia.
    + subst o'. split_and!; [|done|].
      * destruct Hwho as [?|(sh' & key' & Hj & Hl & Hlast & Hr)]; [by left|right]. exists sh', key'.
        split; [lia|]. by replace (j - i)%nat with (S (j - S i)) by lia.
      * intros sh' key' [->|Hin]%elem_of_cons Hlast; [congruence|by apply (Hall sh')].
  - destruct IH as [-> Hall]. destruct (last (lru sh)) as [key|] eqn:El; [by destruct Ho' as (? & ? & ? & _)|].
    split; [done|]. by constructor.
Qed.

(** The tail of a shard's LRU list is its least recently used bucket. *)
Lemma tail_oldest n i sh key k : shard_ok hash n i sh -> last (lru sh) = Some key -> k ∈ lru sh -> rec_of sh key <= rec_of sh k.
Proof.
  intros [_ _ _ Hord] [l' Hl]%last_Some Hk. rewrite Hl in Hord, Hk.
  apply StronglySorted_app in Hord as (Hall & _). apply elem_of_app in Hk as [Hk | ->%list_elem_of_singleton]; [|lia].
  specialize (Hall k key Hk ltac:(by left)). unfold newer in Hall. lia.
Qed.

Lemma bucket_rec r p k b :
  wf_store r p -> bucket_of p k = Some b ->
  let sh := shard_at p (shardIndex hash p k) in
  shards p !! shardIndex hash p k = Some sh /\ k ∈ lru sh /\ rec_of sh k = recency b.
Proof.
  intros Hst Hk sh. pose proof (shard_at_lt p _ (shardIndex_lt hash p k (ws_nonempty _ _ _ _ Hst))) as Hat.
  split; [done|]. unfold RateLimitStore.bucket_of in Hk. fold sh in Hk, Hat. split.
  - apply (so_keys _ _ _ _ (ws_shard _ _ _ _ Hst _ _ Hat)). by exists b.
  - unfold rec_of. by rewrite Hk.
Qed.

(** Eviction drops the bucket that was used least recently across all shards. *)
Lemma evict_spec r p :
  wf_store r p -> (exists k b, bucket_of p k = Some b) ->
  exists key b, bucket_of p key = Some b /\
    (forall k b', bucket_of p k = Some b' -> recency b <= recency b') /\ evictLRULocked p = unset key p.
Proof.
  intros Hst (k0 & b0 & Hk0). unfold evictLRULocked. pose proof (oldest_spec (shards p) 0 None) as Ho.
  assert (forall k b, bucket_of p k = Some b -> exists sh tail, sh ∈ shards p /\ last (lru sh) = Some tail /\ rec_of sh tail <= recency b) as Htail.
  { intros k b Hk. destruct (bucket_rec r p k b Hst Hk) as (Hat & Hin & Hr).
    destruct (last (lru (shard_at p (shardIndex hash p k)))) as [tail|] eqn:El.
    - eexists _, tail. split; [by eapply list_elem_of_lookup_2|]. split; [done|]. rewrite <-Hr.
      eapply tail_oldest; [by apply (ws_shard _ _ _ _ Hst _ _ Hat)|done|done].
    - apply last_None in El. rewrite El in Hin. by apply not_elem_of_nil in Hin. }
  destruct (oldest_shard 0 (shards p) None) as [[i r0]|].
  - destruct Ho as ([?|(sh & key & _ & Hl & Hlast & Hr)] & _ & Hmin); [done|]. rewrite Nat.sub_0_r in Hl.
    pose proof (ws_shard _ _ _ _ Hst _ _ Hl) as Hok. rewrite (shard_at_lookup p i sh Hl), Hlast.
    assert (key ∈ lru sh) as Hin by by apply last_Some_elem_of. apply (so_keys _ _ _ _ Hok) in Hin as [b Hb].
    assert (shardIndex hash p key = i) as Hi by apply (so_place _ _ _ _ Hok key b Hb).
    exists key, b. split; [unfold RateLimitStore.bucket_of; by rewrite Hi, (shard_at_lookup p i sh Hl)|]. split.
    + intros k b' Hk. destruct (Htail k b' Hk) as (sh' & tail & Hsh' & Hlast' & Hle).
      specialize (Hmin sh' tail Hsh' Hlast'). unfold rec_of in Hr. rewrite Hb in Hr. cbn in Hr. lia.
    + unfold RateLimitStore.unset. by rewrite Hi, (shard_at_lookup p i sh Hl).
  - destruct Ho as [_ Hall]. destruct (Htail k0 b0 Hk0) as (sh & tail & Hsh & Hlast & _).
    rewrite list.Forall_forall in Hall. by rewrite (Hall sh Hsh) in Hlast.
Qed.
End ops.
End RateLimitOps.
