(* ===== verification/RateLimitMulti.v ===== *)
(** Rate limiting, the loops of a multi-key admission: checking every window,
    touching the tracked keys and inserting the new ones. *)

From S2P Require Import Prelude RateLimit RateLimitBucket RateLimitStore RateLimitOps.

Module RateLimitMulti.
Import RateLimit RateLimitBucket RateLimitStore RateLimitOps.

Section multi.
Variables (hash : string -> Z) (epoch : Go.time) (maxBuckets : Z).
Variable Q : string -> Go.duration -> Prop.
Local Abbreviation bucket_of := (bucket_of hash).
Local Abbreviation wf_store := (wf_store hash maxBuckets).
Local Abbreviation wf := (wf hash epoch maxBuckets Q).
Local Abbreviation unset := (unset hash).

(** ** Tracked keys *)

Definition tracked (p : Provider) (k : string) : Prop := is_Some (bucket_of p k).

Lemma shard_keys n i sh : shard_ok hash n i sh -> length (lru sh) = size (buckets sh).
Proof.
  intros [_ Hnd Hkeys _]. rewrite <-(size_dom (D := gset string)), <-(size_list_to_set (C := gset string)) by done.
  f_equal. apply leibniz_equiv. intros k. rewrite elem_of_list_to_set, Hkeys. symmetry. apply elem_of_dom.
Qed.

Lemma shards_keys n a l :
  (forall i sh, l !! i = Some sh -> shard_ok hash n (a + i) sh) ->
  NoDup (l ≫= lru) /\ length (l ≫= lru) = sum_by (fun sh => size (buckets sh)) l /\
  forall k, k ∈ (l ≫= lru) -> (a <= idx hash n k)%nat.
Proof.
  revert a. induction l as [|sh l IH]; intros a Hl.
  { cbn. split; [constructor|]. split; [done|]. auto with go. }
  assert (shard_ok hash n a sh) as Hok by (rewrite <-(Nat.add_0_r a); by apply Hl).
  destruct (IH (S a)) as (Hnd & Hlen & Hidx).
  { intros i sh' Hi. replace (S a + i)%nat with (a + S i)%nat by lia. by apply Hl. }
  assert (forall k, k ∈ lru sh -> idx hash n k = a) as Hk.
  { intros k [b Hb]%(so_keys _ _ _ _ Hok). by apply (so_place _ _ _ _ Hok k b). }
  change ((sh :: l) ≫= lru) with (lru sh ++ (l ≫= lru)). split_and!.
  - apply list.NoDup_app. split; [apply Hok|]. split; [|done]. intros k H1%Hk H2%Hidx. lia.
  - rewrite length_app, Hlen. cbn [sum_by]. f_equal. by apply (shard_keys n a).
  - intros k [->%Hk|?%Hidx]%elem_of_app; lia.
Qed.

(** The LRU lists together name every tracked key once. *)
Lemma tracked_list r p :
  wf_store r p -> exists ks, NoDup ks /\ length ks = total p /\ forall k, k ∈ ks <-> tracked p k.
Proof.
  intros Hst. destruct (shards_keys (length (shards p)) 0 (shards p) (ws_shard _ _ _ _ Hst)) as (Hnd & Hlen & _).
  exists (shards p ≫= lru). split; [done|]. split; [done|]. intros k. rewrite list_elem_of_bind. split.
  - intros (sh & Hk & [i Hi]%list_elem_of_lookup). pose proof (ws_shard _ _ _ _ Hst i sh Hi) as Hok.
    apply (so_keys _ _ _ _ Hok) in Hk as [b Hb]. exists b. unfold RateLimitStore.bucket_of.
    rewrite shardIndex_idx, (so_place _ _ _ _ Hok k b Hb). by rewrite (shard_at_lookup p i sh Hi).
  - intros [b Hb]. destruct (bucket_rec hash maxBuckets r p k b Hst Hb) as (Hat & Hk & _).
    eexists. split; [exact Hk|]. by eapply list_elem_of_lookup_2.
Qed.

(** A provider that tracks more keys than [ks] tracks one that is not among
    them. *)
Lemma tracked_outside r p ks :
  wf_store r p -> (length ks < total p)%nat -> exists k, tracked p k /\ k ∉ ks.
Proof.
  intros Hst Hlt. destruct (tracked_list r p Hst) as (all & Hnd & Hlen & Hall).
  destruct (decide (Exists (fun k => k ∉ ks) all)) as [(k & Hk & Hout)%Exists_exists|Hno].
  - exists k. by rewrite <-Hall.
  - exfalso. apply not_Exists_Forall in Hno; [|solve_decision]. rewrite list.Forall_forall in Hno.
    assert (all ⊆+ ks) as Hsub.
    { apply NoDup_submseteq; [done|]. intros k Hk. specialize (Hno k Hk). by apply dec_stable in Hno. }
    apply submseteq_length in Hsub. lia.
Qed.

(** ** Windows *)

Definition live_of (p : Provider) (k : string) : list Go.time := default [] (live <$> bucket_of p k).

Section evolve.
(** The period of each key. *)
Variables (pers : string -> Go.duration) (now : Go.time).
Hypothesis pers_pos : forall k, 0 < pers k.

(** From [p] to [p'] the keys [T] take one request at [now]; the others at most
    lose requests that have left their window. *)
Definition evolves (T : list string) (p p' : Provider) : Prop :=
  forall k,
    (k ∈ T -> live_of p' k = recent now (pers k) (live_of p k) ++ [now]) /\
    (k ∉ T -> live_of p' k = live_of p k \/ live_of p' k = recent now (pers k) (live_of p k)).

Lemma recent_app t per l l' : recent t per (l ++ l') = recent t per l ++ recent t per l'.
Proof. apply filter_app. Qed.

Lemma recent_recent t t' per l : t <= t' -> recent t' per (recent t per l) = recent t' per l.
Proof.
  intros Hle. unfold recent. rewrite list_filter_filter. apply list_filter_iff. intros x. lia.
Qed.

Lemma recent_now k : recent now (pers k) [now] = [now].
Proof using pers_pos. unfold recent. specialize (pers_pos k). by rewrite filter_cons_True by lia. Qed.

Lemma evolves_refl p p' : (forall k, live_of p' k = live_of p k) -> evolves [] p p'.
Proof. intros H k. split; [by intros ?%not_elem_of_nil|]. left. apply H. Qed.

Lemma evolves_trans T1 T2 p p1 p2 :
  (forall k, k ∈ T1 -> k ∉ T2) -> evolves T1 p p1 -> evolves T2 p1 p2 -> evolves (T1 ++ T2) p p2.
Proof using pers_pos.
  intros Hdis H1 H2 k. destruct (H1 k) as [H1in H1out], (H2 k) as [H2in H2out]. rewrite elem_of_app. split.
  - intros [Hin|Hin].
    + specialize (H1in Hin). rewrite H1in in H2out.
      destruct (H2out (Hdis k Hin)) as [E|E]; [done|]. by rewrite E, recent_app, recent_recent, recent_now.
    + rewrite (H2in Hin). f_equal. assert (k ∉ T1) as Hout by (intros Hin1; by apply (Hdis k)).
      destruct (H1out Hout) as [->| ->]; [done|by apply recent_recent].
  - intros Hout. assert ((k ∉ T1) /\ (k ∉ T2)) as [Hout1 Hout2] by (split; intros ?; apply Hout; auto). specialize (H1out Hout1). specialize (H2out Hout2).
    destruct H1out as [E1|E1], H2out as [E2|E2]; rewrite E2, E1; auto. right. by apply recent_recent.
Qed.

(** The window of a limit is full. *)
Definition full (p : Provider) (l : Limit) : bool :=
  l_Limit l <=? Z.of_nat (length (recent now (Period l) (live_of p (Key l)))).

Definition valid_limit (l : Limit) : Prop := 0 < l_Limit l /\ 0 < Period l /\ pers (Key l) = Period l /\ Q (Key l) (Period l).

Lemma full_evolves T p p' l :
  evolves T p p' -> Key l ∉ T -> valid_limit l -> full p' l = full p l.
Proof.
  intros Hev Hout (_ & _ & Hper & _). unfold full. destruct (proj2 (Hev (Key l)) Hout) as [->| ->]; [done|].
  by rewrite Hper, recent_recent.
Qed.

(** One step of the check loop. *)
Lemma check_one r p l b :
  wf now r p -> bucket_of p (Key l) = Some b -> valid_limit l ->
  let '(info, ok, b') := apply b now (l_Limit l) (Period l) false in
  let p1 := put_bucket (shardIndex hash p (Key l)) (Key l) b' p in
  let p2 := if negb (Period l =? window b) then lowerExpiry epoch p1 (expiry b') else p1 in
  wf now r p2 /\ ok = negb (full p l) /\ evolves [] p p2 /\ (forall k, tracked p2 k <-> tracked p k) /\
  sequence p2 = sequence p /\ count p2 = count p /\ length (shards p2) = length (shards p).
Proof.
  intros [Hst Hnow Hfine Hdue Hwin] Hb (Hlim & Hper & Hpers & HQ). destruct (Hfine _ _ Hb) as [Hok Htimes Hw Hused].
  assert (Forall (fun t => t <= now) (live b)) as Hle by (eapply Forall_impl; [apply Htimes|cbn; lia]).
  pose proof (apply_spec b now (l_Limit l) (Period l) false Hok Hle) as Happ.
  destruct (apply b now (l_Limit l) (Period l) false) as [[info ok] b'].
  destruct Happ as (Hok1 & Hok' & Hlive & _ & _ & _ & Hw' & Hu' & Hr'). rewrite andb_false_r, app_nil_r in Hlive.
  set (p1 := put_bucket (shardIndex hash p (Key l)) (Key l) b' p).
  assert (forall k, bucket_of p1 k = if decide (k = Key l) then Some b' else bucket_of p k) as Hof
    by (intros k; by apply bucket_of_set, Hst).
  set (p2 := if negb (Period l =? window b) then lowerExpiry epoch p1 (expiry b') else p1).
  assert (forall k, bucket_of p2 k = bucket_of p1 k) as Hof2
    by (intros k; unfold p2; case_match; [apply bucket_of_lower|done]).
  assert (wf_store r p1) as Hst1 by by apply (wf_put_bucket hash maxBuckets r p (Key l) b b').
  assert (shards p2 = shards p1 /\ sequence p2 = sequence p /\ count p2 = count p /\ nextExpiry p2 <= nextExpiry p /\
    due_bound epoch (nextExpiry p2) now b') as (E1 & E2 & E3 & E4 & Hdb).
  { destruct (lower_spec epoch p1 (expiry b')) as (? & ? & ? & ? & ?). unfold p2.
    destruct (Z.eqb_spec (Period l) (window b)) as [Ew|]; cbn [negb]; split_and!; try done; [|by left].
    apply (due_apply epoch _ now now b b' false); [by apply (Hfine (Key l))|lia|by apply (Hdue (Key l))|done|done|].
    by rewrite app_nil_r, <-Ew. }
  cbv zeta. fold p1. fold p2. split_and!; [| | | |done|done|rewrite E1; apply length_put].
  - split; [by apply (wf_store_same _ _ _ p1)|done|..]; intros k b2; rewrite Hof2, Hof; case_decide; intros E.
    + injection E as <-. split; [done| |lia|lia]. rewrite Hlive, Hu'. apply list.Forall_forall.
      intros t [_ Ht]%list_elem_of_filter. rewrite list.Forall_forall in Htimes. auto.
    + by apply (Hfine k).
    + by injection E as <-.
    + apply (due_lower epoch (nextExpiry p)); [done|by apply (Hdue k)].
    + injection E as <-. subst. rewrite Hw'. by apply Hwin.
    + by apply Hwin.
  - rewrite Hok1. unfold full, live_of. rewrite Hb. cbn. rewrite Z.leb_antisym. by destruct (_ <? _).
  - intros k. split; [by intros ?%not_elem_of_nil|]. intros _. unfold live_of. rewrite Hof2, Hof.
    case_decide as Ek; [subst; right|by left]. rewrite Hb, Hpers. cbn. done.
  - intros k. unfold tracked. rewrite Hof2, Hof. case_decide as Ek; [|done]. subst. rewrite Hb. split; by eexists.
Qed.

(** ** The loops *)

Lemma tracked_live p p' k : bucket_of p' k = bucket_of p k -> live_of p' k = live_of p k.
Proof. unfold live_of. by intros ->. Qed.

Lemma check_step_spec r l found i refused p :
  wf now r p -> valid_limit l -> found = bool_decide (tracked p (Key l)) ->
  exists info p1,
    check_step hash epoch now i l found refused p =
    (info, match refused with Some j => Some j | None => if full p l then Some i else None end, p1) /\
    wf now r p1 /\ evolves [] p p1 /\ (forall k, tracked p1 k <-> tracked p k) /\
    sequence p1 = sequence p /\ count p1 = count p /\ length (shards p1) = length (shards p).
Proof.
  intros Hwf Hl Hfound. unfold check_step. destruct found.
  - symmetry in Hfound. apply bool_decide_eq_true in Hfound as [b Hb].
    change (resolve hash p l) with (bucket_of p (Key l)).
    rewrite Hb. change (default new_bucket (Some b)) with b. pose proof (check_one r p l b Hwf Hb Hl) as H1. cbv zeta in H1 |- *.
    destruct (apply b now (l_Limit l) (Period l) false) as [[info ok] b'].
    destruct H1 as (Hwf1 & Hok & Hrest). eexists info, _. split; [|by split; [exact Hwf1|exact Hrest]].
    rewrite Hok, negb_involutive. by destruct refused, (full p l).
  - symmetry in Hfound. apply bool_decide_eq_false in Hfound.
    assert (full p l = false) as Hnf.
    { unfold full, live_of. destruct (bucket_of p (Key l)) eqn:E; [by destruct Hfound; eexists|].
      destruct Hl as [Hl _]. cbn. apply Z.leb_gt. lia. }
    eexists _, p. split_and!; try done; [rewrite Hnf; by destruct refused|by apply evolves_refl].
Qed.

Lemma check_all_spec r ls : forall i refused p,
  wf now r p -> Forall (fun lf => valid_limit lf.1) ls -> Forall (fun lf => lf.2 = bool_decide (tracked p (Key lf.1))) ls ->
  let '(infos, refused', p') := check_all hash epoch now i ls refused p in
  wf now r p' /\ evolves [] p p' /\ (forall k, tracked p' k <-> tracked p k) /\
  sequence p' = sequence p /\ count p' = count p /\ length (shards p') = length (shards p) /\ length infos = length ls /\
  refused' = match refused with
             | Some j => Some j
             | None => (fun jx => (i + jx.1)%nat) <$> list_find (fun lf => full p lf.1 = true) ls
             end.
Proof using pers_pos.
  induction ls as [|[l found] ls IH]; intros i refused p Hwf Hval Hfl.
  { cbn. split_and!; try done; [by apply evolves_refl|by destruct refused]. }
  apply Forall_cons in Hval as [Hl Hval]. apply Forall_cons in Hfl as [Hfound Hfl]. cbn [fst snd] in Hl, Hfound.
  cbn [check_all]. destruct (check_step_spec r l found i refused p Hwf Hl Hfound)
    as (info & p1 & -> & Hwf1 & Hev1 & Htr1 & Hs1 & Hc1 & Hn1).
  specialize (IH (S i) (match refused with Some j => Some j | None => if full p l then Some i else None end) p1 Hwf1 Hval).
  destruct (check_all hash epoch now (S i) ls _ p1) as [[infos refused'] p'].
  destruct IH as (Hwf' & Hev' & Htr' & Hs' & Hc' & Hn' & Hlen & Href).
  { eapply Forall_impl; [exact Hfl|]. intros lf Hlf. rewrite Hlf. by apply bool_decide_ext. }
  split_and!; try congruence; [|intros k; by rewrite Htr'|cbn; lia|].
  - apply (evolves_trans [] [] p p1 p'); [auto with go|done|done].
  - rewrite Href. destruct refused as [j|]; [done|]. cbn [list_find fst].
    destruct (full p l) eqn:Efull; [rewrite decide_True by done; cbn; f_equal; lia|]. rewrite decide_False by done.
    assert (list_find (fun lf => full p1 lf.1 = true) ls = list_find (fun lf => full p lf.1 = true) ls) as ->.
    { apply list_find_ext_in. eapply Forall_impl; [exact Hval|]. intros lf Hlf.
      by rewrite (full_evolves [] p p1) by (done || apply not_elem_of_nil). }
    rewrite <-option_fmap_compose. apply option_fmap_ext. intros [j y]. cbn. lia.
Qed.

(** The keys of a call that were tracked, and those that were not. *)
Definition keys_with (f : bool) (ls : list (Limit * bool * LimitInfo)) : list string :=
  (fun x => Key x.1.1) <$> filter (fun x => x.1.2 = f) ls.

Lemma keys_with_cons f l found info ls :
  keys_with f ((l, found, info) :: ls) = if bool_decide (found = f) then Key l :: keys_with f ls else keys_with f ls.
Proof. unfold keys_with. rewrite filter_cons. cbn [fst snd]. case_decide; case_bool_decide; done. Qed.

Lemma keys_with_sub f ls k : k ∈ keys_with f ls -> k ∈ ((fun x => Key x.1.1) <$> ls).
Proof.
  intros (x & -> & [_ Hx]%list_elem_of_filter)%list_elem_of_fmap. apply list_elem_of_fmap. eauto.
Qed.

(** A touch of a tracked key of the call. *)
Lemma touch_one r p l take :
  wf now r p -> tracked p (Key l) -> valid_limit l -> (take = true -> full p l = false) ->
  let '(info, ok, p') := touchAtLocked epoch (shardIndex hash p (Key l)) (Key l) (default new_bucket (resolve hash p l))
                           now (l_Limit l) (Period l) take p in
  wf now r p' /\ evolves (if take then [Key l] else []) p p' /\ touched hash (Key l) now (l_Limit l) (Period l) take p info ok p'.
Proof.
  intros Hwf [b Hb] (Hlim & Hper & Hpers & HQ) Hfull.
  pose proof (touch_spec hash epoch maxBuckets Q now now r p (Key l) (l_Limit l) (Period l) take) as Ht.
  change (resolve hash p l) with (bucket_of p (Key l)). rewrite Hb in Ht |- *.
  destruct (touchAtLocked _ _ _ _ _ _ _ _ _) as [[info ok] p']. destruct Ht as [Hwf' Ht]; [done|lia|done|done|].
  split; [done|]. split; [|done]. destruct Ht as [Hok _ (b' & Hb' & _ & _ & _ & Hlive) Hoth _ _ _].
  change (default [] (live <$> bucket_of p (Key l))) with (live_of p (Key l)) in Hok, Hlive. rewrite <-Hpers in Hok, Hlive.
  assert (forall k, k <> Key l -> live_of p' k = live_of p k) as Hl' by (intros k Hk; by apply tracked_live, Hoth).
  assert (live_of p' (Key l) = live b') as Hl by (unfold live_of; by rewrite Hb').
  intros k. destruct (decide (k = Key l)) as [->|Hk].
  - rewrite Hl, Hlive. destruct take; cbn [andb].
    + specialize (Hfull eq_refl). unfold full in Hfull. apply Z.leb_gt in Hfull. rewrite Hpers in *.
      rewrite (proj2 (Z.ltb_lt _ _)) in Hok by done. subst ok. split; [done|]. intros Hn. destruct Hn. by left.
    + rewrite andb_false_r, app_nil_r. split; [by intros ?%not_elem_of_nil|by right].
  - split; [|intros _; left; by apply Hl']. destruct take; [by intros ?%list_elem_of_singleton|by intros ?%not_elem_of_nil].
Qed.

Lemma touch_all_spec r take ls : forall p,
  wf now r p -> Forall (fun x => valid_limit x.1.1) ls -> NoDup ((fun x => Key x.1.1) <$> ls) ->
  Forall (fun x => x.1.2 = bool_decide (tracked p (Key x.1.1))) ls ->
  (take = true -> Forall (fun x => full p x.1.1 = false) ls) ->
  let '(infos, p') := touch_all hash epoch now take ls p in
  wf now r p' /\ evolves (if take then keys_with true ls else []) p p' /\ (forall k, tracked p' k <-> tracked p k) /\
  (forall k, k ∉ keys_with true ls -> bucket_of p' k = bucket_of p k) /\
  (forall k, k ∈ keys_with true ls -> exists b, bucket_of p' k = Some b /\ sequence p < recency b) /\
  sequence p <= sequence p' /\ count p' = count p /\ length infos = length ls.
Proof using pers_pos.
  induction ls as [|[[l found] info0] ls IH]; intros p Hwf Hval Hnd Hfl Hfull.
  { cbn. split_and!; try done; [destruct take; by apply evolves_refl|auto with go]. }
  apply Forall_cons in Hval as [Hl Hval]. apply Forall_cons in Hfl as [Hfound Hfl]. apply NoDup_cons in Hnd as [Hnew Hnd].
  cbn [fst snd] in Hl, Hfound. cbn [touch_all]. destruct found.
  - symmetry in Hfound. apply bool_decide_eq_true in Hfound.
    pose proof (touch_one r p l take Hwf Hfound Hl) as H1.
    destruct (touchAtLocked _ _ _ _ _ _ _ _ _) as [[info ok] p1].
    destruct H1 as (Hwf1 & Hev1 & [_ _ (b1 & Hb1 & _ & _ & Hr1 & _) Hoth1 Hs1 Hc1 _]);
      [intros Ht; specialize (Hfull Ht); by apply Forall_cons in Hfull as [? _]|].
    assert (forall k, tracked p1 k <-> tracked p k) as Htr1.
    { intros k. unfold tracked. destruct (decide (k = Key l)) as [->|Hk]; [|by rewrite Hoth1].
      split; [done|]. rewrite Hb1. by eexists. }
    assert (forall k, k ∈ keys_with true ls -> k <> Key l) as Hdiff by (intros k Hk ->; by apply Hnew, (keys_with_sub true)).
    specialize (IH p1 Hwf1 Hval Hnd). destruct (touch_all hash epoch now take ls p1) as [infos p'].
    destruct IH as (Hwf' & Hev' & Htr' & Hoth' & Hin' & Hs' & Hc' & Hlen).
    { eapply Forall_impl; [exact Hfl|]. intros x Hx. rewrite Hx. by apply bool_decide_ext. }
    { intros Ht. specialize (Hfull Ht). apply Forall_cons in Hfull as [_ Hfull].
      rewrite list.Forall_forall in Hfull, Hval |- *. intros x Hx.
      rewrite (full_evolves [Key l] p p1); [by apply Hfull|by destruct take| |by apply Hval].
      intros E%list_elem_of_singleton. apply Hnew, list_elem_of_fmap. by exists x. }
    rewrite keys_with_cons, bool_decide_eq_true_2 by done. split_and!.
    + done.
    + destruct take; [|by apply (evolves_trans [] [] p p1 p'); [auto with go|..]].
      apply (evolves_trans [Key l] (keys_with true ls) p p1 p'); [|done|done].
      intros k ->%list_elem_of_singleton Hk. by apply (Hdiff (Key l)).
    + intros k. by rewrite Htr'.
    + intros k Hk. apply not_elem_of_cons in Hk as [Hk1 Hk2]. rewrite Hoth', Hoth1; done.
    + intros k [->|Hk]%elem_of_cons.
      * exists b1. rewrite Hoth'; [|intros Hk; by apply (Hdiff (Key l))]. split; [done|lia].
      * destruct (Hin' k Hk) as (b & Hb & Hr). exists b. split; [done|lia].
    + lia.
    + lia.
    + cbn. lia.
  - specialize (IH p Hwf Hval Hnd Hfl). destruct (touch_all hash epoch now take ls p) as [infos p'].
    rewrite keys_with_cons, bool_decide_eq_false_2 by done.
    destruct IH as (? & ? & ? & ? & ? & ? & ? & ?);
      [intros Ht; specialize (Hfull Ht); by apply Forall_cons in Hfull as [_ ?]|]. split_and!; try done. cbn. lia.
Qed.

(** A new bucket in a reserved slot. *)
Lemma insert_one r p l :
  wf now (r + 1) p -> ~ tracked p (Key l) -> valid_limit l ->
  let '(b, p1) := insertLocked (shardIndex hash p (Key l)) (Key l) p in
  let '(info, _, p') := touchAtLocked epoch (shardIndex hash p (Key l)) (Key l) b now (l_Limit l) (Period l) true p1 in
  wf now r p' /\ touched hash (Key l) now (l_Limit l) (Period l) true p info true p' /\ live_of p' (Key l) = [now].
Proof.
  intros Hwf Hnt (Hlim & Hper & Hpers & HQ).
  assert (bucket_of p (Key l) = None) as Hnone by (destruct (bucket_of p (Key l)) eqn:E; [by destruct Hnt; eexists|done]).
  pose proof (insert_touch hash epoch maxBuckets (r + 1) p (Key l) now (l_Limit l) (Period l) true (wf_st _ _ _ _ _ _ _ Hwf) Hnone) as Hins.
  destruct (insertLocked _ _ _) as [b p1]. rewrite Hins. clear Hins b p1.
  pose proof (touch_spec hash epoch maxBuckets Q now now r p (Key l) (l_Limit l) (Period l) true) as Ht.
  rewrite Hnone in Ht. change (default new_bucket None) with new_bucket in Ht.
  destruct (touchAtLocked _ _ _ _ _ _ _ _ _) as [[info ok] p']. destruct Ht as [Hwf' Ht]; [done|lia|done|done|].
  assert (ok = true) as ->.
  { rewrite (t_ok _ _ _ _ _ _ _ _ _ _ Ht), Hnone. cbn. apply Z.ltb_lt. lia. }
  split; [done|]. split; [done|]. destruct (t_key _ _ _ _ _ _ _ _ _ _ Ht) as (b' & Hb' & _ & _ & _ & Hlive).
  unfold live_of. rewrite Hb', Hnone in *. cbn in Hlive |- *. exact Hlive.
Qed.

(** An eviction, when the keys [O] were all used after every other one. *)
Lemma evict_one r p O s0 :
  wf now r p -> (forall k b, k ∈ O -> bucket_of p k = Some b -> s0 < recency b) ->
  (forall k b, k ∉ O -> bucket_of p k = Some b -> recency b <= s0) -> (length O < total p)%nat ->
  wf now (r + 1) (evictLRULocked p) /\
  exists victim, (victim ∉ O) /\ tracked p victim /\
    (forall k, bucket_of (evictLRULocked p) k = if decide (k = victim) then None else bucket_of p k) /\
    sequence (evictLRULocked p) = sequence p /\ count (evictLRULocked p) = count p.
Proof.
  intros Hwf Hown Hoth Hlen. pose proof (wf_st _ _ _ _ _ _ _ Hwf) as Hst.
  destruct (tracked_outside r p O Hst Hlen) as (k0 & [b0 Hk0] & Hout0).
  destruct (evict_spec hash maxBuckets r p Hst) as (key & b & Hb & Hmin & ->); [by eexists _, _|].
  assert (key ∉ O) as Hkey.
  { intros Hin. specialize (Hown key b Hin Hb). specialize (Hmin k0 b0 Hk0). specialize (Hoth k0 b0 Hout0 Hk0). lia. }
  pose proof (wf_unset hash maxBuckets r p key Hst) as Hst'. rewrite Hb in Hst'.
  pose proof (fun k => bucket_of_unset' hash p key k (ws_nonempty _ _ _ _ Hst)) as Hof.
  split; [apply (wf_shrink hash epoch maxBuckets Q now r (r + 1) p); [done|done|done|]|].
  - intros k b'. rewrite Hof. by case_decide.
  - exists key. split; [done|]. split; [by eexists|]. split; [done|]. done.
Qed.

(** The slot of the next new key: a reserved one, or that of an evicted bucket. *)
Lemma slot_for_one reserved O p s0 m :
  wf now (Z.of_nat reserved) p -> (forall k b, k ∈ O -> bucket_of p k = Some b -> s0 < recency b) ->
  (forall k b, k ∉ O -> bucket_of p k = Some b -> recency b <= s0) ->
  (reserved = 0%nat -> 0 < maxBuckets /\ count p = maxBuckets /\ Z.of_nat (length O + S m) <= maxBuckets) ->
  let p0 := if (0 <? reserved)%nat then p else evictLRULocked p in
  wf now (Z.of_nat (pred reserved) + 1) p0 /\
  (forall k, bucket_of p0 k = bucket_of p k \/ (reserved = 0%nat /\ (k ∉ O) /\ bucket_of p0 k = None)) /\
  sequence p0 = sequence p /\ count p0 = count p.
Proof.
  intros Hwf Hown Hoth Hcap p0. unfold p0. destruct reserved as [|n]; cbn [Nat.ltb Nat.leb pred].
  - destruct (Hcap eq_refl) as (_ & Hc & Hlen). pose proof (ws_count _ _ _ _ (wf_st _ _ _ _ _ _ _ Hwf)) as Hcount.
    destruct (evict_one 0 p O s0 Hwf Hown Hoth) as (Hwf' & v & Hv & _ & Hof & Hs & Hc'); [lia|].
    split; [done|]. split; [|done]. intros k. rewrite Hof. case_decide; [right; by subst|by left].
  - split; [by replace (Z.of_nat n + 1) with (Z.of_nat (S n)) by lia|]. auto.
Qed.

Lemma insert_all_spec ls : forall reserved O p s0,
  wf now (Z.of_nat reserved) p -> Forall (fun x => valid_limit x.1.1) ls -> NoDup ((fun x => Key x.1.1) <$> ls) ->
  (forall k, k ∈ keys_with false ls -> ~ tracked p k) ->
  (forall k, k ∈ O -> exists b, bucket_of p k = Some b /\ s0 < recency b) ->
  (forall k b, k ∉ O -> bucket_of p k = Some b -> recency b <= s0) -> s0 <= sequence p ->
  (reserved <= length (keys_with false ls))%nat ->
  ((reserved < length (keys_with false ls))%nat ->
     0 < maxBuckets /\ count p = maxBuckets /\ Z.of_nat (length O + length (keys_with false ls)) <= maxBuckets) ->
  let '(infos, p') := insert_all hash epoch now reserved ls p in
  wf now 0 p' /\ (forall k, k ∈ O -> bucket_of p' k = bucket_of p k) /\
  (forall k, k ∈ keys_with false ls -> live_of p' k = [now]) /\
  (forall k, k ∉ O -> k ∉ keys_with false ls ->
     bucket_of p' k = bucket_of p k \/ ((reserved < length (keys_with false ls))%nat /\ bucket_of p' k = None)) /\
  count p' = count p /\ length infos = length ls.
Proof.
  induction ls as [|[[l found] info0] ls IH]; intros reserved O p s0 Hwf Hval Hnd Hnt Hown Hoth Hs0 Hle Hcap.
  { cbn in *. assert (reserved = 0%nat) as -> by lia. split_and!; try done; [auto with go|auto]. }
  apply Forall_cons in Hval as [Hl Hval]. apply NoDup_cons in Hnd as [Hnew Hnd]. cbn [fst snd] in Hl.
  cbn [insert_all]. rewrite keys_with_cons in *. destruct found.
  { rewrite bool_decide_eq_false_2 in * by done.
    specialize (IH reserved O p s0 Hwf Hval Hnd Hnt Hown Hoth Hs0 Hle Hcap).
    destruct (insert_all hash epoch now reserved ls p) as [infos p'].
    destruct IH as (? & ? & ? & ? & ? & ?). split_and!; try done. cbn. lia. }
  rewrite bool_decide_eq_true_2 in * by done. cbn [length] in *.
  destruct (slot_for_one reserved O p s0 (length (keys_with false ls)) Hwf) as (Hwf0 & Hof0 & Hs & Hc);
    [intros k b Hk Hb; destruct (Hown k Hk) as (b' & Hb' & ?); congruence|done|intros ->; apply Hcap; lia|].
  set (p0 := if (0 <? reserved)%nat then p else evictLRULocked p) in *.
  assert (forall k, ~ tracked p k -> ~ tracked p0 k) as Hnt0.
  { intros k Hk Ht. apply Hk. unfold tracked in *. destruct (Hof0 k) as [E|(_ & _ & E)]; rewrite E in Ht; [done|by destruct Ht]. }
  pose proof (insert_one (Z.of_nat (pred reserved)) p0 l Hwf0) as H1. destruct (insertLocked _ _ p0) as [b0 pi].
  destruct (touchAtLocked _ _ _ _ _ _ _ _ _) as [[info ok] p1].
  destruct H1 as (Hwf1 & [_ _ (b1 & Hb1 & _ & _ & Hr1 & _) Hoth1 Hs1 Hc1 _] & Hlive1); [apply Hnt0, Hnt; by left|done|].
  assert (forall k, k ∈ keys_with false ls -> k <> Key l) as Hdiff by (intros k Hk ->; by apply Hnew, (keys_with_sub false)).
  assert (Key l ∉ O) as HlO.
  { intros Hin. destruct (Hown _ Hin) as (b & Hb & _). apply (Hnt (Key l)); [by left|by eexists]. }
  assert (forall k, k ∈ O -> bucket_of p1 k = bucket_of p k) as HO1.
  { intros k Hk. rewrite Hoth1 by by intros ->. by destruct (Hof0 k) as [?|(_ & ? & _)]. }
  specialize (IH (pred reserved) (Key l :: O) p1 s0 Hwf1 Hval Hnd).
  destruct (insert_all hash epoch now (pred reserved) ls p1) as [infos p'].
  destruct IH as (Hwf' & HO' & Hks' & Hrest & Hc' & Hlen).
  - intros k Hk Ht. specialize (Hdiff k Hk). unfold tracked in Ht. rewrite Hoth1 in Ht by done.
    apply (Hnt0 k); [|done]. apply Hnt. by right.
  - intros k [->|Hk]%elem_of_cons; [exists b1; split; [done|lia]|]. rewrite HO1 by done. by apply Hown.
  - intros k b [Hk1 Hk2]%not_elem_of_cons. rewrite Hoth1 by done.
    destruct (Hof0 k) as [->|(_ & _ & ->)]; [by apply Hoth|done].
  - lia.
  - lia.
  - intros Hlt. destruct Hcap as (? & ? & ?); [lia|]. cbn [length]. split_and!; [done|lia|lia].
  - split_and!; [done| | | |lia|cbn; lia].
    + intros k Hk. rewrite HO' by by right. by apply HO1.
    + intros k [->|Hk]%elem_of_cons; [|by apply Hks']. unfold live_of in *. rewrite HO' by by left. done.
    + intros k HkO [Hk1 Hk2]%not_elem_of_cons. destruct (Hrest k) as [E|[Hlt E]]; [by rewrite not_elem_of_cons|done| |right; split; [lia|done]].
      rewrite E, Hoth1 by done. destruct (Hof0 k) as [?|(? & _ & ?)]; [by left|right; split; [lia|done]].
Qed.
End evolve.
End multi.
End RateLimitMulti.
