(* ===== verification/RateLimitAdmit.v ===== *)
(** Rate limiting, a whole multi-key admission: all of its keys take a slot, or
    none does. *)

From S2P Require Import Prelude RateLimit RateLimitBucket RateLimitStore RateLimitOps RateLimitMulti.

Module RateLimitAdmit.
Import RateLimit RateLimitBucket RateLimitStore RateLimitOps RateLimitMulti.

Section admission.
Variables (hash : string -> Z) (epoch : Go.time) (maxBuckets : Z) (eviction : Eviction).
Variable Q : string -> Go.duration -> Prop.
Variables (pers : string -> Go.duration) (now : Go.time).
Hypothesis pers_pos : forall k, 0 < pers k.
Local Abbreviation bucket_of := (bucket_of hash).
Local Abbreviation wf := (wf hash epoch maxBuckets Q).
Local Abbreviation tracked := (tracked hash).
Local Abbreviation live_of := (live_of hash).
Local Abbreviation evolves := (evolves hash pers now).
Local Abbreviation full := (full hash now).

Definition err_of (e : multi_error) : error :=
  match e with KeyError _ _ err => err | BareError err => err end.

Lemma capacityError_cap limits found room : err_of (capacityError limits found room) = ErrCapacityExceeded.
Proof.
  unfold capacityError. generalize 0%nat. revert room.
  induction (zip limits found) as [|[l []] ls IH]; intros room i; cbn [capacity_from]; [done|apply IH|].
  case_match; [done|apply IH].
Qed.

(** What a multi-key call may do to the provider. *)
Definition admitted_all (limits : list Limit) (missing : nat) (p p' : Provider) : Prop :=
  Forall (fun l => full p l = false) limits /\
  (forall l, l ∈ limits -> live_of p' (Key l) = recent now (pers (Key l)) (live_of p (Key l)) ++ [now]) /\
  (forall k, k ∉ (Key <$> limits) ->
     (live_of p' k = live_of p k \/ live_of p' k = recent now (pers k) (live_of p k)) \/
     (eviction = EvictionLRU /\ 0 < maxBuckets /\ maxBuckets < count p + Z.of_nat missing /\ bucket_of p' k = None)).

Definition multi_spec (limits : list Limit) (missing : nat) (all : bool) (p : Provider)
    (res : option multi_result) (p' : Provider) : Prop :=
  match res with
  | None => all = false /\ evolves [] p p'
  | Some (infos, None) => admitted_all limits missing p p'
  | Some (infos, Some e) =>
      evolves [] p p' /\
      match list_find (fun l => full p l = true) limits with
      | Some (j, l) => e = KeyError j (Key l) ErrLimitExceeded
      | None => err_of e = ErrCapacityExceeded /\ (0 < missing)%nat /\ 0 < maxBuckets
      end
  end.

(** The flags of a call, paired with its limits. *)
Definition found_in (p : Provider) (limits : list Limit) : list bool :=
  map (fun l => bool_decide (tracked p (Key l))) limits.

Lemma zip_found p limits : zip limits (found_in p limits) = map (fun l => (l, bool_decide (tracked p (Key l)))) limits.
Proof. induction limits as [|l limits IH]; [done|]. cbn. by f_equal. Qed.

Lemma zip_infos p limits (infos : list LimitInfo) :
  length infos = length limits ->
  Forall (fun x => x.1.1 ∈ limits /\ x.1.2 = bool_decide (tracked p (Key x.1.1))) (zip (zip limits (found_in p limits)) infos) /\
  (fun x => Key x.1.1) <$> zip (zip limits (found_in p limits)) infos = Key <$> limits.
Proof.
  rewrite zip_found. revert infos. induction limits as [|l limits IH]; intros [|info infos] Hlen; try done.
  destruct (IH infos) as [Hall Hkeys]; [by injection Hlen|]. cbn. split; [|by rewrite <-Hkeys].
  constructor; [split; [by left|done]|]. eapply Forall_impl; [exact Hall|]. intros x [? ?]. split; [by right|done].
Qed.

Lemma keys_of_flags p limits (infos : list LimitInfo) k b :
  length infos = length limits ->
  k ∈ keys_with b (zip (zip limits (found_in p limits)) infos) <-> k ∈ (Key <$> limits) /\ bool_decide (tracked p k) = b.
Proof.
  intros Hlen. destruct (zip_infos p limits infos Hlen) as [Hall Hkeys]. rewrite <-Hkeys. unfold keys_with.
  rewrite !list_elem_of_fmap. rewrite list.Forall_forall in Hall. split.
  - intros (x & -> & [Hx Hin]%list_elem_of_filter). destruct (Hall x Hin) as [_ E]. split; [by exists x|]. by rewrite <-E.
  - intros [(x & -> & Hin) Hb]. exists x. split; [done|]. apply list_elem_of_filter. split; [|done].
    destruct (Hall x Hin) as [_ E]. by rewrite E.
Qed.

Lemma missing_keys p limits (infos : list LimitInfo) :
  length infos = length limits ->
  length (keys_with false (zip (zip limits (found_in p limits)) infos)) = length (filter (fun b => b = false) (found_in p limits)) /\
  (length (keys_with true (zip (zip limits (found_in p limits)) infos)) +
   length (filter (fun b => b = false) (found_in p limits)) = length limits)%nat.
Proof.
  rewrite zip_found. revert infos. induction limits as [|l limits IH]; intros [|info infos] Hlen; try done.
  destruct (IH infos) as [H1 H2]; [by injection Hlen|]. unfold found_in in *. cbn [map zip zip_with].
  rewrite !keys_with_cons, filter_cons. destruct (bool_decide (tracked p (Key l))).
  - rewrite bool_decide_eq_false_2, bool_decide_eq_true_2, decide_False by done. cbn [length]. lia.
  - rewrite bool_decide_eq_true_2, bool_decide_eq_false_2, decide_True by done. cbn [length]. lia.
Qed.

Definition missing_of (p : Provider) (limits : list Limit) : nat :=
  length (filter (fun b => b = false) (found_in p limits)).

Lemma commit_spec p limits infos reserved :
  wf now (Z.of_nat reserved) p -> Forall (valid_limit Q pers) limits -> NoDup (Key <$> limits) ->
  Forall (fun l => full p l = false) limits -> length infos = length limits ->
  (reserved <= missing_of p limits)%nat ->
  ((reserved < missing_of p limits)%nat -> 0 < maxBuckets /\ count p = maxBuckets /\ Z.of_nat (length limits) <= maxBuckets) ->
  let '(r, p') := commit_all hash epoch now limits (found_in p limits) infos reserved p in
  wf now 0 p' /\ r.2 = None /\
  (forall l, l ∈ limits -> live_of p' (Key l) = recent now (pers (Key l)) (live_of p (Key l)) ++ [now]) /\
  (forall k, k ∉ (Key <$> limits) ->
     bucket_of p' k = bucket_of p k \/ ((reserved < missing_of p limits)%nat /\ bucket_of p' k = None)).
Proof using pers_pos.
  intros Hwf Hval Hnd Hfull Hlen Hres Hcap. unfold commit_all.
  set (ls := zip (zip limits (found_in p limits)) infos).
  destruct (zip_infos p limits infos Hlen) as [Hall Hkeys]. fold ls in Hall, Hkeys.
  rewrite list.Forall_forall in Hval, Hfull.
  assert (Forall (fun x => valid_limit Q pers x.1.1) ls) as Hval1
    by (eapply Forall_impl; [exact Hall|]; intros x [Hx _]; by apply Hval).
  pose proof (touch_all_spec hash epoch maxBuckets Q pers now pers_pos (Z.of_nat reserved) true ls p Hwf Hval1) as Ht.
  destruct (touch_all hash epoch now true ls p) as [infos2 p2].
  destruct Ht as (Hwf2 & Hev2 & Htr2 & Hoth2 & Hown2 & Hs2 & Hc2 & Hlen2);
    [by rewrite Hkeys|eapply Forall_impl; [exact Hall|]; by intros x [_ ?]|
     intros _; eapply Forall_impl; [exact Hall|]; intros x [Hx _]; by apply Hfull|].
  assert (length infos2 = length limits) as Hlen2' by (rewrite Hlen2; unfold ls; rewrite zip_found, length_zip_with, length_map; lia).
  set (ls2 := zip (zip limits (found_in p limits)) infos2).
  destruct (zip_infos p limits infos2 Hlen2') as [Hall2 Hkeys2]. fold ls2 in Hall2, Hkeys2.
  destruct (missing_keys p limits infos2 Hlen2') as [Hm2 _]. fold ls2 in Hm2.
  destruct (missing_keys p limits infos Hlen) as [_ Hm]. fold ls in Hm.
  change (length (filter (fun b => b = false) (found_in p limits))) with (missing_of p limits) in *.
  pose proof (insert_all_spec hash epoch maxBuckets Q pers now ls2 reserved (keys_with true ls) p2 (sequence p) Hwf2) as Hi.
  destruct (insert_all hash epoch now reserved ls2 p2) as [infos3 p3].
  assert (forall k, k ∈ keys_with false ls2 <-> k ∈ (Key <$> limits) /\ bool_decide (tracked p k) = false) as Hkf
    by (intros k; by apply keys_of_flags).
  assert (forall k, k ∈ keys_with true ls <-> k ∈ (Key <$> limits) /\ bool_decide (tracked p k) = true) as Hkt
    by (intros k; by apply keys_of_flags).
  destruct Hi as (Hwf3 & HO3 & Hnew3 & Hrest3 & _ & _).
  - eapply Forall_impl; [exact Hall2|]. intros x [Hx _]. by apply Hval.
  - by rewrite Hkeys2.
  - intros k [_ Hk]%Hkf. rewrite Htr2. by apply bool_decide_eq_false in Hk.
  - done.
  - intros k b Hk. rewrite Hoth2 by done. apply (ws_rec _ _ _ _ (wf_st _ _ _ _ _ _ _ Hwf)).
  - done.
  - lia.
  - intros Hlt. destruct Hcap as (? & ? & ?); [lia|]. split_and!; [done|lia|lia].
  - split_and!; [done|done|..].
    + intros l Hl. assert (Key l ∈ (Key <$> limits)) as Hin by by apply list_elem_of_fmap_2.
      destruct (bool_decide (tracked p (Key l))) eqn:Eb.
      * assert (Key l ∈ keys_with true ls) as HkO by by apply Hkt.
        rewrite (tracked_live hash p2 p3) by by apply HO3. by apply (Hev2 (Key l)).
      * rewrite Hnew3 by by apply Hkf. apply bool_decide_eq_false in Eb. unfold RateLimitMulti.live_of.
        destruct (bucket_of p (Key l)) eqn:E; [by destruct Eb; eexists|done].
    + intros k Hk. assert (k ∉ keys_with true ls) as HnO by by rewrite Hkt; intros [? _].
      destruct (Hrest3 k) as [E|[Hlt E]]; [done|rewrite Hkf; by intros [? _]|left; by rewrite E, Hoth2|right].
      split; [lia|done].
Qed.

Lemma found_in_ext p p' limits : (forall k, tracked p' k <-> tracked p k) -> found_in p' limits = found_in p limits.
Proof. intros H. apply map_ext. intros l. by apply bool_decide_ext. Qed.

Lemma evolves_same p p1 p2 : evolves [] p p1 -> shards p2 = shards p1 -> evolves [] p p2.
Proof using pers_pos.
  intros H E. apply (evolves_trans hash pers now pers_pos [] [] p p1 p2); [auto with go|done|].
  apply evolves_refl. intros k. by apply tracked_live, bucket_of_shards.
Qed.

(** The check phase of a call. *)
Lemma check_phase p limits :
  wf now 0 p -> Forall (valid_limit Q pers) limits ->
  let '(infos, refused, p1) := check_all hash epoch now 0 (zip limits (found_in p limits)) None p in
  wf now 0 p1 /\ evolves [] p p1 /\ (forall k, tracked p1 k <-> tracked p k) /\ count p1 = count p /\
  length infos = length limits /\ refused = fst <$> list_find (fun l => full p l = true) limits.
Proof using pers_pos.
  intros Hwf Hval. rewrite zip_found.
  pose proof (check_all_spec hash epoch maxBuckets Q pers now pers_pos 0
    (map (fun l => (l, bool_decide (tracked p (Key l)))) limits) 0 None p Hwf) as H.
  destruct (check_all _ _ _ _ _ _ _) as [[infos refused] p1].
  destruct H as (Hwf1 & Hev & Htr & _ & Hc & _ & Hlen & Href); [by apply Forall_map|by apply Forall_map, Forall_true|].
  rewrite length_map in Hlen. split_and!; try done. rewrite Href.
  change (map ?f limits) with (f <$> limits). rewrite list_find_fmap, <-option_fmap_compose.
  apply option_fmap_ext. by intros [j l].
Qed.

(** A refusal touches the tracked keys of the call and takes nothing. *)
Lemma refuse_phase p p1 limits infos all j l :
  wf now 0 p1 -> evolves [] p p1 -> (forall k, tracked p1 k <-> tracked p k) ->
  Forall (valid_limit Q pers) limits -> NoDup (Key <$> limits) -> length infos = length limits ->
  list_find (fun l => full p l = true) limits = Some (j, l) ->
  let '(infos2, p2) := touch_all hash epoch now false (zip (zip limits (found_in p limits)) infos) p1 in
  wf now 0 p2 /\ multi_spec limits (missing_of p limits) all p
    (Some (infos2, Some (KeyError j (default EmptyString (Key <$> limits !! j)) ErrLimitExceeded))) p2.
Proof using pers_pos.
  intros Hwf1 Hev1 Htr1 Hval Hnd Hlen Hfind. destruct (zip_infos p limits infos Hlen) as [Hall Hkeys].
  rewrite list.Forall_forall in Hval.
  pose proof (touch_all_spec hash epoch maxBuckets Q pers now pers_pos 0 false (zip (zip limits (found_in p limits)) infos) p1 Hwf1) as Ht.
  destruct (touch_all _ _ _ _ _ _) as [infos2 p2]. destruct Ht as (Hwf2 & Hev2 & _).
  - eapply Forall_impl; [exact Hall|]. intros x [Hx _]. by apply Hval.
  - by rewrite Hkeys.
  - eapply Forall_impl; [exact Hall|]. intros x [_ Hx]. rewrite Hx. by apply bool_decide_ext.
  - done.
  - split; [done|]. cbn. rewrite Hfind. split.
    + by apply (evolves_trans hash pers now pers_pos [] [] p p1 p2); [auto with go|..].
    + apply list_find_Some in Hfind as (-> & _). done.
Qed.

(** An admission into the slots it needs. *)
Lemma commit_phase p p1 p2 limits infos all reserved :
  evolves [] p p1 -> (forall k, tracked p1 k <-> tracked p k) -> shards p2 = shards p1 ->
  wf now (Z.of_nat reserved) p2 -> Forall (valid_limit Q pers) limits -> NoDup (Key <$> limits) -> length infos = length limits ->
  list_find (fun l => full p l = true) limits = None -> (reserved <= missing_of p limits)%nat ->
  ((reserved < missing_of p limits)%nat -> eviction = EvictionLRU /\ 0 < maxBuckets /\ count p2 = maxBuckets /\
     Z.of_nat (length limits) <= maxBuckets /\ maxBuckets < count p + Z.of_nat (missing_of p limits)) ->
  let '(r, p3) := commit_all hash epoch now limits (found_in p limits) infos reserved p2 in
  wf now 0 p3 /\ multi_spec limits (missing_of p limits) all p (Some r) p3.
Proof using pers_pos.
  intros Hev1 Htr1 Hsh Hwf2 Hval Hnd Hlen Hfind Hres Hcap.
  assert (forall k, bucket_of p2 k = bucket_of p1 k) as Hof by (intros k; by apply bucket_of_shards).
  assert (evolves [] p p2) as Hev2 by by apply (evolves_same p p1).
  assert (found_in p2 limits = found_in p limits) as Hfound
    by (apply found_in_ext; intros k; rewrite <-Htr1; unfold RateLimitMulti.tracked; by rewrite Hof).
  assert (missing_of p2 limits = missing_of p limits) as Hmiss by (unfold missing_of; by rewrite Hfound).
  apply list_find_None in Hfind.
  assert (Forall (fun l => full p l = false) limits) as Hnf
    by (eapply Forall_impl; [exact Hfind|]; intros l Hl; by apply not_true_is_false).
  pose proof (commit_spec p2 limits infos reserved Hwf2 Hval Hnd) as Hc. rewrite Hfound, Hmiss in Hc.
  destruct (commit_all _ _ _ _ _ _ _ _) as [[infos3 err] p3]. destruct Hc as (Hwf3 & Herr & Hlive & Hrest).
  - rewrite list.Forall_forall in Hnf, Hval |- *. intros l Hl.
    rewrite (full_evolves hash Q pers now [] p p2); [by apply Hnf|done|apply not_elem_of_nil|by apply Hval].
  - done.
  - done.
  - intros Hlt. destruct (Hcap Hlt) as (_ & ? & ? & ? & _). done.
  - split; [done|]. cbn in Herr. subst err. split; [done|]. split.
    + intros l Hl. rewrite (Hlive l Hl). f_equal. destruct (proj2 (Hev2 (Key l)) ltac:(apply not_elem_of_nil)) as [->| ->]; [done|].
      by apply recent_recent.
    + intros k Hk. destruct (Hrest k Hk) as [E|[Hlt E]].
      * left. rewrite (tracked_live hash p2 p3) by done. apply (Hev2 k), not_elem_of_nil.
      * right. destruct (Hcap Hlt) as (? & ? & _ & _ & ?). done.
Qed.

Lemma admit_all_spec p limits all :
  wf now 0 p -> Forall (valid_limit Q pers) limits -> NoDup (Key <$> limits) ->
  let '(res, p') := admit_all hash epoch maxBuckets eviction limits (found_in p limits) (missing_of p limits) all now p in
  wf now 0 p' /\ multi_spec limits (missing_of p limits) all p res p'.
Proof using pers_pos.
  intros Hwf Hval Hnd. unfold admit_all. pose proof (check_phase p limits Hwf Hval) as Hchk.
  destruct (check_all _ _ _ _ _ _ _) as [[infos refused] p1].
  destruct Hchk as (Hwf1 & Hev1 & Htr1 & Hc1 & Hlen & ->).
  destruct (list_find (fun l => full p l = true) limits) as [[j l]|] eqn:Efind; cbn [fmap option_fmap option_map fst].
  { pose proof (refuse_phase p p1 limits infos all j l Hwf1 Hev1 Htr1 Hval Hnd Hlen Efind) as H.
    by destruct (touch_all _ _ _ _ _ _). }
  pose proof (reserve_all_spec hash epoch maxBuckets Q now (missing_of p limits) all p1 Hwf1) as Hr.
  destruct (reserveSlots maxBuckets (missing_of p limits) all p1) as [reserved p2].
  destruct Hr as (Hwf2 & Hp2 & Hle & Hshort). assert (shards p2 = shards p1) as Hsh by by rewrite Hp2.
  pose proof (evolves_same p p1 p2 Hev1 Hsh) as Hev2.
  destruct (release_spec hash epoch maxBuckets Q now reserved p2 Hwf2) as [Hwf3 Hsh3].
  assert (count p2 = count p + Z.of_nat reserved) as Hcount.
  { pose proof (ws_count _ _ _ _ (wf_st _ _ _ _ _ _ _ Hwf2)) as H2. pose proof (ws_count _ _ _ _ (wf_st _ _ _ _ _ _ _ Hwf1)) as H1.
    unfold total in H1, H2. rewrite Hsh in H2. lia. }
  assert (evolves [] p (releaseSlots reserved p2)) as Hev3 by by apply (evolves_same p p2).
  destruct (Nat.ltb_spec reserved (missing_of p limits)) as [Hlt|Hge].
  2: { pose proof (commit_phase p p1 p2 limits infos all reserved Hev1 Htr1 Hsh Hwf2 Hval Hnd Hlen Efind Hle ltac:(lia)) as H.
       by destruct (commit_all _ _ _ _ _ _ _ _). }
  destruct (Hshort Hlt) as (Hmax & Hpart & Hfullcap).
  destruct all; cbn [negb andb].
  - destruct (bool_decide_reflect (eviction = EvictionReject)) as [Hrej|Hlru].
    { split; [done|]. cbn. rewrite Efind, capacityError_cap. split_and!; [done|done|lia|done]. }
    destruct (Z.ltb_spec (maxBuckets - (Z.of_nat (length limits) - Z.of_nat (missing_of p limits))) (Z.of_nat (missing_of p limits))).
    { split; [done|]. cbn. rewrite Efind, capacityError_cap. split_and!; [done|done|lia|done]. }
    pose proof (commit_phase p p1 p2 limits infos true reserved Hev1 Htr1 Hsh Hwf2 Hval Hnd Hlen Efind Hle) as Hc.
    destruct (commit_all _ _ _ _ _ _ _ _). apply Hc. intros _. specialize (Hfullcap eq_refl).
    destruct eviction; [|done]. split_and!; try done; lia.
  - destruct (Hpart eq_refl) as [-> ->]. destruct (bool_decide_reflect (eviction = EvictionReject)) as [Hrej|Hlru]; cbn [negb orb].
    + destruct (purgeDue epoch p1 now); [by split|]. split; [done|]. cbn. rewrite Efind, capacityError_cap.
      split_and!; [done|done|lia|done].
    + by split.
Qed.
End admission.
End RateLimitAdmit.
