(* ===== verification/RateLimitAllow.v ===== *)
(** Rate limiting, single-key calls and cleanup: every critical section keeps the
    provider well-formed, and what it does to the windows. *)

From S2P Require Import Prelude RateLimit RateLimitBucket RateLimitStore RateLimitOps RateLimitMulti.

Module RateLimitAllow.
Import RateLimit RateLimitBucket RateLimitStore RateLimitOps RateLimitMulti.

Section allow.
Variables (hash : string -> Z) (epoch : Go.time) (maxBuckets : Z) (eviction : Eviction) (maxIdleTime : Go.duration).
Variable Q : string -> Go.duration -> Prop.
Local Abbreviation bucket_of := (bucket_of hash).
Local Abbreviation wf := (wf hash epoch maxBuckets Q).
Local Abbreviation tracked := (tracked hash).
Local Abbreviation live_of := (live_of hash).

(** A full provider all of whose windows are live. *)
Definition exhausted (now : Go.time) (p : Provider) : Prop :=
  0 < maxBuckets /\ Z.of_nat (total p) = maxBuckets /\ forall k b, bucket_of p k = Some b -> expiredAt b now = false.

Lemma purge_frees now p k b :
  wf now 0 p -> bucket_of p k = Some b -> expiredAt b now = true -> (total (purgeLocked epoch now p) < total p)%nat.
Proof.
  intros Hwf Hk Hexp. destruct (purge_spec hash epoch maxBuckets Q now 0 p Hwf) as (Hwf' & _ & _ & Hpur).
  set (p' := purgeLocked epoch now p) in *.
  destruct (tracked_list hash maxBuckets 0 p (wf_st _ _ _ _ _ _ _ Hwf)) as (ks & Hnd & Hlen & Hks).
  destruct (tracked_list hash maxBuckets 0 p' (wf_st _ _ _ _ _ _ _ Hwf')) as (ks' & Hnd' & Hlen' & Hks').
  assert (k ∉ ks') as Hk'.
  { rewrite Hks'. unfold RateLimitMulti.tracked. rewrite Hpur, Hk, decide_True, Hexp by done. by intros []. }
  assert (k :: ks' ⊆+ ks) as Hsub%submseteq_length; [|cbn in Hsub; lia].
  apply NoDup_submseteq; [by constructor|]. intros x [->|Hx]%elem_of_cons; apply Hks; [by eexists|].
  apply Hks' in Hx. unfold RateLimitMulti.tracked in *. rewrite Hpur in Hx.
  destruct (bucket_of p x); [by eexists|by destruct Hx].
Qed.

(** What an admission at the cap may do: nothing, when the policy is to reject
    and every window is live; or insert the key, after a purge that freed a slot
    or after dropping the least recently used bucket. *)
Definition cap_spec (key : string) (lim : Z) (period : Go.duration) (now : Go.time) (p : Provider)
    (r : result) (p' : Provider) : Prop :=
  let q := if purgeDue epoch p now then purgeLocked epoch now p else p in
  (r = (None, Some ErrCapacityExceeded) /\ eviction = EvictionReject /\ exhausted now p /\ p' = q) \/
  (exists info p0, r = (Some info, None) /\ touched hash key now lim period true p0 info true p' /\
     ((forall k, bucket_of p0 k = bucket_of q k) \/
      (eviction = EvictionLRU /\ exhausted now p /\ exists victim b, bucket_of q victim = Some b /\
         (forall k b', bucket_of q k = Some b' -> recency b <= recency b') /\
         forall k, bucket_of p0 k = if decide (k = victim) then None else bucket_of q k))).

Lemma insert_at_cap r0 p key lim period now :
  wf now (r0 + 1) p -> ~ tracked p key -> 0 < lim -> 0 < period -> Q key period ->
  let '(b, p1) := insertLocked (shardIndex hash p key) key p in
  let '(info, _, p') := touchAtLocked epoch (shardIndex hash p key) key b now lim period true p1 in
  wf now r0 p' /\ touched hash key now lim period true p info true p' /\ live_of p' key = [now].
Proof.
  intros Hwf Hnt Hlim Hper HQ.
  pose proof (insert_one hash epoch maxBuckets Q (fun _ => period) now r0 p (MkLimit key lim period) Hwf Hnt) as H.
  apply H. done.
Qed.

Lemma evict_full now q :
  wf now 0 q -> 0 < maxBuckets -> Z.of_nat (total q) = maxBuckets ->
  wf now (0 + 1) (evictLRULocked q) /\ length (shards (evictLRULocked q)) = length (shards q) /\
  exists victim b, bucket_of q victim = Some b /\ (forall k b', bucket_of q k = Some b' -> recency b <= recency b') /\
    forall k, bucket_of (evictLRULocked q) k = if decide (k = victim) then None else bucket_of q k.
Proof.
  intros Hwf Hmax Htot. pose proof (wf_st _ _ _ _ _ _ _ Hwf) as Hst.
  destruct (tracked_outside hash maxBuckets 0 q [] Hst) as (k0 & [b0 Hk0] & _); [cbn; lia|].
  destruct (evict_spec hash maxBuckets 0 q Hst) as (key & b & Hb & Hmin & ->); [by eexists _, _|].
  pose proof (wf_unset hash maxBuckets 0 q key Hst) as Hst'. rewrite Hb in Hst'.
  pose proof (fun k => bucket_of_unset' hash q key k (ws_nonempty _ _ _ _ Hst)) as Hof. split_and!.
  - apply (wf_shrink hash epoch maxBuckets Q now 0 (0 + 1) q); [done|done|done|]. intros k b'. rewrite Hof. by case_decide.
  - apply length_put.
  - by exists key, b.
Qed.

Lemma admit_at_cap_spec p key lim period now :
  wf now 0 p -> ~ tracked p key -> 0 < lim -> 0 < period -> Q key period -> 0 < maxBuckets -> count p = maxBuckets ->
  let '(r, p') := admitAtCapLocked epoch maxBuckets eviction (shardIndex hash p key) key lim period now p in
  wf now 0 p' /\ cap_spec key lim period now p r p'.
Proof.
  intros Hwf Hnt Hlim Hper HQ Hmax Hcount. pose proof (ws_count _ _ _ _ (wf_st _ _ _ _ _ _ _ Hwf)) as Htot.
  set (q := if purgeDue epoch p now then purgeLocked epoch now p else p).
  assert (wf now 0 q /\ length (shards q) = length (shards p) /\ ~ tracked q key) as (Hwfq & Hlenq & Hntq).
  { unfold q. destruct (purgeDue epoch p now); [|done].
    destruct (purge_spec hash epoch maxBuckets Q now 0 p Hwf) as (Hwf' & _ & Hlen & Hpur). split_and!; [done|done|].
    intros [b Hb]. rewrite Hpur in Hb. apply Hnt. destruct (bucket_of p key) eqn:E; [by exists b0|done]. }
  assert (forall q1, length (shards q1) = length (shards q) -> shardIndex hash p key = shardIndex hash q1 key) as Hix
    by (intros q1 E; rewrite !shardIndex_idx, E; by rewrite Hlenq).
  assert (exists ok q1, reclaimLocked epoch maxBuckets now p = (ok, q1) /\ shards q1 = shards q /\
    if ok then wf now (0 + 1) q1 else q1 = q /\ exhausted now p /\ Z.of_nat (total q) = maxBuckets) as (ok & q1 & Hrec & Hsh1 & Hok).
  { unfold reclaimLocked. unfold q in *. destruct (purgeDue epoch p now) eqn:Edue; cbn [negb].
    - pose proof (reserve_spec hash epoch maxBuckets Q now 0 _ Hwfq) as Hr. destruct (reserveSlot _ _) as [[] q1].
      + destruct Hr as (? & _ & ?). by exists true, q1.
      + destruct Hr as (? & _ & -> & _ & Hc). eexists false, _. split; [done|]. split; [done|]. split; [done|].
        pose proof (ws_count _ _ _ _ (wf_st _ _ _ _ _ _ _ Hwfq)) as Htq. split; [|lia]. split_and!; [done|lia|].
        intros k b Hk. destruct (expiredAt b now) eqn:Eexp; [|done].
        pose proof (purge_frees now p k b Hwf Hk Eexp). lia.
    - exists false, p. split; [done|]. split; [done|]. split; [done|]. split; [|lia]. split_and!; [done|lia|].
      intros k b Hk. by apply (not_due_live hash epoch maxBuckets Q now 0 p k b). }
  unfold admitAtCapLocked. rewrite Hrec. destruct ok; cbn [negb andb].
  - assert (forall k, bucket_of q1 k = bucket_of q k) as Hof by (intros k; by apply bucket_of_shards).
    rewrite (Hix q1) by by rewrite Hsh1.
    pose proof (insert_at_cap 0 q1 key lim period now Hok) as Hi. destruct (insertLocked _ _ q1) as [b q2].
    destruct (touchAtLocked _ _ _ _ _ _ _ _ _) as [[info ok] p'].
    destruct Hi as (Hwf' & Ht & _); [unfold RateLimitMulti.tracked; by rewrite Hof|done..|].
    split; [done|]. right. exists info, q1. auto.
  - destruct Hok as (-> & Hexh & Htq). destruct (bool_decide_reflect (eviction = EvictionReject)) as [Hrej|Hlru].
    { split; [done|]. left. done. }
    destruct (evict_full now q Hwfq Hmax Htq) as (Hwfe & Hlene & victim & b & Hb & Hmin & Hofe).
    rewrite (Hix (evictLRULocked q)) by done.
    pose proof (insert_at_cap 0 (evictLRULocked q) key lim period now Hwfe) as Hi.
    destruct (insertLocked _ _ (evictLRULocked q)) as [b1 q2]. destruct (touchAtLocked _ _ _ _ _ _ _ _ _) as [[info ok] p'].
    destruct Hi as (Hwf' & Ht & _); [|done..|].
    { unfold RateLimitMulti.tracked. rewrite Hofe. case_decide; [by intros []|done]. }
    split; [done|]. right. exists info, (evictLRULocked q). split; [done|]. split; [done|]. right.
    destruct eviction; [|done]. split; [done|]. split; [done|]. by exists victim, b.
Qed.

(** ** [Allow] *)

(** The outcome of a call at [now]: a touch of a tracked key, an insertion below
    the cap, or an admission at the cap. *)
Definition allow_done (key : string) (lim : Z) (period : Go.duration) (now : Go.time) (p : Provider)
    (r : result) (p' : Provider) : Prop :=
  (tracked p key /\ exists info ok, r = (Some info, if (ok : bool) then None else Some ErrLimitExceeded) /\
     touched hash key now lim period true p info ok p') \/
  (~ tracked p key /\ exists info p0, r = (Some info, None) /\ touched hash key now lim period true p0 info true p' /\
     forall k, bucket_of p0 k = bucket_of p k) \/
  (~ tracked p key /\ cap_spec key lim period now p r p').

Section call.
Variables (key : string) (lim : Z) (period : Go.duration).
Hypotheses (Hlim : 0 < lim) (Hper : 0 < period) (HQ : Q key period).

Lemma touch_tracked now p b :
  wf now 0 p -> bucket_of p key = Some b ->
  let '(r, p') := touchLocked epoch (shardIndex hash p key) key b now lim period p in
  wf now 0 p' /\ allow_done key lim period now p r p'.
Proof using Hper HQ.
  intros Hwf Hb. unfold touchLocked. pose proof (touch_spec hash epoch maxBuckets Q now now 0 p key lim period true) as Ht.
  rewrite Hb in Ht. change (default new_bucket (Some b)) with b in Ht.
  destruct (touchAtLocked _ _ _ _ _ _ _ _ _) as [[info ok] p']. destruct Ht as [Hwf' Ht]; [done|lia|done|done|].
  split; [done|]. left. split; [by exists b|]. by exists info, ok.
Qed.

Lemma insert_free now p :
  wf now (0 + 1) p -> ~ tracked p key ->
  let '(b, p1) := insertLocked (shardIndex hash p key) key p in
  let '(r, p') := touchLocked epoch (shardIndex hash p key) key b now lim period p1 in
  wf now 0 p' /\ exists info, r = (Some info, None) /\ touched hash key now lim period true p info true p'.
Proof using Hlim Hper HQ.
  intros Hwf Hnt. pose proof (insert_at_cap 0 p key lim period now Hwf Hnt Hlim Hper HQ) as H.
  pose proof (insert_touch hash epoch maxBuckets (0 + 1) p key now lim period true (wf_st _ _ _ _ _ _ _ Hwf)) as Heq.
  destruct (insertLocked _ _ p) as [b p1]. unfold touchLocked.
  destruct (touchAtLocked _ _ _ b _ _ _ _ p1) as [[info ok] p'] eqn:E. destruct H as (Hwf' & Ht & _).
  assert (ok = true) as ->.
  { assert (bucket_of p key = None) as Hnone by (destruct (bucket_of p key) eqn:Eb; [by destruct Hnt; eexists|done]).
    specialize (Heq Hnone). pose proof (touch_spec hash epoch maxBuckets Q now now 0 p key lim period true) as Hs.
    rewrite Hnone in Hs. change (default new_bucket None) with new_bucket in Hs. rewrite <-Heq in Hs.
    destruct Hs as [_ [Hok _ _ _ _ _ _]]; [done|lia|done|done|]. rewrite Hok, Hnone. cbn. by apply Z.ltb_lt. }
  split; [done|]. by exists info.
Qed.

Lemma allow_every_done now p :
  wf now 0 p ->
  let '(r, p') := allow_every hash epoch maxBuckets eviction key lim period now p in
  wf now 0 p' /\ allow_done key lim period now p r p'.
Proof using Hlim Hper HQ.
  intros Hwf. unfold allow_every. change (buckets _ !! key) with (bucket_of p key).
  destruct (bucket_of p key) as [b|] eqn:Eb; [by apply touch_tracked|].
  assert (~ tracked p key) as Hnt by (intros [b Hb]; congruence).
  pose proof (reserve_spec hash epoch maxBuckets Q now 0 p Hwf) as Hr. destruct (reserveSlot maxBuckets p) as [[] p1].
  - destruct Hr as (Hsh & _ & Hwf1). assert (forall k, bucket_of p1 k = bucket_of p k) as Hof by (intros k; by apply bucket_of_shards).
    replace (shardIndex hash p key) with (shardIndex hash p1 key) by (rewrite !shardIndex_idx; by rewrite Hsh).
    pose proof (insert_free now p1 Hwf1) as Hi. destruct (insertLocked _ _ p1) as [b p2].
    destruct (touchLocked _ _ _ _ _ _ _ _) as [r p']. destruct Hi as (Hwf' & info & -> & Ht);
      [unfold RateLimitMulti.tracked; by rewrite Hof|].
    split; [done|]. right. left. split; [done|]. by exists info, p1.
  - destruct Hr as (_ & _ & -> & Hmax & Hc).
    pose proof (admit_at_cap_spec p key lim period now Hwf Hnt Hlim Hper HQ Hmax Hc) as Ha.
    destruct (admitAtCapLocked _ _ _ _ _ _ _ _ _) as [r p']. destruct Ha as [Hwf' Ha]. split; [done|]. by right; right.
Qed.

Lemma allow_shard_done now now' p :
  wf now 0 p -> now <= now' ->
  let '(r, p') := allow_shard hash epoch maxBuckets eviction key lim period now now' p in
  match r with
  | Some r => exists u, (u = now \/ u = now') /\ wf u 0 p' /\ allow_done key lim period u p r p'
  | None => p' = p
  end.
Proof using Hlim Hper HQ.
  intros Hwf Hle. unfold allow_shard. change (buckets _ !! key) with (bucket_of p key).
  destruct (bucket_of p key) as [b|] eqn:Eb.
  { pose proof (touch_tracked now p b Hwf Eb) as H. destruct (touchLocked _ _ _ _ _ _ _ _). exists now. auto. }
  assert (~ tracked p key) as Hnt by (intros [b Hb]; congruence).
  pose proof (reserve_spec hash epoch maxBuckets Q now 0 p Hwf) as Hr. destruct (reserveSlot maxBuckets p) as [[] p1].
  - destruct Hr as (Hsh & _ & Hwf1). assert (forall k, bucket_of p1 k = bucket_of p k) as Hof by (intros k; by apply bucket_of_shards).
    replace (shardIndex hash p key) with (shardIndex hash p1 key) by (rewrite !shardIndex_idx; by rewrite Hsh).
    pose proof (insert_free now p1 Hwf1) as Hi. destruct (insertLocked _ _ p1) as [b p2].
    destruct (touchLocked _ _ _ _ _ _ _ _) as [r p']. destruct Hi as (Hwf' & info & -> & Ht);
      [unfold RateLimitMulti.tracked; by rewrite Hof|].
    exists now. split; [by left|]. split; [done|]. right. left. split; [done|]. by exists info, p1.
  - destruct Hr as (_ & _ & -> & Hmax & Hc).
    destruct (bool_decide_reflect (eviction = EvictionReject)) as [Hrej|Hlru], (purgeDue epoch p now) eqn:Edue; cbn [negb andb].
    2: { exists now. split; [by left|]. split; [done|]. right. right. split; [done|]. left. rewrite Edue.
         pose proof (ws_count _ _ _ _ (wf_st _ _ _ _ _ _ _ Hwf)). split_and!; [done|done| |done]. split_and!; [done|lia|].
         intros k b Hk. by apply (not_due_live hash epoch maxBuckets Q now 0 p k b). }
    all: destruct (length (shards p) =? 1)%nat; [|done].
    all: pose proof (admit_at_cap_spec p key lim period now' (wf_mono _ _ _ _ now now' 0 p Hle Hwf) Hnt Hlim Hper HQ Hmax Hc) as Ha.
    all: destruct (admitAtCapLocked _ _ _ _ _ _ _ _ _) as [r p']; destruct Ha as [Hwf' Ha].
    all: exists now'; split; [by right|]; split; [done|]; by right; right.
Qed.
End call.

(** ** Cleanup and reset *)

(** The idle buckets of a shard go away, nothing else changes. *)
Definition idled (now : Go.time) (p p' : Provider) : Prop :=
  forall k, bucket_of p' k = bucket_of p k \/
    (bucket_of p' k = None /\ exists b, bucket_of p k = Some b /\ lastUsed b < now - maxIdleTime).

Lemma cleanup_walk_spec now i keys p :
  wf now 0 p -> (i < length (shards p))%nat ->
  wf now 0 (cleanup_walk (now - maxIdleTime) i keys p) /\ idled now p (cleanup_walk (now - maxIdleTime) i keys p).
Proof.
  revert p. induction keys as [|key keys IH]; intros p Hwf Hi; cbn [cleanup_walk]; [split; [done|intros k; by left]|].
  destruct (buckets (shard_at p i) !! key) as [b|] eqn:Eb; [|split; [done|intros k; by left]].
  unfold Go.before. destruct (Z.ltb_spec (lastUsed b) (now - maxIdleTime)) as [Hidle|_]; [|split; [done|intros k; by left]].
  pose proof (wf_st _ _ _ _ _ _ _ Hwf) as Hst.
  assert (bucket_of p key = Some b /\ shardIndex hash p key = i) as [Hb <-]
    by (apply (shard_entries hash maxBuckets 0 p i); [done|done|by apply elem_of_map_to_list]).
  destruct (remove_spec hash maxBuckets 0 p key Hst) as (Hst1 & Hn1 & _ & Hlen1 & Hof1).
  set (p1 := removeLocked _ key p) in *.
  assert (wf now 0 p1) as Hwf1.
  { apply (wf_shrink hash epoch maxBuckets Q now 0 0 p); [done|done|lia|]. intros k b'. rewrite Hof1. by case_decide. }
  destruct (IH p1 Hwf1) as [Hwf' Hid]; [by rewrite Hlen1|]. split; [done|]. intros k.
  destruct (Hid k) as [E|(E & b' & Hb' & Hl)]; rewrite E.
  - rewrite Hof1. case_decide as Ek; [subst|by left]. right. split; [done|]. by exists b.
  - rewrite Hof1 in Hb'. case_decide; [done|]. right. split; [done|]. by exists b'.
Qed.

Lemma cleanup_spec now i p :
  wf now 0 p -> wf now 0 (cleanup_shard maxIdleTime now i p) /\ idled now p (cleanup_shard maxIdleTime now i p).
Proof.
  intros Hwf. unfold cleanup_shard. destruct (decide (i < length (shards p))%nat) as [Hi|Hi]; [by apply cleanup_walk_spec|].
  assert (shard_at p i = no_shard) as -> by (unfold shard_at; by rewrite lookup_ge_None_2 by lia).
  split; [done|]. intros k. by left.
Qed.

Lemma reset_spec now key p :
  wf now 0 p -> key <> EmptyString ->
  exists p', ResetKey hash epoch key p = Some p' /\ wf now 0 p' /\ live_of p' key = [] /\
    forall k, k <> key -> bucket_of p' k = bucket_of p k.
Proof.
  intros Hwf Hkey%String.eqb_neq. unfold ResetKey. rewrite Hkey. change (buckets _ !! key) with (bucket_of p key).
  destruct (bucket_of p key) as [b|] eqn:Eb.
  2: { exists p. split_and!; try done. unfold RateLimitMulti.live_of. by rewrite Eb. }
  set (b' := MkBucket _ _ _ _ _ _). set (p1 := put_bucket _ key b' p). destruct Hwf as [Hst Hnow Hfine Hdue Hwin].
  assert (forall k, bucket_of p1 k = if decide (k = key) then Some b' else bucket_of p k) as Hof
    by (intros k; by apply bucket_of_set, Hst).
  destruct (lower_spec epoch p1 Go.zero_time) as (Hle & Hle' & E1 & E2 & E3).
  eexists. split; [done|]. split_and!.
  - split; [apply (wf_store_same _ _ _ p1); [done..|by apply (wf_put_bucket hash maxBuckets 0 p key b b')]|done|..];
      intros k b2; rewrite bucket_of_lower, Hof; case_decide; intros E.
    + injection E as <-. destruct (Hfine key b Eb). split; [split; cbn; [lia|constructor]|constructor|done|done].
    + by apply (Hfine k).
    + injection E as <-. left. unfold expiry. cbn. exact Hle'.
    + apply (due_lower epoch (nextExpiry p)); [done|by apply (Hdue k)].
    + injection E as <-. subst. by apply (Hwin key b).
    + by apply Hwin.
  - unfold RateLimitMulti.live_of. rewrite bucket_of_lower, Hof, decide_True by done. done.
  - intros k Hk. by rewrite bucket_of_lower, Hof, decide_False.
Qed.

(** A new provider. *)
Lemma New_wf now n : 0 < now -> wf now 0 (New n) /\ forall k, bucket_of (New n) k = None.
Proof.
  intros Hnow. assert (forall i, shard_at (New n) i = no_shard) as Hat.
  { intros i. unfold shard_at, New. cbn [shards]. destruct (replicate _ no_shard !! i) as [sh|] eqn:E; [|done].
    by apply lookup_replicate in E as [-> _]. }
  assert (forall k, bucket_of (New n) k = None) as Hnone by (intros k; unfold RateLimitStore.bucket_of; by rewrite Hat).
  split; [|done]. split; [|done|..]; try (intros k b Hk; by rewrite Hnone in Hk). split.
  - unfold New. cbn [shards]. rewrite length_replicate. lia.
  - intros i sh Hi. apply shard_at_lookup in Hi. rewrite Hat in Hi. subst. apply no_shard_ok.
  - unfold total, New. cbn [shards count]. assert (forall m, sum_by (fun sh => size (buckets sh)) (replicate m no_shard) = 0%nat) as ->;
      [|done]. induction m as [|m IH]; [done|]. cbn [replicate sum_by]. rewrite IH. done.
  - cbn. lia.
  - cbn. lia.
  - intros k b Hk. by rewrite Hnone in Hk.
  - intros k k' b b' Hk. by rewrite Hnone in Hk.
Qed.
End allow.
End RateLimitAllow.
