(* ===== verification/RateLimitTheorems.v ===== *)
(** Rate limiting, the guarantees: over any history of critical sections a
    provider stays within its capacity, and unless it evicts live windows its
    decisions are exactly those of a sliding-window log per key. *)

From S2P Require Import Prelude RateLimit RateLimitBucket RateLimitStore RateLimitOps RateLimitMulti RateLimitAdmit RateLimitAllow.

Module RateLimitTheorems.
Import RateLimit RateLimitBucket RateLimitStore RateLimitOps RateLimitMulti RateLimitAdmit RateLimitAllow.

(** One critical section of one caller, with the instants it reads. *)
Inductive csection :=
| CAllow (key : string) (lim : Z) (period : Go.duration) (now now' : Go.time)
| CAllowEvery (key : string) (lim : Z) (period : Go.duration) (now : Go.time)
| CAllowAll (limits : list Limit) (all : bool) (now : Go.time)
| CReset (key : string) (now : Go.time)
| CCleanup (i : nat) (now : Go.time).

Definition start (s : csection) : Go.time :=
  match s with CAllow _ _ _ now _ | CAllowEvery _ _ _ now | CAllowAll _ _ now | CReset _ now | CCleanup _ now => now end.
Definition end_ (s : csection) : Go.time :=
  match s with CAllow _ _ _ _ now | CAllowEvery _ _ _ now | CAllowAll _ _ now | CReset _ now | CCleanup _ now => now end.

(** Arguments that the calls accept, each key with a period [Q] allows. *)
Definition accepted (Q : string -> Go.duration -> Prop) (s : csection) : Prop :=
  start s <= end_ s /\
  match s with
  | CAllow key lim period _ _ | CAllowEvery key lim period _ => 0 < lim /\ 0 < period /\ Q key period
  | CAllowAll limits _ _ =>
      NoDup (Key <$> limits) /\ Forall (fun l => 0 < l_Limit l /\ 0 < Period l /\ Q (Key l) (Period l)) limits
  | CReset key _ => key <> EmptyString
  | CCleanup _ _ => True
  end.

(** Sections in the order of the instants they read, from [t] on. *)
Fixpoint ordered (t : Go.time) (ss : list csection) : Prop :=
  match ss with [] => True | s :: ss => t <= start s /\ ordered (end_ s) ss end.
Fixpoint finish (t : Go.time) (ss : list csection) : Go.time :=
  match ss with [] => t | s :: ss => finish (end_ s) ss end.

(** ** Argument checks *)

(** The pairwise scan and the set scan find the same first duplicate, and none
    exactly when the keys are distinct. *)
Lemma dup_scans_agree limits : forall i before (seen : gset string),
  (forall k, k ∈ before <-> k ∈ seen) ->
  dup_pairwise i before limits = dup_set i seen limits /\
  (dup_set i seen limits = None <-> NoDup (Key <$> limits) /\ forall k, k ∈ (Key <$> limits) -> k ∉ seen).
Proof.
  induction limits as [|l limits IH]; intros i before seen Hseen; cbn [dup_pairwise dup_set fmap list_fmap].
  { split; [done|]. split; [|done]. intros _. split; [constructor|]. auto with go. }
  assert (existsb (String.eqb (Key l)) before = bool_decide (Key l ∈ seen)) as ->.
  { apply eq_true_iff_eq. rewrite existsb_exists, bool_decide_eq_true, <-Hseen. split.
    - intros (k & Hk & ->%String.eqb_eq). by apply list_elem_of_In.
    - intros Hk. exists (Key l). split; [by apply list_elem_of_In|apply String.eqb_refl]. }
  destruct (decide (Key l ∈ seen)) as [Hin|Hout]; [rewrite bool_decide_eq_true_2 by done|rewrite bool_decide_eq_false_2 by done].
  - split; [done|]. split; [done|]. intros [_ Hk]. destruct (Hk (Key l)); [by left|done].
  - destruct (IH (S i) (before ++ [Key l]) ({[Key l]} ∪ seen)) as [-> Hnone].
    { intros k. rewrite elem_of_app, list_elem_of_singleton, elem_of_union, elem_of_singleton, Hseen. tauto. }
    split; [done|]. rewrite Hnone, NoDup_cons. split.
    + intros [Hnd Hk]. split; [split; [|done]|].
      * intros Hl. specialize (Hk _ Hl). rewrite elem_of_union, elem_of_singleton in Hk. tauto.
      * intros k [->|Hl]%elem_of_cons; [done|]. specialize (Hk k Hl). rewrite elem_of_union in Hk. tauto.
    + intros [[Hl Hnd] Hk]. split; [done|]. intros k Hkl. rewrite elem_of_union, elem_of_singleton.
      intros [->|Hs]; [done|]. by apply (Hk k); [right|].
Qed.

Lemma validate_ok limits :
  ValidateLimits limits = Some None -> NoDup (Key <$> limits) /\ Forall (fun l => 0 < l_Limit l /\ 0 < Period l) limits.
Proof.
  unfold ValidateLimits. destruct (bool_decide (limits = []) || existsb _ limits) eqn:E; [done|].
  apply orb_false_iff in E as [_ E]. intros H.
  destruct (dup_scans_agree limits 0 [] ∅) as [Heq Hnone].
  { intros k. split; [by intros ?%not_elem_of_nil|by intros ?%elem_of_empty]. }
  assert (dup_set 0 ∅ limits = None) as Hset by (destruct (length limits <=? smallDuplicateScan)%nat; congruence).
  apply Hnone in Hset as [Hnd _]. split; [done|]. apply list.Forall_forall. intros l Hl.
  assert ((String.eqb (Key l) EmptyString || (l_Limit l <=? 0) || (Period l <=? 0)) = false) as Hf.
  { apply not_true_is_false. intros Ht. assert (existsb (fun l => String.eqb (Key l) EmptyString || (l_Limit l <=? 0) || (Period l <=? 0)) limits = true); [|congruence].
    apply existsb_exists. exists l. split; [by apply list_elem_of_In|done]. }
  rewrite !orb_false_iff, !Z.leb_gt in Hf. by destruct Hf as [[_ ?] ?].
Qed.

Section theorems.
Variables (hash : string -> Z) (epoch : Go.time) (maxBuckets : Z) (eviction : Eviction) (maxIdleTime : Go.duration).
Local Abbreviation bucket_of := (bucket_of hash).
Local Abbreviation tracked := (tracked hash).
Local Abbreviation live_of := (live_of hash).

(** The keys that a section admits, as its caller sees it, with the instant of
    the admission, and the provider after it. *)
Definition exec (s : csection) (p : Provider) : list string * Go.time * Provider :=
  match s with
  | CAllow key lim period now now' =>
      let '(r, p) := allow_shard hash epoch maxBuckets eviction key lim period now now' p in
      (match r with Some (Some _, None) => [key] | _ => [] end, default now (lastUsed <$> bucket_of p key), p)
  | CAllowEvery key lim period now =>
      let '(r, p) := allow_every hash epoch maxBuckets eviction key lim period now p in
      (match r with (Some _, None) => [key] | _ => [] end, now, p)
  | CAllowAll limits all now =>
      let '(r, p) := allowAllLocked hash epoch maxBuckets eviction limits all now p in
      (match r with Some (_, None) => Key <$> limits | _ => [] end, now, p)
  | CReset key now => ([], now, default p (ResetKey hash epoch key p))
  | CCleanup i now => ([], now, cleanup_shard maxIdleTime now i p)
  end.

(** ** Well-formedness *)

Section wf.
Variable Q : string -> Go.duration -> Prop.
Local Abbreviation wf := (wf hash epoch maxBuckets Q).

Definition per_of (limits : list Limit) (k : string) : Go.duration :=
  match list_find (fun l => Key l = k) limits with Some (_, l) => Period l | None => 1 end.

Lemma per_of_key limits l : NoDup (Key <$> limits) -> l ∈ limits -> per_of limits (Key l) = Period l.
Proof.
  intros Hnd Hin. unfold per_of. destruct (list_find (fun l' => Key l' = Key l) limits) as [[j l']|] eqn:E.
  - apply list_find_Some in E as (Hj & Hk & _). apply list_elem_of_lookup in Hin as [j' Hj'].
    assert (j = j') as ->; [|congruence].
    eapply (NoDup_lookup (Key <$> limits)); [done|by rewrite list_lookup_fmap, Hj|].
    rewrite list_lookup_fmap, Hj'. cbn. by rewrite Hk.
  - apply list_find_None in E. rewrite list.Forall_forall in E. by destruct (E l Hin).
Qed.

(** [allowAllLocked], after the purge it may begin with. *)
Lemma allow_all_spec pers now p limits all :
  (forall k, 0 < pers k) -> wf now 0 p -> Forall (valid_limit Q pers) limits -> NoDup (Key <$> limits) ->
  let '(res, p') := allowAllLocked hash epoch maxBuckets eviction limits all now p in
  wf now 0 p' /\ exists q, (q = p \/ q = purgeLocked epoch now p) /\ wf now 0 q /\
    multi_spec hash maxBuckets eviction pers now limits (missing_of hash q limits) all q res p'.
Proof.
  intros Hpos Hwf Hval Hnd. unfold allowAllLocked.
  change (resolveLocked hash limits p) with (found_in hash p limits, missing_of hash p limits). cbv iota beta.
  destruct (_ && _ && _).
  - change (resolveLocked hash limits ?q) with (found_in hash q limits, missing_of hash q limits). cbv iota beta zeta.
    destruct (purge_spec hash epoch maxBuckets Q now 0 p Hwf) as (Hwfq & _).
    pose proof (admit_all_spec hash epoch maxBuckets eviction Q pers now Hpos _ limits all Hwfq Hval Hnd) as H.
    destruct (admit_all _ _ _ _ _ _ _ _ _ _) as [res p']. destruct H as [Hwf' H]. split; [done|].
    exists (purgeLocked epoch now p). auto.
  - pose proof (admit_all_spec hash epoch maxBuckets eviction Q pers now Hpos p limits all Hwf Hval Hnd) as H.
    destruct (admit_all _ _ _ _ _ _ _ _ _ _) as [res p']. destruct H as [Hwf' H]. split; [done|]. exists p. auto.
Qed.

Lemma exec_wf t s p : wf t 0 p -> t <= start s -> accepted Q s -> wf (end_ s) 0 (exec s p).2.
Proof.
  intros Hwf Ht [Hse Hacc].
  assert (wf (start s) 0 p) as Hwf0 by by apply (wf_mono _ _ _ _ t).
  destruct s as [key lim period now now'|key lim period now|limits all now|key now|i now]; cbn [exec start end_] in *.
  - destruct Hacc as (Hlim & Hper & HQ).
    pose proof (allow_shard_done hash epoch maxBuckets eviction Q key lim period Hlim Hper HQ now now' p Hwf0 Hse) as H.
    destruct (allow_shard _ _ _ _ _ _ _ _ _ _) as [[r|] p']; cbn [snd].
    + destruct H as (u & Hu & Hwf' & _). apply (wf_mono _ _ _ _ u); [destruct Hu; lia|done].
    + subst p'. by apply (wf_mono _ _ _ _ now).
  - destruct Hacc as (Hlim & Hper & HQ).
    pose proof (allow_every_done hash epoch maxBuckets eviction Q key lim period Hlim Hper HQ now p Hwf0) as H.
    destruct (allow_every _ _ _ _ _ _ _ _ _) as [r p']. apply H.
  - destruct Hacc as (Hnd & Hval). rewrite list.Forall_forall in Hval.
    assert (forall k, 0 < per_of limits k) as Hpos.
    { intros k. unfold per_of. destruct (list_find _ limits) as [[j l]|] eqn:E; [|done].
      apply list_find_Some in E as (Hj & _). apply (Hval l). by eapply list_elem_of_lookup_2. }
    pose proof (allow_all_spec (per_of limits) now p limits all Hpos Hwf0) as H.
    destruct (allowAllLocked _ _ _ _ _ _ _ _) as [res p']. apply H; [|done]. apply list.Forall_forall. intros l Hl.
    destruct (Hval l Hl) as (? & ? & ?). split_and!; try done. by apply per_of_key.
  - destruct (reset_spec hash epoch maxBuckets Q now key p Hwf0 Hacc) as (p' & -> & Hwf' & _). done.
  - by apply cleanup_spec.
Qed.
End wf.

(** ** Histories *)

Abbreviation Log := (string -> list Go.time).
Definition bump (now : Go.time) (ks : list string) (L : Log) : Log :=
  fun k => if decide (k ∈ ks) then L k ++ [now] else L k.

(** The log of admissions that the callers have seen, per key and since its last
    reset. *)
Definition record (s : csection) (ks : list string) (now : Go.time) (L : Log) : Log :=
  match s with
  | CReset key _ => fun k => if decide (k = key) then [] else L k
  | _ => bump now ks L
  end.

Fixpoint history (ss : list csection) (p : Provider) (L : Log) : Provider * Log :=
  match ss with
  | [] => (p, L)
  | s :: ss => let '(ks, now, p') := exec s p in history ss p' (record s ks now L)
  end.

Definition empty_log : Log := fun _ => [].

Lemma history_wf Q ss : forall t p L,
  wf hash epoch maxBuckets Q t 0 p -> ordered t ss -> Forall (accepted Q) ss ->
  wf hash epoch maxBuckets Q (finish t ss) 0 (history ss p L).1.
Proof.
  induction ss as [|s ss IH]; intros t p L Hwf Hord Hacc; [done|]. destruct Hord as [Hs Hord].
  apply Forall_cons in Hacc as [Hs' Hacc]. cbn [history finish].
  pose proof (exec_wf Q t s p Hwf Hs Hs') as Hwf'. destruct (exec s p) as [[ks now] p']. by apply IH.
Qed.

(** a provider never tracks more than [maxBuckets] keys.  After any history
    of critical sections of any callers (single- and multi-key calls with any
    limits and periods, resets, cleanups), under either eviction policy, the
    shared counter is the number of tracked keys and is within the cap. *)
Theorem capacity_respected n t ss :
  0 < t -> ordered t ss -> Forall (accepted (fun _ _ => True)) ss ->
  let p := (history ss (New n) empty_log).1 in
  exists ks, NoDup ks /\ (forall k, k ∈ ks <-> tracked p k) /\ count p = Z.of_nat (length ks) /\
    (0 < maxBuckets -> Z.of_nat (length ks) <= maxBuckets).
Proof.
  intros Ht Hord Hacc p. destruct (New_wf hash epoch maxBuckets (fun _ _ => True) t n Ht) as [Hwf0 _].
  pose proof (wf_st _ _ _ _ _ _ _ (history_wf _ ss t _ empty_log Hwf0 Hord Hacc)) as Hst. fold p in Hst.
  destruct (tracked_list hash maxBuckets 0 p Hst) as (ks & Hnd & Hlen & Hks).
  pose proof (ws_count _ _ _ _ Hst) as Hc. pose proof (ws_cap _ _ _ _ Hst) as Hcap.
  exists ks. split_and!; [done|done|lia|]. intros Hm. specialize (Hcap Hm). lia.
Qed.

(** eviction is globally least-recently-used.  After any such history, when
    some key is tracked, [evictLRULocked] drops exactly one key, and no tracked
    key was touched before it, whatever the shards they live in. *)
Theorem eviction_is_lru n t ss :
  0 < t -> ordered t ss -> Forall (accepted (fun _ _ => True)) ss ->
  let p := (history ss (New n) empty_log).1 in
  (exists k, tracked p k) ->
  exists key b, bucket_of p key = Some b /\
    (forall k b', bucket_of p k = Some b' -> k <> key -> recency b < recency b') /\
    (forall k, bucket_of (evictLRULocked p) k = if decide (k = key) then None else bucket_of p k).
Proof.
  intros Ht Hord Hacc p [k0 [b0 Hk0]]. destruct (New_wf hash epoch maxBuckets (fun _ _ => True) t n Ht) as [Hwf0 _].
  pose proof (wf_st _ _ _ _ _ _ _ (history_wf _ ss t _ empty_log Hwf0 Hord Hacc)) as Hst. fold p in Hst.
  destruct (evict_spec hash maxBuckets 0 p Hst) as (key & b & Hb & Hmin & ->); [by eexists _, _|].
  exists key, b. split; [done|]. split.
  - intros k b' Hk Hne. specialize (Hmin k b' Hk).
    assert (recency b <> recency b'); [|lia]. intros E. apply Hne. symmetry. by apply (ws_inj _ _ _ _ Hst key k b b').
  - intros k. by apply bucket_of_unset', Hst.
Qed.

(** ** Exact limits *)

Section exact.
(** The limit and period of each key, and a provider that keeps live windows. *)
Variables (lims : string -> Z) (pers : string -> Go.duration).
Hypotheses (lims_pos : forall k, 0 < lims k) (pers_pos : forall k, 0 < pers k).
Hypothesis no_evict : eviction = EvictionReject \/ maxBuckets <= 0.
Hypothesis idle_long : forall k, pers k <= maxIdleTime.
Definition by_policy (k : string) (w : Go.duration) : Prop := w = pers k.
Local Abbreviation wf := (wf hash epoch maxBuckets by_policy).

(** The windows of [p] hold what matters of the log [L] from [t] on. *)
Definition rel (t : Go.time) (p : Provider) (L : Log) : Prop :=
  forall k u, t <= u -> recent u (pers k) (live_of p k) = recent u (pers k) (L k).

Record good (t : Go.time) (p : Provider) (L : Log) : Prop := {
  g_wf : wf t 0 p;
  g_rel : rel t p L;
  g_past : forall k, Forall (fun x => x <= t) (L k);
  g_conf : forall k, conforming (lims k) (pers k) (L k);
}.

Lemma rel_mono t t' p L : t <= t' -> rel t p L -> rel t' p L.
Proof. intros Hle H k u Hu. apply H. lia. Qed.

Lemma good_mono t t' p L : t <= t' -> good t p L -> good t' p L.
Proof.
  intros Hle [Hwf Hrel Hpast Hconf]. split; [by apply (wf_mono _ _ _ _ t)|by apply (rel_mono t)| |done].
  intros k. eapply Forall_impl; [apply Hpast|cbn; lia].
Qed.

Lemma rel_evolves now T p p' L : rel now p L -> evolves hash pers now T p p' -> rel now p' (bump now T L).
Proof.
  intros Hrel Hev k u Hu. unfold bump. destruct (Hev k) as [Hin Hout]. case_decide as Hk.
  - rewrite (Hin Hk), !recent_app, recent_recent by done. by rewrite Hrel.
  - destruct (Hout Hk) as [->| ->]; [by apply Hrel|]. rewrite recent_recent by done. by apply Hrel.
Qed.

Lemma rel_live p p' now L : (forall k, live_of p' k = live_of p k) -> rel now p L -> rel now p' L.
Proof. intros E H k u Hu. rewrite E. by apply H. Qed.

(** A window that expired holds nothing recent. *)
Lemma expired_recent now p k b :
  wf now 0 p -> bucket_of p k = Some b -> expiredAt b now = true -> recent now (pers k) (live b) = [].
Proof.
  intros Hwf Hk Hexp. pose proof (wf_win _ _ _ _ _ _ _ Hwf k b Hk) as Hw. unfold by_policy in Hw.
  destruct (wf_fine _ _ _ _ _ _ _ Hwf k b Hk) as [Hok _ _ _].
  unfold expiredAt, Go.after in Hexp. apply negb_true_iff, Z.ltb_ge in Hexp. rewrite expiry_live in Hexp by done.
  destruct (last (live b)) as [t|] eqn:El; [|apply last_None in El; by rewrite El].
  apply filter_none. eapply Forall_impl; [by apply (sorted_last_max (live b) t); [apply Hok|]|]. cbn. lia.
Qed.

Lemma purge_evolves now p : wf now 0 p -> evolves hash pers now [] p (purgeLocked epoch now p).
Proof.
  intros Hwf. destruct (purge_spec hash epoch maxBuckets by_policy now 0 p Hwf) as (_ & _ & _ & Hpur).
  intros k. split; [by intros ?%not_elem_of_nil|]. intros _. unfold RateLimitMulti.live_of. rewrite Hpur.
  destruct (bucket_of p k) as [b|] eqn:Eb; [|by left]. rewrite decide_True by done.
  destruct (expiredAt b now) eqn:Eexp; [right|by left]. cbn. symmetry. by apply (expired_recent now p).
Qed.

Lemma purge_rel now p L : wf now 0 p -> rel now p L -> rel now (purgeLocked epoch now p) L.
Proof.
  intros Hwf Hrel k u Hu. destruct (purge_evolves now p Hwf k) as [_ Hout].
  destruct (Hout ltac:(apply not_elem_of_nil)) as [->| ->]; [by apply Hrel|]. rewrite recent_recent by done. by apply Hrel.
Qed.

(** What [Allow] may answer at [now], given the log of the key's admissions: a
    slot exactly when fewer than the limit were taken in the last period, with
    the slots left; a refusal exactly otherwise; or, for a key with nothing in
    its window, the capacity error of a provider full of live windows. *)
Definition used (now : Go.time) (L : Log) (key : string) : Z := Z.of_nat (length (recent now (pers key) (L key))).

Inductive allow_spec (key : string) (now : Go.time) (p : Provider) (L : Log) : result -> Log -> Prop :=
| spec_admit info :
    used now L key < lims key -> Remaining info = lims key - used now L key - 1 ->
    allow_spec key now p L (Some info, None) (bump now [key] L)
| spec_refuse info :
    lims key <= used now L key -> Remaining info = 0 -> allow_spec key now p L (Some info, Some ErrLimitExceeded) L
| spec_full :
    used now L key = 0 -> exhausted hash maxBuckets now p -> allow_spec key now p L (None, Some ErrCapacityExceeded) L.

Lemma touched_rel now key p0 info ok p' L :
  rel now p0 L -> touched hash key now (lims key) (pers key) true p0 info ok p' ->
  rel now p' (if ok then bump now [key] L else L) /\ ok = (used now L key <? lims key) /\
  Remaining info = if ok then lims key - used now L key - 1 else 0.
Proof.
  intros Hrel [Hok Hinfo (b' & Hb' & _ & _ & _ & Hlive) Hoth _ _ _].
  change (default [] (live <$> bucket_of p0 key)) with (live_of p0 key) in *.
  assert (recent now (pers key) (live_of p0 key) = recent now (pers key) (L key)) as E by by apply Hrel.
  rewrite E in Hok, Hinfo. split_and!; [|done|].
  - assert (forall k, k <> key -> live_of p' k = live_of p0 k) as Hl by (intros k Hk; by apply tracked_live, Hoth).
    assert (live_of p' key = recent now (pers key) (live_of p0 key) ++ (if ok then [now] else [])) as Hl'.
    { unfold RateLimitMulti.live_of at 1. rewrite Hb'. cbn. rewrite Hlive. by rewrite andb_true_r. }
    intros k u Hu. destruct (decide (k = key)) as [->|Hk].
    + rewrite Hl'. destruct ok; [unfold bump; rewrite decide_True by by left|rewrite app_nil_r];
        rewrite ?recent_app, recent_recent by done; by rewrite Hrel.
    + rewrite Hl by done. destruct ok; [|by apply Hrel]. unfold bump.
      rewrite decide_False by by intros ?%list_elem_of_singleton. by apply Hrel.
  - rewrite Hinfo. unfold used. destruct ok; [|done]. rewrite length_app. cbn. lia.
Qed.

Lemma allow_done_spec now key p r p' L :
  wf now 0 p -> rel now p L -> allow_done hash epoch maxBuckets eviction key (lims key) (pers key) now p r p' ->
  exists L', allow_spec key now p L r L' /\ rel now p' L'.
Proof using no_evict.
  intros Hwf Hrel Hdone.
  assert (forall info p0 ok, rel now p0 L -> touched hash key now (lims key) (pers key) true p0 info ok p' ->
    exists L', allow_spec key now p L (Some info, if (ok : bool) then None else Some ErrLimitExceeded) L' /\ rel now p' L') as Htouch.
  { intros info p0 ok Hr0 Ht. destruct (touched_rel now key p0 info ok p' L Hr0 Ht) as (Hr' & Hok & Hrem).
    eexists. split; [|exact Hr']. destruct ok.
    - symmetry in Hok. apply Z.ltb_lt in Hok. by constructor.
    - symmetry in Hok. apply Z.ltb_ge in Hok. by constructor. }
  assert (forall p0 q, rel now q L -> (forall k, bucket_of p0 k = bucket_of q k) -> rel now p0 L) as Hsame.
  { intros p0 q Hq E. apply (rel_live q); [|done]. intros k. by apply tracked_live. }
  destruct Hdone as [(_ & info & ok & -> & Ht)|[(_ & info & p0 & -> & Ht & Hof)|(Hnt & Hcap)]].
  - by apply (Htouch info p ok).
  - apply (Htouch info p0 true); [by apply (Hsame p0 p)|done].
  - unfold cap_spec in Hcap. cbv zeta in Hcap.
    set (q := if purgeDue epoch p now then purgeLocked epoch now p else p) in *.
    assert (rel now q L) as Hq by (unfold q; destruct (purgeDue epoch p now); [by apply purge_rel|done]).
    destruct Hcap as [(-> & _ & Hexh & ->)|(info & p0 & -> & Ht & [Hof|(Hlru & (Hm & _) & _)])].
    + exists L. split; [|done]. constructor; [|done]. unfold used. rewrite <-(Hrel key now) by lia.
      unfold RateLimitMulti.live_of. destruct (bucket_of p key) eqn:E; [by destruct Hnt; eexists|done].
    + apply (Htouch info p0 true); [by apply (Hsame p0 q)|done].
    + destruct no_evict as [E|E]; [congruence|lia].
Qed.

(** ** One section *)

Definition follows (s : csection) : Prop :=
  match s with
  | CAllow key lim period _ _ | CAllowEvery key lim period _ => lim = lims key /\ period = pers key
  | CAllowAll limits _ _ => Forall (fun l => l_Limit l = lims (Key l) /\ Period l = pers (Key l)) limits
  | _ => True
  end.

Lemma good_bump now p' L ks :
  wf now 0 p' -> rel now p' (bump now ks L) ->
  (forall k, Forall (fun x => x <= now) (L k)) -> (forall k, conforming (lims k) (pers k) (L k)) ->
  (forall k, k ∈ ks -> used now L k < lims k) -> good now p' (bump now ks L).
Proof.
  intros Hwf Hrel Hpast Hconf Hused. split; [done|done|..]; intros k; unfold bump; case_decide as Hk; auto.
  - apply Forall_app. split; [done|]. repeat constructor. lia.
  - apply conforming_snoc; [done|done|]. by apply Hused.
Qed.

Lemma good_allow now key p p' r L L' :
  good now p L -> wf now 0 p' -> rel now p' L' -> allow_spec key now p L r L' ->
  good now p' L' /\ L' = bump now (match r with (Some _, None) => [key] | _ => [] end) L.
Proof.
  intros [Hwf Hrel Hpast Hconf] Hwf' Hrel' Hspec. destruct Hspec as [info Hu _|info _ _|Hu _].
  - split; [|done]. apply good_bump; [done..|]. by intros k ->%list_elem_of_singleton.
  - split; [by split|done].
  - split; [by split|done].
Qed.

(** A multi-key call takes a slot on every key, all below their limits, or on
    none. *)
Lemma multi_good now limits all p L :
  good now p L -> NoDup (Key <$> limits) -> Forall (valid_limit by_policy pers) limits ->
  Forall (fun l => l_Limit l = lims (Key l) /\ Period l = pers (Key l)) limits ->
  let '(res, p') := allowAllLocked hash epoch maxBuckets eviction limits all now p in
  match res with
  | Some (_, None) => (forall l, l ∈ limits -> used now L (Key l) < lims (Key l)) /\ good now p' (bump now (Key <$> limits) L)
  | Some (_, Some e) => good now p' L /\
      match list_find (fun l => lims (Key l) <= used now L (Key l)) limits with
      | Some (j, l) => e = KeyError j (Key l) ErrLimitExceeded
      | None => err_of e = ErrCapacityExceeded /\ 0 < maxBuckets
      end
  | None => all = false /\ good now p' L
  end.
Proof using pers_pos no_evict.
  intros [Hwf Hrel Hpast Hconf] Hnd Hval Hfol.
  pose proof (allow_all_spec by_policy pers now p limits all pers_pos Hwf Hval Hnd) as H.
  destruct (allowAllLocked _ _ _ _ _ _ _ _) as [res p']. destruct H as (Hwf' & q & Hq & Hwfq & Hspec).
  assert (rel now q L) as Hrelq by (destruct Hq as [->| ->]; [done|by apply purge_rel]).
  assert (forall l, l ∈ limits -> full hash now q l = (lims (Key l) <=? used now L (Key l))) as Hfull.
  { rewrite list.Forall_forall in Hfol. intros l Hl. destruct (Hfol l Hl) as [E1 E2]. unfold full, used.
    by rewrite E1, E2, (Hrelq (Key l) now) by lia. }
  assert (forall p2, wf now 0 p2 -> evolves hash pers now [] q p2 -> good now p2 L) as Hgood.
  { intros p2 Hwf2 Hev. split; [done|by apply (rel_evolves now [] q p2)|done|done]. }
  destruct res as [[infos [e|]]|]; cbn in Hspec.
  - destruct Hspec as [Hev He]. split; [by apply Hgood|].
    assert (list_find (fun l => full hash now q l = true) limits = list_find (fun l => lims (Key l) <= used now L (Key l)) limits) as E.
    { apply list_find_ext_in, list.Forall_forall. intros l Hl. rewrite (Hfull l Hl). apply Z.leb_le. }
    rewrite E in He. destruct (list_find _ limits) as [[j l]|]; [done|]. by destruct He as (? & _ & ?).
  - destruct Hspec as (Hnf & Hlive & Hrest). rewrite list.Forall_forall in Hnf.
    assert (forall l, l ∈ limits -> used now L (Key l) < lims (Key l)) as Hused.
    { intros l Hl. specialize (Hnf l Hl). rewrite (Hfull l Hl) in Hnf. by apply Z.leb_gt. }
    split; [done|]. apply good_bump; [done| |done|done|].
    + apply (rel_evolves now _ q p'); [done|]. intros k. split.
      * intros (l & -> & Hl)%list_elem_of_fmap. by apply Hlive.
      * intros Hk. destruct (Hrest k Hk) as [?|(Hlru & Hm & _)]; [done|]. exfalso. destruct no_evict; [congruence|lia].
    + intros k (l & -> & Hl)%list_elem_of_fmap. by apply Hused.
  - destruct Hspec as [-> Hev]. split; [done|by apply Hgood].
Qed.

(** An admitted key was last used at the instant of its admission. *)
Lemma allow_stamp key lim period now u p r p' :
  allow_done hash epoch maxBuckets eviction key lim period u p r p' ->
  match r with (Some _, None) => default now (lastUsed <$> bucket_of p' key) = u | _ => True end.
Proof.
  intros [(_ & info & ok & -> & [_ _ (b' & Hb' & _ & Hl & _) _ _ _ _])
    |[(_ & info & p0 & -> & [_ _ (b' & Hb' & _ & Hl & _) _ _ _ _] & _)
     |(_ & [(-> & _)|(info & p0 & -> & [_ _ (b' & Hb' & _ & Hl & _) _ _ _ _] & _)])]]; try done; rewrite Hb'; [by destruct ok|done|done].
Qed.

Lemma exec_good t s p L :
  good t p L -> t <= start s -> accepted by_policy s -> follows s ->
  let '(ks, u, p') := exec s p in good (end_ s) p' (record s ks u L).
Proof using lims_pos pers_pos no_evict idle_long.
  intros Hg Ht [Hse Hacc] Hfol. assert (good (start s) p L) as Hg0 by by apply (good_mono t).
  pose proof Hg0 as [Hwf Hrel Hpast Hconf].
  destruct s as [key lim period now now'|key lim period now|limits all now|key now|i now]; cbn [exec start end_ record follows] in *.
  - destruct Hacc as (Hlim & Hper & HQ). destruct Hfol as [-> ->].
    pose proof (allow_shard_done hash epoch maxBuckets eviction by_policy key _ _ Hlim Hper HQ now now' p Hwf Hse) as H.
    destruct (allow_shard _ _ _ _ _ _ _ _ _ _) as [[r|] p']; [|subst p'; by apply (good_mono now)].
    destruct H as (u & Hu & Hwf' & Hdone).
    assert (now <= u <= now') as Hu' by (destruct Hu; lia).
    destruct (allow_done_spec u key p r p' L) as (L' & Hspec & Hrel'); [by apply (wf_mono _ _ _ _ now); [lia|]|by apply (rel_mono now); [lia|]|done|].
    destruct (good_allow u key p p' r L L') as [Hg' ->]; [by apply (good_mono now); [lia|]|done|done|done|].
    apply (good_mono u); [lia|].
    pose proof (allow_stamp key _ _ now u p r p' Hdone) as Hstamp.
    destruct r as [[info|] [e|]]; [done|by rewrite Hstamp|done|done].
  - destruct Hacc as (Hlim & Hper & HQ). destruct Hfol as [-> ->].
    pose proof (allow_every_done hash epoch maxBuckets eviction by_policy key _ _ Hlim Hper HQ now p Hwf) as H.
    destruct (allow_every _ _ _ _ _ _ _ _ _) as [r p']. destruct H as (Hwf' & Hdone).
    destruct (allow_done_spec now key p r p' L Hwf Hrel Hdone) as (L' & Hspec & Hrel').
    by destruct (good_allow now key p p' r L L' Hg0 Hwf' Hrel' Hspec) as [Hg' ->].
  - destruct Hacc as (Hnd & Hval). assert (Forall (valid_limit by_policy pers) limits) as Hval'.
    { rewrite list.Forall_forall in Hval, Hfol |- *. intros l Hl. destruct (Hval l Hl) as (? & ? & ?).
      destruct (Hfol l Hl) as [_ ?]. done. }
    pose proof (multi_good now limits all p L Hg0 Hnd Hval' Hfol) as H.
    destruct (allowAllLocked _ _ _ _ _ _ _ _) as [[[infos [e|]]|] p']; by destruct H.
  - destruct (reset_spec hash epoch maxBuckets by_policy now key p Hwf Hacc) as (p' & -> & Hwf' & Hlive & Hoth). cbn [default].
    split; [done|..].
    + intros k u Hu. case_decide as Ek; [subst; cbn; by rewrite Hlive|].
      rewrite (tracked_live hash p p') by by apply Hoth. by apply Hrel.
    + intros k. case_decide; [constructor|done].
    + intros k. case_decide; [constructor|done].
  - destruct (cleanup_spec hash epoch maxBuckets maxIdleTime by_policy now i p Hwf) as (Hwf' & Hid). split; [done| |done|done].
    intros k u Hu. change (bump now [] L k) with (L k). destruct (Hid k) as [E|(E & b & Hb & Hl)]; [rewrite (tracked_live hash p) by done; by apply Hrel|].
    rewrite <-(Hrel k u Hu). unfold RateLimitMulti.live_of. rewrite E, Hb. cbn. symmetry. apply filter_none.
    destruct (wf_fine _ _ _ _ _ _ _ Hwf k b Hb) as [_ Htimes _ _]. specialize (idle_long k).
    eapply Forall_impl; [exact Htimes|]. cbn. lia.
Qed.

Lemma history_good ss : forall t p L,
  good t p L -> ordered t ss -> Forall (accepted by_policy) ss -> Forall follows ss ->
  good (finish t ss) (history ss p L).1 (history ss p L).2.
Proof using lims_pos pers_pos no_evict idle_long.
  induction ss as [|s ss IH]; intros t p L Hg Hord Hacc Hfol; [done|]. destruct Hord as [Hs Hord].
  apply Forall_cons in Hacc as [Hs' Hacc], Hfol as [Hf Hfol]. cbn [history finish].
  pose proof (exec_good t s p L Hg Hs Hs' Hf) as Hg'. destruct (exec s p) as [[ks now] p']. by apply IH.
Qed.

Lemma New_good n t : 0 < t -> good t (New n) empty_log.
Proof.
  intros Ht. destruct (New_wf hash epoch maxBuckets by_policy t n Ht) as [Hwf Hnone]. split; [done| |constructor|constructor].
  intros k u _. unfold RateLimitMulti.live_of. by rewrite Hnone.
Qed.

(** C4: the limit is never exceeded.  When every key keeps one limit and one
    period, no longer than the idle time after which cleanup forgets a key, and
    the provider does not evict live windows, then over any history of critical
    sections no window of length [period], wherever it ends, holds more than
    [limit] of the admissions that the callers of a key have seen since its last
    reset. *)
Theorem limit_never_exceeded n t ss key u :
  0 < t -> ordered t ss -> Forall (accepted by_policy) ss -> Forall follows ss ->
  Z.of_nat (length (within u (pers key) ((history ss (New n) empty_log).2 key))) <= lims key.
Proof using lims_pos pers_pos no_evict idle_long.
  intros Ht Hord Hacc Hfol. apply conforming_bound; [specialize (lims_pos key); lia|].
  by apply (history_good ss t (New n) empty_log (New_good n t Ht)).
Qed.


End exact.
End theorems.

(** ** A concrete provider: one bucket, at most two requests in ten ticks *)

Definition sample_hash (_ : string) : Z := 0.
Definition sample_lims (_ : string) : Z := 2.
Definition sample_pers (_ : string) : Go.duration := 10.
Definition sample_sections : list csection :=
  [CAllow "a" 2 10 1001 1001; CAllow "a" 2 10 1002 1002; CAllow "a" 2 10 1003 1003; CAllow "b" 2 10 1004 1004;
   CAllowAll [MkLimit "a" 2 10] true 1005; CCleanup 0 1006].
Definition sample_history (ev : Eviction) (ss : list csection) : Provider * (string -> list Go.time) :=
  history sample_hash 1000 1 ev 1000 ss (New 1) empty_log.

(** Two of the three requests for [a] are admitted, [b] finds no room and the
    multi-key call is refused. *)
Example sample_rejects : (sample_history EvictionReject sample_sections).2 "a"%string = [1001; 1002].
Proof. vm_compute. reflexivity. Qed.

Lemma sample_accepted Q :
  (forall k, Q k 10) -> Forall (accepted Q) sample_sections.
Proof.
  intros HQ. unfold sample_sections.
  do 4 (apply Forall_cons; split; [split; [cbn; lia|cbn; split_and!; [lia|lia|apply HQ]]|]).
  apply Forall_cons; split.
  - split; [cbn; lia|]. cbn. split; [apply NoDup_singleton|]. apply Forall_singleton. cbn. split_and!; [lia|lia|apply HQ].
  - apply Forall_singleton. split; [cbn; lia|done].
Qed.

Lemma sample_follows : Forall (follows sample_lims sample_pers) sample_sections.
Proof. repeat constructor. Qed.

Lemma sample_ordered : ordered 1000 sample_sections.
Proof. cbn. split_and!; lia || done. Qed.

Lemma capacity_respected_witness :
  exists ks, NoDup ks /\ (forall k, k ∈ ks <-> tracked sample_hash (sample_history EvictionLRU sample_sections).1 k) /\
    count (sample_history EvictionLRU sample_sections).1 = Z.of_nat (length ks) /\ (0 < 1 -> Z.of_nat (length ks) <= 1).
Proof.
  refine (capacity_respected sample_hash 1000 1 EvictionLRU 1000 1 1000 sample_sections _ sample_ordered _); [lia|].
  by apply sample_accepted.
Defined.

Lemma eviction_is_lru_witness :
  let p := (sample_history EvictionLRU sample_sections).1 in
  exists key b, bucket_of sample_hash p key = Some b /\
    (forall k b', bucket_of sample_hash p k = Some b' -> k <> key -> recency b < recency b') /\
    (forall k, bucket_of sample_hash (evictLRULocked p) k = if decide (k = key) then None else bucket_of sample_hash p k).
Proof.
  refine (eviction_is_lru sample_hash 1000 1 EvictionLRU 1000 1 1000 sample_sections _ sample_ordered _ _); [lia|by apply sample_accepted|].
  exists "a"%string. vm_compute. by eexists.
Defined.

Lemma limit_never_exceeded_witness :
  Z.of_nat (length (within 1010 10 ((sample_history EvictionReject sample_sections).2 "a"%string))) <= 2.
Proof.
  refine (limit_never_exceeded sample_hash 1000 1 EvictionReject 1000 sample_lims sample_pers _ _ _ _ 1 1000 sample_sections
    "a"%string 1010 _ sample_ordered _ sample_follows); [done|done|by left|done|lia|by apply sample_accepted].
Defined.



(** Cleanup forgets a live window when the idle time is shorter than the period:
    with one request per hundred ticks and an idle time of ten, a key is admitted
    twice within twenty ticks. *)
Theorem cleanup_forgets_live_window :
  let '(_, L) := history sample_hash 1000 5 EvictionReject 10
    [CAllow "a" 1 100 1001 1001; CCleanup 0 1020; CAllow "a" 1 100 1021 1021] (New 1) empty_log in
  L "a"%string = [1001; 1021].
Proof. vm_compute. reflexivity. Qed.
End RateLimitTheorems.
