(* ===== verification/Wal.v ===== *)
(** * The write-ahead log: core/io/wal

    The on-disk record format, the files it is kept in, the segment and batch
    state of a [WAL], and each of its operations.  A call into the operating
    system is a definition that takes the outcome the system chose (the error
    it returned, the number of bytes it wrote) as an argument, so that a
    theorem over every outcome covers every failure.  The concurrent callers
    are a transition system ([step]): a transition is one critical section of
    the code, and the write of a group commit, which runs outside the lock,
    is several. *)

From S2P Require Import Prelude GoBytes.
From Stdlib Require Import Strings.Byte.
Open Scope go_scope.

Module Wal.

Export GoBytes.

Definition recordHeaderSize : Z := 8.
Definition maxRecordBytes : Z := Z.shiftl 64 20.

Record Offset := mkOffset { SegmentID : Z; Position : Z }.

#[export] Instance Offset_eq_dec : EqDecision Offset.
Proof. solve_decision. Defined.

Definition zero_offset : Offset := mkOffset 0 0.
Definition IsZero (o : Offset) : bool := (SegmentID o =? 0) && (Position o =? 0).

(** A record found by recovery or by [ReadPending]. *)
Record WRecord := mkRecord { r_Offset : Offset; r_Payload : bytes }.

Record rawRecord := mkRaw { position : Z; payload : bytes }.

(** The loop of [readSegment] over the bytes not read yet.  A record takes at
    least nine bytes, so the number of bytes is fuel enough. *)
Fixpoint readSegment_loop (fuel : nat) (rest : bytes) (offset : Z) : list rawRecord * Z :=
  match fuel with
  | O => ([], offset)
  | S fuel =>
      if zlen rest <? recordHeaderSize then ([], offset)
      else
        let len := Uint32 (zslice 0 4 rest) in
        let crc := Uint32 (zslice 4 8 rest) in
        let rest := drop (Z.to_nat recordHeaderSize) rest in
        if (len =? 0) || (maxRecordBytes <? len) then ([], offset)
        else if zlen rest <? len then ([], offset)
        else
          let p := take (Z.to_nat len) rest in
          if negb (ChecksumIEEE p =? crc) then ([], offset)
          else
            let r := readSegment_loop fuel (drop (Z.to_nat len) rest) (offset + (recordHeaderSize + len)) in
            (mkRaw offset p :: r.1, r.2)
  end.

(** What the scan of a segment with the given bytes returns. *)
Definition scan (data : bytes) : list rawRecord * Z := readSegment_loop (S (length data)) data 0.

(** ** Files *)

(** A file of the directory.  [f_durable] is the length of the prefix that the
    last [fsync] made durable. *)
Record file := mkFile { f_data : bytes; f_durable : Z; f_regular : bool; f_perm : Z }.

(** The directory: whether the path exists, is a directory, and its mode
    bits; and its files by name. *)
Record disk := mkDisk { d_dir : option (bool * Z); d_files : gmap string file }.

Definition set_files (fs : gmap string file) (d : disk) : disk := mkDisk (d_dir d) fs.
(** New contents, of which at most the first [n] bytes are the old ones. *)
Definition with_data (data : bytes) (n : Z) (f : file) : file :=
  mkFile data (Z.min (f_durable f) n) (f_regular f) (f_perm f).

Definition zeros (n : Z) : bytes := repeat x00 (Z.to_nat n).

(** [write] at a position: bytes past the end are added, a gap is zeros. *)
Definition write_at (pos : Z) (p data : bytes) : bytes :=
  take (Z.to_nat pos) data ++ zeros (pos - zlen data) ++ p ++ drop (Z.to_nat (pos + zlen p)) data.

Definition truncate_to (n : Z) (data : bytes) : bytes :=
  take (Z.to_nat n) data ++ zeros (n - zlen data).

(** The effect of a write, a truncation, an [fsync] and a removal on a file. *)
Definition os_write (name : string) (pos : Z) (p : bytes) (d : disk) : disk :=
  set_files (alter (fun f => with_data (write_at pos p (f_data f)) pos f) name (d_files d)) d.
Definition os_truncate (name : string) (n : Z) (d : disk) : disk :=
  set_files (alter (fun f => with_data (truncate_to n (f_data f)) n f) name (d_files d)) d.
Definition os_fsync (name : string) (d : disk) : disk :=
  set_files (alter (fun f => mkFile (f_data f) (zlen (f_data f)) (f_regular f) (f_perm f)) name (d_files d)) d.
Definition os_remove (name : string) (d : disk) : disk := set_files (delete name (d_files d)) d.
Definition os_data (name : string) (d : disk) : bytes := from_option f_data [] (d_files d !! name).

(** Errors of the operating system and of the package. *)
Definition os_ErrClosed : error := ErrNew "file already closed".
Definition os_ErrExist : error := ErrNew "file already exists".
Definition os_ErrNotExist : error := ErrNew "file does not exist".
Definition os_ErrInvalid : error := ErrNew "invalid argument".
Definition io_EOF : error := ErrNew "EOF".
Definition ErrInsecurePermissions : error := ErrNew "wal: insecure permissions".
Definition ErrClosed : error := ErrNew "wal: closed".
Definition ErrFull : error := ErrNew "wal: full".
Definition ErrEmptyPayload : error := ErrNew "wal: empty payload".
Definition ErrPayloadTooLarge : error := ErrNew "wal: payload too large".
Definition ErrCorruptRecord : error := ErrNew "wal: corrupt pending record".

(** ** Segments *)

(** An open [*os.File]: its write position, and whether it was closed. *)
Record handle := mkHandle { h_pos : Z; h_closed : bool }.

Record segmentRef := mkSeg {
  id : Z;
  path : string;
  sfile : option handle;
  size : Z;
  records : Z;
  unacked : Z;
  acked : gset Z;
  pendingPosition : Z
}.

Definition seg_set_file (h : option handle) (s : segmentRef) : segmentRef :=
  mkSeg (id s) (path s) h (size s) (records s) (unacked s) (acked s) (pendingPosition s).
(** The counters after [n] more records that end at [pos]. *)
Definition seg_publish (n pos : Z) (s : segmentRef) : segmentRef :=
  mkSeg (id s) (path s) (sfile s) pos (records s + n) (unacked s + n) (acked s) (pendingPosition s).
Definition seg_set_acks (u : Z) (a : gset Z) (pp : Z) (s : segmentRef) : segmentRef :=
  mkSeg (id s) (path s) (sfile s) (size s) (records s) u a pp.

(** [segmentRef.ack]. *)
Definition seg_ack (pos : Z) (s : segmentRef) : segmentRef :=
  if (pos <? pendingPosition s) || (pos <? 0) || (size s <=? pos) || (unacked s =? 0) then s
  else if bool_decide (pos ∈ acked s) then s
  else seg_set_acks (unacked s - 1) ({[pos]} ∪ acked s) (pendingPosition s) s.

(** ** Batches *)

Record appendBatch := mkBatch {
  buf : bytes;
  starts : list Z;
  offs : list Offset;
  errs : list (option error);
  refs : Z
}.

(** [appendBatchPool.New]. *)
Definition new_batch : appendBatch := mkBatch [] [0] [] [] 0.

(** The reset of [putAppendBatch]. *)
Definition reset_batch (b : appendBatch) : appendBatch :=
  mkBatch [] (take 1 (starts b)) [] [] (refs b).

Definition batch_add (p : bytes) (crc : Z) (b : appendBatch) : appendBatch * nat :=
  let buf1 := AppendUint32 (buf b) (zlen p) in
  let buf2 := AppendUint32 buf1 crc in
  let buf3 := buf2 ++ p in
  let b' := mkBatch buf3 (starts b ++ [zlen buf3]) (offs b ++ [zero_offset]) (errs b ++ [None]) (refs b + 1) in
  (b', length (offs b') - 1)%nat.

Definition batch_len (b : appendBatch) : nat := length (offs b).
Definition batch_start (b : appendBatch) (i : nat) : Z := default 0 (starts b !! i).
Definition batch_size (b : appendBatch) (i : nat) : Z := batch_start b (S i) - batch_start b i.

(** [appendBatch.fail]. *)
Definition batch_fail (i j : nat) (e : error) (b : appendBatch) : appendBatch :=
  mkBatch (buf b) (starts b) (offs b)
    (fold_left (fun l k => <[k := Some e]> l) (seq i (j - i)) (errs b)) (refs b).

(** The loop that assigns the offsets of records [i, j) of a written run. *)
Fixpoint batch_publish (n : nat) (sid : Z) (k : nat) (pos : Z) (b : appendBatch) : appendBatch * Z :=
  match n with
  | O => (b, pos)
  | S n =>
      batch_publish n sid (S k) (pos + batch_size b k)
        (mkBatch (buf b) (starts b) (<[k := mkOffset sid pos]> (offs b)) (errs b) (refs b))
  end.

(** The longest run of records that fits the segment, from record [j] on;
    [n] is the number of records left in the batch. *)
Fixpoint batch_run (n : nat) (b : appendBatch) (j : nat) (size records max : Z) : nat :=
  match n with
  | O => j
  | S n =>
      if (size + batch_size b j <=? max) || (records =? 0)
      then batch_run n b (S j) (size + batch_size b j) (records + 1) max
      else j
  end.

(** ** The log *)

Record options := mkOptions { insecurePermissions : bool; maxSegmentBytes : Z; maxBytes : Z }.

(** [defaultOptions]: 64 MiB segments, no cap, private files. *)
Definition DefaultMaxSegmentBytes : Z := Z.shiftl 64 20.
Definition DefaultMaxBytes : Z := 0.
Definition defaultOptions : options := mkOptions false DefaultMaxSegmentBytes DefaultMaxBytes.

(** The fields of [WAL]; [cur] is the number of a batch. *)
Record WAL := mkWAL {
  opts : options;
  active : option segmentRef;
  sealed : list segmentRef;
  nextID : Z;
  cur : nat;
  curGen : Z;
  doneGen : Z;
  flushing : bool;
  totalSz : Z;
  closed : bool;
  closing : bool;
  lastFsyncErr : option error
}.

Definition set_segs (a : option segmentRef) (l : list segmentRef) (tot : Z) (w : WAL) : WAL :=
  mkWAL (opts w) a l (nextID w) (cur w) (curGen w) (doneGen w) (flushing w) tot (closed w) (closing w) (lastFsyncErr w).
Definition set_active (a : option segmentRef) (w : WAL) : WAL := set_segs a (sealed w) (totalSz w) w.
Definition set_nextID (n : Z) (w : WAL) : WAL :=
  mkWAL (opts w) (active w) (sealed w) n (cur w) (curGen w) (doneGen w) (flushing w) (totalSz w) (closed w) (closing w) (lastFsyncErr w).
Definition set_gens (c : nat) (cg dg : Z) (fl : bool) (w : WAL) : WAL :=
  mkWAL (opts w) (active w) (sealed w) (nextID w) c cg dg fl (totalSz w) (closed w) (closing w) (lastFsyncErr w).
Definition set_flags (cd cg : bool) (w : WAL) : WAL :=
  mkWAL (opts w) (active w) (sealed w) (nextID w) (cur w) (curGen w) (doneGen w) (flushing w) (totalSz w) cd cg (lastFsyncErr w).
Definition set_fault (e : option error) (w : WAL) : WAL :=
  mkWAL (opts w) (active w) (sealed w) (nextID w) (cur w) (curGen w) (doneGen w) (flushing w) (totalSz w) (closed w) (closing w) e.

(** ** File names *)

Definition digit (d : Z) : Ascii.ascii := Ascii.ascii_of_N (Z.to_N (48 + d)).
Definition digit_value (c : Ascii.ascii) : option Z :=
  let n := Z.of_N (Ascii.N_of_ascii c) in
  if (48 <=? n) && (n <=? 57) then Some (n - 48) else None.

(** [n] printed in base [base] with [k] digits, in front of [acc]: the verbs
    [%020d] (an unsigned 64-bit number has at most 20 digits) and [%04o]. *)
Fixpoint fixed_width (base : Z) (k : nat) (n : Z) (acc : string) : string :=
  match k with
  | O => acc
  | S k => fixed_width base k (n / base) (String (digit (n mod base)) acc)
  end.

Fixpoint digits_value (s : string) (acc : Z) : option Z :=
  match s with
  | EmptyString => Some acc
  | String c s => match digit_value c with Some d => digits_value s (acc * 10 + d) | None => None end
  end.

(** [strconv.ParseUint(s, 10, 64)]. *)
Definition ParseUint (s : string) : option Z :=
  match s with
  | EmptyString => None
  | _ => match digits_value s 0 with
         | Some v => if v <? 2 ^ 64 then Some v else None
         | None => None
         end
  end.

(** [strings.CutSuffix]. *)
Fixpoint CutSuffix (s suffix : string) : option string :=
  if String.eqb s suffix then Some EmptyString
  else match s with
       | EmptyString => None
       | String c s => String c <$> CutSuffix s suffix
       end.

Definition fileSuffix : string := ".wal".
Definition dirMode : Z := 448. (* 0o700 *)
Definition fileMode : Z := 384. (* 0o600 *)

(** The name of segment [sid], and the segment a file name stands for. *)
Definition segment_name (sid : Z) : string := (fixed_width 10 20 sid EmptyString +:+ fileSuffix)%string.
Definition segment_of_name (name : string) : option Z :=
  match CutSuffix name fileSuffix with Some s => ParseUint s | None => None end.

(** ** Opening and recovery

    Paths are relative to the directory of the log. *)

(** What the system answers while the log is opened: for each call the error
    it fails with, if any; [e_read] is the offset at which reading the file
    fails. *)
Record openEnv := mkEnv {
  e_windows : bool;
  e_mkdir : option error;
  e_statdir : option error;
  e_readdir : option error;
  e_stat : string -> option error;
  e_open : string -> option error;
  e_read : string -> option Z;
  e_remove : string -> option error;
  e_restat : string -> option error;
  e_truncate : string -> option error;
  e_create : option error
}.

Definition u64 (z : Z) : Z := z mod 2 ^ 64.

Definition name_le (a b : string) : Prop := str_leb a b = true.
#[export] Instance name_le_dec a b : Decision (name_le a b).
Proof. unfold name_le. apply _. Defined.
(** [cmp.Compare] of the ids. *)
Definition id_le (a b : Z * string) : Prop := a.1 <= b.1.
#[export] Instance id_le_dec a b : Decision (id_le a b).
Proof. unfold id_le. apply _. Defined.

Section Open.
Variable env : openEnv.

(** [validatePath] on what [os.Stat] returned: an error, or whether the path
    is of the expected kind and its permission bits. *)
Definition validatePath (name : string) (info : error + bool * Z) (insecure : bool) : option error :=
  match info with
  | inl e => Some (Errors.Wrapf e "wal: stat path")
  | inr (kind_ok, perm) =>
      if negb kind_ok then Some (Errors.Wrapf os_ErrInvalid "wal: expected directory or regular segment")
      else if negb insecure && negb (e_windows env) && negb (Z.land perm 63 =? 0)
      then Some (Errors.Wrapf ErrInsecurePermissions
                   ("wal: " +:+ name +:+ " has permissions " +:+ fixed_width 8 4 perm EmptyString)%string)
      else None
  end.

Definition stat_file (d : disk) (name : string) : error + bool * Z :=
  match e_stat env name, d_files d !! name with
  | Some e, _ => inl e
  | None, None => inl os_ErrNotExist
  | None, Some f => inr (f_regular f, f_perm f)
  end.

Definition stat_dir (d : disk) : error + bool * Z :=
  match e_statdir env, d_dir d with
  | Some e, _ => inl e
  | None, None => inl os_ErrNotExist
  | None, Some i => inr i
  end.

(** [os.MkdirAll]. *)
Definition MkdirAll (mode : Z) (d : disk) : option error * disk :=
  match e_mkdir env, d_dir d with
  | Some e, _ => (Some e, d)
  | None, None => (None, mkDisk (Some (true, mode)) (d_files d))
  | None, Some (true, _) => (None, d)
  | None, Some (false, _) => (Some (ErrNew "not a directory"), d)
  end.

(** [readSegment]: the records it finds and the number of bytes they take.
    Every failed read ends the scan. *)
Definition readSegment (name : string) (d : disk) : error + list rawRecord * Z :=
  match e_open env name, d_files d !! name with
  | Some e, _ => inl (Errors.Wrapf e ("wal: open " +:+ name))
  | None, None => inl (Errors.Wrapf os_ErrNotExist ("wal: open " +:+ name))
  | None, Some f =>
      inr (scan (match e_read env name with Some k => take (Z.to_nat k) (f_data f) | None => f_data f end))
  end.

(** [os.ReadDir]: the names in ascending order. *)
Definition ReadDir (d : disk) : list string := merge_sort name_le (map_to_list (d_files d)).*1.

(** The segment files of the directory, by ascending id. *)
Definition segment_files (d : disk) : list (Z * string) :=
  merge_sort id_le
    (omap (fun name => (fun sid => (sid, name)) <$> segment_of_name name) (ReadDir d)).

Fixpoint validate_all (insecure : bool) (d : disk) (segs : list (Z * string)) : option error :=
  match segs with
  | [] => None
  | (_, name) :: segs =>
      match validatePath name (stat_file d name) insecure with
      | Some e => Some e
      | None => validate_all insecure d segs
      end
  end.

(** The loop of [recover] over the segment files. *)
Fixpoint recover_segs (segs : list (Z * string)) (w : WAL) (d : disk) (recovered : list WRecord) :
    option error * WAL * disk * list WRecord :=
  match segs with
  | [] => (None, w, d, recovered)
  | (sid, name) :: segs =>
      match readSegment name d with
      | inl e => (Some e, w, d, recovered)
      | inr ([], _) =>
          let d := match e_remove env name with Some _ => d | None => os_remove name d end in
          recover_segs segs w d recovered
      | inr (recs, validSize) =>
          let torn := match e_restat env name with
                      | Some _ => false
                      | None => negb (zlen (os_data name d) =? validSize)
                      end in
          match torn, e_truncate env name with
          | true, Some e => (Some (Errors.Wrapf e ("wal: truncate " +:+ name)), w, d, recovered)
          | _, _ =>
              let d := if torn then os_truncate name validSize d else d in
              let ref := mkSeg sid name None validSize (zlen recs) (zlen recs) ∅ 0 in
              let w := set_segs (active w) (sealed w ++ [ref]) (totalSz w + validSize) w in
              let w := if nextID w <=? sid then set_nextID (u64 (sid + 1)) w else w in
              recover_segs segs w d
                (recovered ++ ((fun r => mkRecord (mkOffset sid (position r)) (payload r)) <$> recs))
          end
      end
  end.

Definition recover (w : WAL) (d : disk) : option error * WAL * disk * list WRecord :=
  match e_readdir env with
  | Some e => (Some (Errors.Wrapf e "wal: read dir"), w, d, [])
  | None =>
      let segs := segment_files d in
      match validate_all (insecurePermissions (opts w)) d segs with
      | Some e => (Some e, w, d, [])
      | None => recover_segs segs w d []
      end
  end.

End Open.

(** [openNewActiveLocked]; [cerr] is the error of [os.OpenFile], which also
    fails when the file exists. *)
Definition openNewActiveLocked (cerr : option error) (w : WAL) (d : disk) : option error * WAL * disk :=
  let sid := nextID w in
  let w := set_nextID (u64 (nextID w + 1)) w in
  let name := segment_name sid in
  let mode := if insecurePermissions (opts w) then 420 (* 0o644 *) else fileMode in
  match cerr, d_files d !! name with
  | Some e, _ => (Some (Errors.Wrapf e "wal: open active"), w, d)
  | None, Some _ => (Some (Errors.Wrapf os_ErrExist "wal: open active"), w, d)
  | None, None =>
      (None,
       set_active (Some (mkSeg sid name (Some (mkHandle 0 false)) 0 0 0 ∅ 0)) w,
       set_files (<[name := mkFile [] 0 true mode]> (d_files d)) d)
  end.

(** [Open]; the first batch has number 0. *)
Definition Open (env : openEnv) (dir : string) (o : options) (d : disk) :
    (error + WAL * list WRecord) * disk :=
  if String.eqb dir EmptyString then (inl (ErrNew "wal: dir is required"), d)
  else
    let mode := if insecurePermissions o then 493 (* 0o755 *) else dirMode in
    let '(merr, d) := MkdirAll env mode d in
    match merr with
    | Some e => (inl (Errors.Wrapf e "wal: mkdir"), d)
    | None =>
        match validatePath env dir (stat_dir env d) (insecurePermissions o) with
        | Some e => (inl e, d)
        | None =>
            let w := mkWAL o None [] 1 0 1 0 false 0 false false None in
            match recover env w d with
            | (Some e, _, d, _) => (inl e, d)
            | (None, w, d, recovered) =>
                match openNewActiveLocked (e_create env) w d with
                | (Some e, _, d) => (inl e, d)
                | (None, w, d) => (inr (w, recovered), d)
                end
            end
        end
    end.

(** [sealActiveLocked], with the errors of [Sync] and [Close] and whether the
    removal of a fully acknowledged segment succeeds. *)
Definition sealActiveLocked (serr cerr : option error) (removed : bool) (w : WAL) (d : disk) :
    option error * WAL * disk :=
  match active w with
  | None => (None, w, d)
  | Some seg =>
      let finish seg d :=
        if 0 <? unacked seg
        then (None, set_segs None (sealed w ++ [seg]) (totalSz w) w, d)
        else (None, set_segs None (sealed w) (totalSz w - size seg) w,
              if removed then os_remove (path seg) d else d) in
      match sfile seg with
      | None => finish seg d
      | Some h =>
          match (if h_closed h then Some os_ErrClosed else serr) with
          | Some e => (Some (Errors.Wrapf e "wal: final sync"), w, d)
          | None =>
              let d := os_fsync (path seg) d in
              match cerr with
              | Some e =>
                  (Some (Errors.Wrapf e "wal: close"),
                   set_active (Some (seg_set_file (Some (mkHandle (h_pos h) true)) seg)) w, d)
              | None => finish (seg_set_file None seg) d
              end
          end
      end
  end.

(** [rollbackLocked] of a write that failed with [err] after [n] bytes, with
    the errors of [Truncate] and [Seek]. *)
Definition rollbackLocked (seg : segmentRef) (n : Z) (err : error) (terr kerr : option error) (d : disk) :
    error * segmentRef * disk :=
  match sfile seg with
  | Some h =>
      if 0 <? n then
        match terr with
        | Some te =>
            (Errors.Wrapf err ("wal: write record (truncate rollback failed: " +:+ Errors.text te +:+ ")"),
             seg_set_file None seg, d)
        | None =>
            let d := os_truncate (path seg) (size seg) d in
            match kerr with
            | Some ke =>
                (Errors.Wrapf err ("wal: write record (seek rollback failed: " +:+ Errors.text ke +:+ ")"),
                 seg_set_file None seg, d)
            | None =>
                (Errors.Wrapf err "wal: write record",
                 seg_set_file (Some (mkHandle (size seg) (h_closed h))) seg, d)
            end
        end
      else (Errors.Wrapf err "wal: write record", seg, d)
  | None => (Errors.Wrapf err "wal: write record", seg, d)
  end.

(** ** Acknowledgement *)

(** The loop of [Ack] over the sealed segments: the segments left and, when
    the acknowledgement was the last one outstanding, the segment dropped. *)
Fixpoint ack_sealed (off : Offset) (l : list segmentRef) : list segmentRef * option segmentRef :=
  match l with
  | [] => ([], None)
  | s :: l =>
      if id s =? SegmentID off then
        let s := seg_ack (Position off) s in
        if unacked s <=? 0 then (l, Some s) else (s :: l, None)
      else let r := ack_sealed off l in (s :: r.1, r.2)
  end.

(** [Ack]; [removed] tells whether [os.Remove] succeeds. *)
Definition Ack (off : Offset) (removed : bool) (w : WAL) (d : disk) : WAL * disk :=
  if IsZero off || closed w then (w, d)
  else
    let in_sealed :=
      match ack_sealed off (sealed w) with
      | (l, Some s) =>
          (set_segs (active w) l (totalSz w - size s) w, if removed then os_remove (path s) d else d)
      | (l, None) => (set_segs (active w) l (totalSz w) w, d)
      end in
    match active w with
    | Some a => if id a =? SegmentID off then (set_active (Some (seg_ack (Position off) a)) w, d) else in_sealed
    | None => in_sealed
    end.

(** ** Reading the pending records *)

(** What the system answers to the reads: the error of [os.Open] by file, and
    of [ReadAt] by file and position. *)
Record readEnv := mkReadEnv {
  r_open : string -> option error;
  r_read : string -> Z -> option error
}.

Definition pendingReadWindow : Z := Z.shiftl 64 10.

Section ReadPending.
Variables (env : readEnv) (limit : Z) (skip : option (Offset -> bool)).

(** [f.ReadAt(p, pos)] with [n = len(p)]. *)
Definition ReadAt (name : string) (data : bytes) (n pos : Z) : error + bytes :=
  match r_read env name pos with
  | Some e => inl e
  | None => if zlen data <? pos + n then inl io_EOF else inr (zslice pos (pos + n) data)
  end.

(** The window the header at [pos] is parsed from: the current one, or the
    next [pendingReadWindow] bytes when it does not hold the header. *)
Definition refill (name : string) (data : bytes) (size pos : Z) (window : option (Z * bytes)) : error + Z * bytes :=
  let fresh :=
    match ReadAt name data (Z.min pendingReadWindow (size - pos)) pos with
    | inl e => inl e
    | inr win => inr (pos, win)
    end in
  match window with
  | None => fresh
  | Some (start, win) => if zlen win <? pos - start + recordHeaderSize then fresh else inr (start, win)
  end.

(** The loop of [readPendingSegment].  A record takes at least nine bytes, so
    the size of the segment is fuel enough.  A header cut off by the end of
    the segment is corrupt whatever its length field reads as, since the
    record it starts ends past [size]. *)
Fixpoint read_loop (fuel : nat) (data : bytes) (size pos : Z) (window : option (Z * bytes))
    (seg : segmentRef) (out : list WRecord) : option error * segmentRef * list WRecord :=
  match fuel with
  | O => (None, seg, out)
  | S fuel =>
      if (pos <? size) && (zlen out <? limit) then
        match refill (path seg) data size pos window with
        | inl e => (Some e, seg, out)
        | inr (start, win) =>
            let rel := pos - start in
            let header := zslice rel (rel + recordHeaderSize) win in
            let n := Uint32 (zslice 0 4 header) in
            let next := pos + recordHeaderSize + n in
            if (zlen header <? recordHeaderSize) || (n =? 0) || (maxRecordBytes <? n) || (size <? next)
            then (Some ErrCorruptRecord, seg, out)
            else
              let offset := mkOffset (id seg) pos in
              let is_acked := bool_decide (pos ∈ acked seg) in
              let seg :=
                if is_acked && (pos =? pendingPosition seg)
                then seg_set_acks (unacked seg) (acked seg ∖ {[pos]}) next seg else seg in
              if negb is_acked && negb (match skip with Some f => f offset | None => false end) then
                let read :=
                  if rel + recordHeaderSize + n <=? zlen win
                  then inr (zslice (rel + recordHeaderSize) (rel + recordHeaderSize + n) win)
                  else ReadAt (path seg) data n (pos + recordHeaderSize) in
                match read with
                | inl e => (Some e, seg, out)
                | inr p =>
                    if negb (ChecksumIEEE p =? Uint32 (zslice 4 8 header)) then (Some ErrCorruptRecord, seg, out)
                    else read_loop fuel data size next (Some (start, win)) seg (out ++ [mkRecord offset p])
                end
              else read_loop fuel data size next (Some (start, win)) seg out
        end
      else (None, seg, out)
  end.

Definition readPendingSegment (d : disk) (seg : segmentRef) (out : list WRecord) :
    option error * segmentRef * list WRecord :=
  if unacked seg =? 0 then (None, seg, out)
  else
    match r_open env (path seg), d_files d !! path seg with
    | Some e, _ => (Some e, seg, out)
    | None, None => (Some os_ErrNotExist, seg, out)
    | None, Some f => read_loop (S (Z.to_nat (size seg))) (f_data f) (size seg) (pendingPosition seg) None seg out
    end.

(** The loop over the sealed segments: the segments with their read positions
    advanced, and whether the loop returned. *)
Fixpoint read_sealed (d : disk) (l : list segmentRef) (out : list WRecord) :
    option (option error) * list segmentRef * list WRecord :=
  match l with
  | [] => (None, [], out)
  | s :: l =>
      match readPendingSegment d s out with
      | (Some e, s, out) => (Some (Some e), s :: l, out)
      | (None, s, out) =>
          if zlen out =? limit then (Some None, s :: l, out)
          else let '(r, l, out) := read_sealed d l out in (r, s :: l, out)
      end
  end.

Definition ReadPending (w : WAL) (d : disk) : (error + list WRecord) * WAL :=
  if closed w then (inl ErrClosed, w)
  else if limit <=? 0 then (inr [], w)
  else
    let '(r, l, out) := read_sealed d (sealed w) [] in
    let w := set_segs (active w) l (totalSz w) w in
    match r, active w with
    | Some (Some e), _ => (inl e, w)
    | Some None, _ => (inr out, w)
    | None, None => (inr out, w)
    | None, Some a =>
        let '(r, a, out) := readPendingSegment d a out in
        let w := set_active (Some a) w in
        match r with Some e => (inl e, w) | None => (inr out, w) end
    end.

End ReadPending.

(** ** Durability and shutdown *)

(** [WAL.Sync]; [serr] is the error of the system's [fsync]. *)
Definition Sync (serr : option error) (w : WAL) (d : disk) : option error * disk :=
  match active w with
  | Some (mkSeg _ name (Some h) _ _ _ _ _) =>
      match (if h_closed h then Some os_ErrClosed else serr) with
      | Some e => (Some e, d)
      | None => (None, os_fsync name d)
      end
  | _ => (None, d)
  end.

Definition Faulted (w : WAL) : option error := lastFsyncErr w.

(** [fsyncOnce] after it captured the file of segment [sid]: the file is
    closed by then when the segment is no longer the active one or its file
    was retired, and the data it failed to sync was synced by the seal. *)
Definition fsyncOnce (sid : Z) (serr : option error) (w : WAL) (d : disk) : WAL * disk :=
  let current :=
    match active w with
    | Some a => if id a =? sid then (match sfile a with Some h => Some (path a, h) | None => None end) else None
    | None => None
    end in
  let rotated := match current with None => true | Some _ => false end in
  let err := match current with
             | None => Some os_ErrClosed
             | Some (_, h) => if h_closed h then Some os_ErrClosed else serr
             end in
  match err with
  | Some e => if rotated && Errors.Is os_ErrClosed e then (w, d) else (set_fault (Some e) w, d)
  | None => (set_fault None w, match current with Some (name, _) => os_fsync name d | None => d end)
  end.

(** The last section of [Close]: the errors of [Sync], [Close] and
    [os.Remove], and the joined error it returns. *)
Definition close_finish (serr cerr rerr : option error) (w : WAL) (d : disk) : option error * WAL * disk :=
  match active w with
  | None => (None, w, d)
  | Some a =>
      let '(errs, a, d) :=
        match sfile a with
        | None => (None, a, d)
        | Some h =>
            let serr := if h_closed h then Some os_ErrClosed else serr in
            let cerr := if h_closed h then Some os_ErrClosed else cerr in
            let d := match serr with None => os_fsync (path a) d | Some _ => d end in
            (Errors.join ((fun e => Errors.Wrapf e "wal: final sync") <$> serr)
               ((fun e => Errors.Wrapf e "wal: final close") <$> cerr),
             seg_set_file None a, d)
        end in
      if unacked a <=? 0 then
        let '(rerr, d) :=
          match rerr with
          | None => (None, os_remove (path a) d)
          | Some e => (if Errors.Is os_ErrNotExist e then None
                       else Some (Errors.Wrapf e ("wal: remove " +:+ path a)), d)
          end in
        (Errors.join errs rerr, set_segs None (sealed w) (totalSz w - size a) w, d)
      else (errs, set_active (Some a) w, d)
  end.

Record Stats := mkStats { TotalBytes : Z; Segments : Z; Pending : Z }.

Definition stats (w : WAL) : Stats :=
  let pend := fold_left (fun n s => n + unacked s) (sealed w) 0 in
  match active w with
  | Some a => mkStats (totalSz w) (1 + zlen (sealed w)) (pend + unacked a)
  | None => mkStats (totalSz w) (zlen (sealed w)) pend
  end.

End Wal.
