(* ===== verification/WalFormat.v ===== *)
(** * The record format of the write-ahead log

    What the scan of a segment finds: exactly the records encoded at the head
    of the file, whatever follows them, and nothing of a torn one. *)

From S2P Require Import Prelude Wal.
From Stdlib Require Import Strings.Byte.

Module WalFormat.
Import Wal.

(** The bytes of one record, and of a sequence of records. *)
Definition u32 (v : Z) : bytes := AppendUint32 [] v.
Definition enc (p : bytes) : bytes := u32 (zlen p) ++ u32 (ChecksumIEEE p) ++ p.
Definition encs (ps : list bytes) : bytes := concat (enc <$> ps).

(** The payloads the format can represent. *)
Definition valid (p : bytes) : Prop := 0 < zlen p <= maxRecordBytes.

(** The records [ps], the first one at [pos]. *)
Fixpoint layout (pos : Z) (ps : list bytes) : list rawRecord :=
  match ps with
  | [] => []
  | p :: ps => mkRaw pos p :: layout (pos + zlen (enc p)) ps
  end.

(** ** Lengths *)

Lemma zlen_u32 v : zlen (u32 v) = 4.
Proof. done. Qed.

Lemma zlen_enc p : zlen (enc p) = recordHeaderSize + zlen p.
Proof. unfold enc. rewrite !zlen_app, !zlen_u32. unfold recordHeaderSize. lia. Qed.

Lemma encs_cons p ps : encs (p :: ps) = enc p ++ encs ps.
Proof. done. Qed.

Lemma encs_app ps qs : encs (ps ++ qs) = encs ps ++ encs qs.
Proof. unfold encs. by rewrite fmap_app, concat_app. Qed.

Lemma encs_snoc ps p : encs (ps ++ [p]) = encs ps ++ enc p.
Proof. rewrite encs_app. unfold encs. cbn. by rewrite app_nil_r. Qed.

Lemma layout_app pos ps qs :
  layout pos (ps ++ qs) = layout pos ps ++ layout (pos + zlen (encs ps)) qs.
Proof.
  revert pos. induction ps as [|p ps IH]; intros pos; cbn [layout app].
  - change (zlen (encs [])) with 0. by rewrite Z.add_0_r.
  - rewrite IH, encs_cons, zlen_app. do 2 f_equal. f_equal; lia.
Qed.

Lemma length_layout pos ps : length (layout pos ps) = length ps.
Proof. revert pos. induction ps as [|p ps IH]; intros pos; [done|]. cbn. by rewrite IH. Qed.

Lemma payload_layout pos ps : payload <$> layout pos ps = ps.
Proof. revert pos. induction ps as [|p ps IH]; intros pos; [done|]. cbn. by rewrite IH. Qed.

Lemma layout_lookup pos ps k :
  layout pos ps !! k = (fun p => mkRaw (pos + zlen (encs (take k ps))) p) <$> ps !! k.
Proof.
  revert pos k. induction ps as [|p ps IH]; intros pos [|k]; [done|done|..].
  - cbn. f_equal. f_equal. unfold zlen. cbn. lia.
  - change (layout pos (p :: ps) !! S k) with (layout (pos + zlen (enc p)) ps !! k).
    change ((p :: ps) !! S k) with (ps !! k). change (take (S k) (p :: ps)) with (p :: take k ps).
    rewrite IH, encs_cons, zlen_app. cbn. destruct (ps !! k); cbn; [|done]. do 2 f_equal. lia.
Qed.

(** ** Bytes and checksums *)

Lemma Uint32_u32 v l : 0 <= v < 2 ^ 32 -> Uint32 (u32 v ++ l) = v.
Proof.
  intros Hv. cbn [u32 AppendUint32 app Uint32]. rewrite !Z_of_byte_of_Z. lia_mod.
Qed.

Lemma u32_Uint32 b0 b1 b2 b3 l : u32 (Uint32 (b0 :: b1 :: b2 :: b3 :: l)) = [b0; b1; b2; b3].
Proof.
  unfold u32, AppendUint32. cbn [Uint32 app].
  pose proof (Z_of_byte_range b0). pose proof (Z_of_byte_range b1).
  pose proof (Z_of_byte_range b2). pose proof (Z_of_byte_range b3).
  rewrite (byte_of_Z_eq _ b0), (byte_of_Z_eq _ b1), (byte_of_Z_eq _ b2), (byte_of_Z_eq _ b3); [done|lia_mod..].
Qed.

(** ** The scan *)

Lemma header_len a c l : zslice 0 4 (u32 a ++ u32 c ++ l) = u32 a.
Proof. done. Qed.

Lemma header_crc a c l : zslice 4 8 (u32 a ++ u32 c ++ l) = u32 c.
Proof. done. Qed.

Lemma header_rest a c l : drop (Z.to_nat recordHeaderSize) (u32 a ++ u32 c ++ l) = l.
Proof. done. Qed.

Lemma Uint32_u32_nil v : 0 <= v < 2 ^ 32 -> Uint32 (u32 v) = v.
Proof. intros. rewrite <-(app_nil_r (u32 v)). by apply Uint32_u32. Qed.

Lemma valid_u32 p : valid p -> 0 <= zlen p < 2 ^ 32.
Proof. unfold valid, maxRecordBytes. change (Z.shiftl 64 20) with 67108864. lia. Qed.

(** The loop at the head of an encoded record. *)
Lemma loop_enc fuel p rest o :
  valid p ->
  readSegment_loop (S fuel) (enc p ++ rest) o =
  (mkRaw o p :: (readSegment_loop fuel rest (o + zlen (enc p))).1,
   (readSegment_loop fuel rest (o + zlen (enc p))).2).
Proof.
  intros Hv. rewrite zlen_enc.
  assert (enc p ++ rest = u32 (zlen p) ++ u32 (ChecksumIEEE p) ++ p ++ rest) as ->
    by (unfold enc; by rewrite <-!app_assoc).
  cbn [readSegment_loop]. rewrite header_len, header_crc, header_rest, !Uint32_u32_nil
    by (apply valid_u32 || apply ChecksumIEEE_range; done).
  destruct (Z.ltb_spec (zlen (u32 (zlen p) ++ u32 (ChecksumIEEE p) ++ p ++ rest)) recordHeaderSize) as [H|_].
  { rewrite !zlen_app, !zlen_u32 in H. unfold recordHeaderSize in H.
    pose proof (zlen_nonneg p). pose proof (zlen_nonneg rest). lia. }
  destruct Hv as [Hp Hm].
  destruct (Z.eqb_spec (zlen p) 0) as [?|_]; [lia|]. destruct (Z.ltb_spec maxRecordBytes (zlen p)) as [?|_]; [lia|].
  cbn [orb]. destruct (Z.ltb_spec (zlen (p ++ rest)) (zlen p)) as [H|_].
  { rewrite zlen_app in H. pose proof (zlen_nonneg rest). lia. }
  rewrite to_nat_zlen, take_app_length, drop_app_length, Z.eqb_refl. done.
Qed.

(** More fuel than there are bytes makes no difference. *)
Lemma loop_fuel f1 f2 rest o :
  (length rest < f1)%nat -> (length rest < f2)%nat ->
  readSegment_loop f1 rest o = readSegment_loop f2 rest o.
Proof.
  revert f2 rest o. induction f1 as [|f1 IH]; intros [|f2] rest o H1 H2; [lia|lia|lia|].
  cbn [readSegment_loop].
  destruct (Z.ltb_spec (zlen rest) recordHeaderSize) as [?|H8]; [done|].
  unfold zlen, recordHeaderSize in H8.
  do 3 (case_match; [done|]).
  by rewrite (IH f2) by (rewrite !length_drop; change (Z.to_nat recordHeaderSize) with 8%nat; lia).
Qed.

Lemma loop_encs ps fuel rest o :
  Forall valid ps -> (length (encs ps ++ rest) < fuel)%nat ->
  readSegment_loop fuel (encs ps ++ rest) o =
  (layout o ps ++ (readSegment_loop fuel rest (o + zlen (encs ps))).1,
   (readSegment_loop fuel rest (o + zlen (encs ps))).2).
Proof.
  intros Hps. revert fuel o. induction Hps as [|p ps Hp Hps IH]; intros fuel o Hf.
  - change (zlen (encs [])) with 0. rewrite Z.add_0_r. cbn. by destruct (readSegment_loop fuel rest o).
  - rewrite encs_cons in *. rewrite !length_app in Hf.
    assert (0 < length (enc p))%nat.
    { pose proof (zlen_enc p). unfold zlen, recordHeaderSize in *. lia. }
    destruct fuel as [|fuel]; [lia|]. rewrite <-app_assoc, (loop_enc fuel) by done.
    rewrite (IH fuel) by (rewrite length_app; lia).
    rewrite (loop_fuel (S fuel) fuel rest) by lia.
    cbn [layout app fst snd]. by rewrite zlen_app, Z.add_assoc.
Qed.

(** Nothing is read from a record that is cut short. *)
Lemma loop_torn fuel p n o :
  valid p -> (n < length (enc p))%nat -> readSegment_loop fuel (take n (enc p)) o = ([], o).
Proof.
  intros Hv Hn. destruct fuel as [|fuel]; [done|]. cbn [readSegment_loop].
  pose proof (zlen_enc p) as HE. unfold zlen at 1, recordHeaderSize in HE. rewrite zlen_take.
  destruct (Z.ltb_spec (Z.min (Z.of_nat n) (zlen (enc p))) recordHeaderSize) as [_|H8]; [done|].
  unfold recordHeaderSize in H8.
  assert (exists m, n = (8 + m)%nat /\ (m < length p)%nat) as (m & -> & Hm).
  { exists (n - 8)%nat. unfold zlen in *. lia. }
  assert (take (8 + m) (enc p) = u32 (zlen p) ++ u32 (ChecksumIEEE p) ++ take m p) as -> by reflexivity.
  rewrite header_len, header_rest, Uint32_u32_nil by by apply valid_u32.
  destruct Hv as [Hp Hx]. destruct (Z.eqb_spec (zlen p) 0) as [?|_]; [lia|].
  destruct (Z.ltb_spec maxRecordBytes (zlen p)) as [?|_]; [lia|]. cbn [orb].
  destruct (Z.ltb_spec (zlen (take m p)) (zlen p)) as [_|H]; [done|].
  rewrite zlen_take in H. unfold zlen in H. lia.
Qed.

(** Encoded records cut at any byte are some of the records, and a part of
    the next one. *)
Lemma encs_take ps n :
  exists k m, (k <= length ps)%nat /\
    take n (encs ps) = encs (take k ps) ++ from_option (fun p => take m (enc p)) [] (ps !! k) /\
    (forall p, ps !! k = Some p -> (m < length (enc p))%nat).
Proof.
  revert n. induction ps as [|p ps IH]; intros n.
  - exists 0%nat, 0%nat. split; [cbn; lia|]. split; [by destruct n|done].
  - rewrite encs_cons. destruct (decide (n < length (enc p))%nat) as [Hn|Hn].
    + exists 0%nat, n. split; [cbn; lia|]. split; [|by intros ? [= <-]].
      by rewrite take_app_le by lia.
    + destruct (IH (n - length (enc p))%nat) as (k & m & Hk & E & Hm).
      exists (S k), m. split; [cbn; lia|]. split; [|done].
      rewrite take_app_ge by lia. rewrite E. change (take (S k) (p :: ps)) with (p :: take k ps).
      change ((p :: ps) !! S k) with (ps !! k). by rewrite encs_cons, <-app_assoc.
Qed.

(** The scan of a segment cut at any byte. *)
Lemma scan_take ps n :
  Forall valid ps ->
  exists k, (k <= length ps)%nat /\
    scan (take n (encs ps)) = (layout 0 (take k ps), zlen (encs (take k ps))) /\
    (length (encs (take k ps)) <= n)%nat /\
    ((k < length ps)%nat -> (n < length (encs (take (S k) ps)))%nat).
Proof.
  intros Hps. destruct (encs_take ps n) as (k & m & Hk & E & Hm). exists k. split; [done|].
  assert (Forall valid (take k ps)) as Htk by by apply Forall_take.
  assert (length (encs (take k ps)) <= n)%nat.
  { assert (length (take n (encs ps)) <= n)%nat by (rewrite length_take; lia).
    rewrite E, length_app in *. lia. }
  split; [|split; [done|]].
  - unfold scan. rewrite E, loop_encs, Z.add_0_l by (done || lia).
    destruct (ps !! k) as [p|] eqn:Hp; cbn [from_option].
    + rewrite loop_torn; [by cbn; rewrite app_nil_r|exact (Forall_lookup_1 _ _ _ _ Hps Hp)|by apply Hm].
    + cbn. by rewrite app_nil_r.
  - intros Hlt. destruct (lookup_lt_is_Some_2 ps k Hlt) as [p Hp]. specialize (Hm p Hp).
    rewrite (take_S_r ps k p Hp), encs_snoc, length_app.
    rewrite Hp in E. cbn [from_option] in E. apply (f_equal length) in E.
    rewrite length_app, !length_take in E.
    assert (length (encs (take k ps)) + length (enc p) <= length (encs ps))%nat.
    { rewrite <-(take_drop (S k) ps) at 2. rewrite encs_app, (take_S_r ps k p Hp), encs_snoc, !length_app. lia. }
    lia.
Qed.

(** Whatever the scan accepts is the encoding of valid records. *)
Lemma loop_sound fuel data o :
  exists ps tail, data = encs ps ++ tail /\ Forall valid ps /\
    readSegment_loop fuel data o = (layout o ps, o + zlen (encs ps)).
Proof.
  revert data o. induction fuel as [|fuel IH]; intros data o.
  { exists [], data. cbn. split_and!; [done|done|]. f_equal. unfold zlen. cbn. lia. }
  assert (exists ps tail, data = encs ps ++ tail /\ Forall valid ps /\
    ([], o) = (layout o ps, o + zlen (encs ps))) as Hstop.
  { exists [], data. cbn. split_and!; [done|done|]. f_equal. unfold zlen. cbn. lia. }
  cbn [readSegment_loop].
  destruct (Z.ltb_spec (zlen data) recordHeaderSize) as [|H8]; [done|].
  destruct data as [|b0 [|b1 [|b2 [|b3 [|b4 [|b5 [|b6 [|b7 data]]]]]]]]; cbn in H8; try (exfalso; unfold zlen, recordHeaderSize in H8; cbn in H8; lia).
  change (zslice 0 4 (b0 :: b1 :: b2 :: b3 :: b4 :: b5 :: b6 :: b7 :: data)) with [b0; b1; b2; b3].
  change (zslice 4 8 (b0 :: b1 :: b2 :: b3 :: b4 :: b5 :: b6 :: b7 :: data)) with [b4; b5; b6; b7].
  change (drop (Z.to_nat recordHeaderSize) (b0 :: b1 :: b2 :: b3 :: b4 :: b5 :: b6 :: b7 :: data)) with data.
  pose proof (u32_Uint32 b0 b1 b2 b3 []) as Hl. pose proof (u32_Uint32 b4 b5 b6 b7 []) as Hc.
  set (len := Uint32 [b0; b1; b2; b3]) in *. set (crc := Uint32 [b4; b5; b6; b7]) in *.
  destruct (Z.eqb_spec len 0) as [|Hn0]; [done|]. destruct (Z.ltb_spec maxRecordBytes len) as [|Hmax]; [done|].
  cbn [orb]. destruct (Z.ltb_spec (zlen data) len) as [|Hfit]; [done|].
  destruct (Z.eqb_spec (ChecksumIEEE (take (Z.to_nat len) data)) crc) as [Hcrc|]; [|done]. cbn [negb].
  assert (0 <= len).
  { apply Uint32_nonneg. }
  assert (zlen (take (Z.to_nat len) data) = len) as Hlen by (rewrite zlen_take; lia).
  destruct (IH (drop (Z.to_nat len) data) (o + (recordHeaderSize + len))) as (ps & tail & E & Hps & ->).
  exists (take (Z.to_nat len) data :: ps), tail. split_and!.
  - rewrite encs_cons, <-app_assoc, <-E. unfold enc. rewrite Hlen, Hcrc, Hl, Hc.
    rewrite <-!app_assoc, take_drop. done.
  - constructor; [|done]. unfold valid. lia.
  - rewrite encs_cons, zlen_app. cbn [layout fst snd]. rewrite zlen_enc, Hlen. f_equal. lia.
Qed.

Lemma scan_sound data :
  exists ps tail, data = encs ps ++ tail /\ Forall valid ps /\
    scan data = (layout 0 ps, zlen (encs ps)).
Proof. apply loop_sound. Qed.

(** The scan of encoded records followed by anything. *)
Lemma scan_encs ps rest :
  Forall valid ps ->
  exists qs, scan (encs ps ++ rest) = (layout 0 (ps ++ qs), zlen (encs (ps ++ qs))).
Proof.
  intros Hps. unfold scan. rewrite loop_encs, Z.add_0_l by (done || lia).
  destruct (loop_sound (S (length (encs ps ++ rest))) rest (zlen (encs ps))) as (qs & tail & _ & _ & ->).
  exists qs. cbn. by rewrite layout_app, encs_app, zlen_app.
Qed.

End WalFormat.
