(* ===== verification/WalStore.v ===== *)
(** * Segments and their files

    The invariant of a segment: its file starts with the records appended to
    it, its counters count them, and the positions it has seen acknowledged
    are positions of records.  Every operation of a single segment keeps it. *)

From S2P Require Import Prelude Wal WalFormat.
From Stdlib Require Import Strings.Byte.

Module WalStore.
Import Wal WalFormat.

(** The position of record [i] of the records [ps]. *)
Definition pos_of (ps : list bytes) (i : nat) : Z := zlen (encs (take i ps)).

(** The records of a segment: what a scan of its written part finds. *)
Definition seg_records (d : disk) (s : segmentRef) : list rawRecord :=
  (scan (take (Z.to_nat (size s)) (os_data (path s) d))).1.

(** A position the segment has seen acknowledged. *)
Definition consumed (s : segmentRef) (pos : Z) : Prop := pos < pendingPosition s \/ pos ∈ acked s.

(** The acknowledged positions of a segment with records [ps]: the first [k]
    records, and those of [acked]. *)
Record acks_at (s : segmentRef) (ps : list bytes) (k : nat) : Prop := {
  ao_le : (k <= length ps)%nat;
  ao_pending : pendingPosition s = pos_of ps k;
  ao_acked : forall x, x ∈ acked s -> exists i, (k <= i < length ps)%nat /\ x = pos_of ps i;
  ao_unacked : unacked s = zlen ps - Z.of_nat k - Z.of_nat (base.size (acked s))
}.

Record seg_ok (d : disk) (s : segmentRef) (ps : list bytes) : Prop := {
  so_valid : Forall valid ps;
  so_size : size s = zlen (encs ps);
  so_records : records s = zlen ps;
  so_file : exists f, d_files d !! path s = Some f /\ prefix (encs ps) (f_data f);
  so_path : path s = segment_name (id s);
  so_acks : exists k, acks_at s ps k
}.

(** ** Positions *)

Lemma pos_of_0 ps : pos_of ps 0 = 0.
Proof. done. Qed.

Lemma pos_of_S ps i p : ps !! i = Some p -> pos_of ps (S i) = pos_of ps i + zlen (enc p).
Proof. intros Hp. unfold pos_of. by rewrite (take_S_r _ _ _ Hp), encs_snoc, zlen_app. Qed.

Lemma pos_of_all ps i : (length ps <= i)%nat -> pos_of ps i = zlen (encs ps).
Proof. intros Hi. unfold pos_of. by rewrite take_ge. Qed.

Lemma pos_of_app ps qs i : (i <= length ps)%nat -> pos_of (ps ++ qs) i = pos_of ps i.
Proof. intros Hi. unfold pos_of. by rewrite take_app_le. Qed.

Lemma pos_of_app_r ps qs i : pos_of (ps ++ qs) (length ps + i) = zlen (encs ps) + pos_of qs i.
Proof. unfold pos_of. by rewrite take_app_add, encs_app, zlen_app. Qed.

Lemma pos_of_nonneg ps i : 0 <= pos_of ps i.
Proof. apply zlen_nonneg. Qed.

Lemma pos_of_lt ps i j : (i < j)%nat -> (i < length ps)%nat -> pos_of ps i < pos_of ps j.
Proof.
  intros Hij Hi. destruct (lookup_lt_is_Some_2 ps i Hi) as [p Hp].
  assert (take j ps = take i ps ++ p :: take (j - S i) (drop (S i) ps)) as E.
  { rewrite <-(take_drop_middle ps i p Hp) at 1.
    assert (length (take i ps) = i) as Hl by (rewrite length_take; lia).
    rewrite take_app_ge by lia. rewrite Hl. replace (j - i)%nat with (S (j - S i)) by lia. done. }
  unfold pos_of. rewrite E, encs_app, encs_cons, !zlen_app, zlen_enc.
  pose proof (zlen_nonneg p). pose proof (zlen_nonneg (encs (take (j - S i) (drop (S i) ps)))).
  unfold recordHeaderSize. lia.
Qed.

Lemma pos_of_inj ps i j :
  (i <= length ps)%nat -> (j <= length ps)%nat -> pos_of ps i = pos_of ps j -> i = j.
Proof.
  intros Hi Hj E. destruct (Nat.lt_trichotomy i j) as [H|[H|H]]; [|done|].
  - pose proof (pos_of_lt ps i j H ltac:(lia)). lia.
  - pose proof (pos_of_lt ps j i H ltac:(lia)). lia.
Qed.

Lemma pos_of_le ps i j : (i <= j)%nat -> pos_of ps i <= pos_of ps j.
Proof.
  intros Hij. destruct (decide (i < length ps)%nat) as [Hi|Hi].
  - destruct (decide (i = j)) as [->|]; [done|]. pose proof (pos_of_lt ps i j ltac:(lia) Hi). lia.
  - rewrite !pos_of_all by lia. done.
Qed.

(** The records of a layout are its payloads at their positions. *)
Lemma elem_of_layout r ps :
  r ∈ layout 0 ps <-> exists i p, ps !! i = Some p /\ r = mkRaw (pos_of ps i) p.
Proof.
  rewrite list_elem_of_lookup. split.
  - intros [i Hi]. rewrite layout_lookup in Hi. destruct (ps !! i) as [p|] eqn:Hp; [|done].
    cbn in Hi. exists i, p. split; [done|]. by injection Hi as <-.
  - intros (i & p & Hp & ->). exists i. by rewrite layout_lookup, Hp.
Qed.

(** ** The records of a segment *)

Lemma layout_inj ps r r' : r ∈ layout 0 ps -> r' ∈ layout 0 ps -> position r = position r' -> r = r'.
Proof.
  intros (i & p & Hp & ->)%elem_of_layout (j & q & Hq & ->)%elem_of_layout. cbn. intros E.
  apply pos_of_inj in E; [|apply lookup_lt_Some in Hp, Hq; lia..]. subst. congruence.
Qed.

Lemma scan_exact ps : Forall valid ps -> scan (encs ps) = (layout 0 ps, zlen (encs ps)).
Proof.
  intros Hps. destruct (scan_sound (encs ps)) as (qs & tail & E & Hqs & Hs).
  destruct (scan_encs ps [] Hps) as [rs Hr]. rewrite app_nil_r, Hs in Hr.
  injection Hr as Hl Hz. rewrite Hs. rewrite encs_app, zlen_app in Hz.
  apply (f_equal zlen) in E. rewrite zlen_app in E. pose proof (zlen_nonneg tail).
  destruct rs as [|r rs]; [by rewrite app_nil_r in Hl; rewrite Hl, Hz; f_equal; unfold zlen; cbn; lia|].
  rewrite encs_cons, zlen_app, zlen_enc in Hz. pose proof (zlen_nonneg r). pose proof (zlen_nonneg (encs rs)).
  unfold recordHeaderSize in Hz. lia.
Qed.

Lemma seg_ok_data d s ps :
  seg_ok d s ps -> take (Z.to_nat (size s)) (os_data (path s) d) = encs ps.
Proof.
  intros Hok. destruct (so_file _ _ _ Hok) as (f & Hf & [tail E]).
  unfold os_data. rewrite Hf, (so_size _ _ _ Hok), to_nat_zlen. cbn. by rewrite E, take_app_length.
Qed.

Lemma seg_ok_records d s ps : seg_ok d s ps -> seg_records d s = layout 0 ps.
Proof.
  intros Hok. unfold seg_records. rewrite (seg_ok_data _ _ _ Hok), scan_exact; [done|].
  apply (so_valid _ _ _ Hok).
Qed.

Lemma seg_ok_inj d s ps qs : seg_ok d s ps -> seg_ok d s qs -> ps = qs.
Proof.
  intros H1%seg_ok_records H2%seg_ok_records. rewrite H1 in H2.
  rewrite <-(payload_layout 0 ps), <-(payload_layout 0 qs). by rewrite H2.
Qed.

(** A change of the disk that keeps the written part of the file. *)
Lemma seg_ok_disk d d' s ps f :
  seg_ok d s ps -> d_files d' !! path s = Some f -> prefix (encs ps) (f_data f) -> seg_ok d' s ps.
Proof. intros [] Hf Hp. split; eauto. Qed.

Lemma seg_ok_set_file d h s ps : seg_ok d s ps -> seg_ok d (seg_set_file h s) ps.
Proof. intros [? ? ? ? ? [k []]]. split; [done..|]. by exists k. Qed.

(** More records at the end of the written part. *)
Lemma seg_ok_publish d s ps qs :
  seg_ok d s ps -> Forall valid qs ->
  (exists f, d_files d !! path s = Some f /\ prefix (encs (ps ++ qs)) (f_data f)) ->
  seg_ok d (seg_publish (zlen qs) (zlen (encs (ps ++ qs))) s) (ps ++ qs).
Proof.
  intros [Hv Hs Hr _ Hp [k [Hk Hpend Hack Hun]]] Hqs Hf. split; cbn; [..|].
  - by apply Forall_app.
  - done.
  - rewrite Hr. by rewrite zlen_app.
  - done.
  - done.
  - exists k. split; cbn.
    + rewrite length_app. lia.
    + by rewrite pos_of_app.
    + intros x (i & Hi & ->)%Hack. exists i. rewrite length_app, pos_of_app by lia. split; [lia|done].
    + rewrite zlen_app, Hun. lia.
Qed.

(** ** Acknowledgement *)

#[export] Instance consumed_dec s pos : Decision (consumed s pos).
Proof. unfold consumed. apply _. Defined.

Lemma seg_ok_ack d s ps pos i :
  seg_ok d s ps -> (i < length ps)%nat -> pos = pos_of ps i -> seg_ok d (seg_ack pos s) ps.
Proof.
  intros [Hv Hs Hr Hf Hp [k [Hk Hpend Hack Hun]]] Hi ->. unfold seg_ack.
  destruct ((pos_of ps i <? pendingPosition s) || (pos_of ps i <? 0) || (size s <=? pos_of ps i) || (unacked s =? 0)) eqn:E.
  { split; try done. exists k. by split. }
  case_bool_decide as Hin. { split; try done. exists k. by split. }
  rewrite !orb_false_iff, Z.ltb_ge in E. destruct E as [[[Hge _] _] _].
  assert (k <= i)%nat.
  { destruct (decide (k <= i)%nat) as [|Hlt]; [done|]. exfalso.
    pose proof (pos_of_lt ps i k ltac:(lia) Hi). lia. }
  split; try done. exists k. split; cbn; try done.
  - intros x [->%elem_of_singleton|Hx]%elem_of_union; [exists i; split; [lia|done]|auto].
  - rewrite size_union, size_singleton by by apply disjoint_singleton_l. lia.
Qed.

Lemma consumed_ack pos s x : consumed (seg_ack pos s) x -> consumed s x \/ x = pos.
Proof. unfold seg_ack, consumed. repeat case_match; cbn; rewrite ?elem_of_union, ?elem_of_singleton; tauto. Qed.

Lemma consumed_ack_mono pos s x : consumed s x -> consumed (seg_ack pos s) x.
Proof. unfold seg_ack, consumed. repeat case_match; cbn; rewrite ?elem_of_union, ?elem_of_singleton; tauto. Qed.

Lemma positions_layout ps : position <$> layout 0 ps = pos_of ps <$> seq 0 (length ps).
Proof.
  apply list_eq. intros i. rewrite !list_lookup_fmap, layout_lookup.
  destruct (ps !! i) as [p|] eqn:Hi; cbn.
  - rewrite lookup_seq_lt by by eapply lookup_lt_Some. done.
  - rewrite lookup_seq_ge by by apply lookup_ge_None. done.
Qed.

Lemma NoDup_positions ps : NoDup (position <$> layout 0 ps).
Proof.
  rewrite positions_layout. apply NoDup_fmap_2_strong; [|apply NoDup_seq].
  intros i j Hi%elem_of_seq Hj%elem_of_seq. apply pos_of_inj; lia.
Qed.

(** [unacked] is the number of records not seen acknowledged. *)
Lemma unacked_count d s ps :
  seg_ok d s ps ->
  unacked s = zlen (filter (fun r => ~ consumed s (position r)) (layout 0 ps)).
Proof.
  intros [_ _ _ _ _ [k [Hk Hpend Hack Hun]]].
  set (C := filter (consumed s) (position <$> layout 0 ps)).
  assert (zlen C = Z.of_nat k + Z.of_nat (base.size (acked s))) as HC.
  { assert (NoDup C) as Hnd by apply list.NoDup_filter, NoDup_positions.
    set (X := list_to_set (pos_of ps <$> seq 0 k) : gset Z).
    assert (base.size X = k) as HX.
    { unfold X. rewrite size_list_to_set, length_fmap, length_seq; [done|].
      apply NoDup_fmap_2_strong; [|apply NoDup_seq]. intros i j Hi%elem_of_seq Hj%elem_of_seq. apply pos_of_inj; lia. }
    assert (list_to_set C = X ∪ acked s) as E.
    { apply set_eq. intros x. unfold C, X. rewrite elem_of_list_to_set, list_elem_of_filter, positions_layout.
      rewrite elem_of_union, elem_of_list_to_set, !list_elem_of_fmap. unfold consumed. rewrite Hpend. split.
      - intros [[Hlt|Hx] (i & -> & Hi%elem_of_seq)]; [left; exists i|by right].
        split; [done|]. apply elem_of_seq. destruct (decide (i < k)%nat); [lia|].
        pose proof (pos_of_le ps k i ltac:(lia)). lia.
      - intros [(i & -> & Hi%elem_of_seq)|Hx].
        + split; [left; apply pos_of_lt; lia|]. exists i. split; [done|]. apply elem_of_seq. lia.
        + split; [by right|]. destruct (Hack x Hx) as (i & Hi & ->). exists i. split; [done|]. apply elem_of_seq. lia. }
    unfold zlen. rewrite <-(size_list_to_set (C := gset Z) C Hnd), E, size_union, HX; [lia|].
    intros x (i & -> & Hi%elem_of_seq)%elem_of_list_to_set%list_elem_of_fmap Hx.
    destruct (Hack _ Hx) as (j & Hj & Eij). apply pos_of_inj in Eij; lia. }
  assert (zlen (filter (fun r => consumed s (position r)) (layout 0 ps)) = zlen C) as HF.
  { unfold C, zlen. rewrite filter_fmap, length_fmap. done. }
  assert (forall l, zlen (filter (fun r => consumed s (position r)) l)
    + zlen (filter (fun r => ~ consumed s (position r)) l) = zlen l) as Hsum.
  { intros l. induction l as [|r l IH]; [done|]. rewrite !filter_cons.
    repeat case_decide; try done; rewrite !zlen_cons; lia. }
  specialize (Hsum (layout 0 ps)). unfold zlen in *. rewrite length_layout in Hsum. lia.
Qed.

(** A segment with nothing outstanding has had every record acknowledged. *)
Lemma all_consumed d s ps r :
  seg_ok d s ps -> unacked s <= 0 -> r ∈ layout 0 ps -> consumed s (position r).
Proof.
  intros Hok Hu Hr. rewrite (unacked_count _ _ _ Hok) in Hu.
  destruct (decide (consumed s (position r))) as [|Hn]; [done|]. exfalso.
  assert (r ∈ filter (fun r => ~ consumed s (position r)) (layout 0 ps)) as Hin by by apply list_elem_of_filter.
  destruct (filter _ _) as [|r' l]; [by apply not_elem_of_nil in Hin|]. rewrite zlen_cons in Hu.
  pose proof (zlen_nonneg l). lia.
Qed.

Lemma unacked_nonneg d s ps : seg_ok d s ps -> 0 <= unacked s.
Proof. intros Hok. rewrite (unacked_count _ _ _ Hok). apply zlen_nonneg. Qed.

End WalStore.
