(* ===== verification/WalRead.v ===== *)
(** * Reading the pending records of a segment

    The loop of [readPendingSegment], which parses headers from a read window
    and remembers the prefix of acknowledged records, returns exactly the
    records of the segment that are not acknowledged and not skipped. *)

From S2P Require Import Prelude Wal WalFormat WalStore.
From Stdlib Require Import Strings.Byte.

Module WalRead.
Import Wal WalFormat WalStore.

(** ** Slices *)

Lemma zslice_zslice {A} a b s e (l : list A) :
  0 <= s -> 0 <= a <= b -> s + b <= e -> zslice a b (zslice s e l) = zslice (s + a) (s + b) l.
Proof.
  intros Hs Ha He. unfold zslice. rewrite skipn_firstn_comm, firstn_firstn, drop_drop.
  f_equal; [lia|]. f_equal. lia.
Qed.

Lemma zlen_zslice {A} s e (l : list A) : 0 <= s <= e -> e <= zlen l -> zlen (zslice s e l) = e - s.
Proof. intros Hs He. unfold zslice, zlen in *. rewrite length_take, length_drop. lia. Qed.

Lemma zslice_app_r {A} a b (l k : list A) :
  zlen l <= a -> zslice a b (l ++ k) = zslice (a - zlen l) (b - zlen l) k.
Proof.
  intros Ha. unfold zslice. rewrite drop_app_ge by (unfold zlen in *; lia).
  f_equal; [lia|]. f_equal. unfold zlen in *. lia.
Qed.

Lemma zslice_app_l {A} b (l k : list A) : 0 <= b <= zlen l -> zslice 0 b (l ++ k) = take (Z.to_nat b) l.
Proof. intros Hb. unfold zslice. rewrite drop_0, Z.sub_0_r, take_app_le; [done|]. unfold zlen in *. lia. Qed.

Lemma zslice_all {A} (l k : list A) : zslice 0 (zlen l) (l ++ k) = l.
Proof. rewrite zslice_app_l by (pose proof (zlen_nonneg l); lia). by rewrite to_nat_zlen, firstn_all. Qed.

(** Record [i] in the bytes of a segment. *)
Section record.
Variables (ps : list bytes) (tail : bytes) (i : nat) (p : bytes).
Hypothesis Hp : ps !! i = Some p.

Lemma encs_split : encs ps ++ tail = encs (take i ps) ++ enc p ++ encs (drop (S i) ps) ++ tail.
Proof using Hp.
  rewrite <-(take_drop_middle ps i p Hp) at 1. by rewrite encs_app, encs_cons, <-!app_assoc.
Qed.

Lemma header_at :
  zslice (pos_of ps i) (pos_of ps i + recordHeaderSize) (encs ps ++ tail) = u32 (zlen p) ++ u32 (ChecksumIEEE p).
Proof using Hp.
  rewrite encs_split, zslice_app_r by (unfold pos_of; lia).
  unfold pos_of. rewrite Z.sub_diag, Z.add_simpl_l. unfold enc. rewrite <-!app_assoc. done.
Qed.

Lemma payload_at :
  zslice (pos_of ps i + recordHeaderSize) (pos_of ps i + recordHeaderSize + zlen p) (encs ps ++ tail) = p.
Proof using Hp.
  rewrite encs_split, zslice_app_r by (unfold pos_of, recordHeaderSize; lia).
  unfold enc. rewrite <-app_assoc, <-app_assoc, (app_assoc (u32 _)).
  rewrite zslice_app_r by (unfold pos_of, recordHeaderSize; rewrite zlen_app, !zlen_u32; lia).
  rewrite zlen_app, !zlen_u32. unfold pos_of, recordHeaderSize.
  replace (zlen (encs (take i ps)) + 8 - zlen (encs (take i ps)) - (4 + 4)) with 0 by lia.
  replace (zlen (encs (take i ps)) + 8 + zlen p - zlen (encs (take i ps)) - (4 + 4)) with (zlen p) by lia.
  by rewrite zslice_all.
Qed.

Lemma next_at : pos_of ps i + recordHeaderSize + zlen p = pos_of ps (S i).
Proof using Hp. rewrite (pos_of_S _ _ _ Hp), zlen_enc. lia. Qed.
End record.

(** ** The read position *)

(** [s] is [s0] with its read position advanced over acknowledged records. *)
Record advanced (ps : list bytes) (s0 s : segmentRef) : Prop := {
  ad_id : id s = id s0;
  ad_path : path s = path s0;
  ad_file : sfile s = sfile s0;
  ad_size : size s = size s0;
  ad_records : records s = records s0;
  ad_unacked : unacked s = unacked s0;
  ad_consumed : forall j, (j < length ps)%nat -> consumed s (pos_of ps j) <-> consumed s0 (pos_of ps j)
}.

Lemma advanced_refl ps s : advanced ps s s.
Proof. by split. Qed.

(** The step of the read position over record [i]. *)
Lemma advance_step d ps s0 s i :
  seg_ok d s ps -> advanced ps s0 s -> (i < length ps)%nat ->
  pos_of ps i ∈ acked s -> pendingPosition s = pos_of ps i ->
  let s' := seg_set_acks (unacked s) (acked s ∖ {[pos_of ps i]}) (pos_of ps (S i)) s in
  seg_ok d s' ps /\ advanced ps s0 s'.
Proof.
  intros [Hv Hs Hr Hf Hp [k [Hk Hpend Hack Hun]]] [] Hi Hin HP s'.
  assert (k = i) as -> by (apply (pos_of_inj ps); [lia|lia|congruence]).
  split; [split; try done|].
  - exists (S i). split; cbn.
    + lia.
    + done.
    + intros x [Hx Hne]%elem_of_difference. destruct (Hack x Hx) as (j & Hj & ->). exists j. split; [|done].
      assert (j <> i) by (intros ->; by apply Hne, elem_of_singleton). lia.
    + assert (base.size (acked s ∖ {[pos_of ps i]}) + 1 = base.size (acked s))%nat; [|lia].
      rewrite size_difference, size_singleton by by apply singleton_subseteq_l.
      assert (base.size (acked s) <> 0)%nat; [|lia]. intros E%size_empty_inv. by rewrite E in Hin; apply elem_of_empty in Hin.
  - split; try done. intros j Hj. rewrite <-ad_consumed0 by done. unfold consumed. cbn.
    rewrite HP, elem_of_difference, elem_of_singleton.
    destruct (Nat.lt_trichotomy j i) as [H|[-> |H]].
    + pose proof (pos_of_lt ps j i H Hj). pose proof (pos_of_lt ps j (S i) ltac:(lia) Hj). tauto.
    + pose proof (pos_of_lt ps i (S i) ltac:(lia) Hi). tauto.
    + pose proof (pos_of_le ps (S i) j ltac:(lia)). pose proof (pos_of_lt ps i j H Hi).
      split; intros [?|?]; (right; tauto) || lia || (right; split; [done|lia]).
Qed.

(** ** The loop *)

Definition skipped (skip : option (Offset -> bool)) (off : Offset) : bool :=
  match skip with Some f => f off | None => false end.

(** A record [ReadPending] is to return: not acknowledged, not skipped. *)
Definition wanted (skip : option (Offset -> bool)) (s : segmentRef) (r : rawRecord) : Prop :=
  ~ consumed s (position r) /\ skipped skip (mkOffset (id s) (position r)) = false.

#[export] Instance wanted_dec skip s r : Decision (wanted skip s r).
Proof. unfold wanted. apply _. Defined.

Definition to_record (sid : Z) (r : rawRecord) : WRecord := mkRecord (mkOffset sid (position r)) (payload r).

(** The records to return from record [i] on. *)
Definition pending_from (skip : option (Offset -> bool)) (s : segmentRef) (rs : list rawRecord) : list WRecord :=
  to_record (id s) <$> filter (wanted skip s) rs.

(** The window holds bytes of the file, from at most [pos] on. *)
Definition window_ok (data : bytes) (pos : Z) (window : option (Z * bytes)) : Prop :=
  match window with
  | None => True
  | Some (start, win) =>
      0 <= start <= pos /\ win = zslice start (start + zlen win) data /\ start + zlen win <= zlen data
  end.

Section loop.
Variables (env : readEnv) (limit : Z) (skip : option (Offset -> bool)).
Variables (d : disk) (data : bytes) (ps : list bytes) (s0 : segmentRef).
Hypothesis Hdata : prefix (encs ps) data.

Lemma data_fits : zlen (encs ps) <= zlen data.
Proof using Hdata. destruct Hdata as [t ->]. rewrite zlen_app. pose proof (zlen_nonneg t). lia. Qed.

(** The window a header is parsed from holds the header. *)
Lemma refill_ok name i p window :
  ps !! i = Some p -> window_ok data (pos_of ps i) window ->
  match refill env name data (zlen (encs ps)) (pos_of ps i) window with
  | inl _ => exists pos e, r_read env name pos = Some e
  | inr (start, win) =>
      window_ok data (pos_of ps i) (Some (start, win)) /\ pos_of ps i - start + recordHeaderSize <= zlen win
  end.
Proof using Hdata.
  intros Hp Hw. pose proof (next_at ps i p Hp) as Hn. pose proof (zlen_nonneg p). pose proof data_fits.
  pose proof (pos_of_nonneg ps i).
  assert (pos_of ps (S i) <= zlen (encs ps)).
  { rewrite <-(pos_of_all ps (length ps)) by done. apply pos_of_le. by apply lookup_lt_Some in Hp. }
  assert (match (match ReadAt env name data (Z.min pendingReadWindow (zlen (encs ps) - pos_of ps i)) (pos_of ps i) with
          | inl e => inl e | inr win => inr (pos_of ps i, win) end) with
    | inl _ => exists pos e, r_read env name pos = Some e
    | inr (start, win) =>
        window_ok data (pos_of ps i) (Some (start, win)) /\ pos_of ps i - start + recordHeaderSize <= zlen win
    end) as Hfresh.
  { unfold ReadAt. destruct (r_read env name (pos_of ps i)) as [e|] eqn:E; [eauto|].
    set (n := Z.min pendingReadWindow (zlen (encs ps) - pos_of ps i)).
    assert (recordHeaderSize <= n /\ pos_of ps i + n <= zlen data) as [].
    { unfold n, pendingReadWindow, recordHeaderSize in *. change (Z.shiftl 64 10) with 65536. lia. }
    destruct (Z.ltb_spec (zlen data) (pos_of ps i + n)) as [?|_]; [lia|].
    unfold recordHeaderSize in *. cbn [window_ok]. rewrite !zlen_zslice by lia.
    replace (pos_of ps i + (pos_of ps i + n - pos_of ps i)) with (pos_of ps i + n) by lia.
    split_and!; [lia|lia|done|lia|lia]. }
  unfold refill. cbv zeta. destruct window as [[start win]|]; [|done].
  destruct (Z.ltb_spec (zlen win) (pos_of ps i - start + recordHeaderSize)) as [?|?]; [done|]. by split.
Qed.

(** What a loop that starts at record [i] returns. *)
Definition loop_post (i : nat) (out : list WRecord) (r : option error * segmentRef * list WRecord) : Prop :=
  let '(e, s, out') := r in
  seg_ok d s ps /\ advanced ps s0 s /\
  match e with
  | None => out' = out ++ take (Z.to_nat (limit - zlen out)) (pending_from skip s0 (drop i (layout 0 ps)))
  | Some _ => exists name pos e, r_read env name pos = Some e
  end.

Lemma drop_layout i p : ps !! i = Some p -> drop i (layout 0 ps) = mkRaw (pos_of ps i) p :: drop (S i) (layout 0 ps).
Proof. intros Hp. apply drop_S. by rewrite layout_lookup, Hp. Qed.

Lemma loop_post_skip i p out r :
  ps !! i = Some p -> ~ wanted skip s0 (mkRaw (pos_of ps i) p) ->
  loop_post (S i) out r -> loop_post i out r.
Proof.
  intros Hp Hw. unfold loop_post, pending_from. destruct r as [[e s] out'].
  by rewrite (drop_layout i p Hp), filter_cons_False by done.
Qed.

Lemma loop_post_take i p out r :
  ps !! i = Some p -> wanted skip s0 (mkRaw (pos_of ps i) p) -> zlen out < limit ->
  loop_post (S i) (out ++ [to_record (id s0) (mkRaw (pos_of ps i) p)]) r -> loop_post i out r.
Proof.
  intros Hp Hw Hl. unfold loop_post, pending_from. destruct r as [[e s] out'].
  rewrite (drop_layout i p Hp), filter_cons_True by done.
  intros (? & ? & H). split_and!; [done..|]. destruct e; [done|]. rewrite H, fmap_cons, zlen_app.
  change (zlen [_]) with 1. replace (Z.to_nat (limit - zlen out)) with (S (Z.to_nat (limit - (zlen out + 1)))) by lia.
  by rewrite <-app_assoc.
Qed.

Lemma loop_post_stop i out s :
  seg_ok d s ps -> advanced ps s0 s -> (length ps <= i)%nat \/ limit <= zlen out ->
  loop_post i out (None, s, out).
Proof.
  intros Hok Had Hstop. unfold loop_post. split_and!; [done..|]. unfold pending_from.
  destruct Hstop as [Hi|Hl].
  - rewrite drop_ge by (by rewrite length_layout). rewrite filter_nil, fmap_nil, take_nil. by rewrite app_nil_r.
  - replace (Z.to_nat (limit - zlen out)) with 0%nat by lia. by rewrite take_0, app_nil_r.
Qed.

(** Parsing the header of record [i] from a window that holds it. *)
Lemma parse_header i p start win :
  Forall valid ps -> ps !! i = Some p -> window_ok data (pos_of ps i) (Some (start, win)) ->
  pos_of ps i - start + recordHeaderSize <= zlen win ->
  let rel := pos_of ps i - start in
  zslice rel (rel + recordHeaderSize) win = u32 (zlen p) ++ u32 (ChecksumIEEE p) /\
  (rel + recordHeaderSize + zlen p <= zlen win ->
   zslice (rel + recordHeaderSize) (rel + recordHeaderSize + zlen p) win = p).
Proof using Hdata.
  intros Hv Hp ([Hs0 Hs] & Hw & Hfit) Hlen rel. destruct Hdata as [t Ht].
  pose proof (zlen_nonneg p). unfold recordHeaderSize in *.
  split; [|intros Hpl]; rewrite Hw, zslice_zslice by (unfold rel in *; lia); unfold rel.
  - replace (start + (pos_of ps i - start)) with (pos_of ps i) by lia.
    replace (start + (pos_of ps i - start + 8)) with (pos_of ps i + recordHeaderSize) by (unfold recordHeaderSize; lia).
    rewrite Ht. by apply header_at.
  - replace (start + (pos_of ps i - start + 8)) with (pos_of ps i + recordHeaderSize) by (unfold recordHeaderSize; lia).
    replace (start + (pos_of ps i - start + 8 + zlen p)) with (pos_of ps i + recordHeaderSize + zlen p)
      by (unfold recordHeaderSize; lia).
    rewrite Ht. by apply payload_at.
Qed.

(** The payload of record [i], from the window or from the file. *)
Lemma read_payload name i p start win :
  Forall valid ps -> ps !! i = Some p -> window_ok data (pos_of ps i) (Some (start, win)) ->
  pos_of ps i - start + recordHeaderSize <= zlen win ->
  match (if pos_of ps i - start + recordHeaderSize + zlen p <=? zlen win
         then inr (zslice (pos_of ps i - start + recordHeaderSize) (pos_of ps i - start + recordHeaderSize + zlen p) win)
         else ReadAt env name data (zlen p) (pos_of ps i + recordHeaderSize)) with
  | inl _ => exists pos e, r_read env name pos = Some e
  | inr q => q = p
  end.
Proof using Hdata.
  intros Hv Hp Hw Hlen. destruct (parse_header i p start win Hv Hp Hw Hlen) as [_ Hpl].
  destruct (Z.leb_spec (pos_of ps i - start + recordHeaderSize + zlen p) (zlen win)); [by apply Hpl|]. unfold ReadAt.
  destruct (r_read env name (pos_of ps i + recordHeaderSize)) as [e|] eqn:Er; [eauto|].
  pose proof (next_at ps i p Hp) as Hn. pose proof data_fits.
  assert (pos_of ps (S i) <= zlen (encs ps)).
  { rewrite <-(pos_of_all ps (length ps)) by done. apply pos_of_le. by apply lookup_lt_Some in Hp. }
  destruct (Z.ltb_spec (zlen data) (pos_of ps i + recordHeaderSize + zlen p)) as [?|_]; [lia|].
  destruct Hdata as [t ->]. by apply payload_at.
Qed.

Lemma read_loop_ok fuel i window s out :
  seg_ok d s ps -> advanced ps s0 s -> (i <= length ps)%nat -> (length ps - i < fuel)%nat ->
  pendingPosition s <= pos_of ps i -> window_ok data (pos_of ps i) window ->
  loop_post i out (read_loop env limit skip fuel data (zlen (encs ps)) (pos_of ps i) window s out).
Proof using Hdata.
  revert i window s out. induction fuel as [|fuel IH]; intros i window s out Hok Had Hi Hf Hpp Hw; [lia|].
  cbn [read_loop]. destruct (decide (i = length ps)) as [-> |Hne].
  { rewrite pos_of_all, Z.ltb_irrefl by done. cbn [andb]. apply loop_post_stop; auto. }
  destruct (lookup_lt_is_Some_2 ps i ltac:(lia)) as [p Hp].
  assert (pos_of ps i < zlen (encs ps)) as Hlt%Z.ltb_lt.
  { rewrite <-(pos_of_all ps (length ps)) by done. apply pos_of_lt; lia. }
  rewrite Hlt. cbn [andb]. destruct (Z.ltb_spec (zlen out) limit) as [Hl|Hl]; [|apply loop_post_stop; auto].
  pose proof (so_valid _ _ _ Hok) as Hv. pose proof (Forall_lookup_1 _ _ _ _ Hv Hp) as [Hp0 Hpm].
  pose proof (refill_ok (path s) i p window Hp Hw) as Hr.
  destruct (refill env (path s) data (zlen (encs ps)) (pos_of ps i) window) as [e|[start win]].
  { destruct Hr as (pos & e' & ?). unfold loop_post. eauto 10. }
  destruct Hr as [Hw' Hlen]. destruct (parse_header i p start win Hv Hp Hw' Hlen) as [Hh _].
  pose proof (read_payload (path s) i p start win Hv Hp Hw' Hlen) as Hpl.
  pose proof (next_at ps i p Hp) as Hn.
  assert (pos_of ps (S i) <= zlen (encs ps)) as Hle.
  { rewrite <-(pos_of_all ps (length ps)) by done. apply pos_of_le. lia. }
  rewrite Hh. change (zslice 0 4 (u32 (zlen p) ++ u32 (ChecksumIEEE p))) with (u32 (zlen p)).
  change (zslice 4 8 (u32 (zlen p) ++ u32 (ChecksumIEEE p))) with (u32 (ChecksumIEEE p)).
  rewrite !Uint32_u32_nil by (apply valid_u32 || apply ChecksumIEEE_range; done).
  change (zlen (u32 (zlen p) ++ u32 (ChecksumIEEE p)) <? recordHeaderSize) with false.
  rewrite Hn. destruct (Z.eqb_spec (zlen p) 0) as [?|_]; [lia|].
  destruct (Z.ltb_spec maxRecordBytes (zlen p)) as [?|_]; [lia|].
  destruct (Z.ltb_spec (zlen (encs ps)) (pos_of ps (S i))) as [?|_]; [lia|]. cbn [orb].
  assert (window_ok data (pos_of ps (S i)) (Some (start, win))) as Hw''.
  { destruct Hw' as ([] & ? & ?). unfold recordHeaderSize in Hn. split_and!; [lia|lia|done|done]. }
  assert (pos_of ps i < pos_of ps (S i)) by (apply pos_of_lt; lia).
  assert (consumed s0 (pos_of ps i) <-> pos_of ps i ∈ acked s) as Hc.
  { rewrite <-(ad_consumed _ _ _ Had i) by lia. unfold consumed. split; [intros [?|?]; [lia|done]|auto]. }
  destruct (bool_decide_reflect (pos_of ps i ∈ acked s)) as [Hin|Hnin]; cbn [negb andb].
  - apply (loop_post_skip i p); [done|intros [Hnc _]; tauto|].
    destruct (Z.eqb_spec (pos_of ps i) (pendingPosition s)) as [E|E]; cbn.
    + destruct (advance_step d ps s0 s i) as [Hok' Had']; [done|done|lia|done|done|].
      apply IH; [done|done|lia|lia| |done]. cbn. lia.
    + apply IH; [done|done|lia|lia|lia|done].
  - fold (skipped skip (mkOffset (id s) (pos_of ps i))). rewrite (ad_id _ _ _ Had).
    destruct (skipped skip (mkOffset (id s0) (pos_of ps i))) eqn:Esk; cbn [negb].
    + apply (loop_post_skip i p); [done|intros [_ Hs]; cbn in Hs; congruence|].
      apply IH; [done|done|lia|lia|lia|done].
    + destruct (if _ <=? _ then _ else _) as [e|q].
      { destruct Hpl as (pos & e' & ?). unfold loop_post. eauto 10. }
      subst q. rewrite Z.eqb_refl. cbn [negb].
      apply (loop_post_take i p); [done|split; [by rewrite Hc|done]|done|].
      apply IH; [done|done|lia|lia|lia|done].
Qed.

End loop.

(** ** The segment and the log *)

(** A failure of the system while reading. *)
Definition read_fault (env : readEnv) : Prop :=
  (exists name e, r_open env name = Some e) \/ (exists name pos e, r_read env name pos = Some e).

Definition read_post (env : readEnv) (limit : Z) (skip : option (Offset -> bool)) (d : disk)
    (s : segmentRef) (ps : list bytes) (out : list WRecord) (r : option error * segmentRef * list WRecord) : Prop :=
  let '(e, s', out') := r in
  seg_ok d s' ps /\ advanced ps s s' /\
  match e with
  | None => out' = out ++ take (Z.to_nat (limit - zlen out)) (pending_from skip s (layout 0 ps))
  | Some _ => read_fault env
  end.

Lemma pending_from_drop skip d s ps k :
  seg_ok d s ps -> acks_at s ps k ->
  pending_from skip s (drop k (layout 0 ps)) = pending_from skip s (layout 0 ps).
Proof.
  intros Hok [Hk Hpend _ _]. unfold pending_from. f_equal.
  rewrite <-(take_drop k (layout 0 ps)) at 2. rewrite filter_app, (filter_none _ (take k _)); [done|].
  apply list.Forall_forall. intros r Hr [Hn _]. apply Hn. left. rewrite Hpend.
  apply list_elem_of_lookup in Hr as [i Hi]. apply lookup_take_Some in Hi as [Hi Hik].
  rewrite layout_lookup in Hi. destruct (ps !! i) as [p|] eqn:Hp; [|done]. injection Hi as <-.
  cbn. apply lookup_lt_Some in Hp. by apply pos_of_lt.
Qed.

Lemma pending_from_none skip d s ps :
  seg_ok d s ps -> unacked s = 0 -> pending_from skip s (layout 0 ps) = [].
Proof.
  intros Hok Hu. unfold pending_from. rewrite filter_none; [done|].
  apply list.Forall_forall. intros r Hr [Hn _]. apply Hn. apply (all_consumed d s ps); [done|lia|done].
Qed.

Lemma length_encs ps : (length ps <= length (encs ps))%nat.
Proof.
  induction ps as [|p ps IH]; [done|]. rewrite encs_cons, length_app. cbn [length].
  pose proof (zlen_enc p) as H. unfold zlen, recordHeaderSize in H. lia.
Qed.

Lemma readPendingSegment_ok env limit skip d s ps out :
  seg_ok d s ps -> read_post env limit skip d s ps out (readPendingSegment env limit skip d s out).
Proof.
  intros Hok. unfold readPendingSegment, read_post.
  destruct (Z.eqb_spec (unacked s) 0) as [Hu|_].
  { split_and!; [done|by apply advanced_refl|]. by rewrite (pending_from_none _ d), take_nil, app_nil_r. }
  destruct (so_file _ _ _ Hok) as (f & Hf & Hpre). rewrite Hf.
  destruct (r_open env (path s)) as [e|] eqn:Eo.
  { split_and!; [done|by apply advanced_refl|]. left. eauto. }
  destruct (so_acks _ _ _ Hok) as [k Hk]. rewrite (so_size _ _ _ Hok), (ao_pending _ _ _ Hk).
  pose proof (read_loop_ok env limit skip d (f_data f) ps s Hpre (S (Z.to_nat (zlen (encs ps)))) k None s out
    Hok (advanced_refl ps s)) as H.
  pose proof (length_encs ps). rewrite to_nat_zlen in *.
  specialize (H (ao_le _ _ _ Hk) ltac:(lia)). rewrite (ao_pending _ _ _ Hk) in H. specialize (H (Z.le_refl _) I).
  unfold loop_post in H. destruct (read_loop _ _ _ _ _ _ _ _ _ _) as [[e s'] out'].
  destruct H as (? & ? & H). split_and!; [done..|]. destruct e.
  - by right.
  - by rewrite (pending_from_drop skip d s ps k) in H.
Qed.

End WalRead.
