(* ===== verification/WalInv.v ===== *)
(** * The segments of a log and how they evolve

    The invariant of the whole list of live segments, and the relation between
    two states of the log that every operation respects: records stay where
    they were written, new ones come after them, and a segment disappears only
    when each of its records has been acknowledged. *)

From S2P Require Import Prelude Wal WalFormat WalStore.
From Stdlib Require Import Strings.Byte.

Module WalInv.
Import Wal WalFormat WalStore.

(** ** File names *)

Lemma digit_value_digit d : 0 <= d < 10 -> digit_value (digit d) = Some d.
Proof.
  intros Hd. unfold digit_value, digit. rewrite Ascii.N_ascii_embedding by lia.
  rewrite Z2N.id by lia. replace ((48 <=? 48 + d) && (48 + d <=? 57)) with true by lia. f_equal. lia.
Qed.

Lemma digits_value_fixed k n s acc :
  0 <= n < 10 ^ Z.of_nat k -> digits_value (fixed_width 10 k n s) acc = digits_value s (acc * 10 ^ Z.of_nat k + n).
Proof.
  revert n s acc. induction k as [|k IH]; intros n s acc Hn.
  - cbn in *. f_equal. lia.
  - rewrite Nat2Z.inj_succ, Z.pow_succ_r in * by lia. cbn [fixed_width].
    rewrite IH by lia_mod. cbn [digits_value]. rewrite digit_value_digit by lia_mod.
    f_equal. lia_mod.
Qed.

Lemma fixed_width_length k n s : String.length (fixed_width 10 k n s) = (k + String.length s)%nat.
Proof. revert n s. induction k as [|k IH]; intros n s; [done|]. cbn. rewrite IH. cbn. lia. Qed.

Lemma string_length_app (a b : string) : String.length (a +:+ b) = (String.length a + String.length b)%nat.
Proof.
  induction a as [|c a IH]; [done|]. change (String c a +:+ b) with (String c (a +:+ b)).
  cbn [String.length]. by rewrite IH.
Qed.

Lemma CutSuffix_app a suffix : CutSuffix (a +:+ suffix) suffix = Some a.
Proof.
  induction a as [|c a IH].
  - change (EmptyString +:+ suffix) with suffix. destruct suffix; cbn [CutSuffix]; by rewrite String.eqb_refl.
  - change (String c a +:+ suffix) with (String c (a +:+ suffix)). cbn [CutSuffix].
    destruct (String.eqb_spec (String c (a +:+ suffix)) suffix) as [E|_]; [|by rewrite IH].
    apply (f_equal String.length) in E. cbn [String.length] in E. rewrite string_length_app in E. lia.
Qed.

Lemma segment_of_name_ok sid : 0 <= sid < 2 ^ 64 -> segment_of_name (segment_name sid) = Some sid.
Proof.
  intros Hs. unfold segment_of_name, segment_name. rewrite CutSuffix_app. unfold ParseUint.
  pose proof (fixed_width_length 20 sid EmptyString) as Hl.
  pose proof (digits_value_fixed 20 sid EmptyString 0 ltac:(lia)) as Hv.
  destruct (fixed_width 10 20 sid EmptyString) as [|c s]; [done|]. rewrite Hv. cbn [digits_value].
  rewrite Z.mul_0_l, Z.add_0_l. by destruct (Z.ltb_spec sid (2 ^ 64)); [|lia].
Qed.

Lemma segment_name_inj a b : 0 <= a < 2 ^ 64 -> 0 <= b < 2 ^ 64 -> segment_name a = segment_name b -> a = b.
Proof. intros Ha%segment_of_name_ok Hb%segment_of_name_ok E. rewrite E in Ha. congruence. Qed.

(** ** Evolution *)

(** A segment and its file before and after; [A] are the offsets that have
    been acknowledged. *)
Record seg_evolves (A : Offset -> bytes -> Prop) (d : disk) (s : segmentRef) (d' : disk) (s' : segmentRef) : Prop := {
  ev_id : id s' = id s;
  ev_path : path s' = path s;
  ev_size : size s <= size s';
  ev_records : prefix (seg_records d s) (seg_records d' s');
  ev_consumed : forall r, r ∈ seg_records d' s' -> consumed s' (position r) ->
    (r ∈ seg_records d s /\ consumed s (position r)) \/ A (mkOffset (id s) (position r)) (payload r);
  ev_mono : forall r, r ∈ seg_records d s -> consumed s (position r) -> consumed s' (position r);
  ev_durable : forall f f', d_files d !! path s = Some f -> d_files d' !! path s = Some f' ->
    Z.min (f_durable f) (size s) <= f_durable f'
}.

(** The live segments of a log, oldest first. *)
Definition live (w : WAL) : list segmentRef := sealed w ++ option_list (active w).

(** The segments [l] below id [n] become the segments [l'] below id [n']. *)
Record evolves (A : Offset -> bytes -> Prop) (n : Z) (l : list segmentRef) (d : disk)
    (n' : Z) (l' : list segmentRef) (d' : disk) : Prop := {
  ev_next : n <= n';
  ev_from : forall s', s' ∈ l' ->
    (exists s, s ∈ l /\ seg_evolves A d s d' s') \/
    (n <= id s' /\ forall r, r ∈ seg_records d' s' -> consumed s' (position r) -> A (mkOffset (id s') (position r)) (payload r));
  ev_to : forall s, s ∈ l ->
    (exists s', s' ∈ l' /\ seg_evolves A d s d' s') \/
    (forall r, r ∈ seg_records d s -> consumed s (position r) \/ A (mkOffset (id s) (position r)) (payload r))
}.

(** Every acknowledgement the segments have seen is one of [A]. *)
Definition acks_from (A : Offset -> bytes -> Prop) (l : list segmentRef) (d : disk) : Prop :=
  forall s r, s ∈ l -> r ∈ seg_records d s -> consumed s (position r) -> A (mkOffset (id s) (position r)) (payload r).

(** Record [p] was written at [off]: it is there, or was acknowledged with its
    whole segment. *)
Record recorded (A : Offset -> bytes -> Prop) (n : Z) (l : list segmentRef) (d : disk) (off : Offset) (p : bytes) : Prop := {
  rc_id : SegmentID off < n;
  rc_live : forall s, s ∈ l -> id s = SegmentID off -> mkRaw (Position off) p ∈ seg_records d s;
  rc_gone : (forall s, s ∈ l -> id s <> SegmentID off) -> A off p
}.

(** The record at [off] is durable while its segment lives. *)
Definition durable (l : list segmentRef) (d : disk) (off : Offset) (p : bytes) : Prop :=
  forall s f, s ∈ l -> id s = SegmentID off -> d_files d !! path s = Some f ->
    Position off + zlen (enc p) <= Z.min (f_durable f) (size s).

Section evolution.
Variable A : Offset -> bytes -> Prop.

Lemma seg_evolves_disk d d' s :
  d_files d' !! path s = d_files d !! path s -> seg_evolves A d s d' s.
Proof.
  intros E. assert (seg_records d' s = seg_records d s) as Er by (unfold seg_records, os_data; by rewrite E).
  split; [done|done|lia|by rewrite Er|rewrite Er; auto|done|].
  rewrite E. intros f f' Hf Hf'. simplify_eq. lia.
Qed.

Lemma seg_evolves_refl d s : seg_evolves A d s d s.
Proof. by apply seg_evolves_disk. Qed.

Lemma seg_evolves_trans d s d' s' d'' s'' :
  (exists f, d_files d' !! path s = Some f) ->
  seg_evolves A d s d' s' -> seg_evolves A d' s' d'' s'' -> seg_evolves A d s d'' s''.
Proof.
  intros [f' Hf'] [Hi1 Hp1 Hs1 Hr1 Hc1 Hm1 Hd1] [Hi2 Hp2 Hs2 Hr2 Hc2 Hm2 Hd2]. split; [congruence|congruence|lia|by etrans|..].
  - intros r Hr Hc. destruct (Hc2 r Hr Hc) as [[Hr' Hc']|?]; [|right; congruence]. auto.
  - intros r Hr Hc. apply Hm2; [|by apply Hm1]. destruct Hr1 as [k ->]. apply elem_of_app. by left.
  - intros f f'' Hf Hf''. rewrite Hp1 in Hd2. pose proof (Hd1 f f' Hf Hf'). pose proof (Hd2 f' f'' Hf' Hf''). lia.
Qed.

(** The three ways the list of live segments changes: segment by segment, by
    losing a segment that is done with, by a new segment at the end. *)
Lemma evolves_pointwise n n' l l' d d' :
  n <= n' -> Forall2 (fun s s' => seg_evolves A d s d' s') l l' -> evolves A n l d n' l' d'.
Proof.
  intros Hn HF. split; [done|..].
  - intros s' [i Hi]%list_elem_of_lookup. destruct (Forall2_lookup_r _ _ _ _ _ HF Hi) as (s & Hs & ?).
    left. exists s. split; [by eapply list_elem_of_lookup_2|done].
  - intros s [i Hi]%list_elem_of_lookup. destruct (Forall2_lookup_l _ _ _ _ _ HF Hi) as (s' & Hs & ?).
    left. exists s'. split; [by eapply list_elem_of_lookup_2|done].
Qed.

Lemma log_evolves_refl n l d : evolves A n l d n l d.
Proof.
  apply evolves_pointwise; [lia|]. apply Forall2_same_length_lookup_2; [done|].
  intros i s s' Hs Hs'. simplify_eq. apply seg_evolves_refl.
Qed.

Lemma evolves_drop n l1 s l2 d d' :
  (forall s', s' ∈ l1 ++ l2 -> d_files d' !! path s' = d_files d !! path s') ->
  (forall r, r ∈ seg_records d s -> consumed s (position r) \/ A (mkOffset (id s) (position r)) (payload r)) ->
  evolves A n (l1 ++ s :: l2) d n (l1 ++ l2) d'.
Proof.
  intros Hsame Hdone. split; [lia|..].
  - intros s' Hs'. left. exists s'. split; [rewrite elem_of_app, elem_of_cons in *; tauto|].
    apply seg_evolves_disk. auto.
  - intros s' [Hs'|[-> |Hs']%elem_of_cons]%elem_of_app; [left|by right|left]; exists s';
      (split; [rewrite elem_of_app; tauto|]); apply seg_evolves_disk, Hsame; rewrite elem_of_app; tauto.
Qed.

Lemma evolves_add n n' l s d d' :
  n <= n' -> (forall s', s' ∈ l -> d_files d' !! path s' = d_files d !! path s') ->
  n <= id s -> seg_records d' s = [] ->
  evolves A n l d n' (l ++ [s]) d'.
Proof.
  intros Hn Hsame Hid Hrec. split; [done|..].
  - intros s' [Hs'|Hs'%list_elem_of_singleton]%elem_of_app.
    + left. exists s'. split; [done|]. apply seg_evolves_disk. auto.
    + subst s'. right. split; [done|]. rewrite Hrec. by intros r ?%not_elem_of_nil.
  - intros s' Hs'. left. exists s'. split; [by apply elem_of_app; left|]. apply seg_evolves_disk. auto.
Qed.

Lemma log_evolves_trans n l d n' l' d' n'' l'' d'' :
  (forall s, s ∈ l' -> exists f, d_files d' !! path s = Some f) ->
  evolves A n l d n' l' d' -> evolves A n' l' d' n'' l'' d'' -> evolves A n l d n'' l'' d''.
Proof.
  intros Hfiles [Hn1 Hf1 Ht1] [Hn2 Hf2 Ht2]. split; [lia|..].
  - intros s'' Hs''. destruct (Hf2 s'' Hs'') as [(s' & Hs' & E2)|[Hid Hc]]; [|right; split; [lia|done]].
    destruct (Hf1 s' Hs') as [(s & Hs & E1)|[Hid Hc]].
    + left. exists s. split; [done|]. eapply seg_evolves_trans; [|done|done].
      rewrite <-(ev_path _ _ _ _ _ E1). auto.
    + right. rewrite (ev_id _ _ _ _ _ E2). split; [done|]. intros r Hr Hcons.
      destruct (ev_consumed _ _ _ _ _ E2 r Hr Hcons) as [[? ?]|?]; auto.
  - intros s Hs. destruct (Ht1 s Hs) as [(s' & Hs' & E1)|?]; [|by right].
    destruct (Ht2 s' Hs') as [(s'' & Hs'' & E2)|Hdone].
    + left. exists s''. split; [done|]. eapply seg_evolves_trans; [|done|done].
      rewrite <-(ev_path _ _ _ _ _ E1). auto.
    + right. intros r Hr. assert (r ∈ seg_records d' s') as Hr' by (destruct (ev_records _ _ _ _ _ E1) as [k ->]; apply elem_of_app; by left).
      destruct (Hdone r Hr') as [Hc|Ha]; [|right; by rewrite (ev_id _ _ _ _ _ E1) in Ha].
      destruct (ev_consumed _ _ _ _ _ E1 r Hr' Hc) as [[_ ?]|?]; auto.
Qed.

(** ** What evolution preserves *)

Context {n n' : Z} {l l' : list segmentRef} {d d' : disk}.
Hypothesis Hev : evolves A n l d n' l' d'.
Hypothesis Hacks : acks_from A l d.

Lemma acks_from_evolves : acks_from A l' d'.
Proof using Hev Hacks.
  intros s' r Hs' Hr Hc. destruct (ev_from _ _ _ _ _ _ _ Hev s' Hs') as [(s & Hs & E)|[_ H]]; [|auto].
  rewrite (ev_id _ _ _ _ _ E). destruct (ev_consumed _ _ _ _ _ E r Hr Hc) as [[? ?]|?]; auto.
Qed.

Lemma recorded_evolves off p : recorded A n l d off p -> recorded A n' l' d' off p.
Proof using Hev Hacks.
  intros [Hid Hlive Hgone]. pose proof (ev_next _ _ _ _ _ _ _ Hev). split; [lia|..].
  - intros s' Hs' Ei. destruct (ev_from _ _ _ _ _ _ _ Hev s' Hs') as [(s & Hs & E)|[? _]]; [|lia].
    rewrite (ev_id _ _ _ _ _ E) in Ei. destruct (ev_records _ _ _ _ _ E) as [k ->]. apply elem_of_app. auto.
  - intros Hnone. destruct (decide (Exists (fun s => id s = SegmentID off) l)) as [[s [Hs Ei]]%list.Exists_exists|Hno].
    + destruct (ev_to _ _ _ _ _ _ _ Hev s Hs) as [(s' & Hs' & E)|Hdone].
      * destruct (Hnone s' Hs'). by rewrite (ev_id _ _ _ _ _ E).
      * replace off with (mkOffset (id s) (position (mkRaw (Position off) p))) by (destruct off; cbn in *; by subst).
        destruct (Hdone _ (Hlive s Hs Ei)); [|done]. apply (Hacks s); auto.
    + apply Hgone. intros s Hs Ei. apply Hno. apply list.Exists_exists. eauto.
Qed.

Lemma durable_evolves off p :
  recorded A n l d off p ->
  (forall s, s ∈ l -> exists f, d_files d !! path s = Some f) ->
  durable l d off p -> durable l' d' off p.
Proof using Hev.
  intros Hrec Hfiles Hdur s' f' Hs' Ei Hf'.
  destruct (ev_from _ _ _ _ _ _ _ Hev s' Hs') as [(s & Hs & E)|[? _]]; [|pose proof (rc_id _ _ _ _ _ _ Hrec); lia].
  rewrite (ev_id _ _ _ _ _ E) in Ei. rewrite (ev_path _ _ _ _ _ E) in Hf'.
  destruct (Hfiles s Hs) as [f Hf]. pose proof (Hdur s f Hs Ei Hf).
  pose proof (ev_durable _ _ _ _ _ E f f' Hf Hf'). pose proof (ev_size _ _ _ _ _ E). lia.
Qed.
End evolution.

Lemma acks_from_mono (A A' : Offset -> bytes -> Prop) l d : (forall o q, A o q -> A' o q) -> acks_from A l d -> acks_from A' l d.
Proof. unfold acks_from. eauto. Qed.

Lemma recorded_mono (A A' : Offset -> bytes -> Prop) n l d off p :
  (forall o q, A o q -> A' o q) -> recorded A n l d off p -> recorded A' n l d off p.
Proof. intros HA []. split; auto. Qed.

End WalInv.
