(* ===== verification/WalOps.v ===== *)
(** * The operations of a log on its segments and files

    The invariant that ties a [WAL] to its directory, and that each operation
    keeps it and lets the segments evolve. *)

From S2P Require Import Prelude Wal WalFormat WalStore WalRead WalInv.
From Stdlib Require Import Strings.Byte.

Module WalOps.
Import Wal WalFormat WalStore WalRead WalInv.

(** The live segments have ascending ids below [n], and are well-formed. *)
Record core (n : Z) (l : list segmentRef) (d : disk) : Prop := {
  co_sorted : StronglySorted Z.lt (id <$> l);
  co_ids : Forall (fun s => 0 < id s < n) l;
  co_segs : Forall (fun s => exists ps, seg_ok d s ps) l;
  co_next : n < 2 ^ 64
}.

Definition perm_ok (o : options) (perm : Z) : Prop := insecurePermissions o = true \/ Z.land perm 63 = 0.

(** The files that are segments carry the names the log gives them, have ids
    below [n], and pass the permission check. *)
Record names_ok (o : options) (n : Z) (d : disk) : Prop := {
  na_dir : exists perm, d_dir d = Some (true, perm) /\ perm_ok o perm;
  na_files : forall name f sid, d_files d !! name = Some f -> segment_of_name name = Some sid ->
    name = segment_name sid /\ 0 < sid < n /\ f_regular f = true /\ perm_ok o (f_perm f)
}.

(** The bytes after the written part of the active segment, when it has a
    file, are those of the write in flight, [fl]. *)
Definition active_ok (fl : bytes) (a : option segmentRef) (d : disk) : Prop :=
  forall s h, a = Some s -> sfile s = Some h ->
    os_data (path s) d = take (Z.to_nat (size s)) (os_data (path s) d) ++ fl /\ h_pos h = size s + zlen fl.

Definition total_size (l : list segmentRef) : Z := foldr (fun s n => size s + n) 0 l.

Record store_ok (fl : bytes) (w : WAL) (d : disk) : Prop := {
  st_core : core (nextID w) (live w) d;
  st_sealed : Forall (fun s => sfile s = None) (sealed w);
  st_active : active_ok fl (active w) d;
  st_total : totalSz w = total_size (live w);
  st_names : names_ok (opts w) (nextID w) d
}.

(** The segments from [base] on belong to this session: the active one is, and
    those it has sealed are durable. *)
Record session (base : Z) (w : WAL) (d : disk) : Prop := {
  se_next : base <= nextID w;
  se_active : forall a, active w = Some a -> base <= id a;
  se_sealed : forall s f, s ∈ sealed w -> base <= id s -> d_files d !! path s = Some f -> size s <= f_durable f
}.

(** The log and its directory go from one well-formed state to another. *)
Record op_ok (A : Offset -> bytes -> Prop) (w : WAL) (d : disk) (fl' : bytes) (w' : WAL) (d' : disk) : Prop := {
  op_store : store_ok fl' w' d';
  op_evolves : evolves A (nextID w) (live w) d (nextID w') (live w') d';
  op_session : forall base, session base w d -> session base w' d'
}.

(** ** Segments and files *)

Lemma total_size_app l k : total_size (l ++ k) = total_size l + total_size k.
Proof.
  induction l as [|s l IH]; [done|]. change (size s + total_size (l ++ k) = size s + total_size l + total_size k).
  rewrite IH. lia.
Qed.

Lemma core_file n l d s : core n l d -> s ∈ l -> exists ps f, seg_ok d s ps /\ d_files d !! path s = Some f /\ prefix (encs ps) (f_data f).
Proof.
  intros Hc Hs. pose proof (co_segs _ _ _ Hc) as HF. rewrite list.Forall_forall in HF.
  destruct (HF s Hs) as [ps Hok]. destruct (so_file _ _ _ Hok) as (f & ? & ?). eauto.
Qed.

Lemma core_files n l d s : core n l d -> s ∈ l -> exists f, d_files d !! path s = Some f.
Proof. intros Hc Hs. destruct (core_file n l d s Hc Hs) as (ps & f & _ & ? & _). eauto. Qed.

Lemma core_path n l d s : core n l d -> s ∈ l -> path s = segment_name (id s) /\ 0 <= id s < 2 ^ 64.
Proof.
  intros Hc Hs. destruct (core_file n l d s Hc Hs) as (ps & f & Hok & _).
  pose proof (co_ids _ _ _ Hc) as HF. rewrite list.Forall_forall in HF. specialize (HF s Hs).
  pose proof (co_next _ _ _ Hc). split; [apply (so_path _ _ _ Hok)|lia].
Qed.

(** Two segments of the list have different files. *)
Lemma core_path_ne n l1 s l2 d s' :
  core n (l1 ++ s :: l2) d -> s' ∈ l1 ++ l2 -> path s' <> path s.
Proof.
  intros Hc Hs' E.
  assert (s' ∈ l1 ++ s :: l2) as Hin by (rewrite elem_of_app, elem_of_cons in *; tauto).
  destruct (core_path _ _ _ s' Hc Hin) as [Hp' Hi'].
  destruct (core_path _ _ _ s Hc ltac:(rewrite elem_of_app, elem_of_cons; tauto)) as [Hp Hi].
  rewrite Hp, Hp' in E. apply segment_name_inj in E; [|done..].
  pose proof (co_sorted _ _ _ Hc) as Hs. rewrite fmap_app, fmap_cons in Hs.
  apply StronglySorted_app in Hs as (H12 & H1 & H2). rewrite elem_of_app in Hs'. destruct Hs' as [Hs'|Hs'].
  - specialize (H12 (id s') (id s)). rewrite E in H12.
    assert (id s < id s); [|lia]. apply H12; [rewrite <-E; by apply list_elem_of_fmap_2|by left].
  - apply StronglySorted_inv in H2 as [_ HF]. rewrite list.Forall_forall in HF.
    specialize (HF (id s') (list_elem_of_fmap_2 _ _ _ Hs')). lia.
Qed.

Lemma core_unique n l d s s' : core n l d -> s ∈ l -> s' ∈ l -> id s = id s' -> s = s'.
Proof.
  intros Hc [i Hi]%list_elem_of_lookup [j Hj]%list_elem_of_lookup E. pose proof (co_sorted _ _ _ Hc) as Hs.
  assert (forall i j a b, l !! i = Some a -> l !! j = Some b -> (i < j)%nat -> id a < id b) as Hlt.
  { clear -Hs. intros i j a b Ha Hb Hij. apply (StronglySorted_lookup_lt Z.lt (id <$> l) i j _ _ Hs); [..|done].
    - by rewrite list_lookup_fmap, Ha.
    - by rewrite list_lookup_fmap, Hb. }
  destruct (Nat.lt_trichotomy i j) as [H|[-> |H]]; [|congruence|].
  - pose proof (Hlt i j _ _ Hi Hj H). lia.
  - pose proof (Hlt j i _ _ Hj Hi H). lia.
Qed.

(** A list with the same ids and well-formed segments. *)
Lemma core_pointwise n l d l' d' :
  core n l d -> Forall2 (fun s s' => id s' = id s /\ exists ps, seg_ok d' s' ps) l l' -> core n l' d'.
Proof.
  intros [Hs Hi Hc Hn] HF. assert (id <$> l' = id <$> l) as E.
  { clear Hs Hi Hc. induction HF as [|s s' l l' [? _] _ IH]; [done|]. rewrite !fmap_cons. by f_equal. }
  split; [by rewrite E| | |done].
  - clear Hs Hc E. induction HF as [|s s' l l' [E _] _ IH]; inversion_clear Hi; constructor; [by rewrite E|auto].
  - clear Hs Hi Hc E. induction HF as [|s s' l l' [_ ?] _ IH]; constructor; auto.
Qed.

Lemma core_same n l d d' :
  core n l d -> (forall s, s ∈ l -> d_files d' !! path s = d_files d !! path s) -> core n l d'.
Proof.
  intros Hc Hsame. apply (core_pointwise n l d); [done|].
  apply Forall2_same_length_lookup_2; [done|]. intros i s s' Hs Hs'. simplify_eq. split; [done|].
  apply list_elem_of_lookup_2 in Hs. destruct (core_file _ _ _ _ Hc Hs) as (ps & f & Hok & Hf & Hp).
  exists ps. eapply seg_ok_disk; [done| |done]. by rewrite Hsame.
Qed.

Lemma core_drop n l1 s l2 d : core n (l1 ++ s :: l2) d -> core n (l1 ++ l2) d.
Proof.
  intros [Hs Hi Hc Hn]. split; [|apply Forall_app in Hi as [? [? ?]%Forall_cons]|
    apply Forall_app in Hc as [? [? ?]%Forall_cons]|done]; try by apply Forall_app.
  rewrite fmap_app, fmap_cons in Hs. rewrite fmap_app.
  apply StronglySorted_app in Hs as (H12 & H1 & [H2 _]%StronglySorted_inv).
  apply StronglySorted_app. split_and!; [|done..]. intros x y Hx Hy. apply H12; [done|by right].
Qed.

Lemma core_add n l s d :
  core n l d -> n + 1 < 2 ^ 64 -> 0 < n -> id s = n -> (exists ps, seg_ok d s ps) -> core (n + 1) (l ++ [s]) d.
Proof.
  intros [Hs Hi Hc Hn] Hn1 Hn0 Hid Hok. split; [| | |done].
  - rewrite fmap_app. apply StronglySorted_app. split_and!; [|done|repeat constructor].
    intros x y (s' & -> & Hs')%list_elem_of_fmap ->%list_elem_of_singleton.
    rewrite list.Forall_forall in Hi. specialize (Hi s' Hs'). rewrite Hid. lia.
  - apply Forall_app. split; [|constructor; [lia|done]]. apply (Forall_impl _ _ _ Hi). intros s0 ?; cbv beta in *; lia.
  - apply Forall_app. split; [done|]. by constructor.
Qed.

Lemma core_next n n' l d : core n l d -> n <= n' < 2 ^ 64 -> core n' l d.
Proof. intros [Hs Hi Hc _] Hn. split; [done| |done|lia]. apply (Forall_impl _ _ _ Hi). intros s0 ?; cbv beta in *; lia. Qed.

(** ** Changes of the directory *)

Lemma names_alter o n d g name :
  (forall f, f_regular (g f) = f_regular f /\ f_perm (g f) = f_perm f) ->
  names_ok o n d -> names_ok o n (set_files (alter g name (d_files d)) d).
Proof.
  intros Hg [Hdir Hfiles]. split; [done|]. cbn. intros name' f sid Hf Hsid.
  destruct (decide (name' = name)) as [-> |Hne].
  - rewrite lookup_alter_eq in Hf. apply fmap_Some in Hf as (f0 & Hf0 & ->).
    destruct (Hg f0) as [-> ->]. by apply (Hfiles name).
  - rewrite lookup_alter_ne in Hf by done. by apply (Hfiles name').
Qed.

Lemma names_remove o n d name : names_ok o n d -> names_ok o n (os_remove name d).
Proof.
  intros [Hdir Hfiles]. split; [done|]. cbn. intros name' f sid [_ Hf]%lookup_delete_Some Hsid.
  by apply (Hfiles name').
Qed.

Lemma names_next o n n' d : n <= n' -> names_ok o n d -> names_ok o n' d.
Proof.
  intros Hn [Hdir Hfiles]. split; [done|]. intros name f sid Hf Hsid.
  destruct (Hfiles name f sid Hf Hsid) as (? & ? & ? & ?). split_and!; [done|lia|lia|done|done].
Qed.

Lemma names_add o n d f :
  0 < n -> n + 1 < 2 ^ 64 -> f_regular f = true -> perm_ok o (f_perm f) -> names_ok o n d ->
  names_ok o (n + 1) (set_files (<[segment_name n := f]> (d_files d)) d).
Proof.
  intros Hn Hn1 Hr Hp Hna. apply (names_next _ _ (n + 1)) in Hna; [|lia]. destruct Hna as [Hdir Hfiles].
  split; [done|]. cbn. intros name f' sid [[<- <-]|[_ Hf]]%lookup_insert_Some Hsid.
  - rewrite segment_of_name_ok in Hsid by lia. injection Hsid as <-. split_and!; [done|lia|lia|done|done].
  - by apply (Hfiles name).
Qed.

Lemma alter_other g name d s :
  path s <> name -> d_files (set_files (alter g name (d_files d)) d) !! path s = d_files d !! path s.
Proof. intros Hne. cbn. by rewrite lookup_alter_ne. Qed.

Lemma remove_other name d s : path s <> name -> d_files (os_remove name d) !! path s = d_files d !! path s.
Proof. intros Hne. cbn. by rewrite lookup_delete_ne. Qed.

(** ** Changes of the log *)

Section ops.
Variable A : Offset -> bytes -> Prop.

Lemma op_refl fl w d : store_ok fl w d -> op_ok A w d fl w d.
Proof. intros Hs. split; [done|apply log_evolves_refl|done]. Qed.

Lemma op_trans w d fl1 w1 d1 fl2 w2 d2 :
  op_ok A w d fl1 w1 d1 -> op_ok A w1 d1 fl2 w2 d2 -> op_ok A w d fl2 w2 d2.
Proof.
  intros [Hs1 He1 Hb1] [Hs2 He2 Hb2]. split; [done| |auto]. eapply log_evolves_trans; [|done|done].
  intros s Hs. eapply core_files; [|done]. apply (st_core _ _ _ Hs1).
Qed.

(** The same segments, other fields. *)
Lemma op_fields fl w d w' :
  store_ok fl w d -> opts w' = opts w -> active w' = active w -> sealed w' = sealed w ->
  nextID w' = nextID w -> totalSz w' = totalSz w -> op_ok A w d fl w' d.
Proof.
  intros [] Ho Ha Hs Hn Ht. assert (live w' = live w) as El by (unfold live; by rewrite Ha, Hs).
  split; [split; rewrite ?El, ?Ho, ?Ha, ?Hs, ?Hn, ?Ht; done|rewrite El, Hn; apply log_evolves_refl|].
  intros base []. split; rewrite ?Ha, ?Hs, ?Hn; done.
Qed.

(** The active segment alone changes. *)
Lemma update_active fl fl' w d a a' d' tot :
  store_ok fl w d -> active w = Some a ->
  (forall s, s ∈ sealed w -> d_files d' !! path s = d_files d !! path s) ->
  seg_evolves A d a d' a' -> (exists ps, seg_ok d' a' ps) -> active_ok fl' (Some a') d' ->
  names_ok (opts w) (nextID w) d' -> tot = totalSz w + (size a' - size a) ->
  op_ok A w d fl' (set_segs (Some a') (sealed w) tot w) d'.
Proof.
  intros [Hc Hse _ Htot _] Ha Hsame Hev Hok Hact Hnames ->. unfold live in *. rewrite Ha in *. change (option_list (Some a)) with [a] in *.
  assert (Forall2 (fun s s' => seg_evolves A d s d' s' /\ exists ps, seg_ok d' s' ps) (sealed w ++ [a]) (sealed w ++ [a'])) as HF.
  { apply Forall2_app; [|constructor; [by split|constructor]]. apply Forall2_same_length_lookup_2; [done|].
    intros i s s' Hs Hs'. simplify_eq. apply list_elem_of_lookup_2 in Hs. split; [apply seg_evolves_disk; auto|].
    destruct (core_file _ _ _ s Hc) as (ps & f & Hsok & Hf & Hp); [apply elem_of_app; by left|].
    exists ps. eapply seg_ok_disk; [done| |done]. by rewrite Hsame. }
  split.
  - split; cbn; [|done|done| |done].
    + apply (core_pointwise _ _ _ _ _ Hc). eapply Forall2_impl; [done|]. intros s s' [E ?]. split; [apply (ev_id _ _ _ _ _ E)|done].
    + change (live _) with (sealed w ++ [a']). rewrite total_size_app in *. cbn in *. lia.
  - unfold live. rewrite Ha. apply evolves_pointwise; [cbn; lia|]. eapply Forall2_impl; [done|]. by intros s s' [? _].
  - intros base [Hn Hb Hd]. split; cbn; [done| |].
    + intros a0 [= <-]. rewrite (ev_id _ _ _ _ _ Hev). auto.
    + intros s f Hs. rewrite Hsame by done. by apply Hd.
Qed.

(** The active segment, without its file, becomes a sealed one. *)
Lemma seal_active fl w d a :
  store_ok fl w d -> active w = Some a -> sfile a = None ->
  (forall f, d_files d !! path a = Some f -> size a <= f_durable f) ->
  op_ok A w d [] (set_segs None (sealed w ++ [a]) (totalSz w) w) d.
Proof.
  intros [Hc Hse _ Htot Hna] Ha Hf Hdur. unfold live in *. rewrite Ha in *. change (option_list (Some a)) with [a] in *.
  split; [split; cbn| |].
  - unfold live. cbn. by rewrite app_nil_r.
  - apply Forall_app. split; [done|]. by constructor.
  - done.
  - unfold live. cbn. by rewrite app_nil_r.
  - done.
  - unfold live. rewrite Ha. cbn. rewrite app_nil_r. apply log_evolves_refl.
  - intros base [Hn Hb Hd]. split; cbn; [done|done|].
    intros s f [Hs|Hs%list_elem_of_singleton]%elem_of_app; [by apply Hd|]. subst s. auto.
Qed.

(** The active segment is dropped, all its records acknowledged. *)
Lemma drop_active fl w d a d' :
  store_ok fl w d -> active w = Some a -> unacked a <= 0 ->
  (forall s, s ∈ sealed w -> d_files d' !! path s = d_files d !! path s) ->
  names_ok (opts w) (nextID w) d' ->
  op_ok A w d [] (set_segs None (sealed w) (totalSz w - size a) w) d'.
Proof.
  intros [Hc Hse _ Htot Hna] Ha Hu Hsame Hnames. unfold live in *. rewrite Ha in *. change (option_list (Some a)) with [a] in *.
  destruct (core_file _ _ _ a Hc) as (ps & f & Hok & _); [apply elem_of_app; right; by left|].
  assert (live (set_segs None (sealed w) (totalSz w - size a) w) = sealed w ++ []) as El by done.
  split; [split| |].
  - rewrite El. apply (core_same _ _ d); [by apply core_drop in Hc|].
    intros s Hs. apply Hsame. by rewrite app_nil_r in Hs.
  - done.
  - done.
  - rewrite El. cbn. rewrite total_size_app in *. cbn in *. lia.
  - done.
  - rewrite El. unfold live. rewrite Ha. apply evolves_drop.
    + intros s Hs. apply Hsame. by rewrite app_nil_r in Hs.
    + intros r Hr. left. rewrite (seg_ok_records _ _ _ Hok) in Hr. by apply (all_consumed d a ps).
  - intros base [Hn Hb Hd]. split; cbn; [done|done|]. intros s g Hs. rewrite Hsame by done. by apply Hd.
Qed.

End ops.

End WalOps.
