(* ===== verification/WalActions.v ===== *)
(** * Each operation of the log keeps its invariant

    Writing, publishing and rolling back a run of records, syncing, sealing
    and opening segments, closing, acknowledging and reading. *)

From S2P Require Import Prelude Wal WalFormat WalStore WalRead WalInv WalOps.
From Stdlib Require Import Strings.Byte.

Module WalActions.
Import Wal WalFormat WalStore WalRead WalInv WalOps.

Lemma zeros_nonpos n : n <= 0 -> zeros n = [].
Proof. intros Hn. unfold zeros. by replace (Z.to_nat n) with 0%nat by lia. Qed.

Section actions.
Variable A : Offset -> bytes -> Prop.

(** The file of a segment changes behind its written part. *)
Lemma seg_file_change d d' s h ps f f' :
  seg_ok d s ps -> d_files d !! path s = Some f -> d_files d' !! path s = Some f' ->
  prefix (encs ps) (f_data f') -> Z.min (f_durable f) (size s) <= f_durable f' ->
  seg_evolves A d s d' (seg_set_file h s) /\ seg_ok d' (seg_set_file h s) ps.
Proof.
  intros Hok Hf Hf' Hp Hd. assert (seg_ok d' s ps) as Hok' by by eapply seg_ok_disk.
  split; [|by apply seg_ok_set_file].
  assert (seg_records d' (seg_set_file h s) = seg_records d s) as Er.
  { rewrite (seg_ok_records _ _ _ Hok). apply seg_ok_records. by apply seg_ok_set_file. }
  split; [done|done|cbn; lia|by rewrite Er|rewrite Er; auto|done|]. intros g g' Hg Hg'. simplify_eq. done.
Qed.

Lemma set_file_same s : seg_set_file (sfile s) s = s.
Proof. by destruct s. Qed.

Lemma set_active_same w a : active w = Some a -> set_segs (Some a) (sealed w) (totalSz w) w = w.
Proof. intros <-. by destruct w. Qed.

Section active.
Context {fl : bytes} {w : WAL} {d : disk} {a : segmentRef}.
Hypothesis Hst : store_ok fl w d.
Hypothesis Ha : active w = Some a.

Lemma live_active : live w = sealed w ++ a :: [].
Proof using Ha. unfold live. by rewrite Ha. Qed.

Lemma active_file : exists ps f, seg_ok d a ps /\ d_files d !! path a = Some f /\ prefix (encs ps) (f_data f).
Proof using Hst Ha.
  apply (core_file (nextID w) (live w)); [apply (st_core _ _ _ Hst)|].
  rewrite live_active, elem_of_app, elem_of_cons. tauto.
Qed.

(** The files of the sealed segments are not the active one's. *)
Lemma sealed_path_ne s : s ∈ sealed w -> path s <> path a.
Proof using Hst Ha.
  intros Hs. apply (core_path_ne (nextID w) (sealed w) a [] d); [|by rewrite app_nil_r].
  rewrite <-live_active. apply (st_core _ _ _ Hst).
Qed.

(** The file of the active segment changes behind its written part. *)
Lemma active_change g h fl' :
  (forall f ps, seg_ok d a ps -> d_files d !! path a = Some f -> prefix (encs ps) (f_data f) ->
     prefix (encs ps) (f_data (g f)) /\ Z.min (f_durable f) (size a) <= f_durable (g f)) ->
  (forall f, f_regular (g f) = f_regular f /\ f_perm (g f) = f_perm f) ->
  let d' := set_files (alter g (path a) (d_files d)) d in
  active_ok fl' (Some (seg_set_file h a)) d' ->
  op_ok A w d fl' (set_segs (Some (seg_set_file h a)) (sealed w) (totalSz w) w) d'.
Proof using Hst Ha.
  intros Hg Hperm d' Hact. destruct active_file as (ps & f & Hok & Hf & Hp).
  destruct (Hg f ps Hok Hf Hp) as [Hp' Hd'].
  assert (d_files d' !! path a = Some (g f)) as Hf' by (cbn; by rewrite lookup_alter_eq, Hf).
  destruct (seg_file_change d d' a h ps f (g f)) as [Hev Hok']; [done..|].
  apply (update_active A fl fl' w d a); [done|done| |done|by exists ps|done| |cbn; lia].
  - intros s Hs. by apply alter_other, sealed_path_ne.
  - apply names_alter; [done|]. apply (st_names _ _ _ Hst).
Qed.

(** [fsync] of the active segment. *)
Lemma fsync_active : op_ok A w d fl w (os_fsync (path a) d).
Proof using Hst Ha.
  destruct active_file as (ps & f & Hok & Hf & Hp).
  assert (op_ok A w d fl (set_segs (Some (seg_set_file (sfile a) a)) (sealed w) (totalSz w) w) (os_fsync (path a) d)) as H;
    [|by rewrite set_file_same, (set_active_same w a Ha) in H].
  apply active_change.
  - intros f' ps' Hok' Hf' Hp'. cbn. split; [done|]. rewrite (so_size _ _ _ Hok').
    destruct Hp' as [t ->]. rewrite zlen_app. pose proof (zlen_nonneg t). lia.
  - done.
  - rewrite set_file_same. intros s h E Hh. injection E as <-. pose proof (st_active _ _ _ Hst a h Ha Hh) as H.
    unfold os_data in *. cbn. by rewrite lookup_alter_eq, Hf in *.
Qed.

(** The active segment loses its file, or it is closed. *)
Lemma retire_active : op_ok A w d [] (set_segs (Some (seg_set_file None a)) (sealed w) (totalSz w) w) d.
Proof using Hst Ha.
  destruct active_file as (ps & f & Hok & Hf & Hp).
  destruct (seg_file_change d d a None ps f f) as [Hev Hok']; [done..|lia|].
  apply (update_active A fl [] w d a); [done|done|done|done|by exists ps|by intros s h [= <-]| |cbn; lia].
  apply (st_names _ _ _ Hst).
Qed.

Lemma close_handle h :
  sfile a = Some h ->
  op_ok A w d fl (set_segs (Some (seg_set_file (Some (mkHandle (h_pos h) true)) a)) (sealed w) (totalSz w) w) d.
Proof using Hst Ha.
  intros Hh. destruct active_file as (ps & f & Hok & Hf & Hp).
  destruct (seg_file_change d d a (Some (mkHandle (h_pos h) true)) ps f f) as [Hev Hok']; [done..|lia|].
  apply (update_active A fl fl w d a); [done|done|done|done|by exists ps| | |cbn; lia].
  - intros s h' [= <-] [= <-]. cbn. by apply (st_active _ _ _ Hst a h Ha Hh).
  - apply (st_names _ _ _ Hst).
Qed.

(** Bytes of a write reach the file. *)
Lemma write_active h k :
  sfile a = Some h ->
  let h' := mkHandle (h_pos h + zlen k) (h_closed h) in
  op_ok A w d (fl ++ k) (set_segs (Some (seg_set_file (Some h') a)) (sealed w) (totalSz w) w)
    (os_write (path a) (h_pos h) k d).
Proof using Hst Ha.
  intros Hh h'. destruct active_file as (ps & f & Hok & Hf & Hp).
  destruct (st_active _ _ _ Hst a h Ha Hh) as [Hd Hpos].
  assert (os_data (path a) d = encs ps ++ fl) as Hdata by (by rewrite Hd, (seg_ok_data _ _ _ Hok)).
  assert (f_data f = encs ps ++ fl) as Hfd by (unfold os_data in Hdata; by rewrite Hf in Hdata).
  assert (h_pos h = zlen (f_data f)) as Hend by (rewrite Hfd, zlen_app, Hpos, (so_size _ _ _ Hok); done).
  assert (forall f', d_files d !! path a = Some f' -> write_at (h_pos h) k (f_data f') = f_data f' ++ k) as Hw.
  { intros f' Hf'. simplify_eq. unfold write_at. rewrite Hend, to_nat_zlen, firstn_all, Z.sub_diag. cbn [app].
    rewrite drop_ge; [by rewrite app_nil_r|]. unfold zlen. lia. }
  apply active_change.
  - intros f' ps' Hok' Hf' Hp'. cbn. rewrite (Hw f' Hf'). split; [by apply prefix_app_r|].
    rewrite Hpos. pose proof (zlen_nonneg fl). lia.
  - done.
  - intros s h'' E Eh. injection E as <-. injection Eh as <-. unfold os_data. cbn. rewrite lookup_alter_eq, Hf. cbn.
    rewrite (Hw f Hf), Hfd, (so_size _ _ _ Hok), to_nat_zlen, <-app_assoc, take_app_length, !zlen_app.
    split; [done|]. rewrite Hpos, (so_size _ _ _ Hok). lia.
Qed.

(** The write in flight is published: its bytes are the records [qs]. *)
Lemma publish_active qs :
  Forall valid qs -> fl = encs qs -> (exists h, sfile a = Some h) ->
  op_ok A w d []
    (set_segs (Some (seg_publish (zlen qs) (size a + zlen fl) a)) (sealed w) (totalSz w + zlen fl) w) d.
Proof using Hst Ha.
  intros Hqs Efl [h Hh]. destruct active_file as (ps & f & Hok & Hf & Hp).
  destruct (st_active _ _ _ Hst a h Ha Hh) as [Hd Hpos]. rewrite (seg_ok_data _ _ _ Hok) in Hd.
  assert (f_data f = encs (ps ++ qs)) as Hfd.
  { unfold os_data in Hd. rewrite Hf in Hd. cbn in Hd. by rewrite Hd, Efl, encs_app. }
  assert (size a + zlen fl = zlen (encs (ps ++ qs))) as Esz by (by rewrite encs_app, zlen_app, (so_size _ _ _ Hok), Efl).
  rewrite Esz. assert (seg_ok d (seg_publish (zlen qs) (zlen (encs (ps ++ qs))) a) (ps ++ qs)) as Hok'.
  { apply seg_ok_publish; [done..|]. exists f. by rewrite Hfd. }
  apply (update_active A fl [] w d a); [done|done|done| |by exists (ps ++ qs)| |apply (st_names _ _ _ Hst)|cbn; lia].
  - pose proof (zlen_nonneg fl). split; [done|done|cbn; lia|..].
    + rewrite (seg_ok_records _ _ _ Hok), (seg_ok_records _ _ _ Hok'), layout_app. by apply prefix_app_r.
    + intros r Hr Hc. left. rewrite (seg_ok_records _ _ _ Hok') in Hr. rewrite (seg_ok_records _ _ _ Hok).
      split; [|done]. apply elem_of_layout in Hr as (i & p & Hi & ->). cbn in Hc.
      assert (i < length ps)%nat as Hlt.
      { destruct (so_acks _ _ _ Hok) as [k [Hk Hpend Hack _]]. destruct (decide (i < length ps)%nat) as [|Hge]; [done|exfalso].
        pose proof (pos_of_le (ps ++ qs) (length ps) i ltac:(lia)) as Hle. rewrite (pos_of_app ps qs (length ps)) in Hle by lia.
        destruct Hc as [Hc|Hc]; cbn in Hc.
        - rewrite Hpend in Hc. pose proof (pos_of_le ps k (length ps) ltac:(lia)). lia.
        - destruct (Hack _ Hc) as (j & Hj & E). pose proof (pos_of_lt ps j (length ps) ltac:(lia) ltac:(lia)). lia. }
      rewrite lookup_app_l in Hi by done. rewrite (pos_of_app ps qs i) by lia. apply elem_of_layout. eauto.
    + done.
    + intros g g' Hg Hg'. cbn in Hg'. simplify_eq. lia.
  - intros s h' [= <-] Hh'. cbn in *. simplify_eq. unfold os_data. rewrite Hf. cbn.
    rewrite Hfd, to_nat_zlen, firstn_all, app_nil_r, Hpos, Esz. unfold zlen. cbn. split; [done|lia].
Qed.

End active.
(** *** The operations *)

(** The fields of the log other than its segments. *)
Definition same_control (w w' : WAL) : Prop :=
  opts w' = opts w /\ cur w' = cur w /\ curGen w' = curGen w /\ doneGen w' = doneGen w /\
  flushing w' = flushing w /\ closed w' = closed w /\ closing w' = closing w.

Lemma rollback_ok fl w d a n err terr kerr :
  store_ok fl w d -> active w = Some a -> n = zlen fl ->
  let '(_, a', d') := rollbackLocked a n err terr kerr d in
  op_ok A w d [] (set_active (Some a') w) d'.
Proof.
  intros Hst Ha ->. unfold rollbackLocked, set_active. destruct (sfile a) as [h|] eqn:Hh.
  2:{ pose proof (retire_active Hst Ha) as H. rewrite <-Hh in H. by rewrite set_file_same in H. }
  destruct (active_file Hst Ha) as (ps & f & Hok & Hf & Hp).
  destruct (st_active _ _ _ Hst a h Ha Hh) as [Hd Hpos].
  destruct (Z.ltb_spec 0 (zlen fl)) as [Hn|Hn].
  2:{ assert (fl = []) as -> by (destruct fl; [done|unfold zlen in Hn; cbn in Hn; lia]).
      rewrite (set_active_same w a Ha). by apply op_refl. }
  destruct terr as [te|]; [by apply (retire_active Hst Ha)|].
  assert (op_ok A w d [] (set_segs (Some (seg_set_file (Some (mkHandle (size a) (h_closed h))) a)) (sealed w) (totalSz w) w)
    (os_truncate (path a) (size a) d)) as Htr.
  { assert (forall f', d_files d !! path a = Some f' -> truncate_to (size a) (f_data f') = encs ps) as Ht.
    { intros f' Hf'. simplify_eq. destruct Hp as [t E]. unfold truncate_to. rewrite (so_size _ _ _ Hok), E, zlen_app.
      pose proof (zlen_nonneg t). rewrite zeros_nonpos by lia. by rewrite app_nil_r, to_nat_zlen, take_app_length. }
    apply (active_change Hst Ha).
    - intros f' ps' Hok' Hf' Hp'. cbn. rewrite (Ht f' Hf'), (seg_ok_inj _ _ _ _ Hok' Hok). split; [done|lia].
    - done.
    - intros s h' [= <-] [= <-]. unfold os_data. cbn. rewrite lookup_alter_eq, Hf. cbn. rewrite (Ht f Hf).
      rewrite (so_size _ _ _ Hok), to_nat_zlen, firstn_all, app_nil_r. unfold zlen. cbn. split; [done|lia]. }
  destruct kerr as [ke|]; [|done]. eapply op_trans; [done|].
  exact (retire_active (op_store _ _ _ _ _ _ Htr) eq_refl).
Qed.

Lemma seal_ok serr cerr removed w d :
  store_ok [] w d -> (forall a, active w = Some a -> sfile a <> None) ->
  let '(r, w', d') := sealActiveLocked serr cerr removed w d in
  op_ok A w d [] w' d' /\ same_control w w' /\ nextID w' = nextID w /\ (r = None -> active w' = None).
Proof.
  intros Hst Hopen. unfold sealActiveLocked. destruct (active w) as [a|] eqn:Ha; [|by split; [apply op_refl|]].
  assert (forall w1 d1 a1, op_ok A w d [] w1 d1 -> active w1 = Some a1 -> sfile a1 = None -> sealed w1 = sealed w ->
    totalSz w1 = totalSz w -> (forall f, d_files d1 !! path a1 = Some f -> size a1 <= f_durable f) ->
    let '(w', d') := if 0 <? unacked a1
      then (set_segs None (sealed w ++ [a1]) (totalSz w) w1, d1)
      else (set_segs None (sealed w) (totalSz w - size a1) w1, if removed then os_remove (path a1) d1 else d1) in
    op_ok A w d [] w' d') as Hfin.
  { intros w1 d1 a1 Hop Ha1 Hf1 <- <- Hdur. pose proof (op_store _ _ _ _ _ _ Hop) as Hst1.
    destruct (Z.ltb_spec 0 (unacked a1)) as [Hu|Hu]; eapply op_trans; [done| |done|].
    - by eapply seal_active.
    - eapply drop_active; [done|done|done|..].
      + intros s Hs. destruct removed; [|done]. apply remove_other. by apply (sealed_path_ne Hst1 Ha1).
      + destruct removed; [apply names_remove|]; apply (st_names _ _ _ Hst1). }
  destruct (sfile a) as [h|] eqn:Hh.
  - destruct (if h_closed h then Some os_ErrClosed else serr) as [e|]; [by split; [apply op_refl|]|].
    pose proof (fsync_active Hst Ha) as Hop. pose proof (op_store _ _ _ _ _ _ Hop) as Hst1.
    destruct cerr as [e|].
    + split; [|by split]. eapply op_trans; [done|]. by apply (close_handle Hst1 Ha).
    + specialize (Hfin (set_segs (Some (seg_set_file None a)) (sealed w) (totalSz w) w) (os_fsync (path a) d) (seg_set_file None a)).
      assert (forall f, d_files (os_fsync (path a) d) !! path a = Some f -> size a <= f_durable f) as Hdur.
      { destruct (active_file Hst Ha) as (ps & f0 & Hok & Hf0 & [t Ht]). intros f. cbn. rewrite lookup_alter_eq, Hf0.
        intros [= <-]. cbn. rewrite Ht, zlen_app, (so_size _ _ _ Hok). pose proof (zlen_nonneg t). lia. }
      destruct (0 <? unacked (seg_set_file None a)); (split; [|by split]); apply Hfin; try done;
        (eapply op_trans; [done|]; by apply (retire_active Hst1)).
  - by destruct (Hopen a eq_refl).
Qed.

Lemma open_new_ok oerr w d :
  store_ok [] w d -> active w = None -> 0 < nextID w -> nextID w + 1 < 2 ^ 64 ->
  let '(r, w', d') := openNewActiveLocked oerr w d in
  op_ok A w d [] w' d' /\ same_control w w' /\ nextID w' = nextID w + 1.
Proof.
  intros Hst Ha Hn0 Hn. unfold openNewActiveLocked. set (mode := if insecurePermissions _ then 420 else fileMode).
  assert (u64 (nextID w + 1) = nextID w + 1) as -> by (unfold u64; rewrite Z.mod_small; lia).
  assert (op_ok A w d [] (set_nextID (nextID w + 1) w) d) as Hfail.
  { destruct Hst as [Hc Hse Hac Ht Hna]. split; [split; try done| |].
    - eapply core_next; [done|]. cbn. lia.
    - apply (names_next _ (nextID w)); [cbn; lia|done].
    - change (live (set_nextID (nextID w + 1) w)) with (live w).
      apply evolves_pointwise; [cbn; lia|]. apply Forall2_same_length_lookup_2; [done|].
      intros i s s' Hs Hs'. simplify_eq. apply seg_evolves_refl.
    - intros base [Hb1 Hb2 Hb3]. split; [cbn; lia|done|done]. }
  destruct oerr as [e|]; [by split; [apply Hfail|]|].
  destruct (d_files d !! segment_name (nextID w)) as [f|] eqn:Hfree; [by split; [apply Hfail|]|].
  split; [|by split]. destruct Hst as [Hc Hse Hac Ht Hna].
  unfold live in Hc. rewrite Ha in Hc. change (option_list None) with (@nil segmentRef) in Hc.
  set (d' := set_files _ d). set (a := mkSeg _ _ _ _ _ _ _ _).
  assert (forall s, s ∈ sealed w ++ [] -> d_files d' !! path s = d_files d !! path s) as Hsame.
  { intros s Hs. cbn. rewrite lookup_insert_ne; [done|]. intros E.
    destruct (core_files _ _ _ _ Hc Hs) as [f Hf]. congruence. }
  assert (seg_ok d' a []) as Hok.
  { split; [done|done|done| |done|].
    - eexists. cbn. rewrite lookup_insert_eq. split; [done|]. by exists [].
    - exists 0%nat. split; [done|done|by intros x ?%elem_of_empty|]. cbn. by rewrite size_empty. }
  split; [split| |].
  - unfold live. cbn. apply core_add; [|done|done|done|by exists []].
    rewrite app_nil_r in *. by apply (core_same _ _ d).
  - done.
  - intros s h [= <-] [= <-]. unfold os_data. cbn. rewrite lookup_insert_eq. done.
  - unfold live. cbn. rewrite Ht. unfold live. rewrite Ha, !total_size_app. done.
  - apply names_add; [done|done|done| |done]. unfold perm_ok. cbn. unfold mode. cbn.
    destruct (insecurePermissions (opts w)); [by left|by right].
  - unfold live. rewrite Ha. cbn. rewrite app_nil_r. apply evolves_add.
    + lia.
    + intros s Hs. apply Hsame. by rewrite app_nil_r.
    + done.
    + by apply (seg_ok_records d' a []).
  - intros base [Hb1 Hb2 Hb3]. split; [cbn; lia|by intros a0 [= <-]|]. intros s f Hs. cbn in Hs.
    rewrite Hsame by (by rewrite app_nil_r). by apply Hb3.
Qed.

(** *** Syncing and closing *)

Lemma sync_ok fl serr w d :
  store_ok fl w d -> op_ok A w d fl w (Sync serr w d).2.
Proof.
  intros Hst. unfold Sync. destruct (active w) as [[i pa [h|] sz rc un ac pp]|] eqn:Ha; [|by apply op_refl..].
  destruct (if h_closed h then Some os_ErrClosed else serr); [by apply op_refl|].
  by apply (fsync_active Hst Ha).
Qed.

Lemma set_fault_ok fl e w d : store_ok fl w d -> op_ok A w d fl (set_fault e w) d.
Proof. intros Hst. by apply op_fields. Qed.

Lemma fsyncOnce_ok fl sid serr w d :
  store_ok fl w d ->
  let '(w', d') := fsyncOnce sid serr w d in
  op_ok A w d fl w' d' /\ same_control w w' /\ active w' = active w /\ nextID w' = nextID w.
Proof.
  intros Hst. unfold fsyncOnce. pose proof (set_fault_ok fl) as Hfault.
  assert (op_ok A w d fl w d) as Hrefl by by apply op_refl.
  destruct (active w) as [a|] eqn:Ha; [|by cbn; rewrite ?Ha].
  destruct (id a =? sid); [|by cbn; rewrite ?Ha].
  destruct (sfile a) as [h|]; [|by cbn; rewrite ?Ha]. cbn [andb].
  destruct (if h_closed h then Some os_ErrClosed else serr).
  - split; [by apply Hfault|]. by rewrite <-Ha.
  - split; [|by rewrite <-Ha]. eapply op_trans; [by apply (fsync_active Hst Ha)|].
    apply Hfault. by eapply op_store, fsync_active.
Qed.

Lemma close_finish_ok serr cerr rerr w d :
  store_ok [] w d ->
  let '(_, w', d') := close_finish serr cerr rerr w d in
  op_ok A w d [] w' d' /\ same_control w w' /\ nextID w' = nextID w.
Proof.
  intros Hst. unfold close_finish. destruct (active w) as [a|] eqn:Ha; [|by split; [apply op_refl|]].
  set (r := match sfile a with None => _ | Some h => _ end).
  assert (exists errs a1 d1, r = (errs, a1, d1) /\
    op_ok A w d [] (set_segs (Some a1) (sealed w) (totalSz w) w) d1) as (errs & a1 & d1 & Er & Hop).
  { unfold r. destruct (sfile a) as [h|] eqn:Hh.
    - destruct (if h_closed h then Some os_ErrClosed else serr); eexists _, _, _; (split; [done|]).
      + by apply (retire_active Hst Ha).
      + eapply op_trans; [by apply (fsync_active Hst Ha)|]. apply (retire_active (op_store _ _ _ _ _ _ (fsync_active Hst Ha)) Ha).
    - eexists _, _, _. split; [done|]. rewrite (set_active_same w a Ha). by apply op_refl. }
  rewrite Er. clear r Er. pose proof (op_store _ _ _ _ _ _ Hop) as Hst1.
  destruct (Z.leb_spec (unacked a1) 0) as [Hu|_]; [|by split].
  assert (forall d2, d2 = d1 \/ d2 = os_remove (path a1) d1 ->
    op_ok A w d [] (set_segs None (sealed w) (totalSz w - size a1) w) d2) as Hdrop.
  { intros d2 Hd2. eapply op_trans; [done|].
    refine (drop_active A [] _ d1 a1 d2 Hst1 eq_refl Hu _ _).
    - intros s Hs. destruct Hd2 as [-> | ->]; [done|]. apply remove_other. by apply (sealed_path_ne Hst1 eq_refl).
    - destruct Hd2 as [-> | ->]; [|apply names_remove]; apply (st_names _ _ _ Hst1). }
  destruct rerr as [e|]; (split; [|by split]); apply Hdrop; auto.
Qed.

(** *** Acknowledging and reading *)

(** A segment that keeps its file and its size. *)
Definition seg_update (d : disk) (s s' : segmentRef) : Prop :=
  seg_evolves A d s d s' /\ (exists ps, seg_ok d s' ps) /\ sfile s' = sfile s /\ size s' = size s.

Lemma total_size_pointwise l l' : Forall2 (fun s s' => size s = size s') l l' -> total_size l = total_size l'.
Proof. induction 1 as [|s s' l l' E _ IH]; [done|]. cbn. unfold total_size in IH. by rewrite E, IH. Qed.

Lemma pointwise_ok fl w d l' a' :
  store_ok fl w d -> Forall2 (seg_update d) (sealed w) l' -> option_Forall2 (seg_update d) (active w) a' ->
  op_ok A w d fl (set_segs a' l' (totalSz w) w) d.
Proof.
  intros [Hc Hse Hac Ht Hna] Hl Ha.
  assert (Forall2 (seg_update d) (live w) (live (set_segs a' l' (totalSz w) w))) as HF.
  { unfold live. cbn. apply Forall2_app; [done|]. destruct Ha as [s s' ?|]; cbn; [constructor; [done|constructor]|constructor]. }
  split; [split; cbn| |].
  - apply (core_pointwise _ _ _ _ _ Hc). eapply Forall2_impl; [done|]. intros s s' (E & ? & _).
    split; [apply (ev_id _ _ _ _ _ E)|done].
  - clear -Hse Hl. induction Hl as [|s s' k k' (_ & _ & E & _) _ IH]; [done|].
    inversion_clear Hse. constructor; [by rewrite E|auto].
  - intros s' h -> Hh. inversion Ha as [s ? (E & _ & Hf & Hs) Es|]; subst. rewrite Hf in Hh.
    destruct (Hac s h (eq_sym Es) Hh). rewrite (ev_path _ _ _ _ _ E), Hs. done.
  - rewrite Ht. apply total_size_pointwise. eapply Forall2_impl; [done|]. by intros s s' (_ & _ & _ & ->).
  - done.
  - apply evolves_pointwise; [cbn; lia|]. eapply Forall2_impl; [done|]. by intros s s' (? & _).
  - intros base [Hb1 Hb2 Hb3]. split; cbn; [done|..].
    + intros s' ->. inversion Ha as [s ? (E & _) Es|]; subst. rewrite (ev_id _ _ _ _ _ E). by apply Hb2.
    + intros s' f [i Hi]%list_elem_of_lookup Hid Hf. destruct (Forall2_lookup_r _ _ _ _ _ Hl Hi) as (s & Hs & E & _ & _ & Esz).
      rewrite Esz. rewrite (ev_id _ _ _ _ _ E) in Hid. rewrite (ev_path _ _ _ _ _ E) in Hf.
      by apply (Hb3 s f); [eapply list_elem_of_lookup_2|..].
Qed.

Lemma seg_update_refl d s : (exists ps, seg_ok d s ps) -> seg_update d s s.
Proof. intros Hok. split_and!; [apply seg_evolves_refl|done..]. Qed.

Lemma store_update_refl fl w d :
  store_ok fl w d -> Forall2 (seg_update d) (sealed w) (sealed w) /\ option_Forall2 (seg_update d) (active w) (active w).
Proof.
  intros Hst. pose proof (co_segs _ _ _ (st_core _ _ _ Hst)) as HF. unfold live in HF.
  apply Forall_app in HF as [HF HA]. split.
  - clear -HF. induction HF; constructor; [by apply seg_update_refl|done].
  - destruct (active w) as [a|]; constructor. apply seg_update_refl. by inversion HA.
Qed.

Lemma ack_fields pos s :
  id (seg_ack pos s) = id s /\ path (seg_ack pos s) = path s /\ size (seg_ack pos s) = size s /\
  sfile (seg_ack pos s) = sfile s.
Proof. unfold seg_ack. by repeat case_match. Qed.

Lemma ack_update d s ps i p :
  seg_ok d s ps -> ps !! i = Some p -> A (mkOffset (id s) (pos_of ps i)) p -> seg_update d s (seg_ack (pos_of ps i) s).
Proof.
  intros Hok Hp HA. assert (i < length ps)%nat as Hi by by eapply lookup_lt_Some. destruct (ack_fields (pos_of ps i) s) as (Ei & Ep & Es & Ef).
  assert (seg_ok d (seg_ack (pos_of ps i) s) ps) as Hok' by by eapply seg_ok_ack.
  assert (seg_records d (seg_ack (pos_of ps i) s) = seg_records d s) as Er.
  { by rewrite (seg_ok_records _ _ _ Hok), (seg_ok_records _ _ _ Hok'). }
  split_and!; [|by exists ps|done|done]. split; [done|done|lia|by rewrite Er|..].
  - rewrite Er. intros r Hr Hc. destruct (consumed_ack _ _ _ Hc) as [?|E]; [by left|right]. rewrite E.
    rewrite (seg_ok_records _ _ _ Hok) in Hr.
    rewrite (layout_inj ps r (mkRaw (pos_of ps i) p)); [done|done|apply elem_of_layout; eauto|done].
  - intros r _. apply consumed_ack_mono.
  - intros f f' Hf Hf'. simplify_eq. lia.
Qed.

(** What the loop of [Ack] over the sealed segments does. *)
Lemma ack_sealed_split off l :
  (ack_sealed off l = (l, None) /\ forall s, s ∈ l -> id s <> SegmentID off) \/
  exists l1 s l2, l = l1 ++ s :: l2 /\ id s = SegmentID off /\
    ack_sealed off l =
    (if unacked (seg_ack (Position off) s) <=? 0 then (l1 ++ l2, Some (seg_ack (Position off) s))
     else (l1 ++ seg_ack (Position off) s :: l2, None)).
Proof.
  induction l as [|s l IH].
  - left. split; [done|]. by intros s ?%not_elem_of_nil.
  - cbn [ack_sealed]. destruct (Z.eqb_spec (id s) (SegmentID off)) as [E|E].
    + right. exists [], s, l. by case_match.
    + destruct IH as [[-> IH]|(l1 & s' & l2 & -> & E' & ->)].
      * left. split; [done|]. intros s' [-> |Hs']%elem_of_cons; auto.
      * right. exists (s :: l1), s', l2. split_and!; [done|done|]. by case_match.
Qed.

(** A sealed segment is dropped. *)
Lemma drop_sealed fl w d l1 s l2 (removed : bool) :
  store_ok fl w d -> sealed w = l1 ++ s :: l2 -> unacked s <= 0 ->
  op_ok A w d fl (set_segs (active w) (l1 ++ l2) (totalSz w - size s) w)
    (if removed then os_remove (path s) d else d).
Proof.
  intros [Hc Hse Hac Ht Hna] El Hu. set (d' := if removed then _ else d).
  assert (live w = l1 ++ s :: (l2 ++ option_list (active w))) as El1 by (unfold live; by rewrite El, <-app_assoc).
  set (w' := set_segs _ _ _ w).
  assert (live w' = l1 ++ (l2 ++ option_list (active w))) as El2 by (unfold live, w'; cbn; by rewrite <-app_assoc).
  rewrite El1 in Hc, Ht. rewrite El in Hse. apply Forall_app in Hse as [? [? ?]%Forall_cons].
  assert (forall s', s' ∈ l1 ++ (l2 ++ option_list (active w)) -> d_files d' !! path s' = d_files d !! path s') as Hsame.
  { intros s' Hs'. unfold d'. destruct removed; [|done]. apply remove_other. by eapply core_path_ne. }
  destruct (core_file _ _ _ s Hc) as (ps & f & Hok & _); [rewrite elem_of_app, elem_of_cons; tauto|].
  split; [split| |].
  - rewrite El2. apply (core_same _ _ d); [by apply core_drop in Hc|done].
  - by apply Forall_app.
  - intros a h Ha Hh. cbn in Ha. assert (d_files d' !! path a = d_files d !! path a) as E.
    { apply Hsame. rewrite Ha, !elem_of_app. right; right. by left. }
    unfold os_data. rewrite E. by apply Hac.
  - rewrite El2. cbn. rewrite Ht, total_size_app, (total_size_app l1). cbn. unfold total_size. lia.
  - cbn. unfold d'. destruct removed; [by apply names_remove|done].
  - rewrite El1, El2. apply evolves_drop; [done|]. intros r Hr. left.
    rewrite (seg_ok_records _ _ _ Hok) in Hr. by apply (all_consumed d s ps).
  - intros base [Hb1 Hb2 Hb3]. split; cbn; [done|done|]. intros s' g Hs'.
    rewrite Hsame by (rewrite !elem_of_app in *; tauto). apply Hb3. rewrite El, elem_of_app, elem_of_cons.
    apply elem_of_app in Hs'. tauto.
Qed.

(** The offset of an acknowledgement is that of a record, if its segment is
    live. *)
Definition ack_valid (w : WAL) (d : disk) (off : Offset) : Prop :=
  forall s, s ∈ live w -> id s = SegmentID off -> exists p, mkRaw (Position off) p ∈ seg_records d s /\ A off p.

Lemma ack_update_live fl w d off s :
  store_ok fl w d -> ack_valid w d off -> s ∈ live w -> id s = SegmentID off ->
  seg_update d s (seg_ack (Position off) s).
Proof.
  intros Hst Hv Hs Ei. destruct (Hv s Hs Ei) as (p & Hp & HA).
  destruct (core_file _ _ _ s (st_core _ _ _ Hst) Hs) as (ps & f & Hok & _).
  rewrite (seg_ok_records _ _ _ Hok) in Hp. apply elem_of_layout in Hp as (i & q & Hi & [= Epos ->]).
  rewrite Epos. eapply ack_update; [done|done|]. rewrite Ei, <-Epos. by destruct off.
Qed.

Lemma Ack_ok fl off removed w d :
  store_ok fl w d -> ack_valid w d off ->
  let '(w', d') := Ack off removed w d in
  op_ok A w d fl w' d' /\ same_control w w' /\ nextID w' = nextID w /\ sfile <$> active w' = sfile <$> active w.
Proof.
  intros Hst Hv. unfold Ack. destruct (IsZero off || closed w); [by split; [apply op_refl|]|].
  destruct (store_update_refl fl w d Hst) as [Hrs Hra].
  assert (let '(w', d') := match ack_sealed off (sealed w) with
      | (l, Some s) => (set_segs (active w) l (totalSz w - size s) w, if removed then os_remove (path s) d else d)
      | (l, None) => (set_segs (active w) l (totalSz w) w, d) end in
    op_ok A w d fl w' d' /\ same_control w w' /\ nextID w' = nextID w /\ sfile <$> active w' = sfile <$> active w) as Hsealed.
  { destruct (ack_sealed_split off (sealed w)) as [[-> _]|(l1 & s & l2 & El & Ei & ->)].
    { split; [by apply pointwise_ok|done]. }
    assert (op_ok A w d fl (set_segs (active w) (l1 ++ seg_ack (Position off) s :: l2) (totalSz w) w) d) as Hop.
    { apply pointwise_ok; [done| |done]. rewrite El in Hrs |- *. apply Forall2_app_inv_l in Hrs as (k1 & k2 & H1 & H2 & E).
      apply app_inj_1 in E as [<- <-]; [|by eapply Forall2_length]. inversion_clear H2.
      apply Forall2_app; [done|]. constructor; [|done]. apply (ack_update_live fl w); [done..| |done].
      unfold live. rewrite El, !elem_of_app, elem_of_cons. tauto. }
    destruct (Z.leb_spec (unacked (seg_ack (Position off) s)) 0) as [Hu|_]; (split; [|done]); [|done].
    eapply op_trans; [done|]. exact (drop_sealed fl _ d l1 _ l2 removed (op_store _ _ _ _ _ _ Hop) eq_refl Hu). }
  destruct (active w) as [a|] eqn:Ha; [|done].
  destruct (Z.eqb_spec (id a) (SegmentID off)) as [Ei|_]; [|done].
  destruct (ack_fields (Position off) a) as (_ & _ & _ & Ef).
  split; [|split_and!; [by split|done|change (Some (sfile (seg_ack (Position off) a)) = Some (sfile a)); by rewrite Ef]].
  unfold set_active. apply pointwise_ok; [done|done|]. rewrite Ha. constructor.
  apply (ack_update_live fl w); [done..| |done]. rewrite (live_active Ha), elem_of_app, elem_of_cons. tauto.
Qed.

Lemma consumed_after_ack d s ps i :
  seg_ok d s ps -> (i < length ps)%nat -> consumed (seg_ack (pos_of ps i) s) (pos_of ps i).
Proof.
  intros Hok Hi. destruct (lookup_lt_is_Some_2 ps i Hi) as [p Hp].
  assert (pos_of ps i < size s).
  { rewrite (so_size _ _ _ Hok), <-(pos_of_all ps (length ps)) by done. by apply pos_of_lt. }
  pose proof (pos_of_nonneg ps i). unfold seg_ack.
  destruct ((_ <? _) || _ || _ || _) eqn:E.
  - rewrite !orb_true_iff, !Z.ltb_lt, Z.leb_le, Z.eqb_eq in E. destruct E as [[[?|?]|?]|Hu]; [by left|lia|lia|].
    apply (all_consumed d s ps (mkRaw (pos_of ps i) p)); [done|lia|]. apply elem_of_layout. eauto.
  - case_bool_decide; right; [done|]. cbn. apply elem_of_union. left. by apply elem_of_singleton.
Qed.

Lemma ack_sealed_effect off l rest n d :
  core n (l ++ rest) d -> (forall s, s ∈ rest -> id s <> SegmentID off) ->
  (forall s, s ∈ l -> id s = SegmentID off -> consumed (seg_ack (Position off) s) (Position off)) ->
  forall s, s ∈ (ack_sealed off l).1 ++ rest -> id s = SegmentID off -> consumed s (Position off).
Proof.
  intros Hc Hrest Hack s Hs Es.
  destruct (ack_sealed_split off l) as [[E Hno]|(l1 & x & l2 & -> & Ex & E)]; rewrite E in Hs; clear E.
  { apply elem_of_app in Hs as [Hs|Hs]; [by destruct (Hno s Hs)|by destruct (Hrest s Hs)]. }
  assert (s ∈ l1 ++ l2 \/ s = seg_ack (Position off) x) as [Hin| ->].
  { apply elem_of_app in Hs as [Hs|Hs]; [|by destruct (Hrest s Hs)].
    destruct (unacked _ <=? 0); [by left|]. cbn in Hs. rewrite elem_of_app, elem_of_cons in Hs. rewrite elem_of_app. destruct Hs as [?|[?|?]]; auto. }
  - exfalso. rewrite <-app_assoc in Hc. cbn in Hc. apply elem_of_app in Hin.
    assert (s = x) as ->.
    { apply (core_unique _ _ _ s x Hc); [| |congruence]; rewrite elem_of_app, elem_of_cons, elem_of_app; destruct Hin; auto. }
    by apply (core_path_ne n l1 x (l2 ++ rest) d x Hc); [rewrite !elem_of_app; destruct Hin; auto|].
  - apply Hack; [rewrite elem_of_app, elem_of_cons; auto|done].
Qed.

(** The record an acknowledgement names has been acknowledged. *)
Lemma Ack_effect fl off removed w d p :
  store_ok fl w d -> closed w = false -> IsZero off = false ->
  (forall s, s ∈ live w -> id s = SegmentID off -> mkRaw (Position off) p ∈ seg_records d s) ->
  forall s, s ∈ live (Ack off removed w d).1 -> id s = SegmentID off -> consumed s (Position off).
Proof.
  intros Hst Hcl Hz Hrec. pose proof (st_core _ _ _ Hst) as Hc.
  assert (forall s, s ∈ live w -> id s = SegmentID off -> consumed (seg_ack (Position off) s) (Position off)) as Hack.
  { intros s Hs Ei. pose proof (Hrec s Hs Ei) as Hr. destruct (core_file _ _ _ s Hc Hs) as (ps & f & Hok & _).
    rewrite (seg_ok_records _ _ _ Hok) in Hr. apply elem_of_layout in Hr as (i & q & Hi & [= -> ->]).
    eapply consumed_after_ack; [done|]. by eapply lookup_lt_Some. }
  assert (forall s, s ∈ sealed w -> s ∈ live w) as Hsl by (intros s Hs; unfold live; apply elem_of_app; by left).
  unfold Ack. rewrite Hz, Hcl. cbn [orb].
  assert ((forall s, s ∈ option_list (active w) -> id s <> SegmentID off) ->
    forall s, s ∈ live (match ack_sealed off (sealed w) with
      | (l, Some s) => (set_segs (active w) l (totalSz w - size s) w, if removed then os_remove (path s) d else d)
      | (l, None) => (set_segs (active w) l (totalSz w) w, d) end).1 ->
    id s = SegmentID off -> consumed s (Position off)) as Hsealed.
  { intros Hrest s Hs. apply (ack_sealed_effect off (sealed w) (option_list (active w)) (nextID w) d Hc Hrest); [auto|].
    by destruct (ack_sealed off (sealed w)) as [l [x|]]. }
  destruct (active w) as [a|] eqn:Ha; [|apply Hsealed; by intros s ?%not_elem_of_nil].
  destruct (Z.eqb_spec (id a) (SegmentID off)) as [Ei|Hne];
    [|apply Hsealed; by intros s ->%list_elem_of_singleton].
  intros s Hs Es. cbn in Hs. unfold live in Hs. cbn in Hs. rewrite (live_active Ha) in *.
  apply elem_of_app in Hs as [Hs|Hs%list_elem_of_singleton].
  - exfalso. assert (s = a) as -> by (apply (core_unique _ _ _ s a Hc); [auto|rewrite elem_of_app, elem_of_cons; auto|congruence]).
    by apply (core_path_ne (nextID w) (sealed w) a [] d a Hc); [rewrite app_nil_r|].
  - subst s. apply Hack; [rewrite elem_of_app, elem_of_cons; auto|done].
Qed.

(** The records [ReadPending] is to return, over a list of segments. *)
Definition pending_all (skip : option (Offset -> bool)) (d : disk) (l : list segmentRef) : list WRecord :=
  concat ((fun s => pending_from skip s (seg_records d s)) <$> l).

Section reading.
Variables (env : readEnv) (limit : Z) (skip : option (Offset -> bool)) (d : disk).

Lemma read_segment_ok s out :
  (exists ps, seg_ok d s ps) -> zlen out <= limit ->
  let '(e, s', out') := readPendingSegment env limit skip d s out in
  seg_update d s s' /\
  match e with
  | Some _ => read_fault env
  | None => out' = out ++ take (Z.to_nat (limit - zlen out)) (pending_from skip s (seg_records d s)) /\ zlen out' <= limit
  end.
Proof.
  intros [ps Hok] Hl. pose proof (readPendingSegment_ok env limit skip d s ps out Hok) as H. unfold read_post in H.
  destruct (readPendingSegment _ _ _ _ _ _) as [[e s'] out']. destruct H as (Hok' & Had & H).
  rewrite (seg_ok_records _ _ _ Hok). split.
  - assert (seg_records d s' = seg_records d s) as Er
      by (by rewrite (seg_ok_records _ _ _ Hok), (seg_ok_records _ _ _ Hok')).
    destruct Had as [Ei Ep Ef Es _ _ Hc]. split_and!; [|by exists ps|done|done].
    split; [done|done|lia|by rewrite Er|..].
    + rewrite Er. intros r Hr Hcons. left. split; [done|]. rewrite (seg_ok_records _ _ _ Hok) in Hr.
      apply elem_of_layout in Hr as (i & p & Hi & ->). apply Hc; [by eapply lookup_lt_Some|done].
    + intros r Hr Hcons. rewrite (seg_ok_records _ _ _ Hok) in Hr.
      apply elem_of_layout in Hr as (i & p & Hi & ->). apply Hc; [by eapply lookup_lt_Some|done].
    + intros f f' Hf Hf'. simplify_eq. lia.
  - destruct e; [done|]. split; [done|]. rewrite H, zlen_app, zlen_take. lia.
Qed.

Lemma read_sealed_ok l out :
  Forall (fun s => exists ps, seg_ok d s ps) l -> zlen out <= limit ->
  let '(r, l', out') := read_sealed env limit skip d l out in
  Forall2 (seg_update d) l l' /\
  match r with
  | Some (Some _) => read_fault env
  | Some None => zlen out' = limit /\ forall rest, out' = out ++ take (Z.to_nat (limit - zlen out)) (pending_all skip d l ++ rest)
  | None => zlen out' <= limit /\ forall rest,
      out ++ take (Z.to_nat (limit - zlen out)) (pending_all skip d l ++ rest) = out' ++ take (Z.to_nat (limit - zlen out')) rest
  end.
Proof.
  intros HF. revert out. induction HF as [|s l Hok HF IH]; intros out Hl; cbn [read_sealed]; [by split|].
  pose proof (read_segment_ok s out Hok Hl) as H.
  destruct (readPendingSegment env limit skip d s out) as [[[e|] s'] out1]; destruct H as [Hup H].
  { split; [|done]. constructor; [done|]. clear -HF. induction HF; constructor; [by apply seg_update_refl|done]. }
  destruct H as [E1 Hl1]. set (P := pending_from skip s (seg_records d s)) in *.
  assert (forall rest, out ++ take (Z.to_nat (limit - zlen out)) (P ++ rest) = out1 ++ take (Z.to_nat (limit - zlen out1)) rest) as Hcut.
  { intros rest. rewrite take_app, E1, <-app_assoc, zlen_app, zlen_take. do 3 f_equal. unfold zlen. lia. }
  assert (pending_all skip d (s :: l) = P ++ pending_all skip d l) as EP by done.
  destruct (Z.eqb_spec (zlen out1) limit) as [Hfull|Hnot].
  - split; [constructor; [done|]; clear -HF; induction HF; constructor; [by apply seg_update_refl|done]|].
    split; [done|]. intros rest. rewrite EP, <-app_assoc, Hcut. replace (Z.to_nat (limit - zlen out1)) with 0%nat by lia.
    by rewrite take_0, app_nil_r.
  - specialize (IH out1 Hl1). destruct (read_sealed env limit skip d l out1) as [[r l'] out2].
    destruct IH as [HF2 IH]. split; [by constructor|]. destruct r as [[e|]|]; [done|..].
    + destruct IH as [? IH]. split; [done|]. intros rest. by rewrite EP, <-app_assoc, Hcut.
    + destruct IH as [? IH]. split; [done|]. intros rest. by rewrite EP, <-app_assoc, Hcut.
Qed.

Lemma ReadPending_ok fl w :
  store_ok fl w d ->
  let '(r, w') := ReadPending env limit skip w d in
  op_ok A w d fl w' d /\ same_control w w' /\ nextID w' = nextID w /\ sfile <$> active w' = sfile <$> active w /\
  match r with
  | inl e => (closed w = true /\ e = ErrClosed) \/ read_fault env
  | inr out => closed w = false /\ out = take (Z.to_nat limit) (pending_all skip d (live w))
  end.
Proof.
  intros Hst. unfold ReadPending.
  destruct (closed w) eqn:Hcl. { split; [by apply op_refl|]. split_and!; auto; by split. }
  destruct (Z.leb_spec limit 0) as [Hl|Hl].
  { split; [by apply op_refl|]. replace (Z.to_nat limit) with 0%nat by lia. split_and!; auto; by split. }
  pose proof (co_segs _ _ _ (st_core _ _ _ Hst)) as HF. unfold live in HF. apply Forall_app in HF as [HF HA].
  destruct (store_update_refl fl w d Hst) as [_ Hra].
  pose proof (read_sealed_ok (sealed w) [] HF ltac:(unfold zlen; cbn; lia)) as H.
  destruct (read_sealed env limit skip d (sealed w) []) as [[r l'] out]. destruct H as [HF2 H].
  assert (op_ok A w d fl (set_segs (active w) l' (totalSz w) w) d) as Hop by by apply pointwise_ok.
  assert (same_control w (set_segs (active w) l' (totalSz w) w)) as Hsc by by split.
  change (zlen []) with 0 in H. rewrite Z.sub_0_r in H.
  destruct r as [[e|]|].
  - refine (conj Hop (conj Hsc (conj eq_refl (conj eq_refl _)))). by right.
  - destruct H as [_ H]. refine (conj Hop (conj Hsc (conj eq_refl (conj eq_refl (conj eq_refl _))))). unfold pending_all, live. rewrite fmap_app, concat_app.
    by apply (H (pending_all skip d (option_list (active w)))).
  - destruct H as [Hlo H]. cbn. destruct (active w) as [a|] eqn:Ha; cbn.
    + assert (exists ps, seg_ok d a ps) as Hoka by by inversion HA.
      pose proof (read_segment_ok a out Hoka Hlo) as H2.
      destruct (readPendingSegment env limit skip d a out) as [[e a'] out']. destruct H2 as [Hup H2].
      assert (op_ok A w d fl (set_active (Some a') (set_segs (Some a) l' (totalSz w) w)) d) as Hop'.
      { change (set_active (Some a') (set_segs (Some a) l' (totalSz w) w)) with (set_segs (Some a') l' (totalSz w) w).
        apply pointwise_ok; [done|done|]. rewrite Ha. by constructor. }
      destruct Hup as (_ & _ & Hsf & _).
      destruct e as [e|]; (split; [done|]); (split; [by split|]); (split; [done|]); (split; [by cbn; rewrite Hsf|]).
      * by right.
      * split; [done|]. unfold pending_all, live. rewrite Ha, fmap_app, concat_app. cbn. rewrite app_nil_r.
        destruct H2 as [-> _]. symmetry. by apply (H (pending_from skip a (seg_records d a))).
    + refine (conj Hop (conj Hsc (conj eq_refl (conj eq_refl (conj eq_refl _))))). unfold live. rewrite Ha. cbn. rewrite app_nil_r.
      specialize (H []). rewrite app_nil_r, take_nil, app_nil_r in H. done.
Qed.
End reading.

End actions.

End WalActions.
