(* ===== verification/WalBatch.v ===== *)
(** * Batches of a group commit

    A batch holds the encoding of the payloads added to it; writing a run of
    it and publishing the offsets gives each record the position at which its
    encoding was written. *)

From S2P Require Import Prelude Wal WalFormat WalStore WalRead.
From Stdlib Require Import Strings.Byte.

Module WalBatch.
Import Wal WalFormat WalStore WalRead.

(** The batch holds the payloads [ps]. *)
Record batch_ok (b : appendBatch) (ps : list bytes) : Prop := {
  bo_valid : Forall valid ps;
  bo_buf : buf b = encs ps;
  bo_starts : starts b = pos_of ps <$> seq 0 (S (length ps));
  bo_offs : length (offs b) = length ps;
  bo_errs : length (errs b) = length ps
}.

Lemma new_batch_ok : batch_ok new_batch [].
Proof. by split. Qed.

Lemma batch_ok_len b ps : batch_ok b ps -> batch_len b = length ps.
Proof. intros Hb. apply (bo_offs _ _ Hb). Qed.

Lemma reset_batch_ok b ps : batch_ok b ps -> batch_ok (reset_batch b) [].
Proof. intros Hb. split; [done|done| |done|done]. cbn. by rewrite (bo_starts _ _ Hb). Qed.

Lemma batch_start_ok b ps i : batch_ok b ps -> (i <= length ps)%nat -> batch_start b i = pos_of ps i.
Proof.
  intros Hb Hi. unfold batch_start. rewrite (bo_starts _ _ Hb), list_lookup_fmap, lookup_seq_lt by lia. done.
Qed.

Lemma batch_size_ok b ps i p : batch_ok b ps -> ps !! i = Some p -> batch_size b i = zlen (enc p).
Proof.
  intros Hb Hp. pose proof (lookup_lt_Some _ _ _ Hp). unfold batch_size.
  rewrite !(batch_start_ok b ps) by (done || lia). rewrite (pos_of_S _ _ _ Hp). lia.
Qed.

Lemma batch_ok_inj b ps qs : batch_ok b ps -> batch_ok b qs -> ps = qs.
Proof.
  intros Hp Hq. pose proof (scan_exact ps (bo_valid _ _ Hp)) as E1. pose proof (scan_exact qs (bo_valid _ _ Hq)) as E2.
  rewrite <-(bo_buf _ _ Hp) in E1. rewrite <-(bo_buf _ _ Hq) in E2. rewrite E1 in E2. injection E2 as E.
  rewrite <-(payload_layout 0 ps), <-(payload_layout 0 qs). by rewrite E.
Qed.

Lemma batch_add_ok b ps p :
  batch_ok b ps -> valid p ->
  let '(b', idx) := batch_add p (ChecksumIEEE p) b in
  batch_ok b' (ps ++ [p]) /\ idx = length ps /\ refs b' = refs b + 1 /\
  offs b' = offs b ++ [zero_offset] /\ errs b' = errs b ++ [None].
Proof.
  intros [Hv Hb Hs Ho He] Hp. cbn. split_and!; [|rewrite length_app; cbn; lia|done|done|done].
  assert ((AppendUint32 (AppendUint32 (buf b) (zlen p)) (ChecksumIEEE p)) ++ p = encs (ps ++ [p])) as Eb.
  { unfold AppendUint32. rewrite Hb, encs_snoc, <-!app_assoc. done. }
  split; cbn [starts buf offs errs].
  - apply Forall_app. split; [done|]. by constructor.
  - done.
  - rewrite Eb, Hs, length_app. change (length [p]) with 1%nat. rewrite Nat.add_1_r.
    rewrite (seq_S (S (length ps))), fmap_app. f_equal.
    + apply list_fmap_ext. intros i x Hx. apply lookup_seq in Hx as [-> Hx]. by rewrite pos_of_app by lia.
    + cbn. by rewrite pos_of_all by (rewrite length_app; cbn; lia).
  - rewrite !length_app. cbn. lia.
  - rewrite !length_app. cbn. lia.
Qed.

(** [fail] on records [i, j). *)
Lemma fold_fail_length e ks (l : list (option error)) :
  length (fold_left (fun l k => <[k := Some e]> l) ks l) = length l.
Proof. revert l. induction ks as [|k ks IH]; intros l; [done|]. cbn. rewrite IH. apply length_insert. Qed.

Lemma fold_fail_lookup e ks (l : list (option error)) k :
  fold_left (fun l k => <[k := Some e]> l) ks l !! k =
  if decide (k ∈ ks /\ (k < length l)%nat) then Some (Some e) else l !! k.
Proof.
  revert l. induction ks as [|k' ks IH]; intros l; cbn [fold_left].
  - rewrite decide_False; [done|]. by intros [?%not_elem_of_nil _].
  - rewrite IH, length_insert. destruct (decide (k = k')) as [-> |Hne].
    + destruct (decide (k' < length l)%nat) as [Hl|Hl].
      * destruct (decide (k' ∈ k' :: ks /\ _)) as [_|H]; [|destruct H; split; [by left|done]].
        destruct (decide _) as [_|_]; [done|]. by rewrite list_lookup_insert_eq.
      * rewrite !decide_False by tauto. rewrite list_insert_ge by lia. done.
    + rewrite list_lookup_insert_ne by done.
      apply decide_ext. rewrite elem_of_cons. tauto.
Qed.

Lemma batch_fail_ok i j e b ps : batch_ok b ps -> batch_ok (batch_fail i j e b) ps.
Proof. intros []. split; [done..|]. cbn. by rewrite fold_fail_length. Qed.

Lemma batch_fail_err i j e b k :
  (i <= k < j)%nat -> (k < length (errs b))%nat -> errs (batch_fail i j e b) !! k = Some (Some e).
Proof.
  intros Hk Hl. cbn. rewrite fold_fail_lookup, decide_True; [done|]. split; [|done]. apply elem_of_seq. lia.
Qed.

Lemma batch_fail_other i j e b k : (k < i)%nat -> errs (batch_fail i j e b) !! k = errs b !! k.
Proof. intros Hk. cbn. rewrite fold_fail_lookup, decide_False; [done|]. intros [?%elem_of_seq _]. lia. Qed.

(** The published offsets. *)
Lemma batch_publish_ok n sid k pos b ps :
  batch_ok b ps -> (k + n <= length ps)%nat ->
  let '(b', pos') := batch_publish n sid k pos b in
  batch_ok b' ps /\ refs b' = refs b /\ errs b' = errs b /\
  pos' = pos + (pos_of ps (k + n) - pos_of ps k) /\
  (forall m, (m < k)%nat -> offs b' !! m = offs b !! m) /\
  (forall m, (k <= m < k + n)%nat -> offs b' !! m = Some (mkOffset sid (pos + (pos_of ps m - pos_of ps k)))).
Proof.
  revert k pos b. induction n as [|n IH]; intros k pos b Hb Hk; cbn [batch_publish].
  - rewrite Nat.add_0_r. split_and!; [done..|lia|done|]. intros m Hm. lia.
  - destruct (lookup_lt_is_Some_2 ps k ltac:(lia)) as [p Hp].
    set (b1 := mkBatch _ _ _ _ _). assert (batch_ok b1 ps) as Hb1.
    { destruct Hb. split; [done..| |done]. cbn. by rewrite length_insert. }
    specialize (IH (S k) (pos + batch_size b k) b1 Hb1 ltac:(lia)).
    destruct (batch_publish n sid (S k) (pos + batch_size b k) b1) as [b' pos'].
    destruct IH as (H1 & H2 & H3 & H4 & H5 & H6). pose proof (pos_of_S ps k p Hp).
    rewrite (batch_size_ok b ps k p Hb Hp) in *. split_and!; [done..| | |].
    + rewrite H4. replace (S k + n)%nat with (k + S n)%nat by lia. lia.
    + intros m Hm. rewrite H5 by lia. cbn. by rewrite list_lookup_insert_ne by lia.
    + intros m Hm. destruct (decide (m = k)) as [-> |Hne].
      * rewrite H5 by lia. cbn. rewrite list_lookup_insert_eq by (rewrite (bo_offs _ _ Hb); lia).
        do 2 f_equal. lia.
      * rewrite H6 by lia. do 2 f_equal. lia.
Qed.

(** The run of records chosen for a segment. *)
Lemma batch_run_bounds n b j sz rc mx : (j <= batch_run n b j sz rc mx <= j + n)%nat.
Proof.
  revert j sz rc. induction n as [|n IH]; intros j sz rc; cbn; [lia|]. case_match; [|lia].
  specialize (IH (S j) (sz + batch_size b j) (rc + 1)). lia.
Qed.

Lemma batch_run_progress n b j sz rc mx :
  (0 < n)%nat -> sz + batch_size b j <= mx \/ rc = 0 -> (j < batch_run n b j sz rc mx)%nat.
Proof.
  intros Hn Hfit. destruct n as [|n]; [lia|]. cbn.
  replace ((sz + batch_size b j <=? mx) || (rc =? 0)) with true by (destruct Hfit; symmetry; apply orb_true_iff; [left|right]; lia).
  pose proof (batch_run_bounds n b (S j) (sz + batch_size b j) (rc + 1) mx). lia.
Qed.

(** The bytes of records [i, j). *)
Lemma batch_slice b ps i j :
  batch_ok b ps -> (i <= j <= length ps)%nat ->
  zslice (batch_start b i) (batch_start b j) (buf b) = encs (take (j - i) (drop i ps)).
Proof.
  intros Hb Hij. rewrite !(batch_start_ok b ps), (bo_buf _ _ Hb) by (done || lia).
  assert (ps = take i ps ++ take (j - i) (drop i ps) ++ drop j ps) as E.
  { rewrite <-(take_drop i ps) at 1. f_equal. rewrite <-(take_drop (j - i) (drop i ps)) at 1. f_equal.
    rewrite drop_drop. f_equal. lia. }
  assert (pos_of ps j = pos_of ps i + zlen (encs (take (j - i) (drop i ps)))) as Ej.
  { unfold pos_of. rewrite <-zlen_app, <-encs_app. f_equal. f_equal.
    rewrite take_drop_commute. replace (i + (j - i))%nat with j by lia.
    rewrite <-(take_drop i (take j ps)) at 1. f_equal. rewrite take_take. f_equal. lia. }
  assert (encs ps = encs (take i ps) ++ encs (take (j - i) (drop i ps)) ++ encs (drop j ps)) as Ee
    by (rewrite E at 1; by rewrite !encs_app).
  rewrite Ej, Ee, zslice_app_r by (unfold pos_of; lia).
  unfold pos_of. rewrite Z.sub_diag, Z.add_simpl_l. apply zslice_all.
Qed.

End WalBatch.
