(* ===== verification/WalSystem.v ===== *)
(** * The write-ahead log with its concurrent callers

    Any number of [Append] calls, the group-commit leader, the background
    [fsync] goroutine, [Close], [Ack], [ReadPending] and [Sync], interleaved.
    A transition is a section the code runs under one acquisition of a lock.
    The leader holds the append lock ([wmu]) at the head of its loop and gives
    it up around a write, during which the bytes reach the file in any number
    of pieces. *)

From S2P Require Import Prelude Wal.
From Stdlib Require Import Strings.Byte.

Module WalSystem.
Import Wal.

(** An [Append] in progress: about to take the append lock, or waiting for
    the result of record [idx] of batch [b], which belongs to generation
    [gen]. *)
Inductive call :=
| CLock (p : bytes) (crc : Z)
| CWait (p : bytes) (b : nat) (gen : Z) (idx : nat).

(** The leader: at the head of the loop, or writing records up to [j] with
    [n] bytes in the file. *)
Inductive phase := Scan | Writing (j : nat) (n : Z).
Record flush := mkFlush { fl_b : nat; fl_gen : Z; fl_i : nat; fl_phase : phase }.

(** The background goroutine: waiting, syncing the file it captured (for the
    last time or not), finished. *)
Inductive fsync_pc := FIdle | FCaptured (sid : Z) (final : bool) | FExited.

(** [Close]: not called, stopping the goroutine, waiting for the group
    commit, returned. *)
Inductive close_pc := COpen | CStopping | CMarked | CDone.

#[export] Instance close_pc_eq_dec : EqDecision close_pc.
Proof. solve_decision. Defined.

Record sys := mkSys {
  wal : WAL;
  dsk : disk;
  batches : gmap nat appendBatch;
  pool : list nat;
  calls : gmap nat call;
  leader : option flush;
  fsync : fsync_pc;
  closer : close_pc
}.

(** What callers observe. *)
Inductive event :=
| EvAppend (p : bytes) (r : error + Offset)
| EvAck (off : Offset)
| EvRead (r : error + list WRecord)
| EvSync (r : option error)
| EvClose (r : option error).

(** The inputs of a transition: the caller's arguments and the outcomes of the
    calls into the system. *)
Inductive label :=
| LAppendStart (tid : nat) (p : bytes)
| LAppendAdd (tid : nat)
| LLead (tid : nat) (reuse : option nat)
| LScan (serr cerr oerr : option error) (removed : bool)
| LWriteSome (k : Z)
| LWriteDone
| LWriteFail (err : error) (terr kerr : option error)
| LAppendReturn (tid : nat)
| LAck (off : Offset) (removed : bool)
| LReadPending (env : readEnv) (limit : Z) (skip : option (Offset -> bool))
| LSync (serr : option error)
| LFsyncTick (final : bool)
| LFsyncSync (serr : option error)
| LCloseBegin
| LCloseMark
| LCloseFinish (serr cerr rerr : option error).

Definition with_wal (w : WAL) (s : sys) : sys :=
  mkSys w (dsk s) (batches s) (pool s) (calls s) (leader s) (fsync s) (closer s).
Definition with_disk (w : WAL) (d : disk) (s : sys) : sys :=
  mkSys w d (batches s) (pool s) (calls s) (leader s) (fsync s) (closer s).
Definition with_calls (cs : gmap nat call) (s : sys) : sys :=
  mkSys (wal s) (dsk s) (batches s) (pool s) cs (leader s) (fsync s) (closer s).
Definition with_batches (bs : gmap nat appendBatch) (pl : list nat) (s : sys) : sys :=
  mkSys (wal s) (dsk s) bs pl (calls s) (leader s) (fsync s) (closer s).
Definition with_leader (l : option flush) (s : sys) : sys :=
  mkSys (wal s) (dsk s) (batches s) (pool s) (calls s) l (fsync s) (closer s).
Definition with_fsync (f : fsync_pc) (s : sys) : sys :=
  mkSys (wal s) (dsk s) (batches s) (pool s) (calls s) (leader s) f (closer s).
Definition with_closer (c : close_pc) (s : sys) : sys :=
  mkSys (wal s) (dsk s) (batches s) (pool s) (calls s) (leader s) (fsync s) c.

(** The state [Open] leaves: the background goroutine started, nothing in
    progress. *)
Definition start (w : WAL) (d : disk) : sys :=
  mkSys w d {[0%nat := new_batch]} [] ∅ None FIdle COpen.

(** The append lock is free: no leader, or a leader that is writing. *)
Definition wmu_free (s : sys) : bool :=
  match leader s with Some (mkFlush _ _ _ Scan) => false | _ => true end.

(** The active segment has a file to write to. *)
Definition has_file (w : WAL) : bool :=
  match active w with Some (mkSeg _ _ (Some _) _ _ _ _ _) => true | _ => false end.

(** *** Append *)

(** The checks [Append] makes before it takes the lock. *)
Definition append_checks (p : bytes) (w : WAL) : option error :=
  if zlen p =? 0 then Some ErrEmptyPayload
  else if maxRecordBytes <? zlen p then Some ErrPayloadTooLarge
  else if closed w then Some ErrClosed
  else if (0 <? maxBytes (opts w)) && (maxBytes (opts w) <? totalSz w) then Some ErrFull
  else None.

Definition append_start (tid : nat) (p : bytes) (s : sys) : option (sys * list event) :=
  match calls s !! tid with
  | Some _ => None
  | None =>
      match append_checks p (wal s) with
      | Some e => Some (s, [EvAppend p (inl e)])
      | None => Some (with_calls (<[tid := CLock p (ChecksumIEEE p)]> (calls s)) s, [])
      end
  end.

Definition append_add (tid : nat) (s : sys) : option (sys * list event) :=
  match calls s !! tid, wmu_free s with
  | Some (CLock p crc), true =>
      if closed (wal s) || negb (has_file (wal s))
      then Some (with_calls (delete tid (calls s)) s, [EvAppend p (inl ErrClosed)])
      else
        match batches s !! cur (wal s) with
        | None => None
        | Some b =>
            let '(b, idx) := batch_add p crc b in
            Some (with_calls (<[tid := CWait p (cur (wal s)) (curGen (wal s)) idx]> (calls s))
                    (with_batches (<[cur (wal s) := b]> (batches s)) (pool s) s), [])
        end
  | _, _ => None
  end.

(** [getAppendBatch]: a pooled batch (the pool hands out any of them, or none)
    or a new one. *)
Definition getAppendBatch (reuse : option nat) (s : sys) : nat * sys :=
  match reuse ≫= (fun k => (fun b => (k, b)) <$> pool s !! k) with
  | Some (k, b) => (b, with_batches (batches s) (delete k (pool s)) s)
  | None => let b := fresh (dom (batches s)) in (b, with_batches (<[b := new_batch]> (batches s)) (pool s) s)
  end.

(** The start of [flushLocked]. *)
Definition flush_start (tid : nat) (reuse : option nat) (s : sys) : option (sys * list event) :=
  match calls s !! tid, wmu_free s with
  | Some (CWait _ _ gen _), true =>
      if (doneGen (wal s) <? gen) && negb (flushing (wal s)) then
        let w := wal s in
        let '(c, s) := getAppendBatch reuse s in
        Some (with_leader (Some (mkFlush (cur w) (curGen w) 0 Scan))
                (with_wal (set_gens c (curGen w + 1) (doneGen w) true w) s), [])
      else None
  | _, _ => None
  end.

(** The result of a waiting [Append]; the last one recycles the batch. *)
Definition append_return (tid : nat) (s : sys) : option (sys * list event) :=
  match calls s !! tid, wmu_free s with
  | Some (CWait p bi gen idx), true =>
      if doneGen (wal s) <? gen then None
      else
        match batches s !! bi with
        | None => None
        | Some b =>
            match offs b !! idx, errs b !! idx with
            | Some off, Some err =>
                let b := mkBatch (buf b) (starts b) (offs b) (errs b) (refs b - 1) in
                let '(b, pl) := if refs b =? 0 then (reset_batch b, bi :: pool s) else (b, pool s) in
                Some (with_calls (delete tid (calls s)) (with_batches (<[bi := b]> (batches s)) pl s),
                      [EvAppend p (match err with Some e => inl e | None => inr off end)])
            | _, _ => None
            end
        end
  | _, _ => None
  end.

(** *** The leader *)

(** The end of [flushLocked]. *)
Definition flush_end (gen : Z) (s : sys) : sys :=
  with_leader None (with_wal (set_gens (cur (wal s)) (curGen (wal s)) gen false (wal s)) s).

(** The records from [i] on fail with [e] and the loop ends. *)
Definition flush_abort (fl : flush) (b : appendBatch) (e : error) (s : sys) : sys :=
  flush_end (fl_gen fl)
    (with_batches (<[fl_b fl := batch_fail (fl_i fl) (batch_len b) e b]> (batches s)) (pool s) s).

(** One iteration up to the write: it ends the loop, rolls the segment, or
    chooses the run of records to write. *)
Definition flush_scan (serr cerr oerr : option error) (removed : bool) (s : sys) : option (sys * list event) :=
  match leader s with
  | Some (mkFlush bi gen i Scan as fl) =>
      match batches s !! bi with
      | None => None
      | Some b =>
          if (batch_len b <=? i)%nat then Some (flush_end gen s, [])
          else
            match active (wal s), closed (wal s) || negb (has_file (wal s)) with
            | Some seg, false =>
                let max := maxSegmentBytes (opts (wal s)) in
                if (max <? size seg + batch_size b i) && (0 <? records seg) then
                  let '(err, w, d) :=
                    match sealActiveLocked serr cerr removed (wal s) (dsk s) with
                    | (Some e, w, d) => (Some e, w, d)
                    | (None, w, d) => openNewActiveLocked oerr w d
                    end in
                  let s := with_disk w d s in
                  match err with
                  | Some e => Some (flush_abort fl b e s, [])
                  | None => Some (s, [])
                  end
                else
                  let j := batch_run (batch_len b - i) b i (size seg) (records seg) max in
                  Some (with_leader (Some (mkFlush bi gen i (Writing j 0))) s, [])
            | _, _ => Some (flush_abort fl b ErrClosed s, [])
            end
      end
  | _ => None
  end.

(** [k] more bytes of the run reach the file, which is open. *)
Definition write_bytes (k : Z) (s : sys) : option sys :=
  match leader s, active (wal s) with
  | Some (mkFlush bi gen i (Writing j n)), Some seg =>
      match batches s !! bi, sfile seg with
      | Some b, Some (mkHandle pos false) =>
          let run := zslice (batch_start b i) (batch_start b j) (buf b) in
          if (0 <=? k) && (n + k <=? zlen run) then
            Some (with_leader (Some (mkFlush bi gen i (Writing j (n + k))))
                    (with_disk (set_active (Some (seg_set_file (Some (mkHandle (pos + k) false)) seg)) (wal s))
                       (os_write (path seg) pos (zslice n (n + k) run) (dsk s)) s))
          else None
      | _, _ => None
      end
  | _, _ => None
  end.

(** The bytes of the run that are not in the file yet. *)
Definition write_rest (s : sys) : Z :=
  match leader s with
  | Some (mkFlush bi _ i (Writing j n)) =>
      match batches s !! bi with
      | Some b => zlen (zslice (batch_start b i) (batch_start b j) (buf b)) - n
      | None => 0
      end
  | _ => 0
  end.

(** The write returned without an error: the run is published. *)
Definition write_done (s : sys) : option (sys * list event) :=
  match write_bytes (write_rest s) s with
  | None => None
  | Some s =>
      match leader s, active (wal s) with
      | Some (mkFlush bi gen i (Writing j _)), Some seg =>
          match batches s !! bi with
          | Some b =>
              let '(b', pos) := batch_publish (j - i) (id seg) i (size seg) b in
              let seg := seg_publish (Z.of_nat (j - i)) pos seg in
              let w := set_segs (Some seg) (sealed (wal s))
                         (totalSz (wal s) + (batch_start b j - batch_start b i)) (wal s) in
              Some (with_leader (Some (mkFlush bi gen j Scan))
                      (with_batches (<[bi := b']> (batches s)) (pool s) (with_wal w s)), [])
          | None => None
          end
      | _, _ => None
      end
  end.

(** The write returned an error after the bytes written so far. *)
Definition write_fail (err : error) (terr kerr : option error) (s : sys) : option (sys * list event) :=
  match leader s, active (wal s) with
  | Some (mkFlush bi gen i (Writing j n)), Some seg =>
      match batches s !! bi with
      | Some b =>
          let '(e, seg, d) := rollbackLocked seg n err terr kerr (dsk s) in
          Some (with_leader (Some (mkFlush bi gen j Scan))
                  (with_batches (<[bi := batch_fail i j e b]> (batches s)) (pool s)
                     (with_disk (set_active (Some seg) (wal s)) d s)), [])
      | None => None
      end
  | _, _ => None
  end.

(** *** The background goroutine and [Close] *)

(** A tick of [fsyncLoop], or its last round once [Close] has stopped it: the
    file is captured. *)
Definition fsync_tick (final : bool) (s : sys) : option (sys * list event) :=
  match fsync s with
  | FIdle =>
      if final && bool_decide (closer s = COpen) then None
      else
        match active (wal s) with
        | Some (mkSeg sid _ (Some _) _ _ _ _ _) => Some (with_fsync (FCaptured sid final) s, [])
        | _ => Some (with_fsync (if final then FExited else FIdle) s, [])
        end
  | _ => None
  end.

Definition fsync_sync (serr : option error) (s : sys) : option (sys * list event) :=
  match fsync s with
  | FCaptured sid final =>
      let '(w, d) := fsyncOnce sid serr (wal s) (dsk s) in
      Some (with_fsync (if final then FExited else FIdle) (with_disk w d s), [])
  | _ => None
  end.

Definition close_begin (s : sys) : option (sys * list event) :=
  if closing (wal s) then Some (s, [EvClose None])
  else Some (with_closer CStopping (with_wal (set_flags (closed (wal s)) true (wal s)) s), []).

Definition close_mark (s : sys) : option (sys * list event) :=
  match closer s, fsync s, wmu_free s with
  | CStopping, FExited, true =>
      Some (with_closer CMarked (with_wal (set_flags true (closing (wal s)) (wal s)) s), [])
  | _, _, _ => None
  end.

Definition close_end (serr cerr rerr : option error) (s : sys) : option (sys * list event) :=
  match closer s, wmu_free s && negb (flushing (wal s)) with
  | CMarked, true =>
      let '(err, w, d) := close_finish serr cerr rerr (wal s) (dsk s) in
      Some (with_closer CDone (with_disk w d s), [EvClose err])
  | _, _ => None
  end.

(** *** Transitions and runs *)

Definition step (l : label) (s : sys) : option (sys * list event) :=
  match l with
  | LAppendStart tid p => append_start tid p s
  | LAppendAdd tid => append_add tid s
  | LLead tid reuse => flush_start tid reuse s
  | LScan serr cerr oerr removed => flush_scan serr cerr oerr removed s
  | LWriteSome k => (fun s => (s, [])) <$> write_bytes k s
  | LWriteDone => write_done s
  | LWriteFail err terr kerr => write_fail err terr kerr s
  | LAppendReturn tid => append_return tid s
  | LAck off removed =>
      let '(w, d) := Ack off removed (wal s) (dsk s) in
      Some (with_disk w d s, [EvAck off])
  | LReadPending env limit skip =>
      let '(r, w) := ReadPending env limit skip (wal s) (dsk s) in
      Some (with_wal w s, [EvRead r])
  | LSync serr =>
      let '(r, d) := Sync serr (wal s) (dsk s) in
      Some (with_disk (wal s) d s, [EvSync r])
  | LFsyncTick final => fsync_tick final s
  | LFsyncSync serr => fsync_sync serr s
  | LCloseBegin => close_begin s
  | LCloseMark => close_mark s
  | LCloseFinish serr cerr rerr => close_end serr cerr rerr s
  end.

(** A run and what its callers observe, in order. *)
Fixpoint run (ls : list label) (s : sys) : option (sys * list event) :=
  match ls with
  | [] => Some (s, [])
  | l :: ls =>
      match step l s with
      | None => None
      | Some (s, ev) =>
          match run ls s with Some (s, evs) => Some (s, ev ++ evs) | None => None end
      end
  end.

(** A crash: the memory is lost, and of every file at least the prefix that
    was synced is left, followed by anything. *)
Definition crash_file (f f' : file) : Prop :=
  f_regular f' = f_regular f /\ f_perm f' = f_perm f /\
  prefix (take (Z.to_nat (f_durable f)) (f_data f)) (f_data f').

Definition crash (d d' : disk) : Prop :=
  d_dir d' = d_dir d /\ map_Forall2 (fun _ => crash_file) (d_files d) (d_files d').

End WalSystem.
