(* ===== verification/WalProto.v ===== *)
(** * The group-commit protocol

    The invariant of the batches, of the callers that wait on them and of the
    leader: every waiting caller finds its record in its batch, a batch is
    recycled only when nobody waits on it, and a published result satisfies a
    given relation [R] between offsets and payloads. *)

From S2P Require Import Prelude Wal WalFormat WalStore WalActions WalBatch WalSystem.
From Stdlib Require Import Strings.Byte.

Module WalProto.
Import Wal WalFormat WalStore WalActions WalBatch WalSystem.

(** ** Waiting callers *)

Definition waits (bi : nat) (c : call) : Prop :=
  match c with CWait _ b _ _ => b = bi | CLock _ _ => False end.

#[export] Instance waits_dec bi c : Decision (waits bi c).
Proof. destruct c; cbn; apply _. Defined.

Definition waiting (cs : gmap nat call) (bi : nat) : nat := base.size (filter (fun kv => waits bi kv.2) cs).

Lemma waiting_insert cs tid c bi :
  (forall c', cs !! tid = Some c' -> ~ waits bi c') ->
  waiting (<[tid := c]> cs) bi = (waiting cs bi + if decide (waits bi c) then 1 else 0)%nat.
Proof.
  intros Hold. unfold waiting. destruct (decide (waits bi c)) as [Hw|Hw].
  - rewrite map_filter_insert_True by done. rewrite map_size_insert_None; [lia|].
    apply map_lookup_filter_None. right. intros c' Hc'. by apply Hold.
  - rewrite map_filter_insert_False by done. rewrite map_filter_delete, delete_id; [lia|].
    apply map_lookup_filter_None. right. intros c' Hc'. by apply Hold.
Qed.

Lemma waiting_delete cs tid c bi :
  cs !! tid = Some c ->
  waiting cs bi = (waiting (delete tid cs) bi + if decide (waits bi c) then 1 else 0)%nat.
Proof.
  intros Hc. rewrite <-(insert_delete_id cs tid c Hc) at 1. apply waiting_insert.
  by rewrite lookup_delete_eq.
Qed.

Lemma waiting_pos cs tid c bi : cs !! tid = Some c -> waits bi c -> (0 < waiting cs bi)%nat.
Proof. intros Hc Hw. rewrite (waiting_delete _ _ _ _ Hc), decide_True by done. lia. Qed.

(** ** The invariant *)

Section proto.
Variable R : Offset -> bytes -> Prop.

(** The batch, its generation and the leader agree. *)
Definition gen_ok (s : sys) (bi : nat) (gen : Z) : Prop :=
  (gen = curGen (wal s) /\ bi = cur (wal s)) \/
  (exists fl, leader s = Some fl /\ gen = fl_gen fl /\ bi = fl_b fl) \/
  (gen <= doneGen (wal s) /\ bi <> cur (wal s) /\ forall fl, leader s = Some fl -> bi <> fl_b fl).

(** The result of record [idx] is in the batch. *)
Definition published (s : sys) (bi : nat) (gen : Z) (idx : nat) : Prop :=
  gen <= doneGen (wal s) \/ exists fl, leader s = Some fl /\ bi = fl_b fl /\ (idx < fl_i fl)%nat.

Definition result_ok (b : appendBatch) (idx : nat) (p : bytes) : Prop :=
  forall off, offs b !! idx = Some off -> errs b !! idx = Some None -> R off p.

Definition call_ok (s : sys) (c : call) : Prop :=
  match c with
  | CLock p crc => valid p /\ crc = ChecksumIEEE p
  | CWait p bi gen idx =>
      exists b ps, batches s !! bi = Some b /\ batch_ok b ps /\ ps !! idx = Some p /\
        gen_ok s bi gen /\ (published s bi gen idx -> result_ok b idx p)
  end.

Definition phase_ok (s : sys) (b : appendBatch) (i : nat) (ph : phase) : Prop :=
  match ph with
  | Scan => True
  | Writing j n =>
      (i < j <= batch_len b)%nat /\ 0 <= n <= zlen (zslice (batch_start b i) (batch_start b j) (buf b)) /\
      has_file (wal s) = true
  end.

Definition leader_ok (s : sys) : Prop :=
  match leader s with
  | None => flushing (wal s) = false /\ doneGen (wal s) + 1 = curGen (wal s)
  | Some fl =>
      flushing (wal s) = true /\ fl_gen fl = doneGen (wal s) + 1 /\ curGen (wal s) = doneGen (wal s) + 2 /\
      fl_b fl <> cur (wal s) /\
      exists b, batches s !! fl_b fl = Some b /\ (fl_i fl <= batch_len b)%nat /\ phase_ok s b (fl_i fl) (fl_phase fl)
  end.

(** A pooled batch is empty and nobody uses it. *)
Definition pooled_ok (s : sys) (bi : nat) : Prop :=
  bi <> cur (wal s) /\ (forall fl, leader s = Some fl -> bi <> fl_b fl) /\
  exists b, batches s !! bi = Some b /\ batch_len b = 0%nat /\ refs b = 0.

Record proto_ok (s : sys) : Prop := {
  po_batches : forall bi b, batches s !! bi = Some b -> exists ps, batch_ok b ps /\ refs b = Z.of_nat (waiting (calls s) bi);
  po_cur : exists b, batches s !! cur (wal s) = Some b;
  po_pool : NoDup (pool s) /\ forall bi, bi ∈ pool s -> pooled_ok s bi;
  po_leader : leader_ok s;
  po_calls : forall tid c, calls s !! tid = Some c -> call_ok s c
}.

(** ** Changes that do not touch the protocol *)

Definition writing (s : sys) : bool :=
  match leader s with Some (mkFlush _ _ _ (Writing _ _)) => true | _ => false end.

Lemma proto_wal s w d :
  proto_ok s -> same_control (wal s) w -> (writing s = true -> has_file (wal s) = true -> has_file w = true) ->
  proto_ok (with_disk w d s).
Proof.
  intros [Hb Hc Hp Hl Hcs] (Ho & Ecur & Egen & Edone & Efl & _) Hw. split; cbn.
  - done.
  - by rewrite Ecur.
  - destruct Hp as [Hnd Hp]. split; [done|]. intros bi Hbi. destruct (Hp bi Hbi) as (? & ? & ?).
    split_and!; cbn; [by rewrite Ecur|done|done].
  - unfold leader_ok in *. cbn. destruct (leader s) as [fl|] eqn:El; rewrite ?Ecur, ?Egen, ?Edone, ?Efl; [|done].
    destruct Hl as (? & ? & ? & ? & b & ? & ? & Hph). split_and!; [done..|]. exists b. split_and!; [done..|].
    unfold phase_ok in *. cbn. destruct (fl_phase fl) as [|j n] eqn:Eph; [done|]. destruct Hph as (? & ? & ?).
    split; [done|]. split; [done|]. apply Hw; [|done]. unfold writing. rewrite El. destruct fl; cbn in Eph; by subst.
  - intros tid c Hc'. specialize (Hcs tid c Hc'). destruct c; [done|]. cbn in *. unfold gen_ok, published in *. cbn.
    by rewrite Ecur, Egen, Edone.
Qed.

(** ** Callers *)

Lemma proto_lock s tid p :
  proto_ok s -> calls s !! tid = None -> valid p ->
  proto_ok (with_calls (<[tid := CLock p (ChecksumIEEE p)]> (calls s)) s).
Proof.
  intros [Hb Hc Hp Hl Hcs] Htid Hv. split; cbn; [|done|done|done|].
  - intros bi b Hbi. rewrite waiting_insert by (by rewrite Htid). cbn. rewrite Nat.add_0_r. by apply Hb.
  - intros tid' c [[<- <-]|[_ Hc']]%lookup_insert_Some; [done|]. by apply (Hcs tid').
Qed.

Lemma proto_unlock s tid p crc :
  proto_ok s -> calls s !! tid = Some (CLock p crc) -> proto_ok (with_calls (delete tid (calls s)) s).
Proof.
  intros [Hb Hc Hp Hl Hcs] Htid. split; cbn; [|done|done|done|].
  - intros bi b Hbi. destruct (Hb bi b Hbi) as (ps & ? & Hr). exists ps. split; [done|].
    rewrite Hr, (waiting_delete _ _ _ _ Htid). cbn. by rewrite Nat.add_0_r.
  - intros tid' c [_ Hc']%lookup_delete_Some. by apply (Hcs tid').
Qed.

(** Nobody waits for a published result in the batch being filled. *)
Lemma cur_unpublished s gen idx :
  leader_ok s -> gen_ok s (cur (wal s)) gen -> ~ published s (cur (wal s)) gen idx.
Proof.
  unfold leader_ok, gen_ok, published. destruct (leader s) as [fl|].
  - intros (_ & _ & Eg & Hne & _) Hg. destruct Hg as [[-> _]|[(fl' & [= <-] & _ & E)|(_ & ? & _)]]; [|done|done].
    intros [?|(fl' & [= <-] & E & _)]; [lia|done].
  - intros (_ & Eg) Hg. destruct Hg as [[-> _]|[(fl' & ? & _)|(_ & ? & _)]]; [|done|done].
    intros [?|(fl' & ? & _)]; [lia|done].
Qed.

Lemma proto_add s tid p b :
  proto_ok s -> calls s !! tid = Some (CLock p (ChecksumIEEE p)) -> valid p -> batches s !! cur (wal s) = Some b ->
  let '(b', idx) := batch_add p (ChecksumIEEE p) b in
  proto_ok (with_calls (<[tid := CWait p (cur (wal s)) (curGen (wal s)) idx]> (calls s))
              (with_batches (<[cur (wal s) := b']> (batches s)) (pool s) s)).
Proof.
  intros [Hb Hc [Hnd Hp] Hl Hcs] Htid Hv Hcur. destruct (Hb _ _ Hcur) as (ps & Hbok & Hrefs).
  pose proof (batch_add_ok b ps p Hbok Hv) as Hadd.
  destruct (batch_add p (ChecksumIEEE p) b) as [b' idx]. destruct Hadd as (Hbok' & -> & Hr' & _ & _).
  assert (forall bi, waiting (<[tid := CWait p (cur (wal s)) (curGen (wal s)) (length ps)]> (calls s)) bi
    = waiting (calls s) bi + if decide (cur (wal s) = bi) then 1 else 0)%nat as Hw.
  { intros bi. rewrite waiting_insert; [done|]. intros c' Hc'. rewrite Htid in Hc'. injection Hc' as <-. by intros ?. }
  split; cbn.
  - intros bi b0 [[<- <-]|[Hne Hbi]]%lookup_insert_Some.
    + exists (ps ++ [p]). split; [done|]. rewrite Hw, decide_True by done. lia.
    + destruct (Hb bi b0 Hbi) as (qs & ? & ?). exists qs. split; [done|]. rewrite Hw, decide_False by done. lia.
  - exists b'. by rewrite lookup_insert_eq.
  - split; [done|]. intros bi Hbi. destruct (Hp bi Hbi) as (Hne & ? & b0 & Hb0 & ?). split_and!; cbn; [done..|].
    exists b0. by rewrite lookup_insert_ne.
  - unfold leader_ok in *. cbn. destruct (leader s) as [fl|]; [|done]. destruct Hl as (? & ? & ? & Hne & b0 & Hb0 & Hrest).
    split_and!; [done..|]. exists b0. rewrite lookup_insert_ne by done. done.
  - intros tid' c [[<- <-]|[_ Hc']]%lookup_insert_Some.
    + exists b', (ps ++ [p]). cbn. rewrite lookup_insert_eq. split_and!; [done|done| |by left|].
      * by rewrite lookup_app_r, Nat.sub_diag by done.
      * intros Hpub. by destruct (cur_unpublished s (curGen (wal s)) (length ps) Hl ltac:(by left)).
    + specialize (Hcs tid' c Hc'). destruct c as [|q bi gen k]; [done|]. destruct Hcs as (b0 & qs & Hb0 & Hq & Hk & Hg & Hres).
      destruct (decide (bi = cur (wal s))) as [-> |Hne].
      * assert (b0 = b) as -> by congruence. rewrite (batch_ok_inj _ _ _ Hq Hbok) in Hk.
        exists b', (ps ++ [p]). cbn. rewrite lookup_insert_eq. split_and!; [done|done| |done|].
        -- by apply lookup_app_l_Some.
        -- intros Hpub. by destruct (cur_unpublished s gen k Hl Hg).
      * exists b0, qs. cbn. rewrite lookup_insert_ne by done. by split_and!.
Qed.

(** A caller takes its result; the last one recycles the batch. *)
Lemma proto_return s tid p bi gen idx b off err :
  proto_ok s -> calls s !! tid = Some (CWait p bi gen idx) -> gen <= doneGen (wal s) ->
  batches s !! bi = Some b -> offs b !! idx = Some off -> errs b !! idx = Some err ->
  let b1 := mkBatch (buf b) (starts b) (offs b) (errs b) (refs b - 1) in
  let '(b2, pl) := if refs b1 =? 0 then (reset_batch b1, bi :: pool s) else (b1, pool s) in
  proto_ok (with_calls (delete tid (calls s)) (with_batches (<[bi := b2]> (batches s)) pl s)) /\
  (err = None -> R off p).
Proof.
  intros [Hb Hc [Hnd Hp] Hl Hcs] Htid Hgen Hbi Hoff Herr b1.
  destruct (Hb bi b Hbi) as (ps & Hbok & Hrefs).
  destruct (Hcs tid _ Htid) as (b0 & qs & Hb0 & Hq & Hk & Hg & Hres). assert (b0 = b) as -> by congruence.
  assert (err = None -> R off p) as HR. { intros ->. apply Hres; [by left|done|done]. }
  assert (bi <> cur (wal s) /\ forall fl, leader s = Some fl -> bi <> fl_b fl) as [Hncur Hnl].
  { unfold leader_ok in Hl. destruct Hg as [[-> _]|[(fl & El & -> & _)|(_ & ? & ?)]]; [| |done].
    - destruct (leader s); [destruct Hl as (_ & _ & ? & _)|destruct Hl as (_ & ?)]; lia.
    - rewrite El in Hl. destruct Hl as (_ & ? & _). lia. }
  pose proof (waiting_pos _ _ _ bi Htid eq_refl) as Hpos.
  assert (bi ∉ pool s) as Hnp. { intros Hin. destruct (Hp bi Hin) as (_ & _ & b' & Hb' & _ & Hr0). simplify_eq. lia. }
  assert (batch_ok b1 ps) as Hb1 by (destruct Hbok; by split).
  pose proof (fun bi => waiting_delete _ _ _ bi Htid) as Hw.
  set (r := if refs b1 =? 0 then _ else _).
  assert (exists b2 pl ps2, r = (b2, pl) /\ batch_ok b2 ps2 /\ refs b2 = refs b - 1 /\
    NoDup pl /\ (forall x, x ∈ pl -> x ∈ pool s \/ x = bi /\ refs b - 1 = 0 /\ batch_len b2 = 0%nat) /\
    (refs b - 1 <> 0 -> ps2 = ps /\ offs b2 = offs b /\ errs b2 = errs b)) as (b2 & pl & ps2 & Er & Hb2 & Hr2 & Hnd2 & Hpl & Hsame).
  { unfold r. destruct (Z.eqb_spec (refs b1) 0) as [E|E]; cbn in E.
    - exists (reset_batch b1), (bi :: pool s), []. split_and!; [done|by eapply reset_batch_ok|done|by constructor| |done].
      intros x [-> |?]%elem_of_cons; [right|by left]. done.
    - exists b1, (pool s), ps. split_and!; [done..|by left|done]. }
  rewrite Er. clear r Er. split; [|done]. split; cbn.
  - intros bi' b' [[<- <-]|[Hne Hb']]%lookup_insert_Some.
    + exists ps2. split; [done|]. specialize (Hw bi). rewrite decide_True in Hw by done. lia.
    + destruct (Hb bi' b' Hb') as (qs' & ? & Hr'). exists qs'. split; [done|]. rewrite Hr', Hw, decide_False by done.
      by rewrite Nat.add_0_r.
  - destruct Hc as [b' Hb']. exists b'. by rewrite lookup_insert_ne.
  - split; [done|]. intros x [Hx|(-> & Hz & Hlen)]%Hpl.
    + destruct (Hp x Hx) as (? & ? & b' & ? & ?). split_and!; cbn; [done..|]. exists b'.
      rewrite lookup_insert_ne by (intros ->; done). done.
    + split_and!; cbn; [done..|]. exists b2. rewrite lookup_insert_eq. split_and!; [done..|lia].
  - unfold leader_ok in *. cbn. destruct (leader s) as [fl|]; [|done]. destruct Hl as (? & ? & ? & ? & b' & Hb' & Hrest).
    split_and!; [done..|]. exists b'. rewrite lookup_insert_ne by (by apply Hnl). done.
  - intros tid' c [Htne Hc']%lookup_delete_Some. specialize (Hcs tid' c Hc').
    destruct c as [|q bi' gen' k]; [done|]. destruct Hcs as (b' & qs' & Hb' & Hq' & Hk' & Hg' & Hres').
    destruct (decide (bi' = bi)) as [-> |Hne].
    + assert (refs b - 1 <> 0) as Hnz.
      { specialize (Hw bi). rewrite decide_True in Hw by done.
        pose proof (waiting_pos (delete tid (calls s)) tid' _ bi ltac:(by rewrite lookup_delete_ne) eq_refl). lia. }
      destruct (Hsame Hnz) as (-> & Eo & Ee). assert (b' = b) as -> by congruence.
      exists b2, ps. cbn. rewrite lookup_insert_eq. split_and!; [done|done|by rewrite (batch_ok_inj _ _ _ Hbok Hq')|done|].
      intros Hpub. unfold result_ok. rewrite Eo, Ee. by apply Hres'.
    + exists b', qs'. cbn. rewrite lookup_insert_ne by done. done.
Qed.

(** ** The leader *)

(** Records up to [j] of the leader's batch get their results. *)
Lemma proto_advance s fl b b' ps j :
  proto_ok s -> leader s = Some fl -> batches s !! fl_b fl = Some b -> batch_ok b ps ->
  batch_ok b' ps -> refs b' = refs b -> (fl_i fl <= j <= length ps)%nat ->
  (forall k, (k < fl_i fl)%nat -> offs b' !! k = offs b !! k /\ errs b' !! k = errs b !! k) ->
  (forall k p, (fl_i fl <= k < j)%nat -> ps !! k = Some p -> result_ok b' k p) ->
  proto_ok (with_leader (Some (mkFlush (fl_b fl) (fl_gen fl) j Scan))
              (with_batches (<[fl_b fl := b']> (batches s)) (pool s) s)).
Proof.
  intros [Hb Hc [Hnd Hp] Hl Hcs] El Hbl Hbok Hbok' Hr Hj Hold Hnew. unfold leader_ok in Hl. rewrite El in Hl.
  destruct Hl as (Hf & Hg & Hcg & Hne & b0 & Hb0 & Hi & _). assert (b0 = b) as -> by congruence. split; cbn.
  - intros bi b0 [[<- <-]|[_ Hbi]]%lookup_insert_Some; [|by apply Hb].
    destruct (Hb _ _ Hbl) as (qs & ? & Hrefs). exists ps. split; [done|]. by rewrite Hr.
  - destruct Hc as [b0 Hb00]. exists b0. by rewrite lookup_insert_ne.
  - split; [done|]. intros bi Hbi. destruct (Hp bi Hbi) as (? & Hnl & b0 & Hb00 & ?). pose proof (Hnl fl El).
    split_and!; cbn; [done|by intros fl' [= <-]|]. exists b0. by rewrite lookup_insert_ne.
  - unfold leader_ok. cbn. split_and!; [done..|]. exists b'. rewrite lookup_insert_eq.
    split_and!; [done|rewrite (batch_ok_len b' ps) by done; lia|done].
  - intros tid c Hc'. specialize (Hcs tid c Hc'). destruct c as [|q bi gen k]; [done|].
    destruct Hcs as (b0 & qs & Hb00 & Hq & Hk & Hgn & Hres).
    assert (gen_ok (with_leader (Some (mkFlush (fl_b fl) (fl_gen fl) j Scan))
      (with_batches (<[fl_b fl := b']> (batches s)) (pool s) s)) bi gen) as Hgn'.
    { unfold gen_ok in *. cbn. destruct Hgn as [?|[(fl' & E & ? & ?)|(? & ? & Hnl)]]; [by left|right; left|right; right].
      - rewrite El in E. injection E as <-. eexists. split; [done|]. done.
      - split_and!; [done..|]. intros fl' [= <-]. by apply (Hnl fl). }
    destruct (decide (bi = fl_b fl)) as [-> |Hnb].
    + assert (b0 = b) as -> by congruence. assert (qs = ps) as -> by (by eapply batch_ok_inj).
      exists b', ps. cbn. rewrite lookup_insert_eq. split_and!; [done..|]. intros Hpub.
      destruct (decide (k < fl_i fl)%nat) as [Hlt|Hge].
      * destruct (Hold k Hlt) as [Eo Ee]. unfold result_ok. rewrite Eo, Ee. apply Hres. right. by exists fl.
      * apply Hnew; [|done]. split; [lia|]. destruct Hpub as [Hpub|(fl' & [= <-] & _ & ?)]; [|done]. cbn in Hpub.
        exfalso. destruct Hgn as [[-> ?]|[(fl' & E & -> & _)|(_ & _ & Hnl)]]; [done| |by destruct (Hnl fl)].
        rewrite El in E. injection E as <-. lia.
    + exists b0, qs. cbn. rewrite lookup_insert_ne by done. split_and!; [done..|]. intros Hpub. apply Hres.
      destruct Hpub as [?|(fl' & [= <-] & ? & _)]; [by left|done].
Qed.

(** The leader publishes the generation: every record has its result. *)
Lemma proto_end s fl b :
  proto_ok s -> leader s = Some fl -> batches s !! fl_b fl = Some b -> (batch_len b <= fl_i fl)%nat ->
  proto_ok (flush_end (fl_gen fl) s).
Proof.
  intros [Hb Hc [Hnd Hp] Hl Hcs] El Hbl Hlen. unfold leader_ok in Hl. rewrite El in Hl.
  destruct Hl as (Hf & Hg & Hcg & Hne & _). split; cbn.
  - done.
  - done.
  - split; [done|]. intros bi Hbi. destruct (Hp bi Hbi) as (? & ? & ?). by split_and!.
  - unfold leader_ok. cbn. split; [done|lia].
  - intros tid c Hc'. specialize (Hcs tid c Hc'). destruct c as [|q bi gen k]; [done|].
    destruct Hcs as (b0 & qs & Hb0 & Hq & Hk & Hgn & Hres). exists b0, qs. cbn.
    destruct Hgn as [[-> ->]|[(fl' & E & -> & ->)|(? & ? & Hnl)]].
    + split_and!; [done..|by left|]. intros [Hpub|(fl' & ? & _)]; [|done]. cbn in Hpub. lia.
    + rewrite El in E. injection E as <-. split_and!; [done..|right; right; split_and!; [cbn; lia|done|done]|].
      intros _. apply Hres. right. exists fl. split_and!; [done..|]. assert (b0 = b) as -> by congruence.
      rewrite (batch_ok_len _ _ Hq) in Hlen. pose proof (lookup_lt_Some _ _ _ Hk). lia.
    + split_and!; [done..|right; right; split_and!; [cbn; lia|done|done]|]. intros _. apply Hres. by left.
Qed.

(** The leader starts writing, or has written more. *)
Lemma proto_writing s bi gen i ph ph' b :
  proto_ok s -> leader s = Some (mkFlush bi gen i ph) -> batches s !! bi = Some b -> phase_ok s b i ph' ->
  proto_ok (with_leader (Some (mkFlush bi gen i ph')) s).
Proof.
  intros [Hb Hc [Hnd Hp] Hl Hcs] El Hbl Hph. unfold leader_ok in Hl. rewrite El in Hl. cbn in Hl.
  destruct Hl as (Hf & Hg & Hcg & Hne & b0 & Hb0 & Hi & _). assert (b0 = b) as -> by congruence. split; cbn.
  - done.
  - done.
  - split; [done|]. intros bi' Hbi. destruct (Hp bi' Hbi) as (? & Hnl & ?). split_and!; cbn; [done| |done].
    intros fl' [= <-]. by apply (Hnl _ El).
  - unfold leader_ok. cbn. split_and!; [done..|]. by exists b.
  - intros tid c Hc'. specialize (Hcs tid c Hc'). destruct c as [|q bi' gen' k]; [done|].
    destruct Hcs as (b0 & qs & ? & ? & ? & Hgn & Hres). exists b0, qs. cbn. split_and!; [done..| |].
    + unfold gen_ok in *. cbn. rewrite El in Hgn. destruct Hgn as [?|[(fl' & [= <-] & ? & ?)|(? & ? & Hnl)]];
        [by left|right; left; by eexists|right; right]. split_and!; [done..|]. intros fl' [= <-]. by apply (Hnl _ eq_refl).
    + intros Hpub. apply Hres. unfold published in *. cbn in *. rewrite El.
      destruct Hpub as [?|(fl' & [= <-] & ? & ?)]; [by left|right; by eexists].
Qed.

(** A batch from the pool, or a new one, is empty and nobody uses it. *)
Lemma getAppendBatch_ok s reuse :
  proto_ok s ->
  exists c bs pl, getAppendBatch reuse s = (c, with_batches bs pl s) /\
    c <> cur (wal s) /\ (exists b, bs !! c = Some b /\ batch_ok b [] /\ refs b = 0) /\
    (forall bi, bi <> c -> bs !! bi = batches s !! bi) /\ waiting (calls s) c = 0%nat /\
    NoDup pl /\ ~ (c ∈ pl) /\ (forall bi, bi ∈ pl -> bi ∈ pool s).
Proof.
  intros [Hb Hc [Hnd Hp] Hl Hcs]. unfold getAppendBatch.
  destruct (reuse ≫= (fun k => (fun b => (k, b)) <$> pool s !! k)) as [[k c]|] eqn:E.
  - apply bind_Some in E as (k' & -> & E). apply fmap_Some in E as (c' & Hk & [= -> ->]).
    exists c', (batches s), (delete k' (pool s)). split; [done|].
    destruct (Hp c' (list_elem_of_lookup_2 _ _ _ Hk)) as (? & _ & b & Hcb & Hlen & Hr).
    destruct (Hb c' b Hcb) as (ps & Hbok & Hw). rewrite (batch_ok_len _ _ Hbok) in Hlen.
    destruct ps; [|done].
    pose proof (delete_Permutation _ _ _ Hk) as HP. rewrite HP in Hnd. apply NoDup_cons in Hnd as [Hnin Hnd].
    split_and!; [done|by exists b|done|lia|done|done|]. intros bi Hbi. rewrite HP. by right.
  - set (c := fresh (dom (batches s))). assert (batches s !! c = None) as Hfr.
    { apply not_elem_of_dom. apply is_fresh. }
    exists c, (<[c := new_batch]> (batches s)), (pool s). split; [done|]. split_and!.
    + destruct Hc as [b Hcb]. intros E'. by rewrite <-E', Hfr in Hcb.
    + exists new_batch. rewrite lookup_insert_eq. split_and!; [done|apply new_batch_ok|done].
    + intros bi Hne. by rewrite lookup_insert_ne.
    + unfold waiting. destruct (decide (filter (fun kv => waits c kv.2) (calls s) = ∅)) as [-> |Hne]; [by rewrite map_size_empty|].
      apply map_choose in Hne as (tid & cl & [Htid Hw]%map_lookup_filter_Some). cbn in Hw.
      specialize (Hcs tid cl Htid). destruct cl as [|q bi gen idx]; [done|]. cbn in Hw. subst bi.
      destruct Hcs as (b & ps & Hcb & _). by rewrite Hfr in Hcb.
    + done.
    + intros Hin. destruct (Hp c Hin) as (_ & _ & b & Hcb & _). by rewrite Hfr in Hcb.
    + done.
Qed.

(** The start of a group commit. *)
Lemma proto_lead s reuse :
  proto_ok s -> flushing (wal s) = false ->
  let w := wal s in
  let '(c, s1) := getAppendBatch reuse s in
  proto_ok (with_leader (Some (mkFlush (cur w) (curGen w) 0 Scan))
              (with_wal (set_gens c (curGen w + 1) (doneGen w) true w) s1)).
Proof.
  intros Hpo Hfl w. destruct (getAppendBatch_ok s reuse Hpo) as (c & bs & pl & E & Hcne & (bc & Hbc & Hbcok & Hbcr) & Hbs & Hwc & Hndp & Hcpl & Hpl).
  rewrite E. clear E. destruct Hpo as [Hb [bcur Hcur] [Hnd Hp] Hl Hcs].
  unfold leader_ok in Hl. destruct (leader s) as [fl|] eqn:El; [destruct Hl as (? & _); congruence|]. destruct Hl as [_ Hgen].
  split; cbn.
  - intros bi b Hbi. destruct (decide (bi = c)) as [-> |Hne].
    + simplify_eq. exists []. split; [done|]. by rewrite Hwc.
    + rewrite Hbs in Hbi by done. by apply Hb.
  - by exists bc.
  - split; [done|]. intros bi Hbi. destruct (Hp bi (Hpl bi Hbi)) as (Hne & _ & b & Hb' & ?).
    assert (bi <> c) by (intros ->; done). split_and!; cbn; [done|by intros fl' [= <-]|]. exists b. by rewrite Hbs.
  - unfold leader_ok. cbn. split_and!; [done|unfold w; lia|unfold w; lia|done|].
    exists bcur. rewrite Hbs by done. split_and!; [done|lia|done].
  - intros tid cl Hcl. pose proof (Hcs tid cl Hcl) as Hc'. destruct cl as [|q bi gen k]; [done|].
    destruct Hc' as (b & ps & Hb' & Hbok & Hk & Hgn & Hres).
    assert (bi <> c) as Hne. { intros ->. pose proof (waiting_pos _ _ _ c Hcl eq_refl). lia. }
    exists b, ps. cbn. rewrite Hbs by done. split_and!; [done..| |].
    + destruct Hgn as [[-> ->]|[(fl & ? & _)|(? & ? & _)]]; [right; left|congruence|right; right].
      * eexists. split; [done|]. by split.
      * split_and!; cbn; [done|done|by intros fl' [= <-]].
    + intros Hpub. apply Hres. destruct Hpub as [?|(fl' & [= <-] & _ & Hlt)]; [by left|]. cbn in Hlt. lia.
Qed.

End proto.

Lemma call_ok_mono (R R' : Offset -> bytes -> Prop) s c :
  (forall off p, R off p -> R' off p) -> call_ok R s c -> call_ok R' s c.
Proof.
  intros HR. destruct c as [|q bi gen idx]; [done|]. cbn. intros (b & ps & ? & ? & ? & ? & H). exists b, ps. split_and!; [done..|].
  intros Hpub off Ho He. apply HR. by apply H.
Qed.

Lemma proto_mono (R R' : Offset -> bytes -> Prop) s :
  (forall off p, R off p -> R' off p) -> proto_ok R s -> proto_ok R' s.
Proof. intros HR []. split; [done..|]. intros tid c Hc. eapply call_ok_mono; eauto. Qed.

End WalProto.
