(* ===== verification/WalRun.v ===== *)
(** * Every transition of the log keeps its invariant *)

From S2P Require Import Prelude Wal WalFormat WalStore WalRead WalInv WalOps WalActions WalBatch WalSystem WalProto.
From Stdlib Require Import Strings.Byte.

Module WalRun.
Import Wal WalFormat WalStore WalRead WalInv WalOps WalActions WalBatch WalSystem WalProto.

(** The bytes of the write in flight that are in the file. *)
Definition inflight (s : sys) : bytes :=
  match leader s with
  | Some (mkFlush bi _ i (Writing j n)) =>
      match batches s !! bi with
      | Some b => take (Z.to_nat n) (zslice (batch_start b i) (batch_start b j) (buf b))
      | None => []
      end
  | _ => []
  end.

(** Record [p] was written at [off]. *)
Definition written (A : Offset -> bytes -> Prop) (s : sys) (off : Offset) (p : bytes) : Prop :=
  recorded A (nextID (wal s)) (live (wal s)) (dsk s) off p.

(** It was written in this session. *)
Definition appended (base : Z) (A : Offset -> bytes -> Prop) (s : sys) (off : Offset) (p : bytes) : Prop :=
  written A s off p /\ base <= SegmentID off.

Record sys_ok (base : Z) (A : Offset -> bytes -> Prop) (s : sys) : Prop := {
  sy_store : store_ok (inflight s) (wal s) (dsk s);
  sy_acks : acks_from A (live (wal s)) (dsk s);
  sy_session : session base (wal s) (dsk s);
  sy_proto : proto_ok (appended base A s) s;
  sy_next : 0 < nextID (wal s)
}.

(** The records an event tells a caller of. *)
Definition issues (e : event) (off : Offset) (p : bytes) : Prop :=
  match e with
  | EvAppend q (inr o) => o = off /\ q = p
  | EvRead (inr rs) => mkRecord off p ∈ rs
  | _ => False
  end.

Record step_ok (base : Z) (A : Offset -> bytes -> Prop) (s s' : sys) (ev : list event) : Prop := {
  sp_sys : sys_ok base A s';
  sp_evolves : evolves A (nextID (wal s)) (live (wal s)) (dsk s) (nextID (wal s')) (live (wal s')) (dsk s');
  sp_issued : forall e off p, e ∈ ev -> issues e off p -> written A s' off p;
  sp_appended : forall p off, EvAppend p (inr off) ∈ ev -> base <= SegmentID off;
  sp_next : nextID (wal s') <= nextID (wal s) + 1
}.

Section step.
Variables (base : Z) (A : Offset -> bytes -> Prop).

(** What was written stays written. *)
Lemma written_mono s s' fl off p :
  sys_ok base A s -> op_ok A (wal s) (dsk s) fl (wal s') (dsk s') -> written A s off p -> written A s' off p.
Proof. intros Hs Hop. apply (recorded_evolves A (op_evolves _ _ _ _ _ _ Hop) (sy_acks _ _ _ Hs)). Qed.

Lemma appended_mono s s' fl off p :
  sys_ok base A s -> op_ok A (wal s) (dsk s) fl (wal s') (dsk s') -> appended base A s off p -> appended base A s' off p.
Proof. intros Hs Hop [Hw Hb]. split; [by eapply written_mono|done]. Qed.

Lemma step_intro' s s' ev :
  sys_ok base A s -> op_ok A (wal s) (dsk s) (inflight s') (wal s') (dsk s') ->
  proto_ok (appended base A s') s' -> nextID (wal s') <= nextID (wal s) + 1 ->
  (forall e off p, e ∈ ev -> issues e off p -> written A s off p) ->
  (forall p off, EvAppend p (inr off) ∈ ev -> base <= SegmentID off) -> step_ok base A s s' ev.
Proof.
  intros Hs Hop Hpo' Hn' Hiss Happ. pose proof (ev_next _ _ _ _ _ _ _ (op_evolves _ _ _ _ _ _ Hop)).
  pose proof (sy_next _ _ _ Hs). split; [|apply (op_evolves _ _ _ _ _ _ Hop)| |done|done].
  - split; [apply (op_store _ _ _ _ _ _ Hop)| |apply (op_session _ _ _ _ _ _ Hop), (sy_session _ _ _ Hs)|done|lia].
    eapply acks_from_evolves; [apply (op_evolves _ _ _ _ _ _ Hop)|apply (sy_acks _ _ _ Hs)].
  - intros e off p He Hi. eapply written_mono; eauto.
Qed.

(** The records of the events [ev] were written, those of [Append] in this
    session. *)
Definition events_ok (s : sys) (ev : list event) : Prop :=
  (forall e off p, e ∈ ev -> issues e off p -> written A s off p) /\
  (forall p off, EvAppend p (inr off) ∈ ev -> base <= SegmentID off).

Lemma step_intro s s' ev :
  sys_ok base A s -> op_ok A (wal s) (dsk s) (inflight s') (wal s') (dsk s') ->
  proto_ok (appended base A s) s' -> nextID (wal s') <= nextID (wal s) + 1 -> events_ok s ev -> step_ok base A s s' ev.
Proof.
  intros Hs Hop Hpo' Hn' [Hiss Happ]. apply step_intro'; [done|done| |done|done|done].
  eapply proto_mono; [|done]. intros off p. by eapply appended_mono.
Qed.

Lemma step_trans s s1 s2 ev :
  step_ok base A s s1 [] -> nextID (wal s1) = nextID (wal s) -> step_ok base A s1 s2 ev -> step_ok base A s s2 ev.
Proof.
  intros [Hs1 He1 _ _ _] En [Hs2 He2 Hi2 Ha2 Hn2]. split; [done| |done|done|lia].
  eapply log_evolves_trans; [|done|done]. intros x Hx. eapply core_files; [|done]. apply (st_core _ _ _ (sy_store _ _ _ Hs1)).
Qed.

Lemma silent s : events_ok s [].
Proof. split; [by intros ? ? ? ?%not_elem_of_nil|by intros ? ? ?%not_elem_of_nil]. Qed.

(** An event that tells of no record. *)
Lemma silent_one s (e0 : event) : (forall off p, ~ issues e0 off p) -> events_ok s [e0].
Proof.
  intros He. split.
  - intros e off p ->%list_elem_of_singleton Hi. by destruct (He off p).
  - intros p off E%list_elem_of_singleton. subst e0. by destruct (He off p).
Qed.

Ltac no_records := first [apply silent | apply silent_one; by intros ? ? []].

(** The operations of the storage alone. *)
Lemma step_storage s w d ev :
  sys_ok base A s -> op_ok A (wal s) (dsk s) (inflight s) w d -> same_control (wal s) w ->
  (writing s = true -> has_file (wal s) = true -> has_file w = true) -> nextID w <= nextID (wal s) + 1 ->
  events_ok s ev -> step_ok base A s (with_disk w d s) ev.
Proof.
  intros Hs Hop Hsc Hwr Hn Hiss. apply step_intro; [done|done| |done|done].
  apply proto_wal; [apply (sy_proto _ _ _ Hs)|done|done].
Qed.

(** *** Callers *)

Lemma append_start_step s tid p s' ev :
  sys_ok base A s -> append_start tid p s = Some (s', ev) -> step_ok base A s s' ev.
Proof.
  intros Hs. unfold append_start. destruct (calls s !! tid) eqn:Htid; [done|].
  pose proof (op_refl A _ _ _ (sy_store _ _ _ Hs)) as Hop.
  destruct (append_checks p (wal s)) as [e|] eqn:Hchk; intros [= <- <-].
  - apply step_intro; [done|done|apply (sy_proto _ _ _ Hs)|lia|]. no_records.
  - apply step_intro; [done|done| |cbn; lia|no_records].
    apply proto_lock; [apply (sy_proto _ _ _ Hs)|done|]. unfold append_checks in Hchk. pose proof (zlen_nonneg p).
    destruct (Z.eqb_spec (zlen p) 0); [done|]. destruct (Z.ltb_spec maxRecordBytes (zlen p)); [done|]. unfold valid. lia.
Qed.

Lemma append_add_step s tid s' ev :
  sys_ok base A s -> append_add tid s = Some (s', ev) -> step_ok base A s s' ev.
Proof.
  intros Hs. unfold append_add. destruct (calls s !! tid) as [[p crc|]|] eqn:Htid; [|done..].
  destruct (wmu_free s); [|done]. pose proof (sy_proto _ _ _ Hs) as Hpo.
  destruct (po_calls _ _ Hpo tid _ Htid) as [Hv ->]. pose proof (op_refl A _ _ _ (sy_store _ _ _ Hs)) as Hop.
  destruct (closed (wal s) || negb (has_file (wal s))).
  { intros [= <- <-]. apply step_intro; [done|done|by eapply proto_unlock|cbn; lia|]. no_records. }
  destruct (batches s !! cur (wal s)) as [b|] eqn:Hcur; [|done].
  pose proof (proto_add _ s tid p b Hpo Htid Hv Hcur) as Hadd.
  destruct (batch_add p (ChecksumIEEE p) b) as [b' idx]. intros [= <- <-].
  apply step_intro; [done| |done|cbn; lia|no_records].
  replace (inflight _) with (inflight s); [done|]. unfold inflight. cbn.
  pose proof (po_leader _ _ Hpo) as Hl. unfold leader_ok in Hl.
  destruct (leader s) as [[bi g i [|j n]]|]; [done| |done]. destruct Hl as (_ & _ & _ & Hne & _). cbn in Hne.
  by rewrite lookup_insert_ne.
Qed.

Lemma append_return_step s tid s' ev :
  sys_ok base A s -> append_return tid s = Some (s', ev) -> step_ok base A s s' ev.
Proof.
  intros Hs. unfold append_return. destruct (calls s !! tid) as [[|p bi gen idx]|] eqn:Htid; [done| |done].
  destruct (wmu_free s) eqn:Hfree; [|done]. destruct (Z.ltb_spec (doneGen (wal s)) gen) as [|Hgen]; [done|].
  destruct (batches s !! bi) as [b|] eqn:Hbi; [|done].
  destruct (offs b !! idx) as [off|] eqn:Hoff; [|done]. destruct (errs b !! idx) as [err|] eqn:Herr; [|done].
  pose proof (sy_proto _ _ _ Hs) as Hpo.
  pose proof (proto_return _ s tid p bi gen idx b off err Hpo Htid Hgen Hbi Hoff Herr) as Hret. cbv zeta in Hret.
  destruct (if refs _ =? 0 then _ else _) as [b2 pl] eqn:Eif. destruct Hret as [Hpo' HR]. intros [= <- <-].
  apply step_intro; [done| |done|cbn; lia|].
  - replace (inflight _) with (inflight s); [apply op_refl, (sy_store _ _ _ Hs)|]. unfold inflight. cbn.
    destruct (leader s) as [[bl g i [|j n]]|] eqn:El; [done| |done].
    rewrite lookup_insert_ne; [done|]. intros ->. pose proof (po_leader _ _ Hpo) as Hl. unfold leader_ok in Hl.
    rewrite El in Hl. cbn in Hl. destruct Hl as (_ & Eg & Ecg & Hne & _).
    destruct (po_calls _ _ Hpo tid _ Htid) as (b0 & qs & _ & _ & _ & Hg & _).
    destruct Hg as [[-> ?]|[(fl & E & -> & _)|(_ & _ & Hnl)]]; [lia| |by destruct (Hnl _ El)].
    rewrite El in E. injection E as <-. cbn in Hgen. lia.
  - split.
    + intros e0 off' q ->%list_elem_of_singleton. destruct err; cbn; [done|]. intros [-> ->]. by apply HR.
    + intros q off' E%list_elem_of_singleton. destruct err; [done|]. injection E as -> ->. by apply HR.
Qed.

(** *** The leader *)

(** Outside a write nothing is in flight. *)
Lemma inflight_scan s : writing s = false -> inflight s = [].
Proof. unfold writing, inflight. by destruct (leader s) as [[? ? ? []]|]. Qed.

Lemma flush_start_step s tid reuse s' ev :
  sys_ok base A s -> flush_start tid reuse s = Some (s', ev) -> step_ok base A s s' ev.
Proof.
  intros Hs. unfold flush_start. destruct (calls s !! tid) as [[|p bi gen idx]|]; [done| |done].
  destruct (wmu_free s); [|done]. destruct (_ <? gen); [|done]. cbn [andb].
  destruct (flushing (wal s)) eqn:Hfl; [done|]. cbn [negb].
  pose proof (sy_proto _ _ _ Hs) as Hpo. pose proof (proto_lead _ s reuse Hpo Hfl) as Hlead. cbv zeta in Hlead.
  destruct (getAppendBatch_ok _ s reuse Hpo) as (c & bs & pl & E & _). rewrite E in *.
  assert (inflight s = []) as Hin.
  { apply inflight_scan. unfold writing. pose proof (po_leader _ _ Hpo) as Hl. unfold leader_ok in Hl.
    destruct (leader s); [destruct Hl; congruence|done]. }
  intros [= <- <-]. apply step_intro; [done| |done|cbn; lia|no_records].
  change (inflight _) with (@nil byte). rewrite <-Hin. by apply op_fields; [apply (sy_store _ _ _ Hs)|..].
Qed.

Lemma with_disk_same s : with_disk (wal s) (dsk s) s = s.
Proof. by destruct s. Qed.

(** The bookkeeping at the end of a group commit. *)
Lemma flush_end_op fl w d gen s :
  store_ok fl w d -> op_ok A w d fl (wal (flush_end gen (with_disk w d s))) d.
Proof. intros Hst. by apply op_fields. Qed.

(** The rest of the batch fails and the group commit ends. *)
Lemma abort_step s bi gen i b w d e :
  sys_ok base A s -> leader s = Some (mkFlush bi gen i Scan) -> batches s !! bi = Some b ->
  op_ok A (wal s) (dsk s) [] w d -> same_control (wal s) w -> nextID w <= nextID (wal s) + 1 ->
  step_ok base A s (flush_abort (mkFlush bi gen i Scan) b e (with_disk w d s)) [].
Proof.
  intros Hs El Hb Hop Hsc Hn. pose proof (sy_proto _ _ _ Hs) as Hpo.
  destruct (po_batches _ _ Hpo bi b Hb) as (ps & Hbok & _).
  assert (i <= length ps)%nat as Hi.
  { pose proof (po_leader _ _ Hpo) as Hl. unfold leader_ok in Hl. rewrite El in Hl. cbn in Hl.
    destruct Hl as (_ & _ & _ & _ & b0 & Hb0 & Hi & _). simplify_eq. by rewrite (batch_ok_len _ _ Hbok) in Hi. }
  apply step_intro; [done| | |done|no_records].
  - eapply op_trans; [done|]. apply flush_end_op. apply (op_store _ _ _ _ _ _ Hop).
  - assert (proto_ok (appended base A s) (with_disk w d s)) as Hpo1.
    { apply proto_wal; [done|done|]. unfold writing. by rewrite El. }
    set (b' := batch_fail i (batch_len b) e b).
    pose proof (proto_advance _ (with_disk w d s) (mkFlush bi gen i Scan) b b' ps (length ps) Hpo1 El Hb Hbok
      (batch_fail_ok i (batch_len b) e b ps Hbok) eq_refl ltac:(cbn; lia)) as Hadv.
    cbn [fl_i fl_b fl_gen] in Hadv. assert (batch_len b = length ps) as Hlen by by apply batch_ok_len.
    refine (proto_end _ _ (mkFlush bi gen (length ps) Scan) b' (Hadv _ _) eq_refl _ _).
    + intros k Hk. split; [done|]. unfold b'. by rewrite batch_fail_other.
    + intros k p Hk Hp off _ Herr. unfold b' in Herr.
      rewrite batch_fail_err in Herr by (rewrite ?Hlen, ?(bo_errs _ _ Hbok); lia). done.
    + cbn. by rewrite lookup_insert_eq.
    + change (batch_len b <= length ps)%nat. lia.
Qed.

Lemma has_file_open w : has_file w = true -> forall a, active w = Some a -> sfile a <> None.
Proof. unfold has_file. intros Hf a Ha. rewrite Ha in Hf. by destruct a as [? ? [|] ? ? ? ? ?]. Qed.

(** Sealing the active segment and opening the next one. *)
Lemma roll_ok serr cerr oerr removed w d :
  store_ok [] w d -> has_file w = true -> 0 < nextID w -> nextID w + 1 < 2 ^ 64 ->
  let '(_, w', d') :=
    match sealActiveLocked serr cerr removed w d with
    | (Some e, w, d) => (Some e, w, d)
    | (None, w, d) => openNewActiveLocked oerr w d
    end in
  op_ok A w d [] w' d' /\ same_control w w' /\ nextID w' <= nextID w + 1.
Proof.
  intros Hst Hhf Hn0 Hn. pose proof (seal_ok A serr cerr removed w d Hst (has_file_open w Hhf)) as Hseal.
  destruct (sealActiveLocked serr cerr removed w d) as [[[e|] w1] d1]; destruct Hseal as (Hop & Hsc & En & Hact).
  - split_and!; [done..|lia].
  - pose proof (open_new_ok A oerr w1 d1 (op_store _ _ _ _ _ _ Hop) (Hact eq_refl) ltac:(lia) ltac:(lia)) as Hopen.
    destruct (openNewActiveLocked oerr w1 d1) as [[r w2] d2]. destruct Hopen as (Hop2 & Hsc2 & En2).
    split_and!; [by eapply op_trans| |lia].
    destruct Hsc as (? & ? & ? & ? & ? & ? & ?), Hsc2 as (? & ? & ? & ? & ? & ? & ?). repeat split; congruence.
Qed.

Lemma flush_scan_step s serr cerr oerr removed s' ev :
  sys_ok base A s -> nextID (wal s) + 1 < 2 ^ 64 ->
  flush_scan serr cerr oerr removed s = Some (s', ev) -> step_ok base A s s' ev.
Proof.
  intros Hs Hnext. unfold flush_scan. destruct (leader s) as [[bi gen i [|]]|] eqn:El; [|done..].
  destruct (batches s !! bi) as [b|] eqn:Hb; [|done].
  assert (writing s = false) as Hnw by (unfold writing; by rewrite El).
  pose proof (sy_store _ _ _ Hs) as Hst. rewrite (inflight_scan _ Hnw) in Hst.
  pose proof (sy_proto _ _ _ Hs) as Hpo. destruct (po_batches _ _ Hpo bi b Hb) as (ps & Hbok & _).
  destruct (Nat.leb_spec (batch_len b) i) as [Hlen|Hlen].
  { intros [= <- <-]. apply step_intro; [done| | |cbn; lia|no_records].
    - pose proof (flush_end_op [] (wal s) (dsk s) gen s Hst) as H. by rewrite with_disk_same in H.
    - by apply (proto_end _ s (mkFlush bi gen i Scan) b). }
  assert (forall e, step_ok base A s (flush_abort (mkFlush bi gen i Scan) b e s) []) as Habort.
  { intros e. rewrite <-(with_disk_same s) at 2.
    apply abort_step; [done|done|done|by apply op_refl|by split|lia]. }
  destruct (active (wal s)) as [seg|] eqn:Ha; [|intros [= <- <-]; apply Habort].
  destruct (closed (wal s) || negb (has_file (wal s))) eqn:Hcl; [intros [= <- <-]; apply Habort|].
  apply orb_false_iff in Hcl as [_ Hhf%negb_false_iff].
  destruct ((_ <? _) && (0 <? records seg)) eqn:Eroll.
  - pose proof (roll_ok serr cerr oerr removed (wal s) (dsk s) Hst Hhf (sy_next _ _ _ Hs) Hnext) as Hroll.
    destruct (match sealActiveLocked _ _ _ _ _ with (Some e, w, d) => _ | (None, w, d) => _ end) as [[[e|] w'] d'].
    + destruct Hroll as (? & ? & ?). intros [= <- <-]. by apply abort_step.
    + destruct Hroll as (Hop & Hsc & Hn'). intros [= <- <-].
      apply step_storage; [done|by rewrite (inflight_scan _ Hnw)|done|by rewrite Hnw|done|no_records].
  - intros [= <- <-]. set (j := batch_run _ _ _ _ _ _).
    destruct (active_file Hst Ha) as (qs & f & Hok & _).
    assert (i < j <= batch_len b)%nat as Hj.
    { split; [|pose proof (batch_run_bounds (batch_len b - i) b i (size seg) (records seg) (maxSegmentBytes (opts (wal s)))); unfold j; lia].
      apply batch_run_progress; [lia|]. rewrite (so_records _ _ _ Hok) in *. pose proof (zlen_nonneg qs).
      apply andb_false_iff in Eroll as [E|E]; [left|right]; lia. }
    apply step_intro; [done| | |cbn; lia|no_records].
    { replace (inflight _) with (@nil byte); [by apply op_refl|]. unfold inflight. cbn. by rewrite Hb. }
    apply (proto_writing _ s bi gen i Scan (Writing j 0) b); [done|done|done|].
    cbn. split; [done|]. split; [|done]. split; [lia|apply zlen_nonneg].
Qed.

(** *** Writing *)

Lemma write_bytes_step s k s' :
  sys_ok base A s -> write_bytes k s = Some s' -> step_ok base A s s' [] /\ nextID (wal s') = nextID (wal s).
Proof.
  intros Hs. unfold write_bytes.
  destruct (leader s) as [[bi gen i [|j n]]|] eqn:El; [done| |done].
  destruct (active (wal s)) as [seg|] eqn:Ha; [|done].
  destruct (batches s !! bi) as [b|] eqn:Hb; [|done].
  destruct (sfile seg) as [[pos [|]]|] eqn:Hf; [done| |done].
  set (run := zslice (batch_start b i) (batch_start b j) (buf b)).
  destruct ((0 <=? k) && (n + k <=? zlen run)) eqn:Ek; [|done]. apply andb_true_iff in Ek as [Hk0 Hk].
  apply Z.leb_le in Hk0, Hk. intros [= <-]. split; [|done].
  pose proof (sy_proto _ _ _ Hs) as Hpo. pose proof (po_leader _ _ Hpo) as Hl. unfold leader_ok in Hl. rewrite El in Hl.
  destruct Hl as (_ & _ & _ & _ & b0 & Hb0 & _ & Hj & Hn & Hhf). cbn in Hb0, Hn, Hj. simplify_eq. fold run in Hn.
  assert (inflight s = take (Z.to_nat n) run) as Hin by (unfold inflight; by rewrite El, Hb).
  pose proof (sy_store _ _ _ Hs) as Hst. rewrite Hin in Hst.
  assert (zlen (zslice n (n + k) run) = k) as Hlen by (rewrite zlen_zslice; lia).
  pose proof (write_active A Hst Ha (mkHandle pos false) (zslice n (n + k) run) Hf) as Hop. cbn [h_pos h_closed] in Hop.
  rewrite Hlen in Hop.
  apply step_intro; [done| | |cbn; lia|no_records].
  - replace (inflight _) with (take (Z.to_nat n) run ++ zslice n (n + k) run); [done|].
    unfold inflight. cbn. rewrite Hb. fold run. unfold zslice at 1.
    replace (Z.to_nat (n + k)) with (Z.to_nat n + Z.to_nat (n + k - n))%nat by lia.
    by rewrite <-take_take_drop.
  - apply (proto_writing _ _ bi gen i (Writing j n) (Writing j (n + k)) b).
    + apply proto_wal; [done|by split|]. by rewrite <-Hhf.
    + done.
    + done.
    + cbn. fold run. split; [done|]. split; [lia|done].
Qed.

(** The records of a run that has been written and published. *)
Lemma published_written s' w d a ps qs i :
  store_ok [] w d -> active w = Some a -> seg_ok d a (ps ++ qs) -> wal s' = w -> dsk s' = d ->
  forall m p, qs !! m = Some p -> i = zlen (encs ps) -> written A s' (mkOffset (id a) (i + pos_of qs m)) p.
Proof.
  intros Hst Ha Hok Ew Ed m p Hm ->. unfold written. rewrite Ew, Ed. pose proof (st_core _ _ _ Hst) as Hc.
  assert (a ∈ live w) as Hin by (rewrite (live_active Ha), elem_of_app, elem_of_cons; tauto).
  pose proof (co_ids _ _ _ Hc) as Hids. rewrite list.Forall_forall in Hids.
  split; cbn.
  - apply Hids in Hin. lia.
  - intros x Hx Ex. rewrite (core_unique _ _ _ x a Hc Hx Hin Ex), (seg_ok_records _ _ _ Hok).
    apply elem_of_layout. exists (length ps + m)%nat, p. split; [|by rewrite pos_of_app_r].
    rewrite lookup_app_r by lia. by replace (length ps + m - length ps)%nat with m by lia.
  - intros Hnone. by destruct (Hnone a Hin).
Qed.

Lemma pos_of_drop ps i m : (i + m <= length ps)%nat -> pos_of ps (i + m) - pos_of ps i = pos_of (drop i ps) m.
Proof.
  intros Hm. unfold pos_of. rewrite <-take_take_drop, encs_app, zlen_app. lia.
Qed.

Lemma pos_of_take ps n m : (m <= n)%nat -> pos_of (take n ps) m = pos_of ps m.
Proof. intros Hm. unfold pos_of. rewrite take_take. do 3 f_equal. lia. Qed.

(** A run that is in the file is published. *)
Lemma publish_step s bi gen i j n seg b :
  sys_ok base A s -> leader s = Some (mkFlush bi gen i (Writing j n)) -> active (wal s) = Some seg ->
  batches s !! bi = Some b -> n = zlen (zslice (batch_start b i) (batch_start b j) (buf b)) ->
  let '(b', pos) := batch_publish (j - i) (id seg) i (size seg) b in
  step_ok base A s
    (with_leader (Some (mkFlush bi gen j Scan))
       (with_batches (<[bi := b']> (batches s)) (pool s)
          (with_wal (set_segs (Some (seg_publish (Z.of_nat (j - i)) pos seg)) (sealed (wal s))
                       (totalSz (wal s) + (batch_start b j - batch_start b i)) (wal s)) s))) [].
Proof.
  intros Hs El Ha Hb ->. set (run := zslice (batch_start b i) (batch_start b j) (buf b)) in *.
  pose proof (sy_proto _ _ _ Hs) as Hpo. pose proof (po_leader _ _ Hpo) as Hl. unfold leader_ok in Hl. rewrite El in Hl.
  destruct Hl as (_ & _ & _ & _ & b0 & Hb0 & _ & Hj & _ & Hhf). cbn in Hb0, Hj. simplify_eq.
  destruct (po_batches _ _ Hpo bi b Hb) as (ps & Hbok & _). rewrite (batch_ok_len _ _ Hbok) in Hj.
  pose proof (batch_publish_ok (j - i) (id seg) i (size seg) b ps Hbok ltac:(lia)) as Hpub.
  destruct (batch_publish (j - i) (id seg) i (size seg) b) as [b' pos].
  destruct Hpub as (Hbok' & Hr & He & Epos & Hold & Hnew).
  replace (i + (j - i))%nat with j in * by lia. set (qs := take (j - i) (drop i ps)).
  assert (run = encs qs) as Hrun by (apply batch_slice; [done|lia]).
  assert (inflight s = encs qs) as Hin.
  { unfold inflight. rewrite El, Hb. fold run. by rewrite to_nat_zlen, firstn_all. }
  pose proof (sy_store _ _ _ Hs) as Hst. rewrite Hin in Hst.
  assert (Forall valid qs) as Hv by (apply Forall_take, Forall_drop, (bo_valid _ _ Hbok)).
  assert (zlen qs = Z.of_nat (j - i)) as Hlq by (unfold zlen, qs; rewrite length_take, length_drop; lia).
  assert (zlen (encs qs) = pos_of ps j - pos_of ps i) as Hlen.
  { change (pos_of (drop i ps) (j - i) = pos_of ps j - pos_of ps i).
    rewrite <-pos_of_drop by lia. by replace (i + (j - i))%nat with j by lia. }
  assert (exists h, sfile seg = Some h) as [h Hf].
  { unfold has_file in Hhf. rewrite Ha in Hhf. destruct seg as [? ? [h|] ? ? ? ? ?]; [by exists h|done]. }
  pose proof (publish_active A Hst Ha qs Hv eq_refl (ex_intro _ h Hf)) as Hop.
  rewrite Hlq, Hlen, <-Epos in Hop. rewrite <-!(batch_start_ok b ps) in Hop by (done || lia).
  set (s' := with_leader _ _).
  destruct (active_file Hst Ha) as (ps0 & f & Hok & Hff & _).
  assert (forall m p, qs !! m = Some p -> written A s' (mkOffset (id seg) (size seg + pos_of qs m)) p) as Hwr.
  { intros m p Hm. rewrite (so_size _ _ _ Hok).
    refine (published_written s' _ (dsk s) (seg_publish (Z.of_nat (j - i)) pos seg) ps0 qs _ (op_store _ _ _ _ _ _ Hop) eq_refl _ eq_refl eq_refl m p Hm eq_refl).
    destruct (st_active _ _ _ Hst seg h Ha Hf) as [Hd _]. rewrite (seg_ok_data _ _ _ Hok) in Hd.
    assert (pos = zlen (encs (ps0 ++ qs))) as -> by (rewrite Epos, encs_app, zlen_app, Hlen, (so_size _ _ _ Hok); lia).
    rewrite <-Hlq. apply seg_ok_publish; [done|done|]. exists f. split; [done|].
    unfold os_data in Hd. rewrite Hff in Hd. cbn in Hd. by rewrite Hd, encs_app. }
  apply step_intro'; [done|done| |cbn; lia|exact (proj1 (silent s))|exact (proj2 (silent s))].
  assert (proto_ok (appended base A s') (with_wal (wal s') s)) as Hpo1.
  { apply (proto_mono (appended base A s)); [intros off p; by eapply appended_mono|].
    apply (proto_wal _ s (wal s') (dsk s)); [done|by split|]. intros _ _. cbn. destruct seg; cbn in Hf. by subst. }
  refine (proto_advance _ (with_wal (wal s') s) (mkFlush bi gen i (Writing j _)) b b' ps j Hpo1 El Hb Hbok Hbok' Hr _ _ _).
  - cbn. lia.
  - intros k Hk. cbn in Hk. by rewrite Hold, He.
  - intros k p Hk Hp off Hoff _. cbn in Hk. rewrite Hnew in Hoff by lia. injection Hoff as <-.
    replace k with (i + (k - i))%nat by lia. rewrite pos_of_drop by lia.
    rewrite <-(pos_of_take (drop i ps) (j - i)) by lia.
    split; [|apply (se_active _ _ _ (sy_session _ _ _ Hs) seg Ha)]. apply Hwr. unfold qs.
    rewrite lookup_take_lt by lia. rewrite lookup_drop. by replace (i + (k - i))%nat with k by lia.
Qed.

Lemma write_done_step s s' ev :
  sys_ok base A s -> write_done s = Some (s', ev) -> step_ok base A s s' ev.
Proof.
  intros Hs. unfold write_done. destruct (write_bytes (write_rest s) s) as [s1|] eqn:Ew; [|done].
  destruct (write_bytes_step s _ s1 Hs Ew) as [Hst1 En1]. pose proof (sp_sys _ _ _ _ _ Hst1) as Hs1.
  destruct (leader s1) as [[bi gen i [|j n]]|] eqn:El; [done| |done].
  destruct (active (wal s1)) as [seg|] eqn:Ha; [|done].
  destruct (batches s1 !! bi) as [b|] eqn:Hb; [|done].
  assert (n = zlen (zslice (batch_start b i) (batch_start b j) (buf b))) as Hn.
  { unfold write_bytes, write_rest in Ew. destruct (leader s) as [[bi' gen' i' [|j' n']]|]; [done| |done].
    destruct (active (wal s)); [|done]. destruct (batches s !! bi') as [b'|] eqn:Hb'; [|done].
    destruct (sfile _) as [[? [|]]|]; [done| |done]. case_match; [|done]. injection Ew as <-. cbn in *. simplify_eq. lia. }
  pose proof (publish_step s1 bi gen i j n seg b Hs1 El Ha Hb Hn) as Hp.
  destruct (batch_publish (j - i) (id seg) i (size seg) b) as [b' pos]. intros [= <- <-].
  by eapply step_trans.
Qed.

Lemma write_fail_step s err terr kerr s' ev :
  sys_ok base A s -> write_fail err terr kerr s = Some (s', ev) -> step_ok base A s s' ev.
Proof.
  intros Hs. unfold write_fail. destruct (leader s) as [[bi gen i [|j n]]|] eqn:El; [done| |done].
  destruct (active (wal s)) as [seg|] eqn:Ha; [|done]. destruct (batches s !! bi) as [b|] eqn:Hb; [|done].
  pose proof (sy_proto _ _ _ Hs) as Hpo. pose proof (po_leader _ _ Hpo) as Hl. unfold leader_ok in Hl. rewrite El in Hl.
  destruct Hl as (_ & _ & _ & _ & b0 & Hb0 & _ & Hj & Hn & _). cbn in Hb0, Hj, Hn. simplify_eq.
  destruct (po_batches _ _ Hpo bi b Hb) as (ps & Hbok & _). rewrite (batch_ok_len _ _ Hbok) in Hj.
  assert (n = zlen (inflight s)) as Hin.
  { unfold inflight. rewrite El, Hb, zlen_take. lia. }
  pose proof (rollback_ok A _ _ _ seg n err terr kerr (sy_store _ _ _ Hs) Ha Hin) as Hrb.
  destruct (rollbackLocked seg n err terr kerr (dsk s)) as [[e seg'] d']. intros [= <- <-].
  apply step_intro; [done|done| |cbn; lia|no_records].
  assert (proto_ok (appended base A s) (with_leader (Some (mkFlush bi gen i Scan)) (with_disk (set_active (Some seg') (wal s)) d' s))) as Hpo1.
  { assert (proto_ok (appended base A s) (with_leader (Some (mkFlush bi gen i Scan)) s)) as H1
      by (by apply (proto_writing _ s bi gen i (Writing j n) Scan b)).
    exact (proto_wal _ _ (set_active (Some seg') (wal s)) d' H1 ltac:(by split) ltac:(by cbn)). }
  refine (proto_advance _ _ (mkFlush bi gen i Scan) b (batch_fail i j e b) ps j Hpo1 eq_refl Hb Hbok
    (batch_fail_ok i j e b ps Hbok) eq_refl _ _ _).
  - cbn. lia.
  - intros k Hk. cbn in Hk. split; [done|]. by rewrite batch_fail_other.
  - intros k p Hk Hp off _ Herr. cbn in Hk. rewrite batch_fail_err in Herr by (rewrite ?(bo_errs _ _ Hbok); lia). done.
Qed.

(** *** Acknowledging, reading, syncing, closing *)

Lemma has_file_same w w' : sfile <$> active w' = sfile <$> active w -> has_file w' = has_file w.
Proof.
  unfold has_file. destruct (active w) as [[]|], (active w') as [[]|]; cbn; intros E; simplify_eq; done.
Qed.

Lemma proto_closer R c s : proto_ok R s -> proto_ok R (with_closer c s).
Proof. by intros []. Qed.

Lemma proto_fsync R f s : proto_ok R s -> proto_ok R (with_fsync f s).
Proof. by intros []. Qed.

(** A record of a live segment is written. *)
Lemma live_written s x r :
  sys_ok base A s -> x ∈ live (wal s) -> r ∈ seg_records (dsk s) x ->
  written A s (mkOffset (id x) (position r)) (payload r).
Proof.
  intros Hs Hx Hr. pose proof (st_core _ _ _ (sy_store _ _ _ Hs)) as Hc.
  pose proof (co_ids _ _ _ Hc) as Hids. rewrite list.Forall_forall in Hids. split; cbn.
  - apply Hids in Hx. lia.
  - intros y Hy E. rewrite (core_unique _ _ _ y x Hc Hy Hx E). by destruct r.
  - intros Hnone. by destruct (Hnone x Hx).
Qed.

Lemma ack_step s off removed :
  sys_ok base A s -> ack_valid A (wal s) (dsk s) off ->
  let '(w, d) := Ack off removed (wal s) (dsk s) in step_ok base A s (with_disk w d s) [EvAck off].
Proof.
  intros Hs Hv. pose proof (Ack_ok A _ off removed _ _ (sy_store _ _ _ Hs) Hv) as H.
  destruct (Ack off removed (wal s) (dsk s)) as [w d]. destruct H as (Hop & Hsc & En & Hsf).
  apply step_storage; [done|done|done| |lia|no_records]. intros _. by rewrite (has_file_same (wal s) w).
Qed.

Lemma read_step s env limit skip :
  sys_ok base A s ->
  let '(r, w) := ReadPending env limit skip (wal s) (dsk s) in step_ok base A s (with_wal w s) [EvRead r].
Proof.
  intros Hs. pose proof (ReadPending_ok A env limit skip (dsk s) _ _ (sy_store _ _ _ Hs)) as H.
  destruct (ReadPending env limit skip (wal s) (dsk s)) as [r w]. destruct H as (Hop & Hsc & En & Hsf & Hr).
  apply (step_storage s w (dsk s)); [done|done|done| |lia|].
  - intros _. by rewrite (has_file_same (wal s) w).
  - split; [|by intros p off E%list_elem_of_singleton].
    intros e off p ->%list_elem_of_singleton. destruct r as [|out]; [done|]. cbn. destruct Hr as [_ ->].
    intros Htk. assert (mkRecord off p ∈ pending_all skip (dsk s) (live (wal s))) as Hin.
    { rewrite <-(take_drop (Z.to_nat limit)). apply elem_of_app. by left. }
    unfold pending_all in Hin.
    apply list_elem_of_In, in_concat in Hin as (l & Hl & Hin). apply list_elem_of_In in Hl, Hin.
    apply list_elem_of_fmap in Hl as (x & -> & Hx).
    unfold pending_from in Hin. apply list_elem_of_fmap in Hin as (r & [= -> ->] & [_ Hr]%list_elem_of_filter).
    by apply live_written.
Qed.

Lemma sync_step s serr :
  sys_ok base A s -> step_ok base A s (with_disk (wal s) (Sync serr (wal s) (dsk s)).2 s) [EvSync (Sync serr (wal s) (dsk s)).1].
Proof.
  intros Hs. apply step_storage; [done|apply sync_ok, (sy_store _ _ _ Hs)|by split|done|lia|no_records].
Qed.

Lemma fsync_tick_step s final s' ev : sys_ok base A s -> fsync_tick final s = Some (s', ev) -> step_ok base A s s' ev.
Proof.
  intros Hs. unfold fsync_tick. destruct (fsync s); [|done..]. destruct (final && _); [done|].
  assert (forall f, step_ok base A s (with_fsync f s) []) as H.
  { intros f. apply step_intro; [done|apply op_refl, (sy_store _ _ _ Hs)|apply proto_fsync, (sy_proto _ _ _ Hs)|cbn; lia|no_records]. }
  destruct (active (wal s)) as [[? ? [|] ? ? ? ? ?]|]; intros [= <- <-]; apply H.
Qed.

Lemma fsync_sync_step s serr s' ev : sys_ok base A s -> fsync_sync serr s = Some (s', ev) -> step_ok base A s s' ev.
Proof.
  intros Hs. unfold fsync_sync. destruct (fsync s) as [|sid final|]; [done| |done].
  pose proof (fsyncOnce_ok A _ sid serr _ _ (sy_store _ _ _ Hs)) as H.
  destruct (fsyncOnce sid serr (wal s) (dsk s)) as [w d]. destruct H as (Hop & Hsc & Ea & En). intros [= <- <-].
  apply step_intro; [done|done| |cbn; lia|no_records]. apply proto_fsync. apply proto_wal; [apply (sy_proto _ _ _ Hs)|done|].
  intros _. unfold has_file. by rewrite Ea.
Qed.

Lemma set_flags_step s a b c ev :
  sys_ok base A s -> events_ok s ev ->
  step_ok base A s (with_closer c (with_wal (set_flags a b (wal s)) s)) ev.
Proof.
  intros Hs Hev. apply step_intro; [done|by apply op_fields; [apply (sy_store _ _ _ Hs)|..]| |cbn; lia|done].
  apply proto_closer. destruct (sy_proto _ _ _ Hs) as [Hb Hc Hp Hl Hcs]. split; try done.
Qed.

Lemma close_step s l s' ev :
  sys_ok base A s -> match l with LCloseBegin | LCloseMark | LCloseFinish _ _ _ => True | _ => False end ->
  step l s = Some (s', ev) -> step_ok base A s s' ev.
Proof.
  intros Hs. destruct l as [| | | | | | | | | | | | | | |serr cerr rerr]; intros Hl; try done; clear Hl; cbn [step].
  - unfold close_begin. destruct (closing (wal s)); intros [= <- <-].
    + apply step_intro; [done|apply op_refl, (sy_store _ _ _ Hs)|apply (sy_proto _ _ _ Hs)|lia|no_records].
    + apply set_flags_step; [done|no_records].
  - unfold close_mark. destruct (closer s); [done| |done..]. destruct (fsync s); [done..|].
    destruct (wmu_free s); [|done]. intros [= <- <-]. apply set_flags_step; [done|no_records].
  - unfold close_end. destruct (closer s); [done..| |done]. destruct (wmu_free s && _) eqn:E; [|done].
    apply andb_true_iff in E as [_ Hfl%negb_true_iff].
    assert (writing s = false) as Hnw.
    { pose proof (po_leader _ _ (sy_proto _ _ _ Hs)) as Hl. unfold leader_ok in Hl. unfold writing.
      destruct (leader s); [destruct Hl; congruence|done]. }
    pose proof (sy_store _ _ _ Hs) as Hst. rewrite (inflight_scan _ Hnw) in Hst.
    pose proof (close_finish_ok A serr cerr rerr _ _ Hst) as H.
    destruct (close_finish serr cerr rerr (wal s) (dsk s)) as [[err w] d]. destruct H as (Hop & Hsc & En).
    intros [= <- <-]. apply step_intro; [done| | |cbn; lia|no_records].
    + replace (inflight _) with (@nil byte); [done|]. symmetry. by apply inflight_scan.
    + apply proto_closer, proto_wal; [apply (sy_proto _ _ _ Hs)|done|by rewrite Hnw].
Qed.

(** *** Any transition *)

(** An acknowledgement names a record the caller was told of. *)
Definition ack_known (s : sys) (l : label) : Prop :=
  match l with
  | LAck off _ => IsZero off = true \/ exists p, A off p /\ written A s off p
  | _ => True
  end.

Lemma step_keeps l s s' ev :
  sys_ok base A s -> nextID (wal s) + 1 < 2 ^ 64 -> ack_known s l -> step l s = Some (s', ev) -> step_ok base A s s' ev.
Proof.
  intros Hs Hn Hk Hstep.
  destruct l as [tid p|tid|tid reuse|serr cerr oerr rm|k| |err terr kerr|tid|off rm|env limit skip|serr|final|serr| | |serr cerr rerr];
    cbn [step] in Hstep.
  - by eapply append_start_step.
  - by eapply append_add_step.
  - by eapply flush_start_step.
  - by eapply flush_scan_step.
  - destruct (write_bytes k s) as [s1|] eqn:E; [|done]. injection Hstep as <- <-. by apply (write_bytes_step s k).
  - by eapply write_done_step.
  - by eapply write_fail_step.
  - by eapply append_return_step.
  - destruct (IsZero off) eqn:Hz.
    + unfold Ack in Hstep. rewrite Hz in Hstep. cbn in Hstep. injection Hstep as <- <-. rewrite with_disk_same.
      apply step_intro; [done|apply op_refl, (sy_store _ _ _ Hs)|apply (sy_proto _ _ _ Hs)|lia|no_records].
    + destruct Hk as [?|(p & HA & Hw)]; [congruence|]. pose proof (ack_step s off rm Hs) as H.
      destruct (Ack off rm (wal s) (dsk s)) as [w d]. injection Hstep as <- <-. apply H.
      intros x Hx Ei. exists p. split; [by apply (rc_live _ _ _ _ _ _ Hw)|done].
  - pose proof (read_step s env limit skip Hs) as H. destruct (ReadPending env limit skip (wal s) (dsk s)) as [r w].
    by injection Hstep as <- <-.
  - pose proof (sync_step s serr Hs) as H. destruct (Sync serr (wal s) (dsk s)) as [r d]. by injection Hstep as <- <-.
  - by eapply fsync_tick_step.
  - by eapply fsync_sync_step.
  - by apply (close_step s LCloseBegin).
  - by apply (close_step s LCloseMark).
  - by apply (close_step s (LCloseFinish serr cerr rerr)).
Qed.

End step.

End WalRun.
