(* ===== verification/WalRecover.v ===== *)
(** * Opening a log

    [Open] of a well-formed directory, when the system reports no errors: it
    succeeds, returns the records at the head of each segment file in the
    order of the segments, and establishes the invariant of the log. *)

From S2P Require Import Prelude Wal WalFormat WalStore WalRead WalInv WalOps WalActions.
From Stdlib Require Import Strings.Byte.

Module WalRecover.
Import Wal WalFormat WalStore WalRead WalInv WalOps WalActions.

(** The system reports no error. *)
Record quiet (env : openEnv) : Prop := {
  q_mkdir : e_mkdir env = None;
  q_statdir : e_statdir env = None;
  q_readdir : e_readdir env = None;
  q_stat : forall name, e_stat env name = None;
  q_open : forall name, e_open env name = None;
  q_read : forall name, e_read env name = None;
  q_remove : forall name, e_remove env name = None;
  q_restat : forall name, e_restat env name = None;
  q_truncate : forall name, e_truncate env name = None;
  q_create : e_create env = None
}.

(** A directory [Open] accepts: it is to be created, or has the right kind and
    permissions; its segment files carry the names of segments below [n]. *)
Record openable (o : options) (n : Z) (d : disk) : Prop := {
  oa_dir : d_dir d = None \/ exists perm, d_dir d = Some (true, perm) /\ perm_ok o perm;
  oa_files : forall name f sid, d_files d !! name = Some f -> segment_of_name name = Some sid ->
    name = segment_name sid /\ 0 < sid < n /\ f_regular f = true /\ perm_ok o (f_perm f)
}.

Lemma names_openable o n d : names_ok o n d -> openable o n d.
Proof. intros [Hd Hf]. split; [by right|done]. Qed.

(** ** The list of segment files *)

#[export] Instance id_le_trans : Transitive id_le.
Proof. intros a b c. unfold id_le. lia. Qed.
#[export] Instance id_le_total : Total id_le.
Proof. intros a b. unfold id_le. lia. Qed.

Lemma elem_of_segment_files d sid name :
  (sid, name) ∈ segment_files d <-> is_Some (d_files d !! name) /\ segment_of_name name = Some sid.
Proof.
  unfold segment_files, ReadDir. rewrite merge_sort_Permutation, list_elem_of_omap. split.
  - intros (name' & Hin & E). rewrite merge_sort_Permutation in Hin. apply list_elem_of_fmap in Hin as ([nm f] & -> & Hin).
    apply elem_of_map_to_list in Hin. cbn in E. apply fmap_Some in E as (sid' & E & [= -> ->]). eauto.
  - intros [[f Hf] E]. exists name. rewrite E. split; [|done]. rewrite merge_sort_Permutation.
    apply list_elem_of_fmap. exists (name, f). split; [done|]. by apply elem_of_map_to_list.
Qed.

Lemma NoDup_segment_files d : NoDup (segment_files d).
Proof.
  unfold segment_files, ReadDir. rewrite merge_sort_Permutation.
  assert (NoDup (merge_sort name_le (map_to_list (d_files d)).*1)) as Hnd.
  { rewrite merge_sort_Permutation. apply NoDup_fst_map_to_list. }
  induction Hnd as [|name l Hnin Hnd IH]; [constructor|]. cbn.
  destruct (segment_of_name name) as [sid|]; cbn; [|done]. constructor; [|done].
  rewrite list_elem_of_omap. intros (name' & Hin & E). apply fmap_Some in E as (sid' & _ & [= -> ->]). done.
Qed.

(** With the log's own names, the ids ascend strictly. *)
Lemma segment_files_sorted o n d :
  openable o n d -> n < 2 ^ 64 -> StronglySorted (fun a b => a.1 < b.1) (segment_files d).
Proof.
  intros Ho Hn. assert (StronglySorted id_le (segment_files d)) as Hs by apply (StronglySorted_merge_sort id_le).
  pose proof (NoDup_segment_files d) as Hnd.
  assert (forall a, a ∈ segment_files d -> a.2 = segment_name a.1) as Hname.
  { intros [sid name] [[f Hf] E]%elem_of_segment_files. by destruct (oa_files _ _ _ Ho name f sid Hf E). }
  induction Hs as [|a l Hs IH Ha]; [constructor|]. apply NoDup_cons in Hnd as [Hnin Hnd]. constructor.
  - apply IH; [done|]. intros b Hb. apply Hname. by right.
  - rewrite list.Forall_forall in *. intros b Hb. specialize (Ha b Hb). unfold id_le in Ha.
    destruct (decide (a.1 = b.1)) as [E|]; [|lia]. destruct Hnin.
    replace a with b; [done|]. destruct a as [i1 n1], b as [i2 n2]. cbn in E. subst.
    pose proof (Hname (i2, n1) ltac:(by left)). pose proof (Hname (i2, n2) ltac:(by right)). cbn in *. by subst.
Qed.

(** ** The loop over the segment files *)

(** The log while [segs] are still to be read; all ids are below [n]. *)
Record loop_ok (o : options) (n : Z) (segs : list (Z * string)) (w : WAL) (d : disk) : Prop := {
  lo_core : core (nextID w) (sealed w) d;
  lo_active : active w = None;
  lo_files : Forall (fun s => sfile s = None /\ pendingPosition s = 0 /\ acked s = ∅) (sealed w);
  lo_total : totalSz w = total_size (sealed w);
  lo_next : 0 < nextID w <= n;
  lo_sorted : StronglySorted (fun a b => a.1 < b.1) segs;
  lo_above : forall s x, s ∈ sealed w -> x ∈ segs -> id s < x.1;
  lo_segs : forall sid name, (sid, name) ∈ segs -> name = segment_name sid /\ 0 < sid < n /\ is_Some (d_files d !! name);
  lo_names : forall name f sid, d_files d !! name = Some f -> segment_of_name name = Some sid ->
    name = segment_name sid /\ 0 < sid /\ f_regular f = true /\ perm_ok o (f_perm f) /\
    (sid < nextID w \/ (sid, name) ∈ segs)
}.

(** The records of a list of segments, as [recover] returns them. *)
Definition all_records (d : disk) (l : list segmentRef) : list WRecord :=
  concat ((fun s => to_record (id s) <$> seg_records d s) <$> l).

Section loop.
Variables (env : openEnv) (o : options) (n : Z).
Hypothesis Hq : quiet env.
Hypothesis Hn : n < 2 ^ 64.

Lemma lo_name_ne segs w d sid name x :
  loop_ok o n ((sid, name) :: segs) w d -> x ∈ segs -> x.2 <> name.
Proof using Hn.
  intros Hlo Hx. destruct x as [sid' name']. cbn. intros ->.
  destruct (lo_segs _ _ _ _ _ Hlo sid name ltac:(by left)) as (-> & ? & _).
  destruct (lo_segs _ _ _ _ _ Hlo sid' _ ltac:(by right)) as (E & ? & _). apply segment_name_inj in E; [|lia..].
  pose proof (lo_sorted _ _ _ _ _ Hlo) as [_ HF]%StronglySorted_inv. rewrite list.Forall_forall in HF.
  specialize (HF _ Hx). cbn in HF. lia.
Qed.

Lemma lo_path_ne segs w d sid name s :
  loop_ok o n ((sid, name) :: segs) w d -> s ∈ sealed w -> path s <> name.
Proof using Hn.
  intros Hlo Hs E. destruct (lo_segs _ _ _ _ _ Hlo sid name ltac:(by left)) as (-> & ? & _).
  destruct (core_path _ _ _ s (lo_core _ _ _ _ _ Hlo) Hs) as [Ep ?]. rewrite Ep in E.
  apply segment_name_inj in E; [|lia..]. pose proof (lo_above _ _ _ _ _ Hlo s (sid, segment_name sid) Hs ltac:(by left)) as H1.
  cbn in H1. lia.
Qed.

(** An empty segment file is removed. *)
Lemma loop_remove segs w d sid name :
  loop_ok o n ((sid, name) :: segs) w d -> loop_ok o n segs w (os_remove name d).
Proof using Hn.
  intros Hlo. pose proof (lo_name_ne segs w d sid name) as Hne. pose proof (lo_path_ne segs w d sid name) as Hpe.
  destruct Hlo as [Hc Ha Hf Ht Hnx Hs Hab Hsg Hna] eqn:E. clear E. split; try done.
  - apply (core_same _ _ d); [done|]. intros s Hs'. apply remove_other. by apply Hpe.
  - by apply StronglySorted_inv in Hs as [].
  - intros s x Hs' Hx. apply Hab; [done|by right].
  - intros sid' name' Hx. destruct (Hsg sid' name' ltac:(by right)) as (? & ? & ?). split_and!; [done|lia|lia|].
    cbn. rewrite lookup_delete_ne; [done|]. intros E. by destruct (Hne _ ltac:(by split) Hx).
  - cbn. intros name' f sid' [Hn' Hf']%lookup_delete_Some Hsid. destruct (Hna name' f sid' Hf' Hsid) as (? & ? & ? & ? & [?|Hin]).
    + split_and!; auto.
    + split_and!; auto. right. apply elem_of_cons in Hin as [[= -> ->]|?]; done.
Qed.

(** A segment with records is kept, cut behind them. *)
Lemma loop_keep segs w d sid name f ps f' :
  loop_ok o n ((sid, name) :: segs) w d -> d_files d !! name = Some f -> Forall valid ps ->
  f_data f' = encs ps -> f_regular f' = f_regular f -> f_perm f' = f_perm f ->
  let d' := set_files (<[name := f']> (d_files d)) d in
  let s := mkSeg sid name None (zlen (encs ps)) (zlen ps) (zlen ps) ∅ 0 in
  let w1 := set_segs (active w) (sealed w ++ [s]) (totalSz w + zlen (encs ps)) w in
  let w2 := if nextID w1 <=? sid then set_nextID (u64 (sid + 1)) w1 else w1 in
  loop_ok o n segs w2 d' /\ seg_records d' s = layout 0 ps /\ sealed w2 = sealed w ++ [s] /\
  nextID w <= nextID w2 /\ same_control w w2.
Proof using Hn.
  intros Hlo Hfile Hps Hdata Hreg Hperm d' s w1 w2.
  pose proof (lo_name_ne segs w d sid name) as Hne. pose proof (lo_path_ne segs w d sid name) as Hpe.
  destruct (lo_segs _ _ _ _ _ Hlo sid name ltac:(by left)) as (Ename & Hsid & _).
  assert (u64 (sid + 1) = sid + 1) as Eu by (unfold u64; rewrite Z.mod_small; lia).
  assert (seg_ok d' s ps) as Hok.
  { split; [done|done|done| |done|].
    - exists f'. cbn. rewrite lookup_insert_eq. split; [done|]. by rewrite Hdata.
    - exists 0%nat. split; [lia|done|by intros x ?%elem_of_empty|]. cbn. rewrite size_empty. lia. }
  pose proof (lo_next _ _ _ _ _ Hlo) as Hnext.
  assert (nextID w2 = Z.max (nextID w) (sid + 1)) as En2.
  { unfold w2. cbn [nextID w1 set_segs]. destruct (Z.leb_spec (nextID w) sid); cbn; lia. }
  assert (sealed w2 = sealed w ++ [s]) as Es2 by (unfold w2; by destruct (_ <=? _)).
  assert (active w2 = None) as Ea2 by (unfold w2; destruct (_ <=? _); apply (lo_active _ _ _ _ _ Hlo)).
  assert (totalSz w2 = totalSz w + zlen (encs ps)) as Et2 by (unfold w2; by destruct (_ <=? _)).
  assert (same_control w w2) as Hsc by (unfold w2; by destruct (_ <=? _)).
  assert (forall s', s' ∈ sealed w -> d_files d' !! path s' = d_files d !! path s') as Hsame.
  { intros s' Hs'. cbn. rewrite lookup_insert_ne; [done|]. intros E. by apply (Hpe s' Hlo Hs'). }
  split; [|split_and!; [by apply seg_ok_records|done|lia|done]].
  pose proof (core_same _ _ _ d' (lo_core _ _ _ _ _ Hlo) Hsame) as [Hsrt Hids Hsegs _].
  destruct Hlo as [_ Ha Hf Ht _ Hs Hab Hsg Hna]. split.
  - rewrite En2, Es2. split; [| | |lia].
    + rewrite fmap_app. apply StronglySorted_app. split_and!; [|done|repeat constructor].
      intros x y (s' & -> & Hs')%list_elem_of_fmap ->%list_elem_of_singleton. cbn. apply (Hab s' (sid, name)); [done|by left].
    + apply Forall_app. split; [|constructor; [cbn; lia|done]]. apply (Forall_impl _ _ _ Hids). intros s' ?. cbv beta in *. lia.
    + apply Forall_app. split; [done|]. constructor; [by exists ps|done].
  - done.
  - rewrite Es2. apply Forall_app. split; [done|]. by repeat constructor.
  - rewrite Es2, Et2, Ht, total_size_app. cbn. lia.
  - lia.
  - by apply StronglySorted_inv in Hs as [].
  - rewrite Es2. intros s' x [Hs'|Hs'%list_elem_of_singleton]%elem_of_app Hx; [apply Hab; [done|by right]|].
    subst s'. apply StronglySorted_inv in Hs as [_ HF]. rewrite list.Forall_forall in HF. by apply (HF x).
  - intros sid' name' Hx. destruct (Hsg sid' name' ltac:(by right)) as (? & ? & ?). split_and!; [done|lia|lia|].
    cbn. destruct (decide (name = name')) as [-> |]; [by rewrite lookup_insert_eq|by rewrite lookup_insert_ne].
  - rewrite En2. cbn. intros name' g sid' [[<- <-]|[Hn' Hf']]%lookup_insert_Some Hs'.
    + destruct (Hna name f sid' Hfile Hs') as (E & ? & ? & ? & _). rewrite Hreg, Hperm.
      split_and!; try done. left. rewrite Ename in E. apply segment_name_inj in E; [lia|lia|].
      rewrite Ename, segment_of_name_ok in Hs' by lia. injection Hs' as <-. lia.
    + destruct (Hna name' g sid' Hf' Hs') as (? & ? & ? & ? & [?|Hin]).
      * split_and!; auto. left. lia.
      * split_and!; auto. right. apply elem_of_cons in Hin as [[= -> ->]|?]; done.
Qed.

(** What the loop over [segs] leaves behind. *)
Record loop_post (segs : list (Z * string)) (w : WAL) (d : disk) (recs : list WRecord)
    (r : option error * WAL * disk * list WRecord) (w' : WAL) (d' : disk) (new : list segmentRef) : Prop := {
  lp_result : r = (None, w', d', recs ++ all_records d' new);
  lp_sealed : sealed w' = sealed w ++ new;
  lp_ok : loop_ok o n [] w' d';
  lp_control : same_control w w';
  lp_dir : d_dir d' = d_dir d;
  lp_kept : forall s, s ∈ sealed w -> d_files d' !! path s = d_files d !! path s;
  lp_found : forall sid name f r, (sid, name) ∈ segs -> d_files d !! name = Some f -> r ∈ (scan (f_data f)).1 ->
    exists s, s ∈ new /\ id s = sid /\ r ∈ seg_records d' s
}.

Lemma same_control_trans w1 w2 w3 : same_control w1 w2 -> same_control w2 w3 -> same_control w1 w3.
Proof.
  intros (? & ? & ? & ? & ? & ? & ?) (? & ? & ? & ? & ? & ? & ?). repeat split; congruence.
Qed.

(** The file of a segment with records after recovery has cut it. *)
Lemma truncate_file f ps tail :
  f_data f = encs ps ++ tail ->
  exists f', f_data f' = encs ps /\ f_regular f' = f_regular f /\ f_perm f' = f_perm f /\
    forall name d, d_files d !! name = Some f ->
      (if negb (zlen (os_data name d) =? zlen (encs ps)) then os_truncate name (zlen (encs ps)) d else d) =
      set_files (<[name := f']> (d_files d)) d.
Proof.
  intros Hd. destruct (Z.eqb_spec (zlen (f_data f)) (zlen (encs ps))) as [E|E].
  - exists f. split; [|split_and!; [done..|]].
    + rewrite Hd, zlen_app in E. destruct tail; [by rewrite Hd, app_nil_r|]. unfold zlen in E. cbn in E. lia.
    + intros name d Hf. unfold os_data. rewrite Hf. cbn. rewrite E, Z.eqb_refl. cbn. rewrite insert_id by done. by destruct d.
  - exists (with_data (truncate_to (zlen (encs ps)) (f_data f)) (zlen (encs ps)) f). cbn. split; [|split_and!; [done..|]].
    + unfold truncate_to. rewrite Hd, to_nat_zlen, take_app_length, zeros_nonpos; [by rewrite app_nil_r|].
      rewrite zlen_app. pose proof (zlen_nonneg tail). lia.
    + intros name d Hf. unfold os_data. rewrite Hf. cbn. apply Z.eqb_neq in E. rewrite E. cbn.
      unfold os_truncate. f_equal. apply map_eq. intros name'. destruct (decide (name = name')) as [<-|Hne].
      * by rewrite lookup_alter_eq, lookup_insert_eq, Hf.
      * by rewrite lookup_alter_ne, lookup_insert_ne by done.
Qed.

Lemma recover_segs_ok segs w d recs :
  loop_ok o n segs w d ->
  exists w' d' new, loop_post segs w d recs (recover_segs env segs w d recs) w' d' new.
Proof using Hq Hn.
  revert w d recs. induction segs as [|[sid name] segs IH]; intros w d recs Hlo.
  { exists w, d, []. cbn. split; [by rewrite app_nil_r|by rewrite app_nil_r|done|by split|done|done|].
    by intros ? ? ? ? ?%not_elem_of_nil. }
  destruct (lo_segs _ _ _ _ _ Hlo sid name ltac:(by left)) as (Ename & Hsid & [f Hf]).
  cbn [recover_segs]. unfold readSegment. rewrite (q_open _ Hq), Hf, (q_read _ Hq).
  destruct (scan_sound (f_data f)) as (ps & tail & Hd & Hps & Hscan). rewrite Hscan.
  assert (forall x g, x ∈ segs -> d_files d !! x.2 = Some g -> x.2 <> name) as Hother.
  { intros x g Hx _. by eapply lo_name_ne. }
  destruct ps as [|p ps].
  - cbn [layout]. rewrite (q_remove _ Hq). destruct (IH w (os_remove name d) recs) as (w' & d' & new & [Hr Hse Hok Hc Hdir Hk Hfd]);
      [by eapply loop_remove|]. exists w', d', new. split; [done|done|done|done|done|..].
    + intros s Hs. rewrite Hk by done. apply remove_other. by eapply lo_path_ne.
    + intros sid' name' g r [[= -> ->]|Hx]%elem_of_cons Hg Hrec.
      * simplify_eq. rewrite Hscan in Hrec. by apply not_elem_of_nil in Hrec.
      * apply (Hfd sid' name' g r Hx); [|done]. cbn. rewrite lookup_delete_ne; [done|].
        intros E. by destruct (Hother (sid', name') g Hx Hg).
  - destruct (truncate_file f (p :: ps) tail Hd) as (f' & Hd' & Hreg & Hperm & Htr).
    rewrite (q_restat _ Hq), (q_truncate _ Hq).
    destruct (loop_keep segs w d sid name f (p :: ps) f' Hlo Hf Hps Hd' Hreg Hperm) as (Hlo' & Hrec & Hse' & Hnx' & Hc').
    specialize (Htr name d Hf). set (torn := negb _) in Htr |- *.
    set (d1 := set_files (<[name := f']> (d_files d)) d) in *.
    set (s := mkSeg sid name None _ _ _ _ _) in *. set (w1 := set_segs _ _ _ w) in *. set (w2 := if _ <=? sid then _ else w1) in *.
    assert (zlen (layout 0 (p :: ps)) = zlen (p :: ps)) as Hll by (unfold zlen; by rewrite length_layout).
    change (layout 0 (p :: ps)) with (mkRaw 0 p :: layout (0 + zlen (enc p)) ps). cbv iota.
    change (mkRaw 0 p :: layout (0 + zlen (enc p)) ps) with (layout 0 (p :: ps)). rewrite Hll.
    replace (if torn then os_truncate name (zlen (encs (p :: ps))) d else d) with d1.
    fold s. fold w1. fold w2.
    destruct (IH w2 d1 (recs ++ (to_record sid <$> layout 0 (p :: ps))) Hlo') as (w' & d' & new & [Hr Hse Hok Hc Hdir Hk Hfd]).
    assert (seg_records d' s = layout 0 (p :: ps)) as Hrec'.
    { rewrite <-Hrec. unfold seg_records, os_data. by rewrite Hk by (rewrite Hse', elem_of_app, list_elem_of_singleton; auto). }
    exists w', d', (s :: new). split.
    + transitivity (None : option error, w', d', (recs ++ (to_record sid <$> layout 0 (p :: ps))) ++ all_records d' new).
      { by destruct torn. }
      unfold all_records. rewrite fmap_cons. cbn [concat]. by rewrite Hrec', <-app_assoc.
    + by rewrite Hse, Hse', <-app_assoc.
    + done.
    + by eapply same_control_trans.
    + done.
    + intros s' Hs'. rewrite Hk by (rewrite Hse', elem_of_app; auto). cbn. rewrite lookup_insert_ne; [done|].
      intros E. by destruct (lo_path_ne segs w d sid name s' Hlo Hs').
    + intros sid' name' g r [[= -> ->]|Hx]%elem_of_cons Hg Hr'.
      * simplify_eq. rewrite Hscan in Hr'. exists s. split_and!; [by left|done|by rewrite Hrec'].
      * destruct (Hfd sid' name' g r Hx) as (s' & ? & ? & ?); [|done|].
        -- cbn. rewrite lookup_insert_ne; [done|]. intros E. by destruct (Hother (sid', name') g Hx Hg).
        -- exists s'. split_and!; [by right|done|done].
Qed.

End loop.

(** ** Opening *)

Section opening.
Variables (env : openEnv) (o : options) (n : Z).
Hypothesis Hq : quiet env.

Lemma validatePath_ok name perm : perm_ok o perm -> validatePath env name (inr (true, perm)) (insecurePermissions o) = None.
Proof.
  intros Hp. unfold validatePath. cbn [negb]. destruct Hp as [-> | ->]; cbn; [done|].
  by rewrite andb_false_r.
Qed.

Lemma validate_all_ok d segs :
  openable o n d -> (forall x, x ∈ segs -> x ∈ segment_files d) -> validate_all env (insecurePermissions o) d segs = None.
Proof using Hq.
  intros Ho. induction segs as [|[sid name] segs IH]; intros Hin; [done|]. cbn.
  destruct (proj1 (elem_of_segment_files d sid name) (Hin _ ltac:(by left))) as [[f Hf] Hs].
  destruct (oa_files _ _ _ Ho name f sid Hf Hs) as (_ & _ & Hreg & Hp).
  unfold stat_file. rewrite (q_stat _ Hq), Hf, Hreg, validatePath_ok by done. apply IH. intros x Hx. apply Hin. by right.
Qed.

(** The log that [Open] returns. *)
Record opened (d : disk) (w : WAL) (recovered : list WRecord) (d' : disk) : Prop := {
  on_store : store_ok [] w d';
  on_control : same_control (mkWAL o None [] 1 0 1 0 false 0 false false None) w;
  on_next : 0 < nextID w <= n + 1;
  on_session : session (nextID w - 1) w d';
  on_fresh : Forall (fun s => pendingPosition s = 0 /\ acked s = ∅) (live w);
  on_recovered : recovered = all_records d' (live w);
  on_found : forall name f sid r, d_files d !! name = Some f -> segment_of_name name = Some sid ->
    r ∈ (scan (f_data f)).1 -> to_record sid r ∈ recovered
}.

Lemma mkdir_ok mode d :
  openable o n d -> perm_ok o mode ->
  exists d1 perm, MkdirAll env mode d = (None, d1) /\ d_files d1 = d_files d /\ d_dir d1 = Some (true, perm) /\ perm_ok o perm.
Proof using Hq.
  intros [Hdir _] Hm. unfold MkdirAll. rewrite (q_mkdir _ Hq). destruct Hdir as [-> |(perm & E & Hp)].
  - by exists (mkDisk (Some (true, mode)) (d_files d)), mode.
  - rewrite E. by exists d, perm.
Qed.

Lemma elem_of_all_records d l s r :
  s ∈ l -> r ∈ seg_records d s -> to_record (id s) r ∈ all_records d l.
Proof.
  intros Hs Hr. unfold all_records. apply list_elem_of_In, in_concat. eexists. split.
  - apply list_elem_of_In, list_elem_of_fmap. by exists s.
  - by apply list_elem_of_In, list_elem_of_fmap_2.
Qed.

Lemma Open_ok dir d :
  dir <> EmptyString -> openable o n d -> 0 < n -> n + 1 < 2 ^ 64 ->
  exists w recovered d', Open env dir o d = (inr (w, recovered), d') /\ opened d w recovered d'.
Proof using Hq.
  intros Hdir Ho Hn0 Hn. unfold Open. apply String.eqb_neq in Hdir. rewrite Hdir.
  set (mode := if insecurePermissions o then 493 else dirMode).
  assert (perm_ok o mode) as Hmode.
  { unfold perm_ok, mode. destruct (insecurePermissions o); [by left|by right]. }
  destruct (mkdir_ok mode d Ho Hmode) as (d1 & perm & -> & Ef & Ed & Hperm).
  unfold stat_dir. rewrite (q_statdir _ Hq), Ed, validatePath_ok by done.
  set (w0 := mkWAL o None [] 1 0 1 0 false 0 false false None).
  assert (openable o n d1) as Ho1. { split; [right; eauto|]. rewrite Ef. apply (oa_files _ _ _ Ho). }
  unfold recover. rewrite (q_readdir _ Hq), validate_all_ok by done.
  assert (loop_ok o n (segment_files d1) w0 d1) as Hlo.
  { split; [|done|done|done|cbn; lia|by eapply segment_files_sorted; [done|lia]|by intros s x ?%not_elem_of_nil|..].
    - split; [constructor|done|done|done].
    - intros sid name [[f Hf] Hs]%elem_of_segment_files. destruct (oa_files _ _ _ Ho1 name f sid Hf Hs) as (? & ? & _). eauto.
    - intros name f sid Hf Hs. destruct (oa_files _ _ _ Ho1 name f sid Hf Hs) as (? & ? & ? & ?).
      split_and!; [done|lia|done|done|right]. apply elem_of_segment_files. eauto. }
  destruct (recover_segs_ok env o n Hq ltac:(lia) (segment_files d1) w0 d1 [] Hlo) as (w1 & d2 & new & [Hr Hse Hok Hc Hd2 _ Hfd]).
  rewrite Hr. cbn [app] in *. destruct Hok as [Hcore Hact Hfiles Htot Hnext _ _ _ Hna].
  assert (live w1 = sealed w1) as Elive by (unfold live; rewrite Hact; apply app_nil_r).
  assert (opts w1 = o) as Eo by apply Hc.
  assert (store_ok [] w1 d2) as Hst.
  { split; [by rewrite Elive| |by rewrite Hact|by rewrite Elive|].
    - apply (Forall_impl _ _ _ Hfiles). by intros s [? _].
    - rewrite Eo. split; [exists perm; by rewrite Hd2|]. intros name f sid Hf Hs.
      destruct (Hna name f sid Hf Hs) as (? & ? & ? & ? & [?|?%not_elem_of_nil]); [|done]. split_and!; [done|lia|lia|done|done]. }
  pose proof (open_new_ok (fun _ _ => False) (e_create env) w1 d2 Hst Hact ltac:(lia) ltac:(lia)) as Hopen.
  unfold openNewActiveLocked in *. rewrite (q_create _ Hq) in *.
  destruct (d_files d2 !! segment_name (nextID w1)) as [f|] eqn:Hfree.
  { destruct (Hna _ f (nextID w1) Hfree) as (_ & _ & _ & _ & [?|?%not_elem_of_nil]); [|lia|done].
    apply segment_of_name_ok. lia. }
  set (w2 := set_active _ _) in *. set (d3 := set_files _ d2) in *. destruct Hopen as (Hop & Hc2 & En).
  eexists _, _, _. split; [done|].
  assert (live w2 = new ++ [mkSeg (nextID w1) (segment_name (nextID w1)) (Some (mkHandle 0 false)) 0 0 0 ∅ 0]) as El2.
  { unfold live, w2. cbn. by rewrite Hse. }
  assert (forall s, s ∈ new -> seg_records d3 s = seg_records d2 s) as Hsame.
  { intros s Hs. unfold seg_records, os_data. cbn. rewrite lookup_insert_ne; [done|]. intros E.
    destruct (core_files _ _ _ s Hcore) as [f Hf]; [by rewrite Hse|]. congruence. }
  assert (all_records d2 new = all_records d3 (live w2)) as Eall.
  { rewrite El2. unfold all_records. rewrite fmap_app, concat_app. cbn.
    unfold seg_records at 3, os_data. cbn. rewrite app_nil_r. f_equal. apply list_fmap_ext.
    intros i s Hs. by rewrite Hsame by (by eapply list_elem_of_lookup_2). }
  split.
  - apply (op_store _ _ _ _ _ _ Hop).
  - eapply same_control_trans; [exact Hc|exact Hc2].
  - lia.
  - rewrite En, Z.add_simpl_r. apply (op_session _ _ _ _ _ _ Hop). split; [lia|by rewrite Hact|].
    intros s f Hs Hid. pose proof (co_ids _ _ _ Hcore) as HF. rewrite list.Forall_forall in HF. specialize (HF s Hs). lia.
  - rewrite El2. apply Forall_app. split; [|by constructor]. rewrite Hse in Hfiles. apply (Forall_impl _ _ _ Hfiles). by intros s [_ ?].
  - done.
  - intros name f sid r Hf Hs Hrec. rewrite <-Ef in Hf.
    destruct (Hfd sid name f r ltac:(apply elem_of_segment_files; eauto) Hf Hrec) as (s & Hin & <- & Hsr).
    by apply elem_of_all_records.
Qed.

End opening.

End WalRecover.
