(* ===== verification/WalHistory.v ===== *)
(** * Runs of the log and what their callers were told

    The invariant of a log together with the history of what its callers
    observed: a record a caller was told of is on disk until it has been
    acknowledged, and an acknowledgement made while the log was open has taken
    effect. *)

From S2P Require Import Prelude Wal WalFormat WalStore WalRead WalInv WalOps WalActions WalBatch WalSystem WalProto WalRun WalRecover.
From Stdlib Require Import Strings.Byte.

Module WalHistory.
Import Wal WalFormat WalStore WalRead WalInv WalOps WalActions WalBatch WalSystem WalProto WalRun WalRecover.

Definition acked_in (hist : list event) (off : Offset) : Prop := EvAck off ∈ hist.

(** A caller was told that [p] is at [off]. *)
Definition told (hist : list event) (off : Offset) (p : bytes) : Prop := exists e, e ∈ hist /\ issues e off p.

(** The record [p] a caller was told of has been acknowledged. *)
Definition acked_as (hist : list event) (off : Offset) (p : bytes) : Prop := acked_in hist off /\ told hist off p.

(** Callers acknowledge the zero offset or what they were told of. *)
Definition ack_told (hist : list event) (l : label) : Prop :=
  match l with
  | LAck off _ => IsZero off = true \/ exists p, told hist off p
  | _ => True
  end.

Fixpoint disciplined (hist : list event) (ls : list label) (s : sys) : Prop :=
  match ls with
  | [] => True
  | l :: ls =>
      ack_told hist l /\
      match step l s with Some (s, ev) => disciplined (hist ++ ev) ls s | None => True end
  end.

Record history (base : Z) (s : sys) (hist : list event) : Prop := {
  hi_sys : sys_ok base (acked_as hist) s;
  hi_told : forall off p, told hist off p -> written (acked_as hist) s off p;
  hi_once : forall off p q, told hist off p -> told hist off q -> p = q;
  hi_appended : forall p off, EvAppend p (inr off) ∈ hist -> base <= SegmentID off;
  hi_acked : forall off, acked_in hist off -> IsZero off = false ->
    (exists p, written (acked_as hist) s off p) /\
    (closed (wal s) = false -> forall x, x ∈ live (wal s) -> id x = SegmentID off -> consumed x (Position off))
}.

Lemma sys_ok_mono base (A A' : Offset -> bytes -> Prop) s :
  (forall off p, A off p -> A' off p) -> sys_ok base A s -> sys_ok base A' s.
Proof.
  intros HA [Hst Hac Hse Hpo Hn]. split; [done|by eapply acks_from_mono|done| |done].
  eapply proto_mono; [|done]. intros off p [Hw Hb]. split; [by eapply recorded_mono|done].
Qed.

(** Two records at one offset are equal, or their segment is gone. *)
Lemma written_inj base A s off p q :
  sys_ok base A s -> written A s off p -> written A s off q -> p = q \/ (A off p /\ A off q).
Proof.
  intros Hs [_ Hlp Hgp] [_ Hlq Hgq].
  destruct (decide (Exists (fun x => id x = SegmentID off) (live (wal s)))) as [[x [Hx Ei]]%list.Exists_exists|Hno].
  - left. destruct (core_file _ _ _ x (st_core _ _ _ (sy_store _ _ _ Hs)) Hx) as (ps & f & Hok & _).
    specialize (Hlp x Hx Ei). specialize (Hlq x Hx Ei). rewrite (seg_ok_records _ _ _ Hok) in Hlp, Hlq.
    by injection (layout_inj ps _ _ Hlp Hlq eq_refl).
  - right. assert (forall x, x ∈ live (wal s) -> id x <> SegmentID off) as Hno'
      by (intros x Hx Ei; apply Hno, list.Exists_exists; eauto). auto.
Qed.

(** ** The log once opened *)

Lemma start_proto R w d : same_control (mkWAL (opts w) None [] 1 0 1 0 false 0 false false None) w -> proto_ok R (start w d).
Proof.
  intros (_ & Ecur & Egen & Edone & Efl & _). cbn in Ecur, Egen, Edone, Efl. split; cbn.
  - intros bi b [<- <-]%lookup_singleton_Some. exists []. split; [apply new_batch_ok|done].
  - rewrite Ecur. exists new_batch. by rewrite lookup_singleton_eq.
  - split; [constructor|]. by intros bi ?%not_elem_of_nil.
  - unfold leader_ok. cbn. rewrite Efl, Edone, Egen. done.
  - done.
Qed.

Lemma fresh_unconsumed s r ps : pendingPosition s = 0 -> acked s = ∅ -> r ∈ layout 0 ps -> ~ consumed s (position r).
Proof.
  intros Hp Ha (i & p & _ & ->)%elem_of_layout [H|H]; cbn in H.
  - rewrite Hp in H. pose proof (pos_of_nonneg ps i). lia.
  - rewrite Ha in H. by apply elem_of_empty in H.
Qed.

Lemma opened_history o n d w recovered d' :
  opened o n d w recovered d' -> history (nextID w - 1) (start w d') [EvRead (inr recovered)].
Proof.
  intros [Hst Hc Hn Hse Hfr Hrec Hfd]. rewrite list.Forall_forall in Hfr.
  assert (sys_ok (nextID w - 1) (acked_as [EvRead (inr recovered)]) (start w d')) as Hs.
  { split; [done| |done| |cbn; lia].
    - intros s r Hs Hr Hcons. exfalso. destruct (core_file _ _ _ s (st_core _ _ _ Hst) Hs) as (ps & f & Hok & _).
      cbn in Hr. rewrite (seg_ok_records _ _ _ Hok) in Hr. destruct (Hfr s Hs). by apply (fresh_unconsumed s r ps).
    - apply start_proto. destruct Hc as (Eo & Hrest). by split. }
  assert (forall off, ~ acked_in [EvRead (inr recovered)] off) as Hna by (by intros off ?%list_elem_of_singleton).
  assert (forall off p, told [EvRead (inr recovered)] off p -> written (acked_as [EvRead (inr recovered)]) (start w d') off p) as Ht.
  { intros off p (e & ->%list_elem_of_singleton & Hi). cbn in Hi. rewrite Hrec in Hi. unfold all_records in Hi.
    apply list_elem_of_In, in_concat in Hi as (l & Hl & Hi). apply list_elem_of_In in Hl, Hi.
    apply list_elem_of_fmap in Hl as (x & -> & Hx). apply list_elem_of_fmap in Hi as (r & [= -> ->] & Hr).
    by apply (live_written (nextID w - 1)). }
  split; [done|done| | |].
  - intros off p q Hp Hq. destruct (written_inj _ _ _ off p q Hs) as [?|[[? _] _]]; [auto|auto|done|by destruct (Hna off)].
  - by intros p off ?%list_elem_of_singleton.
  - intros off H. by destruct (Hna off).
Qed.

(** ** Transitions *)

Lemma told_weaken hist ev off p : told hist off p -> told (hist ++ ev) off p.
Proof. intros (e & He & Hi). exists e. split; [apply elem_of_app; by left|done]. Qed.

Lemma acked_as_weaken hist ev off p : acked_as hist off p -> acked_as (hist ++ ev) off p.
Proof. intros [Ha Ht]. split; [apply elem_of_app; by left|by apply told_weaken]. Qed.

Lemma told_app hist ev off p : told (hist ++ ev) off p -> told hist off p \/ told ev off p.
Proof. intros (e & [He|He]%elem_of_app & Hi); [left|right]; by exists e. Qed.

(** The options are fixed, and a closed log stays closed. *)
Lemma step_flags l s s' ev :
  step l s = Some (s', ev) ->
  opts (wal s') = opts (wal s) /\ (closed (wal s') = closed (wal s) \/ closed (wal s') = true).
Proof.
  intros Hstep.
  destruct l as [tid p|tid|tid reuse|serr cerr oerr rm|k| |err terr kerr|tid|off rm|env limit skip|serr|final|serr| | |serr cerr rerr];
    cbn [step] in Hstep.
  - unfold append_start in Hstep. repeat case_match; simplify_eq; by (split; [|left]).
  - unfold append_add in Hstep. repeat case_match; simplify_eq; by (split; [|left]).
  - unfold flush_start, getAppendBatch in Hstep. repeat case_match; simplify_eq; by (split; [|left]).
  - unfold flush_scan, sealActiveLocked, openNewActiveLocked in Hstep. repeat case_match; simplify_eq; by (split; [|left]).
  - apply fmap_Some in Hstep as (s1 & Hstep & [= -> ->]). unfold write_bytes in Hstep. repeat case_match; simplify_eq; by (split; [|left]).
  - unfold write_done, write_bytes in Hstep. repeat case_match; simplify_eq; by (split; [|left]).
  - unfold write_fail in Hstep. repeat case_match; simplify_eq; by (split; [|left]).
  - unfold append_return in Hstep. repeat case_match; simplify_eq; by (split; [|left]).
  - unfold Ack in Hstep. repeat case_match; simplify_eq; by (split; [|left]).
  - unfold ReadPending in Hstep. repeat case_match; simplify_eq; by (split; [|left]).
  - repeat case_match; simplify_eq; by (split; [|left]).
  - unfold fsync_tick in Hstep. repeat case_match; simplify_eq; by (split; [|left]).
  - unfold fsync_sync, fsyncOnce in Hstep. repeat case_match; simplify_eq; by (split; [|left]).
  - unfold close_begin in Hstep. repeat case_match; simplify_eq; by (split; [|left]).
  - unfold close_mark in Hstep. repeat case_match; simplify_eq; by (split; [|right]).
  - unfold close_end, close_finish in Hstep. repeat case_match; simplify_eq; by (split; [|left]).
Qed.

Lemma closed_stays l s s' ev : step l s = Some (s', ev) -> closed (wal s') = false -> closed (wal s) = false.
Proof. intros H. destruct (step_flags _ _ _ _ H) as [_ [-> | ->]]; done. Qed.

Ltac quiet_event := first [by left | right; eexists; split; [reflexivity|exact I]].

(** Only an acknowledgement is observed as one. *)
Lemma step_ack_label l s s' ev off : step l s = Some (s', ev) -> EvAck off ∈ ev -> exists rm, l = LAck off rm.
Proof.
  intros Hstep Hin.
  assert ((forall off rm, l <> LAck off rm) -> forall e, e ∈ ev -> match e with EvAck _ => False | _ => True end) as Hno.
  { clear Hin off. intros Hl e He.
    assert (ev = [] \/ exists e', ev = [e'] /\ match e' with EvAck _ => False | _ => True end) as [-> |(e' & -> & He')];
      [|by apply not_elem_of_nil in He|by apply list_elem_of_singleton in He; subst e].
    destruct l as [tid p|tid|tid reuse|serr cerr oerr rm|k| |err terr kerr|tid|off rm|env limit skip|serr|final|serr| | |serr cerr rerr];
      cbn [step] in Hstep.
    - unfold append_start in Hstep. repeat case_match; simplify_eq; quiet_event.
    - unfold append_add in Hstep. repeat case_match; simplify_eq; quiet_event.
    - unfold flush_start in Hstep. repeat case_match; simplify_eq; quiet_event.
    - unfold flush_scan in Hstep. repeat case_match; simplify_eq; quiet_event.
    - apply fmap_Some in Hstep as (s1 & Hstep & [= -> ->]). quiet_event.
    - unfold write_done in Hstep. repeat case_match; simplify_eq; quiet_event.
    - unfold write_fail in Hstep. repeat case_match; simplify_eq; quiet_event.
    - unfold append_return in Hstep. repeat case_match; simplify_eq; quiet_event.
    - by destruct (Hl off rm).
    - destruct (ReadPending _ _ _ _ _). simplify_eq; quiet_event.
    - destruct (Sync _ _ _). simplify_eq; quiet_event.
    - unfold fsync_tick in Hstep. repeat case_match; simplify_eq; quiet_event.
    - unfold fsync_sync in Hstep. repeat case_match; simplify_eq; quiet_event.
    - unfold close_begin in Hstep. repeat case_match; simplify_eq; quiet_event.
    - unfold close_mark in Hstep. repeat case_match; simplify_eq; quiet_event.
    - unfold close_end in Hstep. repeat case_match; simplify_eq; quiet_event. }
  destruct l as [| | | | | | | |off' rm| | | | | | |]; try (exfalso; by apply (Hno ltac:(done) _ Hin)).
  exists rm. cbn in Hstep. destruct (Ack off' rm (wal s) (dsk s)). injection Hstep as <- <-.
  apply list_elem_of_singleton in Hin. by injection Hin as ->.
Qed.

(** Two callers told of one offset were told of one record: a live segment has
    one record there, and once the segment is gone nobody is told of it who had
    not been told before. *)
Lemma told_once_step base s s' hist ev (A := fun off p => acked_in (hist ++ ev) off /\ told hist off p) :
  sys_ok base A s -> step_ok base A s s' ev -> (forall off p, told hist off p -> written A s off p) ->
  (forall off p q, told hist off p -> told hist off q -> p = q) ->
  forall off p q, told (hist ++ ev) off p -> told (hist ++ ev) off q -> p = q.
Proof.
  intros Hs [Hs' Hev Hiss _ _] Ht Hon off p q Hp Hq.
  assert (forall r, told (hist ++ ev) off r -> written A s' off r) as Hw.
  { intros r [Hr|(e & He & Hi)]%told_app; [|by eapply Hiss].
    apply (recorded_evolves A Hev (sy_acks _ _ _ Hs)), Ht, Hr. }
  destruct (written_inj base A s' off p q) as [?|[[_ ?] [_ ?]]]; eauto.
Qed.

Lemma history_step base l s s' ev hist :
  history base s hist -> nextID (wal s) + 1 < 2 ^ 64 -> ack_told hist l -> step l s = Some (s', ev) ->
  history base s' (hist ++ ev) /\ step_ok base (acked_as (hist ++ ev)) s s' ev.
Proof.
  intros [Hs Ht Hon Hap Hak] Hn Hl Hstep.
  assert (forall (A' : Offset -> bytes -> Prop), (forall off p, acked_in (hist ++ ev) off -> told hist off p -> A' off p) ->
    sys_ok base A' s /\ (forall off p, written (acked_as hist) s off p -> written A' s off p) /\ step_ok base A' s s' ev) as Hgen.
  { intros A' HA'. assert (forall off p, acked_as hist off p -> A' off p) as HA
      by (intros off p [Ha Hp]; apply HA'; [apply elem_of_app; by left|done]).
    assert (forall off p, written (acked_as hist) s off p -> written A' s off p) as HW
      by (intros off p; by apply recorded_mono).
    pose proof (sys_ok_mono base _ A' s HA Hs) as Hs'. split_and!; [done|done|]. apply (step_keeps base A' l); [done|done| |done].
    unfold ack_known, ack_told in *. destruct l as [| | | | | | | |off rm| | | | | | |]; try done.
    destruct Hl as [?|[p Hp]]; [by left|right; exists p]. split; [|auto]. apply HA'; [|done].
    cbn in Hstep. destruct (Ack off rm (wal s) (dsk s)). injection Hstep as <- <-. apply elem_of_app. right. by left. }
  set (A' := acked_as (hist ++ ev)).
  destruct (Hgen A') as (Hs' & HW & Hok); [intros off p ? ?; split; [done|by apply told_weaken]|].
  split; [|done].
  destruct Hok as [Hsys Hev Hiss Happ _]. pose proof (sy_acks _ _ _ Hs') as Hacks.
  assert (forall off p, written A' s off p -> written A' s' off p) as Hmono
    by (intros off p; apply (recorded_evolves A' Hev Hacks)).
  split; [done| | | |].
  - intros off p [Hp|(e & He & Hi)]%told_app; [auto|by eapply Hiss].
  - destruct (Hgen (fun off p => acked_in (hist ++ ev) off /\ told hist off p)) as (Hs1 & HW1 & Hok1); [done|].
    apply (told_once_step base s s'); [done|done|auto|done].
  - intros p off [Hp|Hp]%elem_of_app; [by apply (Hap p)|by apply (Happ p)].
  - intros off Hoff Hz. apply elem_of_app in Hoff as [Hoff|Hoff].
    + destruct (Hak off Hoff Hz) as [[p Hp] Hcons]. split; [exists p; auto|].
      intros Hcl x' Hx' Ei. apply (closed_stays _ _ _ _ Hstep) in Hcl.
      destruct (ev_from _ _ _ _ _ _ _ Hev x' Hx') as [(x & Hx & E)|[Hge _]].
      * rewrite (ev_id _ _ _ _ _ E) in Ei. change (Position off) with (position (mkRaw (Position off) p)).
        apply (ev_mono _ _ _ _ _ E); [by apply (rc_live _ _ _ _ _ _ Hp)|by apply Hcons].
      * pose proof (rc_id _ _ _ _ _ _ Hp). lia.
    + destruct (step_ack_label _ _ _ _ _ Hstep Hoff) as [rm ->]. destruct Hl as [?|[p Hp]]; [congruence|].
      split; [exists p; auto|]. cbn in Hstep.
      pose proof (Ack_effect _ off rm (wal s) (dsk s) p (sy_store _ _ _ Hs)) as Heff.
      destruct (Ack off rm (wal s) (dsk s)) as [w d] eqn:E. injection Hstep as <- <-. cbn.
      intros Hcl x Hx Ei. apply Heff; [|done|by apply (rc_live _ _ _ _ _ _ (Ht off p Hp))|done|done].
      assert (step (LAck off rm) s = Some (with_disk w d s, [EvAck off])) as Hst by (cbn; by rewrite E).
      by apply (closed_stays _ _ _ _ Hst).
Qed.

(** ** Runs *)

Lemma history_run base ls s s' evs hist :
  history base s hist -> nextID (wal s) + Z.of_nat (length ls) < 2 ^ 64 -> disciplined hist ls s ->
  run ls s = Some (s', evs) ->
  history base s' (hist ++ evs) /\ nextID (wal s') <= nextID (wal s) + Z.of_nat (length ls) /\
  opts (wal s') = opts (wal s) /\
  forall off p, told hist off p -> durable (live (wal s)) (dsk s) off p -> durable (live (wal s')) (dsk s') off p.
Proof.
  revert s hist evs. induction ls as [|l ls IH]; intros s hist evs Hh Hn Hd Hrun.
  { injection Hrun as <- <-. rewrite app_nil_r. split_and!; [done|lia|done|done]. }
  cbn [length] in *. cbn in Hd, Hrun. destruct Hd as [Hl Hd]. destruct (step l s) as [[s1 ev]|] eqn:Hstep; [|done].
  destruct (run ls s1) as [[s2 evs1]|] eqn:Hr; [|done]. injection Hrun as <- <-.
  destruct (history_step base l s s1 ev hist Hh ltac:(lia) Hl Hstep) as [Hh1 Hok]. pose proof (sp_next _ _ _ _ _ Hok).
  destruct (IH s1 (hist ++ ev) evs1 Hh1 ltac:(lia) Hd Hr) as (Hh2 & Hn2 & Hop & Hdur). rewrite <-app_assoc in Hh2.
  destruct (step_flags _ _ _ _ Hstep) as [Ho1 _]. split_and!; [done|lia|congruence|]. intros off p Ht Hdu. apply Hdur.
  - by apply told_weaken.
  - eapply durable_evolves; [apply (sp_evolves _ _ _ _ _ Hok)| | |done].
    + eapply recorded_mono; [|by apply (hi_told _ _ _ Hh)]. intros o q. apply acked_as_weaken.
    + intros x Hx. eapply core_files; [|done]. apply (st_core _ _ _ (sy_store _ _ _ (hi_sys _ _ _ Hh))).
Qed.

(** The records a caller was told of and has not acknowledged are on disk. *)
Lemma told_on_disk base s hist off p :
  history base s hist -> told hist off p -> ~ acked_in hist off ->
  exists x, x ∈ live (wal s) /\ id x = SegmentID off /\ mkRaw (Position off) p ∈ seg_records (dsk s) x.
Proof.
  intros Hh Ht Hna. destruct (hi_told _ _ _ Hh off p Ht) as [_ Hlive Hgone].
  destruct (decide (Exists (fun x => id x = SegmentID off) (live (wal s)))) as [[x [Hx Ei]]%list.Exists_exists|Hno].
  - exists x. split_and!; [done..|auto].
  - destruct Hna. apply Hgone. intros x Hx Ei. apply Hno. apply list.Exists_exists. eauto.
Qed.

End WalHistory.
