(* ===== verification/WalLive.v ===== *)
(** * The group commit makes progress

    The leader can always take its next step, takes boundedly many of them
    whatever the system calls return, and so every waiting [Append] returns. *)

From S2P Require Import Prelude Wal WalFormat WalStore WalActions WalBatch WalSystem WalProto WalRun.
From Stdlib Require Import Strings.Byte.

Module WalLive.
Import Wal WalFormat WalStore WalActions WalBatch WalSystem WalProto WalRun.

(** A step of the leader's loop. *)
Definition leads (l : label) : bool :=
  match l with LScan _ _ _ _ | LWriteDone | LWriteFail _ _ _ => true | _ => false end.

(** The steps the leader has left, at most: a record can take a roll, a scan
    and a write. *)
Definition work (s : sys) : nat :=
  match leader s with
  | None => 0
  | Some (mkFlush bi _ i ph) =>
      match batches s !! bi with
      | None => 0
      | Some b =>
          3 * (batch_len b - i) +
          match ph with
          | Writing _ _ => 0
          | Scan => if (0 <? from_option records 0 (active (wal s)))%Z then 2 else 1
          end
      end
  end%nat.

(** The records of the current batch. *)
Definition cur_len (s : sys) : nat := from_option batch_len 0%nat (batches s !! cur (wal s)).

Lemma batch_fail_len i j e b : batch_len (batch_fail i j e b) = batch_len b.
Proof. done. Qed.

Lemma batch_publish_len n sid k pos b : batch_len (batch_publish n sid k pos b).1 = batch_len b.
Proof.
  revert k pos b. induction n as [|n IH]; intros k pos b; [done|]. cbn. rewrite IH. unfold batch_len. cbn. apply length_insert.
Qed.

(** What a step of the leader leaves alone. *)
Lemma leads_frame l s s' ev :
  leads l = true -> step l s = Some (s', ev) ->
  calls s' = calls s /\ curGen (wal s') = curGen (wal s) /\ cur (wal s') = cur (wal s) /\ ev = [] /\
  exists fl, leader s = Some fl /\ forall bi, bi <> fl_b fl -> batches s' !! bi = batches s !! bi.
Proof.
  intros Hl Hstep. destruct l as [| | |serr cerr oerr rm| | |err terr kerr| | | | | | | | |]; try done; cbn [step] in Hstep.
  - unfold flush_scan, sealActiveLocked, openNewActiveLocked in Hstep.
    repeat case_match; simplify_eq; split_and!; try done; eexists; (split; [done|]); intros bi Hbi; cbn; try done;
      by rewrite lookup_insert_ne by done.
  - unfold write_done, write_bytes in Hstep.
    repeat case_match; simplify_eq; split_and!; try done; eexists; (split; [done|]); intros bi Hbi; cbn in *; simplify_eq;
      by rewrite lookup_insert_ne by done.
  - unfold write_fail in Hstep.
    repeat case_match; simplify_eq; split_and!; try done; eexists; (split; [done|]); intros bi Hbi; cbn in *; simplify_eq;
      by rewrite lookup_insert_ne by done.
Qed.

Lemma work_none s : leader s = None -> work s = 0%nat.
Proof. unfold work. by intros ->. Qed.

(** Every step of the leader uses up work. *)
Lemma scan_work serr cerr oerr rm s s' ev :
  leader_ok s -> flush_scan serr cerr oerr rm s = Some (s', ev) -> (work s' < work s)%nat.
Proof.
  unfold leader_ok, flush_scan. destruct (leader s) as [[bi gen i [|j n]]|] eqn:Hl; [|done..]. cbn [fl_b fl_i fl_phase].
  intros (_ & _ & _ & _ & b & Hb & Hi & _) Hstep. rewrite Hb in Hstep.
  assert (work s = 3 * (batch_len b - i) + if (0 <? from_option records 0 (active (wal s)))%Z then 2 else 1)%nat as Ew
    by (unfold work; by rewrite Hl, Hb).
  assert (0 < work s)%nat as Hpos by (rewrite Ew; destruct (Z.ltb _ _); lia).
  assert (forall s1, work (flush_end gen s1) = 0%nat) as Hend by done.
  assert (forall fl b1 e s1, work (flush_abort fl b1 e s1) = 0%nat) as Habort by done.
  destruct (batch_len b <=? i)%nat eqn:Hlen; [injection Hstep as <- _; by rewrite Hend|]. apply Nat.leb_gt in Hlen.
  destruct (active (wal s)) as [seg|] eqn:Ha; [|injection Hstep as <- _; by rewrite Habort].
  destruct (closed (wal s) || negb (has_file (wal s))); [injection Hstep as <- _; by rewrite Habort|].
  destruct ((maxSegmentBytes (opts (wal s)) <? size seg + batch_size b i) && (0 <? records seg)) eqn:Eroll.
  - apply andb_true_iff in Eroll as [_ Hrec].
    destruct (sealActiveLocked serr cerr rm (wal s) (dsk s)) as [[[e|] w1] d1]; [injection Hstep as <- _; by rewrite Habort|].
    destruct (openNewActiveLocked oerr w1 d1) as [[[e|] w2] d2] eqn:Eo; injection Hstep as <- _; [by rewrite Habort|].
    rewrite Ew. unfold work. cbn. rewrite Hl, Hb, Hrec.
    assert (from_option records 0 (active w2) = 0) as ->
      by (unfold openNewActiveLocked in Eo; repeat case_match; simplify_eq; done).
    cbn. lia.
  - injection Hstep as <- _. rewrite Ew. unfold work. cbn [leader batches with_leader]. rewrite Hb. case_match; lia.
Qed.

Lemma write_work l s s' ev :
  leader_ok s -> (l = LWriteDone \/ exists err terr kerr, l = LWriteFail err terr kerr) ->
  step l s = Some (s', ev) -> (work s' < work s)%nat.
Proof.
  intros Hlead Hlab Hstep.
  assert (exists bi gen i j n b b', leader s = Some (mkFlush bi gen i (Writing j n)) /\ batches s !! bi = Some b /\
    leader s' = Some (mkFlush bi gen j Scan) /\ batches s' !! bi = Some b' /\ batch_len b' = batch_len b)
    as (bi & gen & i & j & n & b & b' & Hl & Hb & Hl' & Hb' & Elen).
  { destruct Hlab as [-> |(err & terr & kerr & ->)]; cbn [step] in Hstep.
    - unfold write_done, write_bytes in Hstep. repeat case_match; simplify_eq. cbn in *. simplify_eq.
      eexists _, _, _, _, _, _, _. split_and!; [done|done|done|by rewrite lookup_insert_eq|].
      match goal with H : batch_publish ?n ?sid ?k ?pos ?b = _ |- _ => pose proof (batch_publish_len n sid k pos b) as E; rewrite H in E end.
      done.
    - unfold write_fail in Hstep. repeat case_match; simplify_eq. cbn in *. simplify_eq.
      eexists _, _, _, _, _, _, _. split_and!; [done|done|done|by rewrite lookup_insert_eq|done]. }
  unfold leader_ok in Hlead. rewrite Hl in Hlead. destruct Hlead as (_ & _ & _ & _ & b1 & Hb1 & Hi & Hj & _).
  cbn in Hb1, Hi, Hj. rewrite Hb in Hb1. injection Hb1 as <-.
  unfold work. rewrite Hl, Hl', Hb, Hb', Elen. destruct (Z.ltb _ _); lia.
Qed.

Lemma leads_work l s s' ev : leader_ok s -> leads l = true -> step l s = Some (s', ev) -> (work s' < work s)%nat.
Proof.
  intros Hok Hl Hstep. destruct l as [| | |serr cerr oerr rm| | |err terr kerr| | | | | | | | |]; try done.
  - by eapply scan_work.
  - eapply write_work; [done|by left|done].
  - eapply write_work; [done|right; by exists err, terr, kerr|done].
Qed.

(** The leader is never stuck. *)
Lemma leads_enabled s : leader_ok s -> leader s <> None -> exists l s', leads l = true /\ step l s = Some (s', []).
Proof.
  unfold leader_ok. destruct (leader s) as [[bi gen i [|j n]]|] eqn:Hl; [| |done]; cbn; intros (_ & _ & _ & _ & b & Hb & _ & Hph) _.
  - exists (LScan None None None true). cbn [step]. unfold flush_scan. rewrite Hl, Hb.
    repeat case_match; eexists; by split.
  - destruct Hph as (_ & _ & Hf). exists (LWriteFail os_ErrClosed None None). cbn [step]. unfold write_fail. rewrite Hl.
    unfold has_file in Hf. destruct (active (wal s)) as [seg|]; [|done]. rewrite Hb.
    destruct (rollbackLocked _ _ _ _ _ _) as [[e seg'] d]. eexists. by split.
Qed.

(** The [Append] of [tid] returns whatever the system calls do: it can return,
    or it can become the leader, or the leader has a step, and from there on
    the same holds for every outcome of the step. *)
Inductive inevitable (tid : nat) (p : bytes) : sys -> Prop :=
| inev_return s s' r : step (LAppendReturn tid) s = Some (s', [EvAppend p r]) -> inevitable tid p s
| inev_lead s :
    (exists s', step (LLead tid None) s = Some (s', [])) ->
    (forall reuse s' ev, step (LLead tid reuse) s = Some (s', ev) -> inevitable tid p s') -> inevitable tid p s
| inev_leader s :
    (exists l s', leads l = true /\ step l s = Some (s', [])) ->
    (forall l s' ev, leads l = true -> step l s = Some (s', ev) -> inevitable tid p s') -> inevitable tid p s.

Section live.
Variables (base : Z) (A : Offset -> bytes -> Prop) (tid : nat) (p : bytes) (bi : nat) (gen : Z) (idx : nat).

(** The call waits, the leader, if any, has at most [k] steps left, and the
    ids stay below [top] while it takes them. *)
Record waiting_with (c : Z) (m k : nat) (top : Z) (s : sys) : Prop := {
  ww_sys : sys_ok base A s;
  ww_call : calls s !! tid = Some (CWait p bi gen idx);
  ww_gen : curGen (wal s) = c;
  ww_len : cur_len s = m;
  ww_work : (work s <= k)%nat;
  ww_next : nextID (wal s) + Z.of_nat k < top < 2 ^ 64
}.

Lemma leader_step c m k top l s s' ev :
  waiting_with c m k top s -> leads l = true -> step l s = Some (s', ev) -> (0 < k)%nat /\ waiting_with c m (k - 1) top s'.
Proof.
  intros [Hs Hc Hg Hm Hw Hn] Hl Hstep. pose proof (sy_proto _ _ _ Hs) as Hp.
  pose proof (leads_work _ _ _ _ (po_leader _ _ Hp) Hl Hstep) as Hlt.
  destruct (leads_frame _ _ _ _ Hl Hstep) as (Ec & Eg & Ecur & _ & fl & Hfl & Hb).
  assert (ack_known A s l) as Hk by (by destruct l).
  destruct (step_keeps base A l s s' ev Hs ltac:(lia) Hk Hstep) as [Hs' _ _ _ Hn'].
  split; [lia|]. split; [done|congruence|congruence| |lia|lia].
  pose proof (po_leader _ _ Hp) as Hlo. unfold leader_ok in Hlo. rewrite Hfl in Hlo. destruct Hlo as (_ & _ & _ & Hne & _).
  unfold cur_len in *. by rewrite Ecur, Hb.
Qed.

(** The leader comes to its end. *)
Lemma leader_ends c m k top s :
  waiting_with c m k top s ->
  (forall s', waiting_with c m 0 top s' -> leader s' = None -> inevitable tid p s') -> inevitable tid p s.
Proof.
  revert s. induction k as [k IH] using lt_wf_ind. intros s Hw Hend.
  destruct (leader s) as [fl|] eqn:Hl.
  - pose proof (po_leader _ _ (sy_proto _ _ _ (ww_sys _ _ _ _ _ Hw))) as Hlo.
    apply inev_leader; [apply leads_enabled; [done|by rewrite Hl]|]. intros l s' ev Hll Hstep.
    destruct (leader_step _ _ _ _ _ _ _ _ Hw Hll Hstep) as [Hk Hw']. by apply (IH (k - 1)%nat ltac:(lia)).
  - apply Hend; [|done]. destruct Hw as [? ? ? ? ? ?]. split; [done..| |lia]. by rewrite work_none.
Qed.

(** Nobody leads and the result is there. *)
Lemma result_ready c m k top s :
  waiting_with c m k top s -> leader s = None -> gen <> c -> inevitable tid p s.
Proof.
  intros [Hs Hc Hg _ _ _] Hl Hne. pose proof (sy_proto _ _ _ Hs) as Hp.
  destruct (po_calls _ _ Hp tid _ Hc) as (b & ps & Hb & Hbo & Hi & Hgen & _).
  assert (gen <= doneGen (wal s)) as Hdone.
  { destruct Hgen as [[? _]|[(fl & ? & _)|[? _]]]; [congruence|congruence|done]. }
  apply lookup_lt_Some in Hi.
  destruct (lookup_lt_is_Some_2 (offs b) idx ltac:(rewrite (bo_offs _ _ Hbo); lia)) as [off Ho].
  destruct (lookup_lt_is_Some_2 (errs b) idx ltac:(rewrite (bo_errs _ _ Hbo); lia)) as [err He].
  assert (wmu_free s = true) as Hfree by (unfold wmu_free; by rewrite Hl).
  assert ((doneGen (wal s) <? gen) = false) as Hlt by lia.
  assert (exists s' r, step (LAppendReturn tid) s = Some (s', [EvAppend p r])) as (s' & r & Hst);
    [|by eapply inev_return].
  cbn [step]. unfold append_return. rewrite Hc, Hfree, Hlt, Hb, Ho, He. case_match. by eexists _, _.
Qed.

(** Nobody leads and the call's batch is the current one. *)
Lemma take_lead m top s :
  waiting_with gen m 0 (top - 3 * Z.of_nat m - 2) s -> leader s = None -> top < 2 ^ 64 -> inevitable tid p s.
Proof.
  intros [Hs Hc Hg Hm _ Hn] Hl Ht. pose proof (sy_proto _ _ _ Hs) as Hp.
  pose proof (po_leader _ _ Hp) as Hlo. unfold leader_ok in Hlo. rewrite Hl in Hlo. destruct Hlo as [Hfl Hdone].
  assert (wmu_free s = true) as Hfree by (unfold wmu_free; by rewrite Hl).
  assert ((doneGen (wal s) <? gen) && negb (flushing (wal s)) = true) as Hgo by (rewrite Hfl; apply andb_true_iff; split; [lia|done]).
  assert (forall reuse, exists cb s0, getAppendBatch reuse s = (cb, s0) /\
    step (LLead tid reuse) s = Some (with_leader (Some (mkFlush (cur (wal s)) gen 0 Scan))
      (with_wal (set_gens cb (gen + 1) (doneGen (wal s)) true (wal s)) s0), [])) as Hstep.
  { intros reuse. cbn [step]. unfold flush_start. rewrite Hc, Hfree, Hgo, Hg. destruct (getAppendBatch reuse s) as [cb s0]. eauto. }
  apply inev_lead; [destruct (Hstep None) as (cb & s0 & _ & E); eauto|].
  intros reuse s' ev Hst. destruct (Hstep reuse) as (cb & s0 & Eg & E). rewrite E in Hst. injection Hst as <- <-.
  assert (calls s0 = calls s /\ batches s0 !! cur (wal s) = batches s !! cur (wal s) /\ wal s0 = wal s) as (Ec & Eb & Ewal).
  { unfold getAppendBatch in Eg. destruct (reuse ≫= _) as [[k1 b1]|]; injection Eg as <- <-; [done|]. split_and!; [done| |done].
    apply lookup_insert_ne. intros Hf. destruct (po_cur _ _ Hp) as [b Hb].
    apply (is_fresh (dom (batches s))). rewrite Hf. by apply elem_of_dom. }
  destruct (step_keeps base A (LLead tid reuse) s _ _ Hs ltac:(lia) I E) as [Hs' _ _ _ Hn'].
  apply (leader_ends (gen + 1) (cur_len (with_leader (Some (mkFlush (cur (wal s)) gen 0 Scan))
      (with_wal (set_gens cb (gen + 1) (doneGen (wal s)) true (wal s)) s0))) (3 * m + 2) top).
  - split; [done|cbn; by rewrite Ec|done|done| |cbn in *; lia].
    unfold work. cbn [leader batches with_leader with_wal]. rewrite Eb. unfold cur_len in Hm.
    destruct (batches s !! cur (wal s)) as [b|]; [|lia]. cbn in Hm. case_match; lia.
  - intros s' Hw Hl'. eapply result_ready; [done|done|lia].
Qed.

Lemma waiting_returns m k top s :
  waiting_with (curGen (wal s)) m k (top - 3 * Z.of_nat m - 2) s -> top < 2 ^ 64 -> inevitable tid p s.
Proof.
  intros Hw Ht. eapply leader_ends; [exact Hw|]. intros s' Hw' Hl.
  destruct (decide (gen = curGen (wal s))) as [E|Hne]; [rewrite <-E in Hw'; by eapply take_lead|by eapply result_ready].
Qed.

End live.

End WalLive.
