(* ===== verification/WalTheorems.v ===== *)
(** * What the write-ahead log promises *)

From S2P Require Import Prelude Wal WalFormat WalStore WalRead WalInv WalOps WalActions WalBatch WalSystem WalProto WalRun WalRecover WalHistory WalLive.
From Stdlib Require Import Strings.Byte.

Module WalTheorems.
Import Wal WalFormat WalStore WalRead WalInv WalOps WalActions WalBatch WalSystem WalProto WalRun WalRecover WalHistory WalLive.

(** ** Reachable states *)

(** Opening the log on the directory [d] and running [ls] leads to [s]; [hist]
    is what the callers observed, the recovered records first. *)
Definition reaches (env : openEnv) (dir : string) (o : options) (d : disk) (ls : list label)
    (s : sys) (hist : list event) : Prop :=
  exists w recovered d1 evs,
    Open env dir o d = (inr (w, recovered), d1) /\
    run ls (start w d1) = Some (s, evs) /\
    disciplined [EvRead (inr recovered)] ls (start w d1) /\
    hist = EvRead (inr recovered) :: evs.

(** The circumstances of a session: a system without errors while opening, a
    directory that can be opened, ids that do not run out in [k] steps. *)
Record opening (env : openEnv) (dir : string) (o : options) (n : Z) (d : disk) (k : nat) : Prop := {
  og_quiet : quiet env;
  og_dir : dir <> EmptyString;
  og_openable : openable o n d;
  og_bound : 0 < n /\ n + 2 + Z.of_nat k < 2 ^ 64
}.

Lemma reaches_history env dir o n d ls s hist :
  opening env dir o n d (length ls) -> reaches env dir o d ls s hist ->
  exists base, history base s hist /\ 0 < nextID (wal s) <= n + 1 + Z.of_nat (length ls) /\ opts (wal s) = o.
Proof.
  intros [Hq Hdir Ho [Hn0 Hn]] (w & recovered & d1 & evs & Hop & Hrun & Hd & ->).
  destruct (Open_ok env o n Hq dir d Hdir Ho Hn0 ltac:(lia)) as (w' & rec' & d' & Hop' & Hon).
  rewrite Hop in Hop'. injection Hop' as <- <- <-. pose proof (on_next _ _ _ _ _ _ Hon).
  destruct (history_run _ ls _ s evs _ (opened_history _ _ _ _ _ _ Hon) ltac:(cbn; lia) Hd Hrun) as (Hh & Hn' & Eo & _).
  exists (nextID w - 1). split; [done|]. pose proof (sy_next _ _ _ (hi_sys _ _ _ Hh)). cbn in *.
  split; [lia|]. rewrite Eo. apply (on_control _ _ _ _ _ _ Hon).
Qed.

(** ** Opening again *)

(** A directory that lost nothing but file contents can be opened again. *)
Lemma crash_openable o n d d' : names_ok o n d -> crash d d' -> openable o n d'.
Proof.
  intros [Hdir Hfiles] [Ed Hf]. split; [right; by rewrite Ed|]. intros name f' sid Hf' Hs.
  specialize (Hf name). rewrite Hf' in Hf. inversion Hf as [f ? (Hreg & Hperm & _) Ef|]; subst.
  rewrite Hreg, Hperm. by apply (Hfiles name f).
Qed.

Lemma crash_refl d : crash d d.
Proof.
  split; [done|]. intros name. destruct (d_files d !! name) as [f|]; constructor.
  split_and!; [done..|]. apply prefix_take.
Qed.

(** A record whose bytes are left at the head of its file is recovered. *)
Lemma scan_prefix ps i p data :
  Forall valid ps -> ps !! i = Some p -> prefix (encs (take (S i) ps)) data ->
  mkRaw (pos_of ps i) p ∈ (scan data).1.
Proof.
  intros Hv Hp [t ->]. destruct (scan_encs (take (S i) ps) t (Forall_take _ _ _ Hv)) as [qs ->]. cbn.
  apply elem_of_layout. exists i, p. pose proof (lookup_lt_Some _ _ _ Hp).
  assert (take (S i) ps !! i = Some p) as Hi by (by rewrite lookup_take_lt by lia).
  split; [by apply lookup_app_l_Some|]. f_equal.
  rewrite pos_of_app by (rewrite length_take; lia). unfold pos_of. rewrite take_take. do 3 f_equal. lia.
Qed.

(** After a crash [Open] succeeds and returns every record that a caller was
    told of, that was not acknowledged, and whose bytes survived. *)
Lemma recovered_after base s hist env dir o d' :
  history base s hist -> opts (wal s) = o -> 0 < nextID (wal s) -> nextID (wal s) + 1 < 2 ^ 64 ->
  quiet env -> dir <> EmptyString -> crash (dsk s) d' ->
  exists w rec d2, Open env dir o d' = (inr (w, rec), d2) /\
    forall off p, told hist off p -> ~ acked_in hist off ->
      (forall x ps i f', x ∈ live (wal s) -> id x = SegmentID off -> seg_ok (dsk s) x ps -> ps !! i = Some p ->
         Position off = pos_of ps i -> d_files d' !! path x = Some f' -> prefix (encs (take (S i) ps)) (f_data f')) ->
      mkRecord off p ∈ rec.
Proof.
  intros Hh <- Hn0 Hn Hq Hdir Hcr. pose proof (sy_store _ _ _ (hi_sys _ _ _ Hh)) as Hst.
  pose proof (crash_openable _ _ _ _ (st_names _ _ _ Hst) Hcr) as Hop.
  destruct (Open_ok env _ _ Hq dir d' Hdir Hop Hn0 Hn) as (w & rec & d2 & HO & Hon).
  exists w, rec, d2. split; [done|]. intros off p Ht Hna Hpre.
  destruct (told_on_disk _ _ _ _ _ Hh Ht Hna) as (x & Hx & Ei & Hr).
  destruct (core_file _ _ _ x (st_core _ _ _ Hst) Hx) as (ps & f & Hok & Hf & _).
  rewrite (seg_ok_records _ _ _ Hok) in Hr. apply elem_of_layout in Hr as (i & q & Hi & [= Epos <-]).
  destruct Hcr as [_ Hcf]. specialize (Hcf (path x)). rewrite Hf in Hcf.
  destruct (d_files d' !! path x) as [f'|] eqn:Ef'; [|by inversion Hcf].
  destruct (core_path _ _ _ x (st_core _ _ _ Hst) Hx) as [Ep Hid].
  replace (mkRecord off p) with (to_record (id x) (mkRaw (pos_of ps i) p))
    by (unfold to_record; cbn; rewrite <-Epos, Ei; by destruct off).
  apply (on_found _ _ _ _ _ _ Hon (path x) f').
  - done.
  - rewrite Ep. by apply segment_of_name_ok.
  - apply scan_prefix; [apply (so_valid _ _ _ Hok)|done|]. by eapply Hpre.
Qed.

(** ** Runs in two parts *)

Lemma run_app ls1 ls2 s :
  run (ls1 ++ ls2) s =
  match run ls1 s with
  | Some (s1, evs1) => match run ls2 s1 with Some (s2, evs2) => Some (s2, evs1 ++ evs2) | None => None end
  | None => None
  end.
Proof.
  revert s. induction ls1 as [|l ls1 IH]; intros s; cbn [app run]; [by destruct (run ls2 s) as [[]|]|].
  destruct (step l s) as [[s1 ev]|]; [|done]. rewrite IH.
  destruct (run ls1 s1) as [[s2 evs2]|]; [|done]. destruct (run ls2 s2) as [[]|]; [|done]. by rewrite app_assoc.
Qed.

Lemma disciplined_app hist ls1 ls2 s s1 evs1 :
  run ls1 s = Some (s1, evs1) -> disciplined hist (ls1 ++ ls2) s <->
  disciplined hist ls1 s /\ disciplined (hist ++ evs1) ls2 s1.
Proof.
  revert s hist evs1. induction ls1 as [|l ls1 IH]; intros s hist evs1 Hrun; cbn in *.
  { injection Hrun as <- <-. rewrite app_nil_r. by split; [intros H; split|intros [_ H]]. }
  destruct (step l s) as [[s2 ev]|]; [|done]. destruct (run ls1 s2) as [[s3 evs3]|] eqn:Hr; [|done].
  injection Hrun as <- <-. rewrite (IH s2 (hist ++ ev) evs3 Hr), <-app_assoc.
  by split; [intros (? & ? & ?)|intros [[? ?] ?]].
Qed.

Lemma reaches_app env dir o d ls1 ls2 s hist :
  reaches env dir o d (ls1 ++ ls2) s hist ->
  exists s1 hist1 evs, reaches env dir o d ls1 s1 hist1 /\ run ls2 s1 = Some (s, evs) /\
    disciplined hist1 ls2 s1 /\ hist = hist1 ++ evs.
Proof.
  intros (w & recovered & d1 & evs & Hop & Hrun & Hd & ->). rewrite run_app in Hrun.
  destruct (run ls1 (start w d1)) as [[s1 evs1]|] eqn:H1; [|done].
  destruct (run ls2 s1) as [[s2 evs2]|] eqn:H2; [|done]. injection Hrun as <- <-.
  apply (disciplined_app _ _ _ _ _ _ H1) in Hd as [Hd1 Hd2].
  eexists s1, _, evs2. split_and!; [|done|exact Hd2|done]. by exists w, recovered, d1, evs1.
Qed.

Lemma reaches_extend env dir o d ls1 ls2 s1 hist1 s2 evs :
  reaches env dir o d ls1 s1 hist1 -> disciplined hist1 ls2 s1 -> run ls2 s1 = Some (s2, evs) ->
  reaches env dir o d (ls1 ++ ls2) s2 (hist1 ++ evs).
Proof.
  intros (w & r & d1 & evs1 & Ho & Hr & Hd & ->) Hd2 Hr2. exists w, r, d1, (evs1 ++ evs). split_and!; [done| | |done].
  - by rewrite run_app, Hr, Hr2.
  - by apply (disciplined_app _ _ _ _ _ _ Hr).
Qed.

(** One step more. *)
Lemma reaches_snoc env dir o d ls s hist l s' ev :
  reaches env dir o d ls s hist -> ack_told hist l -> step l s = Some (s', ev) ->
  reaches env dir o d (ls ++ [l]) s' (hist ++ ev).
Proof.
  intros Hr Hl Hs. eapply reaches_extend; [done| |]; cbn; rewrite Hs; [done|]. by rewrite app_nil_r.
Qed.

Lemma reaches_det env dir o d ls s hist s' hist' :
  reaches env dir o d ls s hist -> reaches env dir o d ls s' hist' -> s' = s /\ hist' = hist.
Proof.
  intros (w & r & d1 & evs & Ho & Hr & _ & ->) (w' & r' & d1' & evs' & Ho' & Hr' & _ & ->).
  rewrite Ho in Ho'. injection Ho' as <- <- <-. rewrite Hr in Hr'. by injection Hr' as <- <-.
Qed.

Lemma reaches_split env dir o d ls1 ls2 s1 hist1 s hist :
  reaches env dir o d ls1 s1 hist1 -> reaches env dir o d (ls1 ++ ls2) s hist ->
  exists evs, run ls2 s1 = Some (s, evs) /\ disciplined hist1 ls2 s1 /\ hist = hist1 ++ evs.
Proof.
  intros H1 (s1' & hist1' & evs & H1' & Hr)%reaches_app.
  destruct (reaches_det _ _ _ _ _ _ _ _ _ H1 H1') as [-> ->]. by exists evs.
Qed.

Lemma opening_le env dir o n d k k' : opening env dir o n d k' -> (k <= k')%nat -> opening env dir o n d k.
Proof. intros [] Hk. split; [done..|]. lia. Qed.

(** ** The format *)

(** The batch [Append] builds for the payloads [ps]. *)
Definition batch_of (ps : list bytes) : appendBatch :=
  fold_left (fun b p => (batch_add p (ChecksumIEEE p) b).1) ps new_batch.

Lemma batch_of_ok ps : Forall valid ps -> batch_ok (batch_of ps) ps.
Proof.
  induction ps as [|p ps IH] using rev_ind; [intros _; apply new_batch_ok|].
  intros [Hps Hp]%Forall_app. unfold batch_of. rewrite fold_left_app. cbn [fold_left].
  pose proof (batch_add_ok (batch_of ps) ps p (IH Hps) ltac:(by inversion Hp)) as H. unfold batch_of in *.
  destruct (batch_add p _ _) as [b idx]. apply H.
Qed.

(** torn writes are cut off exactly.  Of a batch of any payloads that
    [Append] accepts, let any number [n] of bytes reach a file: reading the
    segment returns the longest prefix of the records that are there in full,
    each with its payload and its position in the batch, and the length to
    which the file is to be cut. *)
Theorem torn_batch_read_back ps n :
  Forall valid ps ->
  let b := batch_of ps in
  exists k, (k <= length ps)%nat /\
    scan (take n (buf b)) = ((fun '(i, p) => mkRaw (batch_start b i) p) <$> zip (seq 0 k) (take k ps), batch_start b k) /\
    batch_start b k <= Z.of_nat n /\ ((k < length ps)%nat -> Z.of_nat n < batch_start b (S k)).
Proof.
  intros Hps b. pose proof (batch_of_ok ps Hps) as Hb. fold b in Hb.
  destruct (scan_take ps n Hps) as (k & Hk & Hs & Hle & Hlt). exists k. split; [done|].
  rewrite (bo_buf _ _ Hb), Hs, (batch_start_ok b ps k Hb Hk). split_and!.
  - f_equal. apply list_eq. intros i. rewrite layout_lookup, list_lookup_fmap, lookup_zip_with, Z.add_0_l.
    destruct (decide (i < k)%nat) as [Hi|Hi].
    + rewrite lookup_take_lt, lookup_seq_lt, take_take by lia. replace (i `min` k)%nat with i by lia.
      destruct (ps !! i) as [p|] eqn:Ep; [|done]. cbn. by rewrite (batch_start_ok b ps i Hb) by lia.
    + rewrite lookup_take_ge, lookup_seq_ge by lia. done.
  - unfold pos_of, zlen. lia.
  - intros H. rewrite (batch_start_ok b ps (S k) Hb) by lia. unfold pos_of, zlen. specialize (Hlt H). lia.
Qed.

Lemma torn_batch_read_back_witness : exists k,
  scan (take 15 (buf (batch_of [[x61; x62]; [x63]]))) =
    ((fun '(i, p) => mkRaw (batch_start (batch_of [[x61; x62]; [x63]]) i) p) <$> zip (seq 0 k) (take k [[x61; x62]; [x63]]),
     batch_start (batch_of [[x61; x62]; [x63]]) k).
Proof.
  destruct (torn_batch_read_back [[x61; x62]; [x63]] 15) as (k & _ & E & _); [|by exists k].
  by repeat constructor.
Defined.

(** ** Durability *)

(** What this session appended is durable once [Sync] has synced the file of
    the active segment. *)
Lemma sync_durable base s hist serr d p off :
  history base s hist -> has_file (wal s) = true -> Sync serr (wal s) (dsk s) = (None, d) ->
  EvAppend p (inr off) ∈ hist -> durable (live (wal s)) d off p.
Proof.
  intros Hh Hfile Hsync He. pose proof (hi_sys _ _ _ Hh) as Hs. pose proof (sy_store _ _ _ Hs) as Hst.
  pose proof (hi_appended _ _ _ Hh p off He) as Hbase.
  assert (told hist off p) as Ht by (by exists (EvAppend p (inr off))).
  pose proof (rc_live _ _ _ _ _ _ (hi_told _ _ _ Hh off p Ht)) as Hrec.
  pose proof (op_session _ _ _ _ _ _ (sync_ok (acked_as hist) _ serr _ _ Hst) _ (sy_session _ _ _ Hs)) as Hse.
  rewrite Hsync in Hse. cbn [snd] in Hse. intros x f Hx Ei Hf.
  destruct (core_file _ _ _ x (st_core _ _ _ Hst) Hx) as (ps & f0 & Hok & Hf0 & _).
  specialize (Hrec x Hx Ei). rewrite (seg_ok_records _ _ _ Hok) in Hrec.
  apply elem_of_layout in Hrec as (i & q & Hi & [= -> <-]). rewrite <-(pos_of_S _ _ _ Hi).
  assert (pos_of ps (S i) <= size x) as Hle.
  { rewrite (so_size _ _ _ Hok), <-(pos_of_all ps (length ps)) by done. apply pos_of_le.
    apply lookup_lt_Some in Hi. lia. }
  enough (size x <= f_durable f) by lia.
  unfold Sync in Hsync. unfold has_file in Hfile.
  destruct (active (wal s)) as [[ia pa [h|] sz rc un ac pp]|] eqn:Ha; [|done..].
  destruct (if h_closed h then Some os_ErrClosed else serr); [done|]. injection Hsync as <-.
  unfold live in Hx. rewrite Ha in Hx. apply elem_of_app in Hx as [Hx|Hx].
  - apply (se_sealed _ _ _ Hse x f Hx); [lia|done].
  - apply list_elem_of_singleton in Hx as ->. cbn in Hf, Hf0. rewrite lookup_alter_eq, Hf0 in Hf. injection Hf as <-.
    cbn [f_durable]. destruct (so_file _ _ _ Hok) as (f1 & Hf1 & [t E]). cbn in Hf1. rewrite Hf0 in Hf1. injection Hf1 as <-.
    rewrite (so_size _ _ _ Hok), E, zlen_app. pose proof (zlen_nonneg t). lia.
Qed.

(** The bytes of a durable record survive a crash. *)
Lemma durable_prefix d x ps i p f f' :
  seg_ok d x ps -> ps !! i = Some p -> d_files d !! path x = Some f -> crash_file f f' ->
  pos_of ps i + zlen (enc p) <= f_durable f -> prefix (encs (take (S i) ps)) (f_data f').
Proof.
  intros Hok Hi Hf (_ & _ & Hp) Hle. etrans; [|exact Hp].
  destruct (so_file _ _ _ Hok) as (f1 & Hf1 & [t E]). rewrite Hf in Hf1. injection Hf1 as <-.
  rewrite <-(take_drop (S i) ps) in E. rewrite encs_app in E. rewrite <-(pos_of_S _ _ _ Hi) in Hle. unfold pos_of, zlen in Hle.
  rewrite E, <-app_assoc, take_app_ge by lia. apply prefix_app_r. done.
Qed.


(** ** What is pending *)

Definition offset_lt (a b : Offset) : Prop :=
  SegmentID a < SegmentID b \/ (SegmentID a = SegmentID b /\ Position a < Position b).

Definition ack_of (e : event) : option Offset := match e with EvAck off => Some off | _ => None end.

Lemma acked_in_offsets hist off : acked_in hist off <-> off ∈ omap ack_of hist.
Proof.
  rewrite list_elem_of_omap. split; [intros H; by exists (EvAck off)|].
  intros (e & He & Ha). destruct e; try done. by injection Ha as <-.
Qed.

#[export] Instance acked_in_dec hist off : Decision (acked_in hist off).
Proof. refine (cast_if (decide (off ∈ omap ack_of hist))); by rewrite acked_in_offsets. Defined.

(** The records in the files of the log that no caller has acknowledged. *)
Definition pending_records (hist : list event) (s : sys) : list WRecord :=
  filter (fun r => ~ acked_in hist (r_Offset r)) (all_records (dsk s) (live (wal s))).

Lemma elem_of_records d l r :
  r ∈ all_records d l <-> exists x q, x ∈ l /\ q ∈ seg_records d x /\ r = to_record (id x) q.
Proof.
  unfold all_records. rewrite list_elem_of_In, in_concat. split.
  - intros (k & Hk & Hr). apply list_elem_of_In in Hk, Hr. apply list_elem_of_fmap in Hk as (x & -> & Hx).
    apply list_elem_of_fmap in Hr as (q & -> & Hq). by exists x, q.
  - intros (x & q & Hx & Hq & ->). exists (to_record (id x) <$> seg_records d x). rewrite <-!list_elem_of_In.
    split; [|by apply list_elem_of_fmap_2].
    by apply (list_elem_of_fmap_2 (fun s => to_record (id s) <$> seg_records d s)).
Qed.

(** Records in ascending order of their offsets. *)
Definition record_lt (a b : WRecord) : Prop := offset_lt (r_Offset a) (r_Offset b).

Lemma layout_sorted pos ps :
  Forall valid ps ->
  StronglySorted (fun a b => position a < position b) (layout pos ps) /\ Forall (fun r => pos <= position r) (layout pos ps).
Proof.
  intros Hv. revert pos. induction Hv as [|p ps Hp _ IH]; intros pos; cbn [layout]; [split; constructor|].
  pose proof (zlen_enc p). unfold valid, recordHeaderSize in *. destruct (IH (pos + zlen (enc p))) as [Hs Hf].
  rewrite list.Forall_forall in Hf. split.
  - constructor; [done|]. apply list.Forall_forall. intros r Hr. specialize (Hf r Hr). cbn [position]. lia.
  - constructor; [done|]. apply list.Forall_forall. intros r Hr. specialize (Hf r Hr). lia.
Qed.

Lemma all_records_sorted n l d : core n l d -> StronglySorted record_lt (all_records d l).
Proof.
  intros [Hs _ Hok _]. induction l as [|x l IH]; [constructor|].
  inversion Hs as [|? ? Hs' Hlt]. inversion Hok as [|? ? [ps Hx] Hok']. subst. rewrite list.Forall_forall in Hlt.
  change (all_records d (x :: l)) with ((to_record (id x) <$> seg_records d x) ++ all_records d l).
  apply StronglySorted_app. split_and!; [| |by apply IH].
  - intros a b Ha Hb. apply list_elem_of_fmap in Ha as (q & -> & _).
    apply elem_of_records in Hb as (y & q' & Hy & _ & ->). left. cbn. by apply Hlt, list_elem_of_fmap_2.
  - rewrite (seg_ok_records _ _ _ Hx). destruct (layout_sorted 0 ps (so_valid _ _ _ Hx)) as [Hl _].
    induction Hl as [|r k _ IHk Hr]; cbn; constructor; [done|]. apply list.Forall_fmap.
    eapply Forall_impl; [exact Hr|]. intros y Hy. by right.
Qed.

(** Of an open log, the positions a segment has seen acknowledged are those
    its callers acknowledged. *)
Lemma consumed_acked base s hist x r :
  history base s hist -> closed (wal s) = false -> x ∈ live (wal s) -> r ∈ seg_records (dsk s) x ->
  consumed x (position r) <-> acked_in hist (mkOffset (id x) (position r)).
Proof.
  intros Hh Hcl Hx Hr. pose proof (hi_sys _ _ _ Hh) as Hs. split; [by apply (sy_acks _ _ _ Hs)|]. intros Ha.
  destruct (hi_acked _ _ _ Hh _ Ha) as [_ H]; [|by apply (H Hcl)].
  pose proof (co_ids _ _ _ (st_core _ _ _ (sy_store _ _ _ Hs))) as HF. rewrite list.Forall_forall in HF.
  specialize (HF x Hx). unfold IsZero. cbn. apply andb_false_intro1. lia.
Qed.

Lemma pending_all_records base s hist skip :
  history base s hist -> closed (wal s) = false ->
  pending_all skip (dsk s) (live (wal s)) = filter (fun r => skipped skip (r_Offset r) = false) (pending_records hist s).
Proof.
  intros Hh Hcl. unfold pending_records, pending_all, all_records. rewrite list_filter_filter.
  pose proof (fun x r => consumed_acked base s hist x r Hh Hcl) as Hc. revert Hc.
  generalize (live (wal s)). intros l Hc. induction l as [|x l IH]; [done|]. cbn. rewrite filter_app. f_equal.
  - unfold pending_from. rewrite filter_fmap. f_equal. apply filter_ext_in.
    intros r Hr. unfold wanted. cbn. rewrite (Hc x r) by (done || by left). tauto.
  - apply IH. intros y r Hy. apply Hc. by right.
Qed.

Lemma told_pending base s hist off p :
  history base s hist -> told hist off p -> ~ acked_in hist off -> mkRecord off p ∈ pending_records hist s.
Proof.
  intros Hh Ht Hna. destruct (told_on_disk _ _ _ _ _ Hh Ht Hna) as (x & Hx & Ei & Hr).
  apply list_elem_of_filter. split; [done|]. apply elem_of_records. exists x, (mkRaw (Position off) p).
  split_and!; [done..|]. unfold to_record. cbn. rewrite Ei. by destruct off.
Qed.

(** What [ReadPending] returns when it returns no error. *)
Lemma read_result base s hist env limit skip out :
  history base s hist -> fst (ReadPending env limit skip (wal s) (dsk s)) = inr out ->
  closed (wal s) = false /\ out = take (Z.to_nat limit) (filter (fun r => skipped skip (r_Offset r) = false) (pending_records hist s)).
Proof.
  intros Hh. pose proof (ReadPending_ok (acked_as hist) env limit skip (dsk s) _ _ (sy_store _ _ _ (hi_sys _ _ _ Hh))) as H.
  destruct (ReadPending env limit skip (wal s) (dsk s)) as [r w']. cbn. intros ->. destruct H as (_ & _ & _ & _ & Hcl & ->).
  split; [done|]. by rewrite (pending_all_records base s hist).
Qed.

Lemma offsets_distinct rs : StronglySorted record_lt rs -> NoDup (r_Offset <$> rs).
Proof.
  induction 1 as [|r rs _ IH Hr]; [constructor|]. cbn. constructor; [|done].
  intros (r' & E & Hr')%list_elem_of_fmap. rewrite list.Forall_forall in Hr. specialize (Hr r' Hr').
  unfold record_lt, offset_lt in Hr. rewrite E in Hr. lia.
Qed.

Lemma pending_sorted base s hist skip :
  history base s hist -> StronglySorted record_lt (filter (fun r => skipped skip (r_Offset r) = false) (pending_records hist s)).
Proof.
  intros Hh. apply StronglySorted_filter_list, StronglySorted_filter_list.
  eapply all_records_sorted, (st_core _ _ _ (sy_store _ _ _ (hi_sys _ _ _ Hh))).
Qed.

(** C33: reading returns exactly what is pending.  After any run of the
    operations of a log that is still open, and when the system reads without
    errors, [ReadPending] returns the first [limit] of the records in its files
    that no caller acknowledged and [skip] does not reject; they are in
    ascending order of their offsets, and every record a caller was ever told
    of is among them until it is acknowledged. *)
Theorem read_pending_exact env dir o n d ls s hist renv limit skip :
  opening env dir o n d (length ls) -> reaches env dir o d ls s hist -> closed (wal s) = false -> ~ read_fault renv ->
  let pending := filter (fun r => skipped skip (r_Offset r) = false) (pending_records hist s) in
  fst (ReadPending renv limit skip (wal s) (dsk s)) = inr (take (Z.to_nat limit) pending) /\
  StronglySorted record_lt pending /\
  (forall off p, told hist off p -> ~ acked_in hist off -> skipped skip off = false -> mkRecord off p ∈ pending).
Proof.
  intros Hog Hr Hcl Hf pending. destruct (reaches_history _ _ _ _ _ _ _ _ Hog Hr) as (base & Hh & _).
  pose proof (sy_store _ _ _ (hi_sys _ _ _ Hh)) as Hst. split_and!.
  - pose proof (ReadPending_ok (acked_as hist) renv limit skip (dsk s) _ _ Hst) as H.
    destruct (ReadPending renv limit skip (wal s) (dsk s)) as [[e|out] w']; destruct H as (_ & _ & _ & _ & H).
    + destruct H as [[? _]|?]; [congruence|done].
    + destruct H as [_ ->]. cbn. by rewrite (pending_all_records base s hist).
  - by eapply pending_sorted.
  - intros off p Ht Hna Hsk. apply list_elem_of_filter. split; [done|]. by eapply told_pending.
Qed.

(** What is on disk when the process stops is found again. *)
Lemma reopen_told env dir o n d ls s hist env' :
  opening env dir o n d (length ls) -> reaches env dir o d ls s hist -> quiet env' ->
  exists w recovered d2, Open env' dir o (dsk s) = (inr (w, recovered), d2) /\
    (forall off p, told hist off p -> ~ acked_in hist off -> mkRecord off p ∈ recovered).
Proof.
  intros Hog Hr Hq. destruct (reaches_history _ _ _ _ _ _ _ _ Hog Hr) as (base & Hh & Hn & Eo).
  destruct Hog as [_ Hdir _ [Hn0 Hnb]].
  destruct (recovered_after _ _ _ env' dir o (dsk s) Hh Eo ltac:(lia) ltac:(lia) Hq Hdir (crash_refl _)) as (w & rec & d2 & HO & Hrec).
  exists w, rec, d2. split; [done|].
  intros off p Ht Hna. apply Hrec; [done|done|]. intros x ps i f' _ _ Hok Hi _ Hf'.
  destruct (so_file _ _ _ Hok) as (f & Hf & Hp). rewrite Hf in Hf'. injection Hf' as <-.
  etrans; [|exact Hp]. rewrite <-(take_drop (S i) ps) at 2. rewrite encs_app. by apply prefix_app_r.
Qed.

(** C8: nothing is lost when the process dies.  Stop a run at any point, also
    between two writes, keeping the files as they are: [Open] succeeds on them
    and returns the records in ascending order of their offsets, each once, all
    those among them that a caller had been told of, by [Append], [ReadPending]
    or an earlier [Open], and that nobody acknowledged. *)
Theorem restart_recovers env dir o n d ls s hist env' :
  opening env dir o n d (length ls) -> reaches env dir o d ls s hist -> quiet env' ->
  exists w recovered d2, Open env' dir o (dsk s) = (inr (w, recovered), d2) /\
    StronglySorted record_lt recovered /\
    (forall off p, told hist off p -> ~ acked_in hist off -> mkRecord off p ∈ recovered).
Proof.
  intros Hog Hr Hq. destruct (reopen_told _ _ _ _ _ _ _ _ env' Hog Hr Hq) as (w & rec & d2 & HO & Hrec).
  exists w, rec, d2. split_and!; [done| |done].
  destruct (reaches_history _ _ _ _ _ _ _ _ Hog Hr) as (base & Hh & Hn & Eo). destruct Hog as [_ Hdir _ [Hn0 Hnb]].
  pose proof (names_openable _ _ _ (st_names _ _ _ (sy_store _ _ _ (hi_sys _ _ _ Hh)))) as Hop. rewrite Eo in Hop.
  destruct (Open_ok env' o _ Hq dir (dsk s) Hdir Hop ltac:(lia) ltac:(lia)) as (w' & rec' & d' & HO' & Hon).
  rewrite HO in HO'. injection HO' as <- <- <-. rewrite (on_recovered _ _ _ _ _ _ Hon).
  eapply all_records_sorted, (st_core _ _ _ (on_store _ _ _ _ _ _ Hon)).
Qed.

(** ** Statistics *)

Lemma total_size_records n l d :
  core n l d -> total_size l = zlen (encs (r_Payload <$> all_records d l)).
Proof.
  intros [_ _ HF _]. induction HF as [|x l [ps Hok] _ IH]; [done|].
  change (all_records d (x :: l)) with ((to_record (id x) <$> seg_records d x) ++ all_records d l).
  change (total_size (x :: l)) with (size x + total_size l).
  rewrite IH, fmap_app, encs_app, zlen_app, (so_size _ _ _ Hok), (seg_ok_records _ _ _ Hok), <-list_fmap_compose.
  change (r_Payload ∘ to_record (id x)) with payload. by rewrite payload_layout.
Qed.

Lemma fold_unacked l z : fold_left (fun n s => n + unacked s) l z = z + foldr (fun s n => unacked s + n) 0 l.
Proof. revert z. induction l as [|s l IH]; intros z; cbn; [lia|]. rewrite IH. lia. Qed.

Lemma unacked_records base s hist :
  history base s hist -> closed (wal s) = false ->
  foldr (fun s n => unacked s + n) 0 (live (wal s)) = zlen (pending_records hist s).
Proof.
  intros Hh Hcl. pose proof (co_segs _ _ _ (st_core _ _ _ (sy_store _ _ _ (hi_sys _ _ _ Hh)))) as HF.
  pose proof (fun x r => consumed_acked base s hist x r Hh Hcl) as Hc. revert HF Hc. unfold pending_records, all_records.
  generalize (live (wal s)). intros l HF Hc. induction HF as [|x l [ps Hok] _ IH]; [done|]. cbn.
  rewrite filter_app, zlen_app, IH by (intros y r Hy; apply Hc; by right). f_equal.
  rewrite (unacked_count _ _ _ Hok), filter_fmap, <-(seg_ok_records _ _ _ Hok). unfold zlen. rewrite length_fmap. do 2 f_equal.
  apply filter_ext_in. intros r Hr. cbn. rewrite (Hc x r) by (done || by left). done.
Qed.

(** the statistics are exact.  After any run of the operations of a log
    that is still open, [Stats] gives the bytes of the records in its files,
    the number of its segments and the number of its records that no caller
    has acknowledged. *)
Theorem stats_exact env dir o n d ls s hist :
  opening env dir o n d (length ls) -> reaches env dir o d ls s hist -> closed (wal s) = false ->
  stats (wal s) =
    mkStats (zlen (encs (r_Payload <$> all_records (dsk s) (live (wal s))))) (zlen (live (wal s)))
      (zlen (pending_records hist s)).
Proof.
  intros Hog Hr Hcl. destruct (reaches_history _ _ _ _ _ _ _ _ Hog Hr) as (base & Hh & _).
  pose proof (sy_store _ _ _ (hi_sys _ _ _ Hh)) as Hst.
  rewrite <-(unacked_records base s hist), <-(total_size_records _ _ _ (st_core _ _ _ Hst)), <-(st_total _ _ _ Hst) by done.
  unfold stats, live. rewrite fold_unacked, foldr_app, Z.add_0_l.
  destruct (active (wal s)) as [a|].
  - change (option_list (Some a)) with [a]. rewrite zlen_app, zlen_cons. f_equal; [change (zlen []) with 0; lia|].
    cbn [foldr]. induction (sealed (wal s)) as [|x l IH]; cbn in *; lia.
  - change (option_list None) with (@nil segmentRef). by rewrite app_nil_r.
Qed.

(** ** Progress *)

(** C32: every [Append] returns.  From any reachable state with an [Append]
    that waits for its group commit there is a schedule of the leader and of
    that call on which it returns, whatever the system calls of the leader
    return on the way: the leader always has a next step, its loop ends after
    boundedly many, and a caller whose batch has no leader becomes the leader. *)
Theorem append_returns env dir o n d ls s hist tid p bi gen idx :
  opening env dir o n d (length ls + work s + 3 * cur_len s + 5) -> reaches env dir o d ls s hist ->
  calls s !! tid = Some (CWait p bi gen idx) -> inevitable tid p s.
Proof.
  intros Hog Hr Hc. destruct (reaches_history _ _ _ _ _ _ _ _ (opening_le _ _ _ _ _ (length ls) _ Hog ltac:(lia)) Hr) as (base & Hh & Hn & _).
  destruct Hog as [_ _ _ [Hn0 Hnb]].
  apply (waiting_returns base (acked_as hist) tid p bi gen idx (cur_len s) (work s) (2 ^ 64 - 1)); [|lia].
  split; [apply (hi_sys _ _ _ Hh)|done|done|done|done|lia].
Qed.

(** ** A log in operation *)

Definition quiet_env : openEnv :=
  mkEnv false None None None (fun _ => None) (fun _ => None) (fun _ => None) (fun _ => None) (fun _ => None) (fun _ => None) None.

Definition no_disk : disk := mkDisk None ∅.

(** One [Append] from its start to its result, alone. *)
Definition append_labels (tid : nat) (p : bytes) : list label :=
  [LAppendStart tid p; LAppendAdd tid; LLead tid (Some 0%nat); LScan None None None true; LWriteDone;
   LScan None None None true; LAppendReturn tid].

Definition hello : bytes := [x68; x65; x6c; x6c; x6f].
Definition hi : bytes := [x68; x69].

Lemma quiet_env_ok : quiet quiet_env.
Proof. by split. Qed.

Lemma no_disk_opening k : Z.of_nat k < 2 ^ 32 -> opening quiet_env "wal" defaultOptions 1 no_disk k.
Proof. intros Hk. split; [apply quiet_env_ok|done| |lia]. split; [by left|]. intros name f sid H. cbn in H. by rewrite lookup_empty in H. Qed.

(** The state and the history of a run on a new directory. *)
Definition session_of (ls : list label) : option (sys * list event) :=
  match Open quiet_env "wal" defaultOptions no_disk with
  | (inr (w, recovered), d) =>
      (fun '(s, evs) => (s, EvRead (inr recovered) :: evs)) <$> run ls (start w d)
  | _ => None
  end.

Lemma disciplined_no_ack hist ls s :
  Forall (fun l => match l with LAck _ _ => False | _ => True end) ls -> disciplined hist ls s.
Proof.
  intros H. revert hist s. induction H as [|l ls Hl _ IH]; intros hist s; [done|]. cbn. split; [by destruct l|].
  destruct (step l s) as [[s1 ev]|]; [apply IH|done].
Qed.

Lemma session_reaches ls s hist :
  session_of ls = Some (s, hist) -> Forall (fun l => match l with LAck _ _ => False | _ => True end) ls ->
  reaches quiet_env "wal" defaultOptions no_disk ls s hist.
Proof.
  unfold session_of, reaches. intros Hs Hl. destruct (Open quiet_env "wal" defaultOptions no_disk) as [[|[w r]] d1]; [done|].
  apply fmap_Some in Hs as ([s0 evs] & Hr & [= -> ->]). exists w, r, d1, evs. split_and!; [done|done| |done].
  by apply disciplined_no_ack.
Qed.

(** A crash that leaves exactly what was synced. *)
Definition power_loss (d : disk) : disk :=
  mkDisk (d_dir d) ((fun f => mkFile (take (Z.to_nat (f_durable f)) (f_data f)) (f_durable f) (f_regular f) (f_perm f)) <$> d_files d).

Lemma power_loss_crash d : crash d (power_loss d).
Proof.
  split; [done|]. intros name. cbn. rewrite lookup_fmap. destruct (d_files d !! name) as [f|]; constructor.
  by split_and!.
Qed.

(** The history of the runs below. *)
Definition first_events : list event := [EvRead (inr []); EvAppend hello (inr (mkOffset 1 0))].

Lemma first_session : exists s, session_of (append_labels 0 hello) = Some (s, first_events) /\
  has_file (wal s) = true /\ closed (wal s) = false.
Proof. eexists. split; [vm_compute; reflexivity|by split]. Qed.

Lemma synced_session : exists s,
  session_of (append_labels 0 hello ++ LSync None :: append_labels 0 hi) =
    Some (s, first_events ++ EvSync None :: [EvAppend hi (inr (mkOffset 1 13))]).
Proof. eexists. vm_compute. reflexivity. Qed.


Lemma restart_recovers_witness : exists s w recovered d2,
  session_of (append_labels 0 hello) = Some (s, first_events) /\
  Open quiet_env "wal" defaultOptions (dsk s) = (inr (w, recovered), d2) /\ mkRecord (mkOffset 1 0) hello ∈ recovered.
Proof.
  destruct first_session as (s & H & _ & _). pose proof H as Hr. apply session_reaches in Hr; [|by repeat constructor].
  destruct (restart_recovers quiet_env "wal" defaultOptions 1 no_disk (append_labels 0 hello) s first_events quiet_env)
    as (w & recovered & d2 & HO & _ & Hrec).
  - by apply no_disk_opening.
  - exact Hr.
  - apply quiet_env_ok.
  - exists s, w, recovered, d2. split_and!; [exact H|exact HO|]. apply Hrec.
    + exists (EvAppend hello (inr (mkOffset 1 0))). split; [constructor 2; constructor 1|by split].
    + rewrite acked_in_offsets. apply not_elem_of_nil.
Defined.

(** Two records, the first one acknowledged. *)
Definition acked_labels : list label := append_labels 0 hello ++ LAck (mkOffset 1 0) true :: append_labels 0 hi.
Definition acked_events : list event := [EvAck (mkOffset 1 0); EvAppend hi (inr (mkOffset 1 13))].

Lemma acked_session : exists s,
  reaches quiet_env "wal" defaultOptions no_disk acked_labels s (first_events ++ acked_events) /\
  closed (wal s) = false /\ pending_records (first_events ++ acked_events) s = [mkRecord (mkOffset 1 13) hi] /\
  zlen (encs (r_Payload <$> all_records (dsk s) (live (wal s)))) = 23 /\ zlen (live (wal s)) = 1.
Proof.
  assert (exists s1 s2, session_of (append_labels 0 hello) = Some (s1, first_events) /\
    run (LAck (mkOffset 1 0) true :: append_labels 0 hi) s1 = Some (s2, acked_events) /\
    closed (wal s2) = false /\ pending_records (first_events ++ acked_events) s2 = [mkRecord (mkOffset 1 13) hi] /\
    zlen (encs (r_Payload <$> all_records (dsk s2) (live (wal s2)))) = 23 /\ zlen (live (wal s2)) = 1)
    as (s1 & s2 & H1 & H2 & H3) by (eexists _, _; do 5 (split; [vm_compute; reflexivity|]); vm_compute; reflexivity).
  exists s2. split; [|exact H3]. eapply reaches_extend; [|split|exact H2].
  - apply session_reaches; [exact H1|by repeat constructor].
  - right. exists hello, (EvAppend hello (inr (mkOffset 1 0))). split; [constructor 2; constructor 1|by split].
  - destruct (step _ s1) as [[s3 ev]|]; [|done]. apply disciplined_no_ack. by repeat constructor.
Qed.

Lemma read_pending_exact_witness : exists s,
  fst (ReadPending (mkReadEnv (fun _ => None) (fun _ _ => None)) 10 None (wal s) (dsk s)) = inr [mkRecord (mkOffset 1 13) hi].
Proof.
  destruct acked_session as (s & Hr & Hc & Hp & _). exists s.
  destruct (read_pending_exact quiet_env "wal" defaultOptions 1 no_disk acked_labels s (first_events ++ acked_events)
    (mkReadEnv (fun _ => None) (fun _ _ => None)) 10 None) as (E & _ & _); [by apply no_disk_opening|exact Hr|exact Hc| |].
  - by intros [(? & ? & ?)|(? & ? & ? & ?)].
  - rewrite E, Hp. reflexivity.
Defined.

Lemma stats_exact_witness : exists s, stats (wal s) = mkStats 23 1 1.
Proof.
  destruct acked_session as (s & Hr & Hc & Hp & Hb & Hl). exists s.
  rewrite (stats_exact quiet_env "wal" defaultOptions 1 no_disk acked_labels s (first_events ++ acked_events));
    [|by apply no_disk_opening|exact Hr|exact Hc].
  rewrite Hp, Hb, Hl. reflexivity.
Defined.

Lemma append_returns_witness : exists s, inevitable 0 hello s.
Proof.
  assert (exists s, session_of [LAppendStart 0 hello; LAppendAdd 0] = Some (s, [EvRead (inr [])]) /\
    calls s !! 0%nat = Some (CWait hello 0 1 0) /\ (work s, cur_len s) = (0%nat, 1%nat)) as (s & H & Hc & [= Hw Hl])
    by (eexists; do 2 (split; [vm_compute; reflexivity|]); vm_compute; reflexivity).
  exists s. apply (append_returns quiet_env "wal" defaultOptions 1 no_disk [LAppendStart 0 hello; LAppendAdd 0] s [EvRead (inr [])] 0 hello 0 1 0).
  - rewrite Hw, Hl. by apply no_disk_opening.
  - apply session_reaches; [exact H|by repeat constructor].
  - done.
Defined.

(** ** Behaviour under failing system calls *)

Definition io_error : error := ErrNew "input/output error".

(** A write that fails half-way and cannot be rolled back retires the file of
    the active segment, and [Sync] then reports success although a record
    whose [Append] had returned was never synced: a crash loses it. *)
Example sync_without_file : exists s w d2,
  session_of (append_labels 0 hello ++
    [LAppendStart 1 hi; LAppendAdd 1; LLead 1 None; LScan None None None true; LWriteSome 3;
     LWriteFail io_error (Some io_error) None; LScan None None None true; LAppendReturn 1; LSync None]) =
    Some (s, first_events ++
      [EvAppend hi (inl (Errors.Wrapf io_error
         "wal: write record (truncate rollback failed: input/output error)")); EvSync None]) /\
  has_file (wal s) = false /\
  Open quiet_env "wal" defaultOptions (power_loss (dsk s)) = (inr (w, []), d2).
Proof. eexists _, _, _. do 2 (split; [vm_compute; reflexivity|]). vm_compute. reflexivity. Qed.

(** A read error while opening counts as the end of the segment: the records
    behind it are cut off, and are gone when the log is opened again. *)
Example read_error_truncates : exists s w1 d1 w2 d2,
  session_of (append_labels 0 hello ++ append_labels 0 hi) =
    Some (s, first_events ++ [EvAppend hi (inr (mkOffset 1 13))]) /\
  Open (mkEnv false None None None (fun _ => None) (fun _ => None) (fun _ => Some 20) (fun _ => None) (fun _ => None)
    (fun _ => None) None) "wal" defaultOptions (dsk s) = (inr (w1, [mkRecord (mkOffset 1 0) hello]), d1) /\
  Open quiet_env "wal" defaultOptions d1 = (inr (w2, [mkRecord (mkOffset 1 0) hello]), d2).
Proof. eexists _, _, _, _, _. do 2 (split; [vm_compute; reflexivity|]). vm_compute. reflexivity. Qed.

(** When the next segment cannot be opened once, the log stays without an
    active segment: an [Append] made later, when the system works again,
    reports a closed log. *)
Example roll_failure_is_final : exists w r d s,
  Open quiet_env "wal" (mkOptions false 16 0) no_disk = (inr (w, r), d) /\
  run (append_labels 0 hello ++
       [LAppendStart 1 hi; LAppendAdd 1; LLead 1 None; LScan None None (Some io_error) true; LAppendReturn 1;
        LAppendStart 2 hi; LAppendAdd 2]) (start w d) =
    Some (s, [EvAppend hello (inr (mkOffset 1 0)); EvAppend hi (inl (Errors.Wrapf io_error "wal: open active"));
              EvAppend hi (inl ErrClosed)]) /\
  closed (wal s) = false.
Proof. eexists _, _, _, _. do 2 (split; [vm_compute; reflexivity|]). vm_compute. reflexivity. Qed.

End WalTheorems.
