(* ===== verification/Dispatch.v ===== *)
(** * The dispatcher: service/dispatch

    [Engine] accepts items from any number of producers and hands them in
    batches to a sink.  Without a log the items wait in a channel; with a log
    (the write-ahead log of core/io/wal, WalSystem) they are appended to it and
    the workers claim what is pending there.  A transition is a section the
    code runs under one lock, or an operation on a channel or an atomic value;
    the steps of the log's own calls and goroutines interleave with those of the
    engine.  The results of the sink and of the system calls, and when a timer
    fires, are inputs; the metrics and the logger are left out. *)

From S2P Require Import Prelude Wal WalSystem.
From Stdlib Require Import Strings.Byte.

Module Dispatch.
Import Wal.
Import WalSystem (sys).

Definition ErrEngineClosed : error := ErrNew "dispatch: engine closed".
Definition ErrAlreadyStarted : error := ErrNew "dispatch: already started".
Definition ErrCodecRequired : error := ErrNew "dispatch: codec required when WAL enabled".
Definition ErrSinkRequired : error := ErrNew "dispatch: sink required".
Definition ErrQueueFull : error := ErrNew "dispatch: queue full".
Definition ErrBacklog : error := ErrNew "dispatch: undelivered backlog".
Definition ErrReplayDecode : error := ErrNew "dispatch: replay decode failed".

(** ** Options *)

Definition DefaultBufferSize : Z := 10000.
Definition DefaultBatchSize : Z := 100.
Definition DefaultWorkers : Z := 2.
Definition DefaultRetryAttempts : Z := 3.

(** The options that decide what the engine does, apart from the waiting times,
    the handlers and the observers; [codec] says whether one is set. *)
Record options := mkOptions {
  bufferSize : Z;
  batchSize : Z;
  workers : Z;
  retryAttempts : Z;
  backPressure : bool;
  walEnabled : bool;
  walDir : string;
  walOpts : Wal.options;
  codec : bool
}.

Definition defaultOptions : options :=
  mkOptions DefaultBufferSize DefaultBatchSize DefaultWorkers DefaultRetryAttempts false
    false EmptyString Wal.defaultOptions false.

Inductive Option :=
| WithBufferSize (v : Z)
| WithBatchSize (v : Z)
| WithWorkers (v : Z)
| WithRetryAttempts (v : Z)
| WithBackPressure
| WithWAL (dir : string) (hasCodec : bool) (walOpts : Wal.options).

Definition apply_option (op : Option) (o : options) : options :=
  let '(mkOptions buf bat wor ret bp wal dir wo co) := o in
  match op with
  | WithBufferSize v => if v <=? 0 then o else mkOptions v bat wor ret bp wal dir wo co
  | WithBatchSize v => if v <=? 0 then o else mkOptions buf v wor ret bp wal dir wo co
  | WithWorkers v => if v <=? 0 then o else mkOptions buf bat v ret bp wal dir wo co
  | WithRetryAttempts v => if v <? 0 then o else mkOptions buf bat wor v bp wal dir wo co
  | WithBackPressure => mkOptions buf bat wor ret true wal dir wo co
  | WithWAL dir' hasCodec wo' =>
      if negb hasCodec || String.eqb dir' EmptyString then o
      else mkOptions buf bat wor ret bp true dir' wo' true
  end.

Definition newOptions (l : list Option) : options := fold_left (fun o op => apply_option op o) l defaultOptions.

(** ** The engine *)

Inductive Submission := Rejected | Queued | Logged.

#[export] Instance Submission_eq_dec : EqDecision Submission.
Proof. solve_decision. Defined.

#[export] Instance Offset_countable : Countable Offset.
Proof.
  refine (inj_countable' (fun o => (SegmentID o, Position o)) (fun p => mkOffset p.1 p.2) _). by intros [].
Defined.

Section dispatch.
(** The items and the codec of the log. *)
Context {T : Type} (Encode : T -> error + bytes) (Decode : bytes -> error + T).

Record envelope := mkEnvelope { item : T; offset : Offset }.

(** A producer inside [Enqueue]: past the first check, waiting for the log's
    [Append], blocked on the full queue.  In the last two it holds the read
    lock of [submitMu]. *)
Inductive producer := PChecked (x : T) | PAppend (x : T) | PBlocked (x : T).

(** Where [storeBatch] returns to: the loop of [durableWorker], the loop of
    [worker] (which may be draining), or its last [flush]. *)
Inductive return_to := ToDurable | ToLoop (draining : bool) | ToExit.

(** A worker: about to claim a batch, waiting for work; receiving into a batch;
    about to call the sink, waiting to retry, acknowledging the records [rest]
    of a stored batch; returned. *)
Inductive worker :=
| Claiming
| Waiting
| Receiving (batch : list T) (offsets : list Offset) (draining : bool)
| Storing (k : return_to) (items : list T) (offsets : list Offset) (attempt : Z)
| Backoff (k : return_to) (items : list T) (offsets : list Offset) (attempt : Z)
| Acking (offsets rest : list Offset)
| Exited.

(** [Start] and [Shutdown], which exclude one another: [Start] closing the log
    it could not decode, [Shutdown] waiting for the producers, for the workers,
    then reading the log's statistics, closing it, and reading the last error.
    The first two hold [lifecycleMu]. *)
Inductive lifecycle :=
| Idle
| StartClosing (err : error)
| Sealing
| Draining
| Counting (errs : list error)
| CallingClose (errs : list error)
| Closing (errs : list error)
| Returning (errs : list error)
| Over.

Record Engine := mkEngine {
  opts : options;
  files : disk;
  log : option sys;
  submitted : list envelope;
  done : bool;
  cancelled : bool;
  started : bool;
  ready : bool;
  closed : bool;
  dropped : Z;
  drainDone : bool;
  wake : Z;
  inFlight : gset Offset;
  lastError : option error;
  producers : gmap nat producer;
  crew : list worker;
  life : lifecycle
}.

Definition set_log (l : option sys) (e : Engine) : Engine :=
  mkEngine (opts e) (files e) l (submitted e) (done e) (cancelled e) (started e) (ready e) (closed e) (dropped e)
    (drainDone e) (wake e) (inFlight e) (lastError e) (producers e) (crew e) (life e).
Definition set_submitted (q : list envelope) (e : Engine) : Engine :=
  mkEngine (opts e) (files e) (log e) q (done e) (cancelled e) (started e) (ready e) (closed e) (dropped e)
    (drainDone e) (wake e) (inFlight e) (lastError e) (producers e) (crew e) (life e).
Definition set_signals (dn ca dr : bool) (e : Engine) : Engine :=
  mkEngine (opts e) (files e) (log e) (submitted e) dn ca (started e) (ready e) (closed e) (dropped e)
    dr (wake e) (inFlight e) (lastError e) (producers e) (crew e) (life e).
Definition set_flags (st rd cl : bool) (e : Engine) : Engine :=
  mkEngine (opts e) (files e) (log e) (submitted e) (done e) (cancelled e) st rd cl (dropped e)
    (drainDone e) (wake e) (inFlight e) (lastError e) (producers e) (crew e) (life e).
Definition set_dropped (n : Z) (e : Engine) : Engine :=
  mkEngine (opts e) (files e) (log e) (submitted e) (done e) (cancelled e) (started e) (ready e) (closed e) n
    (drainDone e) (wake e) (inFlight e) (lastError e) (producers e) (crew e) (life e).
Definition set_wake (n : Z) (e : Engine) : Engine :=
  mkEngine (opts e) (files e) (log e) (submitted e) (done e) (cancelled e) (started e) (ready e) (closed e) (dropped e)
    (drainDone e) n (inFlight e) (lastError e) (producers e) (crew e) (life e).
Definition set_inFlight (f : gset Offset) (e : Engine) : Engine :=
  mkEngine (opts e) (files e) (log e) (submitted e) (done e) (cancelled e) (started e) (ready e) (closed e) (dropped e)
    (drainDone e) (wake e) f (lastError e) (producers e) (crew e) (life e).
Definition set_lastError (err : error) (e : Engine) : Engine :=
  mkEngine (opts e) (files e) (log e) (submitted e) (done e) (cancelled e) (started e) (ready e) (closed e) (dropped e)
    (drainDone e) (wake e) (inFlight e) (Some err) (producers e) (crew e) (life e).
Definition set_producers (p : gmap nat producer) (e : Engine) : Engine :=
  mkEngine (opts e) (files e) (log e) (submitted e) (done e) (cancelled e) (started e) (ready e) (closed e) (dropped e)
    (drainDone e) (wake e) (inFlight e) (lastError e) p (crew e) (life e).
Definition set_crew (c : list worker) (e : Engine) : Engine :=
  mkEngine (opts e) (files e) (log e) (submitted e) (done e) (cancelled e) (started e) (ready e) (closed e) (dropped e)
    (drainDone e) (wake e) (inFlight e) (lastError e) (producers e) c (life e).
Definition set_life (l : lifecycle) (e : Engine) : Engine :=
  mkEngine (opts e) (files e) (log e) (submitted e) (done e) (cancelled e) (started e) (ready e) (closed e) (dropped e)
    (drainDone e) (wake e) (inFlight e) (lastError e) (producers e) (crew e) l.

Definition set_files (d : disk) (e : Engine) : Engine :=
  mkEngine (opts e) d (log e) (submitted e) (done e) (cancelled e) (started e) (ready e) (closed e) (dropped e)
    (drainDone e) (wake e) (inFlight e) (lastError e) (producers e) (crew e) (life e).

(** What the producers, the sink, the drop handler and the owner observe;
    [EvShutdown] tells whether the call is the one that owns the drain.
    [EvLost] is a batch [storeBatch] gave up. *)
Inductive event :=
| EvStart (r : option error)
| EvEnqueue (x : T) (r : error + Submission)
| EvDrop (x : T)
| EvStore (offsets : list Offset) (items : list T) (r : option error)
| EvLost (offsets : list Offset) (items : list T)
| EvShutdown (owner : bool) (r : option error).

(** [NewEngine]; [d] is the directory of the log. *)
Definition NewEngine (hasSink : bool) (l : list Option) (d : disk) : error + Engine :=
  if negb hasSink then inl ErrSinkRequired
  else
    let o := newOptions l in
    if walEnabled o && negb (codec o) then inl ErrCodecRequired
    else inr (mkEngine o d None [] false false false false false 0 false 0 ∅ None ∅ [] Idle).

(** ** Producers *)

Definition notifyWorker (e : Engine) : Engine :=
  if wake e <? workers (opts e) then set_wake (wake e + 1) e else e.

Definition leave (tid : nat) (e : Engine) : Engine := set_producers (delete tid (producers e)) e.

(** [dropItem], and the [Enqueue] that returns with [err]. *)
Definition drop_and_reject (tid : nat) (x : T) (err : error) (e : Engine) : Engine * list event :=
  (leave tid (set_dropped (dropped e + 1) e), [EvDrop x; EvEnqueue x (inl err)]).

(** The log's [Append] of producer [tid] returned. *)
Definition appended (tid : nat) (x : T) (r : error + Offset) (e : Engine) : Engine * list event :=
  match r with
  | inl err => drop_and_reject tid x err e
  | inr _ => (leave tid (notifyWorker e), [EvEnqueue x (inr Logged)])
  end.

(** The queue takes the item. *)
Definition send (tid : nat) (x : T) (e : Engine) : Engine * list event :=
  (leave tid (set_submitted (submitted e ++ [mkEnvelope x zero_offset]) e), [EvEnqueue x (inr Queued)]).

Definition has_room (e : Engine) : bool := zlen (submitted e) <? bufferSize (opts e).

(** [Enqueue] up to its first check. *)
Definition Enqueue_check (tid : nat) (x : T) (e : Engine) : option (Engine * list event) :=
  match producers e !! tid with
  | Some _ => None
  | None =>
      if negb (ready e) || closed e then Some (e, [EvEnqueue x (inl ErrEngineClosed)])
      else Some (set_producers (<[tid := PChecked x]> (producers e)) e, [])
  end.

(** [Enqueue] under the read lock, up to the log's [Append] or the [select]. *)
Definition Enqueue_admit (tid : nat) (e : Engine) : option (Engine * list event) :=
  match producers e !! tid with
  | Some (PChecked x) =>
      if closed e then Some (leave tid e, [EvEnqueue x (inl ErrEngineClosed)])
      else
        match log e with
        | Some s =>
            match Encode x with
            | inl err => Some (drop_and_reject tid x err e)
            | inr payload =>
                match WalSystem.append_start tid payload s with
                | None => None
                | Some (s, WalSystem.EvAppend _ r :: _) => Some (appended tid x r (set_log (Some s) e))
                | Some (s, _) => Some (set_producers (<[tid := PAppend x]> (producers e)) (set_log (Some s) e), [])
                end
            end
        | None =>
            if backPressure (opts e) then Some (set_producers (<[tid := PBlocked x]> (producers e)) e, [])
            else if has_room e then Some (send tid x e)
            else Some (drop_and_reject tid x ErrQueueFull e)
        end
  | _ => None
  end.

(** The two cases of the [select] with back-pressure. *)
Definition Enqueue_send (tid : nat) (e : Engine) : option (Engine * list event) :=
  match producers e !! tid with
  | Some (PBlocked x) => if has_room e then Some (send tid x e) else None
  | _ => None
  end.
Definition Enqueue_done (tid : nat) (e : Engine) : option (Engine * list event) :=
  match producers e !! tid with
  | Some (PBlocked x) => if done e then Some (leave tid e, [EvEnqueue x (inl ErrEngineClosed)]) else None
  | _ => None
  end.

Definition Submit (r : error + Submission) : bool := match r with inl _ => false | inr _ => true end.
Definition Dropped (e : Engine) : Z := dropped e.

(** ** Workers *)

Definition set_worker (i : nat) (w : worker) (e : Engine) : Engine := set_crew (<[i := w]> (crew e)) e.

(** The loop of [durableWorker] that decodes a claimed batch. *)
Fixpoint decode_all (records : list WRecord) : error + list T * list Offset :=
  match records with
  | [] => inr ([], [])
  | r :: records =>
      match Decode (r_Payload r) with
      | inl err => inl (ErrBoth ErrReplayDecode err)
      | inr x =>
          match decode_all records with
          | inl err => inl err
          | inr (xs, offs) => inr (x :: xs, r_Offset r :: offs)
          end
      end
  end.

(** [claimBatch]. *)
Definition claimBatch (env : readEnv) (s : sys) (e : Engine) : (error + list WRecord) * Engine :=
  let skip off := bool_decide (off ∈ inFlight e) in
  let '(r, w) := Wal.ReadPending env (batchSize (opts e)) (Some skip) (WalSystem.wal s) (WalSystem.dsk s) in
  let e := set_log (Some (WalSystem.with_wal w s)) e in
  match r with
  | inl err => (inl err, e)
  | inr records => (inr records, set_inFlight (inFlight e ∪ list_to_set (r_Offset <$> records)) e)
  end.

(** [durableWorker] from the claim to the call of [storeBatch] or the [select]. *)
Definition durable_claim (i : nat) (env : readEnv) (e : Engine) : option (Engine * list event) :=
  match crew e !! i, log e with
  | Some Claiming, Some s =>
      let '(r, e) := claimBatch env s e in
      Some (match r with
            | inl err => set_worker i Exited (set_lastError err e)
            | inr [] => set_worker i Waiting e
            | inr records =>
                match decode_all records with
                | inl err => set_worker i Exited (set_lastError err e)
                | inr (items, offs) => set_worker i (Storing ToDurable items offs 0) e
                end
            end, [])
  | _, _ => None
  end.

(** The three cases of its [select]. *)
Definition durable_drained (i : nat) (e : Engine) : option (Engine * list event) :=
  match crew e !! i with
  | Some Waiting => if drainDone e then Some (set_worker i Exited e, []) else None
  | _ => None
  end.
Definition durable_wake (i : nat) (e : Engine) : option (Engine * list event) :=
  match crew e !! i with
  | Some Waiting => if 0 <? wake e then Some (set_worker i Claiming (set_wake (wake e - 1) e), []) else None
  | _ => None
  end.
Definition durable_tick (i : nat) (e : Engine) : option (Engine * list event) :=
  match crew e !! i with
  | Some Waiting => Some (set_worker i Claiming e, [])
  | _ => None
  end.

(** [storeBatch] returned to the worker: nil, or the error it gave up with. *)
Definition store_returned (i : nat) (k : return_to) (err : option error) (e : Engine) : Engine :=
  let e := match err with Some err => set_lastError err e | None => e end in
  set_worker i
    (match k, err with
     | ToDurable, Some _ => Exited
     | ToDurable, None => Claiming
     | ToLoop draining, _ => Receiving [] [] draining
     | ToExit, _ => Exited
     end) e.

(** [storeBatch]: the sink returned [r]. *)
Definition storeBatch (i : nat) (r : option error) (e : Engine) : option (Engine * list event) :=
  match crew e !! i with
  | Some (Storing k items offs attempt) =>
      let ev := EvStore offs items r in
      match r with
      | None =>
          match log e with
          | Some _ => Some (set_worker i (Acking offs offs) e, [ev])
          | None => Some (store_returned i k None e, [ev])
          end
      | Some err =>
          let volatile := match log e with None => true | Some _ => false end in
          if cancelled e || ((volatile || closed e) && (retryAttempts (opts e) <=? attempt))
          then Some (store_returned i k (Some err) e, [ev; EvLost offs items])
          else Some (set_worker i (Backoff k items offs attempt) e, [ev])
      end
  | _ => None
  end.

(** The timer fired, or the engine was closed. *)
Definition store_retry (i : nat) (e : Engine) : option (Engine * list event) :=
  match crew e !! i with
  | Some (Backoff k items offs attempt) => Some (set_worker i (Storing k items offs (attempt + 1)) e, [])
  | _ => None
  end.

Definition store_ack (i : nat) (removed : bool) (e : Engine) : option (Engine * list event) :=
  match crew e !! i, log e with
  | Some (Acking offs (off :: rest)), Some s =>
      let '(w, d) := Wal.Ack off removed (WalSystem.wal s) (WalSystem.dsk s) in
      Some (set_worker i (Acking offs rest) (set_log (Some (WalSystem.with_disk w d s)) e), [])
  | _, _ => None
  end.

(** The end of an iteration of [durableWorker]. *)
Definition durable_release (i : nat) (e : Engine) : option (Engine * list event) :=
  match crew e !! i with
  | Some (Acking offs []) =>
      let e := set_inFlight (inFlight e ∖ list_to_set offs) e in
      Some (set_worker i Claiming (notifyWorker e), [])
  | _ => None
  end.

(** The [flush] of [worker]. *)
Definition flush (i : nat) (k : return_to) (batch : list T) (offs : list Offset) (e : Engine) : Engine :=
  match batch with
  | [] => store_returned i k None e
  | _ => set_worker i (Storing k batch offs 0) e
  end.

(** The cases of the two [select]s of [worker]: an item, a tick, the drain
    begins, nothing is left. *)
Definition worker_receive (i : nat) (e : Engine) : option (Engine * list event) :=
  match crew e !! i, submitted e with
  | Some (Receiving batch offs draining), x :: q =>
      let batch := batch ++ [item x] in
      let offs := offs ++ [offset x] in
      let e := set_submitted q e in
      Some (if batchSize (opts e) <=? zlen batch then flush i (ToLoop draining) batch offs e
            else set_worker i (Receiving batch offs draining) e, [])
  | _, _ => None
  end.
Definition worker_tick (i : nat) (e : Engine) : option (Engine * list event) :=
  match crew e !! i with
  | Some (Receiving batch offs false) => Some (flush i (ToLoop false) batch offs e, [])
  | _ => None
  end.
Definition worker_drain (i : nat) (e : Engine) : option (Engine * list event) :=
  match crew e !! i with
  | Some (Receiving batch offs false) =>
      if drainDone e then Some (set_worker i (Receiving batch offs true) e, []) else None
  | _ => None
  end.
Definition worker_empty (i : nat) (e : Engine) : option (Engine * list event) :=
  match crew e !! i, submitted e with
  | Some (Receiving batch offs true), [] => Some (flush i ToExit batch offs e, [])
  | _, _ => None
  end.

(** ** Start and Shutdown *)

Definition lifecycle_free (e : Engine) : bool :=
  match life e with StartClosing _ | Sealing => false | _ => true end.

(** The workers are launched and the engine is ready. *)
Definition launch (w : worker) (e : Engine) : Engine :=
  set_flags (started e) true (closed e) (set_crew (repeat w (Z.to_nat (workers (opts e)))) e).

(** [Start]; when a recovered record does not decode it closes the log. *)
Definition Start (env : openEnv) (e : Engine) : option (Engine * list event) :=
  if negb (lifecycle_free e) then None
  else if closed e then Some (e, [EvStart (Some ErrEngineClosed)])
  else if started e then Some (e, [EvStart (Some ErrAlreadyStarted)])
  else
    let e := set_flags true (ready e) (closed e) e in
    if walEnabled (opts e) then
      match Wal.Open env (walDir (opts e)) (walOpts (opts e)) (files e) with
      | (inl err, d) => Some (set_files d e, [EvStart (Some err)])
      | (inr (w, recovered), d) =>
          let s := WalSystem.start w d in
          match decode_all recovered with
          | inl err =>
              match WalSystem.close_begin s with
              | Some (s, _) => Some (set_life (StartClosing err) (set_log (Some s) e), [])
              | None => None
              end
          | inr _ => Some (launch Claiming (set_log (Some s) e), [EvStart None])
          end
      end
    else Some (launch (Receiving [] [] false) e, [EvStart None]).

(** [Shutdown] up to the write lock of [submitMu]. *)
Definition Shutdown_begin (e : Engine) : option (Engine * list event) :=
  if negb (lifecycle_free e) then None
  else if closed e then Some (e, [EvShutdown false None])
  else Some (set_life Sealing (set_signals true (cancelled e) (drainDone e) (set_flags (started e) (ready e) true e)), []).

(** No producer holds the read lock. *)
Definition submit_free (e : Engine) : bool :=
  forallb (fun p => match p.2 with PChecked _ => true | _ => false end) (map_to_list (producers e)).

Definition Shutdown_seal (e : Engine) : option (Engine * list event) :=
  match life e, submit_free e with
  | Sealing, true => Some (set_life Draining (set_signals (done e) (cancelled e) true e), [])
  | _, _ => None
  end.

Definition all_exited (e : Engine) : bool := forallb (fun w => match w with Exited => true | _ => false end) (crew e).

(** The [select]: the workers have returned, or the context ended with [err]. *)
Definition Shutdown_finished (e : Engine) : option (Engine * list event) :=
  match life e, all_exited e with
  | Draining, true => Some (set_life (Counting []) (set_signals (done e) true (drainDone e) e), [])
  | _, _ => None
  end.
Definition Shutdown_expired (err : error) (e : Engine) : option (Engine * list event) :=
  match life e with
  | Draining => Some (set_life (Counting [err]) (set_signals (done e) true (drainDone e) e), [])
  | _ => None
  end.

Definition Shutdown_count (e : Engine) : option (Engine * list event) :=
  match life e with
  | Counting errs =>
      match log e with
      | None => Some (set_life (Returning errs) e, [])
      | Some s =>
          let pending := Wal.Pending (Wal.stats (WalSystem.wal s)) in
          let errs := if 0 <? pending
                      then errs ++ [ErrSuffix ErrBacklog (": " +:+ pretty pending +:+ " records")%string] else errs in
          Some (set_life (CallingClose errs) e, [])
      end
  | _ => None
  end.

(** The log's [Close] returned. *)
Definition closed_with (r : option error) (e : Engine) : Engine * list event :=
  match life e with
  | StartClosing err => (set_life Idle e, [EvStart (Errors.join (Some err) r)])
  | CallingClose errs | Closing errs => (set_life (Returning (errs ++ option_list r)) e, [])
  | _ => (e, [])
  end.

Definition Shutdown_close (e : Engine) : option (Engine * list event) :=
  match life e, log e with
  | CallingClose errs, Some s =>
      match WalSystem.close_begin s with
      | Some (s, WalSystem.EvClose r :: _) => Some (closed_with r (set_log (Some s) e))
      | Some (s, _) => Some (set_life (Closing errs) (set_log (Some s) e), [])
      | None => None
      end
  | _, _ => None
  end.

(** [errors.Join] of a list. *)
Definition join_all (errs : list error) : option error := fold_left (fun acc err => Errors.join acc (Some err)) errs None.

Definition Shutdown_return (e : Engine) : option (Engine * list event) :=
  match life e with
  | Returning errs => Some (set_life Over e, [EvShutdown true (join_all (errs ++ option_list (lastError e)))])
  | _ => None
  end.

(** ** The log's own steps *)

(** Those of its [Append] calls, its goroutine and its [Close], and [Sync]. *)
Definition internal (l : WalSystem.label) : bool :=
  match l with
  | WalSystem.LAppendStart _ _ | WalSystem.LAck _ _ | WalSystem.LReadPending _ _ _ | WalSystem.LCloseBegin => false
  | _ => true
  end.

(** A call of the log returned to the engine. *)
Definition log_event (l : WalSystem.label) (ev : WalSystem.event) (e : Engine) : Engine * list event :=
  match ev, l with
  | WalSystem.EvAppend _ r, (WalSystem.LAppendAdd tid | WalSystem.LAppendReturn tid) =>
      match producers e !! tid with
      | Some (PAppend x) => appended tid x r e
      | _ => (e, [])
      end
  | WalSystem.EvClose r, _ => closed_with r e
  | _, _ => (e, [])
  end.

Definition log_step (l : WalSystem.label) (e : Engine) : option (Engine * list event) :=
  match log e, internal l with
  | Some s, true =>
      match WalSystem.step l s with
      | None => None
      | Some (s, []) => Some (set_log (Some s) e, [])
      | Some (s, ev :: _) => Some (log_event l ev (set_log (Some s) e))
      end
  | _, _ => None
  end.

(** ** Transitions and runs *)

Inductive label :=
| LStart (env : openEnv)
| LCheck (tid : nat) (x : T)
| LAdmit (tid : nat)
| LSend (tid : nat)
| LDone (tid : nat)
| LLog (l : WalSystem.label)
| LClaim (i : nat) (env : readEnv)
| LDrained (i : nat)
| LWake (i : nat)
| LTick (i : nat)
| LStore (i : nat) (r : option error)
| LRetry (i : nat)
| LAck (i : nat) (removed : bool)
| LRelease (i : nat)
| LReceive (i : nat)
| LFlush (i : nat)
| LDrain (i : nat)
| LEmpty (i : nat)
| LShutdown
| LSeal
| LFinished
| LExpired (err : error)
| LCount
| LClose
| LReturn.

Definition step (l : label) (e : Engine) : option (Engine * list event) :=
  match l with
  | LStart env => Start env e
  | LCheck tid x => Enqueue_check tid x e
  | LAdmit tid => Enqueue_admit tid e
  | LSend tid => Enqueue_send tid e
  | LDone tid => Enqueue_done tid e
  | LLog l => log_step l e
  | LClaim i env => durable_claim i env e
  | LDrained i => durable_drained i e
  | LWake i => durable_wake i e
  | LTick i => durable_tick i e
  | LStore i r => storeBatch i r e
  | LRetry i => store_retry i e
  | LAck i removed => store_ack i removed e
  | LRelease i => durable_release i e
  | LReceive i => worker_receive i e
  | LFlush i => worker_tick i e
  | LDrain i => worker_drain i e
  | LEmpty i => worker_empty i e
  | LShutdown => Shutdown_begin e
  | LSeal => Shutdown_seal e
  | LFinished => Shutdown_finished e
  | LExpired err => Shutdown_expired err e
  | LCount => Shutdown_count e
  | LClose => Shutdown_close e
  | LReturn => Shutdown_return e
  end.

Fixpoint run (ls : list label) (e : Engine) : option (Engine * list event) :=
  match ls with
  | [] => Some (e, [])
  | l :: ls =>
      match step l e with
      | None => None
      | Some (e, ev) => match run ls e with Some (e, evs) => Some (e, ev ++ evs) | None => None end
      end
  end.

End dispatch.

Arguments Engine : clear implicits.
Arguments event : clear implicits.
Arguments label : clear implicits.
Arguments worker : clear implicits.
Arguments producer : clear implicits.
Arguments envelope : clear implicits.

End Dispatch.
