(* ===== verification/DispatchQueue.v ===== *)
(** * What the dispatcher promises without a log

    Every accepted item is in the queue, in the hands of a worker, stored or
    given up, exactly once; after a [Shutdown] without an error all of them are
    stored. *)

From S2P Require Import Prelude Wal WalSystem WalTheorems Dispatch.
From Stdlib Require Import Strings.Byte.

Module DispatchQueue.
Import Wal Dispatch.

(** ** Options *)

Definition options_ok (o : options) : Prop := 0 < bufferSize o /\ 0 < batchSize o /\ 0 < workers o /\ 0 <= retryAttempts o.

(** Whatever the caller sets, the sizes stay positive. *)
Lemma newOptions_ok l : options_ok (newOptions l).
Proof.
  unfold newOptions. assert (options_ok defaultOptions) as Hd by (repeat split; vm_compute; congruence).
  revert Hd. generalize defaultOptions. induction l as [|op l IH]; intros o Ho; [done|]. cbn. apply IH.
  destruct o as [buf bat wor ret bp wal dir wo co], Ho as (? & ? & ? & ?). cbn in *.
  destruct op as [v|v|v|v| |dir' hc wo']; cbn; repeat case_match; try (by split_and!); repeat split; cbn; lia.
Qed.

(** ** Runs *)

Section runs.
Context {T : Type} (Encode : T -> error + bytes) (Decode : bytes -> error + T).

(** An invariant of the engine together with the history of what was observed. *)
Lemma run_inv (P : label T -> Prop) (I : nat -> Engine T -> list (event T) -> Prop) ls e e' hist evs n :
  (forall l k e e' hist ev, P l -> I k e hist -> step Encode Decode l e = Some (e', ev) -> I (S k) e' (hist ++ ev)) ->
  Forall P ls -> I n e hist -> run Encode Decode ls e = Some (e', evs) -> I (n + length ls)%nat e' (hist ++ evs).
Proof.
  intros Hstep. revert n e hist evs. induction ls as [|l ls IH]; intros n e hist evs Hl Hi; cbn.
  { intros [= <- <-]. by rewrite app_nil_r, Nat.add_0_r. }
  apply list.Forall_cons in Hl as [Hl Hls]. destruct (step Encode Decode l e) as [[e1 ev]|] eqn:Hs; [|done].
  destruct (run Encode Decode ls e1) as [[e2 evs2]|] eqn:Hr; [|done]. intros [= <- <-].
  rewrite app_assoc, Nat.add_succ_r, <-Nat.add_succ_l. eapply IH; [done| |done]. by eapply Hstep.
Qed.

(** The items accepted into memory, those a call of the sink stored, those
    given up, and those a worker holds. *)
Definition queued (hist : list (event T)) : list T :=
  omap (fun ev => match ev with EvEnqueue x (inr Queued) => Some x | _ => None end) hist.
Definition stored_of (ev : event T) : list T := match ev with EvStore _ items None => items | _ => [] end.
Definition lost_of (ev : event T) : list T := match ev with EvLost _ items => items | _ => [] end.
Definition stored (hist : list (event T)) : list T := concat (stored_of <$> hist).
Definition lost (hist : list (event T)) : list T := concat (lost_of <$> hist).

Definition held_of (w : worker T) : list T :=
  match w with
  | Receiving items _ _ | Storing _ items _ _ | Backoff _ items _ _ => items
  | _ => []
  end.
Definition held (e : Engine T) : list T := concat (held_of <$> crew e).

Lemma queued_app a b : queued (a ++ b) = queued a ++ queued b.
Proof. apply omap_app. Qed.
Lemma stored_app a b : stored (a ++ b) = stored a ++ stored b.
Proof. unfold stored. by rewrite fmap_app, concat_app. Qed.
Lemma lost_app a b : lost (a ++ b) = lost a ++ lost b.
Proof. unfold lost. by rewrite fmap_app, concat_app. Qed.

(** ** The invariant *)

Definition vworker (w : worker T) : Prop :=
  match w with
  | Receiving _ _ _ | Exited => True
  | Storing k _ _ _ | Backoff k _ _ _ => k <> ToDurable
  | _ => False
  end.

(** A worker that has seen the queue empty after the drain began. *)
Definition leaving (w : worker T) : Prop :=
  match w with Exited | Storing ToExit _ _ _ | Backoff ToExit _ _ _ => True | _ => False end.

(** A worker that has seen the drain begin. *)
Definition drains (w : worker T) : Prop :=
  match w with Receiving _ _ true | Storing (ToLoop true) _ _ _ | Backoff (ToLoop true) _ _ _ => True | _ => False end.

(** The errors [Shutdown] has collected, once it no longer waits. *)
Definition collected (l : lifecycle) : option (list error) :=
  match l with
  | Counting errs | CallingClose errs | Closing errs | Returning errs => Some errs
  | _ => None
  end.

Record vinv (e : Engine T) (hist : list (event T)) : Prop := {
  v_log : log e = None /\ walEnabled (opts e) = false;
  v_opts : options_ok (opts e);
  v_count : queued hist ≡ₚ stored hist ++ lost hist ++ (item <$> submitted e) ++ held e;
  v_lost : lost hist <> [] -> lastError e <> None;
  v_crew : Forall vworker (crew e);
  v_unready : ready e = false -> producers e = ∅ /\ submitted e = [] /\ crew e = [];
  v_ready : ready e = true -> started e = true /\ crew e <> [];
  v_sealed : drainDone e = true -> closed e = true /\ submit_free e = true;
  v_leaving : forall w, w ∈ crew e -> leaving w -> drainDone e = true /\ submitted e = [];
  v_drains : forall w, w ∈ crew e -> drains w -> drainDone e = true;
  v_draining : life e = Draining \/ life e = Over \/ is_Some (collected (life e)) -> drainDone e = true;
  v_sealing : life e = Sealing -> closed e = true;
  v_clean : collected (life e) = Some [] -> all_exited e = true;
  v_over : EvShutdown true None ∈ hist -> all_exited e = true /\ lastError e = None /\ life e = Over
}.

Lemma all_exited_spec (e : Engine T) : all_exited e = true <-> Forall (fun w => w = Exited) (crew e).
Proof.
  unfold all_exited. rewrite forallb_forall, list.Forall_forall. split.
  - intros Hf w Hw%list_elem_of_In. specialize (Hf w Hw). by destruct w.
  - intros Hf w Hw%list_elem_of_In. by rewrite (Hf w Hw).
Qed.

Lemma submit_free_spec (e : Engine T) :
  submit_free e = true <-> forall tid p, producers e !! tid = Some p -> exists x, p = PChecked x.
Proof.
  unfold submit_free. rewrite forallb_forall. split.
  - intros Hf tid p Hp. specialize (Hf (tid, p)). rewrite <-list_elem_of_In, elem_of_map_to_list in Hf.
    specialize (Hf Hp). destruct p; try done. by eexists.
  - intros Hf [tid p]. rewrite <-list_elem_of_In, elem_of_map_to_list. intros [x ->]%Hf. done.
Qed.

Lemma submit_free_leave (e : Engine T) tid : submit_free e = true -> submit_free (leave tid e) = true.
Proof. rewrite !submit_free_spec. intros Hf t p. cbn. intros [_ Hp]%lookup_delete_Some. eauto. Qed.

(** A worker at work changes its state. *)
Lemma vinv_worker e hist i w w' q err ev :
  vinv e hist -> crew e !! i = Some w -> w <> Exited -> vworker w' ->
  (forall l, stored ev ++ lost ev ++ (item <$> q) ++ held_of w' ++ l ≡ₚ (item <$> submitted e) ++ held_of w ++ l) ->
  queued ev = [] -> (lost ev <> [] -> err <> None) -> (leaving w' -> drainDone e = true /\ q = []) ->
  (drains w' -> drainDone e = true) -> (submitted e = [] -> q = []) -> EvShutdown true None ∉ ev ->
  vinv (set_worker i w' (set_submitted q (match err with Some x => set_lastError x e | None => e end))) (hist ++ ev).
Proof.
  intros [Hlog Ho Hc Hl Hcr Hur Hr Hse Hle Hds Hdr Hsl Hcl Hov] Hi Hw Hv' Hcount Hq Herr Hlv Hdw Hsub Hev.
  destruct (concat_fmap_insert held_of (crew e) i w w' Hi) as (l & Hheld & Hheld').
  assert (all_exited e <> true) as Hne by (rewrite all_exited_spec, list.Forall_lookup; intros H; by apply H in Hi).
  assert (crew e <> []) as Hnn by (intros E; by rewrite E in Hi).
  assert (forall e1 : Engine T, e1 = match err with Some x => set_lastError x e | None => e end ->
    log e1 = log e /\ opts e1 = opts e /\ crew e1 = crew e /\ ready e1 = ready e /\ producers e1 = producers e /\
    drainDone e1 = drainDone e /\ closed e1 = closed e /\ life e1 = life e /\ started e1 = started e) as Hsame by (intros e1 ->; by destruct err).
  specialize (Hsame _ eq_refl) as (E1 & E2 & E3 & E4 & E5 & E6 & E7 & E8 & E9).
  split; cbn [set_worker set_crew set_submitted log opts submitted lastError crew ready started producers drainDone closed life];
    rewrite ?E1, ?E2, ?E3, ?E4, ?E5, ?E6, ?E7, ?E8, ?E9.
  - done.
  - done.
  - rewrite queued_app, stored_app, lost_app, Hq, app_nil_r, Hc. unfold held. cbn. rewrite E3, Hheld, Hheld'.
    specialize (Hcount l). rewrite <-Hcount. solve_Permutation.
  - rewrite lost_app. intros Hlost. destruct err; [done|]. apply Hl. destruct (lost ev); [by rewrite app_nil_r in Hlost|by destruct Herr].
  - apply Forall_insert; [done|done].
  - intros Hf. destruct (Hur Hf) as (? & ? & ?). done.
  - intros [Hst _]%Hr. split; [done|]. intros E. apply (f_equal length) in E. rewrite length_insert in E. by destruct (crew e).
  - intros Hd. destruct (Hse Hd) as [? Hf]. split; [done|]. rewrite submit_free_spec in *. cbn. by rewrite E5.
  - intros w1 [j Hj]%list_elem_of_lookup. apply list_lookup_insert_Some in Hj as [(-> & -> & _)|[_ Hj]]; [done|].
    intros Hlv1. destruct (Hle w1 ltac:(by eapply list_elem_of_lookup_2) Hlv1). auto.
  - intros w1 [j Hj]%list_elem_of_lookup. apply list_lookup_insert_Some in Hj as [(-> & -> & _)|[_ Hj]]; [done|].
    apply Hds. by eapply list_elem_of_lookup_2.
  - done.
  - done.
  - intros Hcoll. by apply Hcl in Hcoll.
  - intros [Hin|?]%elem_of_app; [|done]. by apply Hov in Hin as [? _].
Qed.

(** A producer moves on; [xs] are the items it put into the queue. *)
Lemma vinv_producer e hist n ps xs ev :
  vinv e hist -> (ready e = false -> ps = ∅ /\ xs = []) ->
  (drainDone e = true -> xs = [] /\ forall tid p, ps !! tid = Some p -> exists x, p = PChecked x) ->
  queued ev = item <$> xs -> stored ev = [] -> lost ev = [] -> EvShutdown true None ∉ ev ->
  vinv (set_producers ps (set_submitted (submitted e ++ xs) (set_dropped n e))) (hist ++ ev).
Proof.
  intros [Hlog Ho Hc Hl Hcr Hur Hr Hse Hle Hds Hdr Hsl Hcl Hov] Hready Hdrain Hq Hs Hlo Hev.
  split; cbn [set_producers set_submitted set_dropped log opts submitted lastError crew ready producers drainDone closed life].
  - done.
  - done.
  - rewrite queued_app, stored_app, lost_app, Hq, Hs, Hlo, !app_nil_r, Hc, fmap_app. unfold held. cbn. solve_Permutation.
  - rewrite lost_app, Hlo, app_nil_r. done.
  - done.
  - intros Hf. destruct (Hur Hf) as (_ & -> & ?), (Hready Hf) as [-> ->]. done.
  - done.
  - intros Hd. destruct (Hse Hd), (Hdrain Hd). split; [done|]. by apply submit_free_spec.
  - intros w Hw Hlw. destruct (Hle w Hw Hlw) as [Hd ->]. destruct (Hdrain Hd) as [-> _]. done.
  - done.
  - done.
  - done.
  - done.
  - intros [Hin|?]%elem_of_app; [|done]. by apply Hov.
Qed.

Lemma set_producers_eta (e : Engine T) ps : set_producers ps e = set_producers ps (set_submitted (submitted e ++ []) (set_dropped (dropped e) e)).
Proof. destruct e. cbn. by rewrite app_nil_r. Qed.

Lemma engine_eta (e : Engine T) : e = set_producers (producers e) (set_submitted (submitted e ++ []) (set_dropped (dropped e) e)).
Proof. destruct e. cbn. by rewrite app_nil_r. Qed.

Lemma set_dropped_eta (e : Engine T) tid n : leave tid (set_dropped n e) = set_producers (delete tid (producers e)) (set_submitted (submitted e ++ []) (set_dropped n e)).
Proof. destruct e. cbn. by rewrite app_nil_r. Qed.

Lemma send_eta (e : Engine T) tid x :
  (send tid x e).1 = set_producers (delete tid (producers e)) (set_submitted (submitted e ++ [mkEnvelope x zero_offset]) (set_dropped (dropped e) e)).
Proof. by destruct e. Qed.

(** An observation that concerns no item. *)
Lemma vinv_observe e hist ev :
  vinv e hist -> queued ev = [] -> stored ev = [] -> lost ev = [] -> EvShutdown true None ∉ ev -> vinv e (hist ++ ev).
Proof.
  intros Hv Hq Hs Hlo Hev. rewrite (engine_eta e). apply vinv_producer; [done| | |done..].
  - intros Hf. by apply (v_unready _ _ Hv) in Hf as [-> _].
  - intros Hd. apply (v_sealed _ _ Hv) in Hd as [_ Hf]. split; [done|]. by apply submit_free_spec.
Qed.

(** A producer leaves without an item in the queue. *)
Lemma vinv_leave e hist tid p n ev :
  vinv e hist -> producers e !! tid = Some p -> queued ev = [] -> stored ev = [] -> lost ev = [] -> EvShutdown true None ∉ ev ->
  vinv (leave tid (set_dropped n e)) (hist ++ ev).
Proof.
  intros Hv Hp Hq Hs Hlo Hev. rewrite set_dropped_eta. apply vinv_producer; [done| | |done..].
  - intros Hf. apply (v_unready _ _ Hv) in Hf as [E _]. by rewrite E, lookup_empty in Hp.
  - intros Hd. apply (v_sealed _ _ Hv) in Hd as [_ Hf%(submit_free_leave e tid)]. split; [done|]. exact (proj1 (submit_free_spec _) Hf).
Qed.

Lemma set_dropped_same (e : Engine T) : set_dropped (dropped e) e = e.
Proof. by destruct e. Qed.

Lemma vinv_send e hist tid p x e' ev :
  vinv e hist -> producers e !! tid = Some p -> drainDone e = false -> send tid x e = (e', ev) -> vinv e' (hist ++ ev).
Proof.
  intros Hv Hp Hd Heq. assert (e' = (send tid x e).1) as -> by (by rewrite Heq). unfold send in Heq. injection Heq as <-.
  rewrite send_eta. apply vinv_producer; [done| |congruence|done|done|done|by intros ?%list_elem_of_singleton].
  intros Hf. apply (v_unready _ _ Hv) in Hf as [E _]. by rewrite E, lookup_empty in Hp.
Qed.

Ltac no_shutdown := repeat (apply not_elem_of_cons; split; [done|]); apply not_elem_of_nil.

Lemma vinv_check e hist tid x e' ev : vinv e hist -> Enqueue_check tid x e = Some (e', ev) -> vinv e' (hist ++ ev).
Proof.
  intros Hv. unfold Enqueue_check. destruct (producers e !! tid) eqn:Hp; [done|].
  destruct (negb (ready e) || closed e) eqn:Hc; intros [= <- <-].
  - apply vinv_observe; [done..|no_shutdown].
  - apply orb_false_iff in Hc as [Hr%negb_false_iff Hcl]. rewrite set_producers_eta.
    apply vinv_producer; [done|congruence| |done|done|done|apply not_elem_of_nil].
    intros Hd. apply (v_sealed _ _ Hv) in Hd as [? _]. congruence.
Qed.

Lemma vinv_admit e hist tid e' ev : vinv e hist -> Enqueue_admit Encode tid e = Some (e', ev) -> vinv e' (hist ++ ev).
Proof.
  intros Hv. unfold Enqueue_admit. destruct (producers e !! tid) as [[x| |]|] eqn:Hp; [|done..].
  destruct (closed e) eqn:Hcl.
  { intros [= <- <-]. rewrite <-(set_dropped_same e). eapply vinv_leave; [done|done|done..|no_shutdown]. }
  assert (drainDone e = false) as Hd by (apply not_true_iff_false; intros [? _]%(v_sealed _ _ Hv); congruence).
  destruct (v_log _ _ Hv) as [-> _]. destruct (backPressure (opts e)).
  - intros [= <- <-]. rewrite set_producers_eta.
    apply vinv_producer; [done| |congruence|done|done|done|apply not_elem_of_nil].
    intros Hf. apply (v_unready _ _ Hv) in Hf as [E _]. by rewrite E, lookup_empty in Hp.
  - destruct (has_room e); intros Heq.
    + eapply vinv_send; [done|done|done|]. injection Heq as <- <-. reflexivity.
    + injection Heq as <- <-. eapply vinv_leave; [done|done|done..|no_shutdown].
Qed.

Lemma set_submitted_same (e : Engine T) : set_submitted (submitted e) e = e.
Proof. by destruct e. Qed.

(** The queue and the last error stay as they are. *)
Lemma vinv_worker_quiet e hist i w w' ev :
  vinv e hist -> crew e !! i = Some w -> w <> Exited -> vworker w' ->
  (forall l, stored ev ++ held_of w' ++ l ≡ₚ held_of w ++ l) -> queued ev = [] -> lost ev = [] ->
  (leaving w' -> drainDone e = true /\ submitted e = []) -> (drains w' -> drainDone e = true) -> EvShutdown true None ∉ ev ->
  vinv (set_worker i w' e) (hist ++ ev).
Proof.
  intros Hv Hi Hw Hv' Hcount Hq Hl Hlv Hdw Hev. rewrite <-(set_submitted_same e).
  apply (vinv_worker e hist i w w' (submitted e) None ev); [done..| |done|by rewrite Hl|done|done|done|done].
  intros l. rewrite Hl. cbn. specialize (Hcount l). rewrite <-Hcount. solve_Permutation.
Qed.

(** What [storeBatch] returns to. *)
Lemma returned_worker k (err : option error) : k <> ToDurable ->
  let w := match k, err with
           | ToDurable, Some _ => Exited | ToDurable, None => Claiming | ToLoop dr, _ => Receiving [] [] dr | ToExit, _ => Exited
           end : worker T in
  vworker w /\ held_of w = [] /\ (leaving w -> k = ToExit) /\ (drains w -> k = ToLoop true).
Proof. by destruct k as [|[|]|], err. Qed.

Lemma vinv_store e hist i r e' ev : vinv e hist -> storeBatch i r e = Some (e', ev) -> vinv e' (hist ++ ev).
Proof.
  intros Hv. unfold storeBatch. destruct (crew e !! i) as [[| | |k items offs n| | |]|] eqn:Hi; try done.
  pose proof (v_crew _ _ Hv) as Hcr. rewrite list.Forall_lookup in Hcr. pose proof (Hcr _ _ Hi) as Hk. cbn in Hk.
  destruct (v_log _ _ Hv) as [-> _]. pose proof (list_elem_of_lookup_2 _ _ _ Hi) as Hin.
  assert (k = ToExit -> drainDone e = true /\ submitted e = []) as Hex by (intros ->; by apply (v_leaving _ _ Hv _ Hin)).
  assert (k = ToLoop true -> drainDone e = true) as Hlo by (intros ->; by apply (v_drains _ _ Hv _ Hin)).
  destruct r as [err|].
  - destruct (cancelled e || _) eqn:Hg; intros [= <- <-].
    + destruct (returned_worker k (Some err) Hk) as (Hw & Hh & Hlv & Hdw). unfold store_returned.
      rewrite <-(set_submitted_same (set_lastError err e)).
      apply (vinv_worker e hist i (Storing k items offs n) _ (submitted e) (Some err)); [done..| |done|done|auto|auto|done|no_shutdown].
      intros l. rewrite Hh. unfold stored, lost. cbn. rewrite app_nil_r. solve_Permutation.
    + eapply vinv_worker_quiet; [done|done|done|done|done|done|done| | |no_shutdown]; cbn; intros Hl; [apply Hex|apply Hlo];
        by destruct k as [|[|]|].
  - intros [= <- <-]. destruct (returned_worker k None Hk) as (Hw & Hh & Hlv & Hdw). unfold store_returned.
    eapply vinv_worker_quiet; [done|done|done|done| |done|done|auto|auto|no_shutdown].
    intros l. rewrite Hh. unfold stored. cbn. rewrite app_nil_r. done.
Qed.

(** The [flush] of a worker that received [batch]; the queue is now [q]. *)
Lemma vinv_flush e hist i batch0 offs0 dr k batch offs q :
  vinv e hist -> crew e !! i = Some (Receiving batch0 offs0 dr) -> k <> ToDurable ->
  (forall l, (item <$> q) ++ batch ++ l ≡ₚ (item <$> submitted e) ++ batch0 ++ l) ->
  (k = ToExit -> drainDone e = true /\ q = []) -> (k = ToLoop true -> drainDone e = true) -> (submitted e = [] -> q = []) ->
  vinv (flush i k batch offs (set_submitted q e)) (hist ++ []).
Proof.
  intros Hv Hi Hk Hcount Hex Hlo Hq. unfold flush. destruct batch as [|x batch].
  - destruct (returned_worker k None Hk) as (Hw & Hh & Hlv & Hdw). unfold store_returned.
    apply (vinv_worker e hist i (Receiving batch0 offs0 dr) _ q None); [done..| |done|done|auto|auto|done|apply not_elem_of_nil].
    intros l. rewrite Hh. specialize (Hcount l). by rewrite <-Hcount.
  - apply (vinv_worker e hist i (Receiving batch0 offs0 dr) (Storing k (x :: batch) offs 0) q None); [done..|done|done| | |done|apply not_elem_of_nil];
      cbn; intros Hl; [apply Hex|apply Hlo]; by destruct k as [|[|]|].
Qed.

Lemma vinv_retry e hist i e' ev : vinv e hist -> store_retry i e = Some (e', ev) -> vinv e' (hist ++ ev).
Proof.
  intros Hv. unfold store_retry. destruct (crew e !! i) as [[| | | |k items offs n| |]|] eqn:Hi; try done. intros [= <- <-].
  pose proof (v_crew _ _ Hv) as Hcr. rewrite list.Forall_lookup in Hcr. pose proof (Hcr _ _ Hi) as Hk.
  pose proof (list_elem_of_lookup_2 _ _ _ Hi) as Hin.
  eapply vinv_worker_quiet; [done|done|done|done|done|done|done| | |apply not_elem_of_nil]; intros Hl;
    [by apply (v_leaving _ _ Hv _ Hin)|by apply (v_drains _ _ Hv _ Hin)].
Qed.

Lemma vinv_receive e hist i e' ev : vinv e hist -> worker_receive i e = Some (e', ev) -> vinv e' (hist ++ ev).
Proof.
  intros Hv. unfold worker_receive. destruct (crew e !! i) as [[| |batch offs dr| | | |]|] eqn:Hi; try done.
  destruct (submitted e) as [|x q] eqn:Hq; [done|]. cbn [opts set_submitted]. intros [= <- <-].
  pose proof (list_elem_of_lookup_2 _ _ _ Hi) as Hin.
  assert (forall l, (item <$> q) ++ (batch ++ [item x]) ++ l ≡ₚ (item <$> submitted e) ++ batch ++ l) as Hcount
    by (intros l; rewrite Hq; cbn; solve_Permutation).
  destruct (batchSize (opts e) <=? _).
  - eapply vinv_flush; [done|done|done|done|done|intros [= ->]; by apply (v_drains _ _ Hv _ Hin)|congruence].
  - apply (vinv_worker e hist i (Receiving batch offs dr) _ q None);
      [done|done|done|done|exact Hcount|done|done|done|exact (v_drains _ _ Hv _ Hin)|congruence|apply not_elem_of_nil].
Qed.

Lemma vinv_volatile e hist l e' ev :
  vinv e hist -> match l with LFlush _ | LDrain _ | LEmpty _ => True | _ => False end ->
  step Encode Decode l e = Some (e', ev) -> vinv e' (hist ++ ev).
Proof.
  intros Hv. destruct l as [| | | | | | | | | | | | | | |i|i|i| | | | | | |]; try done; intros _; cbn [step].
  - unfold worker_tick. destruct (crew e !! i) as [[| |batch offs [|]| | | |]|] eqn:Hi; try done. intros [= <- <-].
    pose proof (vinv_flush e hist i batch offs false (ToLoop false) batch offs (submitted e) Hv Hi) as H.
    rewrite set_submitted_same in H. by apply H.
  - unfold worker_drain. destruct (crew e !! i) as [[| |batch offs [|]| | | |]|] eqn:Hi; try done.
    destruct (drainDone e) eqn:Hd; [|done]. intros [= <- <-].
    eapply vinv_worker_quiet; [done|done|done|done|done|done|done|done|done|apply not_elem_of_nil].
  - unfold worker_empty. destruct (crew e !! i) as [[| |batch offs [|]| | | |]|] eqn:Hi; try done.
    destruct (submitted e) eqn:Hq; [|done]. intros [= <- <-].
    pose proof (list_elem_of_lookup_2 _ _ _ Hi) as Hin. pose proof (v_drains _ _ Hv _ Hin I).
    pose proof (vinv_flush e hist i batch offs true ToExit batch offs (submitted e) Hv Hi) as H1.
    rewrite set_submitted_same in H1. by apply H1.
Qed.

Lemma held_none (c : list (worker T)) : Forall (fun w => held_of w = []) c -> concat (held_of <$> c) = [].
Proof. induction 1 as [|w c Hw _ IH]; [done|]. cbn. by rewrite Hw, IH. Qed.

Lemma vinv_start e hist env e' ev : vinv e hist -> Start Decode env e = Some (e', ev) -> vinv e' (hist ++ ev).
Proof.
  intros Hv. unfold Start. destruct (negb (lifecycle_free e)); [done|].
  destruct (closed e) eqn:Hcl; [intros [= <- <-]; apply vinv_observe; [done..|no_shutdown]|].
  destruct (started e) eqn:Hst; [intros [= <- <-]; apply vinv_observe; [done..|no_shutdown]|].
  assert (drainDone e = false) as Hd by (apply not_true_iff_false; intros [? _]%(v_sealed _ _ Hv); congruence).
  cbn [opts set_flags]. destruct (v_log _ _ Hv) as [Hlog Hwal]. rewrite Hwal. intros [= <- <-].
  apply (vinv_observe e hist [EvStart None]) in Hv; [|done..|no_shutdown].
  destruct Hv as [_ Ho Hc Hl Hcr Hur Hr Hse Hle Hds Hdr Hsl Hcle Hov].
  assert (ready e = false) as Hrd by (apply not_true_iff_false; intros [? _]%Hr; congruence).
  destruct (Hur Hrd) as (Hps & Hq & Hcrew). clear Hur Hr Hle Hds Hcr.
  assert (Forall (fun w : worker T => w = Receiving [] [] false) (repeat (Receiving [] [] false) (Z.to_nat (workers (opts e))))) as Hall.
  { apply list.Forall_forall. intros w Hw. by apply list_elem_of_In, repeat_spec in Hw. }
  rewrite list.Forall_forall in Hall.
  split; cbn [launch set_flags set_crew opts log submitted lastError crew ready started producers drainDone closed life].
  - done.
  - done.
  - rewrite Hc. unfold held. cbn [launch set_flags set_crew crew]. rewrite Hcrew, (held_none (repeat _ _)); [done|].
    apply list.Forall_forall. by intros w ->%Hall.
  - done.
  - apply list.Forall_forall. by intros w ->%Hall.
  - done.
  - intros _. split; [done|]. destruct Ho as (_ & _ & Hw & _). destruct (Z.to_nat (workers (opts e))) eqn:E; [lia|done].
  - congruence.
  - by intros w ->%Hall.
  - by intros w ->%Hall.
  - done.
  - intros E. specialize (Hsl E). congruence.
  - intros Hcoll. rewrite Hdr in Hd; [done|]. right; right. by exists [].
  - intros Hin. destruct (Hov Hin) as (_ & _ & E). rewrite Hdr in Hd; [done|auto].
Qed.

(** [Shutdown] moves on. *)
Lemma vinv_life e hist dn ca dr cl l ev :
  vinv e hist -> (cl = closed e \/ cl = true) -> (dr = drainDone e \/ dr = true) -> (dr = true -> cl = true /\ submit_free e = true) ->
  (l = Draining \/ l = Over \/ is_Some (collected l) -> dr = true) -> (l = Sealing -> cl = true) -> (collected l = Some [] -> all_exited e = true) ->
  queued ev = [] -> stored ev = [] -> lost ev = [] -> life e <> Over ->
  (EvShutdown true None ∈ ev -> all_exited e = true /\ lastError e = None /\ l = Over) ->
  vinv (set_life l (set_signals dn ca dr (set_flags (started e) (ready e) cl e))) (hist ++ ev).
Proof.
  intros [Hlog Ho Hc Hl Hcr Hur Hr Hse Hle Hds Hdr Hsl Hcle Hov] Hcl Hdd Hsealed Hd' Hsl' Hcoll Hq Hs Hlo Hno Hev.
  split; cbn [set_life set_signals set_flags opts log submitted lastError crew ready started producers drainDone closed life].
  - done.
  - done.
  - rewrite queued_app, stored_app, lost_app, Hq, Hs, Hlo, !app_nil_r. done.
  - rewrite lost_app, Hlo, app_nil_r. done.
  - done.
  - done.
  - done.
  - intros Hdt. destruct (Hsealed Hdt) as [? Hf]. split; [done|]. by rewrite submit_free_spec in *.
  - intros w Hw Hlw. destruct (Hle w Hw Hlw). destruct Hdd as [->| ->]; done.
  - intros w Hw Hlw. destruct Hdd as [->| ->]; [by eapply Hds|done].
  - done.
  - done.
  - done.
  - intros [Hin|Hin]%elem_of_app; [by destruct (Hov Hin) as (_ & _ & ?)|auto].
Qed.

Lemma set_life_eta (e : Engine T) l :
  set_life l e = set_life l (set_signals (done e) (cancelled e) (drainDone e) (set_flags (started e) (ready e) (closed e) e)).
Proof. by destruct e. Qed.

Lemma set_signals_eta (e : Engine T) l dn ca dr :
  set_life l (set_signals dn ca dr e) = set_life l (set_signals dn ca dr (set_flags (started e) (ready e) (closed e) e)).
Proof. by destruct e. Qed.

Lemma join_fold_Some errs a : exists b, fold_left (fun acc err => Errors.join acc (Some err)) errs (Some a) = Some b.
Proof. revert a. induction errs as [|x errs IH]; intros a; [by exists a|]. apply IH. Qed.

Lemma join_all_None errs : join_all errs = None -> errs = [].
Proof. destruct errs as [|x errs]; [done|]. unfold join_all. cbn. by destruct (join_fold_Some errs x) as [b ->]. Qed.

Lemma vinv_shutdown e hist l e' ev :
  vinv e hist ->
  match l with LShutdown | LSeal | LFinished | LExpired _ | LCount | LReturn => True | _ => False end ->
  step Encode Decode l e = Some (e', ev) -> vinv e' (hist ++ ev).
Proof.
  intros Hv. pose proof (v_sealed _ _ Hv) as Hse. pose proof (v_draining _ _ Hv) as Hdr.
  destruct l; try done; intros _; cbn [step].
  - unfold Shutdown_begin. destruct (lifecycle_free e) eqn:Hfree; [|done]. cbn [negb].
    destruct (closed e) eqn:Hcl; intros [= <- <-]; [apply vinv_observe; [done..|no_shutdown]|].
    assert (drainDone e = false) as Hd by (apply not_true_iff_false; intros [? _]%Hse; congruence).
    apply vinv_life; [done|auto|auto|congruence|by intros [?|[?|[? ?]]]|done..| |by intros ?%not_elem_of_nil].
    intros E. rewrite Hdr in Hd; [done|auto].
  - unfold Shutdown_seal. destruct (life e) eqn:Hlife; try done. destruct (submit_free e) eqn:Hf; [|done]. intros [= <- <-].
    rewrite set_signals_eta. apply vinv_life; [done|auto|auto| |auto|done..|congruence|by intros ?%not_elem_of_nil].
    split; [by apply (v_sealing _ _ Hv)|done].
  - unfold Shutdown_finished. destruct (life e) eqn:Hlife; try done. destruct (all_exited e) eqn:Hall; [|done]. intros [= <- <-].
    rewrite set_signals_eta. apply vinv_life; [done|auto|auto|done|auto|done..|congruence|by intros ?%not_elem_of_nil].
  - unfold Shutdown_expired. destruct (life e) eqn:Hlife; try done. intros [= <- <-].
    rewrite set_signals_eta. apply vinv_life; [done|auto|auto|done|auto|done..|congruence|by intros ?%not_elem_of_nil].
  - unfold Shutdown_count. destruct (v_log _ _ Hv) as [-> _]. destruct (life e) as [| | | |errs| | | |] eqn:Hlife; try done. intros [= <- <-].
    rewrite set_life_eta. apply vinv_life; [done|auto|auto|done| |done|intros [= ->]; apply (v_clean _ _ Hv); by rewrite ?Hlife|done..|congruence|by intros ?%not_elem_of_nil].
    intros _. apply Hdr. right; right. by rewrite ?Hlife.
  - unfold Shutdown_return. destruct (life e) as [| | | | | | |errs|] eqn:Hlife; try done. intros [= <- <-].
    rewrite set_life_eta. apply vinv_life; [done|auto|auto|done| |done..|congruence|].
    + intros _. apply Hdr. right; right. by rewrite ?Hlife.
    + intros E%list_elem_of_singleton. injection E as E. symmetry in E. apply join_all_None in E. apply app_nil in E as [-> El].
      split_and!; [apply (v_clean _ _ Hv); by rewrite ?Hlife|by destruct (lastError e)|done].
Qed.

(** The steps that need a log, or a worker of one. *)
Lemma vinv_no_log e hist l e' ev :
  vinv e hist -> step Encode Decode l e = Some (e', ev) ->
  ~ match l with
    | LLog _ | LClaim _ _ | LDrained _ | LWake _ | LTick _ | LAck _ _ | LRelease _ | LClose => True
    | _ => False
    end.
Proof.
  intros Hv Hs Hl. revert Hs. destruct (v_log _ _ Hv) as [Hlog _]. pose proof (v_crew _ _ Hv) as Hcr. rewrite list.Forall_lookup in Hcr.
  destruct l as [| | | | |l|i env|i|i|i| | |i rm|i| | | | | | | | | | |]; try done; clear Hl; cbn [step].
  - unfold log_step. by rewrite Hlog.
  - unfold durable_claim. rewrite Hlog. by destruct (crew e !! i) as [[]|].
  - unfold durable_drained. destruct (crew e !! i) as [[]|] eqn:Hi; try done. by apply Hcr in Hi.
  - unfold durable_wake. destruct (crew e !! i) as [[]|] eqn:Hi; try done. by apply Hcr in Hi.
  - unfold durable_tick. destruct (crew e !! i) as [[]|] eqn:Hi; try done. by apply Hcr in Hi.
  - unfold store_ack. rewrite Hlog. by destruct (crew e !! i) as [[| | | | |? []|]|].
  - unfold durable_release. destruct (crew e !! i) as [[]|] eqn:Hi; try done. by apply Hcr in Hi.
  - unfold Shutdown_close. rewrite Hlog. by destruct (life e).
Qed.

Lemma vinv_step l e hist e' ev : vinv e hist -> step Encode Decode l e = Some (e', ev) -> vinv e' (hist ++ ev).
Proof.
  intros Hv Hs. destruct l as [env|tid x|tid|tid|tid|l|i env|i|i|i|i r|i|i rm|i|i|i|i|i| | | |err| | |];
    try (by eapply vinv_shutdown; [exact Hv| |exact Hs]); try (by eapply vinv_volatile; [exact Hv| |exact Hs]); try (by destruct (vinv_no_log _ _ _ e' ev Hv Hs)).
  - by eapply vinv_start.
  - by eapply vinv_check.
  - by eapply vinv_admit.
  - cbn in Hs. unfold Enqueue_send in Hs. destruct (producers e !! tid) as [[|x|x]|] eqn:Hp; try done.
    destruct (has_room e); [|done]. eapply vinv_send; [done|done| |injection Hs as <- <-; reflexivity].
    apply not_true_iff_false. intros [_ Hf]%(v_sealed _ _ Hv). rewrite submit_free_spec in Hf.
    by destruct (Hf _ _ Hp) as [? [=]].
  - cbn in Hs. unfold Enqueue_done in Hs. destruct (producers e !! tid) as [[|x|x]|] eqn:Hp; try done.
    destruct (done e); [|done]. injection Hs as <- <-. rewrite <-(set_dropped_same e).
    eapply vinv_leave; [done|done|done..|no_shutdown].
  - by eapply vinv_store.
  - by eapply vinv_retry.
  - by eapply vinv_receive.
Qed.

Lemma vinv_new l d e : NewEngine true l d = inr e -> walEnabled (newOptions l) = false -> vinv e [].
Proof.
  unfold NewEngine. cbn [negb]. intros He Hw. rewrite Hw in He. injection He as <-.
  split; cbn; first [done|apply newOptions_ok|by intros ? ?%not_elem_of_nil|by intros ?%not_elem_of_nil|by intros [?|[?|[? ?]]]].
Qed.


End runs.

(** ** A queue in operation *)

(** A batch of two is retried once and stored; the third item waits for the
    drain. *)
Definition queue_options : list Option := [WithBatchSize 2; WithWorkers 1; WithRetryAttempts 1].
Definition queue_labels : list (label Z) :=
  [LStart WalTheorems.quiet_env; LCheck 0 10; LCheck 1 11; LAdmit 1; LAdmit 0; LReceive 0; LReceive 0;
   LStore 0 (Some (ErrNew "unavailable")); LCheck 0 12; LAdmit 0; LRetry 0; LStore 0 None; LShutdown; LCheck 0 13;
   LSeal; LReceive 0; LDrain 0; LEmpty 0; LStore 0 None; LFinished; LCount; LReturn].
Definition queue_events : list (event Z) :=
  [EvStart None; EvEnqueue 11 (inr Queued); EvEnqueue 10 (inr Queued);
   EvStore [zero_offset; zero_offset] [11; 10] (Some (ErrNew "unavailable")); EvEnqueue 12 (inr Queued);
   EvStore [zero_offset; zero_offset] [11; 10] None; EvEnqueue 13 (inl ErrEngineClosed);
   EvStore [zero_offset] [12] None; EvShutdown true None].


End DispatchQueue.
