(* ===== verification/DispatchCrew.v ===== *)
(** * The workers of a dispatcher with a log

    What the workers hold of the log: the records a worker claimed are those it
    was told of, are in the in-flight set and in nobody else's hands; an offset
    is acknowledged only after a call of the sink with its item returned nil;
    and no offset is stored twice. *)

From S2P Require Import Prelude Wal WalRun WalHistory WalSystem Dispatch.
From Stdlib Require Import Strings.Byte.

Module DispatchCrew.
Import Wal WalRun WalHistory Dispatch.

Section crew.
Context {T : Type} (Decode : bytes -> error + T) (batch : nat).
Implicit Types (c : list (worker T)) (fl : gset Offset) (wh : list WalSystem.event) (hist : list (event T)).

(** The item [x] was handed to the sink with offset [off] and stored. *)
Definition delivered hist (off : Offset) (x : T) : Prop :=
  exists offs items i, EvStore offs items None ∈ hist /\ offs !! i = Some off /\ items !! i = Some x.

Definition offsets_of (ev : event T) : list Offset := match ev with EvStore offs _ None => offs | _ => [] end.
Definition stored_offsets hist : list Offset := concat (offsets_of <$> hist).

(** Record [off] of the log decodes to [x]. *)
Definition carries wh (off : Offset) (x : T) : Prop := exists p, told wh off p /\ Decode p = inr x.

(** What a worker claimed, and what of it is still to be stored. *)
Definition claims_of (w : worker T) : list Offset :=
  match w with Storing _ _ offs _ | Backoff _ _ offs _ | Acking offs _ => offs | _ => [] end.
Definition unstored_of (w : worker T) : list Offset :=
  match w with Storing _ _ offs _ | Backoff _ _ offs _ => offs | _ => [] end.
Definition weight (w : worker T) : nat :=
  match w with
  | Storing _ _ offs _ | Backoff _ _ offs _ | Acking offs _ => length offs
  | Exited => batch
  | _ => 0
  end.

Definition worker_ok wh hist (w : worker T) : Prop :=
  match w with
  | Claiming | Waiting | Exited => True
  | Receiving _ _ _ => False
  | Storing k items offs _ | Backoff k items offs _ =>
      k = ToDurable /\ Forall2 (carries wh) offs items /\ (length offs <= batch)%nat
  | Acking offs rest =>
      suffix rest offs /\ Forall (fun off => exists x, carries wh off x /\ delivered hist off x) offs /\ (length offs <= batch)%nat
  end.

Record crew_ok c fl wh hist : Prop := {
  cr_workers : Forall (worker_ok wh hist) c;
  cr_claims : NoDup (concat (claims_of <$> c));
  cr_inflight : forall off, off ∈ concat (claims_of <$> c) -> off ∈ fl;
  cr_size : (base.size fl <= sum_list_with weight c)%nat;
  cr_acked : forall off, acked_in wh off -> exists x, carries wh off x /\ delivered hist off x;
  cr_once : NoDup (stored_offsets hist ++ concat (unstored_of <$> c));
  cr_stored : forall off, off ∈ stored_offsets hist ->
    acked_in wh off \/ exists i offs rest, c !! i = Some (Acking offs rest) /\ off ∈ rest
}.

Lemma delivered_app hist ev off x : delivered hist off x -> delivered (hist ++ ev) off x.
Proof. intros (offs & items & i & Hin & ?). exists offs, items, i. split; [apply elem_of_app; by left|done]. Qed.

Lemma carries_app wh ev off x : carries wh off x -> carries (wh ++ ev) off x.
Proof. intros (p & ? & ?). exists p. split; [by apply told_weaken|done]. Qed.

Lemma worker_ok_app wh ev hist ev' w : worker_ok wh hist w -> worker_ok (wh ++ ev) (hist ++ ev') w.
Proof.
  destruct w as [| | |k items offs n|k items offs n|offs rest|]; cbn; try done.
  - intros (? & HF & ?). split_and!; [done| |done]. eapply Forall2_impl; [done|]. intros. by apply carries_app.
  - intros (? & HF & ?). split_and!; [done| |done]. eapply Forall2_impl; [done|]. intros. by apply carries_app.
  - intros (? & HF & ?). split_and!; [done| |done]. eapply Forall_impl; [done|]. intros off (x & ? & ?).
    exists x. split; [by apply carries_app|by apply delivered_app].
Qed.

Lemma stored_offsets_app a b : stored_offsets (a ++ b) = stored_offsets a ++ stored_offsets b.
Proof. unfold stored_offsets. by rewrite fmap_app, concat_app. Qed.

(** Observations that store and acknowledge nothing. *)
Lemma crew_observe c fl wh hist ev ev' :
  crew_ok c fl wh hist -> (forall off, WalSystem.EvAck off ∉ ev) -> stored_offsets ev' = [] -> crew_ok c fl (wh ++ ev) (hist ++ ev').
Proof.
  intros [Hw Hc Hi Hs Ha Ho Hst] Hev Hev'.
  assert (forall off, acked_in (wh ++ ev) off -> acked_in wh off) as Hback
    by (intros off [?|H]%elem_of_app; [done|by destruct (Hev off)]).
  split; [|done|done|done| | |].
  - eapply Forall_impl; [done|]. intros w. apply worker_ok_app.
  - intros off (x & ? & ?)%Hback%Ha. exists x. split; [by apply carries_app|by apply delivered_app].
  - by rewrite stored_offsets_app, Hev', app_nil_r.
  - rewrite stored_offsets_app, Hev', app_nil_r. intros off [?|?]%Hst; [left|by right]. apply elem_of_app. by left.
Qed.

(** A worker changes its state, keeping its claims. *)
Lemma crew_same c fl wh hist i w w' :
  crew_ok c fl wh hist -> c !! i = Some w -> worker_ok wh hist w' -> claims_of w' = claims_of w ->
  unstored_of w' = unstored_of w -> (weight w <= weight w')%nat -> (forall offs rest, w <> Acking offs rest) ->
  crew_ok (<[i := w']> c) fl wh hist.
Proof.
  intros [Hw Hc Hi Hs Ha Ho Hst] Hl Hok Ecl Eun Hwt Hna.
  destruct (concat_fmap_insert claims_of c i w w' Hl) as (k & E1 & E2). rewrite Ecl in E2.
  destruct (concat_fmap_insert unstored_of c i w w' Hl) as (k' & E3 & E4). rewrite Eun in E4.
  destruct (sum_list_insert weight c i w w' Hl) as (m & E5 & E6).
  split.
  - by apply Forall_insert.
  - by rewrite E2, <-E1.
  - intros off. rewrite E2, <-E1. apply Hi.
  - lia.
  - done.
  - by rewrite E4, <-E3.
  - intros off [?|(j & offs & rest & Hj & ?)]%Hst; [by left|right]. exists j, offs, rest. split; [|done].
    rewrite list_lookup_insert_ne; [done|]. intros ->. rewrite Hl in Hj. injection Hj as ->. by destruct (Hna offs rest).
Qed.

(** A worker returns with what it claimed still in flight. *)
Lemma crew_exit c fl wh hist i w :
  crew_ok c fl wh hist -> c !! i = Some w -> (forall offs rest, w <> Acking offs rest) -> crew_ok (<[i := Exited]> c) fl wh hist.
Proof.
  intros [Hw Hc Hi Hs Ha Ho Hst] Hl Hna.
  destruct (concat_fmap_insert claims_of c i w Exited Hl) as (k & E1 & E2).
  destruct (concat_fmap_insert unstored_of c i w Exited Hl) as (k' & E3 & E4).
  destruct (sum_list_insert weight c i w Exited Hl) as (m & E5 & E6).
  rewrite list.Forall_lookup in Hw. pose proof (Hw _ _ Hl) as Hok.
  split.
  - apply Forall_insert; [by apply list.Forall_lookup|done].
  - rewrite E2. rewrite E1 in Hc. by apply NoDup_app in Hc as (_ & _ & ?).
  - intros off. rewrite E2. intros Hin. apply Hi. rewrite E1. apply elem_of_app. by right.
  - assert (weight w <= batch)%nat by (destruct w; cbn in *; lia || tauto). cbn [weight] in *. lia.
  - done.
  - rewrite E4. rewrite E3 in Ho. cbn. apply NoDup_app in Ho as (? & Hd & Hn). apply NoDup_app in Hn as (_ & _ & ?).
    apply NoDup_app. split_and!; [done| |done]. intros off Hin Hin'. apply (Hd off Hin). apply elem_of_app. by right.
  - intros off [?|(j & offs & rest & Hj & ?)]%Hst; [by left|right]. exists j, offs, rest. split; [|done].
    rewrite list_lookup_insert_ne; [done|]. intros ->. rewrite Hl in Hj. injection Hj as ->. by destruct (Hna offs rest).
Qed.

Lemma unstored_claimed c off : off ∈ concat (unstored_of <$> c) -> off ∈ concat (claims_of <$> c).
Proof.
  rewrite !list_elem_of_In, !in_concat. setoid_rewrite <-list_elem_of_In. setoid_rewrite list_elem_of_fmap.
  intros (l & (w & -> & Hw) & Hin). exists (claims_of w). split; [eauto|]. destruct w; try done; by apply not_elem_of_nil in Hin.
Qed.

Lemma acking_claimed c i offs rest off : c !! i = Some (Acking offs rest) -> off ∈ offs -> off ∈ concat (claims_of <$> c).
Proof.
  intros Hi Hoff. apply list_elem_of_In, in_concat. exists offs. split; [|by apply list_elem_of_In].
  apply list_elem_of_In, list_elem_of_fmap. exists (Acking offs rest). split; [done|]. by eapply list_elem_of_lookup_2.
Qed.

(** What was stored is acknowledged or in flight. *)
Lemma stored_inflight c fl wh hist off :
  crew_ok c fl wh hist -> off ∈ stored_offsets hist -> acked_in wh off \/ off ∈ fl.
Proof.
  intros Hok [?|(i & offs & rest & Hi & Hin)]%(cr_stored _ _ _ _ Hok); [by left|right].
  apply (cr_inflight _ _ _ _ Hok). eapply acking_claimed; [done|].
  pose proof (cr_workers _ _ _ _ Hok) as Hw. rewrite list.Forall_lookup in Hw. destruct (Hw _ _ Hi) as [[pre ->] _].
  apply elem_of_app. by right.
Qed.

(** A worker claims the records at [rs], and goes on to store them or returns. *)
Lemma crew_claim c fl wh hist i w rs :
  crew_ok c fl wh hist -> c !! i = Some Claiming -> NoDup rs -> (forall off, off ∈ rs -> off ∉ fl /\ ~ acked_in wh off) ->
  worker_ok wh hist w -> (length rs <= weight w)%nat ->
  claims_of w = rs /\ unstored_of w = rs \/ claims_of w = [] /\ unstored_of w = [] ->
  crew_ok (<[i := w]> c) (fl ∪ list_to_set rs) wh hist.
Proof.
  intros Hok Hl Hnd Hnew Hw' Hwt Hcl. pose proof Hok as [Hw Hc Hi Hs Ha Ho Hst].
  destruct (concat_fmap_insert claims_of c i _ w Hl) as (k & E1 & E2).
  destruct (concat_fmap_insert unstored_of c i _ w Hl) as (k' & E3 & E4).
  destruct (sum_list_insert weight c i _ w Hl) as (m & E5 & E6). cbn in E1, E3, E5.
  assert (NoDup (claims_of w) /\ (forall off, off ∈ claims_of w -> off ∈ rs)) as [Hndc Hsub].
  { destruct Hcl as [[-> _]|[-> _]]; [done|]. split; [constructor|by intros off ?%not_elem_of_nil]. }
  assert (NoDup (unstored_of w) /\ (forall off, off ∈ unstored_of w -> off ∈ rs)) as [Hndu Hsubu].
  { destruct Hcl as [[_ ->]|[_ ->]]; [done|]. split; [constructor|by intros off ?%not_elem_of_nil]. }
  split.
  - by apply Forall_insert.
  - rewrite E2. apply NoDup_app. split_and!; [done| |by rewrite <-E1]. intros off Hin Hin'.
    destruct (Hnew off (Hsub off Hin)) as [Hn _]. apply Hn, Hi. by rewrite E1.
  - intros off. rewrite E2. intros [?|Hin]%elem_of_app; apply elem_of_union; [right|left].
    + apply elem_of_list_to_set. auto.
    + apply Hi. by rewrite E1.
  - rewrite size_union, size_list_to_set; [lia|done|]. intros off Hin Hin'%elem_of_list_to_set. by destruct (Hnew off Hin').
  - done.
  - rewrite E4, (Permutation_app_swap_app _ (unstored_of w)). apply NoDup_app. split_and!; [done| |by rewrite <-E3].
    intros off Hin%Hsubu [Hin'|Hin']%elem_of_app; destruct (Hnew off Hin) as [Hn Hna].
    + by destruct (stored_inflight c fl wh hist off Hok Hin').
    + apply Hn, Hi, unstored_claimed. by rewrite E3.
  - intros off [?|(j & offs & rest & Hj & ?)]%Hst; [by left|right]. exists j, offs, rest. split; [|done].
    rewrite list_lookup_insert_ne; [done|]. intros ->. congruence.
Qed.

(** The sink stored the batch of a worker. *)
Lemma crew_stored c fl wh hist i k items offs n :
  crew_ok c fl wh hist -> c !! i = Some (Storing k items offs n) ->
  crew_ok (<[i := Acking offs offs]> c) fl wh (hist ++ [EvStore offs items None]).
Proof.
  intros [Hw Hc Hi Hs Ha Ho Hst] Hl.
  destruct (concat_fmap_insert claims_of c i _ (Acking offs offs) Hl) as (k1 & E1 & E2).
  destruct (concat_fmap_insert unstored_of c i _ (Acking offs offs) Hl) as (k2 & E3 & E4).
  destruct (sum_list_insert weight c i _ (Acking offs offs) Hl) as (m & E5 & E6). cbn [claims_of unstored_of weight] in *.
  rewrite list.Forall_lookup in Hw. destruct (Hw _ _ Hl) as (-> & HF & Hle).
  assert (stored_offsets (hist ++ [EvStore offs items None]) = stored_offsets hist ++ offs) as Est
    by (rewrite stored_offsets_app; unfold stored_offsets; cbn; by rewrite app_nil_r).
  split.
  - apply Forall_insert.
    + apply list.Forall_lookup. intros j w Hj. rewrite <-(app_nil_r wh). apply worker_ok_app. eauto.
    + cbn. split_and!; [done| |done]. apply list.Forall_lookup. intros j off Hj.
      destruct (Forall2_lookup_l _ _ _ _ _ HF Hj) as (x & Hx & Hcar). exists x. split; [done|].
      exists offs, items, j. split_and!; [apply elem_of_app; right; by left|done|done].
  - by rewrite E2, <-E1.
  - intros off. rewrite E2, <-E1. apply Hi.
  - lia.
  - intros off (x & ? & ?)%Ha. exists x. split; [done|by apply delivered_app].
  - rewrite Est, E4. cbn. rewrite E3 in Ho. by rewrite <-app_assoc.
  - intros off. rewrite Est. intros [Hin|Hin]%elem_of_app.
    + apply Hst in Hin as [?|(j & offs' & rest & Hj & ?)]; [by left|right]. exists j, offs', rest. split; [|done].
      rewrite list_lookup_insert_ne; [done|]. intros ->. congruence.
    + right. exists i, offs, offs. split; [|done]. apply list_lookup_insert_eq. by eapply lookup_lt_Some.
Qed.

(** A worker acknowledges a record of its stored batch. *)
Lemma crew_ack c fl wh hist i offs off rest :
  crew_ok c fl wh hist -> c !! i = Some (Acking offs (off :: rest)) ->
  crew_ok (<[i := Acking offs rest]> c) fl (wh ++ [WalSystem.EvAck off]) hist.
Proof.
  intros [Hw Hc Hi Hs Ha Ho Hst] Hl.
  destruct (concat_fmap_insert claims_of c i _ (Acking offs rest) Hl) as (k1 & E1 & E2).
  destruct (concat_fmap_insert unstored_of c i _ (Acking offs rest) Hl) as (k2 & E3 & E4).
  destruct (sum_list_insert weight c i _ (Acking offs rest) Hl) as (m & E5 & E6). cbn [claims_of unstored_of weight] in *.
  rewrite list.Forall_lookup in Hw. destruct (Hw _ _ Hl) as ([pre Hpre] & HF & Hle).
  split.
  - rewrite <-(app_nil_r hist). apply Forall_insert; [apply list.Forall_lookup; intros j w Hj; apply worker_ok_app; eauto|].
    apply worker_ok_app. split_and!; [|done|done]. exists (pre ++ [off]). by rewrite <-app_assoc.
  - by rewrite E2, <-E1.
  - intros o. rewrite E2, <-E1. apply Hi.
  - lia.
  - intros o [Ho'|Ho'%list_elem_of_singleton]%elem_of_app.
    + destruct (Ha o Ho') as (x & ? & ?). exists x. split; [by apply carries_app|done].
    + injection Ho' as ->. rewrite list.Forall_forall in HF. destruct (HF off) as (x & ? & ?).
      { rewrite Hpre. apply elem_of_app. right. by left. }
      exists x. split; [by apply carries_app|done].
  - by rewrite E4, <-E3.
  - intros o [?|(j & offs' & rest' & Hj & Hin)]%Hst; [left; apply elem_of_app; by left|].
    destruct (decide (j = i)) as [->|Hne].
    + rewrite Hl in Hj. injection Hj as <- <-. apply elem_of_cons in Hin as [->|Hin]; [left; apply elem_of_app; right; by left|right].
      exists i, offs, rest. split; [|done]. apply list_lookup_insert_eq. by eapply lookup_lt_Some.
    + right. exists j, offs', rest'. by rewrite list_lookup_insert_ne.
Qed.

(** A worker that acknowledged its batch gives it back. *)
Lemma crew_release c fl wh hist i offs :
  crew_ok c fl wh hist -> c !! i = Some (Acking offs []) -> crew_ok (<[i := Claiming]> c) (fl ∖ list_to_set offs) wh hist.
Proof.
  intros [Hw Hc Hi Hs Ha Ho Hst] Hl.
  destruct (concat_fmap_insert claims_of c i _ Claiming Hl) as (k1 & E1 & E2).
  destruct (concat_fmap_insert unstored_of c i _ Claiming Hl) as (k2 & E3 & E4).
  destruct (sum_list_insert weight c i _ Claiming Hl) as (m & E5 & E6). cbn [claims_of unstored_of weight] in *.
  rewrite E1 in Hc. apply NoDup_app in Hc as (Hnd & Hdisj & Hnd').
  split.
  - by apply Forall_insert.
  - by rewrite E2.
  - intros off. rewrite E2. cbn. intros Hin. apply elem_of_difference. split.
    + apply Hi. rewrite E1. apply elem_of_app. by right.
    + rewrite elem_of_list_to_set. intros Hin'. by apply (Hdisj off).
  - rewrite size_difference.
    + rewrite size_list_to_set by done. lia.
    + intros off Hin%elem_of_list_to_set. apply Hi. rewrite E1. apply elem_of_app. by left.
  - done.
  - by rewrite E4, <-E3.
  - intros off [?|(j & offs' & rest & Hj & Hin)]%Hst; [by left|]. right. exists j, offs', rest. split; [|done].
    rewrite list_lookup_insert_ne; [done|]. intros ->. rewrite Hl in Hj. injection Hj as <- <-. by apply not_elem_of_nil in Hin.
Qed.

End crew.

End DispatchCrew.
