(* ===== verification/DispatchLog.v ===== *)
(** * The dispatcher on top of the log

    The invariant of an engine with a log, with the log's own run as a witness:
    every step of the engine is at most one step of the log, its
    acknowledgements are of records it was told of, and each [Enqueue] that
    waits for the log is one of the log's [Append] calls. *)

From S2P Require Import Prelude Wal WalRun WalHistory WalSystem WalTheorems Dispatch DispatchQueue DispatchCrew.
From Stdlib Require Import Strings.Byte.

Module DispatchLog.
Import Wal WalRun WalHistory WalTheorems Dispatch DispatchQueue DispatchCrew.

(** ** The calls of the log *)

Definition payload_of (c : WalSystem.call) : bytes :=
  match c with WalSystem.CLock p _ | WalSystem.CWait p _ _ _ => p end.

(** An event that concerns no [Append], acknowledgement or read. *)
Definition background (ev : WalSystem.event) : Prop :=
  match ev with WalSystem.EvSync _ | WalSystem.EvClose _ => True | _ => False end.

(** What an internal step does to the [Append] calls: one of them goes on, one
    returns, or none is concerned. *)
Lemma internal_calls l s s' ev :
  internal l = true -> WalSystem.step l s = Some (s', ev) ->
  (exists tid c c', WalSystem.calls s !! tid = Some c /\ payload_of c' = payload_of c /\
     WalSystem.calls s' = <[tid := c']> (WalSystem.calls s) /\ ev = []) \/
  (exists tid c r, (l = WalSystem.LAppendAdd tid \/ l = WalSystem.LAppendReturn tid) /\ WalSystem.calls s !! tid = Some c /\
     WalSystem.calls s' = delete tid (WalSystem.calls s) /\ ev = [WalSystem.EvAppend (payload_of c) r]) \/
  (WalSystem.calls s' = WalSystem.calls s /\ (ev = [] \/ exists e, ev = [e] /\ background e)).
Proof.
  intros Hint Hstep.
  destruct l as [tid p|tid|tid reuse|serr cerr oerr rm|k| |err terr kerr|tid|off rm|env limit skip|serr|final|serr| | |serr cerr rerr];
    try done; cbn [WalSystem.step] in Hstep.
  - unfold WalSystem.append_add in Hstep. destruct (WalSystem.calls s !! tid) as [[p crc|]|] eqn:Ht; [|done..].
    destruct (WalSystem.wmu_free s); [|done]. destruct (Wal.closed (WalSystem.wal s) || _).
    + injection Hstep as <- <-. right; left. exists tid, (WalSystem.CLock p crc), (inl ErrClosed). auto.
    + destruct (_ !! cur (WalSystem.wal s)); [|done]. destruct (batch_add p crc a) as [b idx]. injection Hstep as <- <-.
      left. eexists tid, _, _. split_and!; [done| |reflexivity|done]. done.
  - unfold WalSystem.flush_start, WalSystem.getAppendBatch in Hstep. right; right. repeat case_match; simplify_eq; cbn; auto.
  - unfold WalSystem.flush_scan in Hstep. right; right. repeat case_match; simplify_eq; cbn; auto.
  - apply fmap_Some in Hstep as (s1 & Hstep & [= -> ->]). unfold WalSystem.write_bytes in Hstep. right; right. repeat case_match; simplify_eq; cbn; auto.
  - unfold WalSystem.write_done, WalSystem.write_bytes in Hstep. right; right. repeat case_match; simplify_eq; cbn; auto.
  - unfold WalSystem.write_fail in Hstep. right; right. repeat case_match; simplify_eq; cbn; auto.
  - unfold WalSystem.append_return in Hstep. destruct (WalSystem.calls s !! tid) as [[|p bi gen idx]|] eqn:Ht; [done| |done].
    destruct (WalSystem.wmu_free s); [|done]. destruct (_ <? gen); [done|]. destruct (_ !! bi); [|done].
    destruct (offs a !! idx); [|done]. destruct (errs a !! idx) as [err|]; [|done].
    destruct (if refs _ =? 0 then _ else _) as [b2 pl]. injection Hstep as <- <-. right; left.
    exists tid, (WalSystem.CWait p bi gen idx), (match err with Some e => inl e | None => inr o end). auto.
  - right; right. repeat case_match; simplify_eq; cbn. split; [done|]. right. eexists. split; [reflexivity|done].
  - unfold WalSystem.fsync_tick in Hstep. right; right. repeat case_match; simplify_eq; cbn; auto.
  - unfold WalSystem.fsync_sync in Hstep. right; right. repeat case_match; simplify_eq; cbn; auto.
  - unfold WalSystem.close_mark in Hstep. right; right. repeat case_match; simplify_eq; cbn; auto.
  - unfold WalSystem.close_end in Hstep. right; right. repeat case_match; simplify_eq; cbn. split; [done|]. right. eexists. split; [reflexivity|done].
Qed.

Ltac still_open H :=
  repeat case_match; simplify_eq; cbn;
  (split; [done|split; [done|intros ? Hev; by first [apply not_elem_of_nil in Hev|apply list_elem_of_singleton in Hev]]]).

(** A log on which nobody called [Close] stays open. *)
Lemma stays_open l s s' ev :
  l <> WalSystem.LCloseBegin -> WalSystem.step l s = Some (s', ev) -> WalSystem.closer s = WalSystem.COpen ->
  WalSystem.closer s' = WalSystem.COpen /\ Wal.closed (WalSystem.wal s') = Wal.closed (WalSystem.wal s) /\
  forall r, WalSystem.EvClose r ∉ ev.
Proof.
  intros Hl Hstep Hc.
  destruct l as [tid p|tid|tid reuse|serr cerr oerr rm|k| |err terr kerr|tid|off rm|env limit skip|serr|final|serr| | |serr cerr rerr];
    try done; cbn [WalSystem.step] in Hstep.
  - unfold WalSystem.append_start in Hstep. still_open Hstep.
  - unfold WalSystem.append_add in Hstep. still_open Hstep.
  - unfold WalSystem.flush_start, WalSystem.getAppendBatch in Hstep. still_open Hstep.
  - unfold WalSystem.flush_scan, sealActiveLocked, openNewActiveLocked in Hstep. still_open Hstep.
  - apply fmap_Some in Hstep as (s1 & Hstep & [= -> ->]). unfold WalSystem.write_bytes in Hstep. still_open Hstep.
  - unfold WalSystem.write_done, WalSystem.write_bytes in Hstep. still_open Hstep.
  - unfold WalSystem.write_fail in Hstep. still_open Hstep.
  - unfold WalSystem.append_return in Hstep. still_open Hstep.
  - unfold Ack in Hstep. still_open Hstep.
  - unfold ReadPending in Hstep. still_open Hstep.
  - still_open Hstep.
  - unfold WalSystem.fsync_tick in Hstep. still_open Hstep.
  - unfold WalSystem.fsync_sync, fsyncOnce in Hstep. still_open Hstep.
  - unfold WalSystem.close_mark in Hstep. by rewrite Hc in Hstep.
  - unfold WalSystem.close_end in Hstep. by rewrite Hc in Hstep.
Qed.

(** ** The invariant *)

Section durable.
Context {T : Type} (Encode : T -> error + bytes) (Decode : bytes -> error + T) (d : disk) (env : openEnv).
Implicit Types (e : Engine T) (s : WalSystem.sys) (wh : list WalSystem.event) (hist : list (event T)).

(** The items reported as logged, and that each of them was stored. *)
Definition logged hist (x : T) : Prop := EvEnqueue x (inr Logged) ∈ hist.
Definition all_delivered hist : Prop := forall x, logged hist x -> exists off, delivered hist off x.

(** [Shutdown] has not called [Close] yet. *)
Definition in_service (l : lifecycle) : Prop :=
  match l with Idle | Sealing | Draining | Counting _ | CallingClose _ => True | _ => False end.

(** The errors collected after the log's records were counted. *)
Definition counted (l : lifecycle) : option (list error) :=
  match l with CallingClose errs | Closing errs | Returning errs => Some errs | _ => None end.

Record life_ok e s hist : Prop := {
  li_sealed : drainDone e = true -> closed e = true /\ submit_free e = true;
  li_draining : life e = Draining \/ life e = Over \/ is_Some (collected (life e)) -> drainDone e = true;
  li_sealing : life e = Sealing -> closed e = true;
  li_running : forall err, life e <> StartClosing err;
  li_open : in_service (life e) -> WalSystem.closer s = WalSystem.COpen /\ Wal.closed (WalSystem.wal s) = false;
  li_clean : counted (life e) = Some [] -> all_delivered hist;
  li_over : EvShutdown true None ∈ hist -> drainDone e = true /\ all_delivered hist
}.

Record calls_ok e s wh hist : Prop := {
  ca_calls : forall tid c, WalSystem.calls s !! tid = Some c ->
    exists x, producers e !! tid = Some (PAppend x) /\ Encode x = inr (payload_of c);
  ca_logged : forall x, logged hist x -> exists off p, WalSystem.EvAppend p (inr off) ∈ wh /\ Encode x = inr p
}.

Record durable_ok (k : nat) e hist s ls wh : Prop := {
  du_log : log e = Some s;
  du_reach : reaches env (walDir (opts e)) (walOpts (opts e)) d ls s wh;
  du_steps : (length ls <= k)%nat;
  du_ready : ready e = true /\ started e = true;
  du_workers : length (crew e) = Z.to_nat (workers (opts e));
  du_calls : calls_ok e s wh hist;
  du_crew : crew_ok Decode (Z.to_nat (batchSize (opts e))) (crew e) (inFlight e) wh hist;
  du_life : life_ok e s hist
}.

(** An observation that neither logs an item nor ends [Shutdown] without an error. *)
Definition neutral (ev : event T) : Prop :=
  match ev with EvEnqueue _ (inr Logged) | EvShutdown true None => False | _ => True end.

Lemma neutral_logged hist ev x : Forall neutral ev -> logged (hist ++ ev) x -> logged hist x.
Proof. intros Hn [?|Hin]%elem_of_app; [done|]. rewrite list.Forall_forall in Hn. by apply Hn in Hin. Qed.

Lemma all_delivered_neutral hist ev : Forall neutral ev -> all_delivered hist -> all_delivered (hist ++ ev).
Proof. intros Hn Ha x Hx%(neutral_logged _ _ _ Hn). destruct (Ha x Hx) as [off ?]. exists off. by apply delivered_app. Qed.

Lemma neutral_over hist ev : Forall neutral ev -> EvShutdown true None ∈ hist ++ ev -> EvShutdown true None ∈ hist.
Proof. intros Hn [?|Hin]%elem_of_app; [done|]. rewrite list.Forall_forall in Hn. by apply Hn in Hin. Qed.

Lemma calls_neutral e e' s wh wh' hist ev :
  Forall neutral ev -> producers e' = producers e -> calls_ok e s wh hist -> calls_ok e' s (wh ++ wh') (hist ++ ev).
Proof.
  intros Hn Ep [Hc Hl]. split; [by rewrite Ep|]. intros x (off & p & ? & ?)%(neutral_logged _ _ _ Hn)%Hl.
  exists off, p. split; [apply elem_of_app; by left|done].
Qed.

(** What [life_ok] reads of the engine and of the log is unchanged. *)
Lemma life_neutral e e' s s' hist ev :
  Forall neutral ev -> drainDone e' = drainDone e -> closed e' = closed e -> life e' = life e ->
  (drainDone e = true -> submit_free e = true -> submit_free e' = true) ->
  (in_service (life e) -> WalSystem.closer s = WalSystem.COpen ->
     WalSystem.closer s' = WalSystem.COpen /\ Wal.closed (WalSystem.wal s') = Wal.closed (WalSystem.wal s)) ->
  life_ok e s hist -> life_ok e' s' (hist ++ ev).
Proof.
  intros Hn Ed Ec El Hfree Hopen [Hse Hdr Hsl Hrun Hop Hcl Hov]. split; rewrite ?Ed, ?Ec, ?El.
  - intros Hd. destruct (Hse Hd). auto.
  - done.
  - done.
  - done.
  - intros Hs. destruct (Hop Hs) as [Hc Hf]. destruct (Hopen Hs Hc) as [? ->]. done.
  - intros Hc. by apply all_delivered_neutral, Hcl.
  - intros Hin%(neutral_over _ _ Hn). destruct (Hov Hin). split; [done|]. by apply all_delivered_neutral.
Qed.

(** A step that leaves the producers, the flags and [Shutdown] alone; the log
    takes the steps [wls] and its callers observe [wev]. *)
Lemma durable_frame k e e' hist ev s ls wh s' wls wev :
  durable_ok k e hist s ls wh -> Forall neutral ev ->
  log e' = Some s' -> opts e' = opts e -> ready e' = ready e -> started e' = started e -> producers e' = producers e ->
  drainDone e' = drainDone e -> closed e' = closed e -> life e' = life e -> length (crew e') = length (crew e) ->
  reaches env (walDir (opts e)) (walOpts (opts e)) d (ls ++ wls) s' (wh ++ wev) -> (length wls <= 1)%nat ->
  WalSystem.calls s' = WalSystem.calls s ->
  (WalSystem.closer s = WalSystem.COpen ->
     WalSystem.closer s' = WalSystem.COpen /\ Wal.closed (WalSystem.wal s') = Wal.closed (WalSystem.wal s)) ->
  crew_ok Decode (Z.to_nat (batchSize (opts e))) (crew e') (inFlight e') (wh ++ wev) (hist ++ ev) ->
  durable_ok (S k) e' (hist ++ ev) s' (ls ++ wls) (wh ++ wev).
Proof.
  intros [Hlog Hr Hk Hrd Hw Hca Hcr Hli] Hn E1 E2 E3 E4 E5 E6 E7 E8 E9 Hr' Hone Ecalls Hopen Hcr'.
  split; rewrite ?E2, ?E3, ?E4, ?E9; [done|done|rewrite length_app; lia|done|done| |done|].
  - destruct (calls_neutral e e' s wh wev hist ev Hn E5 Hca) as [Hc Hl]. split; [by rewrite Ecalls|done].
  - apply (life_neutral e e' s s'); [done|done|done|done| |auto|done]. intros _. rewrite !submit_free_spec. by rewrite E5.
Qed.

(** The log takes no step. *)
Lemma durable_quiet k e e' hist ev s ls wh :
  durable_ok k e hist s ls wh -> Forall neutral ev ->
  log e' = log e -> opts e' = opts e -> ready e' = ready e -> started e' = started e -> producers e' = producers e ->
  drainDone e' = drainDone e -> closed e' = closed e -> life e' = life e -> length (crew e') = length (crew e) ->
  crew_ok Decode (Z.to_nat (batchSize (opts e))) (crew e') (inFlight e') wh (hist ++ ev) ->
  durable_ok (S k) e' (hist ++ ev) s ls wh.
Proof.
  intros Hd Hn E1 E2 E3 E4 E5 E6 E7 E8 E9 Hcr'. rewrite <-(app_nil_r ls), <-(app_nil_r wh).
  apply (durable_frame k e e' hist ev s ls wh s [] []); rewrite ?app_nil_r; try done; [by rewrite E1; apply Hd|apply Hd|cbn; lia].
Qed.

(** ** The workers *)

Lemma du_worker k e hist s ls wh i w :
  durable_ok k e hist s ls wh -> crew e !! i = Some w -> worker_ok Decode (Z.to_nat (batchSize (opts e))) wh hist w.
Proof. intros Hd Hi. pose proof (cr_workers _ _ _ _ _ _ (du_crew _ _ _ _ _ _ Hd)) as Hw. rewrite list.Forall_lookup in Hw. eauto. Qed.

Lemma length_set_worker i w e : length (crew (set_worker i w e)) = length (crew e).
Proof. cbn. apply length_insert. Qed.

Lemma notify_same e : log (notifyWorker e) = log e /\ opts (notifyWorker e) = opts e /\ ready (notifyWorker e) = ready e /\
  started (notifyWorker e) = started e /\ producers (notifyWorker e) = producers e /\ drainDone (notifyWorker e) = drainDone e /\
  closed (notifyWorker e) = closed e /\ life (notifyWorker e) = life e /\ crew (notifyWorker e) = crew e /\
  inFlight (notifyWorker e) = inFlight e.
Proof. unfold notifyWorker. by case_match. Qed.

(** The steps of a worker that do not touch the log. *)
Lemma durable_worker k e hist s ls wh l e' ev :
  durable_ok k e hist s ls wh ->
  match l with LDrained _ | LWake _ | LTick _ | LStore _ _ | LRetry _ | LRelease _ => True | _ => False end ->
  step Encode Decode l e = Some (e', ev) -> durable_ok (S k) e' (hist ++ ev) s ls wh.
Proof.
  intros Hd. pose proof (du_crew _ _ _ _ _ _ Hd) as Hcr. pose proof (du_log _ _ _ _ _ _ Hd) as Hlog.
  destruct l as [| | | | | | |i|i|i|i r|i| |i| | | | | | | | | | |]; try done; intros _; cbn [step].
  - unfold durable_drained. destruct (crew e !! i) as [[]|] eqn:Hi; try done. destruct (drainDone e); [|done]. intros [= <- <-].
    eapply (durable_quiet k e); [done|by apply Forall_nil|done..|apply length_insert|]. rewrite app_nil_r. by eapply crew_exit.
  - unfold durable_wake. destruct (crew e !! i) as [[]|] eqn:Hi; try done. destruct (0 <? wake e); [|done]. intros [= <- <-].
    eapply (durable_quiet k e); [done|by apply Forall_nil|done..|apply length_insert|]. rewrite app_nil_r. by eapply crew_same.
  - unfold durable_tick. destruct (crew e !! i) as [[]|] eqn:Hi; try done. intros [= <- <-].
    eapply (durable_quiet k e); [done|by apply Forall_nil|done..|apply length_insert|]. rewrite app_nil_r. by eapply crew_same.
  - unfold storeBatch. destruct (crew e !! i) as [[| | |kk items offs n| | |]|] eqn:Hi; try done. rewrite Hlog.
    destruct (du_worker _ _ _ _ _ _ _ _ Hd Hi) as (-> & HF & Hle). destruct r as [err|].
    + assert (forall ev1 w1, w1 = Exited \/ w1 = Backoff ToDurable items offs n -> stored_offsets ev1 = [] ->
        crew_ok Decode (Z.to_nat (batchSize (opts e))) (<[i := w1]> (crew e)) (inFlight e) wh (hist ++ ev1)) as Hgo.
      { intros ev1 w1 Hw1 Hev1. rewrite <-(app_nil_r wh). apply crew_observe; [|by intros ? ?%not_elem_of_nil|done].
        destruct Hw1 as [->| ->]; [by eapply crew_exit|by eapply crew_same]. }
      destruct (cancelled e || _); intros [= <- <-]; (eapply (durable_quiet k e); [done|by repeat constructor|done..|apply length_insert|]);
        cbn; apply Hgo; auto.
    + intros [= <- <-]. eapply (durable_quiet k e); [done|by repeat constructor|done..|apply length_insert|]. by eapply crew_stored.
  - unfold store_retry. destruct (crew e !! i) as [[| | | |kk items offs n| |]|] eqn:Hi; try done. intros [= <- <-].
    eapply (durable_quiet k e); [done|by apply Forall_nil|done..|apply length_insert|]. rewrite app_nil_r.
    eapply crew_same; [done|done|exact (du_worker _ _ _ _ _ _ _ _ Hd Hi)|done..].
  - unfold durable_release. destruct (crew e !! i) as [[| | | | |offs [|]|]|] eqn:Hi; try done. intros [= <- <-].
    destruct (notify_same (set_inFlight (inFlight e ∖ list_to_set offs) e)) as (E1 & E2 & E3 & E4 & E5 & E6 & E7 & E8 & E9 & E10).
    eapply (durable_quiet k e); [done|by apply Forall_nil|done..| |].
    + rewrite length_set_worker, E9. done.
    + cbn. rewrite E9, E10, app_nil_r. by eapply crew_release.
Qed.

(** The loop that decodes a batch. *)
Lemma decode_all_ok records items offs :
  decode_all Decode records = inr (items, offs) ->
  offs = r_Offset <$> records /\ Forall2 (fun r x => Decode (r_Payload r) = inr x) records items.
Proof.
  revert items offs. induction records as [|r records IH]; intros items offs; cbn; [intros [= <- <-]; by split|].
  destruct (Decode (r_Payload r)) as [err|x] eqn:Hx; [done|]. destruct (decode_all Decode records) as [|[xs os]]; [done|].
  intros [= <- <-]. destruct (IH xs os eq_refl) as [-> HF]. split; [done|by constructor].
Qed.

(** What [claimBatch] got: records of the log that nobody has in hand and
    nobody acknowledged. *)
Lemma claim_records k e hist s ls wh n renv records w :
  durable_ok k e hist s ls wh -> opening env (walDir (opts e)) (walOpts (opts e)) n d (length ls) ->
  ReadPending renv (batchSize (opts e)) (Some (fun off => bool_decide (off ∈ inFlight e))) (WalSystem.wal s) (WalSystem.dsk s) = (inr records, w) ->
  NoDup (r_Offset <$> records) /\ (length records <= Z.to_nat (batchSize (opts e)))%nat /\
  forall off, off ∈ r_Offset <$> records -> off ∉ inFlight e /\ ~ acked_in wh off.
Proof.
  intros Hd Hop Hread. destruct (reaches_history _ _ _ _ _ _ _ _ Hop (du_reach _ _ _ _ _ _ Hd)) as (base & Hh & _).
  destruct (read_result base s wh renv (batchSize (opts e)) (Some (fun off => bool_decide (off ∈ inFlight e))) records Hh) as [_ E]; [by rewrite Hread|].
  pose proof (pending_sorted base s wh (Some (fun off => bool_decide (off ∈ inFlight e))) Hh) as Hs.
  apply offsets_distinct in Hs.
  split_and!; [rewrite E, fmap_take; eapply sublist_NoDup; [exact Hs|apply sublist_take]|rewrite E, length_take; lia|].
  intros off (r & -> & Hr)%list_elem_of_fmap. rewrite E in Hr. apply elem_of_take in Hr as (j & Hj%list_elem_of_lookup_2 & _).
  apply list_elem_of_filter in Hj as [Hsk [Hna _]%list_elem_of_filter]. split; [|done]. cbn in Hsk. by apply bool_decide_eq_false_1 in Hsk.
Qed.

Lemma durable_claim_step k e hist s ls wh n i renv e' ev :
  durable_ok k e hist s ls wh -> opening env (walDir (opts e)) (walOpts (opts e)) n d (length ls) ->
  durable_claim Decode i renv e = Some (e', ev) ->
  exists s' ls' wh', durable_ok (S k) e' (hist ++ ev) s' ls' wh'.
Proof.
  intros Hd Hop. unfold durable_claim. destruct (crew e !! i) as [[]|] eqn:Hi; try done. rewrite (du_log _ _ _ _ _ _ Hd).
  unfold claimBatch. cbv zeta. pose proof (du_crew _ _ _ _ _ _ Hd) as Hcr.
  set (skip := Some (fun off => bool_decide (off ∈ inFlight e))).
  destruct (ReadPending renv (batchSize (opts e)) skip (WalSystem.wal s) (WalSystem.dsk s)) as [r w] eqn:Hread.
  set (lb := WalSystem.LReadPending renv (batchSize (opts e)) skip).
  assert (WalSystem.step lb s = Some (WalSystem.with_wal w s, [WalSystem.EvRead r])) as Hstep by (cbn; by rewrite Hread).
  pose proof (reaches_snoc _ _ _ _ _ _ _ lb _ _ (du_reach _ _ _ _ _ _ Hd) I Hstep) as Hreach.
  assert (lb <> WalSystem.LCloseBegin) as Hlb by done. pose proof (stays_open lb s _ _ Hlb Hstep) as Hopen.
  set (wh' := wh ++ [WalSystem.EvRead r]).
  assert (forall off, acked_in wh' off -> acked_in wh off) as Hack by (by intros off [?|?%list_elem_of_singleton]%elem_of_app).
  assert (crew_ok Decode (Z.to_nat (batchSize (opts e))) (crew e) (inFlight e) wh' hist) as Hcr'.
  { rewrite <-(app_nil_r hist). apply crew_observe; [done| |done]. by intros off ?%list_elem_of_singleton. }
  assert (forall e1 w', log e1 = Some (WalSystem.with_wal w s) -> opts e1 = opts e -> ready e1 = ready e -> started e1 = started e ->
    producers e1 = producers e -> drainDone e1 = drainDone e -> closed e1 = closed e -> life e1 = life e ->
    crew e1 = <[i := w']> (crew e) -> crew_ok Decode (Z.to_nat (batchSize (opts e))) (crew e1) (inFlight e1) wh' hist ->
    durable_ok (S k) e1 (hist ++ []) (WalSystem.with_wal w s) (ls ++ [lb]) wh') as Hgo.
  { intros e1 w' ? ? ? ? ? ? ? ? Ec Hok. apply (durable_frame k e e1 hist [] s ls wh _ [lb] [WalSystem.EvRead r]); try done;
      [by rewrite Ec, length_insert|intros Hc; by destruct (Hopen Hc) as (? & ? & _)|by rewrite app_nil_r]. }
  destruct r as [err|records].
  { intros [= <- <-]. do 3 eexists. eapply (Hgo _ Exited); [done..|]. by eapply crew_exit. }
  pose proof (claim_records _ _ _ _ _ _ n renv records w Hd Hop Hread) as (Hnd & Hlen & Hnew).
  assert (forall off, off ∈ r_Offset <$> records -> off ∉ inFlight e /\ ~ acked_in wh' off) as Hnew'.
  { intros off Hin. destruct (Hnew off Hin) as [? Hna]. split; [done|]. by intros ?%Hack. }
  destruct records as [|r0 rs] eqn:Erec.
  { intros [= <- <-]. do 3 eexists. eapply (Hgo _ Waiting); [done..|]. cbn. rewrite union_empty_r_L. by eapply crew_same. }
  rewrite <-Erec in *. destruct (decode_all Decode records) as [err|[items offs]] eqn:Hdec.
  - intros [= <- <-]. do 3 eexists. eapply (Hgo _ Exited); [done..|]. cbn.
    eapply crew_claim; [done|done|done|done|done|by rewrite length_fmap|by right].
  - intros [= <- <-]. apply decode_all_ok in Hdec as [-> HF]. do 3 eexists. eapply (Hgo _ (Storing ToDurable items (r_Offset <$> records) 0)); [done..|]. cbn.
    eapply crew_claim; [done|done|done|done| |done|by left]. cbn. split_and!; [done| |by rewrite length_fmap].
    apply Forall2_fmap_l, Forall2_same_length_lookup. split; [by eapply Forall2_length|]. intros j r x Hr Hx.
    exists (r_Payload r). split; [|by eapply Forall2_lookup_lr in HF]. exists (WalSystem.EvRead (inr (r0 :: rs))).
    split; [apply elem_of_app; right; by left|]. cbn. rewrite <-Erec. destruct r. by eapply list_elem_of_lookup_2.
Qed.

Lemma store_ack_step k e hist s ls wh i removed e' ev :
  durable_ok k e hist s ls wh -> store_ack i removed e = Some (e', ev) ->
  exists s' ls' wh', durable_ok (S k) e' (hist ++ ev) s' ls' wh'.
Proof.
  intros Hd. unfold store_ack. destruct (crew e !! i) as [[| | | | |offs [|off rest]|]|] eqn:Hi; try done.
  rewrite (du_log _ _ _ _ _ _ Hd). destruct (Ack off removed (WalSystem.wal s) (WalSystem.dsk s)) as [w dd] eqn:Hack. intros [= <- <-].
  set (lb := WalSystem.LAck off removed).
  assert (WalSystem.step lb s = Some (WalSystem.with_disk w dd s, [WalSystem.EvAck off])) as Hstep by (cbn; by rewrite Hack).
  destruct (du_worker _ _ _ _ _ _ _ _ Hd Hi) as ([pre Hpre] & HF & _). rewrite list.Forall_forall in HF.
  destruct (HF off) as (x & (p & Hp & _) & _); [rewrite Hpre; apply elem_of_app; right; by left|].
  assert (ack_told wh lb) as Htold by (right; by exists p).
  pose proof (reaches_snoc _ _ _ _ _ _ _ lb _ _ (du_reach _ _ _ _ _ _ Hd) Htold Hstep) as Hreach.
  assert (lb <> WalSystem.LCloseBegin) as Hlb by done. pose proof (stays_open lb s _ _ Hlb Hstep) as Hopen.
  do 3 eexists. eapply (durable_frame k e); [exact Hd|by apply Forall_nil|reflexivity|done..|apply length_insert|exact Hreach|done|done| |].
  - intros Hc. by destruct (Hopen Hc) as (? & ? & _).
  - rewrite app_nil_r. eapply crew_ack; [apply Hd|done].
Qed.

(** ** The producers *)

(** A step that leaves the workers, the flags and [Shutdown] alone. *)
Lemma durable_producers k e e' hist ev s ls wh s' wls wev :
  durable_ok k e hist s ls wh -> log e' = Some s' ->
  opts e' = opts e -> ready e' = ready e -> started e' = started e -> drainDone e' = drainDone e -> closed e' = closed e ->
  life e' = life e -> crew e' = crew e -> inFlight e' = inFlight e ->
  reaches env (walDir (opts e)) (walOpts (opts e)) d (ls ++ wls) s' (wh ++ wev) -> (length wls <= 1)%nat ->
  (WalSystem.closer s = WalSystem.COpen ->
     WalSystem.closer s' = WalSystem.COpen /\ Wal.closed (WalSystem.wal s') = Wal.closed (WalSystem.wal s)) ->
  (forall off, WalSystem.EvAck off ∉ wev) -> stored_offsets ev = [] -> EvShutdown true None ∉ ev ->
  (drainDone e = true -> submit_free e = true -> submit_free e' = true /\ Forall neutral ev) ->
  calls_ok e' s' (wh ++ wev) (hist ++ ev) -> durable_ok (S k) e' (hist ++ ev) s' (ls ++ wls) (wh ++ wev).
Proof.
  intros [Hlog Hr Hk Hrd Hw Hca Hcr Hli] E1 E2 E3 E4 E5 E6 E7 E8 E9 Hr' Hone Hopen Hna Hst Hsh Hfree Hca'.
  split; rewrite ?E2, ?E3, ?E4, ?E8, ?E9; [done|done|rewrite length_app; lia|done|done|done|by apply crew_observe|].
  destruct Hli as [Hse Hdr Hsl Hrun Hop Hcl Hov]. split; rewrite ?E5, ?E6, ?E7.
  - intros Hd. destruct (Hse Hd) as [? Hf]. by destruct (Hfree Hd Hf).
  - done.
  - done.
  - done.
  - intros Hs. destruct (Hop Hs) as [Hc Hf]. destruct (Hopen Hc) as [? ->]. done.
  - intros Hc. assert (drainDone e = true) as Hd by (apply Hdr; right; right; by destruct (life e); try done; eexists).
    destruct (Hse Hd) as [_ Hf]. destruct (Hfree Hd Hf) as [_ Hn]. by apply all_delivered_neutral, Hcl.
  - intros [Hin|?]%elem_of_app; [|done]. destruct (Hov Hin) as [Hd ?]. split; [done|]. destruct (Hse Hd) as [_ Hf].
    destruct (Hfree Hd Hf) as [_ Hn]. by apply all_delivered_neutral.
Qed.

(** A producer leaves; a call it had in the log has returned. *)
Lemma calls_leave e e' s s' wh wev hist ev tid :
  calls_ok e s wh hist -> producers e' = delete tid (producers e) ->
  (forall t c, WalSystem.calls s' !! t = Some c -> t <> tid /\ WalSystem.calls s !! t = Some c) ->
  (forall x, logged ev x -> exists off p, WalSystem.EvAppend p (inr off) ∈ wev /\ Encode x = inr p) ->
  calls_ok e' s' (wh ++ wev) (hist ++ ev).
Proof.
  intros [Hc Hl] Ep Hsub Hnew. split.
  - intros t c [Hne Ht]%Hsub. rewrite Ep, lookup_delete_ne by done. by apply Hc.
  - intros x [(off & p & ? & ?)%Hl|(off & p & ? & ?)%Hnew]%elem_of_app; exists off, p; (split; [apply elem_of_app|]); auto.
Qed.

(** A producer that is not in the log comes in or moves. *)
Lemma calls_enter e e' s wh hist tid p :
  calls_ok e s wh hist -> producers e' = <[tid := p]> (producers e) -> WalSystem.calls s !! tid = None ->
  calls_ok e' s wh hist.
Proof.
  intros [Hc Hl] Ep Hno. split; [|done]. intros t c Ht. rewrite Ep, lookup_insert_ne; [by apply Hc|]. intros ->. congruence.
Qed.

Lemma not_in_log e s wh hist tid :
  calls_ok e s wh hist -> (forall x, producers e !! tid <> Some (PAppend x)) -> WalSystem.calls s !! tid = None.
Proof.
  intros [Hc _] Hno. destruct (WalSystem.calls s !! tid) eqn:E; [|done]. destruct (Hc _ _ E) as (x & ? & _). by destruct (Hno x).
Qed.

Lemma check_step k e hist s ls wh tid x e' ev :
  durable_ok k e hist s ls wh -> Enqueue_check tid x e = Some (e', ev) -> durable_ok (S k) e' (hist ++ ev) s ls wh.
Proof.
  intros Hd. unfold Enqueue_check. destruct (producers e !! tid) eqn:Hp; [done|].
  pose proof (du_calls _ _ _ _ _ _ Hd) as Hca.
  assert (WalSystem.calls s !! tid = None) as Hno by (eapply not_in_log; [done|]; intros y; congruence).
  destruct (negb (ready e) || closed e) eqn:Hc; intros [= <- <-].
  - eapply (durable_quiet k e); [done|by repeat constructor|done..|]. rewrite <-(app_nil_r wh).
    apply crew_observe; [apply Hd|by intros ? ?%not_elem_of_nil|done].
  - rewrite <-(app_nil_r ls), <-(app_nil_r wh). apply orb_false_iff in Hc as [_ Hcl].
    eapply (durable_producers k e); [exact Hd|apply Hd|done..|rewrite !app_nil_r; apply Hd|cbn; lia|done|
      by intros ? ?%not_elem_of_nil|done|apply not_elem_of_nil| |].
    + intros [? _]%(li_sealed _ _ _ (du_life _ _ _ _ _ _ Hd)). congruence.
    + rewrite !app_nil_r. by eapply calls_enter.
Qed.

Ltac no_ack := first [by intros ? ?%not_elem_of_nil|by intros ? ?%list_elem_of_singleton].

(** A producer that is not in the log leaves. *)
Lemma leave_step k e hist s ls wh tid p n ev :
  durable_ok k e hist s ls wh -> producers e !! tid = Some p -> (forall x, p <> PAppend x) -> Forall neutral ev -> stored_offsets ev = [] ->
  durable_ok (S k) (leave tid (set_dropped n e)) (hist ++ ev) s ls wh.
Proof.
  intros Hd Hp Hna Hn Hst. pose proof (du_calls _ _ _ _ _ _ Hd) as Hca.
  assert (WalSystem.calls s !! tid = None) as Hno by (eapply not_in_log; [done|]; intros y; rewrite Hp; intros [= ->]; by destruct (Hna y)).
  rewrite <-(app_nil_r ls), <-(app_nil_r wh).
  eapply (durable_producers k e); [exact Hd|apply Hd|done..|rewrite !app_nil_r; apply Hd|cbn; lia|done|no_ack|done| | |].
  - intros Hin. rewrite list.Forall_forall in Hn. by apply Hn in Hin.
  - intros _ Hf. split; [|done]. by apply (submit_free_leave (set_dropped n e)).
  - eapply (calls_leave e _ s s wh [] hist ev tid); [done|done| |].
    + intros t c Ht. split; [|done]. intros ->. congruence.
    + intros x Hx. rewrite list.Forall_forall in Hn. by apply Hn in Hx.
Qed.

Lemma admit_step k e hist s ls wh tid e' ev :
  durable_ok k e hist s ls wh -> Enqueue_admit Encode tid e = Some (e', ev) ->
  exists s' ls' wh', durable_ok (S k) e' (hist ++ ev) s' ls' wh'.
Proof.
  intros Hd. unfold Enqueue_admit. destruct (producers e !! tid) as [[x| |]|] eqn:Hp; try done.
  destruct (closed e) eqn:Hcl.
  { intros [= <- <-]. do 3 eexists. rewrite <-(set_dropped_same e). by eapply leave_step; [..|repeat constructor|]. }
  rewrite (du_log _ _ _ _ _ _ Hd). destruct (Encode x) as [err|p] eqn:Henc.
  { intros [= <- <-]. do 3 eexists. by eapply leave_step; [..|repeat constructor|]. }
  destruct (WalSystem.append_start tid p s) as [[s1 wev]|] eqn:Hstart; [|done].
  set (lb := WalSystem.LAppendStart tid p). assert (WalSystem.step lb s = Some (s1, wev)) as Hstep by done.
  pose proof (reaches_snoc _ _ _ _ _ _ _ lb _ _ (du_reach _ _ _ _ _ _ Hd) I Hstep) as Hreach.
  assert (lb <> WalSystem.LCloseBegin) as Hlb by done. pose proof (stays_open lb s _ _ Hlb Hstep) as Hopen.
  assert (drainDone e = true -> False) as Hnd by (intros [? _]%(li_sealed _ _ _ (du_life _ _ _ _ _ _ Hd)); congruence).
  assert (WalSystem.calls s !! tid = None) as Hno by (eapply not_in_log; [apply Hd|]; intros y; congruence).
  unfold WalSystem.append_start in Hstart. rewrite Hno in Hstart.
  destruct (WalSystem.append_checks p (WalSystem.wal s)) as [err|]; injection Hstart as <- <-; intros [= <- <-]; do 3 eexists.
  - eapply (durable_producers k e); [exact Hd|done..|exact Hreach|done| |no_ack|done| |by intros ?%Hnd|].
    + intros Hc. by destruct (Hopen Hc) as (? & ? & _).
    + by intros [?|?%list_elem_of_singleton]%elem_of_cons.
    + eapply (calls_leave e _ s s wh _ hist _ tid); [apply Hd|done| |].
      * intros t c Ht. split; [|done]. intros ->. congruence.
      * by intros y [?|?%list_elem_of_singleton]%elem_of_cons.
  - eapply (durable_producers k e); [exact Hd|done..|exact Hreach|done| |no_ack|done|apply not_elem_of_nil|by intros ?%Hnd|].
    + intros Hc. by destruct (Hopen Hc) as (? & ? & _).
    + rewrite !app_nil_r. destruct (du_calls _ _ _ _ _ _ Hd) as [Hc Hl]. split; [|done]. intros t c. cbn.
      intros [[<- <-]|[Hne Ht]]%lookup_insert_Some; [exists x; by rewrite lookup_insert_eq|].
      rewrite lookup_insert_ne by done. by apply Hc.
Qed.

(** ** The log's own steps *)

(** An [Append] of the log returned to its producer. *)
Lemma appended_step k e hist s ls wh lb s' tid c r e' ev :
  durable_ok k e hist s ls wh -> reaches env (walDir (opts e)) (walOpts (opts e)) d (ls ++ [lb]) s' (wh ++ [WalSystem.EvAppend (payload_of c) r]) ->
  (WalSystem.closer s = WalSystem.COpen ->
     WalSystem.closer s' = WalSystem.COpen /\ Wal.closed (WalSystem.wal s') = Wal.closed (WalSystem.wal s)) ->
  WalSystem.calls s !! tid = Some c -> WalSystem.calls s' = delete tid (WalSystem.calls s) ->
  (exists x, producers e !! tid = Some (PAppend x) /\ Encode x = inr (payload_of c) /\ appended tid x r (set_log (Some s') e) = (e', ev)) ->
  exists ls' wh', durable_ok (S k) e' (hist ++ ev) s' ls' wh'.
Proof.
  intros Hd Hreach Hopen Hc Ec (x & Hp & Henc & Happ).
  assert (drainDone e = true -> False) as Hnd.
  { intros [_ Hf]%(li_sealed _ _ _ (du_life _ _ _ _ _ _ Hd)). rewrite submit_free_spec in Hf. by destruct (Hf _ _ Hp) as [? [=]]. }
  assert (forall t c', WalSystem.calls s' !! t = Some c' -> t <> tid /\ WalSystem.calls s !! t = Some c') as Hsub.
  { rewrite Ec. intros t c' [Hne Ht]%lookup_delete_Some. done. }
  destruct (notify_same (set_log (Some s') e)) as (E1 & E2 & E3 & E4 & E5 & E6 & E7 & E8 & E9 & E10).
  unfold appended, drop_and_reject in Happ. destruct r as [err|off]; injection Happ as <- <-; do 2 eexists.
  - eapply (durable_producers k e); [exact Hd|done..|exact Hreach|done|done|no_ack|done| |by intros ?%Hnd|].
    + by intros [?|?%list_elem_of_singleton]%elem_of_cons.
    + eapply (calls_leave e _ s s' wh _ hist _ tid); [apply Hd|done|done|]. by intros y [?|?%list_elem_of_singleton]%elem_of_cons.
  - eapply (durable_producers k e); [exact Hd|done..|exact Hreach|done|done|no_ack|done|by intros ?%list_elem_of_singleton|by intros ?%Hnd|].
    eapply (calls_leave e _ s s' wh _ hist _ tid); [apply Hd| |done|].
    + cbn. by rewrite E5.
    + intros y E%list_elem_of_singleton. injection E as ->. exists off, (payload_of c). split; [by left|done].
Qed.

(** [Shutdown], or the [Close] it called, moves on. *)
Lemma durable_life k e e' hist ev s ls wh s' wls wev :
  durable_ok k e hist s ls wh -> log e' = Some s' ->
  opts e' = opts e -> ready e' = ready e -> started e' = started e -> producers e' = producers e -> crew e' = crew e ->
  inFlight e' = inFlight e -> reaches env (walDir (opts e)) (walOpts (opts e)) d (ls ++ wls) s' (wh ++ wev) -> (length wls <= 1)%nat ->
  WalSystem.calls s' = WalSystem.calls s -> (forall off, WalSystem.EvAck off ∉ wev) -> stored_offsets ev = [] ->
  (forall x, ~ logged ev x) -> life_ok e' s' (hist ++ ev) -> durable_ok (S k) e' (hist ++ ev) s' (ls ++ wls) (wh ++ wev).
Proof.
  intros [Hlog Hr Hk Hrd Hw [Hc Hl] Hcr Hli] E1 E2 E3 E4 E5 E6 E7 Hr' Hone Ec Hna Hst Hlg Hli'.
  split; rewrite ?E2, ?E3, ?E4, ?E6, ?E7; [done|done|rewrite length_app; lia|done|done| |by apply crew_observe|done].
  split; [by rewrite Ec, E5|]. intros x [(off & p & ? & ?)%Hl|Hx]%elem_of_app; [|by destruct (Hlg x)].
  exists off, p. split; [apply elem_of_app; by left|done].
Qed.

(** The log's [Close] returned to [Shutdown]. *)
Lemma closed_step k e hist s ls wh s' l r e' ev :
  durable_ok k e hist s ls wh ->
  reaches env (walDir (opts e)) (walOpts (opts e)) d (ls ++ [l]) s' (wh ++ [WalSystem.EvClose r]) ->
  WalSystem.calls s' = WalSystem.calls s ->
  (WalSystem.closer s = WalSystem.COpen ->
     WalSystem.closer s' = WalSystem.COpen /\ Wal.closed (WalSystem.wal s') = Wal.closed (WalSystem.wal s)) ->
  ~ in_service (life e) -> closed_with r (set_log (Some s') e) = (e', ev) ->
  exists ls' wh', durable_ok (S k) e' (hist ++ ev) s' ls' wh'.
Proof.
  intros Hd Hreach Ec Hopen Hns. pose proof (du_life _ _ _ _ _ _ Hd) as [Hse Hdr Hsl Hrun Hop Hcl Hov].
  unfold closed_with. cbn [life set_log].
  assert (set_life (life e) (set_log (Some s') e) = set_log (Some s') e) as Esame by (by destruct e).
  assert (forall lf, ~ in_service lf -> (forall err, lf <> StartClosing err) -> (counted lf = Some [] -> counted (life e) = Some []) ->
    (set_life lf (set_log (Some s') e), []) = (e', ev) -> exists ls' wh', durable_ok (S k) e' (hist ++ ev) s' ls' wh') as Hgo.
  { intros lf Hnl Hns' Hcl' [= <- <-]. do 2 eexists.
    eapply (durable_life k e); [exact Hd|done..|exact Hreach|done|done|no_ack|done|by intros ? ?%not_elem_of_nil|].
    rewrite app_nil_r. split; cbn; try done; [|by intros ->|auto].
    intros _. apply Hdr. destruct (life e); try done; [by destruct (Hrun err)|..]; eauto. }
  destruct (life e) as [|err| | |errs|errs|errs|errs|] eqn:El; try done; [by destruct (Hrun err)|..].
  - apply Hgo; [done|done|]. by intros [= [-> _]%app_nil].
  - intros Heq. rewrite <-Esame in Heq. by apply (Hgo (Returning errs)).
  - intros Heq. rewrite <-Esame in Heq. by apply (Hgo Over).
Qed.

Lemma log_step_step k e hist s ls wh l e' ev :
  durable_ok k e hist s ls wh -> log_step l e = Some (e', ev) ->
  exists s' ls' wh', durable_ok (S k) e' (hist ++ ev) s' ls' wh'.
Proof.
  intros Hd. unfold log_step. rewrite (du_log _ _ _ _ _ _ Hd). destruct (internal l) eqn:Hint; [|done].
  destruct (WalSystem.step l s) as [[s' wev]|] eqn:Hstep; [|done].
  assert (l <> WalSystem.LCloseBegin) as Hlb by (by intros ->). pose proof (stays_open l s _ _ Hlb Hstep) as Hopen.
  assert (ack_told wh l) as Htold by (by destruct l).
  pose proof (reaches_snoc _ _ _ _ _ _ _ l _ _ (du_reach _ _ _ _ _ _ Hd) Htold Hstep) as Hreach.
  assert (WalSystem.closer s = WalSystem.COpen ->
     WalSystem.closer s' = WalSystem.COpen /\ Wal.closed (WalSystem.wal s') = Wal.closed (WalSystem.wal s)) as Hopen'
    by (intros Hc; by destruct (Hopen Hc) as (? & ? & _)).
  destruct (internal_calls l s s' wev Hint Hstep) as [(tid & c & c' & Hc & Epay & Ec & ->)|[(tid & c & r & Hl & Hc & Ec & ->)|[Ec Hev]]].
  - intros [= <- <-]. do 3 eexists. destruct (du_calls _ _ _ _ _ _ Hd) as [Hca Hlo].
    eapply (durable_producers k e); [exact Hd|done..|exact Hreach|done|done|no_ack|done|apply not_elem_of_nil| |].
    + intros _ Hf. split; [done|by apply Forall_nil].
    + rewrite !app_nil_r. split; [|done]. intros t c1. rewrite Ec. intros [[<- <-]|[Hne Ht]]%lookup_insert_Some; [|by apply Hca].
      rewrite Epay. by apply Hca.
  - destruct (ca_calls _ _ _ _ (du_calls _ _ _ _ _ _ Hd) _ _ Hc) as (x & Hp & Henc). intros Heq.
    exists s'. eapply (appended_step k e hist s ls wh l s' tid c r); [done|done|done|done|done|]. exists x. split_and!; [done|done|].
    injection Heq as Heq. unfold log_event in Heq. cbn [producers set_log] in Heq.
    destruct Hl as [->| ->]; cbn in Heq; rewrite Hp in Heq; done.
  - assert (durable_ok (S k) (set_log (Some s') e) (hist ++ []) s' (ls ++ [l]) (wh ++ wev)) as Hframe.
    { eapply (durable_frame k e); [exact Hd|by apply Forall_nil|done..|]. apply crew_observe; [apply Hd| |done].
      destruct Hev as [->|(e1 & -> & He1)]; [no_ack|]. intros off <-%list_elem_of_singleton. done. }
    destruct Hev as [->|(e1 & -> & He1)]; [intros [= <- <-]; eauto|]. destruct e1 as [| | |r|r]; try done.
    + intros [= <- <-]. eauto.
    + intros Heq. injection Heq as Heq. exists s'. eapply closed_step; [exact Hd|exact Hreach|done|done| |exact Heq].
      intros Hs. destruct (li_open _ _ _ (du_life _ _ _ _ _ _ Hd) Hs) as [Hc _]. destruct (Hopen Hc) as (_ & _ & Hno).
      apply (Hno r). by left.
Qed.

(** ** Start and Shutdown *)

(** The codec gives back what it encoded. *)
Hypothesis codec : forall x p, Encode x = inr p -> Decode p = inr x.

(** A logged item is in the log, and was stored if its record was acknowledged. *)
Lemma logged_record k e hist s ls wh n x :
  durable_ok k e hist s ls wh -> opening env (walDir (opts e)) (walOpts (opts e)) n d (length ls) -> logged hist x ->
  exists off p, told wh off p /\ Decode p = inr x /\ (acked_in wh off -> delivered hist off x).
Proof using codec.
  intros Hd Hop Hx. destruct (reaches_history _ _ _ _ _ _ _ _ Hop (du_reach _ _ _ _ _ _ Hd)) as (base & Hh & _).
  destruct (ca_logged _ _ _ _ (du_calls _ _ _ _ _ _ Hd) x Hx) as (off & p & Hap & Henc).
  assert (told wh off p) as Ht by (by exists (WalSystem.EvAppend p (inr off))).
  exists off, p. split_and!; [done|by apply codec|]. intros Hack.
  destruct (cr_acked _ _ _ _ _ _ (du_crew _ _ _ _ _ _ Hd) off Hack) as (y & (q & Hq & Hdec) & Hdel).
  rewrite <-(hi_once _ _ _ Hh off p q Ht Hq), (codec x p Henc) in Hdec. by injection Hdec as ->.
Qed.

(** When nothing is pending, everything logged was stored. *)
Lemma nothing_pending k e hist s ls wh n :
  durable_ok k e hist s ls wh -> opening env (walDir (opts e)) (walOpts (opts e)) n d (length ls) ->
  Wal.closed (WalSystem.wal s) = false -> Pending (stats (WalSystem.wal s)) <= 0 -> all_delivered hist.
Proof using codec.
  intros Hd Hop Hcl Hpe x Hx. destruct (logged_record _ _ _ _ _ _ n x Hd Hop Hx) as (off & p & Ht & _ & Hdel).
  exists off. apply Hdel. destruct (decide (acked_in wh off)) as [?|Hna]; [done|]. exfalso.
  rewrite (stats_exact _ _ _ _ _ _ _ _ Hop (du_reach _ _ _ _ _ _ Hd) Hcl) in Hpe. cbn in Hpe.
  destruct (reaches_history _ _ _ _ _ _ _ _ Hop (du_reach _ _ _ _ _ _ Hd)) as (base & Hh & _).
  pose proof (told_pending _ _ _ _ _ Hh Ht Hna) as Hin. unfold zlen in Hpe.
  destruct (pending_records wh s); [by apply not_elem_of_nil in Hin|]. cbn in Hpe. lia.
Qed.

(** A step of [Shutdown] that the log does not see. *)
Lemma shutdown_quiet k e hist s ls wh dn ca dr cl lf ev :
  durable_ok k e hist s ls wh -> stored_offsets ev = [] -> (forall x, ~ logged ev x) ->
  life_ok (set_life lf (set_signals dn ca dr (set_flags (started e) (ready e) cl e))) s (hist ++ ev) ->
  durable_ok (S k) (set_life lf (set_signals dn ca dr (set_flags (started e) (ready e) cl e))) (hist ++ ev) s ls wh.
Proof.
  intros Hd Hst Hlg Hli. rewrite <-(app_nil_r ls), <-(app_nil_r wh).
  eapply (durable_life k e); [exact Hd|apply Hd|done..|rewrite !app_nil_r; apply Hd|cbn; lia|done|no_ack|done|done|done].
Qed.

Lemma shutdown_step k e hist s ls wh n l e' ev :
  durable_ok k e hist s ls wh -> opening env (walDir (opts e)) (walOpts (opts e)) n d (length ls) ->
  match l with LShutdown | LSeal | LFinished | LExpired _ | LCount | LReturn => True | _ => False end ->
  step Encode Decode l e = Some (e', ev) -> durable_ok (S k) e' (hist ++ ev) s ls wh.
Proof using codec.
  intros Hd Hop. pose proof (du_life _ _ _ _ _ _ Hd) as [Hse Hdr Hsl Hrun Hopen Hcl Hov].
  destruct l; try done; intros _; cbn [step].
  - unfold Shutdown_begin. destruct (lifecycle_free e) eqn:Hfree; [|done]. cbn [negb]. destruct (closed e) eqn:Hce; intros [= <- <-].
    { eapply (durable_quiet k e); [done|by repeat constructor|done..|]. rewrite <-(app_nil_r wh).
      apply crew_observe; [apply Hd|no_ack|done]. }
    assert (drainDone e = false) as Hd0 by (apply not_true_iff_false; intros [? _]%Hse; congruence).
    apply shutdown_quiet; [done|done|by intros ? ?%not_elem_of_nil|]. split; cbn; try done; [congruence|by intros [?|[?|[? ?]]]| |].
    + intros _. apply Hopen. unfold lifecycle_free in Hfree. destruct (life e); try done; rewrite Hdr in Hd0; try done; eauto.
    + intros Hin. by destruct (Hov ltac:(by rewrite app_nil_r in Hin)) as [? _]; congruence.
  - unfold Shutdown_seal. destruct (life e) eqn:El; try done. destruct (submit_free e) eqn:Hf; [|done]. intros [= <- <-].
    rewrite set_signals_eta. apply shutdown_quiet; [done|done|by intros ? ?%not_elem_of_nil|]. rewrite app_nil_r. split; cbn; try done.
    + intros _. split; [auto|]. rewrite submit_free_spec in *. done.
    + intros Hin. by destruct (Hov Hin).
  - unfold Shutdown_finished. destruct (life e) eqn:El; try done. destruct (all_exited e); [|done]. intros [= <- <-].
    rewrite set_signals_eta. apply shutdown_quiet; [done|done|by intros ? ?%not_elem_of_nil|]. rewrite app_nil_r. split; cbn; try done.
    + intros _. apply Hdr. auto.
  - unfold Shutdown_expired. destruct (life e) eqn:El; try done. intros [= <- <-].
    rewrite set_signals_eta. apply shutdown_quiet; [done|done|by intros ? ?%not_elem_of_nil|]. rewrite app_nil_r. split; cbn; try done.
    + intros _. apply Hdr. auto.
  - unfold Shutdown_count. destruct (life e) as [| | | |errs| | | |] eqn:El; try done. rewrite (du_log _ _ _ _ _ _ Hd). intros [= <- <-].
    rewrite set_life_eta. apply shutdown_quiet; [done|done|by intros ? ?%not_elem_of_nil|]. rewrite app_nil_r. split; cbn; try done.
    + intros _. apply Hdr. right; right. by exists errs.
    + destruct (Z.ltb_spec 0 (Pending (stats (WalSystem.wal s)))) as [Hp|Hp]; [by intros [= [_ ?]%app_nil]|]. intros _.
      eapply nothing_pending; [done|done|by apply Hopen|done].
  - unfold Shutdown_return. destruct (life e) as [| | | | | | |errs|] eqn:El; try done. intros [= <- <-].
    rewrite set_life_eta. apply shutdown_quiet; [done|done|by intros ? ?%list_elem_of_singleton|].
    assert (forall r, all_delivered hist -> all_delivered (hist ++ [EvShutdown true r])) as Hmono.
    { intros r Ha x [Hx|?%list_elem_of_singleton]%elem_of_app; [|done]. destruct (Ha x Hx) as [off ?]. exists off. by apply delivered_app. }
    assert (drainDone e = true) as Hdd by (apply Hdr; right; right; by exists errs).
    split; cbn; try done.
    intros [Hin|E%list_elem_of_singleton]%elem_of_app; (split; [done|apply Hmono]); [by apply Hov|].
    injection E as E. symmetry in E. apply join_all_None, app_nil in E as [-> _]. by apply Hcl.
Qed.

Lemma close_call_step k e hist s ls wh e' ev :
  durable_ok k e hist s ls wh -> Shutdown_close e = Some (e', ev) ->
  exists s' ls' wh', durable_ok (S k) e' (hist ++ ev) s' ls' wh'.
Proof.
  intros Hd. unfold Shutdown_close. pose proof (du_life _ _ _ _ _ _ Hd) as [Hse Hdr Hsl Hrun Hopen Hcl Hov].
  destruct (life e) as [| | | | |errs| | |] eqn:El; try done. rewrite (du_log _ _ _ _ _ _ Hd).
  destruct (WalSystem.close_begin s) as [[s' wev]|] eqn:Hbegin; [|done].
  assert (WalSystem.step WalSystem.LCloseBegin s = Some (s', wev)) as Hstep by done.
  pose proof (reaches_snoc _ _ _ _ _ _ _ WalSystem.LCloseBegin _ _ (du_reach _ _ _ _ _ _ Hd) I Hstep) as Hreach.
  assert (WalSystem.calls s' = WalSystem.calls s /\ (wev = [] \/ wev = [WalSystem.EvClose None])) as [Ec Hwev].
  { unfold WalSystem.close_begin in Hbegin. case_match; injection Hbegin as <- <-; auto. }
  assert (forall lf, ~ in_service lf -> (forall err, lf <> StartClosing err) -> (counted lf = Some [] -> errs = []) ->
    durable_ok (S k) (set_life lf (set_log (Some s') e)) (hist ++ []) s' (ls ++ [WalSystem.LCloseBegin]) (wh ++ wev)) as Hgo.
  { intros lf Hnl Hns' Hcl'.
    eapply (durable_life k e); [exact Hd|done..|exact Hreach|done|done| |done|by intros ? ?%not_elem_of_nil|].
    { destruct Hwev as [->| ->]; no_ack. }
    rewrite app_nil_r. split; cbn; try done; [|by intros ->|]; intros H1.
    - apply Hdr. right; right. by exists errs.
    - apply Hcl. cbn. by rewrite Hcl'. }
  destruct Hwev as [->| ->]; intros Heq; exists s'; do 2 eexists.
  - injection Heq as <- <-. apply Hgo; [by intros []|done|]. by intros [= ->].
  - unfold closed_with in Heq. cbn [life set_log] in Heq. rewrite El in Heq. injection Heq as <- <-.
    apply Hgo; [by intros []|done|]. cbn. rewrite app_nil_r. by intros [= ->].
Qed.

Lemma start_again_step k e hist s ls wh env' e' ev :
  durable_ok k e hist s ls wh -> Start Decode env' e = Some (e', ev) -> durable_ok (S k) e' (hist ++ ev) s ls wh.
Proof.
  intros Hd. unfold Start. destruct (du_ready _ _ _ _ _ _ Hd) as [_ ->]. destruct (negb (lifecycle_free e)); [done|].
  destruct (closed e); intros [= <- <-]; (eapply (durable_quiet k e); [done|by repeat constructor|done..|]);
    rewrite <-(app_nil_r wh); (apply crew_observe; [apply Hd|no_ack|done]).
Qed.

(** The blocked producers of an engine without a log. *)
Lemma blocked_step k e hist s ls wh l e' ev :
  durable_ok k e hist s ls wh -> match l with LSend _ | LDone _ => True | _ => False end ->
  step Encode Decode l e = Some (e', ev) -> durable_ok (S k) e' (hist ++ ev) s ls wh.
Proof.
  intros Hd. destruct l as [| | |tid|tid| | | | | | | | | | | | | | | | | | | |]; try done; intros _; cbn [step].
  - unfold Enqueue_send. destruct (producers e !! tid) as [[|x|x]|] eqn:Hp; try done. destruct (has_room e); [|done]. intros [= <- <-].
    assert (durable_ok k (set_submitted (submitted e ++ [mkEnvelope x zero_offset]) e) hist s ls wh) as Hd' by (by destruct Hd as [? ? ? ? ? [] ? []]).
    rewrite <-(set_dropped_same (set_submitted _ e)). by eapply leave_step; [..|repeat constructor|].
  - unfold Enqueue_done. destruct (producers e !! tid) as [[|x|x]|] eqn:Hp; try done. destruct (done e); [|done]. intros [= <- <-].
    rewrite <-(set_dropped_same e). by eapply leave_step; [..|repeat constructor|].
Qed.

Lemma durable_step k e hist s ls wh n l e' ev :
  durable_ok k e hist s ls wh -> opening env (walDir (opts e)) (walOpts (opts e)) n d (length ls) ->
  step Encode Decode l e = Some (e', ev) -> exists s' ls' wh', durable_ok (S k) e' (hist ++ ev) s' ls' wh'.
Proof using codec.
  intros Hd Hop Hs.
  assert (forall i w, crew e !! i = Some w -> forall b o dr, w <> Receiving b o dr) as Hnr.
  { intros i w Hi b o dr ->. exact (du_worker _ _ _ _ _ _ _ _ Hd Hi). }
  destruct l as [env'|tid x|tid|tid|tid|l|i renv|i|i|i|i r|i|i rm|i|i|i|i|i| | | |err| | |];
    try (do 3 eexists; by eapply durable_worker; [exact Hd| |exact Hs]);
    try (do 3 eexists; by eapply shutdown_step; [exact Hd|exact Hop| |exact Hs]);
    try (do 3 eexists; by eapply blocked_step; [exact Hd| |exact Hs]); cbn [step] in Hs.
  - do 3 eexists. by eapply start_again_step.
  - do 3 eexists. by eapply check_step.
  - by eapply admit_step.
  - by eapply log_step_step.
  - by eapply durable_claim_step.
  - by eapply store_ack_step.
  - unfold worker_receive in Hs. destruct (crew e !! i) as [[| |b o dr| | | |]|] eqn:Hi; try done. by destruct (Hnr _ _ Hi b o dr).
  - unfold worker_tick in Hs. destruct (crew e !! i) as [[| |b o dr| | | |]|] eqn:Hi; try done. by destruct (Hnr _ _ Hi b o dr).
  - unfold worker_drain in Hs. destruct (crew e !! i) as [[| |b o dr| | | |]|] eqn:Hi; try done. by destruct (Hnr _ _ Hi b o dr).
  - unfold worker_empty in Hs. destruct (crew e !! i) as [[| |b o dr| | | |]|] eqn:Hi; try done. by destruct (Hnr _ _ Hi b o dr).
  - by eapply close_call_step.
Qed.

End durable.

End DispatchLog.
