(* ===== verification/DispatchTheorems.v ===== *)
(** * What the dispatcher promises with a log

    From [NewEngine] on: an engine that is not ready has accepted nothing, a
    successful [Start] establishes the invariant of DispatchLog, and every step
    keeps it. *)

From S2P Require Import Prelude Wal WalRecover WalHistory WalSystem WalTheorems Dispatch DispatchQueue DispatchCrew DispatchLog.
From Stdlib Require Import Strings.Byte.

Module DispatchTheorems.
Import Wal WalRecover WalHistory WalTheorems Dispatch DispatchQueue DispatchCrew DispatchLog.

Section theorems.
Context {T : Type} (Encode : T -> error + bytes) (Decode : bytes -> error + T).
Hypothesis codec : forall x p, Encode x = inr p -> Decode p = inr x.
Context (o : options) (d : disk) (n : Z) (N : nat).
Implicit Types (e : Engine T) (hist : list (event T)).

(** [Start] meets a directory it can open and a system without errors. *)
Definition start_ok (l : label T) : Prop :=
  match l with LStart env => opening env (walDir o) (walOpts o) n d N | _ => True end.

(** An event that accepts or stores nothing. *)
Definition idle_event (ev : event T) : Prop :=
  match ev with EvEnqueue _ (inr _) | EvStore _ _ _ => False | _ => True end.

(** Before a successful [Start]. *)
Record unready e hist : Prop := {
  un_ready : ready e = false;
  un_producers : producers e = ∅;
  un_crew : crew e = [] /\ inFlight e = ∅;
  un_hist : Forall idle_event hist;
  un_started : started e = false -> log e = None /\ files e = d;
  un_closed : closed e = false ->
    drainDone e = false /\ (life e = Idle \/ exists err, life e = StartClosing err) /\ EvShutdown true None ∉ hist
}.

Definition inv (k : nat) e hist : Prop :=
  (k <= N)%nat -> opts e = o /\
  (unready e hist \/ exists env s ls wh, opening env (walDir o) (walOpts o) n d N /\ durable_ok Encode Decode d env k e hist s ls wh).

Lemma idle_logged hist x : Forall idle_event hist -> ~ logged hist x.
Proof. intros Hf Hin. rewrite list.Forall_forall in Hf. by apply Hf in Hin. Qed.

Lemma idle_offsets hist : Forall idle_event hist -> stored_offsets hist = [].
Proof. induction 1 as [|ev hist Hev _ IH]; [done|]. unfold stored_offsets in *. cbn. rewrite IH. by destruct ev. Qed.

Lemma step_opts l e e' ev : step Encode Decode l e = Some (e', ev) -> opts e' = opts e.
Proof.
  destruct l; cbn [step]; intros Hs.
  - unfold Start, launch in Hs. repeat case_match; simplify_eq; done.
  - unfold Enqueue_check in Hs. repeat case_match; simplify_eq; done.
  - unfold Enqueue_admit, send, appended, drop_and_reject, notifyWorker in Hs. repeat case_match; simplify_eq; cbn; by repeat case_match.
  - unfold Enqueue_send, send in Hs. repeat case_match; simplify_eq; done.
  - unfold Enqueue_done in Hs. repeat case_match; simplify_eq; done.
  - unfold log_step, log_event, appended, drop_and_reject, closed_with in Hs. repeat case_match; simplify_eq; try done;
      cbn; unfold notifyWorker; by case_match.
  - unfold durable_claim, claimBatch in Hs. repeat case_match; simplify_eq; done.
  - unfold durable_drained in Hs. repeat case_match; simplify_eq; done.
  - unfold durable_wake in Hs. repeat case_match; simplify_eq; done.
  - unfold durable_tick in Hs. repeat case_match; simplify_eq; done.
  - unfold storeBatch, store_returned in Hs. repeat case_match; simplify_eq; done.
  - unfold store_retry in Hs. repeat case_match; simplify_eq; done.
  - unfold store_ack in Hs. repeat case_match; simplify_eq; done.
  - unfold durable_release in Hs. repeat case_match; simplify_eq. cbn. unfold notifyWorker. by case_match.
  - unfold worker_receive, flush, store_returned in Hs. repeat case_match; simplify_eq; done.
  - unfold worker_tick, flush, store_returned in Hs. repeat case_match; simplify_eq; done.
  - unfold worker_drain in Hs. repeat case_match; simplify_eq; done.
  - unfold worker_empty, flush, store_returned in Hs. repeat case_match; simplify_eq; done.
  - unfold Shutdown_begin in Hs. repeat case_match; simplify_eq; done.
  - unfold Shutdown_seal in Hs. repeat case_match; simplify_eq; done.
  - unfold Shutdown_finished in Hs. repeat case_match; simplify_eq; done.
  - unfold Shutdown_expired in Hs. repeat case_match; simplify_eq; done.
  - unfold Shutdown_count in Hs. repeat case_match; simplify_eq; done.
  - unfold Shutdown_close, closed_with in Hs. repeat case_match; simplify_eq; done.
  - unfold Shutdown_return in Hs. repeat case_match; simplify_eq; done.
Qed.

(** A successful [Start] establishes the invariant. *)
Lemma started_durable k e hist env w recovered d1 :
  unready e hist -> opts e = o -> closed e = false -> started e = false -> lifecycle_free e = true ->
  Open env (walDir o) (walOpts o) (files e) = (inr (w, recovered), d1) ->
  opening env (walDir o) (walOpts o) n d N ->
  durable_ok Encode Decode d env (S k) (launch Claiming (set_log (Some (WalSystem.start w d1)) (set_flags true (ready e) (closed e) e)))
    (hist ++ [EvStart None]) (WalSystem.start w d1) [] [WalSystem.EvRead (inr recovered)].
Proof.
  intros [Hrd Hps [Hcr Hfl] Hhi Hst Hcl] Ho Hce Hse Hfree HO Hop. destruct (Hst Hse) as [_ Hfiles]. destruct (Hcl Hce) as (Hdd & Hlf & Hns).
  assert (life e = Idle) as Hlife by (destruct Hlf as [?|[err E]]; [done|]; unfold lifecycle_free in Hfree; by rewrite E in Hfree).
  assert (Forall idle_event (hist ++ [EvStart None])) as Hidle by (apply Forall_app; split; [done|by repeat constructor]).
  assert (forall w0 : worker T, w0 ∈ repeat Claiming (Z.to_nat (workers (opts e))) -> w0 = Claiming) as Hall
    by (intros w0 Hw; by apply list_elem_of_In, repeat_spec in Hw).
  assert (Wal.closed w = false) as Hwc.
  { destruct Hop as [Hq Hdir Hopn [Hn0 Hn]]. destruct (Open_ok env (walOpts o) n Hq (walDir o) d Hdir Hopn Hn0 ltac:(lia)) as (w' & r' & d' & HO' & Hon).
    rewrite Hfiles, HO' in HO. injection HO as -> _ _. destruct (on_control _ _ _ _ _ _ Hon) as (_ & _ & _ & _ & _ & ? & _). done. }
  assert (forall (f : worker T -> list Offset), f Claiming = [] -> concat (f <$> repeat Claiming (Z.to_nat (workers (opts e)))) = []) as Hconcat.
  { intros f Hf. clear -Hf. induction (Z.to_nat (workers (opts e))) as [|m IH]; [done|]. cbn. by rewrite Hf, IH. }
  split; cbn.
  - done.
  - rewrite Ho. exists w, recovered, d1, []. by rewrite <-Hfiles.
  - lia.
  - done.
  - apply repeat_length.
  - split; [intros tid c; cbn; by rewrite lookup_empty|]. intros x Hx. by destruct (idle_logged _ x Hidle).
  - split.
    + apply list.Forall_forall. by intros w0 ->%Hall.
    + rewrite Hconcat by done. constructor.
    + rewrite Hconcat by done. by intros off ?%not_elem_of_nil.
    + rewrite Hfl, size_empty. lia.
    + by intros off ?%list_elem_of_singleton.
    + rewrite idle_offsets, Hconcat by done. constructor.
    + rewrite idle_offsets by done. by intros off ?%not_elem_of_nil.
  - split; cbn; rewrite ?Hlife, ?Hdd; try done; [by intros [?|[?|[? ?]]]|].
    intros [?|?%list_elem_of_singleton]%elem_of_app; done.
Qed.

(** A step before a successful [Start]. *)
Lemma unready_frame e e' hist ev :
  unready e hist -> ready e' = ready e -> producers e' = producers e -> crew e' = crew e -> inFlight e' = inFlight e ->
  Forall idle_event ev -> (started e' = false -> log e' = None /\ files e' = d) ->
  (closed e' = false -> drainDone e' = false /\ (life e' = Idle \/ exists err, life e' = StartClosing err) /\ EvShutdown true None ∉ hist ++ ev) ->
  unready e' (hist ++ ev).
Proof.
  intros [Hrd Hps [Hcr Hfl] Hhi Hst Hcl] E1 E2 E3 E4 Hev Hs Hc. split; [congruence|congruence|split; congruence| |done|done].
  apply Forall_app. done.
Qed.

Lemma unready_closed_life e hist :
  unready e hist -> (forall err, life e <> StartClosing err) -> life e <> Idle -> closed e = true.
Proof.
  intros Hu Hn Hi. destruct (closed e) eqn:E; [done|]. destruct (un_closed _ _ Hu E) as (_ & [?|[err ?]] & _); [done|by destruct (Hn err)].
Qed.

(** [Shutdown] of an engine that accepted nothing. *)
Lemma unready_shutdown e e' hist ev :
  unready e hist -> closed e' = true -> ready e' = ready e -> producers e' = producers e -> crew e' = crew e ->
  inFlight e' = inFlight e -> started e' = started e -> (log e' = log e \/ started e = true) -> files e' = files e ->
  Forall idle_event ev -> unready e' (hist ++ ev).
Proof.
  intros Hu Hc E1 E2 E3 E4 E5 E6 E7 Hev. apply (unready_frame e); [done..| |congruence].
  rewrite E5. intros Hs. destruct (un_started _ _ Hu Hs) as [Hl Hf]. rewrite E7. split; [|done]. destruct E6; congruence.
Qed.

(** Nothing changes but what is observed. *)
Lemma unready_same e hist ev : unready e hist -> Forall idle_event ev -> EvShutdown true None ∉ ev -> unready e (hist ++ ev).
Proof.
  intros Hu Hev Hn. apply (unready_frame e); [done..|apply Hu|]. intros Hc. destruct (un_closed _ _ Hu Hc) as (? & ? & ?).
  split_and!; [done|done|]. rewrite elem_of_app. tauto.
Qed.

Lemma unready_closed_with e hist s r e' ev :
  unready e hist -> started e = true -> closed_with r (set_log (Some s) e) = (e', ev) -> unready e' (hist ++ ev).
Proof.
  intros Hu Hst. pose proof (unready_closed_life e hist Hu) as Hcl. unfold closed_with. cbn [life set_log].
  assert (forall lf ev1, Forall idle_event ev1 -> EvShutdown true None ∉ ev1 ->
    (closed e = false -> lf = Idle \/ exists err, lf = StartClosing err) -> unready (set_life lf (set_log (Some s) e)) (hist ++ ev1)) as Hgo.
  { intros lf ev1 Hid Hn Hlf. apply (unready_frame e); [done..|cbn; congruence|]. cbn. intros Hc.
    destruct (un_closed _ _ Hu Hc) as (? & _ & ?). split_and!; [done|auto|]. rewrite elem_of_app. tauto. }
  assert (forall x, ~ x ∈ ([] : list (event T))) as Hnil by (intros x; apply not_elem_of_nil).
  assert (set_life (life e) (set_log (Some s) e) = set_log (Some s) e) as Esame by (by destruct e).
  assert (unready (set_log (Some s) e) (hist ++ [])) as Hsame.
  { rewrite <-Esame. apply Hgo; [constructor|done|]. intros Hc. by destruct (un_closed _ _ Hu Hc) as (_ & ? & _). }
  destruct (life e) as [|err| | |errs|errs|errs|errs|] eqn:El; intros [= <- <-]; try exact Hsame.
  - apply Hgo; [by repeat constructor|by intros ?%list_elem_of_singleton|auto].
  - apply Hgo; [constructor|done|]. rewrite Hcl; done.
  - apply Hgo; [constructor|done|]. rewrite Hcl; done.
Qed.

Lemma unready_start k e hist env e' ev :
  unready e hist -> opts e = o -> walEnabled o = true -> opening env (walDir o) (walOpts o) n d N ->
  Start Decode env e = Some (e', ev) ->
  unready e' (hist ++ ev) \/ exists s ls wh, durable_ok Encode Decode d env (S k) e' (hist ++ ev) s ls wh.
Proof.
  intros Hu Ho Hw Hop. unfold Start. destruct (lifecycle_free e) eqn:Hfree; [|done]. cbn [negb].
  assert (forall r, Forall idle_event [EvStart r] /\ EvShutdown true None ∉ [EvStart r : event T]) as Hstart
    by (intros r; split; [by repeat constructor|by intros ?%list_elem_of_singleton]).
  destruct (closed e) eqn:Hce; [intros [= <- <-]; left; apply unready_same; [done|apply Hstart..]|].
  destruct (started e) eqn:Hse; [intros [= <- <-]; left; apply unready_same; [done|apply Hstart..]|].
  destruct (un_closed _ _ Hu Hce) as (Hdd & Hlf & Hns). cbn [opts set_flags files]. rewrite Ho, Hw.
  destruct (Open env (walDir o) (walOpts o) (files e)) as [[err|[w recovered]] d1] eqn:HO.
  - intros [= <- <-]. left. apply (unready_frame e); [done..|apply Hstart|done|]. cbn. intros _. split_and!; [done|done|].
    rewrite elem_of_app. intros [?|?]; [done|by eapply Hstart].
  - destruct (decode_all Decode recovered) as [err|].
    + unfold WalSystem.close_begin. destruct (closing (WalSystem.wal (WalSystem.start w d1))); intros [= <- <-]; left;
        (apply (unready_frame e); [done..|constructor|done|]); cbn; intros _; rewrite app_nil_r; eauto.
    + intros [= <- <-]. right. do 3 eexists. rewrite <-Hce at 1. by apply started_durable.
Qed.

Lemma unready_life e hist l e' ev :
  unready e hist -> match l with LShutdown | LSeal | LFinished | LExpired _ | LCount | LReturn => True | _ => False end ->
  step Encode Decode l e = Some (e', ev) -> unready e' (hist ++ ev).
Proof.
  intros Hu. pose proof (unready_closed_life e hist Hu) as Hcl. destruct l; try done; intros _; cbn [step].
  - unfold Shutdown_begin. destruct (negb _); [done|]. destruct (closed e) eqn:Hc; intros [= <- <-].
    + apply unready_same; [done|by repeat constructor|by intros ?%list_elem_of_singleton].
    + apply (unready_shutdown e); first [done|by left|by apply Hcl|by repeat constructor|right; eauto].
  - unfold Shutdown_seal. destruct (life e) eqn:El; try done. destruct (submit_free e); [|done]. intros [= <- <-].
    apply (unready_shutdown e); first [done|by left|by apply Hcl|by repeat constructor|right; eauto].
  - unfold Shutdown_finished. destruct (life e) eqn:El; try done. destruct (all_exited e); [|done]. intros [= <- <-].
    apply (unready_shutdown e); first [done|by left|by apply Hcl|by repeat constructor|right; eauto].
  - unfold Shutdown_expired. destruct (life e) eqn:El; try done. intros [= <- <-].
    apply (unready_shutdown e); first [done|by left|by apply Hcl|by repeat constructor|right; eauto].
  - unfold Shutdown_count. destruct (life e) eqn:El; try done. destruct (log e) eqn:Elog; intros [= <- <-];
      (apply (unready_shutdown e); first [done|by left|by apply Hcl|by repeat constructor|right; eauto]).
  - unfold Shutdown_return. destruct (life e) eqn:El; try done. intros [= <- <-].
    apply (unready_shutdown e); first [done|by left|by apply Hcl|by repeat constructor|right; eauto].
Qed.

Lemma unready_log e hist l e' ev :
  unready e hist -> match l with LLog _ | LClose => True | _ => False end -> step Encode Decode l e = Some (e', ev) -> unready e' (hist ++ ev).
Proof.
  intros Hu. assert (forall s, log e = Some s -> started e = true) as Hst.
  { intros s Hl. destruct (started e) eqn:E; [done|]. destruct (un_started _ _ Hu E). congruence. }
  assert (forall s s', log e = Some s -> unready (set_log (Some s') e) (hist ++ [])) as Hset.
  { intros s s' Hl%Hst. apply (unready_frame e); [done..|constructor|cbn; congruence|]. rewrite app_nil_r. apply Hu. }
  destruct l as [| | | | |l| | | | | | | | | | | | | | | | | | |]; try done; intros _; cbn [step].
  - unfold log_step. destruct (log e) as [s|] eqn:Hlog; [|done]. destruct (internal l); [|done].
    destruct (WalSystem.step l s) as [[s' [|wev wevs]]|]; [intros [= <- <-]; eauto| |done]. intros Heq. injection Heq as Heq.
    unfold log_event in Heq. cbn [producers set_log] in Heq. rewrite (un_producers _ _ Hu) in Heq.
    destruct wev as [p r| | | |r]; try (injection Heq as <- <-; by eauto); [|by eapply unready_closed_with; eauto].
    destruct l; rewrite ?lookup_empty in Heq; injection Heq as <- <-; eauto.
  - unfold Shutdown_close. destruct (life e) as [| | | | |errs| | |] eqn:El; try done. destruct (log e) as [s|] eqn:Hlog; [|done].
    assert (closed e = true) as Hc by (by eapply unready_closed_life; [done|rewrite El..]).
    unfold WalSystem.close_begin. destruct (closing (WalSystem.wal s)).
    + intros Heq. injection Heq as Heq. eapply unready_closed_with; eauto.
    + intros [= <- <-]. apply (unready_shutdown e); first [done|by left|by apply Hcl|by repeat constructor|right; eauto].
Qed.

Lemma unready_step k l e hist e' ev :
  unready e hist -> opts e = o -> walEnabled o = true -> start_ok l -> step Encode Decode l e = Some (e', ev) ->
  unready e' (hist ++ ev) \/
  exists env s ls wh, opening env (walDir o) (walOpts o) n d N /\ durable_ok Encode Decode d env (S k) e' (hist ++ ev) s ls wh.
Proof.
  intros Hu Ho Hw Hl Hs. pose proof (un_producers _ _ Hu) as Hp. destruct (un_crew _ _ Hu) as [Hc _].
  assert (forall tid, producers e !! tid = None) as Hp' by (intros tid; by rewrite Hp, lookup_empty).
  assert (forall i, crew e !! i = None) as Hc' by (intros i; by rewrite Hc).
  destruct l as [env|tid x|tid|tid|tid|l|i renv|i|i|i|i r|i|i rm|i|i|i|i|i| | | |err| | |];
    try (left; by eapply unready_life; [exact Hu| |exact Hs]); try (left; by eapply unready_log; [exact Hu| |exact Hs]);
    cbn [step] in Hs.
  - destruct (unready_start k e hist env e' ev) as [?|(s & ls & wh & ?)]; [done..|by left|]. right. by exists env, s, ls, wh.
  - left. unfold Enqueue_check in Hs. rewrite Hp', (un_ready _ _ Hu) in Hs. injection Hs as <- <-.
    apply unready_same; [done|by repeat constructor|by intros ?%list_elem_of_singleton].
  - unfold Enqueue_admit in Hs. by rewrite Hp' in Hs.
  - unfold Enqueue_send in Hs. by rewrite Hp' in Hs.
  - unfold Enqueue_done in Hs. by rewrite Hp' in Hs.
  - unfold durable_claim in Hs. by rewrite Hc' in Hs.
  - unfold durable_drained in Hs. by rewrite Hc' in Hs.
  - unfold durable_wake in Hs. by rewrite Hc' in Hs.
  - unfold durable_tick in Hs. by rewrite Hc' in Hs.
  - unfold storeBatch in Hs. by rewrite Hc' in Hs.
  - unfold store_retry in Hs. by rewrite Hc' in Hs.
  - unfold store_ack in Hs. by rewrite Hc' in Hs.
  - unfold durable_release in Hs. by rewrite Hc' in Hs.
  - unfold worker_receive in Hs. by rewrite Hc' in Hs.
  - unfold worker_tick in Hs. by rewrite Hc' in Hs.
  - unfold worker_drain in Hs. by rewrite Hc' in Hs.
  - unfold worker_empty in Hs. by rewrite Hc' in Hs.
Qed.

Lemma inv_step l k e e' hist ev :
  walEnabled o = true -> start_ok l -> inv k e hist -> step Encode Decode l e = Some (e', ev) -> inv (S k) e' (hist ++ ev).
Proof using codec.
  intros Hw Hl Hi Hs Hk. destruct (Hi ltac:(lia)) as [Ho H]. pose proof (step_opts _ _ _ _ Hs) as Eo. split; [congruence|].
  destruct H as [Hu|(env & s & ls & wh & Hop & Hd)]; [by eapply unready_step|].
  assert (opening env (walDir (opts e)) (walOpts (opts e)) n d (length ls)) as Hop'.
  { rewrite Ho. eapply opening_le; [done|]. pose proof (du_steps _ _ _ _ _ _ _ _ _ _ Hd). lia. }
  right. destruct (durable_step Encode Decode d env codec k e hist s ls wh n l e' ev Hd Hop' Hs) as (s' & ls' & wh' & Hd'). by exists env, s', ls', wh'.
Qed.

Lemma inv_new l e : NewEngine true l d = inr e -> newOptions l = o -> inv 0 e [].
Proof.
  unfold NewEngine. cbn [negb]. destruct (_ && _); [done|]. intros [= <-] <- _. split; [done|left].
  split; cbn; [done|done|done|constructor|done|]. intros _. split_and!; [done|by left|apply not_elem_of_nil].
Qed.

End theorems.

Section properties.
Context {T : Type} (Encode : T -> error + bytes) (Decode : bytes -> error + T).

(** The circumstances of a run: the codec round-trips, the options give a log,
    and [Start] meets a directory it can open. *)
Record circumstances (l : list Option) (d : disk) (n : Z) (ls : list (label T)) (e0 : Engine T) : Prop := {
  ci_codec : forall x p, Encode x = inr p -> Decode p = inr x;
  ci_new : NewEngine true l d = inr e0;
  ci_wal : walEnabled (newOptions l) = true;
  ci_start : Forall (start_ok (newOptions l) d n (length ls)) ls
}.

Lemma run_state l d n ls e0 e hist :
  circumstances l d n ls e0 -> run Encode Decode ls e0 = Some (e, hist) -> inv Encode Decode (newOptions l) d n (length ls) (length ls) e hist.
Proof.
  intros [Hco Hnew Hw Hst] Hrun.
  apply (run_inv Encode Decode (start_ok (newOptions l) d n (length ls)) (inv Encode Decode (newOptions l) d n (length ls)) ls e0 e [] hist 0) in Hrun;
    [done| |done|by eapply inv_new].
  intros l' k e1 e1' h1 ev1 Hl' Hi Hs. by eapply inv_step.
Qed.

(** C3: a logged item is not lost.  Run an engine with a log from [NewEngine],
    however its producers, its workers, the sink's failures, the log's group
    commits and failures, [Start] and [Shutdown] interleave, and stop it at any
    point.  An item [Enqueue] reported as logged was in a sink call that
    returned nil, or opening the log's directory again succeeds and returns a
    record that decodes to it, from which the next [Start] delivers it. *)
Theorem logged_delivered_or_recovered l d n ls e0 e hist x :
  circumstances l d n ls e0 -> run Encode Decode ls e0 = Some (e, hist) -> logged hist x ->
  (exists off, delivered hist off x) \/
  exists s, log e = Some s /\ forall env, quiet env ->
    exists w recovered d2 off p, Open env (walDir (newOptions l)) (walOpts (newOptions l)) (WalSystem.dsk s) = (inr (w, recovered), d2) /\
      mkRecord off p ∈ recovered /\ Decode p = inr x.
Proof.
  intros Hci Hrun Hx. destruct (run_state _ _ _ _ _ _ _ Hci Hrun ltac:(lia)) as [Ho [Hu|(env & s & wls & wh & Hop & Hd)]].
  { by destruct (idle_logged _ x (un_hist _ _ _ Hu)). }
  assert (opening env (walDir (opts e)) (walOpts (opts e)) n d (length wls)) as Hop'
    by (rewrite Ho; eapply opening_le; [done|apply (du_steps _ _ _ _ _ _ _ _ _ _ Hd)]).
  destruct (logged_record Encode Decode d env (ci_codec _ _ _ _ _ Hci) _ _ _ _ _ _ n x Hd Hop' Hx) as (off & p & Ht & Hdec & Hdel).
  destruct (decide (acked_in wh off)) as [Ha|Hna]; [left; exists off; auto|right].
  exists s. split; [apply Hd|]. intros env' Hq. rewrite Ho in Hop'. pose proof (du_reach _ _ _ _ _ _ _ _ _ _ Hd) as Hr. rewrite Ho in Hr.
  destruct (reopen_told _ _ _ _ _ _ _ _ env' Hop' Hr Hq) as (w & rec & d2 & HO & Hrec). exists w, rec, d2, off, p. auto.
Qed.

(** C28: a session delivers no record twice and the workers do not share one.
    In any such run the sink calls that returned nil were given each record of
    the log at most once, no record is in the hands of two workers, and the
    in-flight set is bounded by the batches of the workers. *)
Theorem records_claimed_once l d n ls e0 e hist :
  circumstances l d n ls e0 -> run Encode Decode ls e0 = Some (e, hist) ->
  NoDup (stored_offsets hist) /\ NoDup (concat (claims_of <$> crew e)) /\
  Z.of_nat (base.size (inFlight e)) <= workers (newOptions l) * batchSize (newOptions l).
Proof.
  intros Hci Hrun. destruct (newOptions_ok l) as (_ & Hb & Hw & _).
  destruct (run_state _ _ _ _ _ _ _ Hci Hrun ltac:(lia)) as [Ho [Hu|(env & s & wls & wh & Hop & Hd)]].
  { destruct (un_crew _ _ _ Hu) as [-> ->]. rewrite (idle_offsets _ (un_hist _ _ _ Hu)), size_empty.
    split_and!; [constructor|constructor|]. nia. }
  pose proof (du_crew _ _ _ _ _ _ _ _ _ _ Hd) as Hcr. split_and!.
  - pose proof (cr_once _ _ _ _ _ _ Hcr) as Hon. by apply NoDup_app in Hon as (? & _ & _).
  - apply Hcr.
  - pose proof (cr_size _ _ _ _ _ _ Hcr) as Hs. pose proof (du_workers _ _ _ _ _ _ _ _ _ _ Hd) as Hlen. rewrite Ho in *.
    assert (forall c, Forall (worker_ok Decode (Z.to_nat (batchSize (newOptions l))) wh hist) c ->
      (sum_list_with (weight (Z.to_nat (batchSize (newOptions l)))) c <= length c * Z.to_nat (batchSize (newOptions l)))%nat) as Hsum.
    { induction 1 as [|w c Hok _ IH]; [done|]. cbn. destruct w; cbn in *; try lia; tauto || (destruct Hok as (_ & _ & ?); lia). }
    specialize (Hsum _ (cr_workers _ _ _ _ _ _ Hcr)). rewrite Hlen in Hsum. nia.
Qed.

(** C14: a [Shutdown] without an error has delivered everything.  When the call
    that owns the drain returned nil, every item reported as logged was in a
    sink call that returned nil. *)
Theorem shutdown_delivers_logged l d n ls e0 e hist x :
  circumstances l d n ls e0 -> run Encode Decode ls e0 = Some (e, hist) -> EvShutdown true None ∈ hist -> logged hist x ->
  exists off, delivered hist off x.
Proof.
  intros Hci Hrun Hsh Hx. destruct (run_state _ _ _ _ _ _ _ Hci Hrun ltac:(lia)) as [Ho [Hu|(env & s & wls & wh & Hop & Hd)]].
  - by destruct (idle_logged _ x (un_hist _ _ _ Hu)).
  - destruct (li_over _ _ _ (du_life _ _ _ _ _ _ _ _ _ _ Hd) Hsh) as [_ Ha]. by apply Ha.
Qed.

End properties.

(** ** An engine in operation *)

(** Items of one byte. *)
Definition encode_byte (b : byte) : error + bytes := inr [b].
Definition decode_byte (p : bytes) : error + byte :=
  match p with [b] => inr b | _ => inl (ErrNew "not one byte") end.

Definition log_options : list Option := [WithWAL "wal" true Wal.defaultOptions].
Definition good_reads : readEnv := mkReadEnv (fun _ => None) (fun _ _ => None).

(** [Enqueue] of an item, alone, with its group commit. *)
Definition enqueue_labels (tid : nat) (b : byte) : list (label byte) :=
  [LCheck tid b; LAdmit tid] ++ (LLog <$> tail (append_labels tid [b])).

(** Two items; the first is delivered, the second claimed. *)
Definition open_labels : list (label byte) :=
  LStart quiet_env :: enqueue_labels 0 x61 ++
  [LClaim 0 good_reads; LStore 0 (Some (ErrNew "unavailable")); LRetry 0; LStore 0 None; LAck 0 true; LRelease 0] ++
  enqueue_labels 0 x62 ++ [LClaim 1 good_reads].
Definition open_events : list (event byte) :=
  [EvStart None; EvEnqueue x61 (inr Logged); EvStore [mkOffset 1 0] [x61] (Some (ErrNew "unavailable"));
   EvStore [mkOffset 1 0] [x61] None; EvEnqueue x62 (inr Logged)].

(** Then the second is delivered and the engine shut down. *)
Definition closed_labels : list (label byte) :=
  open_labels ++ [LStore 1 None; LAck 1 true; LRelease 1; LShutdown; LSeal; LClaim 0 good_reads; LClaim 1 good_reads; LDrained 1;
    LDrained 0; LFinished; LCount; LClose; LLog (WalSystem.LFsyncTick true); LLog (WalSystem.LFsyncSync None);
    LLog WalSystem.LCloseMark; LLog (WalSystem.LCloseFinish None None None); LReturn].
Definition closed_events : list (event byte) :=
  open_events ++ [EvStore [mkOffset 1 9] [x62] None; EvShutdown true None].

Lemma open_circumstances : exists e0, circumstances encode_byte decode_byte log_options no_disk 1 open_labels e0 /\
  exists e, run encode_byte decode_byte open_labels e0 = Some (e, open_events).
Proof.
  eexists. split.
  - split; [by intros x p [= <-]|reflexivity|reflexivity|]. constructor; [by apply no_disk_opening|by repeat constructor].
  - eexists. vm_compute. reflexivity.
Qed.

Lemma closed_circumstances : exists e0, circumstances encode_byte decode_byte log_options no_disk 1 closed_labels e0 /\
  exists e, run encode_byte decode_byte closed_labels e0 = Some (e, closed_events).
Proof.
  eexists. split.
  - split; [by intros x p [= <-]|reflexivity|reflexivity|]. constructor; [by apply no_disk_opening|by repeat constructor].
  - eexists. vm_compute. reflexivity.
Qed.

(** The second item, not delivered yet, is found in the log. *)
Lemma logged_delivered_or_recovered_witness :
  (exists off, delivered open_events off x62) \/
  exists s, forall env, quiet env -> exists w recovered d2 off p,
    Open env "wal" Wal.defaultOptions (WalSystem.dsk s) = (inr (w, recovered), d2) /\ mkRecord off p ∈ recovered /\ decode_byte p = inr x62.
Proof.
  destruct open_circumstances as (e0 & Hci & e & Hrun).
  destruct (logged_delivered_or_recovered encode_byte decode_byte log_options no_disk 1 open_labels e0 e open_events x62) as [?|(s & _ & Hs)].
  - exact Hci.
  - exact Hrun.
  - do 4 constructor 2. constructor 1.
  - by left.
  - right. exists s. exact Hs.
Defined.

Lemma records_claimed_once_witness : NoDup (stored_offsets open_events).
Proof.
  destruct open_circumstances as (e0 & Hci & e & Hrun).
  apply (records_claimed_once encode_byte decode_byte log_options no_disk 1 open_labels e0 e open_events Hci Hrun).
Defined.

Lemma shutdown_delivers_logged_witness : exists off, delivered closed_events off x62.
Proof.
  destruct closed_circumstances as (e0 & Hci & e & Hrun).
  apply (shutdown_delivers_logged encode_byte decode_byte log_options no_disk 1 closed_labels e0 e closed_events x62 Hci Hrun).
  - do 6 constructor 2. constructor 1.
  - do 4 constructor 2. constructor 1.
Defined.

End DispatchTheorems.
