(* ===== verification/Keyset.v ===== *)
(** * Page tokens and pagers: data/keyset

    A [Codec] issues and resolves signed page tokens; [Typed] and [OffsetTokens]
    carry a cursor and a position in one; a [SlicePager] pages a slice with
    them.  The clock is read once per call and is an argument ([now]).  The
    signer is its key: pooled hash states are reset before use.  A cursor type
    is an instance of [Cursor], its JSON encoding. *)

From S2P Require Import Prelude GoBytes GoStrings Keys.
From Stdlib Require Import Strings.Byte.
Open Scope go_scope.

Module Keyset.
Import GoBytes GoStrings Keys.

(** ** Tokens *)

Definition ErrInvalidToken : error := ErrNew "keyset: invalid page token".
Definition ErrExpiredToken : error := ErrNew "keyset: page token expired".
Definition ErrSortChanged : error := ErrNew "keyset: sort changed since the page token was issued".
Definition ErrFilterChanged : error := ErrNew "keyset: filter changed since the page token was issued".
Definition ErrSubjectMismatch : error := ErrNew "keyset: page token issued to another subject".
Definition ErrPayloadTooLarge : error := ErrNew "keyset: payload too large".
Definition ErrWeakKey : error := ErrNew "keyset: signing key too short".

Record Bindings := mkBindings { b_Sort : string; b_Filter : string; b_Subject : string }.

Definition version : byte := x01.
Definition digestLength : Z := 16.
Definition macLength : Z := 32.
Definition headerLength : Z := 1 + 8 + 3 * digestLength.
Definition MinKeyLength : Z := 32.
Definition MaxPayloadLength : Z := 1024.
Definition maxRawLength : Z := headerLength + Z.of_nat MaxVarintLen64 + MaxPayloadLength + macLength.
Definition maxTokenLength : Z := EncodedLen maxRawLength.

Definition DefaultTTL : Go.duration := 24 * 3600 * 1000000000.
Definition DefaultMaxClockSkew : Go.duration := 60 * 1000000000.

Record options := mkOptions {
  ttl : Go.duration;
  expiryDisabled : bool;
  maxClockSkew : Go.duration;
  previousKeys : list bytes
}.
Definition defaultOptions : options := mkOptions DefaultTTL false DefaultMaxClockSkew [].

Definition WithTTL (v : Go.duration) (o : options) : options :=
  if v <=? 0 then o else mkOptions v (expiryDisabled o) (maxClockSkew o) (previousKeys o).
Definition WithExpiryDisabled (o : options) : options :=
  mkOptions (ttl o) true (maxClockSkew o) (previousKeys o).
Definition WithMaxClockSkew (v : Go.duration) (o : options) : options :=
  if v <=? 0 then o else mkOptions (ttl o) (expiryDisabled o) v (previousKeys o).
Definition WithPreviousKeys (v : list bytes) (o : options) : options :=
  mkOptions (ttl o) (expiryDisabled o) (maxClockSkew o) (previousKeys o ++ v).

Record Codec := mkCodec { key : bytes; previous : list bytes; opts : options }.

(** The error of the first previous key that is too short. *)
Fixpoint weak_previous (ks : list bytes) : option error :=
  match ks with
  | [] => None
  | k :: ks =>
      if zlen k <? MinKeyLength
      then Some (ErrSuffix ErrWeakKey (": previous key of " +:+ pretty (zlen k) +:+ " bytes, minimum " +:+ pretty MinKeyLength))
      else weak_previous ks
  end.

Definition New (k : bytes) (o : options) : error + Codec :=
  if zlen k <? MinKeyLength
  then inl (ErrSuffix ErrWeakKey (": " +:+ pretty (zlen k) +:+ " bytes, minimum " +:+ pretty MinKeyLength))
  else
    match weak_previous (previousKeys o) with
    | Some e => inl e
    | None => inr (mkCodec k (previousKeys o) o)
    end.

(** [Time.UnixMilli] and [time.UnixMilli]. *)
Definition nanos_per_milli : Z := 1000000.
Definition epoch_milli : Z := Go.unix_epoch_sec * 1000.
Definition unix_milli (t : Go.time) : Z := Go.i64 (t / nanos_per_milli - epoch_milli).
Definition time_of_milli (ms : Z) : Go.time := (ms + epoch_milli) * nanos_per_milli.

Definition digest (s : string) : bytes := take (Z.to_nat digestLength) (Sum256 (String.list_byte_of_string s)).

Definition appendDigests (dst : bytes) (b : Bindings) : bytes :=
  dst ++ digest (b_Sort b) ++ digest (b_Filter b) ++ digest (b_Subject b).

(** The codec handles [codecChunk] characters at a time. *)
Definition codecChunk : nat := 256.
Definition rawChunk : nat := codecChunk / 4 * 3.

Fixpoint encode_loop (fuel : nat) (raw : bytes) : bytes :=
  match fuel, raw with
  | S fuel, _ :: _ =>
      let n := Nat.min (length raw) rawChunk in
      b64_encode (take n raw) ++ encode_loop fuel (drop n raw)
  | _, _ => []
  end.
Definition encodeToken (raw : bytes) : bytes := encode_loop (length raw) raw.

Fixpoint decode_loop (fuel : nat) (token : bytes) : option bytes :=
  match fuel, token with
  | S fuel, _ :: _ =>
      let k := Nat.min (length token) codecChunk in
      match b64_decode (take k token) with
      | None => None
      | Some m => (fun rest => m ++ rest) <$> decode_loop fuel (drop k token)
      end
  | _, _ => Some []
  end.
Definition decodeToken (token : bytes) : option bytes := decode_loop (length token) token.

(** [signer.appendMAC] and [signer.verify]. *)
Definition appendMAC (k dst body : bytes) : bytes := dst ++ hmac k body.
Definition signer_verify (k body mac : bytes) : bool := hmac_Equal mac (hmac k body).

Definition verify (c : Codec) (body mac : bytes) : bool :=
  signer_verify (key c) body mac || existsb (fun k => signer_verify k body mac) (previous c).

Definition Issue (c : Codec) (now : Go.time) (payload : bytes) (b : Bindings) : error + bytes :=
  if MaxPayloadLength <? zlen payload
  then inl (ErrSuffix ErrPayloadTooLarge (": " +:+ pretty (zlen payload) +:+ " bytes, maximum " +:+ pretty MaxPayloadLength))
  else
    let body := [version] in
    let body := AppendUint64 body (unix_milli now) in
    let body := appendDigests body b in
    let body := AppendUvarint body (zlen payload) in
    let body := body ++ payload in
    let body := appendMAC (key c) body body in
    inr (encodeToken body).

Definition in_alphabet (c : byte) : bool :=
  let v := Z_of_byte c in
  ((65 <=? v) && (v <=? 90)) || ((97 <=? v) && (v <=? 122)) || ((48 <=? v) && (v <=? 57)) || (v =? 45) || (v =? 95).
Definition canonicalAlphabet (token : bytes) : bool := forallb in_alphabet token.

(** The checks [Resolve] makes once the signature is verified. *)
Definition resolve_body (o : options) (now : Go.time) (body : bytes) (b : Bindings) : error + bytes :=
  if negb (bool_decide (head body = Some version)) then inl ErrInvalidToken
  else
    let issued := time_of_milli (Go.i64 (Uint64 (zslice 1 9 body))) in
    if Go.after issued (now + maxClockSkew o) then inl ErrInvalidToken
    else if negb (expiryDisabled o) && (ttl o <? Go.sub now issued) then inl ErrExpiredToken
    else
      let digests := zslice 9 headerLength body in
      if negb (hmac_Equal (zslice 0 digestLength digests) (digest (b_Sort b))) then inl ErrSortChanged
      else if negb (hmac_Equal (zslice digestLength (2 * digestLength) digests) (digest (b_Filter b))) then inl ErrFilterChanged
      else if negb (hmac_Equal (drop (Z.to_nat (2 * digestLength)) digests) (digest (b_Subject b))) then inl ErrSubjectMismatch
      else
        let '(n, size) := Uvarint (drop (Z.to_nat headerLength) body) in
        let rest := drop (Z.to_nat (headerLength + Z.max size 0)) body in
        if (size <=? 0) || (MaxPayloadLength <? n) || negb (n =? zlen rest) then inl ErrInvalidToken
        else inr rest.

Definition Resolve (c : Codec) (now : Go.time) (token : bytes) (b : Bindings) : error + bytes :=
  if (zlen token =? 0) || (maxTokenLength <? zlen token) || negb (canonicalAlphabet token) then inl ErrInvalidToken
  else
    match decodeToken token with
    | None => inl ErrInvalidToken
    | Some raw =>
        if zlen raw <? headerLength + 1 + macLength then inl ErrInvalidToken
        else
          let body := take (Z.to_nat (zlen raw - macLength)) raw in
          let mac := drop (Z.to_nat (zlen raw - macLength)) raw in
          if negb (verify c body mac) then inl ErrInvalidToken
          else resolve_body (opts c) now body b
    end.

(** ** Cursors *)

Definition ErrCodecRequired : error := ErrNew "keyset: page token given without a codec".
Definition ErrNegativeOffset : error := ErrNew "keyset: negative offset".

Definition NewBindings (subject sort : string) (filter : list string) : Bindings :=
  mkBindings sort (Compose filter) subject.

(** What the package needs of a cursor type: [json.Marshal], [json.Unmarshal]
    and the zero value. *)
Class Cursor (C : Type) := {
  marshal : C -> error + bytes;
  unmarshal : bytes -> error + C;
  zero_cursor : C
}.

Record Typed (C : Type) := mkTyped { codec : option Codec }.
Arguments mkTyped {C} _.
Arguments codec {C} _.

Section Typed.
Context {C : Type} `{Cursor C}.

Definition typed_Issue (t : Typed C) (now : Go.time) (cursor : C) (b : Bindings) : error + bytes :=
  match codec t with
  | None => inr []
  | Some c =>
      match marshal cursor with
      | inl e => inl (ErrWrap "keyset: marshal cursor: " e)
      | inr payload => Issue c now payload b
      end
  end.

(** The cursor, and whether the token selects the first page. *)
Definition typed_Resolve (t : Typed C) (now : Go.time) (token : bytes) (b : Bindings) : error + C * bool :=
  match token, codec t with
  | [], _ => inr (zero_cursor, true)
  | _, None => inl ErrCodecRequired
  | _, Some c =>
      match Resolve c now token b with
      | inl e => inl e
      | inr payload =>
          match unmarshal payload with
          | inl _ => inl ErrInvalidToken
          | inr cursor => inr (cursor, false)
          end
      end
  end.

End Typed.

(** *** The JSON encoding of an [int] *)

Definition json_of_int (n : Z) : bytes := FormatInt n.

Definition json_space (c : byte) : bool := existsb (Z.eqb (Z_of_byte c)) [32; 9; 10; 13].
Fixpoint skip_space (l : bytes) : bytes :=
  match l with c :: l' => if json_space c then skip_space l' else l | [] => [] end.
Definition trim_space (l : bytes) : bytes := rev (skip_space (rev (skip_space l))).

(** A natural number without leading zeros. *)
Definition natural (l : bytes) : option Z :=
  match l with
  | [] => None
  | c :: _ :: _ => if Z_of_byte c =? 48 then None else digits_value l
  | _ => digits_value l
  end.
Definition json_error : error := ErrNew "json: cannot unmarshal into Go value of type int".
Definition int_of_json (l : bytes) : error + Z :=
  let t := trim_space l in
  if bool_decide (t = String.list_byte_of_string "null") then inr 0
  else
    match (match t with c :: ds => if bool_decide (c = x2d) then Z.opp <$> natural ds else natural t | [] => None end) with
    | Some n => if (Go.min_int64 <=? n) && (n <=? Go.max_int64) then inr n else inl json_error
    | None => inl json_error
    end.

#[export] Instance int_cursor : Cursor Z := {
  marshal n := inr (json_of_int n);
  unmarshal := int_of_json;
  zero_cursor := 0
}.

(** [Offset] of the package. *)
Record OffsetTokens := mkOffset { typed : Typed Z }.

Definition offset_Issue (o : OffsetTokens) (now : Go.time) (offset : Z) (b : Bindings) : error + bytes :=
  if offset <? 0 then inl (ErrSuffix ErrNegativeOffset (": " +:+ pretty offset))
  else typed_Issue (typed o) now offset b.

Definition offset_Resolve (o : OffsetTokens) (now : Go.time) (token : bytes) (b : Bindings) : error + Z :=
  match typed_Resolve (typed o) now token b with
  | inl e => inl e
  | inr (offset, _) => if offset <? 0 then inl ErrInvalidToken else inr offset
  end.

Inductive Failure := FailureNone | FailureMalformed | FailureExpired.

Definition Classify (err : option error) : Failure :=
  match err with
  | None => FailureNone
  | Some e =>
      if Errors.Is ErrExpiredToken e then FailureExpired
      else if Errors.Is ErrInvalidToken e || Errors.Is ErrSortChanged e || Errors.Is ErrFilterChanged e ||
              Errors.Is ErrSubjectMismatch e || Errors.Is ErrCodecRequired e then FailureMalformed
      else FailureNone
  end.

(** ** Pagers *)

(** [PageSize], of a request of any integer type. *)
Definition PageSize (requested def maxSize : Z) : Z :=
  let maxSize := Z.max maxSize 1 in
  if 0 <? requested then
    if maxSize <? requested then maxSize else Z.min (Z.max requested 1) maxSize
  else Z.min (Z.max def 1) maxSize.

Record SlicePage (T : Type) := mkPage { Items : list T; Next : bytes }.
Arguments mkPage {T} _ _.
Arguments Items {T} _.
Arguments Next {T} _.

Record SlicePager (T : Type) := mkPager {
  start : Go.time -> list T -> bytes -> Bindings -> error + Z;
  next : Go.time -> list T -> Z -> Bindings -> error + bytes
}.
Arguments mkPager {T} _ _.
Arguments start {T} _.
Arguments next {T} _.

(** [slices.IndexFunc]. *)
Fixpoint IndexFunc {T} (f : T -> bool) (l : list T) : Z :=
  match l with
  | [] => -1
  | x :: l => if f x then 0 else let i := IndexFunc f l in if i <? 0 then i else i + 1
  end.

(** [tokens.Issue(key(items[end-1]), b)]; [end] is positive there. *)
Definition NewSlicePager {T C} `{Cursor C} (tokens : Typed C) (keyf : T -> C) (compare : C -> C -> Z) : SlicePager T :=
  mkPager
    (fun now items token b =>
       match typed_Resolve tokens now token b with
       | inl e => inl e
       | inr (_, true) => inr 0
       | inr (after, false) =>
           let i := IndexFunc (fun it => 0 <? compare (keyf it) after) items in
           inr (if i <? 0 then zlen items else i)
       end)
    (fun now items e b =>
       match items !! Z.to_nat (e - 1) with
       | Some it => typed_Issue tokens now (keyf it) b
       | None => inl ErrInvalidToken
       end).

Definition NewSliceOffsetPager {T} (tokens : OffsetTokens) : SlicePager T :=
  mkPager
    (fun now items token b =>
       match offset_Resolve tokens now token b with
       | inl e => inl e
       | inr offset => if zlen items <? offset then inl ErrInvalidToken else inr offset
       end)
    (fun now _ e b => offset_Issue tokens now e b).

Definition Page {T} (p : SlicePager T) (now : Go.time) (items : list T) (size : Z) (token : bytes) (b : Bindings) :
    error + SlicePage T :=
  match start p now items token b with
  | inl e => inl e
  | inr st =>
      let en := st + Z.min (Z.max size 1) (zlen items - st) in
      let page := zslice st en items in
      if en <? zlen items then
        match next p now items en b with
        | inl e => inl e
        | inr tok => inr (mkPage page tok)
        end
      else inr (mkPage page [])
  end.

End Keyset.
