(* ===== verification/KeysetTheorems.v ===== *)
(** * What page tokens and pagers promise *)

From S2P Require Import Prelude GoBytes GoStrings Keys Keyset.
From Stdlib Require Import Strings.Byte.

Module KeysetTheorems.
Import GoBytes GoStrings Keys Keyset.

(** ** Coding in chunks *)

Abbreviation plain := (Forall (fun c => is_newline c = false)).

Lemma encode_loop_eq fuel raw : (length raw <= fuel)%nat -> encode_loop fuel raw = b64_encode raw.
Proof.
  revert raw. induction fuel as [|fuel IH]; intros raw Hl; [by destruct raw; [|cbn in Hl; lia]|].
  destruct raw as [|c raw]; [done|]. cbn [encode_loop]. set (l := c :: raw) in *.
  assert (0 < length l)%nat by (unfold l; cbn; lia).
  destruct (decide (length l <= rawChunk)%nat) as [Hs|Hb].
  - rewrite Nat.min_l, take_ge, drop_ge by lia. rewrite IH by (cbn; lia). apply app_nil_r.
  - change rawChunk with 192%nat in *. rewrite Nat.min_r by lia. rewrite IH by (rewrite length_drop; lia).
    rewrite <-(b64_encode_app _ _ 64), take_drop; [done|]. rewrite length_take. lia.
Qed.

Lemma decode_loop_eq fuel token : plain token -> (length token <= fuel)%nat -> decode_loop fuel token = b64_decode token.
Proof.
  revert token. induction fuel as [|fuel IH]; intros token Hp Hl; [by destruct token; [|cbn in Hl; lia]|].
  destruct token as [|c token]; [done|]. cbn [decode_loop]. set (l := c :: token) in *.
  assert (0 < length l)%nat by (unfold l; cbn; lia).
  destruct (decide (length l <= codecChunk)%nat) as [Hs|Hb].
  - rewrite Nat.min_l, take_ge, drop_ge by lia. destruct (b64_decode l); [|done].
    assert (decode_loop fuel [] = Some []) as -> by (by destruct fuel). cbn. by rewrite app_nil_r.
  - change codecChunk with 256%nat in *. rewrite Nat.min_r by lia.
    rewrite IH by (first [by apply Forall_drop | rewrite length_drop; lia]).
    replace (b64_decode l) with (b64_decode (take 256 l ++ drop 256 l)) by (by rewrite take_drop).
    rewrite (b64_decode_app _ _ 64) by (first [by apply Forall_take | rewrite length_take; lia]).
    destruct (b64_decode (take 256 l)); [|done]. cbn. by destruct (b64_decode (drop 256 l)).
Qed.

Lemma encodeToken_eq raw : encodeToken raw = b64_encode raw.
Proof. by apply encode_loop_eq. Qed.

Lemma decodeToken_eq token : plain token -> decodeToken token = b64_decode token.
Proof. intros Hp. by apply decode_loop_eq. Qed.

(** ** The alphabet *)

Lemma in_alphabet_plain c : in_alphabet c = true -> is_newline c = false.
Proof.
  unfold in_alphabet, is_newline. rewrite !orb_true_iff, !andb_true_iff. intros H. apply orb_false_iff. lia.
Qed.

Lemma canonical_plain token : canonicalAlphabet token = true -> plain token.
Proof.
  unfold canonicalAlphabet. rewrite forallb_forall. intros H. apply list.Forall_forall. intros c Hc.
  by apply in_alphabet_plain, H, list_elem_of_In.
Qed.

Lemma b64_encode_canonical raw : canonicalAlphabet (b64_encode raw) = true.
Proof.
  destruct (b64_encode_values raw) as [-> HF]. apply forallb_forall. intros c Hc. apply list_elem_of_In in Hc.
  apply list_elem_of_fmap in Hc as (v & -> & Hv). rewrite list.Forall_forall in HF.
  apply (range_check (fun v => in_alphabet (b64_char v)) 64); [by vm_compute|auto].
Qed.

(** ** The body of a token *)

Lemma length_digest s : length (digest s) = 16%nat.
Proof. unfold digest. rewrite length_take, length_Sum256. done. Qed.

Lemma resolve_body_parts o now v ms d1 d2 d3 tail b :
  length ms = 8%nat -> length d1 = 16%nat -> length d2 = 16%nat -> length d3 = 16%nat ->
  resolve_body o now (v :: ms ++ d1 ++ d2 ++ d3 ++ tail) b =
    if negb (bool_decide (v = version)) then inl ErrInvalidToken
    else if Go.after (time_of_milli (Go.i64 (be_value ms))) (now + maxClockSkew o) then inl ErrInvalidToken
    else if negb (expiryDisabled o) && (ttl o <? Go.sub now (time_of_milli (Go.i64 (be_value ms)))) then inl ErrExpiredToken
    else if negb (bool_decide (d1 = digest (b_Sort b))) then inl ErrSortChanged
    else if negb (bool_decide (d2 = digest (b_Filter b))) then inl ErrFilterChanged
    else if negb (bool_decide (d3 = digest (b_Subject b))) then inl ErrSubjectMismatch
    else
      let '(n, size) := Uvarint tail in
      let rest := drop (Z.to_nat size) tail in
      if (size <=? 0) || (MaxPayloadLength <? n) || negb (n =? zlen rest) then inl ErrInvalidToken else inr rest.
Proof.
  intros Hm H1 H2 H3. unfold resolve_body. cbn [head].
  replace (bool_decide (Some v = Some version)) with (bool_decide (v = version))
    by (apply bool_decide_ext; split; [by intros ->|by intros [= ->]]).
  assert (Uint64 (zslice 1 9 (v :: ms ++ d1 ++ d2 ++ d3 ++ tail)) = be_value ms) as ->.
  { unfold Uint64, zslice. change (Z.to_nat (9 - 1)) with 8%nat. change (Z.to_nat 1) with 1%nat. cbn [drop].
    by rewrite drop_0, take_app_length', take_ge by lia. }
  assert (zslice 9 headerLength (v :: ms ++ d1 ++ d2 ++ d3 ++ tail) = d1 ++ d2 ++ d3) as ->.
  { unfold zslice. change (Z.to_nat (headerLength - 9)) with 48%nat. change (Z.to_nat 9) with 9%nat. cbn [drop].
    rewrite drop_app_length' by lia. rewrite !app_assoc. rewrite take_app_length'; [done|]. rewrite !length_app. lia. }
  assert (zslice 0 digestLength (d1 ++ d2 ++ d3) = d1) as ->.
  { unfold zslice. change (Z.to_nat (digestLength - 0)) with 16%nat. change (Z.to_nat 0) with 0%nat.
    by rewrite drop_0, take_app_length'. }
  assert (zslice digestLength (2 * digestLength) (d1 ++ d2 ++ d3) = d2) as ->.
  { unfold zslice. change (Z.to_nat (2 * digestLength - digestLength)) with 16%nat.
    change (Z.to_nat digestLength) with 16%nat. by rewrite drop_app_length', take_app_length'. }
  assert (drop (Z.to_nat (2 * digestLength)) (d1 ++ d2 ++ d3) = d3) as ->.
  { change (Z.to_nat (2 * digestLength)) with 32%nat. rewrite app_assoc, drop_app_length'; [done|]. rewrite length_app. lia. }
  assert (forall k, drop (Z.to_nat headerLength + k) (v :: ms ++ d1 ++ d2 ++ d3 ++ tail) = drop k tail) as Hd.
  { intros k. change (Z.to_nat headerLength + k)%nat with (S (56 + k)). cbn [drop]. rewrite <-drop_drop, !app_assoc.
    rewrite drop_app_length'; [done|]. rewrite !length_app. lia. }
  assert (drop (Z.to_nat headerLength) (v :: ms ++ d1 ++ d2 ++ d3 ++ tail) = tail) as ->
    by (specialize (Hd 0%nat); by rewrite Nat.add_0_r, drop_0 in Hd).
  unfold hmac_Equal. destruct (Uvarint tail) as [n size].
  rewrite Z2Nat.inj_add, Hd by (unfold headerLength, digestLength; lia).
  by replace (Z.to_nat (Z.max size 0)) with (Z.to_nat size) by lia.
Qed.

(** a token has one encoding.  Coding in chunks is coding in one go;
    decoding gives back the bytes that were encoded; a token of the alphabet
    that decodes to [raw] is the encoding of [raw] and no other string, so a
    token cannot be altered without altering its bytes; and the bytes of a
    token of acceptable length fit the buffer they are decoded into. *)
Theorem token_coding_exact raw token :
  encodeToken raw = b64_encode raw /\
  decodeToken (encodeToken raw) = Some raw /\
  (canonicalAlphabet token = true -> decodeToken token = Some raw ->
   token = encodeToken raw /\ (zlen token <= maxTokenLength -> zlen raw <= maxRawLength)).
Proof.
  rewrite encodeToken_eq. split_and!; [done| |].
  - rewrite decodeToken_eq by apply b64_encode_plain. apply b64_decode_encode.
  - intros Hc Hd. apply canonical_plain in Hc. rewrite decodeToken_eq in Hd by done.
    pose proof (b64_encode_decode token raw Hc Hd) as <-. split; [done|].
    rewrite length_b64_encode. unfold maxTokenLength, maxRawLength, EncodedLen, headerLength, digestLength, MaxPayloadLength, macLength.
    pose proof (zlen_nonneg raw). change (Z.of_nat MaxVarintLen64) with 10. lia_mod.
Qed.

Lemma token_coding_exact_witness : String.list_byte_of_string "AQL_" = encodeToken [x01; x02; xff].
Proof. apply (token_coding_exact [x01; x02; xff]); by vm_compute. Defined.

(** ** Issuing and resolving *)

Definition token_body (ms : bytes) (b : Bindings) (uv payload : bytes) : bytes :=
  version :: ms ++ digest (b_Sort b) ++ digest (b_Filter b) ++ digest (b_Subject b) ++ uv ++ payload.

(** The token of the body signed with key [k]. *)
Definition signed_token (k body : bytes) : bytes := b64_encode (body ++ hmac k body).

Definition issued_body (now : Go.time) (payload : bytes) (b : Bindings) : bytes :=
  token_body (be_bytes 8 (unix_milli now)) b (uvarint_groups MaxVarintLen64 (zlen payload)) payload.

(** The issue time as the token carries it, to the millisecond. *)
Definition issue_time (now : Go.time) : Go.time := time_of_milli (unix_milli now).

Lemma Issue_eq c now payload b :
  zlen payload <= MaxPayloadLength -> Issue c now payload b = inr (signed_token (key c) (issued_body now payload b)).
Proof.
  intros Hl. unfold Issue. replace (MaxPayloadLength <? zlen payload) with false by lia.
  cbv zeta. rewrite encodeToken_eq. unfold signed_token, appendMAC.
  assert ((AppendUvarint (appendDigests (AppendUint64 [version] (unix_milli now)) b) (zlen payload) ++ payload) =
    issued_body now payload b) as ->; [|done].
  unfold issued_body, token_body, AppendUvarint, appendDigests, AppendUint64. rewrite <-!app_assoc. done.
Qed.

Lemma length_token_body ms b uv payload :
  length ms = 8%nat -> length (token_body ms b uv payload) = (57 + length uv + length payload)%nat.
Proof. intros Hm. unfold token_body. cbn. rewrite !length_app, !length_digest. lia. Qed.

Lemma length_groups fuel x : (length (uvarint_groups fuel x) <= fuel)%nat.
Proof. revert x. induction fuel as [|fuel IH]; intros x; [done|]. cbn. case_match; cbn; [lia|]. specialize (IH (x / 128)). lia. Qed.

Lemma groups_pos x : (0 < length (uvarint_groups MaxVarintLen64 x))%nat.
Proof. unfold MaxVarintLen64. cbn. case_match; cbn; lia. Qed.

Lemma i64_mod x : Go.i64 (x mod 2 ^ 64) = Go.i64 x.
Proof. unfold Go.i64. by rewrite Z.add_mod_idemp_l. Qed.

Lemma verify_spec c body mac : verify c body mac = true <-> exists k, k ∈ key c :: previous c /\ mac = hmac k body.
Proof.
  unfold verify, signer_verify, hmac_Equal. rewrite orb_true_iff, existsb_exists, bool_decide_eq_true. split.
  - intros [->|(k & Hk & E)]; [exists (key c); split; [by left|done]|]. apply list_elem_of_In in Hk.
    apply bool_decide_eq_true_1 in E. exists k. split; [by right|done].
  - intros (k & Hk & ->). apply elem_of_cons in Hk as [->|Hk]; [by left|right].
    exists k. split; [by apply list_elem_of_In|by apply bool_decide_eq_true_2].
Qed.

(** Resolving a signed token comes down to its body. *)
Lemma Resolve_signed c now body mac b :
  length mac = 32%nat -> (58 <= length body)%nat -> zlen (body ++ mac) <= maxRawLength ->
  Resolve c now (b64_encode (body ++ mac)) b =
    if verify c body mac then resolve_body (opts c) now body b else inl ErrInvalidToken.
Proof.
  intros Hm Hb Hl. unfold Resolve. rewrite b64_encode_canonical, length_b64_encode.
  assert (58 <= zlen body) by (unfold zlen; lia). assert (zlen mac = 32) as Hz by (unfold zlen; lia).
  rewrite zlen_app, Hz in *.
  assert (0 < EncodedLen (zlen body + 32) <= maxTokenLength) as He by (unfold maxTokenLength, EncodedLen; lia_mod).
  replace (EncodedLen (zlen body + 32) =? 0) with false by lia.
  replace (maxTokenLength <? EncodedLen (zlen body + 32)) with false by lia.
  cbn [orb negb]. rewrite decodeToken_eq, b64_decode_encode by apply b64_encode_plain. rewrite zlen_app, Hz.
  replace (zlen body + 32 <? headerLength + 1 + macLength) with false by (unfold headerLength, digestLength, macLength; lia).
  replace (zlen body + 32 - macLength) with (zlen body) by (unfold macLength; lia).
  rewrite to_nat_zlen, take_app_length, drop_app_length. by destruct (verify c body mac).
Qed.

(** C24: a token is resolved as it was issued.  A token issued with a key that
    the resolving codec still holds, as its own or as a previous one, is
    refused when its issue time lies too far in the future, when it has
    expired, or when the digest of the sort, the filter or the subject differs,
    in this order and each with its own error; otherwise it gives back the
    payload. *)
Theorem resolve_issued c c' t now payload b b' token :
  Issue c t payload b = inr token -> key c ∈ key c' :: previous c' ->
  Resolve c' now token b' =
    if Go.after (issue_time t) (now + maxClockSkew (opts c')) then inl ErrInvalidToken
    else if negb (expiryDisabled (opts c')) && (ttl (opts c') <? Go.sub now (issue_time t)) then inl ErrExpiredToken
    else if negb (bool_decide (digest (b_Sort b) = digest (b_Sort b'))) then inl ErrSortChanged
    else if negb (bool_decide (digest (b_Filter b) = digest (b_Filter b'))) then inl ErrFilterChanged
    else if negb (bool_decide (digest (b_Subject b) = digest (b_Subject b'))) then inl ErrSubjectMismatch
    else inr payload.
Proof.
  intros HI Hk. assert (zlen payload <= MaxPayloadLength) as Hl
    by (unfold Issue in HI; destruct (Z.ltb_spec MaxPayloadLength (zlen payload)); [done|lia]).
  rewrite Issue_eq in HI by done. injection HI as <-. unfold signed_token.
  pose proof (length_groups MaxVarintLen64 (zlen payload)). pose proof (groups_pos (zlen payload)).
  pose proof (length_token_body (be_bytes 8 (unix_milli t)) b (uvarint_groups MaxVarintLen64 (zlen payload)) payload
    (length_be_bytes _ _)) as Hlen. fold (issued_body t payload b) in Hlen.
  rewrite Resolve_signed; [|apply length_hmac|lia|].
  2: { rewrite zlen_app. unfold zlen. rewrite length_hmac, Hlen. unfold zlen, MaxPayloadLength, MaxVarintLen64 in *.
       change maxRawLength with 1123. lia. }
  rewrite (proj2 (verify_spec c' _ _)) by (by exists (key c)).
  unfold issued_body, token_body. rewrite resolve_body_parts by (apply length_be_bytes || apply length_digest).
  rewrite be_value_bytes, bool_decide_eq_true_2 by done. change (8 * Z.of_nat 8) with 64. rewrite i64_mod.
  assert (Go.i64 (unix_milli t) = unix_milli t) as -> by (apply i64_id, i64_range). fold (issue_time t). cbn [negb].
  rewrite Uvarint_append by (pose proof (zlen_nonneg payload); unfold MaxPayloadLength in Hl; lia).
  rewrite to_nat_zlen, drop_app_length.
  replace (_ || negb (zlen payload =? zlen payload)) with false; [done|].
  unfold zlen in *. rewrite Z.eqb_refl. symmetry. rewrite !orb_false_iff. split_and!; [lia|lia|done].
Qed.

Definition demo_codec : Codec := mkCodec (repeat x2a 32) [] defaultOptions.
Definition demo_bindings : Bindings := NewBindings "list" "id" ["a"%string; "b"%string].

Lemma resolve_issued_witness :
  Resolve (mkCodec (repeat x2b 32) [repeat x2a 32] defaultOptions) (issue_time 63900000000000000000 + DefaultTTL)
    (signed_token (repeat x2a 32) (issued_body 63900000000000000000 [x07] demo_bindings)) demo_bindings = inr [x07].
Proof.
  rewrite (resolve_issued demo_codec (mkCodec (repeat x2b 32) [repeat x2a 32] defaultOptions) 63900000000000000000 _ [x07]
    demo_bindings demo_bindings).
  - rewrite !bool_decide_eq_true_2 by done. by vm_compute.
  - by rewrite Issue_eq.
  - right. by left.
Defined.

Lemma split_body (body : bytes) :
  (58 <= length body)%nat ->
  exists v ms d1 d2 d3 tail, body = v :: ms ++ d1 ++ d2 ++ d3 ++ tail /\
    length ms = 8%nat /\ length d1 = 16%nat /\ length d2 = 16%nat /\ length d3 = 16%nat.
Proof.
  intros Hl. destruct body as [|v l]; [cbn in Hl; lia|]. cbn in Hl.
  exists v, (take 8 l), (take 16 (drop 8 l)), (take 16 (drop 24 l)), (take 16 (drop 40 l)), (drop 56 l).
  rewrite !length_take, !length_drop. split_and!; [|lia..]. f_equal.
  replace (drop 56 l) with (drop 16 (drop 40 l)) by (by rewrite drop_drop). rewrite take_drop.
  replace (drop 40 l) with (drop 16 (drop 24 l)) by (by rewrite drop_drop). rewrite take_drop.
  replace (drop 24 l) with (drop 16 (drop 8 l)) by (by rewrite drop_drop). by rewrite !take_drop.
Qed.

Lemma uvarint_loop_size i x s b : snd (uvarint_loop i x s b) <= Z.of_nat i + zlen b.
Proof.
  revert i x s. induction b as [|c b IH]; intros i x s; [cbn; unfold zlen; cbn; lia|]. cbn [uvarint_loop].
  rewrite zlen_cons. pose proof (zlen_nonneg b). repeat case_match; cbn [snd]; try lia.
  etrans; [apply IH|]. lia.
Qed.

(** C18: only signed tokens resolve.  When [Resolve] returns a payload, the
    token is the one encoding of a body signed with the codec's key or one of
    its previous keys; the body has the current version, the digests of the
    bindings it was presented with and the length of its payload, and it is
    neither expired nor from the future. *)
Theorem resolve_sound c now token b payload :
  Resolve c now token b = inr payload ->
  exists k ms uv, k ∈ key c :: previous c /\ length ms = 8%nat /\
    Uvarint (uv ++ payload) = (zlen payload, zlen uv) /\ zlen payload <= MaxPayloadLength /\
    token = signed_token k (token_body ms b uv payload) /\
    time_of_milli (Go.i64 (be_value ms)) <= now + maxClockSkew (opts c) /\
    (expiryDisabled (opts c) = true \/ Go.sub now (time_of_milli (Go.i64 (be_value ms))) <= ttl (opts c)).
Proof.
  unfold Resolve. destruct (_ || negb (canonicalAlphabet token)) eqn:Ea; [done|].
  apply orb_false_iff in Ea as [_ Ec]. apply negb_false_iff in Ec.
  destruct (decodeToken token) as [raw|] eqn:Ed; [|done].
  destruct (Z.ltb_spec (zlen raw) (headerLength + 1 + macLength)) as [|Hlen]; [done|].
  set (body := take (Z.to_nat (zlen raw - macLength)) raw). set (mac := drop (Z.to_nat (zlen raw - macLength)) raw).
  destruct (verify c body mac) eqn:Ev; [|done]. cbn [negb]. intros Hr.
  apply verify_spec in Ev as (k & Hk & Em).
  assert (58 <= length body)%nat as Hb.
  { unfold body. rewrite length_take. unfold zlen, headerLength, digestLength, macLength in *. lia. }
  assert (exists v ms d1 d2 d3 tail, body = v :: ms ++ d1 ++ d2 ++ d3 ++ tail /\
    length ms = 8%nat /\ length d1 = 16%nat /\ length d2 = 16%nat /\ length d3 = 16%nat)
    as (v & ms & d1 & d2 & d3 & tail & Eb & Hm & H1 & H2 & H3) by by apply split_body.
  rewrite Eb, resolve_body_parts in Hr by done.
  destruct (bool_decide_reflect (v = version)) as [->|]; [|done]. cbn [negb] in Hr.
  destruct (Go.after _ _) eqn:Ef; [done|]. destruct (negb (expiryDisabled _) && _) eqn:Ex; [done|].
  destruct (bool_decide_reflect (d1 = digest (b_Sort b))) as [->|]; [|done].
  destruct (bool_decide_reflect (d2 = digest (b_Filter b))) as [->|]; [|done].
  destruct (bool_decide_reflect (d3 = digest (b_Subject b))) as [->|]; [|done]. cbn [negb] in Hr.
  destruct (Uvarint tail) as [n size] eqn:Eu.
  destruct (_ || negb (n =? _)) eqn:Eo; [done|]. injection Hr as <-. rewrite !orb_false_iff, negb_false_iff in Eo.
  destruct Eo as [[Es En] Eq]. exists k, ms, (take (Z.to_nat size) tail). rewrite take_drop.
  pose proof (uvarint_loop_size 0 0 0 tail) as Hsz. fold (Uvarint tail) in Hsz. rewrite Eu in Hsz. cbn [snd] in Hsz.
  split_and!; [done|done| |lia| |unfold Go.after in Ef; lia|apply andb_false_iff in Ex; destruct Ex; [left; by apply negb_false_iff|right; lia]].
  - rewrite Eu, zlen_take. f_equal; lia.
  - unfold signed_token, token_body. rewrite take_drop, <-Eb, <-Em. unfold body, mac. rewrite take_drop.
    symmetry. apply b64_encode_decode; [by apply canonical_plain|]. by rewrite <-decodeToken_eq by by apply canonical_plain.
Qed.

Lemma resolve_sound_witness :
  exists k ms uv, k ∈ key demo_codec :: previous demo_codec /\ length ms = 8%nat /\
    signed_token (repeat x2a 32) (issued_body 63900000000000000000 [x07] demo_bindings) =
    signed_token k (token_body ms demo_bindings uv [x07]).
Proof.
  destruct (resolve_sound demo_codec 63900000000000000000
    (signed_token (repeat x2a 32) (issued_body 63900000000000000000 [x07] demo_bindings)) demo_bindings [x07])
    as (k & ms & uv & Hk & Hm & _ & _ & E & _); [by vm_compute|]. by exists k, ms, uv.
Defined.

(** Every error of [Resolve] is a failure of the token, and is classified. *)
Lemma resolve_classified c now token b e :
  Resolve c now token b = inl e -> Classify (Some e) = if bool_decide (e = ErrExpiredToken) then FailureExpired else FailureMalformed.
Proof.
  intros H. assert (e ∈ [ErrInvalidToken; ErrExpiredToken; ErrSortChanged; ErrFilterChanged; ErrSubjectMismatch]) as He.
  { unfold Resolve, resolve_body in H. repeat case_match; simplify_eq; by repeat constructor. }
  repeat (apply elem_of_cons in He as [->|He]; [by vm_compute|]). by apply not_elem_of_nil in He.
Qed.

(** The page size is positive and within the maximum, and is the one asked for
    when that is. *)
Lemma page_size_ok requested def maxSize :
  1 <= PageSize requested def maxSize <= Z.max maxSize 1 /\
  (0 < requested <= maxSize -> PageSize requested def maxSize = requested).
Proof. unfold PageSize. repeat case_match; lia. Qed.

(** ** The JSON encoding of an [int] *)

Lemma skip_space_digit c l : 45 <= Z_of_byte c <= 57 -> skip_space (c :: l) = c :: l.
Proof.
  intros Hc. cbn. unfold json_space. cbn. replace (_ || _) with false; [done|]. symmetry. rewrite !orb_false_iff.
  split_and!; try done; apply Z.eqb_neq; lia.
Qed.

Lemma trim_digits c l l' c' :
  c :: l = l' ++ [c'] -> 45 <= Z_of_byte c <= 57 -> 45 <= Z_of_byte c' <= 57 -> trim_space (c :: l) = c :: l.
Proof.
  intros E Hc Hc'. unfold trim_space. rewrite skip_space_digit by done. rewrite E, rev_app_distr. cbn [rev app].
  rewrite skip_space_digit by done. cbn [rev]. by rewrite rev_involutive.
Qed.

(** [json.Unmarshal] reads back what [json.Marshal] writes. *)
Lemma int_of_json_of_int n : Go.min_int64 <= n <= Go.max_int64 -> int_of_json (json_of_int n) = inr n.
Proof.
  intros Hn. unfold Go.min_int64, Go.max_int64 in Hn. unfold json_of_int, FormatInt. rewrite !dec_digits_eq, !app_nil_r.
  assert (10 ^ Z.of_nat 20 = 100000000000000000000) as H20 by done.
  assert (forall m, 0 <= m <= 2 ^ 63 -> exists c l, digits_of 20 m = c :: l /\ 48 <= Z_of_byte c <= 57 /\
    natural (digits_of 20 m) = Some m /\ exists l' c', digits_of 20 m = l' ++ [c'] /\ 45 <= Z_of_byte c' <= 57) as Hd.
  { intros m Hm. pose proof (digits_of_value 20 m ltac:(lia) ltac:(lia)) as Hv.
    destruct (digits_of_last 20 m ltac:(lia) ltac:(lia)) as (l' & c' & El & Hc').
    destruct (decide (m = 0)) as [->|Hne].
    - exists (digit_byte 0), []. split_and!; [done|by vm_compute|by vm_compute|done|]. exists l', c'. split; [done|lia].
    - destruct (digits_of_head 20 m ltac:(lia)) as (c & l & E & Hc). exists c, l. split_and!; [done|lia|lia| |].
      + unfold natural. rewrite E in *. destruct l as [|c1 l]; [done|]. by replace (Z_of_byte c =? 48) with false by lia.
      + exists l', c'. split; [done|lia]. }
  unfold int_of_json. destruct (Z.ltb_spec n 0) as [Hneg|Hpos].
  - destruct (Hd (- n) ltac:(lia)) as (c & l & E & Hc & Hnat & l' & c' & E' & Hc').
    rewrite (trim_digits x2d _ (x2d :: l') c'); [|rewrite E'; reflexivity|vm_compute; split; discriminate|lia].
    rewrite bool_decide_eq_false_2 by (rewrite E; discriminate). rewrite bool_decide_eq_true_2, Hnat by done. cbn [fmap option_fmap option_map].
    rewrite Z.opp_involutive. by replace ((Go.min_int64 <=? n) && (n <=? Go.max_int64)) with true by (symmetry; apply andb_true_iff; unfold Go.min_int64, Go.max_int64; lia).
  - destruct (Hd n ltac:(lia)) as (c & l & E & Hc & Hnat & l' & c' & E' & Hc').
    assert (trim_space (digits_of 20 n) = digits_of 20 n) as ->
      by (rewrite E in *; apply (trim_digits c l l' c'); [done|lia|lia]).
    rewrite bool_decide_eq_false_2.
    + rewrite E in *. rewrite bool_decide_eq_false_2 by (intros ->; change (Z_of_byte x2d) with 45 in Hc; lia). rewrite Hnat.
      by replace ((Go.min_int64 <=? n) && (n <=? Go.max_int64)) with true by (symmetry; apply andb_true_iff; unfold Go.min_int64, Go.max_int64; lia).
    + rewrite E. intros H. injection H as -> _. change (Z_of_byte x6e) with 110 in Hc. lia.
Qed.

End KeysetTheorems.
