(* ===== verification/KeysetPages.v ===== *)
(** * Paging through a slice that changes between pages *)

From S2P Require Import Prelude GoBytes GoStrings Keys Keyset KeysetTheorems.
From Stdlib Require Import Strings.Byte.

Module KeysetPages.
Import GoBytes GoStrings Keys Keyset KeysetTheorems.

(** A visit of the list: the time, the items there are then, and the size of
    the page asked for. *)
Record visit (T : Type) := mkVisit { v_now : Go.time; v_items : list T; v_size : Z }.
Arguments mkVisit {T} _ _ _.
Arguments v_now {T} _.
Arguments v_items {T} _.
Arguments v_size {T} _.

(** A caller that follows the tokens from one visit to the next: the items it
    was given, and whether it reached the last page. *)
Fixpoint walk {T} (p : SlicePager T) (b : Bindings) (vs : list (visit T)) (token : bytes) : error + list T * bool :=
  match vs with
  | [] => inr ([], false)
  | v :: vs =>
      match Page p (v_now v) (v_items v) (v_size v) token b with
      | inl e => inl e
      | inr page =>
          match Next page with
          | [] => inr (Items page, true)
          | tok =>
              match walk p b vs tok with
              | inl e => inl e
              | inr (out, fin) => inr (Items page ++ out, fin)
              end
          end
      end
  end.

(** A token issued at [t] is accepted at [t']. *)
Definition fresh_at (c : Codec) (t t' : Go.time) : Prop :=
  Go.after (issue_time t) (t' + maxClockSkew (opts c)) = false /\
  (expiryDisabled (opts c) = true \/ Go.sub t' (issue_time t) <= ttl (opts c)).

Fixpoint in_time {T} (c : Codec) (vs : list (visit T)) : Prop :=
  match vs with
  | v :: (v' :: _) as vs => fresh_at c (v_now v) (v_now v') /\ in_time c vs
  | _ => True
  end.

Lemma resolve_fresh c t t' payload b token :
  Issue c t payload b = inr token -> fresh_at c t t' -> Resolve c t' token b = inr payload.
Proof.
  intros HI [Hf He]. rewrite (resolve_issued c c t t' payload b b token HI) by left. rewrite Hf, !bool_decide_eq_true_2 by done.
  destruct He as [-> |He]; [done|]. replace (ttl (opts c) <? _) with false by lia. by rewrite andb_false_r.
Qed.

Lemma signed_token_nonempty k body : signed_token k body <> [].
Proof.
  intros E. apply (f_equal zlen) in E. unfold signed_token in E. rewrite length_b64_encode, zlen_app in E.
  unfold zlen at 2 3 in E. rewrite length_hmac in E. unfold EncodedLen, zlen in E. cbn [length] in E. lia_mod.
Qed.

(** ** The first item a predicate holds of *)

Definition first_index {T} (f : T -> bool) (l : list T) : Z :=
  let i := IndexFunc f l in if i <? 0 then zlen l else i.

Lemma IndexFunc_lower {T} (f : T -> bool) l : -1 <= IndexFunc f l.
Proof. induction l as [|x l IH]; cbn; [lia|]. destruct (f x); [lia|]. destruct (Z.ltb_spec (IndexFunc f l) 0); lia. Qed.

Lemma first_index_cons {T} (f : T -> bool) x l :
  first_index f (x :: l) = if f x then 0 else 1 + first_index f l.
Proof.
  unfold first_index. cbn. destruct (f x); [done|]. pose proof (IndexFunc_lower f l). rewrite zlen_cons.
  destruct (Z.ltb_spec (IndexFunc f l) 0).
  - replace (IndexFunc f l <? 0) with true by lia. lia.
  - replace (IndexFunc f l + 1 <? 0) with false by lia. lia.
Qed.

(** Of a list in which the predicate holds from some item on, those are the
    items from the first one on. *)
Lemma first_index_filter {T} (f : T -> bool) l :
  StronglySorted (fun x y => f x = true -> f y = true) l ->
  0 <= first_index f l <= zlen l /\ drop (Z.to_nat (first_index f l)) l = filter (fun x => f x = true) l.
Proof.
  induction 1 as [|x l Hs [IH1 IH2] Hx]; [done|]. rewrite first_index_cons, zlen_cons, filter_cons.
  pose proof (zlen_nonneg l). destruct (f x) eqn:Ex.
  - rewrite decide_True by done. split; [lia|]. change (drop (Z.to_nat 0) (x :: l)) with (x :: l). f_equal. symmetry. apply filter_full.
    eapply Forall_impl; [exact Hx|]. auto.
  - rewrite decide_False by done. split; [lia|]. rewrite Z2Nat.inj_add by lia. change (Z.to_nat 1 + _)%nat with (S (Z.to_nat (first_index f l))).
    cbn [drop]. done.
Qed.

Lemma sorted_last {T} (R : T -> T -> Prop) l y x :
  StronglySorted R l -> list.last l = Some y -> x ∈ l -> x = y \/ R x y.
Proof.
  intros Hs Hl Hx. apply last_Some in Hl as [l' ->]. apply StronglySorted_app in Hs as (Hc & _ & _).
  apply elem_of_app in Hx as [Hx|Hx%list_elem_of_singleton]; [right; apply Hc; [done|by left]|by left].
Qed.

(** ** One page *)

Section pages.
Context {T C : Type} `{Cursor C}.
Variables (c : Codec) (keyf : T -> C) (compare : C -> C -> Z) (b : Bindings).
Hypothesis compare_antisym : forall x y, 0 < compare x y <-> compare y x < 0.
Hypothesis compare_trans : forall x y z, 0 < compare x y -> 0 < compare y z -> 0 < compare x z.

Definition pager : SlicePager T := NewSlicePager (mkTyped (Some c)) keyf compare.

(** The cursor of the item fits a token. *)
Definition storable (x : T) : Prop :=
  exists p, marshal (keyf x) = inr p /\ zlen p <= MaxPayloadLength /\ unmarshal p = inr (keyf x).

Definition key_lt (x y : T) : Prop := 0 < compare (keyf y) (keyf x).

(** The items after the last one of the page before, if there was one. *)
Definition after_last (last : option T) (x : T) : bool :=
  match last with None => true | Some y => 0 <? compare (keyf x) (keyf y) end.

(** The token that continues after [last], issued at [t]. *)
Definition token_after (last : option T) (t : Go.time) (token : bytes) : Prop :=
  match last with
  | None => token = []
  | Some y => token <> [] /\ exists p, marshal (keyf y) = inr p /\ unmarshal p = inr (keyf y) /\ Issue c t p b = inr token
  end.

Lemma start_ok last t now items token :
  token_after last t token -> (last <> None -> fresh_at c t now) -> StronglySorted key_lt items ->
  start pager now items token b = inr (first_index (after_last last) items).
Proof using compare_trans.
  intros Ht Hf Hs. cbn. unfold typed_Resolve. destruct last as [y|]; cbn in Ht.
  - destruct Ht as (Hne & p & Hm & Hu & HI). destruct token as [|z token]; [done|]. cbn.
    rewrite (resolve_fresh c t now p b _ HI), Hu by (by apply Hf). done.
  - subst token. cbn. f_equal. unfold first_index. destruct items; [done|]. done.
Qed.

Lemma page_ok last t v token :
  token_after last t token -> (last <> None -> fresh_at c t (v_now v)) -> StronglySorted key_lt (v_items v) ->
  (forall x, x ∈ v_items v -> storable x) ->
  exists page l2, Page pager (v_now v) (v_items v) (v_size v) token b = inr page /\
    filter (fun x => after_last last x = true) (v_items v) = Items page ++ l2 /\
    match Next page with
    | [] => l2 = []
    | tok => exists y, y ∈ Items page /\ list.last (Items page) = Some y /\ token_after (Some y) (v_now v) tok
    end.
Proof using compare_trans.
  intros Ht Hf Hs Hst. pose proof (start_ok last t (v_now v) (v_items v) token Ht Hf Hs) as Estart.
  set (items := v_items v) in *. set (st := first_index (after_last last) items) in *.
  destruct (first_index_filter (after_last last) items) as [Hst0 Edrop].
  { eapply StronglySorted_mono; [exact Hs|]. intros x y _ _ Hxy. destruct last as [z|]; cbn; [|done].
    rewrite !Z.ltb_lt. intros Hx. by eapply compare_trans. }
  fold st in Hst0, Edrop. unfold Page. rewrite Estart.
  set (en := st + Z.min (Z.max (v_size v) 1) (zlen items - st)). rewrite <-Edrop.
  assert (zslice st en items ++ drop (Z.to_nat (en - st)) (drop (Z.to_nat st) items) = drop (Z.to_nat st) items) as Esplit
    by apply take_drop.
  destruct (Z.ltb_spec en (zlen items)) as [Hlt|Hge].
  - assert (st < en) by lia. destruct (lookup_lt_is_Some_2 items (Z.to_nat (en - 1))) as [y Hy]; [unfold zlen in *; lia|].
    destruct (Hst y) as (p & Hm & Hl & Hu); [by eapply list_elem_of_lookup_2|].
    cbn. rewrite Hy. unfold typed_Issue. cbn. rewrite Hm.
    pose proof (Issue_eq c (v_now v) p b Hl) as HI. pose proof (signed_token_nonempty (key c) (issued_body (v_now v) p b)) as Hne.
    revert HI Hne. generalize (signed_token (key c) (issued_body (v_now v) p b)). intros tok HI Hne. rewrite HI.
    eexists _, (drop (Z.to_nat (en - st)) (drop (Z.to_nat st) items)). split_and!; [done|symmetry; exact Esplit|]. cbn.
    assert (list.last (zslice st en items) = Some y) as Hlast.
    { rewrite last_lookup. unfold zslice. rewrite length_take, length_drop, lookup_take_lt, lookup_drop by (unfold zlen in *; lia).
      rewrite <-Hy. f_equal. unfold zlen in *. lia. }
    destruct tok as [|z tok]; [done|]. exists y. split_and!; [|done|done|].
    + rewrite last_lookup in Hlast. by eapply list_elem_of_lookup_2.
    + by exists p.
  - eexists _, (drop (Z.to_nat (en - st)) (drop (Z.to_nat st) items)). split_and!; [done|symmetry; exact Esplit|]. cbn. apply drop_ge. rewrite length_drop. unfold zlen in *. lia.
Qed.

(** ** A walk *)

Definition above (last : option T) (x : T) : Prop := match last with None => True | Some y => key_lt y x end.

Lemma after_last_above last x : after_last last x = true <-> above last x.
Proof. destruct last as [y|]; cbn; [apply Z.ltb_lt|done]. Qed.

Lemma walk_ok vs last t token :
  token_after last t token -> in_time c vs ->
  (last <> None -> match vs with v :: _ => fresh_at c t (v_now v) | [] => True end) ->
  Forall (fun v => StronglySorted key_lt (v_items v)) vs ->
  (forall v x, v ∈ vs -> x ∈ v_items v -> storable x) ->
  exists out fin, walk pager b vs token = inr (out, fin) /\ StronglySorted key_lt out /\ Forall (above last) out /\
    (forall x, x ∈ out -> exists v, v ∈ vs /\ x ∈ v_items v) /\
    (fin = true -> forall x, above last x -> (forall v, v ∈ vs -> x ∈ v_items v) -> x ∈ out) /\
    (fin = false -> (length vs <= length out)%nat).
Proof using compare_antisym compare_trans.
  revert last t token. induction vs as [|v vs IH]; intros last t token Ht Hin Hf Hs Hst.
  { exists [], false. split_and!; [done|constructor|constructor|auto with go|done|done]. }
  inversion Hs as [|? ? Hsv Hs']; subst.
  destruct (page_ok last t v token Ht Hf Hsv ltac:(intros x; apply Hst; by left)) as (page & l2 & HP & Efil & Hnext).
  assert (StronglySorted key_lt (Items page ++ l2) /\ Forall (above last) (Items page ++ l2)) as [Hso Hab].
  { rewrite <-Efil. split; [by apply StronglySorted_filter_list|]. apply list.Forall_forall. intros x [Hx _]%list_elem_of_filter.
    by apply after_last_above. }
  apply StronglySorted_app in Hso as (Hcross & Hso1 & _). apply Forall_app in Hab as [Hab1 _].
  assert (forall x, x ∈ Items page -> x ∈ v_items v) as Hsub.
  { intros x Hx. assert (x ∈ filter (fun x => after_last last x = true) (v_items v)) as [_ ?]%list_elem_of_filter; [|done].
    rewrite Efil. apply elem_of_app. by left. }
  cbn [walk]. rewrite HP. destruct (Next page) as [|z tok].
  - exists (Items page), true. split_and!; [done|done|done| | |done].
    + intros x Hx. exists v. split; [by left|auto].
    + intros _ x Hax Hall. subst l2. rewrite app_nil_r in Efil. rewrite <-Efil. apply list_elem_of_filter.
      split; [by apply after_last_above|]. apply Hall. by left.
  - destruct Hnext as (y & Hy & Hlast & Htok).
    destruct (IH (Some y) (v_now v) (z :: tok)) as (out & fin & HW & Hout & Habout & Hfrom & Hfin & Hlen); [done| | |done| |].
    { destruct vs; [done|]. apply Hin. }
    { intros _. destruct vs; [done|]. apply Hin. }
    { intros v' x Hv'. apply Hst. by right. }
    rewrite HW. exists (Items page ++ out), fin. split_and!; [done| | | | |].
    + apply StronglySorted_app. split_and!; [|done|done]. intros x x' Hx Hx'.
      rewrite list.Forall_forall in Habout. specialize (Habout x' Hx'). cbn in Habout.
      destruct (sorted_last _ _ _ _ Hso1 Hlast Hx) as [-> |Hxy]; [done|]. by eapply compare_trans.
    + apply Forall_app. split; [done|]. rewrite list.Forall_forall in *. intros x' Hx'. specialize (Habout x' Hx').
      specialize (Hab1 y Hy). destruct last as [z0|]; [|done]. cbn in *. by eapply compare_trans.
    + intros x [Hx|Hx]%elem_of_app; [exists v; split; [by left|auto]|].
      destruct (Hfrom x Hx) as (v' & ? & ?). exists v'. split; [by right|done].
    + intros -> x Hax Hall. apply elem_of_app.
      assert (x ∈ Items page ++ l2) as [?|Hl2]%elem_of_app; [|by left|].
      { rewrite <-Efil. apply list_elem_of_filter. split; [by apply after_last_above|]. apply Hall. by left. }
      right. apply Hfin; [done| |intros v' Hv'; apply Hall; by right]. by apply Hcross.
    + intros ->. rewrite length_app. specialize (Hlen eq_refl). destruct (Items page); [by apply not_elem_of_nil in Hy|].
      cbn. lia.
Qed.

End pages.

(** C11: a listing neither repeats nor skips an item.  A caller follows the
    page tokens of a keyset pager from visit to visit, each in time for the
    token of the one before, while the list may have changed in between, but
    is ordered by its unique keys at each visit.  No visit fails; the items
    returned are in order, each once; and once the last page has been reached,
    every item that was in the list at all the visits has been returned.  A
    page that is not the last returns at least one item. *)
Theorem pages_exact {T C} `{Cursor C} (c : Codec) (keyf : T -> C) (compare : C -> C -> Z) (b : Bindings) (vs : list (visit T)) :
  (forall x y, 0 < compare x y <-> compare y x < 0) ->
  (forall x y z, 0 < compare x y -> 0 < compare y z -> 0 < compare x z) ->
  in_time c vs ->
  Forall (fun v => StronglySorted (key_lt keyf compare) (v_items v)) vs ->
  (forall v x, v ∈ vs -> x ∈ v_items v -> storable keyf x) ->
  exists out fin, walk (NewSlicePager (mkTyped (Some c)) keyf compare) b vs [] = inr (out, fin) /\
    StronglySorted (key_lt keyf compare) out /\
    (forall x, x ∈ out -> exists v, v ∈ vs /\ x ∈ v_items v) /\
    (fin = true -> forall x, (forall v, v ∈ vs -> x ∈ v_items v) -> x ∈ out) /\
    (fin = false -> (length vs <= length out)%nat).
Proof.
  intros Ha Ht Hin Hs Hst.
  destruct (walk_ok c keyf compare b Ha Ht vs None 0 [] eq_refl Hin ltac:(done) Hs Hst) as (out & fin & HW & Hso & _ & Hfrom & Hfin & Hl).
  exists out, fin. split_and!; [exact HW|done|done| |done]. intros E x. by apply Hfin.
Qed.

(** Three visits of a list of integers, from which 20 is removed and to which
    25 is added after the first. *)
Definition demo_visits : list (visit Z) :=
  [mkVisit 63900000000000000000 [10; 20; 30; 40] 2; mkVisit 63900000001000000000 [10; 25; 30; 40] 2;
   mkVisit 63900000002000000000 [10; 25; 30; 40] 2].

Lemma pages_exact_witness :
  exists out fin, walk (NewSlicePager (mkTyped (Some demo_codec)) (fun x : Z => x) Z.sub) demo_bindings demo_visits [] = inr (out, fin) /\
    (fin = true -> 30 ∈ out).
Proof.
  destruct (pages_exact demo_codec (fun x : Z => x) Z.sub demo_bindings demo_visits) as (out & fin & HW & _ & _ & Hfin & _).
  - intros x y. lia.
  - intros x y z. lia.
  - cbn [in_time demo_visits]. unfold fresh_at. split_and!; first [by vm_compute | right; by vm_compute].
  - unfold key_lt. repeat (constructor; [repeat constructor|]). done.
  - intros v x Hv Hx. exists (json_of_int x). split; [done|].
    assert (10 <= x <= 40).
    { assert (Forall (fun v => Forall (fun x => 10 <= x <= 40) (v_items v)) demo_visits) as HF
        by (repeat (constructor; [repeat constructor; done|]); done).
      rewrite list.Forall_forall in HF. specialize (HF v Hv). rewrite list.Forall_forall in HF. auto. }
    split; [|apply int_of_json_of_int; unfold Go.min_int64, Go.max_int64; lia].
    apply Z.leb_le. apply (range_check (fun x => zlen (json_of_int x) <=? MaxPayloadLength) 41); [by vm_compute|lia].
  - exists out, fin. split; [exact HW|]. intros E. apply (Hfin E). intros v Hv.
    clear HW. repeat (apply elem_of_cons in Hv as [->|Hv]; [cbn; by repeat constructor|]). by apply not_elem_of_nil in Hv.
Defined.

(** The walk of the example: 25 lies behind the first page and is seen. *)
Example demo_walk :
  walk (NewSlicePager (mkTyped (Some demo_codec)) (fun x : Z => x) Z.sub) demo_bindings demo_visits [] =
    inr ([10; 20; 25; 30; 40], true).
Proof. by vm_compute. Qed.

End KeysetPages.
