(* ===== verification/HmacSign.v ===== *)
(** * Signed request bodies: security/hmacsign and its httpsign adapter

    A [Scheme] is the wire format of a provider; [Signer] and [Verifier] own the
    secret and the digest.  The clock is read once per call and is an argument. *)

From S2P Require Import Prelude GoBytes GoStrings.
From Stdlib Require Import Strings.Byte.

Module HmacSign.
Import GoBytes GoStrings.

Definition ErrMalformedSignature : error := ErrNew "hmacsign: malformed signature header".
Definition ErrSignatureMismatch : error := ErrNew "hmacsign: signature mismatch".
Definition ErrTimestampOutOfTolerance : error := ErrNew "hmacsign: timestamp outside tolerance".

(** ** Time *)

(** [time.Unix(n, 0)] and [Time.Unix], whose seconds are 64 bits wide. *)
Definition time_Unix (n : Z) : Go.time := Go.i64 (n + Go.unix_epoch_sec) * Go.nanos_per_sec.
Definition Unix (t : Go.time) : Z := Go.i64 (Go.unix t).

(** [Duration.String].  [frac v k] prints the last [k] digits of [v] as a
    fraction without trailing zeros. *)
Fixpoint frac (k : nat) (v : Z) (printed : bool) (acc : string) : string :=
  match k with
  | O => if printed then ("." +:+ acc)%string else acc
  | S k =>
      let d := v mod 10 in
      let printed := printed || negb (d =? 0) in
      frac k (v / 10) printed (if printed then (pretty d +:+ acc)%string else acc)
  end.
Definition micro : string := String (Ascii.ascii_of_nat 194) (String (Ascii.ascii_of_nat 181) "s").
Definition duration_String (d : Go.duration) : string :=
  let u := Z.abs d in
  let sign := if d <? 0 then "-"%string else EmptyString in
  (sign +:+
   if (u =? 0)%Z then "0s"
   else if (u <? 1000)%Z then pretty u +:+ "ns"
   else if (u <? 1000000)%Z then pretty (u / 1000) +:+ frac 3 u false EmptyString +:+ micro
   else if (u <? 1000000000)%Z then pretty (u / 1000000) +:+ frac 6 u false EmptyString +:+ "ms"
   else
     let s := u / 1000000000 in
     let secs := (pretty (s mod 60) +:+ frac 9 u false EmptyString +:+ "s")%string in
     let m := s / 60 in
     if (m =? 0)%Z then secs
     else
       let mins := (pretty (m mod 60) +:+ "m" +:+ secs)%string in
       let h := m / 60 in
       if (h =? 0)%Z then mins else (pretty h +:+ "h" +:+ mins))%string.

(** ** Schemes *)

Record Scheme := mkScheme {
  HeaderName : bytes;
  Message : Go.time -> bytes -> bytes;
  FormatHeader : Go.time -> bytes -> bytes;
  ParseHeader : bytes -> error + (Go.time * list bytes)
}.

Definition digest (secret msg : bytes) : bytes := hmac secret msg.

Definition malformed (what : string) : error := ErrSuffix ErrMalformedSignature (": " +:+ what)%string.

Definition githubHeader : bytes := bs "X-Hub-Signature-256".
Definition githubPrefix : bytes := bs "sha256=".
Definition github_ParseHeader (header : bytes) : error + (Go.time * list bytes) :=
  match hex_decode (TrimPrefix (TrimSpace header) githubPrefix) with
  | Some (b :: raw) => inr (Go.zero_time, [b :: raw])
  | _ => inl (malformed "bad digest")
  end.
Definition GitHub : Scheme :=
  mkScheme githubHeader (fun _ body => body) (fun _ d => githubPrefix ++ hex_encode d) github_ParseHeader.

Definition stripeHeader : bytes := bs "Stripe-Signature".
Definition stripeMessage (tsUnix : Z) (body : bytes) : bytes := FormatInt tsUnix ++ x2e :: body.

(** The loop over the parts, with the timestamp and the digests found so far. *)
Fixpoint stripe_parts (parts : list bytes) (ts : option Z) (sigs : list bytes) : error + (option Z * list bytes) :=
  match parts with
  | [] => inr (ts, sigs)
  | part :: parts =>
      match Cut x3d (TrimSpace part) with
      | None => stripe_parts parts ts sigs
      | Some (key, val) =>
          if bool_decide (key = bs "t") then
            match ParseInt val with
            | None => inl (malformed "bad timestamp")
            | Some n => stripe_parts parts (Some n) sigs
            end
          else if bool_decide (key = bs "v1") then
            match hex_decode val with
            | None => inl (malformed "bad v1 digest")
            | Some raw => stripe_parts parts ts (sigs ++ [raw])
            end
          else stripe_parts parts ts sigs
      end
  end.
Definition stripe_ParseHeader (header : bytes) : error + (Go.time * list bytes) :=
  match stripe_parts (Split x2c header) None [] with
  | inl e => inl e
  | inr (Some n, sig :: sigs) => inr (time_Unix n, sig :: sigs)
  | inr _ => inl (malformed "missing t or v1")
  end.
Definition Stripe : Scheme :=
  mkScheme stripeHeader (fun t body => stripeMessage (Unix t) body)
    (fun t d => bs "t=" ++ FormatInt (Unix t) ++ bs ",v1=" ++ hex_encode d) stripe_ParseHeader.

(** ** Options *)

(** The clock is an argument of the operations. *)
Record options := mkOptions { tolerance : Go.duration; secrets : list bytes }.
Definition DefaultTolerance : Go.duration := 5 * 60 * Go.nanos_per_sec.
Definition defaultOptions : options := mkOptions DefaultTolerance [].
Definition Option_ := options -> options.
Definition WithTolerance (v : Go.duration) : Option_ :=
  fun o => if v <? 0 then o else mkOptions v (secrets o).
Definition WithSecrets (ss : list bytes) : Option_ :=
  fun o => mkOptions (tolerance o) (secrets o ++ filter (fun s => s <> []) ss).
Definition newOptions (opts : list Option_) : options := fold_left (fun o f => f o) opts defaultOptions.

(** ** Signing and verifying *)

Record Signer := mkSigner { s_scheme : Scheme; s_secret : bytes }.
Definition NewSigner (scheme : Scheme) (secret : bytes) : Signer := mkSigner scheme secret.
Definition Sign (s : Signer) (now : Go.time) (body : bytes) : bytes :=
  FormatHeader (s_scheme s) now (digest (s_secret s) (Message (s_scheme s) now body)).

Record Verifier := mkVerifier { scheme : Scheme; v_secrets : list bytes; opts : options }.
Definition NewVerifier (sch : Scheme) (secret : bytes) (os : list Option_) : Verifier :=
  let o := newOptions os in mkVerifier sch (secret :: secrets o) o.

Definition checkTimestamp (tol : Go.duration) (now ts : Go.time) : option error :=
  let diff := Go.sub now ts in
  let diff := if diff <? 0 then Go.i64 (- diff) else diff in
  if tol <? diff
  then Some (ErrSuffix ErrTimestampOutOfTolerance (": " +:+ duration_String diff +:+ " old")%string)
  else None.

Definition Verify (v : Verifier) (now : Go.time) (header body : bytes) : option error :=
  match ParseHeader (scheme v) header with
  | inl e => Some e
  | inr (signedAt, sigs) =>
      match (if negb (Go.is_zero signedAt) && (0 <? tolerance (opts v))
             then checkTimestamp (tolerance (opts v)) now signedAt else None) with
      | Some e => Some e
      | None =>
          let msg := Message (scheme v) signedAt body in
          if existsb (fun secret => let expected := digest secret msg in existsb (hmac_Equal expected) sigs) (v_secrets v)
          then None else Some ErrSignatureMismatch
      end
  end.

(** ** The HTTP adapter: httpsign *)

Definition ErrBodyTooLarge : error := ErrNew "httpsign: request body too large".
Definition DefaultMaxBytes : Z := 2 ^ 20.

(** A body is the bytes the connection delivers and the error that ends them;
    [None] is a nil body. *)
Record Request := mkRequest { Body : option (bytes * option error); Header : bytes -> bytes }.

(** [io.ReadAll(io.LimitReader(body, n))]: an error behind the limit is not
    reached. *)
Definition read_limited (n : Z) (body : bytes * option error) : bytes * option error :=
  if n <=? zlen body.1 then (take (Z.to_nat n) body.1, None) else body.

Definition readBody (r : Request) (maxBytes : Z) : error + (bytes * Request) :=
  match Body r with
  | None => inr ([], r)
  | Some b =>
      match read_limited (Go.i64 (maxBytes + 1)) b with
      | (_, Some e) => inl (ErrWrap "httpsign: read body: " e)
      | (data, None) =>
          if maxBytes <? zlen data then inl ErrBodyTooLarge
          else inr (data, mkRequest (Some (data, None)) (Header r))
      end
  end.

Definition Verify_http (v : Verifier) (now : Go.time) (r : Request) (maxBytes : Z) : error + (bytes * Request) :=
  match readBody r maxBytes with
  | inl e => inl e
  | inr (body, r) =>
      match Verify v now (Header r (HeaderName (scheme v))) body with
      | Some e => inl e
      | None => inr (body, r)
      end
  end.

(** The response is that of the next handler or of the error handler. *)
Definition Middleware {A} (v : Verifier) (now : Go.time) (maxBytes : Z) (errorHandler : error -> A)
    (next : Request -> A) (r : Request) : A :=
  let '(err, r) :=
    match readBody r maxBytes with
    | inl e => (Some e, r)
    | inr (body, r) => (Verify v now (Header r (HeaderName (scheme v))) body, r)
    end in
  match err with
  | Some e => errorHandler e
  | None => next r
  end.

(** The status the default error handler answers with. *)
Definition defaultErrorHandler (err : error) : Z := if Errors.Is ErrBodyTooLarge err then 413 else 401.

End HmacSign.
