(* ===== verification/HmacTheorems.v ===== *)
(** * What signed request bodies promise *)

From S2P Require Import Prelude GoBytes GoStrings HmacSign.
From Stdlib Require Import Strings.Byte.

Module HmacTheorems.
Import GoBytes GoStrings HmacSign.

(** ** What a scheme owes to its verifier *)

(** The instants of a Go clock that [time.Unix] can give back. *)
Definition representable (t : Go.time) : Prop :=
  Go.min_int64 <= Go.unix t <= Go.max_int64 - Go.unix_epoch_sec.

(** A header that was formatted parses to the digest and to a stamp of the
    signing time for which the message is the same, and every failure to parse
    is a malformed signature. *)
Class SchemeLaws (s : Scheme) := {
  stamp : Go.time -> Go.time;
  parse_format t d : representable t -> d <> [] -> ParseHeader s (FormatHeader s t d) = inr (stamp t, [d]);
  message_stamp t body : representable t -> Message s (stamp t) body = Message s t body;
  stamp_near t : representable t -> stamp t = Go.zero_time \/ stamp t <= t < stamp t + Go.nanos_per_sec;
  parse_error h e : ParseHeader s h = inl e -> exists what, e = malformed what
}.

Lemma bytes_notin (c : byte) (P : byte -> Prop) l : ~ P c -> Forall P l -> c ∉ l.
Proof. intros Hc Hl Hin. rewrite list.Forall_forall in Hl. auto. Qed.

Lemma hex_snoc l : l <> [] -> exists h c, hex_encode l = h ++ [c].
Proof. intros Hl. destruct (exists_last (l := hex_encode l)) as (h & c & E); [by destruct l|]. eauto. Qed.

Lemma hex_graphic l h c : hex_encode l = h ++ [c] -> graphic c.
Proof.
  intros E. pose proof (hex_encode_chars l) as Hc. rewrite E in Hc.
  apply list.Forall_app in Hc as [_ Hc]. apply list.Forall_cons in Hc as [Hc _]. unfold graphic. lia.
Qed.

Ltac byte_value := unfold graphic, Z_of_byte; cbn; lia.
Ltac not_in_literal :=
  let H := fresh in intros H; cbn in H; repeat (apply elem_of_cons in H as [H|H]; [discriminate H|]); by apply not_elem_of_nil in H.

(** *** GitHub *)

#[export] Program Instance github_laws : SchemeLaws GitHub := { stamp _ := Go.zero_time }.
Next Obligation.
  intros t d _ Hd. cbn. unfold github_ParseHeader. destruct (hex_snoc d Hd) as (h & c & E).
  rewrite (TrimSpace_graphic x73 _ (githubPrefix ++ h) c); [|rewrite E; reflexivity|byte_value|by eapply hex_graphic].
  change (TrimPrefix _ githubPrefix) with (TrimPrefix (githubPrefix ++ hex_encode d) githubPrefix).
  assert (TrimPrefix (githubPrefix ++ hex_encode d) githubPrefix = hex_encode d) as ->
    by (unfold TrimPrefix; by rewrite CutPrefix_app).
  rewrite hex_decode_encode. by destruct d.
Qed.
Next Obligation. done. Qed.
Next Obligation. by left. Qed.
Next Obligation.
  intros h e. cbn. unfold github_ParseHeader. repeat case_match; intros [= <-]; by eexists.
Qed.

(** *** Stripe *)

Lemma Unix_time_Unix n : Go.min_int64 <= n <= Go.max_int64 -> Unix (time_Unix n) = n.
Proof.
  intros Hn. unfold Unix, time_Unix, Go.unix. rewrite Z.div_mul by done.
  unfold Go.min_int64, Go.max_int64, Go.i64, Go.unix_epoch_sec in *. lia_mod.
Qed.

Lemma Unix_range t : Go.min_int64 <= Unix t <= Go.max_int64.
Proof. unfold Unix, Go.min_int64, Go.max_int64. pose proof (i64_range (Go.unix t)). lia. Qed.

Lemma Unix_representable t : representable t -> Unix t = Go.unix t.
Proof. unfold representable, Unix, Go.min_int64, Go.max_int64, Go.unix_epoch_sec. intros. apply i64_id. lia. Qed.

Lemma stripe_stamp t : representable t -> time_Unix (Unix t) <= t < time_Unix (Unix t) + Go.nanos_per_sec.
Proof.
  intros Ht. rewrite (Unix_representable t Ht). unfold representable, Go.min_int64, Go.max_int64 in Ht. unfold time_Unix.
  rewrite i64_id by (unfold Go.unix_epoch_sec in *; lia). unfold Go.unix, Go.nanos_per_sec in *. lia_mod.
Qed.

Lemma stripe_errors parts ts sigs e :
  stripe_parts parts ts sigs = inl e -> exists what, e = malformed what.
Proof.
  revert ts sigs. induction parts as [|p parts IH]; intros ts sigs; cbn; [done|].
  repeat case_match; eauto; intros [= <-]; by eexists.
Qed.

Lemma stripe_stamp_part n : Cut x3d (TrimSpace (bs "t=" ++ FormatInt n)) = Some (bs "t", FormatInt n).
Proof.
  destruct (FormatInt_last n) as (l & c & E & Hc).
  change (bs "t=" ++ FormatInt n) with (x74 :: x3d :: FormatInt n).
  rewrite (TrimSpace_graphic x74 _ (x74 :: x3d :: l) c); [|by rewrite E|byte_value|unfold graphic; lia].
  apply (Cut_app x3d [x74]). not_in_literal.
Qed.

Lemma stripe_digest_part d : d <> [] -> Cut x3d (TrimSpace (bs "v1=" ++ hex_encode d)) = Some (bs "v1", hex_encode d).
Proof.
  intros Hd. destruct (hex_snoc d Hd) as (h & c & E).
  change (bs "v1=" ++ hex_encode d) with (x76 :: x31 :: x3d :: hex_encode d).
  rewrite (TrimSpace_graphic x76 _ (x76 :: x31 :: x3d :: h) c); [|by rewrite E|byte_value|by eapply hex_graphic].
  apply (Cut_app x3d [x76; x31]). not_in_literal.
Qed.

Lemma stripe_split n d :
  Split x2c (bs "t=" ++ FormatInt n ++ bs ",v1=" ++ hex_encode d) = [bs "t=" ++ FormatInt n; bs "v1=" ++ hex_encode d].
Proof.
  assert (x2c ∉ FormatInt n) as Hn.
  { eapply bytes_notin; [|apply FormatInt_chars]. cbv beta. change (Z_of_byte x2c) with 44. lia. }
  assert (x2c ∉ hex_encode d) as Hh.
  { eapply bytes_notin; [|apply hex_encode_chars]. cbv beta. change (Z_of_byte x2c) with 44. lia. }
  change (bs ",v1=" ++ hex_encode d) with (x2c :: bs "v1=" ++ hex_encode d).
  rewrite (app_assoc (bs "t=")), Split_app, Split_notin; [done| |].
  - rewrite not_elem_of_app. split; [not_in_literal|done].
  - rewrite not_elem_of_app. split; [not_in_literal|done].
Qed.

#[export] Program Instance stripe_laws : SchemeLaws Stripe := { stamp t := time_Unix (Unix t) }.
Next Obligation.
  intros t d Ht Hd. cbn [Stripe ParseHeader FormatHeader]. unfold stripe_ParseHeader. rewrite stripe_split.
  cbn [stripe_parts]. rewrite stripe_stamp_part, bool_decide_eq_true_2, ParseInt_FormatInt by (done || apply Unix_range).
  rewrite stripe_digest_part by done. rewrite bool_decide_eq_false_2, bool_decide_eq_true_2, hex_decode_encode by done. done.
Qed.
Next Obligation.
  intros t body _. cbn [Stripe Message]. by rewrite Unix_time_Unix by apply Unix_range.
Qed.
Next Obligation. intros t Ht. right. by apply stripe_stamp. Qed.
Next Obligation.
  intros h e. cbn [Stripe ParseHeader]. unfold stripe_ParseHeader. destruct (stripe_parts _ _ _) as [e'|[[n|] [|s ss]]] eqn:E.
  { intros [= <-]. by eapply stripe_errors. }
  all: intros [= <-]; by eexists.
Qed.

(** ** Verification *)

(** What [checkTimestamp] lets through.  [Sub] saturates at the most negative
    duration, which has no negation: that far in the future passes as well. *)
Definition in_window (tol : Go.duration) (now ts : Go.time) : Prop :=
  Z.abs (Go.sub now ts) <= tol \/ now - ts <= Go.min_int64.

Lemma checkTimestamp_exact tol now ts :
  0 < tol ->
  match checkTimestamp tol now ts with
  | None => in_window tol now ts
  | Some e => ~ in_window tol now ts /\ Errors.Is ErrTimestampOutOfTolerance e = true
  end.
Proof.
  intros Ht. unfold checkTimestamp, in_window. cbv zeta. destruct (decide (now - ts <= Go.min_int64)) as [Hfar|Hnear].
  - assert (Go.sub now ts = Go.min_int64) as -> by (unfold Go.sub, Go.min_int64, Go.max_int64 in *; lia).
    change (Go.min_int64 <? 0) with true. change (Go.i64 (- Go.min_int64)) with Go.min_int64. cbv iota.
    replace (tol <? Go.min_int64) with false by (unfold Go.min_int64; lia). cbv beta iota. by right.
  - assert (Go.min_int64 < Go.sub now ts <= Go.max_int64) as Hs by (unfold Go.sub, Go.min_int64, Go.max_int64 in *; lia).
    assert ((if Go.sub now ts <? 0 then Go.i64 (- Go.sub now ts) else Go.sub now ts) = Z.abs (Go.sub now ts)) as ->.
    { unfold Go.min_int64, Go.max_int64 in Hs. destruct (Z.ltb_spec (Go.sub now ts) 0); [rewrite i64_id by lia|]; lia. }
    destruct (Z.ltb_spec tol (Z.abs (Go.sub now ts))) as [Hlt|Hge]; cbv beta iota; [|by left].
    split; [intros [?|?]; [lia|done]|done].
Qed.

(** The timestamp of a header is acceptable to [v] at [now]. *)
Definition timely (v : Verifier) (now ts : Go.time) : Prop :=
  ts = Go.zero_time \/ tolerance (opts v) <= 0 \/ in_window (tolerance (opts v)) now ts.

(** Some secret of [v] signed this message. *)
Definition authentic (v : Verifier) (ts : Go.time) (sigs : list bytes) (body : bytes) : Prop :=
  exists secret, secret ∈ v_secrets v /\ digest secret (Message (scheme v) ts body) ∈ sigs.

Lemma authentic_existsb v ts sigs body :
  existsb (fun secret => existsb (hmac_Equal (digest secret (Message (scheme v) ts body))) sigs) (v_secrets v) = true
  <-> authentic v ts sigs body.
Proof.
  unfold authentic. rewrite existsb_exists. setoid_rewrite existsb_exists. unfold hmac_Equal. split.
  - intros (k & Hk & d & Hd & E%bool_decide_eq_true_1). exists k. rewrite E. by split; apply list_elem_of_In.
  - intros (k & Hk & Hd). exists k. split; [by apply list_elem_of_In|].
    eexists. split; [by apply list_elem_of_In|]. by apply bool_decide_eq_true_2.
Qed.

Definition checked (v : Verifier) (now ts : Go.time) : option error :=
  if negb (Go.is_zero ts) && (0 <? tolerance (opts v)) then checkTimestamp (tolerance (opts v)) now ts else None.

Lemma checked_exact v now ts :
  match checked v now ts with
  | None => timely v now ts
  | Some e => ~ timely v now ts /\ Errors.Is ErrTimestampOutOfTolerance e = true
  end.
Proof.
  unfold checked, timely, Go.is_zero, Go.zero_time. destruct (Z.eqb_spec ts 0) as [->|Hz]; cbn [negb andb]; [by left|].
  destruct (Z.ltb_spec 0 (tolerance (opts v))) as [Ht|Ht]; [|by right; left].
  pose proof (checkTimestamp_exact (tolerance (opts v)) now ts Ht) as Hc.
  destruct (checkTimestamp _ _ _) as [e|]; [|by right; right].
  destruct Hc as [Hc He]. split; [|done]. intros [?|[?|?]]; [done|lia|done].
Qed.


(** C30: what [Sign] produces, [Verify] accepts: with a shared secret, for any
    lawful scheme and any body, a verifier whose clock is within 292 years of
    the signer's accepts the header exactly when the signing time, in the
    scheme's resolution of a second, lies within the tolerance, in either
    direction, or the scheme carries no time; otherwise it reports the
    timestamp. *)
Theorem sign_verify (sg : Signer) (v : Verifier) `{!SchemeLaws (scheme v)} (t now : Go.time) (body : bytes) :
  s_scheme sg = scheme v -> s_secret sg ∈ v_secrets v -> representable t -> 0 <= tolerance (opts v) ->
  Z.abs (now - stamp t) <= Go.max_int64 ->
  let ok := stamp t = Go.zero_time \/ tolerance (opts v) = 0 \/ Z.abs (now - stamp t) <= tolerance (opts v) in
  (ok -> Verify v now (Sign sg t body) body = None) /\
  (~ ok -> exists e, Verify v now (Sign sg t body) body = Some e /\ Errors.Is ErrTimestampOutOfTolerance e = true).
Proof.
  intros Hs Hk Ht Htol Hnow ok. unfold Sign, Verify. rewrite Hs.
  set (d := digest (s_secret sg) _). assert (d <> []) as Hd.
  { intros E. pose proof (length_hmac (s_secret sg) (Message (scheme v) t body)) as Hl. fold d in Hl.
    unfold d, digest in E. rewrite E in Hl. done. }
  rewrite (parse_format t d Ht Hd). fold (checked v now (stamp t)).
  assert (timely v now (stamp t) <-> ok) as Hok.
  { unfold timely, ok, in_window, Go.sub, Go.min_int64, Go.max_int64 in *. lia. }
  pose proof (checked_exact v now (stamp t)) as Hc. destruct (checked v now (stamp t)) as [e|].
  { destruct Hc as [Hn He]. split; [tauto|eauto]. }
  split; [intros _|tauto].
  pose proof (authentic_existsb v (stamp t) [d] body) as Ha. cbv zeta. destruct (existsb _ _); [done|].
  exfalso. assert (false = true) as ?; [|done]. apply Ha. exists (s_secret sg). split; [done|].
  rewrite (message_stamp t body Ht). by left.
Qed.

(** a Stripe signature binds the second and the body: two signing inputs
    with the same canonical message are the same second and the same body, so a
    digest for one cannot be moved to another time or body. *)
Theorem stripe_message_binds (t t' : Go.time) (body body' : bytes) :
  Message Stripe t body = Message Stripe t' body' <-> Unix t = Unix t' /\ body = body'.
Proof.
  cbn [Stripe Message]. unfold stripeMessage. split; [|by intros [-> ->]]. intros E.
  assert (forall n, x2e ∉ FormatInt n) as Hn.
  { intros n. eapply bytes_notin; [|apply FormatInt_chars]. cbv beta. change (Z_of_byte x2e) with 46. lia. }
  apply app_sep_bytes_inj in E as [E ->]; [|done..]. split; [|done]. apply FormatInt_inj in E; [done|apply Unix_range..].
Qed.

(** ** The HTTP adapter *)

Lemma checkTimestamp_status tol now ts e : checkTimestamp tol now ts = Some e -> defaultErrorHandler e = 401.
Proof. unfold checkTimestamp. case_match; by intros [= <-]. Qed.

Lemma verify_status (v : Verifier) `{!SchemeLaws (scheme v)} now header body e :
  Verify v now header body = Some e -> defaultErrorHandler e = 401.
Proof.
  unfold Verify. destruct (ParseHeader (scheme v) header) as [e'|[ts sigs]] eqn:Hp.
  { destruct (parse_error _ _ Hp) as [what ->]. by intros [= <-]. }
  destruct (negb _ && _); [destruct (checkTimestamp _ _ _) eqn:Hc|].
  { intros [= <-]. by eapply checkTimestamp_status. }
  all: case_match; by intros [= <-].
Qed.

(** the middleware is a gate.  For a limit below the largest [int64] it
    answers an over-long body with [ErrBodyTooLarge] (413 by default), a broken
    one with its read error, an unverified one with the error of [Verify] (401
    by default); the next handler runs on a body within the limit that was
    verified as a whole, and reads that very body; a request without a body is
    verified as an empty one. *)
Theorem middleware_gate {A} (v : Verifier) `{!SchemeLaws (scheme v)} (now : Go.time) (maxBytes : Z) (handler : error -> A)
    (next : Request -> A) (data : bytes) (rerr : option error) (hdr : bytes -> bytes) :
  0 <= maxBytes < Go.max_int64 ->
  let verdict body := Verify v now (hdr (HeaderName (scheme v))) body in
  let gate body r := match verdict body with None => next r | Some e => handler e end in
  Middleware v now maxBytes handler next (mkRequest (Some (data, rerr)) hdr) =
    (if maxBytes <? zlen data then handler ErrBodyTooLarge
     else match rerr with
          | Some e => handler (ErrWrap "httpsign: read body: " e)
          | None => gate data (mkRequest (Some (data, None)) hdr)
          end) /\
  Middleware v now maxBytes handler next (mkRequest None hdr) = gate [] (mkRequest None hdr) /\
  defaultErrorHandler ErrBodyTooLarge = 413 /\
  (forall body e, verdict body = Some e -> defaultErrorHandler e = 401).
Proof.
  intros Hm verdict gate. split; [|split; [done|split; [done|intros body e; by eapply verify_status]]].
  unfold Middleware, readBody, read_limited. cbn [Body fst snd].
  rewrite i64_id by (unfold Go.max_int64 in Hm; lia).
  destruct (Z.leb_spec (maxBytes + 1) (zlen data)) as [Hl|Hl].
  - rewrite zlen_take. replace (maxBytes <? zlen data) with true by lia.
    by rewrite (proj2 (Z.ltb_lt maxBytes (Z.min (Z.of_nat (Z.to_nat (maxBytes + 1))) (zlen data)))) by lia.
  - replace (maxBytes <? zlen data) with false by lia. destruct rerr; [done|].
    by replace (maxBytes <? zlen data) with false by lia.
Qed.

(** ** Witnesses *)

Definition demo_secret : bytes := bs "whsec_demo".
Definition demo_time : Go.time := (1700000000 + Go.unix_epoch_sec) * Go.nanos_per_sec + 250000000.
Definition demo_verifier : Verifier := NewVerifier Stripe (bs "rotated") [WithSecrets [demo_secret]].
Definition demo_body : bytes := bs "{'id':1}".


Lemma sign_verify_witness :
  Verify demo_verifier (demo_time + Go.nanos_per_sec) (Sign (NewSigner Stripe demo_secret) demo_time demo_body) demo_body = None.
Proof.
  apply (proj1 (sign_verify (NewSigner Stripe demo_secret) demo_verifier demo_time (demo_time + Go.nanos_per_sec) demo_body
    eq_refl ltac:(right; left) ltac:(vm_compute; split; discriminate) ltac:(vm_compute; discriminate) ltac:(vm_compute; discriminate))).
  right. right. vm_compute. discriminate.
Defined.

Lemma middleware_gate_witness :
  Middleware demo_verifier demo_time DefaultMaxBytes defaultErrorHandler (fun _ => 200)
    (mkRequest (Some (demo_body, None)) (fun _ => Sign (NewSigner Stripe demo_secret) demo_time demo_body)) = 200.
Proof.
  rewrite (proj1 (middleware_gate demo_verifier demo_time DefaultMaxBytes defaultErrorHandler (fun _ => 200) demo_body None
    (fun _ => Sign (NewSigner Stripe demo_secret) demo_time demo_body) ltac:(vm_compute; split; [discriminate|reflexivity]))).
  vm_compute. reflexivity.
Defined.

(** ** Two overflows *)

(** A timestamp more than 292 years ahead passes the window of five minutes. *)
Example far_future_accepted :
  let t := demo_time + 300 * 366 * 24 * 3600 * Go.nanos_per_sec in
  Verify demo_verifier demo_time (Sign (NewSigner Stripe demo_secret) t demo_body) demo_body = None.
Proof. vm_compute. reflexivity. Qed.

(** With the largest limit the limit plus one wraps, nothing is read, and a
    correctly signed body is refused. *)
Example max_bytes_overflow :
  Middleware demo_verifier demo_time Go.max_int64 defaultErrorHandler (fun _ => 200)
    (mkRequest (Some (demo_body, None)) (fun _ => Sign (NewSigner Stripe demo_secret) demo_time demo_body)) = 401.
Proof. vm_compute. reflexivity. Qed.

End HmacTheorems.
