(* ===== verification/CuckooFilter.v ===== *)
(** * The in-memory cuckoo filter: data/probfilter/cuckoo/storages/memory

    The filter with its relocation walk and the storage around it.  The hash
    of a value under the filter's seed is an argument ([hash]), and so are the
    random choices of an insertion: which candidate bucket the walk starts
    from, and the slot each step takes. *)

From S2P Require Import Prelude.

Module CuckooFilter.

Definition bucketSize : nat := 4.
Definition maxKicks : nat := 500.
Definition fingerprintShift : Z := 56.
Definition fingerprintValues : Z := 255.
Definition altIndexMix : Z := 0x9e3779b1.

(** A fingerprint is a byte, 0 an empty slot; a bucket is a list of
    [bucketSize] of them. *)
Abbreviation fingerprint := Z (only parsing).
Abbreviation bucket := (list Z) (only parsing).

Record kick := mkKick { k_bucket : Z; k_slot : nat; k_prev : fingerprint }.

Record cuckooFilter := mkFilter { buckets : list bucket; mask : Z; count : Z }.

Definition u64 (z : Z) : Z := z mod 2 ^ 64.

(** [bits.Len64]. *)
Definition Len64 (n : Z) : Z := if n =? 0 then 0 else Z.log2 n + 1.

Definition newCuckooFilter (capacity : Z) : cuckooFilter :=
  let n := Z.max (u64 (capacity + Z.of_nat bucketSize - 1) / Z.of_nat bucketSize) 1 in
  let n := u64 (Z.shiftl 1 (Len64 (n - 1))) in
  mkFilter (replicate (Z.to_nat n) (replicate bucketSize 0)) (u64 (n - 1)) 0.

Definition bucket_at (bs : list bucket) (i : Z) : bucket := default [] (bs !! Z.to_nat i).
Definition set_bucket (i : Z) (b : bucket) (bs : list bucket) : list bucket := <[Z.to_nat i := b]> bs.
Definition set_slot (i : Z) (slot : nat) (fp : fingerprint) (bs : list bucket) : list bucket :=
  set_bucket i (<[slot := fp]> (bucket_at bs i)) bs.

(** [bucket.has], [bucket.put] and [bucket.clear]. *)
Definition has (fp : fingerprint) (b : bucket) : bool := existsb (Z.eqb fp) b.

Fixpoint replace_first (old new : fingerprint) (b : bucket) : option bucket :=
  match b with
  | [] => None
  | v :: b => if v =? old then Some (new :: b) else cons v <$> replace_first old new b
  end.
Definition put (fp : fingerprint) (b : bucket) : option bucket := replace_first 0 fp b.
Definition clear (fp : fingerprint) (b : bucket) : option bucket := replace_first fp 0 b.

Section filter.
Variable hash : string -> Z.

Definition alt (m : Z) (i : Z) (fp : fingerprint) : Z :=
  Z.land (Z.lxor i ((fp * altIndexMix) mod 2 ^ 32)) m.

Definition locate (f : cuckooFilter) (value : string) : fingerprint * Z * Z :=
  let h := hash value in
  let fp := Z.shiftr h fingerprintShift mod fingerprintValues + 1 in
  let i1 := Z.land h (mask f) in
  (fp, i1, alt (mask f) i1 fp).

Definition lookup (f : cuckooFilter) (value : string) : bool :=
  let '(fp, i1, i2) := locate f value in
  has fp (bucket_at (buckets f) i1) || has fp (bucket_at (buckets f) i2).

(** An operation on the first of two buckets that takes it. *)
Definition either (op : bucket -> option bucket) (i1 i2 : Z) (bs : list bucket) : option (list bucket) :=
  match op (bucket_at bs i1) with
  | Some b => Some (set_bucket i1 b bs)
  | None => (fun b => set_bucket i2 b bs) <$> op (bucket_at bs i2)
  end.

(** The relocation walk; [slots] are the slots its steps take.  The log holds
    the steps, the last one first. *)
Fixpoint relocate (m : Z) (slots : list nat) (i : Z) (fp : fingerprint) (bs : list bucket) (log : list kick) :
    bool * list bucket * list kick :=
  match slots with
  | [] => (false, bs, log)
  | slot :: slots =>
      let victim := default 0 (bucket_at bs i !! slot) in
      let log := mkKick i slot victim :: log in
      let bs := set_slot i slot fp bs in
      let i := alt m i victim in
      match put victim (bucket_at bs i) with
      | Some b => (true, set_bucket i b bs, log)
      | None => relocate m slots i victim bs log
      end
  end.

(** The undoing of a walk, from its last step on. *)
Definition undo (log : list kick) (bs : list bucket) : list bucket :=
  fold_left (fun bs k => set_slot (k_bucket k) (k_slot k) (k_prev k) bs) log bs.

(** The random choices of an insertion. *)
Record choices := mkChoices { c_second : bool; c_slots : list nat }.

Definition insert (ch : choices) (f : cuckooFilter) (value : string) : bool * cuckooFilter :=
  let '(fp, i1, i2) := locate f value in
  match either (put fp) i1 i2 (buckets f) with
  | Some bs => (true, mkFilter bs (mask f) (count f + 1))
  | None =>
      let i := if c_second ch then i2 else i1 in
      match relocate (mask f) (c_slots ch) i fp (buckets f) [] with
      | (true, bs, _) => (true, mkFilter bs (mask f) (count f + 1))
      | (false, bs, log) => (false, mkFilter (undo log bs) (mask f) (count f))
      end
  end.

Definition remove (f : cuckooFilter) (value : string) : bool * cuckooFilter :=
  let '(fp, i1, i2) := locate f value in
  match either (clear fp) i1 i2 (buckets f) with
  | Some bs => (true, mkFilter bs (mask f) (count f - 1))
  | None => (false, f)
  end.

(** ** The storage *)

Definition ErrFilterFull : error := ErrNew "cuckoo filter is full".

Record Storage := mkStorage { s_filter : cuckooFilter; o_capacity : Z; s_capacity : Z }.

Definition New (capacity : Z) : Storage := mkStorage (newCuckooFilter capacity) capacity capacity.

Definition MightExist (s : Storage) (value : string) : bool := lookup (s_filter s) value.

Definition set_filter (f : cuckooFilter) (s : Storage) : Storage := mkStorage f (o_capacity s) (s_capacity s).

Definition Add (ch : choices) (value : string) (s : Storage) : option error * Storage :=
  let '(ok, f) := insert ch (s_filter s) value in
  (if ok then None else Some ErrFilterFull, set_filter f s).

(** [insertAll], with the choices of each insertion. *)
Fixpoint insertAll (f : cuckooFilter) (values : list (string * choices)) : option error * cuckooFilter :=
  match values with
  | [] => (None, f)
  | (v, ch) :: values =>
      match insert ch f v with
      | (true, f) => insertAll f values
      | (false, f) => (Some ErrFilterFull, f)
      end
  end.

Definition AddBatch (values : list (string * choices)) (s : Storage) : option error * Storage :=
  let '(err, f) := insertAll (s_filter s) values in (err, set_filter f s).

Definition Delete (value : string) (s : Storage) : bool * Storage :=
  let '(ok, f) := remove (s_filter s) value in (ok, set_filter f s).

Definition stageHeadroomDivisor : Z := 4.

Record staging := mkStaging { g_filter : cuckooFilter; g_capacity : Z }.

Definition Stage (expectedItems : Z) (s : Storage) : staging :=
  let capacity :=
    if 0 <? expectedItems
    then Z.max (o_capacity s) (u64 (Go.i64 (expectedItems + expectedItems / stageHeadroomDivisor)))
    else o_capacity s in
  mkStaging (newCuckooFilter capacity) capacity.

Definition staging_AddBatch (values : list (string * choices)) (g : staging) : option error * staging :=
  let '(err, f) := insertAll (g_filter g) values in (err, mkStaging f (g_capacity g)).

(** [staging.Commit] with the error of the context, if any. *)
Definition Commit (ctx_err : option error) (g : staging) (s : Storage) : option error * Storage :=
  match ctx_err with
  | Some e => (Some e, s)
  | None => (None, mkStorage (g_filter g) (o_capacity s) (g_capacity g))
  end.

(** The item count and the capacity of [Stats]. *)
Definition stats_counts (s : Storage) : Z * Z := (Go.i64 (count (s_filter s)), Go.i64 (s_capacity s)).

End filter.

End CuckooFilter.
