(* ===== verification/CuckooTheorems.v ===== *)
(** * The cuckoo filter is a multiset of signatures

    What a filter holds is the multiset of the signatures of its entries: the
    fingerprint with the pair of buckets it may live in.  Insertion adds a
    signature or changes nothing, removal takes one away, lookup tests for one;
    relocation moves entries within their pair. *)

From S2P Require Import Prelude CuckooFilter.

Module CuckooTheorems.
Import CuckooFilter.

(** ** Indices *)

Definition is_mask (m : Z) : Prop := exists k, 0 <= k < 64 /\ m = Z.ones k.

Lemma mask_land m i : is_mask m -> 0 <= Z.land i m <= m.
Proof.
  intros (k & Hk & ->). rewrite Z.land_ones by lia. rewrite Z.ones_equiv.
  pose proof (Z.mod_pos_bound i (2 ^ k) ltac:(apply Z.pow_pos_nonneg; lia)). lia.
Qed.

Lemma mask_small m i : is_mask m -> 0 <= i <= m -> Z.land i m = i.
Proof.
  intros (k & Hk & ->) Hi. rewrite Z.land_ones by lia. rewrite Z.ones_equiv in Hi. apply Z.mod_small. lia.
Qed.

Lemma alt_range m i fp : is_mask m -> 0 <= alt m i fp <= m.
Proof. apply mask_land. Qed.

(** The other bucket of the other bucket is the bucket. *)
Lemma alt_involutive m i fp : is_mask m -> 0 <= i <= m -> alt m (alt m i fp) fp = i.
Proof.
  intros Hm Hi. unfold alt. set (x := (fp * altIndexMix) mod 2 ^ 32).
  rewrite <-(mask_small m i Hm Hi) at 2. apply Z.bits_inj'. intros n _.
  rewrite !Z.land_spec, !Z.lxor_spec, Z.land_spec, Z.lxor_spec.
  by destruct (Z.testbit i n), (Z.testbit x n), (Z.testbit m n).
Qed.

(** ** Entries *)

Definition slots_of (i : Z) (b : list Z) : list (Z * Z) := (fun fp => (i, fp)) <$> filter (fun v => v <> 0) b.
Definition entries_from (i : Z) (bs : list (list Z)) : list (Z * Z) :=
  concat (imap (fun j b => slots_of (i + Z.of_nat j) b) bs).
Definition entries (bs : list (list Z)) : list (Z * Z) := entries_from 0 bs.

Lemma entries_cons i b bs : entries_from i (b :: bs) = slots_of i b ++ entries_from (i + 1) bs.
Proof.
  unfold entries_from. rewrite imap_cons. cbn. rewrite Z.add_0_r. do 2 f_equal. apply imap_ext.
  intros j b' _. cbn. f_equal. lia.
Qed.

(** Exchanging one bucket exchanges its entries. *)
Lemma entries_exchange i bs j b b' :
  bs !! j = Some b ->
  exists E, entries_from i bs ≡ₚ slots_of (i + Z.of_nat j) b ++ E /\
    entries_from i (<[j := b']> bs) ≡ₚ slots_of (i + Z.of_nat j) b' ++ E.
Proof.
  revert i j. induction bs as [|b0 bs IH]; intros i [|j] Hj; [done|done|..].
  - injection Hj as ->. exists (entries_from (i + 1) bs). change (<[0%nat := b']> (b :: bs)) with (b' :: bs).
    rewrite !entries_cons. by replace (i + Z.of_nat 0) with i by lia.
  - destruct (IH (i + 1) j Hj) as (E & H1 & H2). exists (slots_of i b0 ++ E).
    change (<[S j := b']> (b0 :: bs)) with (b0 :: <[j := b']> bs). rewrite !entries_cons, H1, H2.
    replace (i + 1 + Z.of_nat j) with (i + Z.of_nat (S j)) by lia. split; solve_Permutation.
Qed.

Lemma elem_of_slots i b e : e ∈ slots_of i b <-> e.1 = i /\ e.2 ∈ b /\ e.2 <> 0.
Proof.
  unfold slots_of. rewrite list_elem_of_fmap. split.
  - by intros (fp & -> & [? ?]%list_elem_of_filter).
  - intros (<- & Hb & Hne). exists e.2. split; [by destruct e|]. by apply list_elem_of_filter.
Qed.

Lemma elem_of_entries bs e :
  e ∈ entries bs <-> exists j b, bs !! j = Some b /\ e.1 = Z.of_nat j /\ e.2 ∈ b /\ e.2 <> 0.
Proof.
  unfold entries, entries_from. rewrite list_elem_of_In, in_concat. split.
  - intros (l & Hl & He). apply list_elem_of_In in Hl, He. apply elem_of_lookup_imap in Hl as (j & b & -> & Hj).
    apply elem_of_slots in He as (? & ? & ?). exists j, b. split_and!; [done|lia|done|done].
  - intros (j & b & Hj & H1 & H2 & H3). exists (slots_of (0 + Z.of_nat j) b). rewrite <-!list_elem_of_In. split.
    + apply elem_of_lookup_imap. by exists j, b.
    + apply elem_of_slots. split_and!; [lia|done|done].
Qed.

(** ** Well-formed filters *)

Record shape (m : Z) (bs : list (list Z)) : Prop := {
  sh_mask : is_mask m;
  sh_length : Z.of_nat (length bs) = m + 1;
  sh_buckets : Forall (fun b => length b = bucketSize) bs
}.

Lemma shape_at m bs i :
  shape m bs -> 0 <= i <= m -> bs !! Z.to_nat i = Some (bucket_at bs i) /\ length (bucket_at bs i) = bucketSize.
Proof.
  intros [Hm Hl Hb] Hi. unfold bucket_at. destruct (lookup_lt_is_Some_2 bs (Z.to_nat i)) as [b E]; [lia|]. rewrite E. cbn.
  split; [done|]. by apply (Forall_lookup_1 _ _ _ _ Hb E).
Qed.

Lemma shape_set m bs i b : shape m bs -> length b = bucketSize -> shape m (set_bucket i b bs).
Proof. intros [Hm Hl Hb] Hlen. unfold set_bucket.
  split; [done|by rewrite length_insert|]. by apply Forall_insert. Qed.

Lemma bucket_at_set m bs i b : shape m bs -> 0 <= i <= m -> bucket_at (set_bucket i b bs) i = b.
Proof.
  intros [_ Hl _] Hi. unfold bucket_at, set_bucket. by rewrite list_lookup_insert_eq by lia.
Qed.

(** What [put] and [clear] change. *)
Lemma replace_first_some old new b b' :
  replace_first old new b = Some b' -> exists b1 b2, b = b1 ++ old :: b2 /\ b' = b1 ++ new :: b2.
Proof.
  revert b'. induction b as [|v b IH]; intros b' H; [done|]. cbn in H. destruct (Z.eqb_spec v old) as [->|].
  - injection H as <-. by exists [], b.
  - apply fmap_Some in H as (b0 & Hb & ->). destruct (IH b0 Hb) as (b1 & b2 & -> & ->). by exists (v :: b1), b2.
Qed.

Lemma replace_first_none old new b : replace_first old new b = None <-> old ∉ b.
Proof.
  induction b as [|v b IH]; cbn; [split; [intros _; apply not_elem_of_nil|done]|].
  rewrite not_elem_of_cons. destruct (Z.eqb_spec v old) as [->|Hne].
  - split; [done|intros [? _]; done].
  - rewrite fmap_None, IH. split; [intros ?; by split; [congruence|]|by intros [_ ?]].
Qed.

(** One entry more, or less, or none of value 0. *)
Definition entry (i v : Z) : list (Z * Z) := if decide (v = 0) then [] else [(i, v)].

Lemma entry_nz i v : v <> 0 -> entry i v = [(i, v)].
Proof. intros H. unfold entry. by rewrite decide_False. Qed.

Lemma slots_split i b1 v b2 : slots_of i (b1 ++ v :: b2) ≡ₚ entry i v ++ slots_of i (b1 ++ b2).
Proof.
  unfold slots_of, entry. rewrite !filter_app, filter_cons, !fmap_app. case_decide; case_decide; try done; cbn.
  by rewrite <-Permutation_middle.
Qed.

Lemma exchange_ok m bs i b1 old b2 new :
  shape m bs -> 0 <= i <= m -> bucket_at bs i = b1 ++ old :: b2 ->
  entry i old ++ entries (set_bucket i (b1 ++ new :: b2) bs) ≡ₚ entry i new ++ entries bs /\
  shape m (set_bucket i (b1 ++ new :: b2) bs).
Proof.
  intros Hsh Hi Hb. destruct (shape_at m bs i Hsh Hi) as [E Hlen]. rewrite Hb in E, Hlen.
  destruct (entries_exchange 0 bs (Z.to_nat i) _ (b1 ++ new :: b2) E) as (R & H1 & H2).
  rewrite Z2Nat.id, Z.add_0_l in H1, H2 by lia. split.
  - unfold entries, set_bucket. rewrite H1, H2, !slots_split. solve_Permutation.
  - apply shape_set; [done|]. rewrite length_app in *. done.
Qed.

Lemma put_ok m bs i fp b :
  shape m bs -> 0 <= i <= m -> fp <> 0 -> put fp (bucket_at bs i) = Some b ->
  entries (set_bucket i b bs) ≡ₚ (i, fp) :: entries bs /\ shape m (set_bucket i b bs).
Proof.
  intros Hsh Hi Hfp Hp. apply replace_first_some in Hp as (b1 & b2 & Eb & ->).
  pose proof (exchange_ok m bs i b1 0 b2 fp Hsh Hi Eb) as [H1 H2]. rewrite (entry_nz _ fp Hfp) in H1. done.
Qed.

Lemma clear_ok m bs i fp b :
  shape m bs -> 0 <= i <= m -> fp <> 0 -> clear fp (bucket_at bs i) = Some b ->
  (i, fp) :: entries (set_bucket i b bs) ≡ₚ entries bs /\ shape m (set_bucket i b bs).
Proof.
  intros Hsh Hi Hfp Hp. apply replace_first_some in Hp as (b1 & b2 & Eb & ->).
  pose proof (exchange_ok m bs i b1 fp b2 0 Hsh Hi Eb) as [H1 H2]. rewrite (entry_nz _ fp Hfp) in H1. done.
Qed.

Lemma set_slot_ok m bs i slot fp :
  shape m bs -> 0 <= i <= m -> (slot < bucketSize)%nat ->
  exists v, bucket_at bs i !! slot = Some v /\
    entry i v ++ entries (set_slot i slot fp bs) ≡ₚ entry i fp ++ entries bs /\ shape m (set_slot i slot fp bs).
Proof.
  intros Hsh Hi Hs. destruct (shape_at m bs i Hsh Hi) as [_ Hlen].
  destruct (lookup_lt_is_Some_2 (bucket_at bs i) slot ltac:(lia)) as [v Hv]. exists v. split; [done|].
  unfold set_slot. pose proof (take_drop_middle _ _ _ Hv) as Em. rewrite insert_take_drop by lia.
  by apply exchange_ok.
Qed.

(** ** Signatures *)

Definition signature (m : Z) (e : Z * Z) : Z * Z := (e.2, Z.min e.1 (alt m e.1 e.2)).
Definition signatures (m : Z) (bs : list (list Z)) : list (Z * Z) := signature m <$> entries bs.

Lemma signature_alt m i fp : is_mask m -> 0 <= i <= m -> signature m (alt m i fp, fp) = signature m (i, fp).
Proof. intros Hm Hi. unfold signature. cbn. rewrite alt_involutive by done. f_equal. lia. Qed.

(** Two entries with the same signature are in the same pair of buckets. *)
Lemma signature_inj m i fp j fp' :
  is_mask m -> 0 <= i <= m -> 0 <= j <= m -> signature m (i, fp) = signature m (j, fp') ->
  fp = fp' /\ (i = j \/ i = alt m j fp').
Proof.
  intros Hm Hi Hj [= -> E]. split; [done|].
  pose proof (alt_involutive m i fp' Hm Hi) as Ei. pose proof (alt_involutive m j fp' Hm Hj) as Ej.
  assert (i = j \/ i = alt m j fp' \/ alt m i fp' = j \/ alt m i fp' = alt m j fp') as [->|[->|[E'|E']]] by lia; [auto|auto| |].
  - right. by rewrite <-E', Ei.
  - left. by rewrite <-Ei, E', Ej.
Qed.

(** ** Relocation *)

Lemma full_put bs i fp : put fp (bucket_at bs i) = None -> 0 ∉ bucket_at bs i.
Proof. apply replace_first_none. Qed.

Lemma relocate_ok m slots i fp bs log :
  shape m bs -> 0 <= i <= m -> fp <> 0 -> 0 ∉ bucket_at bs i -> Forall (fun s => (s < bucketSize)%nat) slots ->
  let '(ok, bs', log') := relocate m slots i fp bs log in
  if ok then shape m bs' /\ signatures m bs' ≡ₚ signature m (i, fp) :: signatures m bs
  else undo log' bs' = undo log bs.
Proof.
  intros Hsh Hi Hfp Hfull Hslots. revert i fp bs log Hsh Hi Hfp Hfull.
  induction Hslots as [|slot slots Hslot _ IH]; intros i fp bs log Hsh Hi Hfp Hfull; [done|]. cbn [relocate].
  destruct (set_slot_ok m bs i slot fp Hsh Hi Hslot) as (v & Hv & HE & Hsh1). rewrite Hv. change (default 0 (Some v)) with v.
  assert (v <> 0) as Hv0 by (intros ->; apply Hfull; by eapply list_elem_of_lookup_2).
  rewrite (entry_nz i v Hv0), (entry_nz i fp Hfp) in HE. pose proof (sh_mask _ _ Hsh) as Hm.
  pose proof (alt_range m i v Hm) as Hi'. set (bs1 := set_slot i slot fp bs) in *.
  destruct (put v (bucket_at bs1 (alt m i v))) as [b|] eqn:Hput.
  - destruct (put_ok m bs1 (alt m i v) v b Hsh1 Hi' Hv0 Hput) as [H1 H2]. split; [done|].
    unfold signatures. rewrite H1. cbn [fmap list_fmap]. rewrite signature_alt by done.
    change (signature m (i, v) :: (signature m <$> entries bs1)) with (signature m <$> [(i, v)] ++ entries bs1).
    by rewrite HE.
  - specialize (IH (alt m i v) v bs1 (mkKick i slot v :: log) Hsh1 Hi' Hv0 (full_put _ _ _ Hput)).
    destruct (relocate m slots (alt m i v) v bs1 (mkKick i slot v :: log)) as [[[] bs'] log'].
    + destruct IH as [? IH]. split; [done|]. rewrite IH, signature_alt by done. unfold signatures.
      change (signature m (i, v) :: (signature m <$> entries bs1)) with (signature m <$> [(i, v)] ++ entries bs1). by rewrite HE.
    + rewrite IH. cbn [undo fold_left k_bucket k_slot k_prev]. f_equal. unfold bs1, set_slot.
      rewrite (bucket_at_set m bs i _ Hsh Hi), list_insert_insert_eq. unfold set_bucket. rewrite list_insert_insert_eq.
      rewrite (list_insert_id (bucket_at bs i)) by done. apply list_insert_id. by apply (shape_at m).
Qed.

(** ** Operations *)

Section operations.
Variable hash : string -> Z.

Definition wf (f : cuckooFilter) : Prop := shape (mask f) (buckets f) /\ count f = Z.of_nat (length (entries (buckets f))).

Definition sigs (f : cuckooFilter) : list (Z * Z) := signatures (mask f) (buckets f).

(** The signature of a value in a filter with mask [m]. *)
Definition sig_of (m : Z) (value : string) : Z * Z :=
  let fp := Z.shiftr (hash value) fingerprintShift mod fingerprintValues + 1 in
  signature m (Z.land (hash value) m, fp).

Lemma locate_ok f value fp i1 i2 :
  wf f -> locate hash f value = (fp, i1, i2) ->
  fp <> 0 /\ 0 <= i1 <= mask f /\ 0 <= i2 <= mask f /\ i2 = alt (mask f) i1 fp /\
  signature (mask f) (i1, fp) = sig_of (mask f) value /\ signature (mask f) (i2, fp) = sig_of (mask f) value.
Proof.
  intros [[Hm _ _] _] [= <- <- <-]. pose proof (mask_land (mask f) (hash value) Hm).
  pose proof (Z.mod_pos_bound (Z.shiftr (hash value) fingerprintShift) fingerprintValues ltac:(done)).
  split_and!; [lia|lia|lia|apply alt_range, Hm|apply alt_range, Hm|done|done|by rewrite signature_alt].
Qed.

Definition choices_ok (ch : choices) : Prop :=
  length (c_slots ch) = maxKicks /\ Forall (fun s => (s < bucketSize)%nat) (c_slots ch).

Lemma insert_ok ch f value :
  wf f -> choices_ok ch ->
  let '(ok, f') := insert hash ch f value in
  mask f' = mask f /\ wf f' /\ if ok then sigs f' ≡ₚ sig_of (mask f) value :: sigs f else f' = f.
Proof.
  intros Hwf [_ Hch]. pose proof Hwf as [Hsh Hc]. unfold insert. destruct (locate hash f value) as [[fp i1] i2] eqn:El.
  destruct (locate_ok f value fp i1 i2 Hwf El) as (Hfp & Hi1 & Hi2 & _ & Hs1 & Hs2).
  assert (forall bs' n, shape (mask f) bs' -> signatures (mask f) bs' ≡ₚ sig_of (mask f) value :: sigs f -> n = count f + 1 ->
    let f' := mkFilter bs' (mask f) n in mask f' = mask f /\ wf f' /\ sigs f' ≡ₚ sig_of (mask f) value :: sigs f) as Hfin.
  { intros bs' n Hsh' Hp ->. split; [done|]. split; [|exact Hp]. split; [exact Hsh'|]. apply Permutation_length in Hp. unfold sigs, signatures in Hp.
    cbn [length] in Hp. rewrite !length_fmap in Hp. change (count f + 1 = Z.of_nat (length (entries bs'))). lia. }
  unfold either. destruct (put fp (bucket_at (buckets f) i1)) as [b1|] eqn:P1.
  { destruct (put_ok _ _ _ _ _ Hsh Hi1 Hfp P1) as [HE Hsh']. apply Hfin; [done| |done]. unfold signatures. by rewrite HE, <-Hs1. }
  destruct (put fp (bucket_at (buckets f) i2)) as [b2|] eqn:P2; cbn [fmap option_fmap option_map].
  { destruct (put_ok _ _ _ _ _ Hsh Hi2 Hfp P2) as [HE Hsh']. apply Hfin; [done| |done]. unfold signatures. by rewrite HE, <-Hs2. }
  set (i := if c_second ch then i2 else i1).
  assert (0 <= i <= mask f /\ (0 ∉ bucket_at (buckets f) i) /\ signature (mask f) (i, fp) = sig_of (mask f) value) as (Hi & Hfull & Hs).
  { unfold i. destruct (c_second ch); (split_and!; [lia|lia| |done]); by eapply full_put. }
  pose proof (relocate_ok (mask f) (c_slots ch) i fp (buckets f) [] Hsh Hi Hfp Hfull Hch) as HR.
  destruct (relocate (mask f) (c_slots ch) i fp (buckets f) []) as [[[] bs'] log'].
  - destruct HR as [Hsh' HR]. apply Hfin; [done| |done]. by rewrite HR, Hs.
  - rewrite HR. cbn. destruct f. done.
Qed.

(** A signature is there when the fingerprint is in one of the buckets. *)
Lemma sig_member f value fp i1 i2 :
  wf f -> locate hash f value = (fp, i1, i2) ->
  sig_of (mask f) value ∈ sigs f <-> fp ∈ bucket_at (buckets f) i1 \/ fp ∈ bucket_at (buckets f) i2.
Proof.
  intros Hwf El. destruct (locate_ok f value fp i1 i2 Hwf El) as (Hfp & Hi1 & Hi2 & E2 & Hs1 & Hs2).
  pose proof Hwf as [Hsh _]. pose proof (sh_mask _ _ Hsh) as Hm.
  assert (forall i, 0 <= i <= mask f -> fp ∈ bucket_at (buckets f) i -> (i, fp) ∈ entries (buckets f)) as Hin.
  { intros i Hi Hb. apply elem_of_entries. exists (Z.to_nat i), (bucket_at (buckets f) i).
    destruct (shape_at _ _ i Hsh Hi) as [E _]. cbn. split_and!; [done|lia|done|done]. }
  unfold sigs, signatures. split.
  - intros ([i fp'] & Es & He)%list_elem_of_fmap. apply elem_of_entries in He as (j & b & Hj & E1 & Hb & _). cbn in E1, Hb.
    assert (0 <= i <= mask f) as Hi by (apply lookup_lt_Some in Hj; pose proof (sh_length _ _ Hsh); lia).
    rewrite <-Hs1 in Es. destruct (signature_inj (mask f) i1 fp i fp' Hm Hi1 Hi Es) as [<- Hor].
    assert (bucket_at (buckets f) i = b) as Hbi by (unfold bucket_at; by rewrite E1, Nat2Z.id, Hj).
    destruct Hor as [-> | ->]; [left; by rewrite Hbi|right]. rewrite E2, alt_involutive, Hbi by done. done.
  - intros [Hb|Hb]; [rewrite <-Hs1|rewrite <-Hs2]; apply list_elem_of_fmap_2; auto.
Qed.

Lemma has_true fp b : has fp b = true <-> fp ∈ b.
Proof.
  unfold has. rewrite existsb_exists. split.
  - intros (x & Hx & ->%Z.eqb_eq). by apply list_elem_of_In.
  - intros Hx. exists fp. split; [by apply list_elem_of_In|apply Z.eqb_refl].
Qed.

Lemma lookup_ok f value : wf f -> lookup hash f value = true <-> sig_of (mask f) value ∈ sigs f.
Proof.
  intros Hwf. unfold lookup. destruct (locate hash f value) as [[fp i1] i2] eqn:El.
  rewrite (sig_member f value fp i1 i2 Hwf El), orb_true_iff, !has_true. done.
Qed.

Lemma remove_ok f value :
  wf f ->
  let '(ok, f') := remove hash f value in
  mask f' = mask f /\ wf f' /\
  if ok then sig_of (mask f) value :: sigs f' ≡ₚ sigs f else (sig_of (mask f) value ∉ sigs f) /\ f' = f.
Proof.
  intros Hwf. pose proof Hwf as [Hsh Hc]. unfold remove. destruct (locate hash f value) as [[fp i1] i2] eqn:El.
  destruct (locate_ok f value fp i1 i2 Hwf El) as (Hfp & Hi1 & Hi2 & _ & Hs1 & Hs2).
  assert (forall i b, 0 <= i <= mask f -> signature (mask f) (i, fp) = sig_of (mask f) value ->
    clear fp (bucket_at (buckets f) i) = Some b ->
    let f' := mkFilter (set_bucket i b (buckets f)) (mask f) (count f - 1) in
    mask f' = mask f /\ wf f' /\ sig_of (mask f) value :: sigs f' ≡ₚ sigs f) as Hfin.
  { intros i b Hi Hs Hcl. destruct (clear_ok _ _ _ _ _ Hsh Hi Hfp Hcl) as [HE Hsh']. split; [done|]. split.
    - split; [exact Hsh'|]. apply Permutation_length in HE. cbn [length] in HE.
      change (count f - 1 = Z.of_nat (length (entries (set_bucket i b (buckets f))))). lia.
    - unfold sigs, signatures. cbn [mask buckets]. rewrite <-HE, <-Hs. done. }
  unfold either. destruct (clear fp (bucket_at (buckets f) i1)) as [b1|] eqn:P1; [by apply Hfin|].
  destruct (clear fp (bucket_at (buckets f) i2)) as [b2|] eqn:P2; cbn [fmap option_fmap option_map]; [by apply Hfin|].
  split_and!; [done|exact Hwf| |done].
  apply replace_first_none in P1, P2. rewrite (sig_member f value fp i1 i2 Hwf El). tauto.
Qed.

(** The values a batch inserts before the first that does not fit. *)
Fixpoint inserted (f : cuckooFilter) (values : list (string * choices)) : list string :=
  match values with
  | [] => []
  | (v, ch) :: values => let '(ok, f) := insert hash ch f v in if ok then v :: inserted f values else []
  end.

Lemma insertAll_ok values f :
  wf f -> Forall (fun vc => choices_ok vc.2) values ->
  mask (insertAll hash f values).2 = mask f /\ wf (insertAll hash f values).2 /\
  sigs (insertAll hash f values).2 ≡ₚ (sig_of (mask f) <$> inserted f values) ++ sigs f /\
  ((insertAll hash f values).1 = None -> inserted f values = values.*1).
Proof.
  intros Hwf HF. revert f Hwf. induction HF as [|[v ch] values Hch _ IH]; intros f Hwf; [done|].
  cbn [insertAll inserted]. pose proof (insert_ok ch f v Hwf Hch) as H. destruct (insert hash ch f v) as [[] f1].
  - destruct H as (Em & Hwf1 & Hp). destruct (IH f1 Hwf1) as (Em2 & Hwf2 & Hp2 & Hn).
    split_and!; [congruence|exact Hwf2| |intros E; cbn; by rewrite Hn].
    rewrite Hp2, Hp, Em. cbn. solve_Permutation.
  - destruct H as (Em & Hwf1 & ->). split_and!; [done|exact Hwf|done|done].
Qed.

End operations.

(** ** New filters *)

Lemma entries_zero i n m : entries_from i (replicate n (replicate m 0)) = [].
Proof.
  revert i. induction n as [|n IH]; intros i; [done|]. cbn [replicate]. rewrite entries_cons, IH, app_nil_r. unfold slots_of.
  assert (filter (fun v => v <> 0) (replicate m 0) = []) as ->; [|done].
  clear IH. induction m as [|m IHm]; [done|]. cbn [replicate]. rewrite filter_cons_False; [exact IHm|]. intros H. by apply H.
Qed.

Lemma new_ok capacity :
  0 <= capacity < 2 ^ 62 -> wf (newCuckooFilter capacity) /\ sigs (newCuckooFilter capacity) = [] /\
  capacity <= Z.of_nat bucketSize * (mask (newCuckooFilter capacity) + 1).
Proof.
  intros Hc. unfold newCuckooFilter. set (n := Z.max _ 1).
  assert (u64 (capacity + Z.of_nat bucketSize - 1) = capacity + 3) as Eu
    by (unfold u64; rewrite Z.mod_small; unfold bucketSize; lia).
  assert (1 <= n < 2 ^ 61 /\ capacity <= 4 * n) as [Hn Hcap]
    by (unfold n; rewrite Eu; unfold bucketSize; change (Z.of_nat 4) with 4; lia_mod).
  set (k := Len64 (n - 1)).
  assert (0 <= k <= 61 /\ n <= 2 ^ k) as [Hk Hnk].
  { unfold k, Len64. destruct (Z.eqb_spec (n - 1) 0) as [E|Hne]; [split; [lia|change (2 ^ 0) with 1; lia]|].
    pose proof (Z.log2_nonneg (n - 1)). assert (Z.log2 (n - 1) < 61) by (apply Z.log2_lt_pow2; lia).
    pose proof (Z.log2_spec (n - 1) ltac:(lia)) as [_ Hlt]. rewrite <-Z.add_1_r in Hlt. lia. }
  assert (2 ^ k <= 2 ^ 61) by (apply Z.pow_le_mono_r; lia).
  assert (u64 (Z.shiftl 1 k) = 2 ^ k) as -> by (unfold u64; rewrite Z.shiftl_1_l, Z.mod_small; lia).
  assert (u64 (2 ^ k - 1) = Z.ones k) as -> by (unfold u64; rewrite Z.ones_equiv, Z.mod_small; lia).
  split_and!; cbn [mask buckets count].
  - split; [split; [exists k; split; [lia|done]| |]|]; cbn [mask buckets].
    + rewrite length_replicate, Z.ones_equiv. lia.
    + apply Forall_replicate. apply length_replicate.
    + cbn [count]. unfold entries. by rewrite entries_zero.
  - unfold sigs, signatures, entries. cbn [buckets]. by rewrite entries_zero.
  - rewrite Z.ones_equiv. unfold bucketSize. lia.
Qed.

(** ** Histories of a storage *)

Section history.
Variable hash : string -> Z.

(** [history ms s]: the storage [s] was reached by some operations, the members
    it should hold being [ms].  Only members are deleted; a rebuild stages a
    new filter, fills it and commits it. *)
Inductive history : list string -> Storage -> Prop :=
| h_new capacity : 0 <= capacity < 2 ^ 62 -> history [] (New capacity)
| h_add ms s ch v err s' :
    history ms s -> choices_ok ch -> Add hash ch v s = (err, s') ->
    history (match err with Some _ => ms | None => v :: ms end) s'
| h_batch ms s values err s' :
    history ms s -> Forall (fun vc => choices_ok vc.2) values -> AddBatch hash values s = (err, s') ->
    history (inserted hash (s_filter s) values ++ ms) s'
| h_delete ms s v ok s' :
    history (v :: ms) s -> Delete hash v s = (ok, s') -> history ms s'
| h_permute ms ms' s : history ms s -> ms ≡ₚ ms' -> history ms' s
| h_rebuild ms s n values g s' :
    history ms s -> 0 <= g_capacity (Stage n s) < 2 ^ 62 -> Forall (fun vc => choices_ok vc.2) values ->
    staging_AddBatch hash values (Stage n s) = (None, g) -> Commit None g s = (None, s') ->
    history values.*1 s'.

Record holds (ms : list string) (f : cuckooFilter) : Prop := {
  ho_wf : wf f;
  ho_sigs : sigs f ≡ₚ sig_of hash (mask f) <$> ms
}.

Lemma history_holds ms s : history ms s -> holds ms (s_filter s).
Proof.
  induction 1 as [cap Hc|ms s ch v err s' _ [Hwf Hp] Hch HA|ms s values err s' _ [Hwf Hp] HF HA|ms s v ok s' _ [Hwf Hp] HD
    |ms ms' s _ [Hwf Hp] Hpe|ms s n values g s' _ [Hwf Hp] Hc HF HG HC].
  - destruct (new_ok cap Hc) as (H1 & H2 & _). split; [done|]. unfold New. cbn [s_filter]. by rewrite H2.
  - unfold Add in HA. pose proof (insert_ok hash ch (s_filter s) v Hwf Hch) as H.
    destruct (insert hash ch (s_filter s) v) as [ok f']. destruct H as (Em & Hwf' & H). injection HA as <- <-.
    destruct ok; cbn [s_filter set_filter]; (split; [done|]).
    + by rewrite H, Em, Hp.
    + by subst f'.
  - unfold AddBatch in HA. pose proof (insertAll_ok hash values (s_filter s) Hwf HF) as (Em & Hwf' & Hk & _).
    destruct (insertAll hash (s_filter s) values) as [err' f']. injection HA as <- <-. cbn [s_filter set_filter snd] in *.
    split; [done|]. by rewrite Hk, Hp, Em, fmap_app.
  - unfold Delete in HD. pose proof (remove_ok hash (s_filter s) v Hwf) as H.
    destruct (remove hash (s_filter s) v) as [ok' f']. destruct H as (Em & Hwf' & H). injection HD as <- <-. cbn [s_filter set_filter].
    split; [done|]. destruct ok'.
    + rewrite Em. apply (Permutation_cons_inv (a := sig_of hash (mask (s_filter s)) v)). by rewrite H, Hp.
    + destruct H as [[] _]. rewrite Hp. by left.
  - split; [done|]. by rewrite Hp, Hpe.
  - unfold Stage in *. set (cap := if 0 <? n then _ else _) in *. cbn [g_capacity] in Hc.
    destruct (new_ok cap Hc) as (Hwf0 & Hs0 & _). unfold staging_AddBatch in HG. cbn [g_filter g_capacity] in HG.
    destruct (insertAll_ok hash values _ Hwf0 HF) as (Em & Hwf' & Hp' & Hn).
    destruct (insertAll hash (newCuckooFilter cap) values) as [err f']. injection HG as -> <-. injection HC as <-.
    cbn [s_filter g_filter fst snd] in *. split; [done|]. by rewrite Em, Hp', Hs0, app_nil_r, Hn.
Qed.

End history.

(** C9: the filter never forgets.  After any history of insertions, also
    failed ones, batches, deletions of members and rebuilds, every member
    answers true; a value that answers true shares its fingerprint and its
    pair of buckets with some member; and the item count is the number of
    members. *)
Theorem cuckoo_no_false_negatives hash ms s :
  history hash ms s ->
  (forall v, v ∈ ms -> MightExist hash s v = true) /\
  (forall v, MightExist hash s v = true ->
     exists m, m ∈ ms /\ sig_of hash (mask (s_filter s)) m = sig_of hash (mask (s_filter s)) v) /\
  count (s_filter s) = Z.of_nat (length ms).
Proof.
  intros [Hwf Hp]%history_holds. unfold MightExist. split_and!.
  - intros v Hv. apply lookup_ok; [done|]. rewrite Hp. by apply list_elem_of_fmap_2.
  - intros v Hv. apply lookup_ok in Hv; [|done]. rewrite Hp in Hv. apply list_elem_of_fmap in Hv as (m & E & Hm).
    by exists m.
  - destruct Hwf as [_ ->]. apply Permutation_length in Hp. unfold sigs, signatures in Hp. rewrite !length_fmap in Hp. lia.
Qed.

(** C35: insertion, lookup and removal are those of a multiset.  On a
    well-formed filter, for every random choice, an insertion adds the value's
    signature, or reports that the filter is full and leaves it exactly as it
    was; a removal takes one copy of the signature away, or reports that there
    is none; a lookup tells whether there is one. *)
Theorem cuckoo_refines_multiset hash ch f value :
  wf f -> choices_ok ch ->
  (let '(ok, f') := insert hash ch f value in
   wf f' /\ mask f' = mask f /\ if ok then sigs f' ≡ₚ sig_of hash (mask f) value :: sigs f else f' = f) /\
  (let '(ok, f') := remove hash f value in
   wf f' /\ mask f' = mask f /\
   if ok then sig_of hash (mask f) value :: sigs f' ≡ₚ sigs f else (sig_of hash (mask f) value ∉ sigs f) /\ f' = f) /\
  (lookup hash f value = true <-> sig_of hash (mask f) value ∈ sigs f).
Proof.
  intros Hwf Hch. split_and!; [| |by apply lookup_ok].
  - pose proof (insert_ok hash ch f value Hwf Hch) as H. destruct (insert hash ch f value) as [ok f'].
    destruct H as (H1 & H2 & H3). exact (conj H2 (conj H1 H3)).
  - pose proof (remove_ok hash f value Hwf) as H. destruct (remove hash f value) as [ok f'].
    destruct H as (H1 & H2 & H3). exact (conj H2 (conj H1 H3)).
Qed.

(** A filter of one bucket, filled until an insertion fails. *)
Definition demo_hash (v : string) : Z := Z.of_nat (String.length v) * 0x0123456789abcdef mod 2 ^ 64.
Definition demo_choices : choices := mkChoices true (replicate maxKicks 1%nat).

Lemma demo_choices_ok : choices_ok demo_choices.
Proof. split; [apply length_replicate|]. apply Forall_replicate. unfold bucketSize. lia. Qed.

Definition demo_values : list (string * choices) :=
  (fun v => (v, demo_choices)) <$> ["a"; "bb"; "ccc"; "dddd"; "eeeee"]%string.

Lemma cuckoo_no_false_negatives_witness : exists ms s,
  (AddBatch demo_hash demo_values (New 4)).1 = Some ErrFilterFull /\
  s = (AddBatch demo_hash demo_values (New 4)).2 /\ ms = ["a"; "bb"; "ccc"; "dddd"]%string /\
  forall v, v ∈ ms -> MightExist demo_hash s v = true.
Proof.
  eexists _, _. split; [vm_compute; reflexivity|]. do 2 (split; [reflexivity|]).
  apply (cuckoo_no_false_negatives demo_hash).
  refine (eq_ind _ (fun ms => history demo_hash ms _) (h_batch demo_hash [] (New 4) demo_values _ _ (h_new demo_hash 4 _) _ (surjective_pairing _)) _ _).
  - done.
  - apply list.Forall_fmap, list.Forall_forall. intros v _. apply demo_choices_ok.
  - vm_compute. reflexivity.
Defined.

Lemma cuckoo_refines_multiset_witness :
  lookup demo_hash (newCuckooFilter 4) "a" = true <->
  sig_of demo_hash (mask (newCuckooFilter 4)) "a" ∈ sigs (newCuckooFilter 4).
Proof.
  apply (cuckoo_refines_multiset demo_hash demo_choices (newCuckooFilter 4) "a"); [|apply demo_choices_ok].
  apply new_ok. done.
Defined.

End CuckooTheorems.
