(* ===== verification/LruCache.v ===== *)
(** * Expiring LRU caches: data/cache/lru

    [ExpirableCache] over an LRU list of a library, which is an interface here
    ([LRU], with the behaviour its documentation states in [LRULaws]).  The
    clock is read where the code reads it, and each reading is an argument. *)

From S2P Require Import Prelude.

Module LruCache.

(** ** The library's LRU list *)

(** [expirable.LRU] without a time to live. *)
Class LRU (L K E : Type) := {
  lru_NewLRU : Z -> L;
  lru_Peek : K -> L -> option E;
  lru_Get : K -> L -> option E * L;
  lru_Add : K -> E -> L -> bool * L;
  lru_Remove : K -> L -> bool * L;
  lru_Len : L -> Z;
  lru_Keys : L -> list K;
  lru_Purge : L -> L
}.

(** The entry of a key in a list of entries. *)
Definition find {K E} `{EqDecision K} (k : K) (l : list (K * E)) : option E :=
  snd <$> (list_find (fun p => p.1 = k) l ≫= fun x => Some x.2).
Definition without {K E} `{EqDecision K} (k : K) (l : list (K * E)) : list (K * E) := filter (fun p => p.1 <> k) l.

(** What the documentation promises: the entries, most recently used first;
    [Get] and [Add] make an entry the most recent; [Add] of a new key to a full
    list evicts the least recent entry; [Keys] lists the oldest first.  A size
    of zero is no bound. *)
Class LRULaws (L K E : Type) `{EqDecision K} `{LRU L K E} := {
  lru_items : L -> list (K * E);
  lru_size : L -> Z;
  lru_items_new size : 0 <= size -> lru_items (lru_NewLRU size) = [] /\ lru_size (lru_NewLRU size) = size;
  lru_items_nodup l : NoDup (lru_items l).*1;
  lru_items_bound l : lru_size l <= 0 \/ Z.of_nat (length (lru_items l)) <= lru_size l;
  lru_Peek_spec k l : lru_Peek k l = find k (lru_items l);
  lru_Get_spec k l :
    (lru_Get k l).1 = find k (lru_items l) /\ lru_size (lru_Get k l).2 = lru_size l /\
    lru_items (lru_Get k l).2 =
      match find k (lru_items l) with Some e => (k, e) :: without k (lru_items l) | None => lru_items l end;
  lru_Add_spec k e l :
    let l' := (k, e) :: without k (lru_items l) in
    let full := (0 <? lru_size l) && (lru_size l <? Z.of_nat (length l')) in
    (lru_Add k e l).1 = full /\ lru_size (lru_Add k e l).2 = lru_size l /\
    lru_items (lru_Add k e l).2 = if full then take (Z.to_nat (lru_size l)) l' else l';
  lru_Remove_spec k l :
    (lru_Remove k l).1 = bool_decide (k ∈ (lru_items l).*1) /\ lru_size (lru_Remove k l).2 = lru_size l /\
    lru_items (lru_Remove k l).2 = without k (lru_items l);
  lru_Len_spec l : lru_Len l = Z.of_nat (length (lru_items l));
  lru_Keys_spec l : lru_Keys l = reverse (lru_items l).*1;
  lru_Purge_spec l : lru_items (lru_Purge l) = [] /\ lru_size (lru_Purge l) = lru_size l
}.

(** ** The cache *)

Record expiringEntry (V : Type) := mkEntry { value : V; expiresAt : Go.time }.
Arguments mkEntry {V} _ _.
Arguments value {V} _.
Arguments expiresAt {V} _.

Section cache.
Context {L K V : Type} `{EqDecision K} `{EqDecision V} `{LRU L K (expiringEntry V)}.

Record ExpirableCache := mkCache {
  cache : L;
  ttl : Go.duration;
  size : Z;
  nextSweep : Go.time;
  earliest : Go.time
}.

Definition set_cache (l : L) (c : ExpirableCache) : ExpirableCache :=
  mkCache l (ttl c) (size c) (nextSweep c) (earliest c).

Definition NewExpirableCache (size : Z) (ttl : Go.duration) : ExpirableCache :=
  mkCache (lru_NewLRU size) ttl size Go.zero_time Go.zero_time.

Definition expired (now : Go.time) (e : expiringEntry V) : bool :=
  negb (Go.is_zero (expiresAt e)) && negb (Go.before now (expiresAt e)).

Definition entry (now : Go.time) (key : K) (touch : bool) (c : ExpirableCache) : option V * ExpirableCache :=
  match lru_Peek key (cache c) with
  | None => (None, c)
  | Some e =>
      if expired now e then (None, c)
      else (Some (value e), if touch then set_cache (lru_Get key (cache c)).2 c else c)
  end.

Definition wouldEvict (key : K) (c : ExpirableCache) : bool :=
  if (size c <=? 0) || (lru_Len (cache c) <? size c) then false
  else match lru_Peek key (cache c) with Some _ => false | None => true end.

Fixpoint sweep_loop (now : Go.time) (keys : list K) (l : L) (earliest : Go.time) : L * Go.time :=
  match keys with
  | [] => (l, earliest)
  | k :: keys =>
      match lru_Peek k l with
      | None => sweep_loop now keys l earliest
      | Some e =>
          if negb (Go.before now (expiresAt e)) then sweep_loop now keys (lru_Remove k l).2 earliest
          else
            sweep_loop now keys l
              (if Go.is_zero earliest || Go.before (expiresAt e) earliest then expiresAt e else earliest)
      end
  end.

Definition sweep (now : Go.time) (c : ExpirableCache) : ExpirableCache :=
  let '(l, e) := sweep_loop now (lru_Keys (cache c)) (cache c) Go.zero_time in
  mkCache l (ttl c) (size c) (nextSweep c) e.

Definition store (now : Go.time) (key : K) (v : V) (c : ExpirableCache) : bool * ExpirableCache :=
  if 0 <? ttl c then
    let c :=
      if negb (Go.before now (earliest c)) && (negb (Go.before now (nextSweep c)) || wouldEvict key c) then
        let c := sweep now c in mkCache (cache c) (ttl c) (size c) (now + ttl c) (earliest c)
      else c in
    let e := mkEntry v (now + ttl c) in
    let c :=
      if Go.is_zero (earliest c) || Go.before (expiresAt e) (earliest c)
      then mkCache (cache c) (ttl c) (size c) (nextSweep c) (expiresAt e) else c in
    let '(ev, l) := lru_Add key e (cache c) in (ev, set_cache l c)
  else
    let '(ev, l) := lru_Add key (mkEntry v Go.zero_time) (cache c) in (ev, set_cache l c).

Definition Get (now : Go.time) (key : K) (c : ExpirableCache) : option V * ExpirableCache := entry now key true c.

Definition Put (now : Go.time) (key : K) (v : V) (c : ExpirableCache) : bool * ExpirableCache := store now key v c.

(** The two readings of the clock, by [entry] and by [store]. *)
Definition PutIfAbsent (now now' : Go.time) (key : K) (v : V) (c : ExpirableCache) : (V * bool) * ExpirableCache :=
  match entry now key true c with
  | (Some v', c) => ((v', true), c)
  | (None, c) => ((v, false), (store now' key v c).2)
  end.

Definition CompareAndSwap (now now' : Go.time) (key : K) (old newValue : V) (c : ExpirableCache) : bool * ExpirableCache :=
  match entry now key false c with
  | (Some current, c) =>
      if bool_decide (current = old) then (true, (store now' key newValue c).2) else (false, c)
  | (None, c) => (false, c)
  end.

Definition Remove (key : K) (c : ExpirableCache) : bool * ExpirableCache :=
  let '(ok, l) := lru_Remove key (cache c) in (ok, set_cache l c).

Definition Has (now : Go.time) (key : K) (c : ExpirableCache) : bool :=
  match (entry now key false c).1 with Some _ => true | None => false end.

Definition Len (c : ExpirableCache) : Z := lru_Len (cache c).

Definition Purge (c : ExpirableCache) : ExpirableCache := set_cache (lru_Purge (cache c)) c.

(** [All], with the reading of the clock for each key. *)
Definition All (now : K -> Go.time) (c : ExpirableCache) : list (K * V) :=
  omap (fun k => (fun v => (k, v)) <$> (entry (now k) k false c).1) (lru_Keys (cache c)).

End cache.

Arguments ExpirableCache : clear implicits.

End LruCache.
