(* ===== verification/LruTheorems.v ===== *)
(** * The expiring cache refines an ideal one: data/cache/lru

    The ideal cache drops an entry at the instant it expires and is otherwise a
    plain LRU list.  [cache_refines_ideal] shows that [ExpirableCache], which
    frees expired entries only on some writes, cannot be told apart from it. *)

From S2P Require Import Prelude LruCache.
Import LruCache.

Module LruTheorems.

(** ** The ideal cache *)
Section ideal.
Context {K V : Type} `{EqDecision K} `{EqDecision V}.
Implicit Types l : list (K * expiringEntry V).

Definition live (now : Go.time) (p : K * expiringEntry V) : Prop := expired now p.2 = false.
#[export] Instance live_dec now p : Decision (live now p) := decide (expired now p.2 = false).

Definition fresh (ttl : Go.duration) (now : Go.time) (v : V) : expiringEntry V :=
  mkEntry v (if 0 <? ttl then now + ttl else Go.zero_time).

Definition push (size : Z) (k : K) (e : expiringEntry V) l : bool * list (K * expiringEntry V) :=
  let l' := (k, e) :: without k l in
  let full := (0 <? size) && (size <? Z.of_nat (length l')) in
  (full, if full then take (Z.to_nat size) l' else l').

Definition ideal_get (now : Go.time) (k : K) l : option V * list (K * expiringEntry V) :=
  let l := filter (live now) l in
  match find k l with Some e => (Some (value e), (k, e) :: without k l) | None => (None, l) end.

Definition ideal_peek (now : Go.time) (k : K) l : option V := value <$> find k (filter (live now) l).

Definition ideal_put (size : Z) (ttl : Go.duration) (now : Go.time) (k : K) (v : V) l :
    bool * list (K * expiringEntry V) :=
  push size k (fresh ttl now v) (filter (live now) l).

(** ** Operations and their results *)
Inductive op :=
| OGet (now : Go.time) (k : K)
| OPut (now : Go.time) (k : K) (v : V)
| OPutIfAbsent (now now' : Go.time) (k : K) (v : V)
| OCompareAndSwap (now now' : Go.time) (k : K) (old newValue : V)
| ORemove (k : K)
| OHas (now : Go.time) (k : K)
| OPurge.

Inductive result :=
| RGet (v : option V) | RPut (evicted : bool) | RPutIfAbsent (v : V) (loaded : bool)
| RCompareAndSwap (b : bool) | RRemove (present : bool) | RHas (b : bool) | RPurge.

Definition readings (o : op) : list Go.time :=
  match o with
  | OGet now _ | OPut now _ _ | OHas now _ => [now]
  | OPutIfAbsent now now' _ _ | OCompareAndSwap now now' _ _ _ => [now; now']
  | ORemove _ | OPurge => []
  end.

Definition ideal_step (size : Z) (ttl : Go.duration) (o : op) l : result * list (K * expiringEntry V) :=
  match o with
  | OGet now k => let '(r, l) := ideal_get now k l in (RGet r, l)
  | OPut now k v => let '(r, l) := ideal_put size ttl now k v l in (RPut r, l)
  | OPutIfAbsent now now' k v =>
      match ideal_get now k l with
      | (Some v', l) => (RPutIfAbsent v' true, l)
      | (None, l) => (RPutIfAbsent v false, (ideal_put size ttl now' k v l).2)
      end
  | OCompareAndSwap now now' k old newValue =>
      if bool_decide (ideal_peek now k l = Some old)
      then (RCompareAndSwap true, (ideal_put size ttl now' k newValue l).2)
      else (RCompareAndSwap false, l)
  | ORemove k => (RRemove (bool_decide (k ∈ l.*1)), without k l)
  | OHas now k => (RHas (bool_decide (is_Some (ideal_peek now k l))), l)
  | OPurge => (RPurge, [])
  end.

(** [Remove] may also report an expired entry that no write has freed yet. *)
Definition agree (r i : result) : Prop :=
  match r, i with
  | RRemove b, RRemove b' => b' = true -> b = true
  | r, i => r = i
  end.

End ideal.
Arguments op : clear implicits.
Arguments result : clear implicits.

(** ** Lists of entries *)
Section entries.
Context {K E : Type} `{EqDecision K}.
Implicit Types l : list (K * E).

Lemma find_Some k e l : NoDup l.*1 -> find k l = Some e <-> (k, e) ∈ l.
Proof.
  induction l as [|[k' e'] l IH]; cbn; intros Hn; [by split; [|intros ?%elem_of_nil]|].
  apply NoDup_cons in Hn as [Hk Hn]. unfold find. cbn. case_decide; cbn.
  - subst. rewrite elem_of_cons. split; [intros [= ->]; auto|].
    intros [[= ->]|Hi]; [done|]. destruct Hk. by apply (list_elem_of_fmap_2 fst _ (k, e)).
  - rewrite elem_of_cons, <-(IH Hn). unfold find.
    destruct (list_find _ l) as [[? ?]|]; cbn; split; intros; destruct_or?; simplify_eq; auto.
Qed.

Lemma find_None k l : find k l = None <-> k ∉ l.*1.
Proof.
  induction l as [|[k' e'] l IH]; cbn; [split; [intros _ ?%elem_of_nil; done|done]|].
  unfold find in *. cbn. case_decide; cbn.
  - subst. split; [done|]. intros []. by constructor.
  - rewrite not_elem_of_cons, <-IH. destruct (list_find _ l) as [[? ?]|]; cbn; split; intros; destruct_and?; split_and?; congruence || done.
Qed.

Lemma without_notin k l : k ∉ l.*1 -> without k l = l.
Proof.
  intros Hk. apply filter_full. apply list.Forall_forall. intros p Hp <-.
  apply Hk. by apply list_elem_of_fmap_2.
Qed.

Lemma filter_without (P : K * E -> Prop) `{forall x, Decision (P x)} k l :
  filter P (without k l) = without k (filter P l).
Proof. unfold without. rewrite !list_filter_filter. apply list_filter_iff. tauto. Qed.

Lemma NoDup_filter_fst (P : K * E -> Prop) `{forall x, Decision (P x)} l : NoDup l.*1 -> NoDup (filter P l).*1.
Proof. 
  induction l as [|x l IH]; [done|]. rewrite fmap_cons, NoDup_cons. intros [Hx Hn]. rewrite filter_cons.
  case_decide; [|auto]. rewrite fmap_cons, NoDup_cons. split; [|auto].
  intros (y & Hxy & [_ Hy]%list_elem_of_filter)%list_elem_of_fmap. apply Hx. rewrite Hxy. by apply list_elem_of_fmap_2.
 Qed.

Lemma length_without_in k l : k ∈ l.*1 -> (length (without k l) < length l)%nat.
Proof.
  intros (p & -> & Hp)%list_elem_of_fmap. apply length_filter_lt with p; [done|]. naive_solver.
Qed.

Lemma find_filter (P : K * E -> Prop) `{forall x, Decision (P x)} k l :
  NoDup l.*1 -> find k (filter P l) = find k l ≫= fun e => if decide (P (k, e)) then Some e else None.
Proof.
  intros Hn. pose proof (NoDup_filter_fst P l Hn) as Hn'. destruct (find k l) as [e|] eqn:Hf; cbn.
  - apply find_Some in Hf; [|done]. case_decide as HP.
    + apply find_Some; [done|]. by apply list_elem_of_filter.
    + apply find_None. intros ([k' e'] & -> & [HP' Hin]%list_elem_of_filter)%list_elem_of_fmap.
      apply (find_Some _ _ _ Hn) in Hin, Hf. cbn in *. congruence.
  - apply find_None in Hf. apply find_None. intros (p & -> & [_ Hin]%list_elem_of_filter)%list_elem_of_fmap.
    apply Hf. by apply list_elem_of_fmap_2.
Qed.

End entries.

(** ** The simulation *)
Section simulation.
Context {L K V : Type} `{EqDecision K} `{EqDecision V} `{LRU L K (expiringEntry V)} `{!LRULaws L K (expiringEntry V)}.
Implicit Types (c : ExpirableCache L) (l : L) (i : list (K * expiringEntry V)).

Definition step (o : op K V) c : result V * ExpirableCache L :=
  match o with
  | OGet now k => let '(r, c) := Get now k c in (RGet r, c)
  | OPut now k v => let '(r, c) := Put now k v c in (RPut r, c)
  | OPutIfAbsent now now' k v => let '((v, b), c) := PutIfAbsent now now' k v c in (RPutIfAbsent v b, c)
  | OCompareAndSwap now now' k old newValue =>
      let '(b, c) := CompareAndSwap now now' k old newValue c in (RCompareAndSwap b, c)
  | ORemove k => let '(b, c) := Remove k c in (RRemove b, c)
  | OHas now k => (RHas (Has now k c), c)
  | OPurge => (RPurge, Purge c)
  end.

Definition items c : list (K * expiringEntry V) := lru_items (cache c).

(** The bound [earliest] and the expiry instants. *)
Definition inv c : Prop :=
  0 <= size c /\ lru_size (cache c) = size c /\
  (0 < ttl c -> 0 <= earliest c /\ (earliest c = 0 -> items c = []) /\
    forall p, p ∈ items c -> 0 < expiresAt p.2 /\ earliest c <= expiresAt p.2) /\
  (ttl c <= 0 -> forall p, p ∈ items c -> expiresAt p.2 = 0).

(** The cache and the ideal one agree on what is live from [t] on. *)
Definition R (t : Go.time) c i : Prop :=
  inv c /\ filter (live t) (items c) = filter (live t) i /\ i ⊆ items c.

Lemma live_later t t' (p : K * expiringEntry V) : t <= t' -> live t' p -> live t p.
Proof. unfold live, expired, Go.before, Go.is_zero. intros. destruct (expiresAt p.2 =? 0); cbn in *; lia. Qed.

Lemma filter_later t t' i : t <= t' -> filter (live t') (filter (live t) i) = filter (live t') i.
Proof. intros. rewrite list_filter_filter. apply list_filter_iff. intros p. pose proof (live_later t t' p). tauto. Qed.

Lemma R_later t t' c i : t <= t' -> R t c i -> R t' c i.
Proof.
  intros Ht (Hi & Hf & Hs). split; [done|]. split; [|done].
  by rewrite <-(filter_later t t' (items c)), Hf, filter_later.
Qed.

Lemma sweep_loop_items now ks l e :
  lru_size (sweep_loop now ks l e).1 = lru_size l /\
  lru_items (sweep_loop now ks l e).1 = filter (fun p => ~ (p.1 ∈ ks /\ expiresAt p.2 <= now)) (lru_items l).
Proof.
  revert l e. induction ks as [|k ks IH]; intros l e; cbn.
  - split; [done|]. symmetry. apply filter_full, list.Forall_forall. intros p _ [?%elem_of_nil _]. done.
  - rewrite lru_Peek_spec. pose proof (lru_items_nodup l) as Hn.
    destruct (find k (lru_items l)) as [x|] eqn:Hf; unfold Go.before.
    + apply find_Some in Hf; [|done].
      assert (Hx : forall p, p ∈ lru_items l -> p.1 = k -> p.2 = x).
      { intros [k' x'] Hp Hk. cbn in *. subst. apply find_Some in Hp, Hf; [|done..]. congruence. }
      destruct (now <? expiresAt x) eqn:Hl; cbn.
      * destruct (IH l (if Go.is_zero e || (expiresAt x <? e) then expiresAt x else e)) as [-> ->]. split; [done|].
        apply filter_ext_in. intros p Hp. rewrite elem_of_cons. pose proof (Hx p Hp). naive_solver lia.
      * destruct (lru_Remove_spec k l) as (_ & Hz & Hr). destruct (IH (lru_Remove k l).2 e) as [-> ->].
        split; [done|]. rewrite Hr. unfold without. rewrite list_filter_filter.
        apply filter_ext_in. intros p Hp. rewrite elem_of_cons. pose proof (Hx p Hp).
        destruct (decide (p.1 = k)); naive_solver lia.
    + apply find_None in Hf. destruct (IH l e) as [-> ->]. split; [done|].
      apply filter_ext_in. intros p Hp. rewrite elem_of_cons.
      assert (p.1 <> k) by (intros <-; apply Hf; by apply list_elem_of_fmap_2). tauto.
Qed.

Lemma sweep_loop_earliest now ks l e :
  0 <= e -> (forall p, p ∈ lru_items l -> 0 < expiresAt p.2) ->
  let e' := (sweep_loop now ks l e).2 in
  0 <= e' /\ (0 < e -> 0 < e' <= e) /\
  forall p, p ∈ lru_items l -> p.1 ∈ ks -> now < expiresAt p.2 -> 0 < e' <= expiresAt p.2.
Proof.
  revert l e. induction ks as [|k ks IH]; intros l e He Hp; cbn.
  - split_and!; [done|lia|]. auto with go.
  - rewrite lru_Peek_spec. pose proof (lru_items_nodup l) as Hn.
    destruct (find k (lru_items l)) as [x|] eqn:Hf; unfold Go.before, Go.is_zero.
    + apply find_Some in Hf; [|done]. pose proof (Hp _ Hf) as Hx0. cbn in Hx0.
      assert (Hx : forall p, p ∈ lru_items l -> p.1 = k -> p.2 = x).
      { intros [k' x'] Hq Hk. cbn in *. subst. apply find_Some in Hq, Hf; [|done..]. congruence. }
      destruct (now <? expiresAt x) eqn:Hl; cbn.
      * set (e1 := if _ : bool then expiresAt x else e).
        assert (He1 : 0 < e1 <= expiresAt x /\ (0 < e -> e1 <= e)).
        { subst e1. destruct (e =? 0) eqn:?, (expiresAt x <? e) eqn:?; cbn; lia. }
        destruct (IH l e1 ltac:(lia) Hp) as (H1' & H2' & H3'). split_and!; [lia..|].
        intros p Hq [Hk|Hk]%elem_of_cons Hnow; [|by apply H3']. rewrite (Hx p Hq Hk). lia.
      * destruct (lru_Remove_spec k l) as (_ & _ & Hr). destruct (IH (lru_Remove k l).2 e He) as (H1' & H2' & H3').
        { intros p. rewrite Hr. intros [_ ?]%list_elem_of_filter. auto. }
        split_and!; [lia..|]. intros p Hq Hk Hnow. assert (p.1 <> k) by (intros E; rewrite (Hx p Hq E) in Hnow; lia).
        apply H3'; [|set_solver|done]. rewrite Hr. by apply list_elem_of_filter.
    + apply find_None in Hf. destruct (IH l e He Hp) as (H1' & H2' & H3'). split_and!; [lia..|].
      intros p Hq [Hk|Hk]%elem_of_cons Hnow; [|by apply H3'].
      destruct Hf. rewrite <-Hk. by apply list_elem_of_fmap_2.
Qed.

Lemma live_pos now (p : K * expiringEntry V) : 0 < expiresAt p.2 -> live now p <-> now < expiresAt p.2.
Proof. unfold live, expired, Go.before, Go.is_zero. intros. destruct (expiresAt p.2 =? 0) eqn:?; cbn; lia. Qed.

Lemma live_never now (p : K * expiringEntry V) : expiresAt p.2 = 0 -> live now p.
Proof. unfold live, expired, Go.is_zero. by intros ->. Qed.

(** A sweep leaves exactly the live entries, with [earliest] below them. *)
Lemma sweep_exact now c :
  0 < ttl c -> inv c ->
  inv (sweep now c) /\ items (sweep now c) = filter (live now) (items c) /\
  ttl (sweep now c) = ttl c /\ size (sweep now c) = size c.
Proof.
  intros Ht (Hs & Hz & Hi & _). destruct (Hi Ht) as (He & He0 & Hp). unfold sweep, inv, items in *.
  pose proof (sweep_loop_items now (lru_Keys (cache c)) (cache c) Go.zero_time) as [Hsz Hit].
  destruct (sweep_loop_earliest now (lru_Keys (cache c)) (cache c) Go.zero_time) as (E1 & _ & E3);
    [done|intros p ?; by apply Hp|].
  destruct (sweep_loop _ _ _ _) as [l e]. cbn in *.
  assert (Hall : forall p, p ∈ lru_items (cache c) -> p.1 ∈ lru_Keys (cache c)).
  { intros p ?. rewrite lru_Keys_spec. apply elem_of_reverse. by apply list_elem_of_fmap_2. }
  assert (Hf : lru_items l = filter (live now) (lru_items (cache c))).
  { rewrite Hit. apply filter_ext_in. intros p Hq. rewrite live_pos by by apply Hp. pose proof (Hall p Hq). split; [|lia].
    intros Hne. destruct (decide (expiresAt p.2 <= now)); [tauto|lia]. }
  assert (Hin : forall p, p ∈ lru_items l -> 0 < e <= expiresAt p.2).
  { intros p. rewrite Hf. intros [Hl Hq]%list_elem_of_filter. apply E3; auto. apply live_pos; [by apply Hp|done]. }
  split_and!; [lia|congruence| |lia|done..]. intros _. split_and!; [done| |].
  - intros ->. destruct (lru_items l) as [|p ?]; [done|]. specialize (Hin p ltac:(by left)). lia.
  - intros p Hq. specialize (Hin p Hq). lia.
Qed.

(** Pushing onto a list whose expired entries do not count as a reason to evict. *)
Lemma push_live (sz : Z) now k (e : expiringEntry V) i :
  live now (k, e) -> ((push sz k e i).1 = true -> filter (live now) i = i) ->
  let F := filter (live now) i in
  (push sz k e i).1 = (push sz k e F).1 /\
  filter (live now) (push sz k e i).2 = filter (live now) (push sz k e F).2 /\ (push sz k e F).2 ⊆ (push sz k e i).2.
Proof.
  intros He Hfull F. destruct ((push sz k e i).1) eqn:Hi.
  - subst F. by rewrite (Hfull eq_refl), Hi.
  - assert (HF : without k F = filter (live now) (without k i)) by (subst F; by rewrite filter_without).
    assert (Hlen : (length (without k F) <= length (without k i))%nat) by (rewrite HF; apply length_filter).
    assert (Hi' : (push sz k e F).1 = false).
    { revert Hi. unfold push. cbn [fst length]. intros [Hz|Hz]%andb_false_iff; apply andb_false_iff; [auto|right].
      apply Z.ltb_ge in Hz. apply Z.ltb_ge. clear -Hz Hlen. clearbody F. lia. }
    rewrite Hi'. split; [done|]. revert Hi Hi'. unfold push. cbn [fst snd]. intros -> ->.
    rewrite !filter_cons, !decide_True, HF, (filter_later now now) by (done || lia).
    split; [done|]. apply list_subseteq_skip, list_subseteq_filter.
Qed.

Lemma fresh_live (d : Go.duration) now (k : K) (v : V) : 0 < now -> live now (k, fresh d now v).
Proof.
  intros. unfold fresh. destruct (0 <? d) eqn:?; [|by apply live_never].
  apply live_pos; cbn; lia.
Qed.

(** [Add] on the library's list is [push]. *)
Lemma add_push k (e : expiringEntry V) l :
  ((lru_Add k e l).1, lru_items (lru_Add k e l).2) = push (lru_size l) k e (lru_items l).
Proof. destruct (lru_Add_spec k e l) as (-> & _ & ->). done. Qed.

Lemma push_in (sz : Z) k (e : expiringEntry V) i p : p ∈ (push sz k e i).2 -> p = (k, e) \/ p ∈ i.
Proof.
  unfold push. cbn [snd]. destruct (_ && _).
  - intros Hp%(subseteq_take _ _). apply elem_of_cons in Hp as [?|[_ ?]%list_elem_of_filter]; auto.
  - intros [?|[_ ?]%list_elem_of_filter]%elem_of_cons; auto.
Qed.

(** The library does not evict where [wouldEvict] says no. *)
Lemma wouldEvict_push k (e : expiringEntry V) c :
  inv c -> wouldEvict k c = false -> (push (size c) k e (items c)).1 = false.
Proof.
  intros (Hs & Hz & _) Hw. unfold wouldEvict, push, items in *. rewrite lru_Len_spec, lru_Peek_spec in Hw. cbn [fst length].
  destruct (lru_items_bound (cache c)) as [Hb|Hb]; rewrite Hz in Hb.
  { destruct (0 <? size c) eqn:?; [lia|done]. }
  pose proof (length_filter (fun p => p.1 <> k) (lru_items (cache c))) as Hl. fold (without k (lru_items (cache c))) in Hl.
  destruct (size c <=? 0) eqn:?; cbn in Hw; [destruct (0 <? size c) eqn:?; [lia|done]|].
  destruct (Z.ltb_spec (Z.of_nat (length (lru_items (cache c)))) (size c)); cbn in Hw.
  - destruct (Z.ltb_spec (size c) (Z.of_nat (S (length (without k (lru_items (cache c))))))); [lia|by destruct (0 <? _)].
  - destruct (find k (lru_items (cache c))) eqn:Hf; [|done].
    assert (k ∈ (lru_items (cache c)).*1) as Hk%length_without_in.
    { destruct (decide (k ∈ (lru_items (cache c)).*1)) as [|Hn%find_None]; [done|congruence]. }
    destruct (Z.ltb_spec (size c) (Z.of_nat (S (length (without k (lru_items (cache c))))))); [lia|by destruct (0 <? _)].
Qed.

(** Before [Add], the expired entries have been freed if the list would evict. *)
Definition swept now k c : ExpirableCache L :=
  if negb (Go.before now (earliest c)) && (negb (Go.before now (nextSweep c)) || wouldEvict k c)
  then mkCache (cache (sweep now c)) (ttl (sweep now c)) (size (sweep now c)) (now + ttl (sweep now c)) (earliest (sweep now c))
  else c.

Lemma swept_exact now k c (e : expiringEntry V) :
  0 < ttl c -> inv c ->
  inv (swept now k c) /\ ttl (swept now k c) = ttl c /\ size (swept now k c) = size c /\
  filter (live now) (items (swept now k c)) = filter (live now) (items c) /\
  ((push (size c) k e (items (swept now k c))).1 = true -> filter (live now) (items (swept now k c)) = items (swept now k c)).
Proof.
  intros Ht Hi. unfold swept. destruct (_ && _) eqn:Hc.
  - destruct (sweep_exact now c Ht Hi) as (Hi' & Hf & Ht' & Hs'). unfold items in *. cbn.
    rewrite Hf, (filter_later now now) by lia. by split_and!.
  - split_and!; try done. intros Hpush. apply filter_full, list.Forall_forall. intros p Hp.
    pose proof Hi as (_ & _ & Hpos & _). destruct (Hpos Ht) as (_ & _ & Hb). destruct (Hb p Hp).
    apply live_pos; [lia|]. unfold Go.before in Hc. destruct (now <? earliest c) eqn:?; [lia|]. cbn in Hc.
    apply orb_false_iff in Hc as [_ Hw]. by rewrite (wouldEvict_push k e c Hi Hw) in Hpush.
Qed.

(** [Add] of an entry above [earliest]. *)
Lemma add_sim now k (e : expiringEntry V) c :
  inv c -> live now (k, e) ->
  (0 < ttl c -> 0 < earliest c <= expiresAt e) -> (ttl c <= 0 -> expiresAt e = 0) ->
  ((push (size c) k e (items c)).1 = true -> filter (live now) (items c) = items c) ->
  let r := lru_Add k e (cache c) in let r' := push (size c) k e (filter (live now) (items c)) in
  r.1 = r'.1 /\ R now (set_cache r.2 c) r'.2.
Proof.
  intros (I1 & I2 & I3 & I4) Hl He He0 Hev. destruct (push_live (size c) now k e (items c) Hl Hev) as (P1 & P2 & P3).
  pose proof (add_push k e (cache c)) as Hadd. destruct (lru_Add_spec k e (cache c)) as (_ & Hsz & _).
  rewrite I2 in Hadd. fold (items c) in Hadd. cbv zeta. unfold R, inv, items in *. cbn [set_cache cache ttl size earliest].
  destruct (lru_Add k e (cache c)) as [ev l']. cbn [fst snd] in *.
  rewrite <-P1, <-P2. rewrite <-Hadd in P3 |- *. cbn [fst snd] in P3 |- *. split; [done|]. split; [|done].
  assert (Hin : forall p, p ∈ lru_items l' -> p = (k, e) \/ p ∈ lru_items (cache c)).
  { intros p Hp. apply (push_in (size c)). by rewrite <-Hadd. }
  split; [done|]. split; [congruence|]. split.
  - intros Ht. destruct (I3 Ht) as (_ & _ & J3). specialize (He Ht). split; [lia|]. split; [lia|].
    intros p [->|Hp]%Hin; cbn; [lia|auto].
  - intros Ht p [->|Hp]%Hin; cbn; auto.
Qed.

Definition set_earliest (t : Go.time) c : ExpirableCache L := mkCache (cache c) (ttl c) (size c) (nextSweep c) t.

Definition lowered (x : Go.time) c : ExpirableCache L :=
  if Go.is_zero (earliest c) || Go.before x (earliest c) then set_earliest x c else c.

Lemma lowered_exact x c :
  0 < x -> 0 < ttl c -> inv c ->
  inv (lowered x c) /\ 0 < earliest (lowered x c) <= x /\
  items (lowered x c) = items c /\ size (lowered x c) = size c /\ ttl (lowered x c) = ttl c.
Proof.
  intros Hx Ht (I1 & I2 & I3 & I4). destruct (I3 Ht) as (J1 & J2 & J3).
  unfold lowered, Go.is_zero, Go.before. destruct (Z.eqb_spec (earliest c) 0) as [E|E]; cbn [orb].
  - unfold inv, items in *. cbn. split_and!; try done || lia. intros _. split_and!; [lia..|].
    rewrite (J2 E). auto with go.
  - destruct (Z.ltb_spec x (earliest c)); cbn [orb].
    + unfold inv, items in *. cbn. split_and!; try done || lia. intros _. split_and!; [lia..|].
      intros p Hp. specialize (J3 p Hp). lia.
    + split_and!; try done; lia.
Qed.

(** [store] is [ideal_put]. *)
Lemma store_sim t now k v c i :
  t <= now -> 0 < now -> R t c i ->
  let r := store now k v c in let r' := ideal_put (size c) (ttl c) now k v i in
  r.1 = r'.1 /\ R now r.2 r'.2 /\ ttl r.2 = ttl c /\ size r.2 = size c.
Proof.
  intros Ht Hnow HR. apply (R_later t now) in HR as (Hi & Hf & _); [|done].
  pose proof (fresh_live (ttl c) now k v Hnow) as Hfr.
  unfold ideal_put. cbv zeta. rewrite <-Hf. unfold fresh in *. destruct (Z.ltb_spec 0 (ttl c)) as [Hp|Hp].
  - set (e := mkEntry v (now + ttl c)) in *.
    destruct (swept_exact now k c e Hp Hi) as (Hi1 & Ht1 & Hs1 & Hf1 & Hev).
    destruct (lowered_exact (expiresAt e) (swept now k c)) as (Hi2 & Hb & Hf2 & Hs2 & Ht2); [cbn; lia|lia|done|].
    destruct (add_sim now k e (lowered (expiresAt e) (swept now k c))) as [A1 A2]; [done|done|done|lia|by rewrite Hs2, Hs1, Hf2|].
    rewrite Hs2, Hs1, Hf2, Hf1 in A1, A2.
    assert (Hst : store now k v c = ((lru_Add k e (cache (lowered (expiresAt e) (swept now k c)))).1,
       set_cache (lru_Add k e (cache (lowered (expiresAt e) (swept now k c)))).2 (lowered (expiresAt e) (swept now k c)))).
    { unfold store. rewrite (proj2 (Z.ltb_lt 0 (ttl c)) Hp). fold (swept now k c).
      unfold lowered, set_earliest. rewrite Ht1. fold e.
      match goal with |- (let '(_, _) := ?x in _) = _ => by destruct x end. }
    rewrite Hst. cbn [fst snd set_cache ttl size]. split_and!; [done|done|congruence..].
  - destruct (add_sim now k (mkEntry v Go.zero_time) c) as [A1 A2]; [done|done|lia|done| |].
    { intros _. apply filter_full, list.Forall_forall. intros p Hq. apply live_never. destruct Hi as (_ & _ & _ & I4). auto. }
    unfold store. rewrite (proj2 (Z.ltb_ge 0 (ttl c)) Hp).
    destruct (lru_Add k (mkEntry v Go.zero_time) (cache c)) as [ev l']. by split_and!.
Qed.

(** What a reader sees is what the ideal cache holds. *)
Lemma peek_sim t now k c i :
  t <= now -> R t c i ->
  find k (filter (live now) i) = lru_Peek k (cache c) ≫= fun e => if expired now e then None else Some e.
Proof.
  intros Ht HR. apply (R_later t now) in HR as (_ & Hf & _); [|done].
  rewrite <-Hf, lru_Peek_spec, find_filter by apply lru_items_nodup. unfold items.
  destruct (find k _) as [e|]; [|done]. cbn. unfold live. cbn. case_decide as Hd; destruct (expired now e); done.
Qed.

Lemma entry_peek t now k c i :
  t <= now -> R t c i -> entry now k false c = (ideal_peek now k i, c).
Proof.
  intros Ht HR. unfold ideal_peek, entry. rewrite (peek_sim t now k c i Ht HR).
  destruct (lru_Peek k (cache c)) as [e|]; [|done]. cbn. by destruct (expired now e).
Qed.

Lemma R_filter t now c i : t <= now -> R t c i -> R now c (filter (live now) i).
Proof.
  intros Ht HR. apply (R_later t now) in HR as (Hi & Hf & _); [|done]. split; [done|].
  rewrite filter_later by lia. split; [done|]. rewrite <-Hf. apply list_subseteq_filter.
Qed.

Lemma touch_sim now k (e : expiringEntry V) c i :
  R now c i -> live now (k, e) -> find k (items c) = Some e ->
  R now (set_cache (lru_Get k (cache c)).2 c) ((k, e) :: without k (filter (live now) i)).
Proof.
  intros ((I1 & I2 & I3 & I4) & Hf & _) Hl Hk. destruct (lru_Get_spec k (cache c)) as (_ & Hsz & Hit).
  unfold R, inv, items in *. cbn [set_cache cache ttl size earliest]. rewrite Hk in Hit. rewrite Hit, Hsz.
  apply find_Some in Hk; [|apply lru_items_nodup].
  assert (Hin : forall p, p ∈ (k, e) :: without k (lru_items (cache c)) -> p ∈ lru_items (cache c)).
  { intros p [->|[_ ?]%list_elem_of_filter]%elem_of_cons; done. }
  split; [split_and!; [done..| |]|split].
  - intros Ht. destruct (I3 Ht) as (J1 & J2 & J3). split_and!; [done| |auto]. intros E.
    rewrite (J2 E) in Hk. by apply elem_of_nil in Hk.
  - intros Ht p Hp. auto.
  - rewrite <-Hf, !filter_cons, !decide_True, filter_without, filter_without, (filter_later now now) by (done || lia). done.
  - rewrite <-Hf, <-filter_without. apply list_subseteq_skip, list_subseteq_filter.
Qed.

Lemma entry_get t now k c i :
  t <= now -> R t c i ->
  (entry now k true c).1 = (ideal_get now k i).1 /\ R now (entry now k true c).2 (ideal_get now k i).2 /\
  ttl (entry now k true c).2 = ttl c /\ size (entry now k true c).2 = size c.
Proof.
  intros Ht HR. unfold ideal_get, entry. rewrite (peek_sim t now k c i Ht HR).
  destruct (lru_Peek k (cache c)) as [e|] eqn:Hp; cbn; [|split_and!; [done|by eapply R_filter|done..]].
  destruct (expired now e) eqn:He; cbn; [split_and!; [done|by eapply R_filter|done..]|].
  split_and!; try done. apply touch_sim; [by eapply R_later|done|]. by rewrite <-Hp, lru_Peek_spec.
Qed.

(** ** Runs *)
Fixpoint increasing (t : Go.time) (rs : list Go.time) : bool :=
  match rs with [] => true | r :: rs => (t <=? r) && increasing r rs end.

Definition after (t : Go.time) (o : op K V) : Go.time := default t (last (readings o)).

Lemma increasing_app t o rs :
  increasing t (readings o ++ rs) = increasing t (readings o) && increasing (after t o) rs.
Proof. destruct o; cbn; rewrite ?andb_true_r, ?andb_assoc; done. Qed.

Lemma remove_sim t k c i :
  R t c i ->
  (k ∈ i.*1 -> (Remove k c).1 = true) /\ R t (Remove k c).2 (without k i) /\
  ttl (Remove k c).2 = ttl c /\ size (Remove k c).2 = size c.
Proof.
  intros ((I1 & I2 & I3 & I4) & Hf & Hs). destruct (lru_Remove_spec k (cache c)) as (Hb & Hsz & Hit).
  unfold Remove, R, inv, items in *. destruct (lru_Remove k (cache c)) as [b l']. cbn in *.
  rewrite Hit, Hsz. split; [|split; [|done]].
  - intros (p & -> & Hp)%list_elem_of_fmap. rewrite Hb. apply bool_decide_eq_true_2.
    apply list_elem_of_fmap_2. by apply Hs.
  - split; [split_and!; [done..| |]|split].
    + intros Ht. destruct (I3 Ht) as (J1 & J2 & J3). split_and!; [done| |].
      * intros E. by rewrite (J2 E).
      * intros p [_ Hp]%list_elem_of_filter. auto.
    + intros Ht p [_ Hp]%list_elem_of_filter. auto.
    + by rewrite !filter_without, Hf.
    + intros p [? Hp]%list_elem_of_filter. apply list_elem_of_filter. auto.
Qed.

Lemma purge_sim t c i : R t c i -> R t (Purge c) [].
Proof.
  intros ((I1 & I2 & I3 & I4) & _ & _). destruct (lru_Purge_spec (cache c)) as (Hit & Hsz).
  unfold Purge, R, inv, items in *. cbn. rewrite Hit, Hsz. split; [split_and!; [done..| |]|done].
  - intros Ht. destruct (I3 Ht) as (J1 & _ & _). split_and!; [done..|]. auto with go.
  - auto with go.
Qed.

Lemma step_sim t o c i :
  0 < t -> increasing t (readings o) = true -> R t c i ->
  let r := step o c in let r' := ideal_step (size c) (ttl c) o i in
  agree r.1 r'.1 /\ R (after t o) r.2 r'.2 /\ ttl r.2 = ttl c /\ size r.2 = size c.
Proof.
  intros Ht Hr HR. destruct o as [now k|now k v|now now' k v|now now' k old nv|k|now k|];
    cbn [step ideal_step readings increasing after last default] in *; unfold after; cbn [readings last default id].
  - destruct (entry_get t now k c i) as (E1 & E2 & E3 & E4); [lia|done|]. unfold Get.
    destruct (entry now k true c), (ideal_get now k i). cbn in *. subst. by split_and!.
  - destruct (store_sim t now k v c i) as (E1 & E2 & E3 & E4); [lia|lia|done|]. unfold Put.
    destruct (store now k v c), (ideal_put _ _ _ _ _ _). cbn in *. subst. by split_and!.
  - destruct (entry_get t now k c i) as (E1 & E2 & E3 & E4); [lia|done|]. unfold PutIfAbsent.
    destruct (entry now k true c) as [[v'|] c'], (ideal_get now k i) as [? i']; cbn in *; subst.
    + split_and!; try done. eapply R_later; [|done]. lia.
    + destruct (store_sim now now' k v c' i') as (F1 & F2 & F3 & F4); [lia|lia|done|]. rewrite E3, E4 in F2.
      split_and!; [done|done|congruence..].
  - unfold CompareAndSwap. rewrite (entry_peek t now k c i) by (lia || done).
    destruct (ideal_peek now k i) as [cur|]; [|cbn; split_and!; try done; eapply R_later; [|done]; lia].
    destruct (bool_decide_reflect (cur = old)) as [->|Hne].
    + rewrite bool_decide_eq_true_2 by done.
      destruct (store_sim t now' k nv c i) as (F1 & F2 & F3 & F4); [lia|lia|done|]. by split_and!.
    + rewrite bool_decide_eq_false_2 by congruence. cbn. split_and!; try done; eapply R_later; [|done]; lia.
  - destruct (remove_sim t k c i HR) as (E1 & E2 & E3 & E4). destruct (Remove k c). cbn in *. split_and!; try done.
    intros Hk%bool_decide_eq_true_1. auto.
  - unfold Has. rewrite (entry_peek t now k c i) by (lia || done). cbn. split_and!; try done.
    + f_equal. by destruct (ideal_peek now k i).
    + eapply R_later; [|done]; lia.
  - split_and!; try done. by eapply purge_sim.
Qed.

(** The results of a sequence of operations. *)
Fixpoint run (ops : list (op K V)) c : list (result V) :=
  match ops with [] => [] | o :: ops => (step o c).1 :: run ops (step o c).2 end.

Fixpoint ideal_run (sz : Z) (d : Go.duration) (ops : list (op K V)) i : list (result V) :=
  match ops with [] => [] | o :: ops => (ideal_step sz d o i).1 :: ideal_run sz d ops (ideal_step sz d o i).2 end.

Lemma run_sim ops t c i :
  0 < t -> increasing t (concat (readings <$> ops)) = true -> R t c i ->
  Forall2 agree (run ops c) (ideal_run (size c) (ttl c) ops i).
Proof.
  revert t c i. induction ops as [|o ops IH]; intros t c i Ht Hr HR; cbn; [done|].
  cbn in Hr. rewrite increasing_app in Hr. apply andb_true_iff in Hr as [Hr1 Hr2].
  destruct (step_sim t o c i Ht Hr1 HR) as (E1 & E2 & E3 & E4). constructor; [done|].
  assert (Ht' : 0 < after t o) by (clear -Ht Hr1; destruct o; cbn in *; lia).
  specialize (IH (after t o) _ _ Ht' Hr2 E2). by rewrite E3, E4 in IH.
Qed.

Lemma R_new sz d : 0 <= sz -> R 1 (NewExpirableCache sz d) [].
Proof.
  intros Hs. destruct (lru_items_new sz Hs) as [Hit Hsz]. unfold R, inv, items. cbn. rewrite Hit, Hsz.
  split; [split_and!; [done..| |]|done].
  - intros _. split_and!; [done..|]. auto with go.
  - auto with go.
Qed.

(** [All] lists exactly the live entries. *)
Lemma all_exact t (now : K -> Go.time) c i k v :
  (forall k, t <= now k) -> R t c i -> (k, v) ∈ All now c <-> ideal_peek (now k) k i = Some v.
Proof.
  intros Hn HR. unfold All. rewrite list_elem_of_omap. split.
  - intros (k' & _ & Hk). rewrite (entry_peek t _ _ c i) in Hk by done. cbn in Hk.
    destruct (ideal_peek (now k') k' i) eqn:E; cbn in Hk; congruence.
  - intros Hk. exists k. rewrite (entry_peek t _ _ c i) by done. cbn. rewrite Hk. split; [|done].
    rewrite lru_Keys_spec. apply elem_of_reverse.
    destruct (decide (k ∈ (lru_items (cache c)).*1)) as [|Hno]; [done|]. apply find_None in Hno.
    revert Hk. unfold ideal_peek. rewrite (peek_sim t (now k) k c i (Hn k) HR), lru_Peek_spec, Hno. done.
Qed.



End simulation.

(** ** A library that meets the laws *)
Section list_lru.
Context (K E : Type) `{EqDecision K}.

Definition bounded (sz : Z) (l : list (K * E)) : bool :=
  bool_decide (NoDup l.*1) && ((sz <=? 0) || (Z.of_nat (length l) <=? sz)).

Record ListLRU := mkList { list_size : Z; list_items : list (K * E); list_ok : bounded list_size list_items = true }.

Lemma bounded_nil sz : bounded sz [] = true.
Proof. unfold bounded. cbn. destruct (Z.leb_spec sz 0); cbn; [done|]. apply Z.leb_le. lia. Qed.

Lemma bounded_without sz k l : bounded sz l = true -> bounded sz (without k l) = true.
Proof.
  unfold bounded. intros [Hn%bool_decide_eq_true_1 Hb]%andb_true_iff. apply andb_true_iff. split.
  - by apply bool_decide_eq_true_2, NoDup_filter_fst.
  - apply orb_true_iff in Hb as [->|Hb%Z.leb_le]; [done|]. apply orb_true_iff. right. apply Z.leb_le.
    unfold without. pose proof (length_filter (fun p => p.1 <> k) l). lia.
Qed.

Lemma bounded_push sz k e l : bounded sz l = true ->
  let l' := (k, e) :: without k l in
  bounded sz (if (0 <? sz) && (sz <? Z.of_nat (length l')) then take (Z.to_nat sz) l' else l') = true.
Proof.
  intros Hb l'. assert (Hn : NoDup l'.*1).
  { subst l'. rewrite fmap_cons, NoDup_cons. split.
    - intros (p & Hk & [Hp _]%list_elem_of_filter)%list_elem_of_fmap. by apply Hp.
    - apply (bounded_without _ k) in Hb. apply andb_true_iff in Hb as [Hb _]. by apply bool_decide_eq_true_1 in Hb. }
  unfold bounded. destruct (Z.ltb_spec 0 sz), (Z.ltb_spec sz (Z.of_nat (length l'))); cbn [andb];
    apply andb_true_iff; split; try (apply bool_decide_eq_true_2); try done.
  - rewrite fmap_take. by apply NoDup_take.
  - apply orb_true_iff. right. apply Z.leb_le. rewrite length_take. lia.
  - apply orb_true_iff. right. apply Z.leb_le. lia.
  - apply orb_true_iff. left. apply Z.leb_le. lia.
  - apply orb_true_iff. left. apply Z.leb_le. lia.
Qed.

Lemma bounded_touch sz k e l : bounded sz l = true -> find k l = Some e -> bounded sz ((k, e) :: without k l) = true.
Proof.
  intros Hb Hf. pose proof (bounded_push sz k e l Hb) as Hp. cbv zeta in Hp.
  apply andb_true_iff in Hb as [Hn%bool_decide_eq_true_1 Hl].
  apply (find_Some _ _ _ Hn) in Hf.
  assert ((length (without k l) < length l)%nat) by (apply length_without_in; by apply (list_elem_of_fmap_2 fst _ (k, e))).
  destruct (Z.ltb_spec 0 sz); cbn [andb] in Hp; [|done].
  destruct (Z.ltb_spec sz (Z.of_nat (length ((k, e) :: without k l)))) as [Hlt|]; [|done].
  apply orb_true_iff in Hl as [Hl%Z.leb_le|Hl%Z.leb_le]; cbn in Hlt; lia.
Qed.

Definition list_NewLRU (sz : Z) : ListLRU := mkList sz [] (bounded_nil sz).

Definition list_Get (k : K) (l : ListLRU) : option E * ListLRU.
Proof.
  destruct (find k (list_items l)) as [e|] eqn:Hf.
  - exact (Some e, mkList (list_size l) _ (bounded_touch _ _ _ _ (list_ok l) Hf)).
  - exact (None, l).
Defined.

Definition list_Remove (k : K) (l : ListLRU) : bool * ListLRU :=
  (bool_decide (k ∈ (list_items l).*1),
   mkList (list_size l) _ (bounded_without _ k _ (list_ok l))).

Definition list_Purge (l : ListLRU) : ListLRU :=
  mkList (list_size l) [] (bounded_nil _).

Definition list_Add (k : K) (e : E) (l : ListLRU) : bool * ListLRU :=
  let l' := (k, e) :: without k (list_items l) in
  ((0 <? list_size l) && (list_size l <? Z.of_nat (length l')),
   mkList (list_size l) _ (bounded_push _ k e _ (list_ok l))).

#[export] Instance list_lru : LRU ListLRU K E := {
  lru_NewLRU := list_NewLRU;
  lru_Peek k l := find k (list_items l);
  lru_Get := list_Get;
  lru_Add := list_Add;
  lru_Remove := list_Remove;
  lru_Len l := Z.of_nat (length (list_items l));
  lru_Keys l := reverse (list_items l).*1;
  lru_Purge := list_Purge
}.

#[export] Program Instance list_lru_laws : LRULaws ListLRU K E := {
  lru_items := list_items;
  lru_size := list_size
}.
Next Obligation. done. Qed.
Next Obligation. intros [sz l Hb]. cbn. apply andb_true_iff in Hb as [Hb _]. by apply bool_decide_eq_true_1 in Hb. Qed.
Next Obligation.
  intros [sz l Hb]. cbn. apply andb_true_iff in Hb as [_ Hb].
  apply orb_true_iff in Hb as [Hb%Z.leb_le|Hb%Z.leb_le]; auto.
Qed.
Next Obligation. done. Qed.
Next Obligation.
  intros k l. cbn. unfold list_Get. generalize (bounded_touch (list_size l) k). intros g.
  cut (forall o (Ho : find k (list_items l) = o), let r := match o as o' return find k (list_items l) = o' -> option E * ListLRU with
    | Some e => fun Hf => (Some e, mkList (list_size l) _ (g e _ (list_ok l) Hf)) | None => fun _ => (None, l) end Ho in
    r.1 = o /\ list_size r.2 = list_size l /\ list_items r.2 = match o with Some e => (k, e) :: without k (list_items l) | None => list_items l end).
  { intros Hc. apply (Hc _ eq_refl). }
  by intros [e|] Ho.
Qed.
Next Obligation. done. Qed.
Next Obligation. done. Qed.
Next Obligation. done. Qed.
Next Obligation. done. Qed.
Next Obligation. done. Qed.

End list_lru.

(** Two slots and a lifetime of ten: an eviction, an expiry, a sweep. *)
Definition sample : list (op Z Z) :=
  [OPut 1 1 10; OPut 2 2 20; OGet 3 1; OPut 4 3 30; OHas 5 2; OGet 11 1; OPut 12 4 40; OGet 13 3;
   OPutIfAbsent 14 14 1 11; OCompareAndSwap 15 15 1 11 12; OGet 16 1; ORemove 1; OPurge; OHas 17 4].


(** [Remove] reports an entry that every reader already sees as expired. *)
Example remove_reports_expired :
  run (L := ListLRU Z (expiringEntry Z)) [OPut 1 7 70; OHas 20 7; ORemove 7] (NewExpirableCache 2 10)
  = [RPut false; RHas false; RRemove true].
Proof. vm_compute. reflexivity. Qed.

End LruTheorems.
