(* ===== verification/Singleflight.v ===== *)
(** * Shared computations: core/runtime/singleflight and data/cache/lru

    A [Group] maps the keys in flight to calls, which callers hold by pointer: a
    call is a position in the [heap].  A caller is blocked between the critical
    section of [Do] and the close of the call's channel, and may leave when its
    context ends.  [GetOrCompute] of the caches is a lookup followed by [Do] of a
    computation that looks again, computes and stores. *)

From S2P Require Import Prelude.

Module Singleflight.

Definition ErrOverloaded : error := ErrNew "singleflight: concurrent computation limit reached".
Definition ErrAborted : error := ErrNew "singleflight: callback exited without returning".

(** ** The group *)
Section group.
Context {K V : Type} `{Countable K} (zero : V).

(** How a callback ends: it returns, panics, or exits its goroutine. *)
Inductive outcome :=
| Returned (v : V) (err : option error)
| Panicked (p : Z)
| Exited.

(** What [Do] gives its caller. *)
Inductive reply :=
| Reply (v : V) (err : option error)
| Panic (p : Z).

(** [done] is closed once there is an outcome. *)
Record call := mkCall { c_key : K; c_done : option outcome }.

Record Group := mkGroup { calls : gmap K nat; heap : list call; maxConcurrent : Z }.

Definition New (max : Z) : Group := mkGroup ∅ [] max.

(** [Do] up to the [select]; a call that is new runs in a goroutine of its own. *)
Definition Do_enter (ctxErr : option error) (key : K) (g : Group) : (reply + nat) * Group :=
  match ctxErr with
  | Some e => (inl (Reply zero (Some e)), g)
  | None =>
      match calls g !! key with
      | Some c => (inr c, g)
      | None =>
          if (0 <? maxConcurrent g) && (maxConcurrent g <=? Z.of_nat (size (calls g)))
          then (inl (Reply zero (Some ErrOverloaded)), g)
          else
            let c := length (heap g) in
            (inr c, mkGroup (<[key := c]> (calls g)) (heap g ++ [mkCall key None]) (maxConcurrent g))
      end
  end.

(** The deferred section of [run]. *)
Definition run_end (c : nat) (out : outcome) (g : Group) : Group :=
  match heap g !! c with
  | Some cl => mkGroup (delete (c_key cl) (calls g)) (<[c := mkCall (c_key cl) (Some out)]> (heap g)) (maxConcurrent g)
  | None => g
  end.

(** The [select] on the closed channel. *)
Definition Do_reply (out : outcome) : reply :=
  match out with
  | Returned v err => Reply v err
  | Panicked p => Panic p
  | Exited => Reply zero (Some ErrAborted)
  end.

(** ** Callers *)

Inductive caller :=
| Calling (key : K)
| Waiting (key : K) (c : nat)
| Replied (r : reply).

Record state := mkState { grp : Group; callers : list caller }.

Inductive event :=
| EEnter (i : nat) (key : K) (c : nat)
| EStart (c : nat) (key : K)
| EFinish (c : nat) (out : outcome)
| EReturn (i : nat) (c : nat) (r : reply)
| ELeave (i : nat) (r : reply).

Inductive label :=
| LCall (key : K)
| LEnter (i : nat) (ctxErr : option error)
| LFinish (c : nat) (out : outcome)
| LReturn (i : nat)
| LLeave (i : nat) (e : error).

(** One step; [None] when it is not enabled. *)
Definition step (l : label) (s : state) : option (state * list event) :=
  match l with
  | LCall key => Some (mkState (grp s) (callers s ++ [Calling key]), [])
  | LEnter i ctxErr =>
      match callers s !! i with
      | Some (Calling key) =>
          match Do_enter ctxErr key (grp s) with
          | (inl r, g) => Some (mkState g (<[i := Replied r]> (callers s)), [ELeave i r])
          | (inr c, g) =>
              Some (mkState g (<[i := Waiting key c]> (callers s)),
                    (if (c <? length (heap (grp s)))%nat then [] else [EStart c key]) ++ [EEnter i key c])
          end
      | _ => None
      end
  | LFinish c out =>
      match heap (grp s) !! c with
      | Some (mkCall _ None) => Some (mkState (run_end c out (grp s)) (callers s), [EFinish c out])
      | _ => None
      end
  | LReturn i =>
      match callers s !! i with
      | Some (Waiting key c) =>
          match heap (grp s) !! c with
          | Some (mkCall _ (Some out)) =>
              Some (mkState (grp s) (<[i := Replied (Do_reply out)]> (callers s)), [EReturn i c (Do_reply out)])
          | _ => None
          end
      | _ => None
      end
  | LLeave i e =>
      match callers s !! i with
      | Some (Waiting key c) =>
          Some (mkState (grp s) (<[i := Replied (Reply zero (Some e))]> (callers s)), [ELeave i (Reply zero (Some e))])
      | _ => None
      end
  end.

Fixpoint run (ls : list label) (s : state) : option (state * list event) :=
  match ls with
  | [] => Some (s, [])
  | l :: ls =>
      match step l s with
      | None => None
      | Some (s, ev) => match run ls s with Some (s, evs) => Some (s, ev ++ evs) | None => None end
      end
  end.

End group.

Arguments outcome : clear implicits.
Arguments reply : clear implicits.
Arguments call : clear implicits.
Arguments Group K V {_ _}.
Arguments state K V {_ _}.
Arguments event : clear implicits.
Arguments label : clear implicits.
Arguments caller : clear implicits.

(** ** A cache in front of a computation *)

(** [Get] and [Put] of a cache; the clock they read is theirs. *)
Class Cacher (C K V : Type) := {
  cache_Get : K -> C -> option V * C;
  cache_Put : K -> V -> C -> C
}.

Section compute.
Context {C K V : Type} `{Countable K} `{Cacher C K V} (zero : V).

(** A call of [GetOrCompute], and the computation of a flight ([computeOnce]):
    it looks again, calls [fn], stores a result without error. *)
Inductive user :=
| Looking (key : K)
| Missed (key : K)
| Joined (key : K) (c : nat)
| Finished (key : K) (r : reply V).
Inductive phase := Rechecking | Computing | Storing (v : V).

Record world := mkWorld { w_cache : C; w_group : Group K V; flights : gmap nat phase; users : list user }.

Inductive action :=
| ACall (key : K)
| AGet (i : nat)
| AEnter (i : nat) (ctxErr : option error)
| ARecheck (c : nat)
| AFn (c : nat) (out : outcome V)
| AStore (c : nat)
| AReturn (i : nat)
| ALeave (i : nat) (e : error)
| AOther (f : C -> C).

Inductive note := NFn (key : K) (out : outcome V) | NReply (key : K) (r : reply V).

Definition key_of (w : world) (c : nat) : option K := c_key <$> heap (w_group w) !! c.

Definition end_flight (c : nat) (out : outcome V) (w : world) : world :=
  mkWorld (w_cache w) (run_end c out (w_group w)) (delete c (flights w)) (users w).

Definition answer (i : nat) (key : K) (r : reply V) (w : world) : world * list note :=
  (mkWorld (w_cache w) (w_group w) (flights w) (<[i := Finished key r]> (users w)), [NReply key r]).

Definition act (a : action) (w : world) : option (world * list note) :=
  match a with
  | ACall key => Some (mkWorld (w_cache w) (w_group w) (flights w) (users w ++ [Looking key]), [])
  | AGet i =>
      match users w !! i with
      | Some (Looking key) =>
          match cache_Get key (w_cache w) with
          | (Some v, c) => Some (answer i key (Reply v None) (mkWorld c (w_group w) (flights w) (users w)))
          | (None, c) => Some (mkWorld c (w_group w) (flights w) (<[i := Missed key]> (users w)), [])
          end
      | _ => None
      end
  | AEnter i ctxErr =>
      match users w !! i with
      | Some (Missed key) =>
          match Do_enter zero ctxErr key (w_group w) with
          | (inl r, _) => Some (answer i key r w)
          | (inr c, g) =>
              Some (mkWorld (w_cache w) g
                      (if (c <? length (heap (w_group w)))%nat then flights w else <[c := Rechecking]> (flights w))
                      (<[i := Joined key c]> (users w)), [])
          end
      | _ => None
      end
  | ARecheck c =>
      match flights w !! c, key_of w c with
      | Some Rechecking, Some key =>
          match cache_Get key (w_cache w) with
          | (Some v, ca) => Some (end_flight c (Returned v None) (mkWorld ca (w_group w) (flights w) (users w)), [])
          | (None, ca) => Some (mkWorld ca (w_group w) (<[c := Computing]> (flights w)) (users w), [])
          end
      | _, _ => None
      end
  | AFn c out =>
      match flights w !! c, key_of w c with
      | Some Computing, Some key =>
          match out with
          | Returned v None => Some (mkWorld (w_cache w) (w_group w) (<[c := Storing v]> (flights w)) (users w), [NFn key out])
          | _ => Some (end_flight c out w, [NFn key out])
          end
      | _, _ => None
      end
  | AStore c =>
      match flights w !! c, key_of w c with
      | Some (Storing v), Some key =>
          Some (end_flight c (Returned v None)
                  (mkWorld (cache_Put key v (w_cache w)) (w_group w) (flights w) (users w)), [])
      | _, _ => None
      end
  | AReturn i =>
      match users w !! i with
      | Some (Joined key c) =>
          match heap (w_group w) !! c with
          | Some (mkCall _ (Some out)) => Some (answer i key (Do_reply zero out) w)
          | _ => None
          end
      | _ => None
      end
  | ALeave i e =>
      match users w !! i with
      | Some (Joined key c) => Some (answer i key (Reply zero (Some e)) w)
      | _ => None
      end
  | AOther f => Some (mkWorld (f (w_cache w)) (w_group w) (flights w) (users w), [])
  end.

Fixpoint acts (l : list action) (w : world) : option (world * list note) :=
  match l with
  | [] => Some (w, [])
  | a :: l =>
      match act a w with
      | None => None
      | Some (w, n) => match acts l w with Some (w, ns) => Some (w, n ++ ns) | None => None end
      end
  end.

Definition world0 (c : C) : world := mkWorld c (New 0) ∅ [].

End compute.

Arguments world C K V {_ _}.
Arguments action : clear implicits.
Arguments note : clear implicits.
Arguments user : clear implicits.
Arguments phase : clear implicits.

End Singleflight.
