(* ===== verification/SingleflightTheorems.v ===== *)
(** * What shared computations promise *)

From S2P Require Import Prelude Singleflight LruCache LruTheorems.
Import Singleflight.

Module SingleflightTheorems.

Lemma lookup_snoc {A} (l : list A) (x y : A) n :
  (l ++ [x]) !! n = Some y <-> l !! n = Some y \/ (n = length l /\ y = x).
Proof.
  rewrite lookup_app. destruct (l !! n) as [z|] eqn:E.
  - apply lookup_lt_Some in E. split; [auto|]. intros [?|[? _]]; [done|lia].
  - apply lookup_ge_None in E. rewrite list_lookup_singleton_Some. split.
    + intros [? ->]. right. split; [lia|done].
    + intros [?|[-> ->]]; [done|]. split; [lia|done].
Qed.

(** ** The group *)
Section group.
Context {K V : Type} `{Countable K} (zero : V).
Implicit Types (g : Group K V) (s : state K V) (tr : list (event K V)).

(** The keys in flight are those of the calls without an outcome. *)
Definition ginv g : Prop := forall k c, calls g !! k = Some c <-> heap g !! c = Some (mkCall k None).

Definition within g : Prop := 0 < maxConcurrent g -> Z.of_nat (size (calls g)) <= maxConcurrent g.

Lemma enter_new ctxErr key g c g' :
  ginv g -> Do_enter zero ctxErr key g = (inr c, g') ->
  ginv g' /\ (within g -> within g') /\ maxConcurrent g' = maxConcurrent g /\ heap g' !! c = Some (mkCall key None) /\
  ((c < length (heap g))%nat /\ g' = g \/
   c = length (heap g) /\ calls g !! key = None /\ heap g' = heap g ++ [mkCall key None]).
Proof.
  intros Hg. unfold Do_enter. destruct ctxErr; [done|]. destruct (calls g !! key) as [c0|] eqn:Hc.
  - intros [= <- <-]. apply Hg in Hc as Hh. split_and!; [done|done|done|done|]. left.
    split; [by eapply lookup_lt_Some|done].
  - destruct ((0 <? maxConcurrent g) && (maxConcurrent g <=? Z.of_nat (size (calls g)))) eqn:Hm; [done|].
    intros [= <- <-]. split_and!.
    + intros k c. cbn. rewrite lookup_snoc. destruct (decide (k = key)) as [->|Hk].
      * rewrite lookup_insert_eq. split; [intros [= <-]; auto|]. intros [Hh|[-> _]]; [|done].
        apply Hg in Hh. congruence.
      * rewrite lookup_insert_ne, (Hg k c) by done. split; [auto|]. intros [?|[_ [= ->]]]; done.
    + unfold within. cbn. intros Hw Hpos. rewrite map_size_insert_None by done.
      specialize (Hw Hpos). apply andb_false_iff in Hm as [Hm|Hm]; lia.
    + done.
    + cbn. apply lookup_snoc. auto.
    + by right.
Qed.

Lemma enter_reply ctxErr key g r g' : Do_enter zero ctxErr key g = (inl r, g') ->
  g' = g /\ exists e, r = Reply zero (Some e).
Proof. unfold Do_enter. repeat case_match; intros [= <- <-]; eauto. Qed.

Lemma run_end_exact c k out g :
  ginv g -> heap g !! c = Some (mkCall k None) ->
  ginv (run_end c out g) /\ (within g -> within (run_end c out g)) /\ maxConcurrent (run_end c out g) = maxConcurrent g /\
  heap (run_end c out g) = <[c := mkCall k (Some out)]> (heap g).
Proof.
  intros Hg Hc. unfold run_end. rewrite Hc. cbn. split_and!; [| |done|done].
  - intros k' c'. cbn. destruct (decide (c' = c)) as [->|Hne].
    + rewrite list_lookup_insert_eq by (by eapply lookup_lt_Some). split; [|done]. intros [Hk Hl]%lookup_delete_Some.
      apply Hg in Hl. congruence.
    + rewrite list_lookup_insert_ne by done. rewrite lookup_delete_Some, (Hg k' c'). split; [tauto|]. intros Hh. split; [|done].
      intros <-. apply Hg in Hh, Hc. congruence.
  - unfold within. cbn. intros Hw Hpos. specialize (Hw Hpos).
    pose proof (map_size_delete k (calls g)) as Hd. destruct (calls g !! k); cbn in Hd; lia.
Qed.

(** ** Histories *)

(** The history [tr] that led to [s]. *)
Record rinv tr s : Prop := {
  r_inv : ginv (grp s);
  r_within : within (grp s);
  r_heap c k o : heap (grp s) !! c = Some (mkCall k o) -> exists n, tr !! n = Some (EStart c k);
  r_start n c k : tr !! n = Some (EStart c k) -> exists o, heap (grp s) !! c = Some (mkCall k o);
  r_done c k out : heap (grp s) !! c = Some (mkCall k (Some out)) -> exists n, tr !! n = Some (EFinish c out);
  r_finish n c out : tr !! n = Some (EFinish c out) -> exists k, heap (grp s) !! c = Some (mkCall k (Some out));
  r_order a b c k out : tr !! a = Some (EStart c k) -> tr !! b = Some (EFinish c out) -> (a < b)%nat;
  r_wait i k c : callers s !! i = Some (Waiting k c) -> exists n, tr !! n = Some (EEnter i k c);
  r_enter n i k c : tr !! n = Some (EEnter i k c) ->
    (exists a, (a < n)%nat /\ tr !! a = Some (EStart c k)) /\
    (forall b out, tr !! b = Some (EFinish c out) -> (n < b)%nat);
  r_return n i c r : tr !! n = Some (EReturn i c r) ->
    exists key b m out, (b < n)%nat /\ (m < n)%nat /\ tr !! b = Some (EEnter i key c) /\
      tr !! m = Some (EFinish c out) /\ r = Do_reply zero out;
  r_excl a b c c' k : (a < b)%nat -> tr !! a = Some (EStart c k) -> tr !! b = Some (EStart c' k) ->
    exists m out, (a < m < b)%nat /\ tr !! m = Some (EFinish c out)
}.

Lemma old {A} (l : list A) (x y : A) n : l !! n = Some y -> (l ++ [x]) !! n = Some y.
Proof. intros. apply lookup_snoc. auto. Qed.
Local Hint Resolve old : core.

(** Splits every fact about the extended history into old and new. *)
Ltac history :=
  repeat match goal with
  | H : (_ ++ [_]) !! _ = Some _ |- _ => apply lookup_snoc in H as [H|[? H]]; [|try discriminate H]; simplify_eq
  end.
Ltac earlier := repeat match goal with H : ?l !! ?n = Some _ |- _ => apply lookup_lt_Some in H end; lia.

Lemma rinv_leave tr s i r cs :
  rinv tr s -> (forall j k c, cs !! j = Some (Waiting k c) -> callers s !! j = Some (Waiting k c)) ->
  rinv (tr ++ [ELeave i r]) (mkState (grp s) cs).
Proof.
  intros [Hg Hw Hh Hst Hdn Hfi Hor Hwt Hen Hrt Hex] Hcs. split; cbn; [done|done|..]; intros; history.
  - edestruct Hh; eauto.
  - eauto.
  - edestruct Hdn; eauto.
  - eauto.
  - eauto.
  - edestruct Hwt; eauto.
  - edestruct Hen as [(a & ? & ?) Hb]; [done|]. split; [eauto|]. intros b' out Hbo. history. eauto.
  - edestruct Hrt as (key & b & m & out & ? & ? & ? & ? & ?); [done|]. exists key, b, m, out. split_and!; eauto.
  - edestruct Hex as (m & out & ? & ?); eauto 10.
Qed.

Lemma rinv_start tr s c k g cs :
  rinv tr s -> ginv g -> within g -> heap g = heap (grp s) ++ [mkCall k None] -> c = length (heap (grp s)) ->
  calls (grp s) !! k = None -> callers s = cs -> rinv (tr ++ [EStart c k]) (mkState g cs).
Proof.
  intros [Hg Hw Hh Hst Hdn Hfi Hor Hwt Hen Hrt Hex] Hg' Hw' Hgh -> Hk <-. split; cbn; [done|done|..]; rewrite ?Hgh; intros; history.
  - edestruct Hh; eauto.
  - eexists. apply lookup_snoc. auto.
  - edestruct Hst as [o Ho]; [done|]. eauto.
  - eexists. apply lookup_snoc. auto.
  - edestruct Hdn; eauto.
  - edestruct Hfi; eauto.
  - eauto.
  - exfalso. edestruct Hfi as [k' Hk']; [done|]. apply lookup_lt_Some in Hk'. lia.
  - edestruct Hwt; eauto.
  - edestruct Hen as [(a & ? & ?) Hb]; [done|]. split; [eauto|]. intros b' out Hbo. history. eauto.
  - edestruct Hrt as (key & b & m & out & ? & ? & ? & ? & ?); [done|]. exists key, b, m, out. split_and!; eauto.
  - edestruct Hex as (m & out & ? & ?); eauto 10.
  - earlier.
  - destruct (Hst a c k) as [[out|] Ho]; [done| |].
    + destruct (Hdn _ _ _ Ho) as [m Hm]. exists m, out. split; [|by apply old]. split; [by eapply Hor|earlier].
    + apply Hg in Ho. congruence.
  - lia.
Qed.

Lemma rinv_enter tr s i k c :
  rinv tr s -> (i < length (callers s))%nat -> heap (grp s) !! c = Some (mkCall k None) ->
  rinv (tr ++ [EEnter i k c]) (mkState (grp s) (<[i := Waiting k c]> (callers s))).
Proof.
  intros [Hg Hw Hh Hst Hdn Hfi Hor Hwt Hen Hrt Hex] Hi Hc. split; cbn; [done|done|..]; intros; history.
  - edestruct Hh; eauto.
  - eauto.
  - edestruct Hdn; eauto.
  - eauto.
  - eauto.
  - destruct (decide (i0 = i)) as [->|Hne].
    + rewrite list_lookup_insert_eq in H0 by done. simplify_eq. eexists. apply lookup_snoc. auto.
    + rewrite list_lookup_insert_ne in H0 by done. edestruct Hwt; eauto.
  - edestruct Hen as [(a & ? & ?) Hb]; [done|]. split; [eauto|]. intros b' out Hbo. history. eauto.
  - split.
    + destruct (Hh _ _ _ Hc) as [a Ha]. exists a. split; [earlier|eauto].
    + intros b' out Hbo. history. destruct (Hfi _ _ _ Hbo) as [k' Hk']. congruence.
  - edestruct Hrt as (key & b & m & out & ? & ? & ? & ? & ?); [done|]. exists key, b, m, out. split_and!; eauto.
  - edestruct Hex as (m & out & ? & ?); eauto 10.
Qed.

Lemma rinv_finish tr s c k out :
  rinv tr s -> heap (grp s) !! c = Some (mkCall k None) ->
  rinv (tr ++ [EFinish c out]) (mkState (run_end c out (grp s)) (callers s)).
Proof.
  intros [Hg Hw Hh Hst Hdn Hfi Hor Hwt Hen Hrt Hex] Hc.
  destruct (run_end_exact c k out (grp s) Hg Hc) as (Hg' & Hw' & _ & Hgh).
  assert (Hother : forall c' cl, c' <> c -> heap (run_end c out (grp s)) !! c' = Some cl <-> heap (grp s) !! c' = Some cl)
    by (intros; by rewrite Hgh, list_lookup_insert_ne by done).
  assert (Hself : heap (run_end c out (grp s)) !! c = Some (mkCall k (Some out)))
    by (rewrite Hgh; apply list_lookup_insert_eq; by eapply lookup_lt_Some).
  split; cbn; [done|auto|..]; intros; history.
  - destruct (decide (c0 = c)) as [->|Hne]; [|apply Hother in H0; [|done]; edestruct Hh; eauto].
    rewrite Hself in H0. simplify_eq. edestruct (Hh c k0); eauto.
  - destruct (Hst _ _ _ H0) as [o Ho]. destruct (decide (c0 = c)) as [->|Hne]; [|exists o; by apply Hother].
    rewrite Hc in Ho. simplify_eq. eauto.
  - destruct (decide (c0 = c)) as [->|Hne]; [|apply Hother in H0; [|done]; edestruct Hdn; eauto].
    rewrite Hself in H0. simplify_eq. eexists. apply lookup_snoc. auto.
  - destruct (Hfi _ _ _ H0) as [k' Hk']. exists k'. apply Hother; [|done]. intros ->. congruence.
  - eauto.
  - eauto.
  - earlier.
  - edestruct Hwt; eauto.
  - edestruct Hen as [(a & ? & ?) Hb]; [done|]. split; [eauto|]. intros b' out' Hbo. history; [eauto|earlier].
  - edestruct Hrt as (key & b & m & out' & ? & ? & ? & ? & ?); [done|]. exists key, b, m, out'. split_and!; eauto.
  - edestruct Hex as (m & out' & ? & ?); eauto 10.
Qed.

Lemma rinv_return tr s i k c out k' :
  rinv tr s -> callers s !! i = Some (Waiting k c) -> heap (grp s) !! c = Some (mkCall k' (Some out)) ->
  rinv (tr ++ [EReturn i c (Do_reply zero out)]) (mkState (grp s) (<[i := Replied (Do_reply zero out)]> (callers s))).
Proof.
  intros [Hg Hw Hh Hst Hdn Hfi Hor Hwt Hen Hrt Hex] Hi Hc. split; cbn; [done|done|..]; intros; history.
  - edestruct Hh; eauto.
  - eauto.
  - edestruct Hdn; eauto.
  - eauto.
  - eauto.
  - apply list_lookup_insert_Some in H0 as [(_ & ? & _)|[_ H0]]; [done|]. edestruct Hwt; eauto.
  - edestruct Hen as [(a & ? & ?) Hb]; [done|]. split; [eauto|]. intros b' out' Hbo. history. eauto.
  - edestruct Hrt as (key & b & m & out' & ? & ? & ? & ? & ?); [done|]. exists key, b, m, out'. split_and!; eauto.
  - destruct (Hwt _ _ _ Hi) as [b Hb]. destruct (Hdn _ _ _ Hc) as [m Hm]. exists k, b, m, out.
    split_and!; [earlier|earlier|eauto|eauto|done].
  - edestruct Hex as (m & out' & ? & ?); eauto 10.
Qed.

Lemma rinv_step tr s l s' ev : rinv tr s -> step zero l s = Some (s', ev) -> rinv (tr ++ ev) s'.
Proof.
  intros Hr. destruct l as [key|i ctxErr|c out|i|i e]; unfold step.
  - intros [= <- <-]. rewrite app_nil_r. destruct Hr as [Hg Hw Hh Hst Hdn Hfi Hor Hwt Hen Hrt Hex]. split; cbn; eauto.
    intros i k c [?|[_ ?]]%lookup_snoc; [eauto|done].
  - destruct (callers s !! i) as [[key| |]|] eqn:Hi; try done.
    destruct (Do_enter zero ctxErr key (grp s)) as [[r|c] g] eqn:He.
    + apply enter_reply in He as [-> _]. intros [= <- <-]. apply rinv_leave; [done|].
      intros j k c [(_ & ? & _)|[_ ?]]%list_lookup_insert_Some; done.
    + apply enter_new in He as (Hg & Hw & _ & Hc & Hcase); [|apply Hr]. apply lookup_lt_Some in Hi.
      destruct Hcase as [[Hlt ->]|(-> & Hk & Hh)].
      * replace (c <? length (heap (grp s)))%nat with true by (symmetry; by apply Nat.ltb_lt).
        intros [= <- <-]. by apply rinv_enter.
      * rewrite Nat.ltb_irrefl. intros [= <- <-].
        change (rinv (tr ++ [EStart (length (heap (grp s))) key] ++ [EEnter i key (length (heap (grp s)))])
          (mkState g (<[i := Waiting key (length (heap (grp s)))]> (callers s)))). rewrite app_assoc.
        apply (rinv_enter _ (mkState g (callers s))); [|done|done].
        eapply rinv_start; [done|done|by apply Hw, Hr|done|done|done|done].
  - destruct (heap (grp s) !! c) as [[k [o|]]|] eqn:Hc; try done. intros [= <- <-]. by eapply rinv_finish.
  - destruct (callers s !! i) as [[|k c|]|] eqn:Hi; try done.
    destruct (heap (grp s) !! c) as [[k' [o|]]|] eqn:Hc; try done. intros [= <- <-]. by eapply rinv_return.
  - destruct (callers s !! i) as [[|k c|]|] eqn:Hi; try done. intros [= <- <-]. apply rinv_leave; [done|].
    intros j k' c' [(_ & ? & _)|[_ ?]]%list_lookup_insert_Some; done.
Qed.

Lemma rinv_run ls tr s s' tr' : rinv tr s -> run zero ls s = Some (s', tr') -> rinv (tr ++ tr') s'.
Proof.
  revert tr s tr'. induction ls as [|l ls IH]; intros tr s tr' Hr; cbn.
  - intros [= <- <-]. by rewrite app_nil_r.
  - destruct (step zero l s) as [[s1 ev]|] eqn:Hs; [|done]. destruct (run zero ls s1) as [[s2 evs]|] eqn:Hrun; [|done].
    intros [= <- <-]. rewrite app_assoc. eapply IH; [by eapply rinv_step|done].
Qed.

Lemma rinv_init max : rinv [] (mkState (New max) []).
Proof.
  split; [intros k c; split; intros Hl| |..]; try (intros; cbn in *; by rewrite ?lookup_nil, ?lookup_empty in *).
  unfold within. cbn. rewrite map_size_empty. lia.
Qed.

(** The limit is the one the group was made with. *)
Lemma step_max l (s s' : state K V) ev : step zero l s = Some (s', ev) -> maxConcurrent (grp s') = maxConcurrent (grp s).
Proof.
  unfold step, Do_enter, run_end. intros E. repeat case_match; by simplify_eq/=.
Qed.
Lemma run_max ls (s s' : state K V) ev : run zero ls s = Some (s', ev) -> maxConcurrent (grp s') = maxConcurrent (grp s).
Proof.
  revert s ev. induction ls as [|l ls IH]; intros s ev E; cbn in E; [by simplify_eq|].
  destruct (step zero l s) as [[s1 ev1]|] eqn:Hs; [|done]. destruct (run zero ls s1) as [[s2 ev2]|] eqn:Hr; [|done].
  simplify_eq. rewrite (IH _ _ Hr). by eapply step_max.
Qed.

(** C29: callers share one computation per key.  In every history of a group:
    a caller that returns a result entered a call for its own key that was
    still in flight, the call then finished, and the result is its outcome;
    between two computations of one key the first has finished; and the
    computations in flight never exceed the limit. *)
Theorem singleflight_shares (max : Z) (ls : list (label K V)) (s : state K V) (tr : list (event K V)) :
  run zero ls (mkState (New max) []) = Some (s, tr) ->
  (forall n i c r, tr !! n = Some (EReturn i c r) ->
     exists key a b m out, (a < b < m)%nat /\ (m < n)%nat /\ tr !! a = Some (EStart c key) /\
       tr !! b = Some (EEnter i key c) /\ tr !! m = Some (EFinish c out) /\ r = Do_reply zero out) /\
  (forall a b c c' key, (a < b)%nat -> tr !! a = Some (EStart c key) -> tr !! b = Some (EStart c' key) ->
     exists m out, (a < m < b)%nat /\ tr !! m = Some (EFinish c out)) /\
  (0 < max -> Z.of_nat (size (calls (grp s))) <= max).
Proof.
  intros Hrun. pose proof (run_max _ _ _ _ Hrun) as Hmax. cbn in Hmax. pose proof (rinv_run _ [] _ _ _ (rinv_init max) Hrun) as Hr. cbn in Hr.
  split_and!; [|apply Hr|rewrite <-Hmax; apply Hr]. intros n i c r Hn.
  destruct (r_return _ _ Hr _ _ _ _ Hn) as (key & b & m & out & Hb & Hm & Hlb & Hlm & ->).
  destruct (r_enter _ _ Hr _ _ _ _ Hlb) as [(a & Ha & Hla) Hlt]. specialize (Hlt _ _ Hlm).
  exists key, a, b, m, out. by split_and!.
Qed.

End group.

(** Two callers share a call; a third key is refused at the limit of one; after
    the call a new one starts. *)
Definition shared_run : list (label Z Z) :=
  [LCall 7; LCall 7; LCall 8; LEnter 0 None; LEnter 1 None; LEnter 2 None; LFinish 0 (Returned 70 None);
   LReturn 1; LReturn 0; LCall 7; LEnter 3 None].

Lemma singleflight_shares_witness :
  let tr := [EStart 0 7; EEnter 0 7 0; EEnter 1 7 0; ELeave 2 (Reply 0 (Some ErrOverloaded)); EFinish 0 (Returned 70 None);
             EReturn 1 0 (Reply 70 None); EReturn 0 0 (Reply 70 None); EStart 1 7; EEnter 3 7 1] : list (event Z Z) in
  exists m out, (0 < m < 7)%nat /\ tr !! m = Some (EFinish 0 out).
Proof.
  intros tr. pose proof (singleflight_shares 0 1 shared_run _ tr eq_refl) as (_ & Hex & _).
  apply (Hex 0%nat 7%nat 0%nat 1%nat 7); [lia|reflexivity|reflexivity].
Defined.

(** ** One computation per key *)

(** A cache that keeps what it is given: [held] is what a lookup would find. *)
Class CacherLaws (C K V : Type) `{Cacher C K V} := {
  good : C -> Prop;
  held : K -> C -> option V;
  get_held k c : good c ->
    (cache_Get k c).1 = held k c /\ good (cache_Get k c).2 /\ forall k', held k' (cache_Get k c).2 = held k' c;
  put_held k v c : good c ->
    good (cache_Put k v c) /\ held k (cache_Put k v c) = Some v /\ forall k', k' <> k -> held k' (cache_Put k v c) = held k' c
}.

Section compute.
Context {C K V : Type} `{Countable K} `{Cacher C K V} `{!CacherLaws C K V} (zero : V) (key : K).
Implicit Types (w : world C K V) (ns : list (note K V)).

(** The values computed for [key], and those given to callers for it. *)
Definition computed ns : list V :=
  omap (fun n => match n with NFn k (Returned v None) => if decide (k = key) then Some v else None | _ => None end) ns.
Definition replied ns : list V :=
  omap (fun n => match n with NReply k (Reply v None) => if decide (k = key) then Some v else None | _ => None end) ns.

(** Other uses of the cache keep it well-formed and leave [key] alone. *)
Definition harmless (a : action C K V) : Prop :=
  match a with
  | AOther f => forall c, good c -> good (f c) /\ held key (f c) = held key c
  | _ => True
  end.

(** The calls for [key] that ended with a value. *)
Definition settled w (v : V) : Prop := exists c, heap (w_group w) !! c = Some (mkCall key (Some (Returned v None))).

(** Before the value is computed, between computing and storing it, after. *)
Inductive stage w : list V -> list V -> Prop :=
| stage_none :
    held key (w_cache w) = None -> (forall v, ~ settled w v) ->
    (forall c v, flights w !! c = Some (Storing v) -> key_of w c <> Some key) -> stage w [] []
| stage_storing c v :
    held key (w_cache w) = None -> (forall v, ~ settled w v) ->
    flights w !! c = Some (Storing v) -> key_of w c = Some key -> stage w [v] []
| stage_stored v rs :
    held key (w_cache w) = Some v -> (forall v', settled w v' -> v' = v) ->
    (forall c, key_of w c = Some key -> flights w !! c = None \/ flights w !! c = Some Rechecking) ->
    (forall r, r ∈ rs -> r = v) -> stage w [v] rs.

Record winv w ns : Prop := {
  w_inv : ginv (w_group w);
  w_good : good (w_cache w);
  w_flight c : is_Some (flights w !! c) <-> exists k, heap (w_group w) !! c = Some (mkCall k None);
  w_joined i k c : users w !! i = Some (Joined k c) -> key_of w c = Some k;
  w_stage : stage w (computed ns) (replied ns)
}.

(** At most one flight per key. *)
Lemma flight_unique w ns c c' k :
  winv w ns -> is_Some (flights w !! c) -> is_Some (flights w !! c') -> key_of w c = Some k -> key_of w c' = Some k -> c = c'.
Proof.
  intros [Hg _ Hf _ _] (k1 & Hc)%Hf (k2 & Hc')%Hf. unfold key_of. rewrite Hc, Hc'. cbn. intros [= ->] [= ->].
  apply Hg in Hc, Hc'. congruence.
Qed.

Lemma computed_app a b : computed (a ++ b) = computed a ++ computed b.
Proof. apply omap_app. Qed.
Lemma replied_app a b : replied (a ++ b) = replied a ++ replied b.
Proof. apply omap_app. Qed.

(** The stage depends on the cache, the calls and the flights only. *)
Lemma stage_mono w w' cs rs :
  held key (w_cache w') = held key (w_cache w) -> (forall v, settled w' v -> settled w v) ->
  (forall c, flights w' !! c = flights w !! c \/ flights w' !! c = None /\ (forall v, flights w !! c <> Some (Storing v)) \/
     flights w' !! c = Some Rechecking /\ flights w !! c = None \/
     flights w' !! c = Some Computing /\ (forall v, flights w !! c <> Some (Storing v)) /\ held key (w_cache w) = None \/
     key_of w c <> Some key /\ key_of w' c <> Some key) ->
  (forall c, key_of w' c = key_of w c \/ key_of w c = None /\ flights w !! c = None) ->
  stage w cs rs -> stage w' cs rs.
Proof.
  intros Hh Hs Hf Hk [Hn Hno Hst|c v Hn Hno Hc Hkc|v rs' Hv Hse Hfl Hrs].
  - apply stage_none; [congruence|naive_solver|]. intros c v Hc Hkc.
    destruct (Hk c) as [E|[E Hnone]].
    + rewrite E in Hkc. destruct (Hf c) as [Ef|[[Ef _]|[[Ef _]|[[Ef _]|[Ef _]]]]]; rewrite ?Ef in Hc; [|done..]. by eapply Hst.
    + destruct (Hf c) as [Ef|[[Ef _]|[[Ef _]|[[Ef _]|[_ Ef]]]]]; congruence.
  - apply (stage_storing w' c v); [congruence|naive_solver| |].
    + destruct (Hf c) as [Ef|[[_ Ef]|[[_ Ef]|[(_ & Ef & _)|[Ef _]]]]]; [congruence|by destruct (Ef v)|congruence|by destruct (Ef v)|congruence].
    + destruct (Hk c) as [E|[E _]]; congruence.
  - apply stage_stored; [congruence|naive_solver| |done]. intros c Hkc.
    destruct (Hk c) as [E|[E Hnone]].
    + rewrite E in Hkc. destruct (Hf c) as [Ef|[[Ef _]|[[Ef _]|[(_ & _ & Ef)|[Ef _]]]]]; [rewrite Ef; auto|auto|auto|congruence|done].
    + destruct (Hf c) as [Ef|[[Ef _]|[[Ef _]|[(_ & _ & Ef)|[_ Ef]]]]]; [rewrite Ef; auto|auto|auto|congruence|done].
Qed.

Lemma stage_reply w cs rs v :
  stage w cs rs -> settled w v \/ held key (w_cache w) = Some v -> stage w cs (rs ++ [v]).
Proof.
  intros [Hn Hno Hst|c v' Hn Hno Hc Hkc|v' rs' Hv Hse Hfl Hrs] Hv'.
  - destruct Hv' as [?|?]; [by destruct (Hno v)|congruence].
  - destruct Hv' as [?|?]; [by destruct (Hno v)|congruence].
  - apply stage_stored; [done|done|done|]. intros r [?|?%list_elem_of_singleton]%elem_of_app; [auto|subst].
    destruct Hv' as [?|?]; [auto|congruence].
Qed.

Lemma flight_call w ns c k : winv w ns -> is_Some (flights w !! c) -> key_of w c = Some k ->
  heap (w_group w) !! c = Some (mkCall k None).
Proof. intros Hw (k' & Hc)%(w_flight _ _ Hw). unfold key_of. rewrite Hc. by intros [= ->]. Qed.

Lemma key_of_run_end w c k out (ca : C) fl us c' :
  ginv (w_group w) -> heap (w_group w) !! c = Some (mkCall k None) ->
  key_of (mkWorld ca (run_end c out (w_group w)) fl us) c' = key_of w c'.
Proof.
  intros Hg Hc. destruct (run_end_exact c k out _ Hg Hc) as (_ & _ & _ & Hh). unfold key_of. cbn. rewrite Hh.
  destruct (decide (c' = c)) as [->|?]; [|by rewrite list_lookup_insert_ne].
  rewrite list_lookup_insert_eq by (by eapply lookup_lt_Some). by rewrite Hc.
Qed.

Lemma settled_run_end w c k out (ca : C) fl us v :
  ginv (w_group w) -> heap (w_group w) !! c = Some (mkCall k None) ->
  settled (mkWorld ca (run_end c out (w_group w)) fl us) v <-> settled w v \/ k = key /\ out = Returned v None.
Proof.
  intros Hg Hc. destruct (run_end_exact c k out _ Hg Hc) as (_ & _ & _ & Hh). unfold settled. cbn. rewrite Hh. split.
  - intros [c' [(_ & ? & _)|[_ ?]]%list_lookup_insert_Some]; [|eauto]. simplify_eq. auto.
  - intros [[c' Hc']|[-> ->]].
    + exists c'. rewrite list_lookup_insert_ne; [done|]. intros ->. congruence.
    + exists c. apply list_lookup_insert_eq. by eapply lookup_lt_Some.
Qed.

(** What ending the flight [c] keeps. *)
Lemma end_flight_inv w ns ns' c k out (ca : C) :
  winv w ns -> heap (w_group w) !! c = Some (mkCall k None) -> good ca ->
  let w' := end_flight c out (mkWorld ca (w_group w) (flights w) (users w)) in
  stage w' (computed ns') (replied ns') -> winv w' ns'.
Proof.
  intros [Hg Hgo Hf Hj Hs] Hc Hca w' Hst. destruct (run_end_exact c k out _ Hg Hc) as (Hg' & _ & _ & Hh).
  split; [done|done| |intros i k' c'; cbn; intros Hi; unfold w', end_flight; cbn; rewrite (key_of_run_end w c k); eauto|done].
  intros c'. cbn. rewrite Hh. destruct (decide (c' = c)) as [->|Hne].
  - rewrite lookup_delete_eq, list_lookup_insert_eq by (by eapply lookup_lt_Some).
    split; [by intros [? ?]|intros [k' Hk']; congruence].
  - by rewrite lookup_delete_ne, list_lookup_insert_ne by done.
Qed.

(** A flight that did not compute a value ends. *)
Lemma stage_end w ns c k out (ca : C) :
  winv w ns -> heap (w_group w) !! c = Some (mkCall k None) -> held key ca = held key (w_cache w) ->
  (forall v, k = key -> flights w !! c <> Some (Storing v)) ->
  (forall v, k = key -> out = Returned v None -> held key (w_cache w) = Some v) ->
  stage (end_flight c out (mkWorld ca (w_group w) (flights w) (users w))) (computed ns) (replied ns).
Proof.
  intros Hw Hc Hca Hph Hout. pose proof (w_inv _ _ Hw) as Hg.
  assert (Hkey : key_of w c = Some k) by (unfold key_of; by rewrite Hc).
  assert (Hset : forall v, settled (end_flight c out (mkWorld ca (w_group w) (flights w) (users w))) v ->
    settled w v \/ held key (w_cache w) = Some v).
  { intros v [?|[-> ->]]%(settled_run_end w c k); [auto| |done..]. right. by apply Hout. }
  assert (Hko : forall c', key_of (end_flight c out (mkWorld ca (w_group w) (flights w) (users w))) c' = key_of w c')
    by (intros c'; by apply (key_of_run_end w c k)).
  destruct (w_stage _ _ Hw) as [Hn Hno Hst|c0 v Hn Hno Hc0 Hkc|v rs Hv Hse Hfl Hrs].
  - apply stage_none; cbn; [congruence| |].
    + intros v [?|?]%Hset; [by eapply Hno|congruence].
    + intros c' v [_ Hc']%lookup_delete_Some. rewrite Hko. by eapply Hst.
  - apply (stage_storing _ c0 v); cbn; [congruence| | |by rewrite Hko].
    + intros v' [?|?]%Hset; [by eapply Hno|congruence].
    + rewrite lookup_delete_ne; [done|]. intros ->. rewrite Hkey in Hkc. simplify_eq. by eapply Hph.
  - apply stage_stored; cbn; [congruence| | |done].
    + intros v' [?|?]%Hset; [by apply Hse|congruence].
    + intros c'. rewrite Hko. intros Hk'. destruct (decide (c' = c)) as [->|?]; [rewrite lookup_delete_eq; auto|].
      rewrite lookup_delete_ne by done. auto.
Qed.

(** A reply: an error, or the value of a lookup or of an ended call. *)
Lemma answer_inv w ns i k r w' n :
  winv w ns -> (forall v, r = Reply v None -> k = key -> settled w v \/ held key (w_cache w) = Some v) ->
  answer i k r w = (w', n) -> winv w' (ns ++ n).
Proof.
  intros [Hg Hgo Hf Hj Hs] Hr [= <- <-]. split; [done|done|done| |].
  - intros j k' c [(_ & ? & _)|[_ ?]]%list_lookup_insert_Some; [done|by eapply Hj].
  - rewrite computed_app, replied_app. cbn. rewrite app_nil_r.
    assert (Hs' : forall rs, stage w (computed ns) rs ->
      stage (mkWorld (w_cache w) (w_group w) (flights w) (<[i:=Finished k r]> (users w))) (computed ns) rs).
    { intros rs. apply stage_mono; cbn; auto. }
    apply Hs'. destruct r as [v [e|]|v]; cbn; [by rewrite app_nil_r| |by rewrite app_nil_r].
    destruct (decide (k = key)); cbn; [|by rewrite app_nil_r]. apply stage_reply; auto.
Qed.

(** A lookup of the cache. *)
Lemma get_inv w ns k v ca :
  winv w ns -> cache_Get k (w_cache w) = (v, ca) ->
  v = held k (w_cache w) /\ good ca /\ held key ca = held key (w_cache w) /\
  winv (mkWorld ca (w_group w) (flights w) (users w)) ns.
Proof.
  intros Hw Hget. destruct (get_held k _ (w_good _ _ Hw)) as (E & Hca & Hh). rewrite Hget in E, Hca, Hh. cbn in *.
  split_and!; [done..|]. destruct Hw as [Hg Hgo Hf Hj Hs]. split; [done|done|done|done|].
  revert Hs. apply stage_mono; cbn; auto.
Qed.

Lemma users_inv w ns i u :
  winv w ns -> (forall k c, u = Joined k c -> key_of w c = Some k) ->
  winv (mkWorld (w_cache w) (w_group w) (flights w) (<[i := u]> (users w))) ns.
Proof.
  intros [Hg Hgo Hf Hj Hs] Hu. split; [done|done|done| |revert Hs; apply stage_mono; cbn; auto].
  intros j k c. cbn. intros [(_ & ? & _)|[_ ?]]%list_lookup_insert_Some; [by apply Hu|by eapply Hj].
Qed.

Lemma act_get w ns i w' n : winv w ns -> act zero (AGet i) w = Some (w', n) -> winv w' (ns ++ n).
Proof.
  intros Hw. cbn. destruct (users w !! i) as [[k| | |]|] eqn:Hi; [|done..].
  destruct (cache_Get k (w_cache w)) as [v ca] eqn:Hget. destruct (get_inv _ _ _ _ _ Hw Hget) as (Hv & _ & Hk & Hw').
  destruct v as [v|]; intros Heq.
  - eapply answer_inv; [exact Hw'| |injection Heq as Heq1 Heq2; rewrite <- Heq1, <- Heq2; reflexivity].
    intros v' [= <-] ->. right. cbn. congruence.
  - simplify_eq. rewrite app_nil_r. by apply (users_inv _ _ i (Missed k)) in Hw'.
Qed.

Lemma act_recheck w ns c w' n : winv w ns -> act zero (ARecheck c) w = Some (w', n) -> winv w' (ns ++ n).
Proof.
  intros Hw. cbn. destruct (flights w !! c) as [[]|] eqn:Hc; [|done..]. destruct (key_of w c) as [k|] eqn:Hk; [|done].
  destruct (cache_Get k (w_cache w)) as [v ca] eqn:Hget. destruct (get_inv _ _ _ _ _ Hw Hget) as (Hv & Hca & Hh & _).
  pose proof (flight_call _ _ _ _ Hw (mk_is_Some _ _ Hc) Hk) as Hcall.
  destruct v as [v|]; intros [= <- <-]; rewrite app_nil_r.
  - eapply end_flight_inv; [done..|]. eapply stage_end; [done..| |]; [congruence|]. intros v' -> [= <-]. congruence.
  - destruct Hw as [Hg Hgo Hf Hj Hs]. split; [done|done| |done|].
    + intros c'. cbn. rewrite <- Hf. destruct (decide (c' = c)) as [->|?]; [|by rewrite lookup_insert_ne].
      rewrite lookup_insert_eq, Hc. split; eauto.
    + revert Hs. apply stage_mono; cbn; [done|auto| |auto]. intros c'.
      destruct (decide (c' = c)) as [->|?]; [|rewrite lookup_insert_ne by done; auto].
      rewrite lookup_insert_eq. right; right; right. destruct (decide (k = key)) as [->|?]; [left|right].
      * split_and!; [done|congruence|done].
      * unfold key_of in *. cbn. split; congruence.
Qed.

Lemma act_enter w ns i e w' n : winv w ns -> act zero (AEnter i e) w = Some (w', n) -> winv w' (ns ++ n).
Proof.
  intros Hw. unfold act. destruct (users w !! i) as [[|k| |]|] eqn:Hi; [done| |done..].
  destruct (Do_enter zero e k (w_group w)) as [[r|c] g] eqn:Hd.
  - apply enter_reply in Hd as (-> & e' & ->). intros Heq.
    eapply (answer_inv w ns i k (Reply zero (Some e'))); [exact Hw|by intros ? [=]|]. injection Heq as <- <-. reflexivity.
  - destruct (enter_new _ _ _ _ _ _ (w_inv _ _ Hw) Hd) as (Hg' & _ & _ & Hc & Hcase). intros [= <- <-]. rewrite app_nil_r.
    destruct Hcase as [[Hlt ->]|(-> & Hnone & Hh)].
    + apply Nat.ltb_lt in Hlt as ->. apply (users_inv _ _ i (Joined k c) Hw). intros ? ? [= <- <-]. unfold key_of. by rewrite Hc.
    + rewrite Nat.ltb_irrefl. destruct Hw as [Hg Hgo Hf Hj Hs].
      assert (Hfresh : flights w !! length (heap (w_group w)) = None).
      { apply eq_None_not_Some. intros (k' & Hl%lookup_lt_Some)%Hf. lia. }
      split; [done|done| | |].
      * intros c. cbn. rewrite Hh. destruct (decide (c = length (heap (w_group w)))) as [->|Hne].
        -- rewrite lookup_insert_eq. setoid_rewrite lookup_snoc. naive_solver.
        -- rewrite lookup_insert_ne, Hf by done. setoid_rewrite lookup_snoc. naive_solver.
      * intros j k' c. cbn. intros [(_ & [= <- <-] & _)|[_ Hjj%Hj]]%list_lookup_insert_Some; unfold key_of in *; cbn; [by rewrite Hc|].
        rewrite Hh. destruct (heap (w_group w) !! c) eqn:E; [|done]. by rewrite (lookup_app_l_Some _ _ _ _ E).
      * revert Hs. apply stage_mono; cbn; [done| | |].
        -- intros v [c Hc']. exists c. cbn in Hc'. rewrite Hh in Hc'. apply lookup_snoc in Hc'. naive_solver.
        -- intros c. destruct (decide (c = length (heap (w_group w)))) as [->|Hne]; [rewrite lookup_insert_eq; auto|].
           rewrite lookup_insert_ne by done. auto.
        -- intros c. unfold key_of. cbn. rewrite Hh. destruct (decide (c = length (heap (w_group w)))) as [->|Hne].
           ++ right. by rewrite lookup_ge_None_2 by lia.
           ++ left. destruct (heap (w_group w) !! c) eqn:E; [by rewrite (lookup_app_l_Some _ _ _ _ E)|].
              apply lookup_ge_None in E. by rewrite lookup_ge_None_2 by (rewrite length_app; cbn; lia).
Qed.

Lemma act_fn w ns c out w' n : winv w ns -> act zero (AFn c out) w = Some (w', n) -> winv w' (ns ++ n).
Proof.
  intros Hw. cbn. destruct (flights w !! c) as [[]|] eqn:Hc; [done| |done..]. destruct (key_of w c) as [k|] eqn:Hk; [|done].
  pose proof (flight_call _ _ _ _ Hw (mk_is_Some _ _ Hc) Hk) as Hcall.
  assert (Hend : (forall v, out <> Returned v None) -> winv (end_flight c out w) (ns ++ [NFn k out])).
  { intros Hout. assert (Hq : computed (ns ++ [NFn k out]) = computed ns /\ replied (ns ++ [NFn k out]) = replied ns).
    { rewrite computed_app, replied_app. cbn. destruct out as [v [e|]| |]; cbn; rewrite ?app_nil_r; try done. by destruct (Hout v). }
    destruct Hq as [Hq1 Hq2]. destruct w as [ca g fl us]. eapply (end_flight_inv (mkWorld ca g fl us)); [done|done|apply Hw|].
    rewrite Hq1, Hq2. eapply (stage_end (mkWorld ca g fl us)); [done|done|done|cbn in *; congruence|]. intros v _ ->. by destruct (Hout v). }
  destruct out as [v [e|]| |]; intros [= <- <-]; [by apply Hend| |by apply Hend..]. clear Hend.
  pose proof Hw as [Hg Hgo Hf Hj Hs]. split; [done|done| |done|].
  - intros c'. cbn. rewrite <- Hf. destruct (decide (c' = c)) as [->|?]; [|by rewrite lookup_insert_ne].
    rewrite lookup_insert_eq, Hc. split; eauto.
  - rewrite computed_app, replied_app. cbn. rewrite app_nil_r. destruct (decide (k = key)) as [->|Hne]; cbn.
    + inversion Hs as [Hn Hno Hst E1 E2|c0 v' Hn Hno Hc0 Hkc E1 E2|v' rs Hv Hse Hfl Hrs E1 E2].
      * apply (stage_storing _ c v); cbn; [done|done|by rewrite lookup_insert_eq|done].
      * assert (c0 = c) as -> by (eapply (flight_unique w ns); eauto). congruence.
      * destruct (Hfl _ Hk); congruence.
    + rewrite app_nil_r. revert Hs. apply stage_mono; cbn; [done|auto| |auto]. intros c'.
      destruct (decide (c' = c)) as [->|?]; [|rewrite lookup_insert_ne by done; auto].
      do 4 right. unfold key_of in *. cbn. split; congruence.
Qed.

Lemma act_store w ns c w' n : winv w ns -> act zero (AStore c) w = Some (w', n) -> winv w' (ns ++ n).
Proof.
  intros Hw. cbn. destruct (flights w !! c) as [[| |v]|] eqn:Hc; [done|done| |done].
  destruct (key_of w c) as [k|] eqn:Hk; [|done]. intros [= <- <-]. rewrite app_nil_r.
  pose proof (flight_call _ _ _ _ Hw (mk_is_Some _ _ Hc) Hk) as Hcall. pose proof (w_inv _ _ Hw) as Hg.
  destruct (put_held k v _ (w_good _ _ Hw)) as (Hgood & Hput & Hother).
  eapply end_flight_inv; [done..|]. destruct (decide (k = key)) as [->|Hne];
    [|eapply stage_end; [done|done|by apply Hother|congruence..]].
  destruct (w_stage _ _ Hw) as [Hn Hno Hst|c0 v' Hn Hno Hc0 Hkc|v' rs Hv Hse Hfl Hrs].
  - by destruct (Hst _ _ Hc).
  - assert (c0 = c) as -> by (eapply (flight_unique w ns); eauto). assert (v' = v) as -> by congruence.
    apply stage_stored; [done| | |by intros ? ?%elem_of_nil].
    + intros v' [?|[_ [= ->]]]%(settled_run_end w c key); [by destruct (Hno v')|done..].
    + intros c'. unfold end_flight. cbn. rewrite (key_of_run_end w c key) by done. intros Hk'. left.
      destruct (decide (c' = c)) as [->|?]; [by rewrite lookup_delete_eq|]. rewrite lookup_delete_ne by done.
      apply eq_None_not_Some. intros Hs. assert (c' = c) by (eapply (flight_unique w ns); eauto). done.
  - destruct (Hfl _ Hk); congruence.
Qed.

Lemma act_inv a w ns w' n : winv w ns -> harmless a -> act zero a w = Some (w', n) -> winv w' (ns ++ n).
Proof.
  intros Hw Ha. destruct a as [k|i|i e|c|c out|c|i|i e|f]; [|by apply act_get|by apply act_enter|by apply act_recheck|
    by apply act_fn|by apply act_store| | |].
  - intros [= <- <-]. rewrite app_nil_r. destruct Hw as [Hg Hgo Hf Hj Hs].
    split; [done|done|done| |revert Hs; apply stage_mono; cbn; auto].
    intros i k' c. cbn. intros [?|[_ ?]]%lookup_snoc; [by eapply Hj|done].
  - cbn. destruct (users w !! i) as [[| |k c|]|] eqn:Hi; [done|done| |done..].
    destruct (heap (w_group w) !! c) as [[k' [out|]]|] eqn:Hc; [|done..]. intros Heq.
    apply (answer_inv w ns i k (Do_reply zero out)); [done| |by injection Heq as <- <-]. intros v Hr ->.
    apply (w_joined _ _ Hw) in Hi. unfold key_of in Hi. rewrite Hc in Hi. injection Hi as ->.
    left. exists c. destruct out as [v' e| |]; cbn in Hr; simplify_eq. done.
  - cbn. destruct (users w !! i) as [[| |k c|]|] eqn:Hi; [done|done| |done..]. intros Heq.
    apply (answer_inv w ns i k (Reply zero (Some e))); [done|by intros ? [=]|by injection Heq as <- <-].
  - intros [= <- <-]. rewrite app_nil_r. destruct Hw as [Hg Hgo Hf Hj Hs]. destruct (Ha _ Hgo) as [Hgo' Hh].
    split; [done|done|done|done|revert Hs; apply stage_mono; cbn; auto].
Qed.

Lemma acts_inv l w ns w' ns' :
  Forall harmless l -> winv w ns -> acts zero l w = Some (w', ns') -> winv w' (ns ++ ns').
Proof.
  revert w ns ns'. induction l as [|a l IH]; intros w ns ns' Hl Hw; cbn; [intros [= <- <-]; by rewrite app_nil_r|].
  apply list.Forall_cons in Hl as [Ha Hl]. destruct (act zero a w) as [[w1 n]|] eqn:Hact; [|done].
  destruct (acts zero l w1) as [[w2 ns2]|] eqn:Hacts; [|done]. intros [= <- <-]. rewrite app_assoc.
  eapply IH; [done| |done]. by eapply act_inv.
Qed.

Lemma world0_inv c : good c -> held key c = None -> winv (world0 c) [].
Proof.
  intros Hc Hk. split; [intros k c'; cbn; rewrite lookup_empty; by split|done|..].
  - intros c'. cbn. rewrite lookup_empty. split; [by intros [? ?]|by intros [? ?]].
  - by intros.
  - apply stage_none; [done|by intros v [c' ?]|by intros].
Qed.


End compute.

(** ** The expiring cache without expiry *)

(** An [ExpirableCache] with the clock its calls read. *)
Section expirable.
Import LruCache LruTheorems.
Context {L K V : Type} `{EqDecision K} `{EqDecision V} `{LRU L K (expiringEntry V)} `{!LRULaws L K (expiringEntry V)}.
Context (clock : nat -> Go.time).

#[export] Instance clocked_cacher : Cacher (nat * ExpirableCache L) K V := {
  cache_Get k c := let r := Get (clock c.1) k c.2 in (r.1, (S c.1, r.2));
  cache_Put k v c := (S c.1, (Put (clock c.1) k v c.2).2)
}.

(** No bound and no lifetime. *)
Definition endless (c : nat * ExpirableCache L) : Prop :=
  lru_size (cache c.2) = 0 /\ ttl c.2 = 0 /\ forall p, p ∈ items c.2 -> expiresAt p.2 = 0.

Definition kept (k : K) (c : nat * ExpirableCache L) : option V := value <$> find k (items c.2).

Lemma find_touch k k' (e : expiringEntry V) (l : list (K * expiringEntry V)) : NoDup l.*1 ->
  find k' ((k, e) :: without k l) = if decide (k' = k) then Some e else find k' l.
Proof.
  intros Hnd. assert (Hnd' : NoDup ((k, e) :: without k l).*1).
  { cbn. apply NoDup_cons. split; [|by apply NoDup_filter_fst].
    intros ([? ?] & -> & [? _]%list_elem_of_filter)%list_elem_of_fmap. done. }
  apply option_eq. intros x. rewrite find_Some, elem_of_cons by done. destruct (decide (k' = k)) as [->|Hne].
  - split; [intros [[= ->]|[? _]%list_elem_of_filter]; done|intros [= ->]; auto].
  - rewrite find_Some by done. split.
    + intros [[= ? _]|[_ ?]%list_elem_of_filter]; done.
    + intros ?. right. by apply list_elem_of_filter.
Qed.

Lemma touch_in (k : K) (e : expiringEntry V) l p : p ∈ (k, e) :: without k l -> p = (k, e) \/ p ∈ l.
Proof. intros [->|[_ ?]%list_elem_of_filter]%elem_of_cons; auto. Qed.

#[export] Program Instance clocked_laws : CacherLaws (nat * ExpirableCache L) K V := {
  good := endless;
  held := kept
}.
Next Obligation.
  intros k [t c] (Hs & Ht & He). unfold endless, kept in *. cbn in *. unfold Get, entry. rewrite lru_Peek_spec.
  change (lru_items (cache c)) with (items c). destruct (find k (items c)) as [e|] eqn:Hf; [|done].
  pose proof (lru_items_nodup (cache c)) as Hnd. destruct (lru_Get_spec k (cache c)) as (_ & Hs' & Hi).
  change (lru_items (cache c)) with (items c) in *. rewrite Hf in Hi.
  assert (expiresAt e = 0) as He0 by (apply (He (k, e)); by apply find_Some in Hf).
  unfold expired. rewrite He0. cbn. unfold items in *. cbn. rewrite Hi, Hs'. split_and!; [done|done|done| |].
  - intros p [->| ?]%touch_in; auto.
  - intros k'. rewrite find_touch by done. destruct (decide (k' = k)) as [->|]; congruence.
Qed.
Next Obligation.
  intros k v [t c] (Hs & Ht & He). unfold endless, kept in *. cbn in *. unfold Put, store. rewrite Ht. cbn.
  pose proof (lru_items_nodup (cache c)) as Hnd.
  destruct (lru_Add_spec k (mkEntry v Go.zero_time) (cache c)) as (_ & Hs' & Hi). rewrite Hs in Hi. cbn in Hi.
  destruct (lru_Add k (mkEntry v Go.zero_time) (cache c)) as [ev l']. cbn in *. unfold items in *. cbn. rewrite Hi, Hs'.
  split_and!; [done|done| | |].
  - intros p [->| ?]%touch_in; auto.
  - by rewrite find_touch, decide_True by done.
  - intros k' Hne. by rewrite find_touch, decide_False by done.
Qed.

Lemma endless_new t : endless (t, NewExpirableCache 0 0).
Proof.
  destruct (lru_items_new 0) as [Hi Hs]; [done|]. split_and!; [done|done|]. unfold items. cbn. rewrite Hi.
  by intros ? ?%elem_of_nil.
Qed.

Lemma kept_new k t : kept k (t, NewExpirableCache 0 0) = None.
Proof. destruct (lru_items_new 0) as [Hi _]; [done|]. unfold kept, items. cbn. by rewrite Hi. Qed.

End expirable.

Section example.
Import LruCache LruTheorems.

(** Two callers of one key: the second joins the first's flight, the third finds
    the value. *)
Definition shared_compute : list (action (nat * ExpirableCache (ListLRU Z (expiringEntry Z))) Z Z) :=
  [ACall 7; ACall 7; AGet 0; AGet 1; AEnter 0 None; AEnter 1 None; ARecheck 0; AFn 0 (Returned 70 None); AStore 0;
   AReturn 1; ACall 7; AGet 2; AReturn 0].


End example.

End SingleflightTheorems.
