(* ===== verification/ImmutableMap.v ===== *)
(** * A read-only hash table: core/collections/maps/immutable_map.go

    [ImmutableMap] is a Swiss table.  The slots are in groups of eight, and a
    word of 64 bits holds one control byte for each slot of a group: 0x80 for an
    empty slot, the seven low bits of the key's hash otherwise.  A group is
    searched eight bytes at a time by arithmetic on its word.  A word is its
    value in [Z]; the seeded hash of the runtime is an argument. *)

From S2P Require Import Prelude.

Module ImmutableMap.

Definition groupSize : Z := 8.
Definition groupShift : Z := 3.
Definition h2Bits : Z := 7.
Definition h2Mask : Z := 2 ^ h2Bits - 1.
Definition byteMask : Z := 0xFF.
Definition loBits : Z := 0x0101010101010101.
Definition hiBits : Z := 0x8080808080808080.
Definition allEmpty : Z := hiBits.
Definition loadNum : Z := 7.
Definition loadDen : Z := 8.

(** Unsigned arithmetic of 64 bits, and the complement [^x]. *)
Definition u64 (z : Z) : Z := z mod 2 ^ 64.
Definition not64 (z : Z) : Z := Z.lxor z (2 ^ 64 - 1).

(** [bits.TrailingZeros64]. *)
Fixpoint trailing (fuel : nat) (x : Z) : Z :=
  match fuel with
  | O => 0
  | S fuel => if Z.odd x then 0 else 1 + trailing fuel (x / 2)
  end.
Definition TrailingZeros64 (x : Z) : Z := trailing 64 x.

Definition matchByte (word needle : Z) : Z :=
  let broadcast := u64 (needle * loBits) in
  let diff := Z.lxor word broadcast in
  Z.land (Z.land (u64 (diff - loBits)) (not64 diff)) hiBits.

Definition matchEmpty (word : Z) : Z := Z.land (Z.land word (not64 (u64 (Z.shiftl word 1)))) hiBits.

Definition nextGroupMultiple (n : Z) : Z := Z.land (n + groupSize - 1) (Z.lnot (groupSize - 1)).

(** The lane of the lowest bit of a mask, and the mask without that bit. *)
Definition first_lane (mask : Z) : nat := Z.to_nat (Z.shiftr (TrailingZeros64 mask) groupShift).
Definition next_mask (mask : Z) : Z := Z.land mask (mask - 1).

Section table.
Context {K V : Type} `{EqDecision K} (zeroK : K) (zeroV : V).
(** [maphash.Comparable] with the seed of the table. *)
Context (hash : K -> Z).

Record ImmutableMap := mkMap { ctrl : list Z; keys : list K; vals : list V; len : Z; groups : nat }.

(** [&ImmutableMap{}]. *)
Definition emptyMap : ImmutableMap := mkMap [] [] [] 0 0.

Definition allocImmutable (n : Z) : ImmutableMap :=
  let numSlots := nextGroupMultiple (Z.quot (Go.i64 (n * loadDen)) loadNum + 1) in
  let groups := Z.to_nat (numSlots / groupSize) in
  mkMap (replicate groups allEmpty) (replicate (Z.to_nat numSlots) zeroK) (replicate (Z.to_nat numSlots) zeroV) 0 groups.

Definition h2 (key : K) : Z := Z.land (hash key) h2Mask.
Definition home (m : ImmutableMap) (key : K) : nat :=
  Z.to_nat (Z.shiftr (hash key) h2Bits mod Z.of_nat (groups m)).

(** [group++], and back to the first after the last. *)
Definition next_group (m : ImmutableMap) (group : nat) : nat :=
  if (groups m <=? S group)%nat then O else S group.

Definition word_at (m : ImmutableMap) (group : nat) : Z := default 0 (ctrl m !! group).

(** The inner loop of [Get] and [insert]: the first slot of the mask that holds
    [key].  A word has at most 64 bits set. *)
Fixpoint scan (fuel : nat) (mask : Z) (base : nat) (key : K) (ks : list K) : option nat :=
  match fuel with
  | O => None
  | S fuel =>
      if mask =? 0 then None
      else
        let slot := (base + first_lane mask)%nat in
        if decide (ks !! slot = Some key) then Some slot else scan fuel (next_mask mask) base key ks
  end.

Fixpoint get_loop (fuel : nat) (group : nat) (key : K) (m : ImmutableMap) : option V :=
  match fuel with
  | O => None
  | S fuel =>
      let word := word_at m group in
      match scan 64 (matchByte word (h2 key)) (group * 8) key (keys m) with
      | Some slot => vals m !! slot
      | None => if matchEmpty word =? 0 then get_loop fuel (next_group m group) key m else None
      end
  end.

Definition Get (m : ImmutableMap) (key : K) : option V :=
  if len m =? 0 then None else get_loop (groups m) (home m key) key m.

Definition Contains (m : ImmutableMap) (key : K) : bool := match Get m key with Some _ => true | None => false end.
Definition Len (m : ImmutableMap) : Z := len m.

(** The control byte of lane [pos] of a word becomes [b]. *)
Definition set_lane (word : Z) (pos : nat) (b : Z) : Z :=
  let shift := Z.shiftl (Z.of_nat pos) groupShift in
  Z.lor (Z.ldiff word (Z.shiftl byteMask shift)) (Z.shiftl b shift).

(** [insert]; [None] is its panic. *)
Fixpoint insert_loop (fuel : nat) (group : nat) (key : K) (value : V) (m : ImmutableMap) : option ImmutableMap :=
  match fuel with
  | O => None
  | S fuel =>
      let word := word_at m group in
      match scan 64 (matchByte word (h2 key)) (group * 8) key (keys m) with
      | Some slot => Some (mkMap (ctrl m) (keys m) (<[slot := value]> (vals m)) (len m) (groups m))
      | None =>
          let emptyMask := matchEmpty word in
          if emptyMask =? 0 then insert_loop fuel (next_group m group) key value m
          else
            let pos := first_lane emptyMask in
            let slot := (group * 8 + pos)%nat in
            Some (mkMap (<[group := set_lane word pos (h2 key)]> (ctrl m)) (<[slot := key]> (keys m))
                    (<[slot := value]> (vals m)) (len m + 1) (groups m))
      end
  end.
Definition insert (m : ImmutableMap) (key : K) (value : V) : option ImmutableMap :=
  insert_loop (groups m) (home m key) key value m.

Fixpoint insert_all (l : list (K * V)) (m : ImmutableMap) : option ImmutableMap :=
  match l with
  | [] => Some m
  | (k, v) :: l => m ← insert m k v; insert_all l m
  end.

(** [NewImmutableMap]: the entries of the Go map in the order of its iteration. *)
Definition NewImmutableMap (src : list (K * V)) : option ImmutableMap :=
  match src with
  | [] => Some emptyMap
  | _ => insert_all src (allocImmutable (Z.of_nat (length src)))
  end.

Definition NewImmutableMapFromEntries (ks : list K) (vs : list V) : option ImmutableMap :=
  if negb (length ks =? length vs)%nat then None
  else NewImmutableMap (zip ks vs).

(** The slots [All], [Keys] and [Values] visit: those whose control byte has its
    high bit clear. *)
Fixpoint filled_lanes (fuel : nat) (filled : Z) : list nat :=
  match fuel with
  | O => []
  | S fuel => if filled =? 0 then [] else first_lane filled :: filled_lanes fuel (next_mask filled)
  end.
Definition group_slots (g : nat) (word : Z) : list nat :=
  if word =? allEmpty then [] else (fun i => (g * 8 + i)%nat) <$> filled_lanes 64 (Z.land (not64 word) hiBits).
Definition slots (m : ImmutableMap) : list nat := concat (imap group_slots (ctrl m)).

Definition Keys (m : ImmutableMap) : list K := omap (fun s => keys m !! s) (slots m).
Definition Values (m : ImmutableMap) : list V := omap (fun s => vals m !! s) (slots m).
Definition All (m : ImmutableMap) : list (K * V) :=
  omap (fun s => k ← keys m !! s; v ← vals m !! s; Some (k, v)) (slots m).

End table.

Arguments ImmutableMap : clear implicits.
Arguments emptyMap {K V}.

End ImmutableMap.
