(* ===== verification/ImmutableWords.v ===== *)
(** * Control words of the read-only hash table

    A control word seen as its eight bytes: what [matchByte], [matchEmpty] and
    [set_lane] do to each byte, and which lanes the loops over a mask visit. *)

From S2P Require Import Prelude GoBytes ImmutableMap.

Module ImmutableWords.
Import GoBytes ImmutableMap.

(** ** Lanes *)

Definition lane (w : Z) (i : nat) : Z := Z.land (Z.shiftr w (8 * Z.of_nat i)) 255.
(** The high bit of a lane. *)
Definition hi (i : nat) : Z := 8 * Z.of_nat i + 7.

Lemma lane_bit w i b : 0 <= b -> Z.testbit (lane w i) b = (b <? 8) && Z.testbit w (8 * Z.of_nat i + b).
Proof.
  intros Hb. unfold lane. change 255 with (Z.ones 8). rewrite Z.land_spec, Z.shiftr_spec by done.
  rewrite (Z.add_comm b). destruct (Z.ltb_spec b 8).
  - rewrite Z.ones_spec_low by lia. apply andb_true_r.
  - rewrite Z.ones_spec_high by lia. apply andb_false_r.
Qed.

Lemma lane_mod w i : lane w i = (w / 2 ^ (8 * Z.of_nat i)) mod 256.
Proof. unfold lane. change 255 with (Z.ones 8). rewrite Z.land_ones, Z.shiftr_div_pow2 by lia. done. Qed.

Lemma lane_range w i : 0 <= lane w i < 256.
Proof. rewrite lane_mod. apply Z.mod_pos_bound. lia. Qed.

Lemma lane_xor a b i : lane (Z.lxor a b) i = Z.lxor (lane a i) (lane b i).
Proof.
  apply Z.bits_inj'. intros n Hn. rewrite Z.lxor_spec, !lane_bit, Z.lxor_spec by done. by destruct (n <? 8).
Qed.

Lemma byte_high x : 0 <= x < 256 -> Z.testbit x 7 = (128 <=? x).
Proof.
  intros Hx. apply (bool_decide_eq_true_1 (Z.testbit x 7 = (128 <=? x))).
  apply (range_check (fun x => bool_decide (Z.testbit x 7 = (128 <=? x))) 256 x); [by vm_compute|done].
Qed.

Lemma lane_hi w i : Z.testbit w (hi i) = (128 <=? lane w i).
Proof. rewrite <-byte_high, lane_bit by (apply lane_range || lia). done. Qed.

(** ** Masks *)

Definition lanes (m : Z) : list nat := filter (fun i => Z.testbit m (hi i) = true) (seq 0 8).

(** Only the high bits of lanes are set. *)
Definition is_mask (m : Z) : Prop := Z.land m hiBits = m.

Lemma hiBits_bit b : 0 <= b -> Z.testbit hiBits b = existsb (fun i => b =? hi i) (seq 0 8).
Proof.
  intros Hb. destruct (decide (b < 64)) as [Hlt|Hge].
  - apply (bool_decide_eq_true_1 (Z.testbit hiBits b = existsb (fun i => b =? hi i) (seq 0 8))).
    apply (range_check (fun b => bool_decide (Z.testbit hiBits b = existsb (fun i => b =? hi i) (seq 0 8))) 64 b); [by vm_compute|lia].
  - rewrite Z.bits_above_log2 by (done || (change (Z.log2 hiBits) with 63; lia)).
    symmetry. apply not_true_iff_false. rewrite existsb_exists. intros (i & Hi%list_elem_of_In%elem_of_seq & E%Z.eqb_eq).
    unfold hi in E. lia.
Qed.

Lemma hiBits_hi i : (i < 8)%nat -> Z.testbit hiBits (hi i) = true.
Proof.
  intros Hi. rewrite hiBits_bit by (unfold hi; lia). apply existsb_exists. exists i. split; [|by apply Z.eqb_eq].
  apply list_elem_of_In, elem_of_seq. lia.
Qed.

Definition spread (f : nat -> bool) : Z := foldr (fun i acc => Z.lor (if f i then 2 ^ hi i else 0) acc) 0 (seq 0 8).

Lemma foldr_lor_bit (f : nat -> bool) l b :
  0 <= b -> Z.testbit (foldr (fun i acc => Z.lor (if f i then 2 ^ hi i else 0) acc) 0 l) b = existsb (fun i => f i && (b =? hi i)) l.
Proof.
  intros Hb. induction l as [|i l IH]; cbn [foldr existsb]; [apply Z.testbit_0_l|]. rewrite Z.lor_spec, IH. f_equal.
  destruct (f i); [|apply Z.testbit_0_l]. cbn. rewrite Z.pow2_bits_eqb by (unfold hi; lia). apply Z.eqb_sym.
Qed.

Lemma mask_spread m : is_mask m -> m = spread (fun i => Z.testbit m (hi i)).
Proof.
  intros Hm. apply Z.bits_inj'. intros b Hb. unfold spread. rewrite foldr_lor_bit by done. unfold is_mask in Hm. rewrite <-Hm at 1.
  rewrite Z.land_spec, hiBits_bit by done. induction (seq 0 8) as [|i l IH]; cbn [existsb]; [apply andb_false_r|].
  rewrite <-IH. destruct (Z.eqb_spec b (hi i)) as [->|]; [by destruct (Z.testbit m (hi i))|].
  by rewrite andb_false_r.
Qed.

(** The loop over a mask takes its lanes from the lowest: by cases on the eight bits. *)
Definition step_ok (m : Z) : bool :=
  (m =? 0) || (bool_decide (lanes m = first_lane m :: lanes (next_mask m)) && (Z.land (next_mask m) hiBits =? next_mask m)).

Lemma spread_step f : step_ok (spread f) = true /\ (spread f =? 0) = bool_decide (lanes (spread f) = []).
Proof.
  unfold spread. cbn [seq foldr].
  destruct (f 0%nat), (f 1%nat), (f 2%nat), (f 3%nat), (f 4%nat), (f 5%nat), (f 6%nat), (f 7%nat); vm_compute; by split.
Qed.

Lemma mask_step m : is_mask m -> m <> 0 -> lanes m = first_lane m :: lanes (next_mask m) /\ is_mask (next_mask m).
Proof.
  intros Hm Hz. pose proof (proj1 (spread_step (fun i => Z.testbit m (hi i)))) as Hs. rewrite <-(mask_spread m Hm) in Hs.
  unfold step_ok in Hs. apply orb_true_iff in Hs as [?%Z.eqb_eq|[E%bool_decide_eq_true_1 Hn%Z.eqb_eq]%andb_true_iff]; done.
Qed.

Lemma mask_zero m : is_mask m -> m = 0 <-> lanes m = [].
Proof.
  intros Hm. pose proof (proj2 (spread_step (fun i => Z.testbit m (hi i)))) as Hs. rewrite <-(mask_spread m Hm) in Hs.
  split; intros E.
  - by rewrite E.
  - apply Z.eqb_eq. rewrite Hs. by apply bool_decide_eq_true_2.
Qed.

Lemma land_hiBits_mask x : is_mask (Z.land x hiBits).
Proof. unfold is_mask. by rewrite <-Z.land_assoc, Z.land_diag. Qed.

Lemma elem_of_lanes m i : i ∈ lanes m <-> (i < 8)%nat /\ Z.testbit m (hi i) = true.
Proof. unfold lanes. rewrite list_elem_of_filter, elem_of_seq. intuition lia. Qed.

Lemma lanes_short m : (length (lanes m) <= 8)%nat.
Proof. unfold lanes. rewrite length_filter. by rewrite length_seq. Qed.

Lemma first_lane_ok m : is_mask m -> m <> 0 -> first_lane m ∈ lanes m.
Proof. intros Hm Hz. destruct (mask_step m Hm Hz) as [-> _]. by left. Qed.

(** ** The searches *)

Lemma not64_bit x b : 0 <= b < 64 -> Z.testbit (not64 x) b = negb (Z.testbit x b).
Proof.
  intros Hb. unfold not64. rewrite Z.lxor_spec. change (2 ^ 64 - 1) with (Z.ones 64).
  rewrite Z.ones_spec_low by lia. by destruct (Z.testbit x b).
Qed.

Lemma u64_bit x b : 0 <= b < 64 -> Z.testbit (u64 x) b = Z.testbit x b.
Proof. intros Hb. unfold u64. apply Z.mod_pow2_bits_low. lia. Qed.

Lemma hi_range i : (i < 8)%nat -> 0 <= hi i < 64.
Proof. unfold hi. lia. Qed.

(** A subtraction seen from lane [i]: the lane may have to lend one. *)
Lemma div_sub_borrow a b p : 0 < p -> exists c, 0 <= c <= 1 /\ (a - b) / p = a / p - b / p - c.
Proof.
  intros Hp. pose proof (Z.mod_pos_bound a p Hp). pose proof (Z.mod_pos_bound b p Hp).
  pose proof (Z.div_mod a p ltac:(lia)). pose proof (Z.div_mod b p ltac:(lia)).
  destruct (decide (b mod p <= a mod p)).
  - exists 0. split; [lia|]. symmetry. apply (Z.div_unique _ _ _ (a mod p - b mod p)); [lia|]. nia.
  - exists 1. split; [lia|]. symmetry. apply (Z.div_unique _ _ _ (a mod p - b mod p + p)); [lia|]. nia.
Qed.

Lemma lane_lo i : (i < 8)%nat -> (loBits / 2 ^ (8 * Z.of_nat i)) mod 256 = 1.
Proof. intros Hi. do 8 (destruct i as [|i]; [reflexivity|]). lia. Qed.

Lemma lane_sub_lo d i : (i < 8)%nat -> exists c, 0 <= c <= 1 /\ lane (d - loBits) i = (lane d i - 1 - c) mod 256.
Proof.
  intros Hi. destruct (div_sub_borrow d loBits (2 ^ (8 * Z.of_nat i))) as (c & Hc & E); [lia|]. exists c. split; [done|].
  rewrite !lane_mod, E. pose proof (lane_lo i Hi) as Hl.
  generalize dependent (loBits / 2 ^ (8 * Z.of_nat i)). generalize (d / 2 ^ (8 * Z.of_nat i)). intros. lia_mod.
Qed.

Lemma lane_broadcast n i : 0 <= n < 256 -> (i < 8)%nat -> lane (u64 (n * loBits)) i = n.
Proof.
  intros Hn Hi. rewrite lane_mod. unfold u64. rewrite (Z.mod_small (n * loBits)) by (unfold loBits; lia).
  unfold loBits. do 8 (destruct i as [|i]; [cbn; lia_mod|]). lia.
Qed.

Lemma matchByte_hi w n i :
  0 <= n < 128 -> (i < 8)%nat ->
  (lane w i = n -> Z.testbit (matchByte w n) (hi i) = true) /\
  (Z.testbit (matchByte w n) (hi i) = true -> lane w i < 128).
Proof.
  intros Hn Hi. pose proof (hi_range i Hi) as Hr. unfold matchByte. cbv zeta. set (d := Z.lxor w _).
  rewrite !Z.land_spec, hiBits_hi, not64_bit, u64_bit, !lane_hi, andb_true_r by done.
  assert (lane d i = Z.lxor (lane w i) n) as Hd by (unfold d; rewrite lane_xor, lane_broadcast by (lia || done); done).
  destruct (lane_sub_lo d i Hi) as (c & Hc & ->). split.
  - intros E. rewrite Hd, E, Z.lxor_nilpotent. cbn. rewrite andb_true_r. apply Z.leb_le. lia_mod.
  - intros [_ Hb%negb_true_iff]%andb_true_iff. rewrite <-lane_hi in Hb. rewrite lane_hi in Hb.
    rewrite <-byte_high, Hd, Z.lxor_spec, !byte_high in Hb by (apply lane_range || lia).
    destruct (Z.leb_spec 128 n); [lia|]. rewrite xorb_false_r in Hb. lia.
Qed.

Lemma matchEmpty_hi w i : lane w i <= 128 -> (i < 8)%nat -> Z.testbit (matchEmpty w) (hi i) = (lane w i =? 128).
Proof.
  intros Hw Hi. pose proof (hi_range i Hi). unfold matchEmpty.
  rewrite !Z.land_spec, hiBits_hi, not64_bit, u64_bit, lane_hi, andb_true_r by done.
  rewrite Z.shiftl_spec by lia. pose proof (lane_bit w i 6 ltac:(lia)) as H6. cbn [Z.ltb andb] in H6.
  replace (hi i - 1) with (8 * Z.of_nat i + 6) by (unfold hi; lia). change (6 <? 8) with true in H6. cbn [andb] in H6. rewrite <-H6.
  pose proof (lane_range w i). destruct (Z.leb_spec 128 (lane w i)).
  - assert (lane w i = 128) as -> by lia. done.
  - cbn [andb]. symmetry. apply Z.eqb_neq. lia.
Qed.

Lemma filled_hi w i : (i < 8)%nat -> Z.testbit (Z.land (not64 w) hiBits) (hi i) = (lane w i <? 128).
Proof.
  intros Hi. rewrite Z.land_spec, hiBits_hi, not64_bit, lane_hi, andb_true_r by (done || by apply hi_range).
  rewrite Z.leb_antisym. apply negb_involutive.
Qed.

Lemma lane_allEmpty i : (i < 8)%nat -> lane allEmpty i = 128.
Proof. intros Hi. do 8 (destruct i as [|i]; [reflexivity|]). lia. Qed.

(** ** Writing a lane *)

Lemma lane_set w i j b : 0 <= b < 256 -> (i < 8)%nat -> (j < 8)%nat -> lane (set_lane w i b) j = if decide (i = j) then b else lane w j.
Proof.
  intros Hb Hi Hj. unfold set_lane, byteMask, groupShift. cbv zeta. rewrite (Z.shiftl_mul_pow2 (Z.of_nat i)) by lia.
  change 255 with (Z.ones 8). apply Z.bits_inj'. intros n Hn.
  rewrite lane_bit, Z.lor_spec, Z.ldiff_spec, !Z.shiftl_spec by lia. case_decide as E.
  - subst j. replace (8 * Z.of_nat i + n - Z.of_nat i * 2 ^ 3) with n by lia. destruct (Z.ltb_spec n 8) as [Hl|Hl].
    + rewrite Z.ones_spec_low by lia. by rewrite andb_false_r.
    + symmetry. apply (Z.bits_above_log2 b n); [lia|]. destruct (decide (b = 0)) as [->|]; [cbn; lia|]. apply Z.log2_lt_pow2; [lia|].
      apply Z.lt_le_trans with (2 ^ 8); [lia|]. apply Z.pow_le_mono_r; lia.
  - rewrite lane_bit by done. destruct (Z.ltb_spec n 8) as [Hl|Hl]; [|done]. cbn [andb].
    set (k := 8 * Z.of_nat j + n - Z.of_nat i * 2 ^ 3). destruct (decide (k < 0)) as [Hk|Hk].
    + rewrite !(Z.testbit_neg_r _ k) by done. by rewrite andb_true_r, orb_false_r.
    + rewrite Z.ones_spec_high by (unfold k in *; lia). rewrite (Z.bits_above_log2 b k); [by rewrite andb_true_r, orb_false_r|lia|].
      destruct (decide (b = 0)) as [->|]; [cbn; unfold k; lia|]. apply Z.log2_lt_pow2; [lia|].
      apply Z.lt_le_trans with (2 ^ 8); [lia|]. apply Z.pow_le_mono_r; unfold k in *; lia.
Qed.

End ImmutableWords.
