(* ===== verification/ImmutableMapTheorems.v ===== *)
(** * The read-only hash table is a finite map

    The invariant of the table, that [Get] finds what it holds, that [insert]
    keeps it and never panics while a slot is free, and that a table built from
    any entries is the map of those entries. *)

From S2P Require Import Prelude ImmutableMap ImmutableWords.

Module ImmutableMapTheorems.
Import ImmutableMap ImmutableWords.

(** One more element satisfies the predicate. *)
Lemma filter_add {A} (P P' : A -> Prop) `{!forall x, Decision (P x)} `{!forall x, Decision (P' x)} (a : A) (l : list A) :
  NoDup l -> a ∈ l -> ~ P a -> (forall x, x ∈ l -> P' x <-> P x \/ x = a) -> length (filter P' l) = S (length (filter P l)).
Proof.
  induction l as [|x l IH]; intros Hl Ha Hn Hp; [by apply elem_of_nil in Ha|]. apply NoDup_cons in Hl as [Hx Hl].
  pose proof (Hp x ltac:(by left)) as Hpx. assert (forall y, y ∈ l -> P' y <-> P y \/ y = a) as Hpl by (intros; apply Hp; by right).
  rewrite !filter_cons. apply elem_of_cons in Ha as [->|Ha].
  - rewrite decide_True, decide_False by tauto. cbn [length]. do 2 f_equal. apply filter_ext_in.
    intros y Hy. rewrite Hpl by done. split; [by intros [?| ->]|by left].
  - assert (x <> a) by (by intros ->). specialize (IH Hl Ha Hn Hpl). do 2 case_decide; cbn [length]; (naive_solver lia).
Qed.

Section table.
Context {K V : Type} `{EqDecision K} (hash : K -> Z).

Abbreviation imap_ := (ImmutableMap K V).
Abbreviation h2 := (ImmutableMap.h2 hash).
Abbreviation home := (ImmutableMap.home hash).
Implicit Types (m : ImmutableMap K V) (key : K) (v : V).

(** ** The invariant *)

Definition tag m (s : nat) : Z := lane (word_at m (s / 8)) (s mod 8).
Definition occ m (s : nat) : Prop := (s < 8 * groups m)%nat /\ tag m s < 128.
Definition full m (g : nat) : Prop := forall i, (i < 8)%nat -> lane (word_at m g) i < 128.
(** The group the search for [key] reaches after [d] steps. *)
Definition probe m key (d : nat) : nat := ((home m key + d) mod groups m)%nat.
Definition at_ m (s : nat) key : Prop := occ m s /\ keys m !! s = Some key.
Definition holds m key v : Prop := exists s, at_ m s key /\ vals m !! s = Some v.

#[export] Instance occ_dec m s : Decision (occ m s).
Proof. unfold occ. apply _. Defined.

Record good m : Prop := {
  good_groups : (0 < groups m)%nat;
  good_ctrl : length (ctrl m) = groups m;
  good_keys : length (keys m) = (8 * groups m)%nat;
  good_vals : length (vals m) = (8 * groups m)%nat;
  good_lane : forall g i, (g < groups m)%nat -> (i < 8)%nat -> lane (word_at m g) i <= 128;
  good_tag : forall s key, at_ m s key -> tag m s = h2 key;
  good_uniq : forall s s' key, at_ m s key -> at_ m s' key -> s = s';
  good_probe : forall s key, at_ m s key ->
    exists d, (d < groups m)%nat /\ (s / 8)%nat = probe m key d /\ forall j, (j < d)%nat -> full m (probe m key j);
  good_len : len m = Z.of_nat (length (filter (occ m) (seq 0 (8 * groups m))))
}.

Lemma h2_range key : 0 <= h2 key < 128.
Proof.
  unfold ImmutableMap.h2, h2Mask, h2Bits. change (2 ^ 7 - 1) with (Z.ones 7). rewrite Z.land_ones by lia.
  apply Z.mod_pos_bound. lia.
Qed.

Lemma slot_div g i : (i < 8)%nat -> ((g * 8 + i) / 8)%nat = g.
Proof. intros Hi. rewrite Nat.div_add_l, Nat.div_small by lia. lia. Qed.
Lemma slot_mod g i : (i < 8)%nat -> ((g * 8 + i) mod 8)%nat = i.
Proof. intros Hi. rewrite Nat.add_comm, Nat.Div0.mod_add. by apply Nat.mod_small. Qed.
Lemma slot_split s : s = (s / 8 * 8 + s mod 8)%nat /\ (s mod 8 < 8)%nat.
Proof. pose proof (Nat.div_mod_eq s 8). pose proof (Nat.mod_upper_bound s 8). lia. Qed.

Lemma tag_slot m g i : (i < 8)%nat -> tag m (g * 8 + i) = lane (word_at m g) i.
Proof. intros Hi. unfold tag. by rewrite slot_div, slot_mod. Qed.

Lemma probe_lt m key d : good m -> (probe m key d < groups m)%nat.
Proof. intros Hg. apply Nat.mod_upper_bound. pose proof (good_groups m Hg). lia. Qed.

Lemma home_lt m key : good m -> (home m key < groups m)%nat.
Proof.
  intros Hg. pose proof (good_groups m Hg). unfold ImmutableMap.home.
  pose proof (Z.mod_pos_bound (Z.shiftr (hash key) h2Bits) (Z.of_nat (groups m)) ltac:(lia)). lia.
Qed.

Lemma probe_0 m key : good m -> probe m key 0 = home m key.
Proof. intros Hg. unfold probe. rewrite Nat.add_0_r. by apply Nat.mod_small, home_lt. Qed.

Lemma next_probe m key d : good m -> next_group m (probe m key d) = probe m key (S d).
Proof.
  intros Hg. pose proof (good_groups m Hg) as Hp. unfold next_group, probe. rewrite Nat.add_succ_r, <-(Nat.add_1_r (home m key + d)).
  rewrite <-(Nat.Div0.add_mod_idemp_l (home m key + d) 1).
  pose proof (Nat.mod_upper_bound (home m key + d) (groups m) ltac:(lia)) as Hu. set (x := ((home m key + d) mod groups m)%nat) in *.
  destruct (Nat.leb_spec (groups m) (S x)) as [Hl|Hl].
  - replace (x + 1)%nat with (groups m) by lia. by rewrite Nat.Div0.mod_same.
  - rewrite Nat.mod_small by lia. lia.
Qed.

(** Every group is on the way. *)
Lemma probe_all m key g : good m -> (g < groups m)%nat -> exists d, (d < groups m)%nat /\ probe m key d = g.
Proof.
  intros Hg Hl. pose proof (home_lt m key Hg) as Hh. destruct (decide (home m key <= g)%nat).
  - exists (g - home m key)%nat. split; [lia|]. unfold probe. rewrite Nat.mod_small; lia.
  - exists (g + groups m - home m key)%nat. split; [lia|]. unfold probe.
    replace (home m key + (g + groups m - home m key))%nat with (g + 1 * groups m)%nat by lia.
    rewrite Nat.Div0.mod_add. by apply Nat.mod_small.
Qed.

(** ** Searching a group *)

Lemma scan_spec fuel mask base key ks :
  is_mask mask -> (length (lanes mask) < fuel)%nat ->
  match scan fuel mask base key ks with
  | Some s => exists i, i ∈ lanes mask /\ s = (base + i)%nat /\ ks !! s = Some key
  | None => forall i, i ∈ lanes mask -> ks !! (base + i)%nat <> Some key
  end.
Proof.
  revert mask. induction fuel as [|fuel IH]; intros mask Hm Hf; [lia|]. cbn [scan].
  destruct (Z.eqb_spec mask 0) as [E|E].
  { apply mask_zero in E as ->; [|done]. by intros i ?%elem_of_nil. }
  destruct (mask_step mask Hm E) as [El Hn]. rewrite El in *. cbn [length] in Hf. cbv zeta.
  case_decide as Hk; [eexists; split_and!; [by left|done|done]|].
  specialize (IH _ Hn ltac:(lia)). destruct (scan _ _ _ _ _).
  - destruct IH as (i & Hi & ? & ?). exists i. split_and!; [by right|done|done].
  - intros i [-> |Hi]%elem_of_cons; [done|by apply IH].
Qed.

Lemma search_spec m g key :
  good m -> (g < groups m)%nat ->
  match scan 64 (matchByte (word_at m g) (h2 key)) (g * 8) key (keys m) with
  | Some s => at_ m s key /\ (s / 8)%nat = g
  | None => forall s, at_ m s key -> (s / 8)%nat <> g
  end.
Proof.
  intros Hg Hl. pose proof (h2_range key) as Hh.
  pose proof (scan_spec 64 (matchByte (word_at m g) (h2 key)) (g * 8) key (keys m)) as Hs.
  pose proof (lanes_short (matchByte (word_at m g) (h2 key))). specialize (Hs (land_hiBits_mask _) ltac:(lia)).
  destruct (scan _ _ _ _ _) as [s|].
  - destruct Hs as (i & [Hi Hb]%elem_of_lanes & -> & Hk). rewrite slot_div by done. split; [|done]. split; [|done].
    split; [lia|]. rewrite tag_slot by done. by apply (matchByte_hi _ _ _ Hh Hi).
  - intros s Hat Hd. destruct (slot_split s) as [Es Hm]. rewrite Hd in Es. apply (Hs (s mod 8)%nat).
    + apply elem_of_lanes. split; [done|]. apply (matchByte_hi _ _ _ Hh Hm). rewrite <-tag_slot, <-Es by done.
      by apply good_tag.
    + rewrite <-Es. apply Hat.
Qed.

Lemma empty_spec m g :
  good m -> (g < groups m)%nat ->
  if matchEmpty (word_at m g) =? 0 then full m g
  else let pos := first_lane (matchEmpty (word_at m g)) in (pos < 8)%nat /\ lane (word_at m g) pos = 128.
Proof.
  intros Hg Hl. destruct (Z.eqb_spec (matchEmpty (word_at m g)) 0) as [E|E].
  - intros i Hi. pose proof (good_lane m Hg g i Hl Hi) as Hw. pose proof (matchEmpty_hi _ i Hw Hi) as Hb.
    rewrite E, Z.testbit_0_l in Hb. symmetry in Hb. apply Z.eqb_neq in Hb. lia.
  - pose proof (first_lane_ok _ (land_hiBits_mask _) E) as [Hp Hb]%elem_of_lanes. split; [done|].
    fold (matchEmpty (word_at m g)) in Hp, Hb. rewrite matchEmpty_hi in Hb by (done || by apply good_lane). by apply Z.eqb_eq in Hb.
Qed.

(** ** Get *)

Lemma get_loop_spec m key fuel j :
  good m -> (j + fuel = groups m)%nat ->
  match get_loop hash fuel (probe m key j) key m with
  | Some v => holds m key v
  | None => forall s d, (j <= d < groups m)%nat -> (forall i, (j <= i < d)%nat -> full m (probe m key i)) ->
      at_ m s key -> (s / 8)%nat <> probe m key d
  end.
Proof.
  intros Hg. revert j. induction fuel as [|fuel IH]; intros j Hj; cbn [get_loop]; [lia|].
  pose proof (probe_lt m key j Hg) as Hp. pose proof (search_spec m _ key Hg Hp) as Hs. cbv zeta.
  destruct (scan _ _ _ _ _) as [s|].
  { destruct Hs as [Hat _]. destruct (lookup_lt_is_Some_2 (vals m) s) as [v Hv]; [|rewrite Hv; by exists s].
    rewrite good_vals by done. apply Hat. }
  pose proof (empty_spec m _ Hg Hp) as He. destruct (matchEmpty _ =? 0).
  - rewrite next_probe by done. specialize (IH (S j) ltac:(lia)). destruct (get_loop _ _ _ _ _); [done|].
    intros s d Hd Hfull Hat. destruct (decide (d = j)) as [->|Hne]; [by apply Hs|].
    apply IH; [lia|intros; apply Hfull; lia|done].
  - cbn in He. destruct He as [Hpos Hlane]. intros s d Hd Hfull Hat. destruct (decide (d = j)) as [->|Hne]; [by apply Hs|].
    specialize (Hfull j ltac:(lia) _ Hpos). lia.
Qed.

Lemma holds_fun m key v v' : good m -> holds m key v -> holds m key v' -> v = v'.
Proof.
  intros Hg (s & Hs & Hv) (s' & Hs' & Hv'). pose proof (good_uniq m Hg _ _ _ Hs Hs') as ->. congruence.
Qed.

Lemma good_zero m s : good m -> len m = 0 -> ~ occ m s.
Proof.
  intros Hg Hz Ho. pose proof (good_len m Hg) as Hl. rewrite Hz in Hl.
  assert (s ∈ filter (occ m) (seq 0 (8 * groups m))) as Hin.
  { apply list_elem_of_filter. split; [done|]. apply elem_of_seq. destruct Ho. lia. }
  destruct (filter (occ m) _); [by apply elem_of_nil in Hin|]. cbn in Hl. lia.
Qed.

Lemma Get_spec m key v : good m -> Get hash m key = Some v <-> holds m key v.
Proof.
  intros Hg. unfold Get. destruct (Z.eqb_spec (len m) 0) as [Hz|Hz].
  { split; [done|]. intros (s & [Ho _] & _). by apply good_zero in Ho. }
  pose proof (get_loop_spec m key (groups m) 0 Hg ltac:(lia)) as Hl. rewrite probe_0 in Hl by done.
  destruct (get_loop _ _ _ _ _) as [v'|].
  - split; [by intros [= ->]|]. intros Hv. by rewrite (holds_fun m key v v').
  - split; [done|]. intros (s & Hat & _). destruct (good_probe m Hg s key Hat) as (d & Hd & Ed & Hfull).
    exfalso. apply (Hl s d); [lia|intros; apply Hfull; lia|done..].
Qed.

(** ** Insertion *)

(** The key was there: its value is replaced. *)
Definition overwritten m (s : nat) v : ImmutableMap K V := mkMap (ctrl m) (keys m) (<[s := v]> (vals m)) (len m) (groups m).

(** The key is new: it takes the free slot [pos] of group [g]. *)
Definition placed m (g pos : nat) key v : ImmutableMap K V :=
  mkMap (<[g := set_lane (word_at m g) pos (h2 key)]> (ctrl m)) (<[(g * 8 + pos)%nat := key]> (keys m))
    (<[(g * 8 + pos)%nat := v]> (vals m)) (len m + 1) (groups m).

Lemma insert_loop_spec m key v fuel j :
  good m -> (j + fuel = groups m)%nat ->
  (forall i, (i < j)%nat -> full m (probe m key i) /\ forall s, at_ m s key -> (s / 8)%nat <> probe m key i) ->
  match insert_loop hash fuel (probe m key j) key v m with
  | Some m' =>
      (exists s, at_ m s key /\ m' = overwritten m s v) \/
      (exists d pos, (d < groups m)%nat /\ (pos < 8)%nat /\ lane (word_at m (probe m key d)) pos = 128 /\
         (forall i, (i < d)%nat -> full m (probe m key i)) /\ (forall s, ~ at_ m s key) /\
         m' = placed m (probe m key d) pos key v)
  | None => forall i, (i < groups m)%nat -> full m (probe m key i)
  end.
Proof.
  intros Hg. revert j. induction fuel as [|fuel IH]; intros j Hj Hbefore; cbn [insert_loop].
  { intros i Hi. apply Hbefore. lia. }
  pose proof (probe_lt m key j Hg) as Hp. pose proof (search_spec m _ key Hg Hp) as Hs. cbv zeta.
  destruct (scan _ _ _ _ _) as [s|]; [left; exists s; split; [apply Hs|done]|].
  pose proof (empty_spec m _ Hg Hp) as He. destruct (matchEmpty _ =? 0).
  - rewrite next_probe by done. apply IH; [lia|]. intros i Hi. destruct (decide (i = j)) as [->|]; [done|apply Hbefore; lia].
  - destruct He as [Hpos Hlane]. right. exists j, (first_lane (matchEmpty (word_at m (probe m key j)))).
    split_and!; [lia|done|done|intros i Hi; by apply Hbefore| |done].
    intros s Hat. destruct (good_probe m Hg s key Hat) as (d & Hd & Ed & Hfull).
    destruct (decide (d < j)%nat) as [Hlt|Hge]; [by apply (proj2 (Hbefore d Hlt) s)|].
    destruct (decide (d = j)) as [->|]; [by apply (Hs s)|]. specialize (Hfull j ltac:(lia) _ Hpos). lia.
Qed.

Lemma overwritten_good m s key v : good m -> at_ m s key -> good (overwritten m s v).
Proof. intros [] Hat. split; try done. cbn. by rewrite length_insert. Qed.

Lemma overwritten_holds m s key v k w :
  good m -> at_ m s key -> holds (overwritten m s v) k w <-> if decide (k = key) then w = v else holds m k w.
Proof.
  intros Hg Hat. unfold holds. change (at_ (overwritten m s v)) with (at_ m). cbn [vals overwritten].
  assert (s < length (vals m))%nat as Hl by (rewrite good_vals by done; apply Hat). case_decide as E.
  - subst k. split.
    + intros (s' & Hat' & Hv). rewrite (good_uniq m Hg _ _ _ Hat' Hat), list_lookup_insert_eq in Hv by done. congruence.
    + intros ->. exists s. by rewrite list_lookup_insert_eq.
  - assert (forall s', at_ m s' k -> s <> s') as Hne.
    { intros s' [_ Hk] ->. destruct Hat as [_ Hk']. congruence. }
    split; intros (s' & Hat' & Hv); exists s'; rewrite list_lookup_insert_ne in * by (by apply Hne); done.
Qed.

Section placed.
Context m key v (g pos d : nat).
Context (Hg : good m) (Hd : (d < groups m)%nat) (Eg : g = probe m key d) (Hpos : (pos < 8)%nat).
Context (Hfree : lane (word_at m g) pos = 128) (Hfull : forall i, (i < d)%nat -> full m (probe m key i)).
Context (Hnew : forall s, ~ at_ m s key).
Abbreviation slot := (g * 8 + pos)%nat.
Abbreviation m' := (placed m g pos key v).

Lemma placed_group : (g < groups m)%nat.
Proof using All. rewrite Eg. by apply probe_lt. Qed.

Lemma placed_word g' : word_at m' g' = if decide (g' = g) then set_lane (word_at m g) pos (h2 key) else word_at m g'.
Proof using All.
  unfold word_at at 1. cbn [ctrl placed]. case_decide as E.
  - subst g'. rewrite list_lookup_insert_eq; [done|]. rewrite good_ctrl by done. apply placed_group.
  - by rewrite list_lookup_insert_ne.
Qed.

Lemma placed_lane g' i :
  (i < 8)%nat -> lane (word_at m' g') i = if decide (g' = g /\ i = pos) then h2 key else lane (word_at m g') i.
Proof using All.
  intros Hi. rewrite placed_word. destruct (decide (g' = g)) as [->|]; [|by rewrite decide_False by (by intros [])].
  pose proof (h2_range key). rewrite lane_set by (done || lia). destruct (decide (pos = i)) as [->|]; [by rewrite decide_True|].
  by rewrite decide_False by (intros [_ ->]; done).
Qed.

Lemma placed_tag s : tag m' s = if decide (s = slot) then h2 key else tag m s.
Proof using All.
  destruct (slot_split s) as [Es Hs]. unfold tag. rewrite placed_lane by done.
  destruct (decide (s = slot)) as [->|Hne]; [by rewrite slot_div, slot_mod, decide_True|].
  rewrite decide_False; [done|]. intros [E E']. rewrite E, E' in Es. done.
Qed.

Lemma placed_occ s : occ m' s <-> occ m s \/ s = slot.
Proof using All.
  unfold occ. rewrite placed_tag. change (groups m') with (groups m). pose proof (h2_range key). pose proof placed_group.
  case_decide as E; [subst s; split; [by right|]; intros _; split; lia|]. split; [tauto|]. intros [?|?]; [done|tauto].
Qed.

Lemma placed_free : ~ occ m slot.
Proof using All. unfold occ. rewrite tag_slot by done. lia. Qed.

Lemma placed_at s k : at_ m' s k <-> (s = slot /\ k = key) \/ (s <> slot /\ at_ m s k).
Proof using All.
  unfold at_. rewrite placed_occ. cbn [keys placed]. pose proof placed_group as Hl. destruct (decide (s = slot)) as [->|Hne].
  - rewrite list_lookup_insert_eq by (rewrite good_keys by done; lia). pose proof placed_free.
    split; [intros [_ [= ->]]; by left|]. intros [[_ ->]|[? _]]; [|done]. by split; [right|].
  - rewrite list_lookup_insert_ne by done. tauto.
Qed.

Lemma placed_full g' : full m g' -> full m' g'.
Proof using All.
  intros Hf i Hi. rewrite placed_lane by done. pose proof (h2_range key). case_decide; [lia|by apply Hf].
Qed.

Lemma placed_good : good m'.
Proof using All.
  pose proof placed_group as Hl. split; cbn [ctrl keys vals groups len placed].
  - by apply good_groups.
  - rewrite length_insert. by apply good_ctrl.
  - rewrite length_insert. by apply good_keys.
  - rewrite length_insert. by apply good_vals.
  - intros g' i Hg' Hi. rewrite placed_lane by done. pose proof (h2_range key). case_decide; [lia|by apply good_lane].
  - intros s k [[-> ->]|[Hne Hat]]%placed_at; rewrite placed_tag; [by rewrite decide_True|].
    rewrite decide_False by done. by apply good_tag.
  - intros s s' k [[-> ->]|[Hne Hat]]%placed_at [[-> E]|[Hne' Hat']]%placed_at; try done.
    + by apply Hnew in Hat'.
    + subst k. by apply Hnew in Hat.
    + by eapply good_uniq.
  - intros s k [[-> ->]|[Hne Hat]]%placed_at.
    + exists d. rewrite slot_div by done. split_and!; [done|done|]. intros j Hj. apply placed_full. by apply Hfull.
    + destruct (good_probe m Hg s k Hat) as (d' & ? & ? & Hf). exists d'. split_and!; [done|done|].
      intros j Hj. apply placed_full. by apply Hf.
  - rewrite (filter_add (occ m) (occ m') slot).
    + rewrite good_len by done. lia.
    + apply NoDup_seq.
    + apply elem_of_seq. lia.
    + apply placed_free.
    + intros x _. apply placed_occ.
Qed.

Lemma placed_holds k w : holds m' k w <-> if decide (k = key) then w = v else holds m k w.
Proof using All.
  unfold holds. cbn [vals placed]. pose proof placed_group as Hl. setoid_rewrite placed_at.
  assert (slot < length (vals m))%nat as Hv by (rewrite good_vals by done; lia). case_decide as E.
  - subst k. split.
    + intros (s & [[-> _]|[_ Hat]] & Hs); [|by apply Hnew in Hat]. rewrite list_lookup_insert_eq in Hs by done. congruence.
    + intros ->. exists slot. rewrite list_lookup_insert_eq by done. split; [by left|done].
  - split.
    + intros (s & [[_ ->]|[Hne Hat]] & Hs); [done|]. exists s. rewrite list_lookup_insert_ne in Hs by done. done.
    + intros (s & Hat & Hs). exists s. assert (s <> slot) as Hne by (intros ->; apply placed_free, Hat).
      rewrite list_lookup_insert_ne by done. split; [by right|done].
Qed.
End placed.

(** Not all slots are occupied: some group is not full. *)
Lemma not_all_full m key : good m -> len m < 8 * Z.of_nat (groups m) -> ~ forall i, (i < groups m)%nat -> full m (probe m key i).
Proof.
  intros Hg Hlen Hall. rewrite good_len in Hlen by done. rewrite filter_full, length_seq in Hlen; [lia|]. rewrite list.Forall_forall.
  intros s Hs%elem_of_seq. destruct (slot_split s) as [Es Hm].
  destruct (probe_all m key (s / 8) Hg) as (d & Hd & Ed).
  { apply Nat.Div0.div_lt_upper_bound. lia. }
  split; [lia|]. rewrite Es, tag_slot by done. rewrite <-Ed. by apply Hall.
Qed.

(** [insert] writes the entry and leaves the others. *)
Lemma insert_spec m key v :
  good m -> len m < 8 * Z.of_nat (groups m) ->
  exists m', insert hash m key v = Some m' /\ good m' /\ groups m' = groups m /\ len m' <= len m + 1 /\
    forall k w, holds m' k w <-> if decide (k = key) then w = v else holds m k w.
Proof.
  intros Hg Hlen. unfold insert. rewrite <-probe_0 by done.
  pose proof (insert_loop_spec m key v (groups m) 0 Hg ltac:(lia) ltac:(lia)) as Hl.
  destruct (insert_loop _ _ _ _ _ _) as [m'|]; [|by apply not_all_full in Hl].
  exists m'. split; [done|]. destruct Hl as [(s & Hat & ->)|(d & pos & Hd & Hpos & Hfree & Hfull & Hnew & ->)].
  - split_and!; [by eapply overwritten_good|done|cbn; lia|]. intros k w. by apply overwritten_holds.
  - split_and!; [by eapply placed_good|done|done|]. intros k w. by eapply placed_holds.
Qed.

(** ** Iteration *)

Lemma filled_lanes_eq fuel mask : is_mask mask -> (length (lanes mask) < fuel)%nat -> filled_lanes fuel mask = lanes mask.
Proof.
  revert mask. induction fuel as [|fuel IH]; intros mask Hm Hf; [lia|]. cbn [filled_lanes].
  destruct (Z.eqb_spec mask 0) as [E|E]; [symmetry; by apply mask_zero|].
  destruct (mask_step mask Hm E) as [El Hn]. rewrite El in *. cbn [length] in Hf. rewrite IH by (done || lia). done.
Qed.

Lemma group_slots_eq m g : (g < groups m)%nat -> group_slots g (word_at m g) = filter (occ m) (seq (g * 8) 8).
Proof.
  intros Hg. assert (filter (occ m) (seq (g * 8) 8) = (fun i => (g * 8 + i)%nat) <$> lanes (Z.land (not64 (word_at m g)) hiBits)) as ->.
  { replace (seq (g * 8) 8) with ((fun i => (g * 8 + i)%nat) <$> seq 0 8)
      by (symmetry; rewrite <-(Nat.add_0_r (g * 8)) at 1; symmetry; apply (fmap_add_seq (g * 8) 0 8)).
    unfold lanes. rewrite filter_fmap. f_equal. apply filter_ext_in.
    intros i Hi%elem_of_seq. unfold compose, occ. rewrite tag_slot, filled_hi by lia. rewrite Z.ltb_lt. intuition lia. }
  unfold group_slots. destruct (Z.eqb_spec (word_at m g) allEmpty) as [->|_]; [reflexivity|].
  rewrite filled_lanes_eq; [done|apply land_hiBits_mask|]. pose proof (lanes_short (Z.land (not64 (word_at m g)) hiBits)). lia.
Qed.

Lemma slots_eq m : length (ctrl m) = groups m -> slots m = filter (occ m) (seq 0 (8 * groups m)).
Proof.
  intros Hl. unfold slots.
  assert (imap group_slots (ctrl m) = (fun g => filter (occ m) (seq (g * 8) 8)) <$> seq 0 (groups m)) as ->.
  { apply list_eq. intros g. rewrite list_lookup_imap, list_lookup_fmap. destruct (decide (g < groups m)%nat) as [Hg|Hg].
    - rewrite lookup_seq_lt by done. destruct (lookup_lt_is_Some_2 (ctrl m) g) as [w Hw]; [lia|]. rewrite Hw.
      change (Some (group_slots g w) = Some (filter (occ m) (seq (g * 8) 8))). rewrite <-group_slots_eq by done.
      unfold word_at. by rewrite Hw.
    - rewrite lookup_seq_ge, lookup_ge_None_2 by lia. done. }
  generalize (groups m) as n. clear Hl. intros n. induction n as [|n IH]; [done|].
  rewrite seq_S, fmap_app, concat_app, IH, list_fmap_singleton. cbn [concat]. rewrite app_nil_r, <-filter_app. f_equal.
  replace (8 * S n)%nat with (8 * n + 8)%nat by lia. rewrite seq_app. do 2 f_equal. lia.
Qed.

Lemma elem_of_table_slots m s : good m -> s ∈ slots m <-> occ m s.
Proof.
  intros Hg. rewrite slots_eq by (by apply good_ctrl). rewrite list_elem_of_filter, elem_of_seq. unfold occ. intuition lia.
Qed.

Definition entry m (s : nat) : option (K * V) := k ← keys m !! s; v ← vals m !! s; Some (k, v).

Lemma occ_entry m s : good m -> occ m s -> exists k v, keys m !! s = Some k /\ vals m !! s = Some v /\ entry m s = Some (k, v).
Proof.
  intros Hg [Hs _]. destruct (lookup_lt_is_Some_2 (keys m) s) as [k Hk]; [by rewrite good_keys|].
  destruct (lookup_lt_is_Some_2 (vals m) s) as [v Hv]; [by rewrite good_vals|]. exists k, v. unfold entry. by rewrite Hk, Hv.
Qed.

Lemma elem_of_All m k v : good m -> (k, v) ∈ All m <-> holds m k v.
Proof.
  intros Hg. unfold All. fold (entry m). rewrite list_elem_of_omap. split.
  - intros (s & Hs%elem_of_table_slots & He); [|done]. destruct (occ_entry m s Hg Hs) as (k' & v' & Hk & Hv & E).
    assert (Some (k', v') = Some (k, v)) as [= -> ->] by (rewrite <-E; done). by exists s.
  - intros (s & [Ho Hk] & Hv). exists s. split; [by apply elem_of_table_slots|]. unfold entry. by rewrite Hk, Hv.
Qed.

Lemma omap_all {A B} (f : A -> option B) (l : list A) (Hf : forall x, x ∈ l -> is_Some (f x)) : length (omap f l) = length l.
Proof.
  induction l as [|x l IH]; [done|]. cbn. destruct (Hf x ltac:(by left)) as [y ->]. cbn. f_equal. apply IH.
  intros z Hz. apply Hf. by right.
Qed.

Lemma omap_fmap_entry {A} (f : K * V -> A) (h : nat -> option A) m (l : list nat) :
  (forall s, s ∈ l -> exists e, entry m s = Some e /\ h s = Some (f e)) -> omap h l = f <$> omap (entry m) l.
Proof.
  induction l as [|s l IH]; intros Hl; [done|]. cbn. destruct (Hl s ltac:(by left)) as (e & -> & ->). cbn. f_equal. apply IH.
  intros s' Hs'. apply Hl. by right.
Qed.

Lemma Keys_All m : good m -> Keys m = (All m).*1 /\ Values m = (All m).*2.
Proof.
  intros Hg. unfold Keys, Values, All. fold (entry m). split; apply omap_fmap_entry; intros s Hs%elem_of_table_slots; try done;
    destruct (occ_entry m s Hg Hs) as (k & v & Hk & Hv & E); exists (k, v); by rewrite Hk || rewrite Hv.
Qed.

Lemma NoDup_Keys m : good m -> NoDup (Keys m).
Proof.
  intros Hg. unfold Keys. assert (NoDup (slots m)) as Hn.
  { rewrite slots_eq by (by apply good_ctrl). apply NoDup_filter, NoDup_seq. }
  assert (forall s, s ∈ slots m -> occ m s) as Ho by (intros s; by apply elem_of_table_slots).
  induction (slots m) as [|s l IH]; [constructor|]. apply NoDup_cons in Hn as [Hs Hn]. cbn.
  assert (NoDup (omap (fun s => keys m !! s) l)) as Hl by (apply IH; [done|intros; apply Ho; by right]).
  destruct (keys m !! s) as [k|] eqn:Hk; [|done]. apply NoDup_cons. split; [|done].
  intros (s' & Hs' & Hk')%list_elem_of_omap. apply Hs.
  rewrite (good_uniq m Hg s s' k); [done|..]; (split; [apply Ho|done]); [by left|by right].
Qed.

Lemma Len_All m : good m -> len m = Z.of_nat (length (All m)).
Proof.
  intros Hg. unfold All. fold (entry m). rewrite omap_all.
  - rewrite slots_eq by (by apply good_ctrl). by apply good_len.
  - intros s Hs%elem_of_table_slots; [|done]. destruct (occ_entry m s Hg Hs) as (k & v & _ & _ & E). by exists (k, v).
Qed.

End table.

(** ** Construction *)

Lemma nextGroupMultiple_spec x : 0 <= x -> x <= nextGroupMultiple x /\ nextGroupMultiple x = 8 * (nextGroupMultiple x / 8).
Proof.
  intros Hx. assert (nextGroupMultiple x = (x + 7) / 8 * 8) as ->; [|lia_mod].
  unfold nextGroupMultiple, groupSize. change (8 - 1) with (Z.ones 3). rewrite <-Z.ldiff_land.
  rewrite Z.ldiff_ones_r, Z.shiftl_mul_pow2, Z.shiftr_div_pow2 by lia. f_equal. f_equal. change (2 ^ 3) with 8. f_equal. lia.
Qed.

Section construction.
Context {K V : Type} `{Countable K} (zeroK : K) (zeroV : V) (hash : K -> Z).
Implicit Types (m : ImmutableMap K V) (M : gmap K V).

(** The Go map that the same assignments give. *)
Definition assign (M : gmap K V) (l : list (K * V)) : gmap K V := foldl (fun M e => <[e.1 := e.2]> M) M l.

Definition represents m M : Prop := forall k v, holds m k v <-> M !! k = Some v.

Lemma insert_entries_spec l m M :
  good hash m -> represents m M -> len m + Z.of_nat (length l) <= 8 * Z.of_nat (groups m) ->
  exists m', insert_all hash l m = Some m' /\ good hash m' /\ represents m' (assign M l).
Proof.
  revert m M. induction l as [|[k v] l IH]; intros m M Hg Hr Hl; cbn [insert_all assign foldl]; [by exists m|].
  cbn [length] in Hl. destruct (insert_spec hash m k v Hg) as (m' & -> & Hg' & Egr & Hlen & Hh); [lia|]. cbn.
  apply IH; [done| |rewrite Egr; lia]. intros k' w. rewrite Hh. case_decide as E.
  - subst k'. rewrite lookup_insert_eq. split; congruence.
  - rewrite lookup_insert_ne by done. apply Hr.
Qed.

Lemma alloc_good n :
  0 < n < 2 ^ 59 ->
  let m := allocImmutable zeroK zeroV n : ImmutableMap K V in
  good hash m /\ represents m ∅ /\ len m = 0 /\ n <= 8 * Z.of_nat (groups m).
Proof.
  intros Hn m. set (x := Z.quot (Go.i64 (n * loadDen)) loadNum + 1).
  assert (x = n * 8 / 7 + 1) as Ex by (unfold x, loadDen, loadNum; rewrite i64_id, Z.quot_div_nonneg by lia; done).
  destruct (nextGroupMultiple_spec x ltac:(lia_mod)) as [Hge E8]. set (s := nextGroupMultiple x) in *.
  assert (groups m = Z.to_nat (s / 8)) as Eg by done. assert (n < s) as Hs by lia_mod.
  assert (length (keys m) = (8 * groups m)%nat) as Hk by (rewrite Eg; cbn [keys allocImmutable m]; rewrite length_replicate; fold x s; lia).
  assert (length (vals m) = (8 * groups m)%nat) as Hv by (rewrite Eg; cbn [vals allocImmutable m]; rewrite length_replicate; fold x s; lia).
  assert (forall g i, (g < groups m)%nat -> (i < 8)%nat -> lane (word_at m g) i = 128) as Hlane.
  { intros g i Hg Hi. unfold word_at. cbn [ctrl allocImmutable m]. fold x s.
    rewrite lookup_replicate_2 by exact Hg. cbn. by apply lane_allEmpty. }
  assert (forall t, ~ occ m t) as Hocc.
  { intros t [Ht Hl]. unfold tag in Hl. destruct (slot_split t) as [Et Hi]. rewrite Hlane in Hl by (lia || done). lia. }
  split_and!.
  - split; try done; [lia|apply length_replicate|..].
    + intros g i Hg Hi. rewrite Hlane by done. lia.
    + by intros s' key [?%Hocc _].
    + by intros s' s'' key [?%Hocc _].
    + by intros s' key [?%Hocc _].
    + rewrite filter_none; [done|]. rewrite list.Forall_forall. intros t _. apply Hocc.
  - intros k v. rewrite lookup_empty. split; [by intros (t & [?%Hocc _] & _)|done].
  - done.
  - lia.
Qed.

(** ** The map of the entries *)

(** What a reader of the table sees is the map [M]. *)
Record frozen m M : Prop := {
  frozen_Get : forall k, Get hash m k = M !! k;
  frozen_Contains : forall k, Contains hash m k = bool_decide (is_Some (M !! k));
  frozen_Len : Len m = Z.of_nat (size M);
  frozen_All : All m ≡ₚ map_to_list M;
  frozen_Keys : Keys m = (All m).*1;
  frozen_Values : Values m = (All m).*2
}.

Lemma represents_frozen m M : good hash m -> represents m M -> frozen m M.
Proof.
  intros Hg Hr. assert (forall k, Get hash m k = M !! k) as HG.
  { intros k. apply option_eq. intros v. rewrite Get_spec by done. apply Hr. }
  assert (All m ≡ₚ map_to_list M) as HA.
  { apply NoDup_Permutation.
    - apply (NoDup_fmap_1 fst). rewrite <-(proj1 (Keys_All hash m Hg)). by apply (NoDup_Keys hash).
    - apply NoDup_map_to_list.
    - intros [k v]. rewrite (elem_of_All hash), elem_of_map_to_list by done. apply Hr. }
  split; [done| | |done|by apply (Keys_All hash)..].
  - intros k. unfold Contains. rewrite HG. by destruct (M !! k).
  - unfold Len. rewrite (Len_All hash) by done. by rewrite HA, length_map_to_list.
Qed.

Lemma empty_frozen : frozen emptyMap ∅.
Proof. by split. Qed.

Lemma NewImmutableMap_frozen l :
  Z.of_nat (length l) < 2 ^ 59 -> exists m, NewImmutableMap zeroK zeroV hash l = Some m /\ frozen m (assign ∅ l).
Proof.
  intros Hl. destruct l as [|e l]; [exists emptyMap; split; [done|apply empty_frozen]|].
  destruct (alloc_good (Z.of_nat (length (e :: l)))) as (Hg & Hr & Hz & Hn); [cbn [length] in *; lia|].
  destruct (insert_entries_spec (e :: l) _ ∅ Hg Hr) as (m & Hm & Hg' & Hr'); [lia|]. exists m. split; [exact Hm|].
  by apply represents_frozen.
Qed.

(** A Go map has each key once: the table is that map. *)
Lemma assign_app M l l' : assign M (l ++ l') = assign (assign M l) l'.
Proof. apply foldl_app. Qed.

Lemma assign_NoDup M l : NoDup l.*1 -> (forall k v, (k, v) ∈ l -> M !! k = None) -> assign M l = list_to_map l ∪ M.
Proof.
  revert M. induction l as [|[k v] l IH]; intros M Hn Hm; cbn; [by rewrite (left_id_L ∅ (∪))|].
  apply NoDup_cons in Hn as [Hk Hn]. fold (assign (<[k := v]> M) l). rewrite IH; [|done|].
  - rewrite <-insert_union_r; [by rewrite insert_union_l|]. by apply not_elem_of_list_to_map.
  - intros k' v' Hin. rewrite lookup_insert_ne; [apply (Hm k' v'); by right|]. intros ->. apply Hk.
    apply list_elem_of_fmap. by exists (k', v').
Qed.

Lemma NewImmutableMap_map l :
  NoDup l.*1 -> Z.of_nat (length l) < 2 ^ 59 ->
  exists m, NewImmutableMap zeroK zeroV hash l = Some m /\ frozen m (list_to_map l).
Proof.
  intros Hn Hl. destruct (NewImmutableMap_frozen l Hl) as (m & Hm & Hf). exists m. split; [done|].
  rewrite assign_NoDup in Hf by (done || (intros; apply lookup_empty)). by rewrite (right_id_L ∅ (∪)) in Hf.
Qed.

(** C23: the Swiss table is a map.  From any keys and values of equal number,
    fewer than 2^59, with any hash function however it collides, construction
    does not run out of slots, and the table cannot be told apart from the map
    that the same assignments give, later ones winning: [Get], [Contains] and
    [Len] are those of the map, and [All], [Keys] and [Values] visit each of its
    entries exactly once. *)
Theorem immutable_map_exact (ks : list K) (vs : list V) :
  length ks = length vs -> Z.of_nat (length ks) < 2 ^ 59 ->
  exists m, NewImmutableMapFromEntries zeroK zeroV hash ks vs = Some m /\ frozen m (assign ∅ (zip ks vs)).
Proof.
  intros Hl Hn. unfold NewImmutableMapFromEntries. rewrite (proj2 (Nat.eqb_eq _ _) Hl). cbn [negb].
  apply NewImmutableMap_frozen. rewrite length_zip. lia.
Qed.

End construction.

(** A hash with eight values: the groups overflow into one another. *)
Lemma immutable_map_exact_witness :
  exists m, NewImmutableMapFromEntries 0 0 (fun k => k mod 8) (seqZ 0 40 ++ [3]) (seqZ 100 41) = Some m /\
    Get (fun k => k mod 8) m 3 = Some 140 /\ Get (fun k => k mod 8) m 11 = Some 111 /\ Get (fun k => k mod 8) m 64 = None /\
    Len m = 40.
Proof.
  destruct (immutable_map_exact 0 0 (fun k => k mod 8) (seqZ 0 40 ++ [3]) (seqZ 100 41)) as (m & Hm & Hf);
    [reflexivity|reflexivity|].
  exists m. split; [exact Hm|]. rewrite !(frozen_Get _ _ _ Hf), (frozen_Len _ _ _ Hf). vm_compute. by split_and!.
Defined.

(** [matchByte] also reports the byte [needle ^ 1] just above a match; the
    comparison of the keys rejects it. *)
Example matchByte_false_positive :
  matchByte 0x8080808080800405 5 = 0x8080 /\ lane 0x8080808080800405 1 <> 5.
Proof. vm_compute. by split. Qed.

End ImmutableMapTheorems.
