(* ===== verification/FieldPolicy.v ===== *)
(** * The policy of field names: data/internal/fieldpolicy

    Allow-lists of dotted paths and mappings from the names of an API to those
    of a storage, which data/orderby and data/projection share.  A path is its
    bytes.  A Go map given by a caller is the list of its entries in the order of
    an iteration. *)

From S2P Require Import Prelude GoBytes GoStrings ImmutableMap.
From Stdlib Require Import Strings.Byte.

Module FieldPolicy.
Import GoBytes GoStrings.
Import ImmutableMap (ImmutableMap).

Abbreviation dot := x2e.
Abbreviation star := x2a.

(** A string without its last [n] bytes. *)
Definition chop (n : nat) (s : bytes) : bytes := take (length s - n) s.

Section policy.
(** The hash of the frozen maps. *)
Context (hash : bytes -> Z).

(** [coremaps.NewImmutableMap]; ImmutableMapTheorems shows that it does not
    panic. *)
Definition freeze {V} (zero : V) (l : list (bytes * V)) : ImmutableMap bytes V :=
  default ImmutableMap.emptyMap (ImmutableMap.NewImmutableMap [] zero hash l).

(** ** AllowList *)

Record AllowList := mkAllowList { a_exact : option (ImmutableMap bytes ()); a_prefixes : list bytes }.

(** The zero value. *)
Definition anyField : AllowList := mkAllowList None [].

(** A subtree entry: it ends in a dot and a star, and has no other star. *)
Definition is_wildcard (f : bytes) : bool := HasSuffix f [dot; star] && negb (Contains star (chop 2 f)).

Fixpoint allow_loop (fields exact prefixes : list bytes) : list bytes * list bytes :=
  match fields with
  | [] => (exact, prefixes)
  | f :: fields =>
      if bool_decide (f = [star]) then allow_loop fields exact (prefixes ++ [[]])
      else if is_wildcard f then allow_loop fields exact (prefixes ++ [chop 1 f])
      else allow_loop fields (if bool_decide (f ∈ exact) then exact else exact ++ [f]) prefixes
  end.

Definition NewAllowList (fields : list bytes) : AllowList :=
  let '(exact, prefixes) := allow_loop fields [] [] in
  mkAllowList (Some (freeze () ((fun f => (f, ())) <$> exact))) (SortLongest id prefixes).

Definition IsConfigured (a : AllowList) : bool :=
  match a_exact a, a_prefixes a with None, [] => false | _, _ => true end.

Definition IsEmpty (a : AllowList) : bool :=
  match a_exact a with None => true | Some t => ImmutableMap.Len t =? 0 end &&
  match a_prefixes a with [] => true | _ => false end.

Definition MatchesAll (a : AllowList) : bool := negb (IsConfigured a) || bool_decide ([] ∈ a_prefixes a).

Definition Allows (a : AllowList) (field : bytes) : bool :=
  if negb (IsConfigured a) then true
  else if match a_exact a with None => false | Some t => ImmutableMap.Contains hash t field end then true
  else existsb (HasPrefix field) (a_prefixes a).

Definition Roots (a : AllowList) : list bytes :=
  if MatchesAll a then []
  else
    let roots := match a_exact a with None => [] | Some t => (ImmutableMap.All t).*1 end in
    Compact (Sort (roots ++ ((fun p => TrimSuffix p [dot]) <$> a_prefixes a))).

(** ** Paths *)

Definition isUnder (k path : bytes) : bool :=
  (length path <? length k)%nat && bool_decide (k !! length path = Some dot) && HasPrefix k path.

Definition Overlaps (a b : bytes) : bool :=
  if (length a =? length b)%nat then bool_decide (a = b)
  else if (length a <? length b)%nat then bool_decide (b !! length a = Some dot) && HasPrefix b a
  else bool_decide (a !! length b = Some dot) && HasPrefix a b.

(** ** Mapping *)

Record Mapping := mkMapping {
  m_exact : option (ImmutableMap bytes bytes);
  m_prefixes : list (bytes * bytes);
  dotKeys : bool
}.

Definition noMapping : Mapping := mkMapping None [] false.

Definition WithExact (mapping : list (bytes * bytes)) (m : Mapping) : Mapping :=
  mkMapping (Some (freeze [] mapping)) (m_prefixes m) (existsb (fun e => HasSuffix e.1 [dot]) mapping).

Definition WithPrefixes (mapping : list (bytes * bytes)) (m : Mapping) : Mapping :=
  let rules := filter (fun e => HasSuffix e.1 [dot] && HasSuffix e.2 [dot] = true) mapping in
  mkMapping (m_exact m) (SortLongest fst rules) (dotKeys m).

Definition exactGet (m : Mapping) (path : bytes) : option bytes :=
  match m_exact m with None => None | Some t => ImmutableMap.Get hash t path end.

Fixpoint apply_rules (rules : list (bytes * bytes)) (field : bytes) : bytes :=
  match rules with
  | [] => field
  | (from, to) :: rules =>
      match CutPrefix field from with Some rest => to ++ rest | None => apply_rules rules field end
  end.
Definition Apply (m : Mapping) (field : bytes) : bytes :=
  match exactGet m field with Some mapped => mapped | None => apply_rules (m_prefixes m) field end.

Fixpoint root_rules (rules : list (bytes * bytes)) (path : bytes) : bytes :=
  match rules with
  | [] => path
  | (from, to) :: rules =>
      if (length from =? length path + 1)%nat && HasPrefix from path then chop 1 to
      else match CutPrefix path from with Some rest => to ++ rest | None => root_rules rules path end
  end.
Definition root (m : Mapping) (path : bytes) : bytes :=
  match exactGet m path with
  | Some mapped => mapped
  | None =>
      match (if dotKeys m then exactGet m (path ++ [dot]) else None) with
      | Some mapped => TrimSuffix mapped [dot]
      | None => root_rules (m_prefixes m) path
      end
  end.

(** [AppendSubtree]; [acc] is what it has appended so far. *)
Definition add_target (root : bytes) (acc : list bytes) (target : bytes) : list bytes :=
  let inRoot := (length root <=? length target)%nat && Overlaps target root in
  if negb inRoot && negb (bool_decide (target ∈ acc)) then acc ++ [target] else acc.
Definition entries (m : Mapping) : list (bytes * bytes) :=
  match m_exact m with None => [] | Some t => ImmutableMap.All t end.
Definition AppendSubtree (m : Mapping) (dst : list bytes) (path : bytes) : list bytes :=
  let r := root m path in
  let acc := fold_left (fun acc e => if isUnder e.1 path then add_target r acc e.2 else acc) (entries m) [r] in
  let acc := fold_left (fun acc e => if isUnder e.1 path then add_target r acc (chop 1 e.2) else acc) (m_prefixes m) acc in
  dst ++ acc.
Definition Subtree (m : Mapping) (path : bytes) : list bytes := AppendSubtree m [] path.

Definition Reach (m : Mapping) (path : bytes) : list bytes :=
  let out := Subtree m path in
  let out := out ++ omap (fun e => rest ← CutPrefix path (e.1 ++ [dot]); Some (e.2 ++ dot :: rest)) (entries m) in
  let out := out ++ omap (fun e => rest ← CutPrefix path e.1; Some (e.2 ++ rest)) (m_prefixes m) in
  Compact (Sort out).

End policy.
End FieldPolicy.
