(* ===== verification/FieldPolicyTheorems.v ===== *)
(** * What the field policy decides

    Paths below a path, the meaning of an allow-list, and that [Subtree] of a
    path covers the storage names of everything below it. *)

From S2P Require Import Prelude GoBytes GoStrings ImmutableMap ImmutableMapTheorems FieldPolicy.
From Stdlib Require Import Strings.Byte.

Module FieldPolicyTheorems.
Import GoBytes GoStrings FieldPolicy.
Import ImmutableMapTheorems (frozen, frozen_Get, frozen_All, frozen_Contains, frozen_Len).

(** ** Paths *)

Definition under (k path : bytes) : Prop := exists r, k = path ++ dot :: r.
(** [k] is [path] or below it. *)
Definition within (k path : bytes) : Prop := k = path \/ under k path.
Definition overlap (a b : bytes) : Prop := within a b \/ within b a.

Lemma lookup_HasPrefix_under k path : k !! length path = Some dot -> HasPrefix k path = true -> under k path.
Proof.
  intros Hd [r ->]%HasPrefix_spec. rewrite lookup_app_r in Hd by lia. rewrite Nat.sub_diag in Hd.
  destruct r as [|c r]; [done|]. injection Hd as ->. by exists r.
Qed.

Lemma under_lookup k path : under k path -> (length path < length k)%nat /\ k !! length path = Some dot /\ HasPrefix k path = true.
Proof.
  intros [r ->]. split_and!.
  - rewrite length_app. cbn. lia.
  - by rewrite lookup_app_r, Nat.sub_diag by lia.
  - apply HasPrefix_spec. by eexists.
Qed.

Lemma isUnder_spec k path : isUnder k path = true <-> under k path.
Proof.
  unfold isUnder. rewrite !andb_true_iff, bool_decide_eq_true, Nat.ltb_lt. split.
  - intros [[_ Hd] Hp]. by apply lookup_HasPrefix_under.
  - intros (? & ? & ?)%under_lookup. done.
Qed.

Lemma under_length k path : under k path -> (length path < length k)%nat.
Proof. apply under_lookup. Qed.

Lemma Overlaps_spec a b : Overlaps a b = true <-> overlap a b.
Proof.
  unfold Overlaps, overlap, within. destruct (Nat.eqb_spec (length a) (length b)) as [E|E].
  - rewrite bool_decide_eq_true. split; [intros ->; by left; left|].
    intros [[?|?%under_length]|[?|?%under_length]]; (done || lia).
  - destruct (Nat.ltb_spec (length a) (length b)); rewrite andb_true_iff, bool_decide_eq_true.
    + split; [intros [? ?]; right; right; by apply lookup_HasPrefix_under|].
      intros [[->|?%under_length]|[->|(_ & ? & ?)%under_lookup]]; (done || lia).
    + split; [intros [? ?]; left; right; by apply lookup_HasPrefix_under|].
      intros [[->|(_ & ? & ?)%under_lookup]|[->|?%under_length]]; (done || lia).
Qed.

Lemma under_trans a b c : under a b -> under b c -> under a c.
Proof. intros [r ->] [r' ->]. exists (r' ++ dot :: r). by rewrite <-app_assoc. Qed.

Lemma within_refl a : within a a.
Proof. by left. Qed.
Lemma within_trans a b c : within a b -> within b c -> within a c.
Proof. intros [->|Ha] [->|Hb]; unfold within; eauto using under_trans. Qed.

Lemma under_compare k a b : under k a -> under k b -> (length a <= length b)%nat -> within b a.
Proof.
  intros [r ->] [r' E] Hl. apply app_eq_inv in E as [(l & -> & E)|(l & -> & E)].
  - rewrite length_app in Hl. destruct l as [|c l]; [rewrite app_nil_r; by left|cbn in Hl; lia].
  - destruct l as [|c l]; [rewrite app_nil_r; by left|]. injection E as <- ->. right. by exists l.
Qed.

(** Two ancestors of one path are on one line. *)
Lemma within_compare k a b : within k a -> within k b -> overlap a b.
Proof.
  intros [->|Ha] [->|Hb]; [by left; left|by left; right|by right; right|].
  destruct (decide (length a <= length b)%nat); [right|left]; eapply under_compare; (done || lia).
Qed.

Lemma overlap_within t s r : overlap t s -> within s r -> overlap t r.
Proof. intros [Ht|Hs] Hr; [left; by eapply within_trans|by eapply within_compare]. Qed.

Lemma overlap_sym a b : overlap a b -> overlap b a.
Proof. unfold overlap. tauto. Qed.

(** ** Allow-lists *)

(** What the entries of a list allow. *)
Inductive allowed (fields : list bytes) (f : bytes) : Prop :=
| allowed_all : [star] ∈ fields -> allowed fields f
| allowed_below p r : p ++ [dot; star] ∈ fields -> star ∉ p -> f = p ++ dot :: r -> allowed fields f
| allowed_exact : f ∈ fields -> f <> [star] -> is_wildcard f = false -> allowed fields f.

Lemma is_wildcard_spec f : is_wildcard f = true <-> exists p, f = p ++ [dot; star] /\ star ∉ p.
Proof.
  unfold is_wildcard, Contains, chop. rewrite andb_true_iff, HasSuffix_spec, negb_true_iff, bool_decide_eq_false. split.
  - intros [[p ->] Hs]. exists p. split; [done|].
    by rewrite length_app, Nat.add_sub, take_app_length in Hs.
  - intros (p & -> & Hs). split; [by exists p|]. by rewrite length_app, Nat.add_sub, take_app_length.
Qed.

Lemma chop_app (s t : bytes) : chop (length t) (s ++ t) = s.
Proof. unfold chop. by rewrite length_app, Nat.add_sub, take_app_length. Qed.

Lemma chop_wildcard p : chop 1 (p ++ [dot; star]) = p ++ [dot].
Proof. change [dot; star] with ([dot] ++ [star]). rewrite app_assoc. apply (chop_app _ [star]). Qed.

(** The prefix of an entry that has one. *)
Definition entry_prefix (f : bytes) : option bytes :=
  if bool_decide (f = [star]) then Some [] else if is_wildcard f then Some (chop 1 f) else None.

Lemma allow_loop_spec fields exact prefixes e' p' :
  allow_loop fields exact prefixes = (e', p') -> NoDup exact ->
  p' = prefixes ++ omap entry_prefix fields /\ NoDup e' /\ (length e' <= length exact + length fields)%nat /\
  (forall f, f ∈ e' <-> f ∈ exact \/ (f ∈ fields /\ entry_prefix f = None)).
Proof.
  revert exact prefixes. induction fields as [|f fields IH]; intros exact prefixes; cbn [allow_loop omap list_omap].
  { intros [= -> ->] Hn. rewrite app_nil_r. split_and!; [done|done|cbn; lia|]. intros f. rewrite elem_of_nil. tauto. }
  intros E Hn. destruct (entry_prefix f) as [q|] eqn:Ep; unfold entry_prefix in Ep.
  - assert (allow_loop fields exact (prefixes ++ [q]) = (e', p')) as E'.
    { rewrite <-E. case_bool_decide; [by simplify_eq|]. destruct (is_wildcard f); by simplify_eq. }
    destruct (IH _ _ E' Hn) as (-> & ? & ? & He). rewrite <-app_assoc. split_and!; [done|done|cbn; lia|].
    intros g. rewrite He, elem_of_cons. split; [tauto|]. intros [?|[[->|?] Hg]]; [tauto| |tauto].
    unfold entry_prefix in Hg. by rewrite Ep in Hg.
  - case_bool_decide as Es; [done|]. destruct (is_wildcard f) eqn:Ew; [done|].
    assert (NoDup (if bool_decide (f ∈ exact) then exact else exact ++ [f])) as Hn'.
    { case_bool_decide as Hf; [done|]. apply list.NoDup_app. split_and!; [done| |apply NoDup_singleton].
      by intros x Hx ->%list_elem_of_singleton. }
    destruct (IH _ _ E Hn') as (-> & ? & Hl & He). split_and!; [done|done| |].
    + case_bool_decide; [|rewrite length_app in Hl]; cbn in *; lia.
    + assert (entry_prefix f = None) as Hf by (unfold entry_prefix; rewrite bool_decide_eq_false_2 by done; by rewrite Ew).
      intros g. rewrite He, elem_of_cons. case_bool_decide as Hx; [|rewrite elem_of_app, list_elem_of_singleton].
      * split; [tauto|]. intros [?|[[->|?] ?]]; tauto.
      * split; [intros [[?| ->]|?]; tauto|]. intros [?|[[->|?] ?]]; tauto.
Qed.

Lemma entry_prefix_Some f q :
  entry_prefix f = Some q <-> (f = [star] /\ q = []) \/ exists p, f = p ++ [dot; star] /\ star ∉ p /\ q = p ++ [dot].
Proof.
  unfold entry_prefix. case_bool_decide as Es.
  - subst f. split; [intros [= <-]; by left|]. intros [[_ ->]|(p & E & _)]; [done|]. by destruct p as [|? []].
  - destruct (is_wildcard f) eqn:Ew.
    + pose proof Ew as (p & -> & Hs)%is_wildcard_spec. rewrite chop_wildcard. split.
      * intros [= <-]. right. by exists p.
      * intros [[? _]|(p' & E & _ & ->)]; [done|]. by apply app_inj_2 in E as [-> _].
    + split; [done|]. intros [[? _]|(p & E & Hs & _)]; [done|].
      rewrite (proj2 (is_wildcard_spec f)) in Ew; [done|]. by exists p.
Qed.

Lemma entry_prefix_None f : entry_prefix f = None <-> f <> [star] /\ is_wildcard f = false.
Proof. unfold entry_prefix. case_bool_decide; [naive_solver|]. destruct (is_wildcard f); naive_solver. Qed.

(** ** Frozen maps *)

Section policy.
Context (hash : bytes -> Z).
(** Fewer entries than memory holds. *)
Definition fits {A} (l : list A) : Prop := Z.of_nat (length l) < 2 ^ 59.

Lemma freeze_frozen {V} (zero : V) (l : list (bytes * V)) :
  NoDup l.*1 -> fits l -> frozen hash (freeze hash zero l) (list_to_map l).
Proof.
  intros Hn Hl. destruct (ImmutableMapTheorems.NewImmutableMap_map [] zero hash l Hn Hl) as (m & E & Hf).
  unfold freeze. by rewrite E.
Qed.

(** A configured list allows what its entries say. *)
Lemma Allows_spec fields f : fits fields -> Allows hash (NewAllowList hash fields) f = true <-> allowed fields f.
Proof.
  intros Hf. unfold NewAllowList. destruct (allow_loop fields [] []) as [e p] eqn:E.
  destruct (allow_loop_spec _ _ _ _ _ E) as (-> & Hn & Hl & He); [constructor|].
  assert (frozen hash (freeze hash () ((fun f => (f, ())) <$> e)) (list_to_map ((fun f => (f, ())) <$> e))) as Hz.
  { apply freeze_frozen.
    - rewrite <-list_fmap_compose. by rewrite (list_fmap_ext _ id), list_fmap_id.
    - unfold fits in *. rewrite length_fmap. cbn in Hl. lia. }
  unfold Allows. cbn [IsConfigured a_exact a_prefixes negb]. rewrite (frozen_Contains _ _ _ Hz).
  assert (is_Some ((list_to_map ((fun f => (f, ())) <$> e) : gmap bytes ()) !! f) <-> f ∈ e) as Hin.
  { rewrite <-elem_of_dom, dom_list_to_map_L, elem_of_list_to_set, <-list_fmap_compose.
    by rewrite (list_fmap_ext _ id), list_fmap_id. }
  assert (existsb (HasPrefix f) (SortLongest id ([] ++ omap entry_prefix fields)) = true <->
    exists q e, (e ∈ fields /\ entry_prefix e = Some q) /\ exists r, f = q ++ r) as Hpre.
  { rewrite existsb_exists. setoid_rewrite <-list_elem_of_In. setoid_rewrite HasPrefix_spec.
    setoid_rewrite SortLongest_perm. cbn [app]. setoid_rewrite list_elem_of_omap. naive_solver. }
  case_bool_decide as Hd; rewrite Hin, He in Hd.
  - split; [|done]. intros _. destruct Hd as [?%elem_of_nil|[? [? ?]%entry_prefix_None]]; [done|]. by apply allowed_exact.
  - rewrite Hpre. split.
    + intros (q & e0 & [Hq [[-> ->]|(p0 & -> & ? & ->)]%entry_prefix_Some] & r & ->); [by apply allowed_all|].
      eapply allowed_below; [done|done|]. by rewrite <-app_assoc.
    + intros [Hs|p0 r Hs Hn' ->|? ? ?].
      * exists [], [star]. split; [split; [done|apply entry_prefix_Some; by left]|by eexists].
      * exists (p0 ++ [dot]), (p0 ++ [dot; star]). split; [split; [done|]|exists r; by rewrite <-app_assoc].
        apply entry_prefix_Some. right. by exists p0.
      * exfalso. apply Hd. right. split; [done|]. by apply entry_prefix_None.
Qed.

(** ** Mappings *)

(** A mapping with exact entries [E]: its rules end in dots, have distinct left
    sides and are sorted, longest first. *)
Record mapping_ok (m : Mapping) (E : gmap bytes bytes) : Prop := {
  ok_get : forall p, exactGet hash m p = E !! p;
  ok_entries : entries m ≡ₚ map_to_list E;
  ok_dotKeys : dotKeys m = false -> forall p, E !! (p ++ [dot]) = None;
  ok_rules : forall from to, (from, to) ∈ m_prefixes m -> HasSuffix from [dot] = true /\ HasSuffix to [dot] = true;
  ok_sorted : StronglySorted (longer fst) (m_prefixes m);
  ok_distinct : NoDup (m_prefixes m).*1
}.

Lemma noMapping_ok : mapping_ok noMapping ∅.
Proof. by split; try (intros; set_solver); try constructor. Qed.

Lemma WithExact_ok l m E : NoDup l.*1 -> fits l -> mapping_ok m E -> mapping_ok (WithExact hash l m) (list_to_map l).
Proof.
  intros Hn Hl []. pose proof (freeze_frozen [] l Hn Hl) as Hf. split; try done.
  - intros p. apply (frozen_Get _ _ _ Hf).
  - apply (frozen_All _ _ _ Hf).
  - cbn [dotKeys WithExact]. intros Hd p. apply not_elem_of_list_to_map. intros (e & Ee & He)%list_elem_of_fmap.
    assert (existsb (fun e => HasSuffix e.1 [dot]) l = true) as Hx; [|congruence].
    apply existsb_exists. exists e. split; [by apply list_elem_of_In|]. apply HasSuffix_spec. by exists p.
Qed.

Lemma WithPrefixes_ok l m E : NoDup l.*1 -> mapping_ok m E -> mapping_ok (WithPrefixes l m) E.
Proof.
  intros Hn []. split; try done; cbn [m_prefixes WithPrefixes].
  - intros from to. rewrite SortLongest_perm, list_elem_of_filter, andb_true_iff. tauto.
  - apply SortLongest_sorted.
  - rewrite SortLongest_perm. eapply sublist_NoDup; [exact Hn|]. apply fmap_sublist, sublist_filter.
Qed.

(** The first rule that matches decides. *)
Definition rule_for (rules : list (bytes * bytes)) (field from to rest : bytes) : Prop :=
  (from, to) ∈ rules /\ field = from ++ rest /\ apply_rules rules field = to ++ rest.

Lemma apply_rules_cases rules field :
  StronglySorted (longer fst) rules ->
  (exists from to rest, rule_for rules field from to rest /\
     forall from' to', (from', to') ∈ rules -> HasPrefix field from' = true -> (length from' <= length from)%nat) \/
  (apply_rules rules field = field /\ forall from to, (from, to) ∈ rules -> HasPrefix field from = false).
Proof.
  unfold rule_for. induction 1 as [|[from to] rules Hs IH Hl]; [right; split; [done|set_solver]|]. cbn [apply_rules].
  destruct (CutPrefix field from) as [rest|] eqn:Ec.
  - left. exists from, to, rest. split; [split_and!; [by left|by apply CutPrefix_Some|done]|].
    intros from' to' [[= -> ->]|Hin]%elem_of_cons _; [done|]. rewrite list.Forall_forall in Hl. apply (Hl _ Hin).
  - assert (HasPrefix field from = false) as Hf by (unfold HasPrefix; rewrite Ec; by apply bool_decide_eq_false_2; intros [? ?]).
    destruct IH as [(f & t & r & (Hin & -> & E) & Hmax)|[E Hnone]]; [left; exists f, t, r|right].
    + split; [split_and!; [by right|done|done]|]. intros f' t' [[= -> ->]|?]%elem_of_cons Hp; [congruence|by eapply Hmax].
    + split; [done|]. intros f' t' [[= -> ->]|?]%elem_of_cons; [done|by eapply Hnone].
Qed.

(** A longer field meets the rule of the shorter one, unless a rule reaches
    beyond the shorter one. *)
Lemma apply_rules_extend rules q x :
  (exists from to y z, (from, to) ∈ rules /\ from = q ++ y /\ y <> [] /\ x = y ++ z /\ apply_rules rules (q ++ x) = to ++ z) \/
  apply_rules rules (q ++ x) = apply_rules rules q ++ x.
Proof.
  induction rules as [|[from to] rules IH]; cbn [apply_rules]; [by right|].
  destruct (CutPrefix (q ++ x) from) as [rest|] eqn:Ec.
  - apply CutPrefix_Some in Ec. apply app_eq_inv in Ec as [(l & -> & ->)|(l & -> & ->)].
    + rewrite CutPrefix_app. right. by rewrite <-app_assoc.
    + destruct l as [|c l]; [rewrite app_nil_r, <-(app_nil_r q) at 1; rewrite CutPrefix_app; right; by rewrite app_nil_r|].
      left. exists (q ++ c :: l), to, (c :: l), rest. split_and!; [by left|done|done|done|done].
  - destruct (CutPrefix q from) as [rest|] eqn:Eq.
    { apply CutPrefix_Some in Eq as ->. rewrite <-app_assoc, CutPrefix_app in Ec. done. }
    destruct IH as [(f & t & y & z & ? & ? & ? & ? & ?)|E]; [left; exists f, t, y, z|by right].
    split_and!; [by right|done..].
Qed.

Lemma HasSuffix_dot s : HasSuffix s [dot] = true -> s = chop 1 s ++ [dot].
Proof. intros [r ->]%HasSuffix_spec. f_equal. symmetry. apply (chop_app r [dot]). Qed.

(** The name of a path as a parent is that of the path with its dot. *)
Lemma root_rules_apply rules path :
  (forall from to, (from, to) ∈ rules -> HasSuffix from [dot] = true /\ HasSuffix to [dot] = true) ->
  root_rules rules path ++ [dot] = apply_rules rules (path ++ [dot]).
Proof.
  induction rules as [|[from to] rules IH]; intros Hr; cbn [root_rules apply_rules]; [done|].
  destruct (Hr from to ltac:(by left)) as [Hf Ht].
  destruct ((length from =? length path + 1)%nat && HasPrefix from path) eqn:Em.
  - apply andb_true_iff in Em as [El%Nat.eqb_eq [r ->]%HasPrefix_spec]. rewrite length_app in El.
    destruct r as [|c [|]]; cbn in El; [lia| |lia]. apply HasSuffix_spec in Hf as [l E].
    apply app_inj_2 in E as [_ [= ->]]; [|done]. rewrite <-(app_nil_r (path ++ [dot])) at 1. rewrite CutPrefix_app, app_nil_r.
    symmetry. by apply HasSuffix_dot.
  - destruct (CutPrefix path from) as [rest|] eqn:Ec.
    + apply CutPrefix_Some in Ec as ->. rewrite <-!app_assoc, CutPrefix_app. done.
    + destruct (CutPrefix (path ++ [dot]) from) as [rest|] eqn:Ed.
      * exfalso. apply CutPrefix_Some in Ed. apply app_eq_inv in Ed as [(l & -> & _)|(l & -> & E)].
        { by rewrite CutPrefix_app in Ec. }
        destruct l as [|c l]; [rewrite app_nil_r in Ec; by rewrite <-(app_nil_r path), CutPrefix_app in Ec at 1|].
        destruct l as [|]; [|by destruct l]. rewrite length_app in Em. cbn in Em.
        rewrite Nat.eqb_refl, (proj2 (HasPrefix_spec _ _)) in Em; [done|by eexists].
      * apply IH. intros f t Hin. apply Hr. by right.
Qed.

(** ** Subtrees *)

Lemma add_target_spec r acc x :
  r ∈ acc ->
  (forall s, s ∈ acc -> s ∈ add_target r acc x) /\ (exists t, t ∈ add_target r acc x /\ within x t) /\
  (forall s, s ∈ add_target r acc x -> s ∈ acc \/ s = x).
Proof.
  intros Hr. unfold add_target. destruct ((length r <=? length x)%nat && Overlaps x r) eqn:Eo; cbn [negb andb].
  - split_and!; [done| |by left]. exists r. split; [done|]. apply andb_true_iff in Eo as [Hl%Nat.leb_le Ho%Overlaps_spec].
    destruct Ho as [?|[->|?%under_length]]; [done|by left|lia].
  - case_bool_decide as Hx; cbn [negb].
    + split_and!; [done| |by left]. exists x. split; [done|by left].
    + split_and!; [intros; apply elem_of_app; by left| |intros s [?| ->%list_elem_of_singleton]%elem_of_app; [by left|by right]].
      exists x. split; [apply elem_of_app; right; by apply list_elem_of_singleton|by left].
Qed.

Lemma fold_targets r path (tr : bytes * bytes -> bytes) l acc :
  r ∈ acc ->
  let acc' := fold_left (fun acc e => if isUnder e.1 path then add_target r acc (tr e) else acc) l acc in
  (forall s, s ∈ acc -> s ∈ acc') /\
  (forall e, e ∈ l -> under e.1 path -> exists t, t ∈ acc' /\ within (tr e) t) /\
  (forall s, s ∈ acc' -> s ∈ acc \/ exists e, e ∈ l /\ under e.1 path /\ s = tr e).
Proof.
  revert acc. induction l as [|e l IH]; intros acc Hr; cbn [fold_left].
  { split_and!; [done|by intros e ?%elem_of_nil|by left]. }
  destruct (isUnder e.1 path) eqn:Eu.
  - destruct (add_target_spec r acc (tr e) Hr) as (Hk & (t & Ht & Hw) & Hs).
    destruct (IH _ (Hk _ Hr)) as (Hk' & Hc' & Hs'). split_and!.
    + intros s Hin. by apply Hk', Hk.
    + intros e' [->|Hin]%elem_of_cons Hu; [exists t; split; [by apply Hk'|done]|by apply Hc'].
    + intros s [[?| ->]%Hs|(e' & ? & ? & ->)]%Hs'; [by left|..]; right.
      * exists e. split_and!; [by left|by apply isUnder_spec|done].
      * exists e'. split_and!; [by right|done|done].
  - destruct (IH _ Hr) as (Hk' & Hc' & Hs'). split_and!; [done| |].
    + intros e' [->|Hin]%elem_of_cons Hu; [apply isUnder_spec in Hu; congruence|by apply Hc'].
    + intros s [?|(e' & ? & ? & ->)]%Hs'; [by left|]. right. exists e'. split_and!; [by right|done|done].
Qed.

(** What [Subtree] collects: the name of the path, and the targets of the
    entries and rules below it, or something they are within. *)
Lemma Subtree_spec m path :
  root hash m path ∈ Subtree hash m path /\
  (forall k v, (k, v) ∈ entries m -> under k path -> exists t, t ∈ Subtree hash m path /\ within v t) /\
  (forall from to, (from, to) ∈ m_prefixes m -> under from path -> exists t, t ∈ Subtree hash m path /\ within (chop 1 to) t) /\
  (forall s, s ∈ Subtree hash m path -> s = root hash m path \/ (exists k, (k, s) ∈ entries m /\ under k path) \/
     exists from to, (from, to) ∈ m_prefixes m /\ under from path /\ s = chop 1 to).
Proof.
  unfold Subtree, AppendSubtree. cbv zeta. rewrite app_nil_l.
  destruct (fold_targets (root hash m path) path snd (entries m) [root hash m path] ltac:(by left)) as (Hk & Hc & Hs).
  set (acc := fold_left _ (entries m) _) in *.
  destruct (fold_targets (root hash m path) path (fun e => chop 1 e.2) (m_prefixes m) acc) as (Hk' & Hc' & Hs'); [apply Hk; by left|].
  split_and!.
  - apply Hk', Hk. by left.
  - intros k v Hin Hu. destruct (Hc (k, v) Hin Hu) as (t & Ht & ?). exists t. split; [by apply Hk'|done].
  - intros from to Hin Hu. apply (Hc' (from, to) Hin Hu).
  - intros s Hin. apply Hs' in Hin as [Hin|([from to] & ? & ? & ->)]; [|by right; right; exists from, to].
    apply Hs in Hin as [Hin|([k v] & ? & ? & ->)]; [|by right; left; exists k].
    left. by apply list_elem_of_singleton in Hin.
Qed.

Section covers.
Context (m : Mapping) (E : gmap bytes bytes) (path : bytes).
Context (Hok : mapping_ok m E) (Hexact : E !! path = None) (Hdot : dotKeys m = false).

Lemma root_plain p : E !! p = None -> root hash m p ++ [dot] = apply_rules (m_prefixes m) (p ++ [dot]).
Proof using All.
  intros Hp. unfold root. rewrite (ok_get _ _ Hok), Hp, Hdot. apply root_rules_apply. apply (ok_rules _ _ Hok).
Qed.

Lemma target_covered t0 :
  (exists k, (k, t0) ∈ entries m /\ under k path) \/ (exists from to, (from, to) ∈ m_prefixes m /\ under from path /\ t0 = chop 1 to) ->
  exists t, t ∈ Subtree hash m path /\ within t0 t.
Proof using All.
  destruct (Subtree_spec m path) as (_ & He & Hr & _). intros [(k & Hin & Hu)|(from & to & Hin & Hu & ->)]; eauto.
Qed.

Lemma exact_covered f v : under f path -> E !! f = Some v -> exists t, t ∈ Subtree hash m path /\ within v t.
Proof using All.
  intros Hu Hv. apply target_covered. left. exists f. split; [|done]. rewrite (ok_entries _ _ Hok). by apply elem_of_map_to_list.
Qed.

(** The storage name of a field below the path. *)
Lemma Apply_covered f : under f path -> exists t, t ∈ Subtree hash m path /\ within (Apply hash m f) t.
Proof using All.
  intros Hu. unfold Apply. rewrite (ok_get _ _ Hok). destruct (E !! f) as [v|] eqn:Hf; [by eapply exact_covered|].
  destruct Hu as [x ->]. replace (path ++ dot :: x) with ((path ++ [dot]) ++ x) by (by rewrite <-app_assoc).
  destruct (apply_rules_extend (m_prefixes m) (path ++ [dot]) x) as [(from & to & y & z & Hin & -> & Hy & -> & ->)| ->].
  - destruct (ok_rules _ _ Hok _ _ Hin) as [_ Ht]. destruct (target_covered (chop 1 to)) as (t & Ht' & Hw).
    { right. exists ((path ++ [dot]) ++ y), to. split_and!; [done| |done]. exists y. by rewrite <-app_assoc. }
    exists t. split; [done|]. eapply within_trans; [|exact Hw]. right. exists z. by rewrite (HasSuffix_dot to Ht) at 1; rewrite <-app_assoc.
  - rewrite <-root_plain by done. exists (root hash m path). split; [apply Subtree_spec|]. right. exists x. by rewrite <-app_assoc.
Qed.

(** The name as a parent of a field below the path, and so all of its subtree. *)
Lemma Subtree_covered f s : under f path -> s ∈ Subtree hash m f -> exists t, t ∈ Subtree hash m path /\ within s t.
Proof using All.
  intros Hu Hs. destruct (Subtree_spec m f) as (_ & _ & _ & Hcases). apply Hcases in Hs as [->|Hs]; clear Hcases.
  2:{ apply target_covered. destruct Hs as [(k & ? & ?)|(from & to & ? & ? & ->)]; [left|right]; eauto 6 using under_trans. }
  destruct (E !! f) as [v|] eqn:Hf.
  { unfold root. rewrite (ok_get _ _ Hok), Hf. by eapply exact_covered. }
  pose proof (root_plain f Hf) as Hr. destruct Hu as [x ->].
  replace ((path ++ dot :: x) ++ [dot]) with ((path ++ [dot]) ++ (x ++ [dot])) in Hr by (by rewrite <-!app_assoc).
  destruct (apply_rules_extend (m_prefixes m) (path ++ [dot]) (x ++ [dot])) as [(from & to & y & z & Hin & -> & Hy & Ex & Ea)|Ea].
  - destruct (ok_rules _ _ Hok _ _ Hin) as [_ Ht]. destruct (target_covered (chop 1 to)) as (t & Ht' & Hw).
    { right. exists ((path ++ [dot]) ++ y), to. split_and!; [done| |done]. exists y. by rewrite <-app_assoc. }
    exists t. split; [done|]. eapply within_trans; [|exact Hw]. rewrite Ea, (HasSuffix_dot to Ht) in Hr.
    destruct z as [|c z] using rev_ind; [rewrite app_nil_r in Hr; apply app_inj_2 in Hr as [-> _]; [by left|done]|].
    rewrite !app_assoc in Hr. apply app_inj_2 in Hr as [-> _]; [|done]. right. exists z. by rewrite <-app_assoc.
  - rewrite Ea, <-root_plain in Hr by done. exists (root hash m path). split; [apply Subtree_spec|].
    rewrite app_assoc in Hr. apply app_inj_2 in Hr as [-> _]; [|done]. right. exists x. by rewrite <-app_assoc.
Qed.

End covers.

Lemma Reach_Subtree m path s : s ∈ Subtree hash m path -> s ∈ Reach hash m path.
Proof. intros Hs. unfold Reach. rewrite elem_of_sorted_set, !elem_of_app. by left; left. Qed.

End policy.
End FieldPolicyTheorems.
