(* ===== verification/SqlDialect.v ===== *)
(** * SQL text: internal/sqldialect

    Quoting of table and column names, which cannot be bound as parameters, the
    names of indexes, and the numbering of placeholders. *)

From S2P Require Import Prelude GoBytes GoStrings.
From Stdlib Require Import Strings.Byte.

Module SqlDialect.
Import GoBytes GoStrings.

Definition ErrInvalidTableName : error := ErrNew "sqldb: invalid table name".
Definition MaxIdentLen : Z := 63.

Record Style := mkStyle { Quote : byte; Numbered : bool }.
Definition Postgres : Style := mkStyle x22 true.
Definition MySQL : Style := mkStyle x60 false.

Definition Ident (s : Style) (name : bytes) : bytes := Quote s :: name ++ [Quote s].

Definition isIdent (p : bytes) : bool :=
  match p with
  | [] => false
  | c :: p => is_letter c && forallb (fun c => is_letter c || is_digit c) p
  end.

Section text.
(** The rendering of a string by the verb %q in a message. *)
Context (quoted : bytes -> string).

Fixpoint too_long (parts : list bytes) : option error :=
  match parts with
  | [] => None
  | p :: parts =>
      if MaxIdentLen <? zlen p
      then Some (ErrSuffix ErrInvalidTableName (": " +:+ quoted p +:+ " exceeds " +:+ pretty MaxIdentLen +:+ " characters")%string)
      else too_long parts
  end.

Definition Table (s : Style) (name : bytes) : error + bytes :=
  let '(schema, table, qualified) :=
    match Cut x2e name with Some (a, b) => (a, b, true) | None => (name, [], false) end in
  if negb (isIdent schema) || (qualified && negb (isIdent table))
  then inl (ErrSuffix ErrInvalidTableName (": " +:+ quoted name)%string)
  else
    match too_long [schema; table] with
    | Some err => inl err
    | None =>
        inr ([Quote s] ++ schema ++ [Quote s] ++
             (if (qualified : bool) then [x2e] ++ [Quote s] ++ table ++ [Quote s] else []))
    end.

End text.

(** [fnv.New32a]. *)
Definition fnv32a (b : bytes) : Z := fold_left (fun h c => (Z.lxor h (Z_of_byte c) * 16777619) mod 2 ^ 32) b 2166136261.

(** [IndexName]; [None] is the panic of the slice expression. *)
Definition IndexName (s : Style) (table suffix : bytes) : option bytes :=
  let name := table ++ bs "_" ++ suffix ++ bs "_idx" in
  if MaxIdentLen <? zlen name then
    let tail := bs "_" ++ hex_encode (be_bytes 4 (fnv32a table)) ++ bs "_" ++ suffix ++ bs "_idx" in
    let n := MaxIdentLen - zlen tail in
    if (n <? 0) || (zlen table <? n) then None else Some (Ident s (take (Z.to_nat n) table ++ tail))
  else Some (Ident s name).

Fixpoint bind_loop (query : bytes) (n : Z) : bytes :=
  match query with
  | [] => []
  | c :: query =>
      if bool_decide (c = x3f) then x24 :: FormatInt n ++ bind_loop query (n + 1) else c :: bind_loop query n
  end.
Definition Bind (s : Style) (query : bytes) (start : Z) : bytes := if Numbered s then bind_loop query start else query.

(** The part after the last dot, and the part before it. *)
Definition Unqualified (name : bytes) : bytes :=
  match Cut x2e (rev name) with Some (table, _) => rev table | None => name end.
Definition Qualifier (name : bytes) : bytes :=
  match Cut x2e (rev name) with Some (_, schema) => rev schema | None => [] end.

End SqlDialect.
