(* ===== verification/Projection.v ===== *)
(** * Field projection: data/projection

    The parser of field lists, the policy that resolves a request to storage
    names, and the renderings for MongoDB and SQL.  The cache of the parser is
    the class [Cacher] of Singleflight.v; the result of a call of [Parse] whose
    context ends while it waits is the caller's business there. *)

From S2P Require Import Prelude GoBytes GoStrings ImmutableMap FieldPolicy SqlDialect Singleflight.
From Stdlib Require Import Strings.Byte.

Module Projection.
Import GoBytes GoStrings FieldPolicy.
Import Singleflight (Cacher, cache_Get, cache_Put).

Definition ErrEmptyClause : error := ErrNew "empty fields clause".
Definition ErrInvalidFieldPath : error := ErrNew "invalid field path".
Definition ErrUnsupportedPath : error := ErrNew "unsupported field path syntax".
Definition ErrExpressionTooLong : error := ErrNew "fields expression length exceeds maximum allowed".
Definition ErrMaxPathsExceeded : error := ErrNew "number of field paths exceeds maximum allowed".
Definition ErrMaxFieldPathDepthExceeded : error := ErrNew "field path depth exceeds maximum allowed".
Definition ErrMaxFieldNameLengthExceeded : error := ErrNew "field name length exceeds maximum allowed".
Definition ErrFieldNotAllowed : error := ErrNew "field not allowed".
Definition ErrAllowlistRequired : error := ErrNew "allowlist is required for untrusted input".
Definition ErrConflictingPolicy : error := ErrNew "conflicting projection policy".
Definition ErrDefaultFieldsRequired : error := ErrNew "default fields are required".

Definition text (b : bytes) : string := String.string_of_list_byte b.

(** ** Specifications and selections *)

Record Spec := mkSpec { Paths : list bytes }.
Definition IsEmpty (s : Spec) : bool := match Paths s with [] => true | _ => false end.

(** [path] is selected in full. *)
Definition Contains (s : Spec) (path : bytes) : bool :=
  if IsEmpty s then true
  else existsb (fun p => bool_decide (p = path) || (HasPrefix path p && bool_decide (path !! length p = Some dot))) (Paths s).

Definition Relative (s : Spec) (prefix : bytes) : Spec * bool :=
  if Contains s prefix then (mkSpec [], true)
  else
    match omap (fun p => CutPrefix p (prefix ++ [dot])) (Paths s) with
    | [] => (mkSpec [], false)
    | out => (mkSpec (Compact (Sort out)), true)
    end.

Record Selection := mkSelection { Include : list bytes; Exclude : list bytes }.

(** ** The parser *)

Definition allFields : bytes := [star].

Definition DefaultMaxExpressionLength : Z := 4096.
Definition DefaultMaxPaths : Z := 64.
Definition DefaultMaxFieldPathDepth : Z := 8.
Definition DefaultMaxFieldNameLength : Z := 128.

Record parserOptions := mkParserOptions {
  maxExpressionLength : Z;
  maxPaths : Z;
  maxFieldPathDepth : Z;
  maxFieldNameLength : Z
}.
Definition defaultParserOptions : parserOptions :=
  mkParserOptions DefaultMaxExpressionLength DefaultMaxPaths DefaultMaxFieldPathDepth DefaultMaxFieldNameLength.

Definition isIdent (s : bytes) : bool :=
  match s with
  | [] => false
  | c :: s => is_letter c && forallb (fun c => is_letter c || is_digit c) s
  end.
Definition isNumeric (s : bytes) : bool := match s with [] => false | _ => forallb is_digit s end.

Section projection.
(** The rendering of a string by the verb %q in a message. *)
Context (quoted : bytes -> string).

Fixpoint check_segments (path : bytes) (segs : list bytes) : option error :=
  match segs with
  | [] => None
  | seg :: segs =>
      if isIdent seg then check_segments path segs
      else if bool_decide (seg = allFields) || GoStrings.Contains x60 seg || isNumeric seg
      then Some (Errors.Wrapf ErrUnsupportedPath (quoted path))
      else Some (Errors.Wrapf ErrInvalidFieldPath (quoted path))
  end.
Definition checkPath (path : bytes) : option error := check_segments path (Split dot path).

Section parser.
Context (cfg : parserOptions).

Definition validatePath (path : bytes) : option error :=
  if maxFieldNameLength cfg <? zlen path
  then Some (Errors.Wrapf ErrMaxFieldNameLengthExceeded
               ("field " +:+ quoted path +:+ " (" +:+ pretty (zlen path) +:+ " bytes) exceeds maximum " +:+
                pretty (maxFieldNameLength cfg))%string)
  else
    let depth := Z.of_nat (Count dot path) + 1 in
    if maxFieldPathDepth cfg <? depth
    then Some (Errors.Wrapf ErrMaxFieldPathDepthExceeded
                 ("field " +:+ quoted path +:+ " has " +:+ pretty depth +:+ " segments (max " +:+
                  pretty (maxFieldPathDepth cfg) +:+ ")")%string)
    else checkPath path.

Fixpoint parse_clauses (expression : bytes) (clauses : list bytes) : error + list bytes :=
  match clauses with
  | [] => inr []
  | clause :: clauses =>
      match TrimSpace clause with
      | [] => inl (Errors.Wrapf ErrEmptyClause ("fields " +:+ quoted expression +:+ " contain an empty path")%string)
      | path =>
          match validatePath path with
          | Some err => inl err
          | None =>
              match parse_clauses expression clauses with
              | inl err => inl err
              | inr paths => inr (path :: paths)
              end
          end
      end
  end.

Definition parseInternal (expression : bytes) : error + Spec :=
  let trimmed := TrimSpace expression in
  if bool_decide (trimmed = []) || bool_decide (trimmed = allFields) then inr (mkSpec [])
  else
    let n := Z.of_nat (Count x2c trimmed) + 1 in
    if maxPaths cfg <? n
    then inl (Errors.Wrapf ErrMaxPathsExceeded (pretty n +:+ " paths exceeds maximum " +:+ pretty (maxPaths cfg))%string)
    else
      match parse_clauses expression (Split x2c trimmed) with
      | inl err => inl err
      | inr paths => inr (mkSpec (Compact (Sort paths)))
      end.

Definition too_long (n : Z) : option error :=
  if maxExpressionLength cfg <? n
  then Some (Errors.Wrapf ErrExpressionTooLong
               ("length " +:+ pretty n +:+ " exceeds maximum " +:+ pretty (maxExpressionLength cfg))%string)
  else None.

(** The cache of the parser, when it has one. *)
Context {C : Type} `{Cacher C bytes Spec}.

(** [parseCached]: [GetOrCompute] of a caller whose context has ended with
    [ctxErr] or does not end. *)
Definition parseCached (ctxErr : option error) (cache : option C) (expr : bytes) : (error + Spec) * option C :=
  match cache with
  | None => (parseInternal expr, None)
  | Some c =>
      match cache_Get expr c with
      | (Some spec, c) => (inr spec, Some c)
      | (None, c) =>
          match ctxErr with
          | Some err => (inl err, Some c)
          | None =>
              match cache_Get expr c with
              | (Some spec, c) => (inr spec, Some c)
              | (None, c) =>
                  match parseInternal expr with
                  | inl err => (inl err, Some c)
                  | inr spec => (inr spec, Some (cache_Put expr spec c))
                  end
              end
          end
      end
  end.

Definition Parse (ctxErr : option error) (cache : option C) (expression : bytes) : (error + Spec) * option C :=
  match too_long (zlen expression) with
  | Some err => (inl err, cache)
  | None => parseCached ctxErr cache expression
  end.

Fixpoint bad_element (all paths : list bytes) : option error :=
  match paths with
  | [] => None
  | path :: paths =>
      if GoStrings.Contains x2c path then Some (Errors.Wrapf ErrInvalidFieldPath (quoted path))
      else if bool_decide (TrimSpace path = [])
      then Some (Errors.Wrapf ErrEmptyClause ("paths [" +:+ String.concat " " (quoted <$> all) +:+ "] contain an empty path")%string)
      else bad_element all paths
  end.

Definition ParsePaths (ctxErr : option error) (cache : option C) (paths : list bytes) : (error + Spec) * option C :=
  match paths with
  | [] => (inr (mkSpec []), cache)
  | _ =>
      if maxPaths cfg <? zlen paths
      then (inl (Errors.Wrapf ErrMaxPathsExceeded
                   (pretty (zlen paths) +:+ " paths exceeds maximum " +:+ pretty (maxPaths cfg))%string), cache)
      else
        match too_long (fold_left (fun total path => total + zlen path) paths (zlen paths - 1)) with
        | Some err => (inl err, cache)
        | None =>
            match bad_element paths paths with
            | Some err => (inl err, cache)
            | None => Parse ctxErr cache (Join [x2c] paths)
            end
        end
  end.
End parser.

(** ** The policy *)

(** The hashes of the frozen maps of the allow-list and of the mapping. *)
Context (hashA hashM : bytes -> Z).

Record translatorOptions := mkOptions {
  allowedFields : AllowList;
  fieldMapping : Mapping;
  deniedFields : list bytes;
  deniedStorageFields : list bytes;
  requiredFields : list bytes;
  defaultFields : list bytes;
  untrustedInput : bool;
  deniedStorage : list bytes;
  defaultSelection : Selection
}.

Definition defaultTranslatorOptions : translatorOptions :=
  mkOptions anyField noMapping [] [] [] [] false [] (mkSelection [] []).

Definition TranslatorOption := translatorOptions -> translatorOptions.

Definition WithAllowedFields (fields : list bytes) : TranslatorOption := fun o =>
  mkOptions (NewAllowList hashA fields) (fieldMapping o) (deniedFields o) (deniedStorageFields o) (requiredFields o)
    (defaultFields o) (untrustedInput o) (deniedStorage o) (defaultSelection o).
Definition WithFieldMapping (mapping : list (bytes * bytes)) : TranslatorOption := fun o =>
  mkOptions (allowedFields o) (WithExact hashM mapping (fieldMapping o)) (deniedFields o) (deniedStorageFields o)
    (requiredFields o) (defaultFields o) (untrustedInput o) (deniedStorage o) (defaultSelection o).
Definition WithFieldPrefixMapping (mapping : list (bytes * bytes)) : TranslatorOption := fun o =>
  mkOptions (allowedFields o) (WithPrefixes mapping (fieldMapping o)) (deniedFields o) (deniedStorageFields o)
    (requiredFields o) (defaultFields o) (untrustedInput o) (deniedStorage o) (defaultSelection o).
Definition WithDeniedFields (paths : list bytes) : TranslatorOption := fun o =>
  mkOptions (allowedFields o) (fieldMapping o) paths (deniedStorageFields o) (requiredFields o) (defaultFields o)
    (untrustedInput o) (deniedStorage o) (defaultSelection o).
Definition WithDeniedStorageFields (paths : list bytes) : TranslatorOption := fun o =>
  mkOptions (allowedFields o) (fieldMapping o) (deniedFields o) paths (requiredFields o) (defaultFields o)
    (untrustedInput o) (deniedStorage o) (defaultSelection o).
Definition WithRequiredFields (paths : list bytes) : TranslatorOption := fun o =>
  mkOptions (allowedFields o) (fieldMapping o) (deniedFields o) (deniedStorageFields o) paths (defaultFields o)
    (untrustedInput o) (deniedStorage o) (defaultSelection o).
Definition WithDefaultFields (paths : list bytes) : TranslatorOption := fun o =>
  mkOptions (allowedFields o) (fieldMapping o) (deniedFields o) (deniedStorageFields o) (requiredFields o) paths
    (untrustedInput o) (deniedStorage o) (defaultSelection o).
Definition WithUntrustedInput : TranslatorOption := fun o =>
  mkOptions (allowedFields o) (fieldMapping o) (deniedFields o) (deniedStorageFields o) (requiredFields o) (defaultFields o)
    true (deniedStorage o) (defaultSelection o).

(** The two fields that [NewTranslatorContext] derives. *)
Definition set_deniedStorage (l : list bytes) (o : translatorOptions) : translatorOptions :=
  mkOptions (allowedFields o) (fieldMapping o) (deniedFields o) (deniedStorageFields o) (requiredFields o)
    (defaultFields o) (untrustedInput o) l (defaultSelection o).
Definition set_defaultSelection (s : Selection) (o : translatorOptions) : translatorOptions :=
  mkOptions (allowedFields o) (fieldMapping o) (deniedFields o) (deniedStorageFields o) (requiredFields o)
    (defaultFields o) (untrustedInput o) (deniedStorage o) s.

Definition newTranslatorOptions (opts : list TranslatorOption) : translatorOptions :=
  fold_left (fun o opt => opt o) opts defaultTranslatorOptions.

Definition sortedSet (s : list bytes) : list bytes := Compact (Sort s).

(** The first entry of [set] that overlaps [path]. *)
Fixpoint overlapping (path : bytes) (set : list bytes) : option bytes :=
  match set with
  | [] => None
  | d :: set => if Overlaps path d then Some d else overlapping path set
  end.

Definition denied_error (p d : bytes) : error :=
  Errors.Wrapf ErrFieldNotAllowed (text p +:+ " overlaps denied field " +:+ text d)%string.

Fixpoint check_denied (o : translatorOptions) (p : bytes) (names : list bytes) : option error :=
  match names with
  | [] => None
  | s :: names =>
      match overlapping s (deniedStorage o) with
      | Some d => Some (denied_error p d)
      | None => check_denied o p names
      end
  end.

Definition appendStorageNames (o : translatorOptions) (dst : list bytes) (p : bytes) : error + list bytes :=
  match overlapping p (deniedFields o) with
  | Some d => inl (denied_error p d)
  | None =>
      let start := length dst in
      let dst := AppendSubtree hashM (fieldMapping o) dst p in
      match check_denied o p (drop start dst) with
      | Some err => inl err
      | None => inr dst
      end
  end.

(** The loop of [resolveDefault] over its roots. *)
Fixpoint default_names (o : translatorOptions) (roots include : list bytes) : error + list bytes :=
  match roots with
  | [] => inr include
  | p :: roots =>
      match appendStorageNames o include p with
      | inl err =>
          let sentinel := match defaultFields o with [] => ErrDefaultFieldsRequired | _ => ErrConflictingPolicy end in
          inl (Errors.Wrapf sentinel ("default field " +:+ quoted p +:+ ": " +:+ Errors.text err)%string)
      | inr include => default_names o roots include
      end
  end.
Definition default_from (o : translatorOptions) (roots : list bytes) : error + Selection :=
  match default_names o roots [] with
  | inl err => inl err
  | inr include => inr (mkSelection (sortedSet (include ++ requiredFields o)) [])
  end.
Definition resolveDefault (o : translatorOptions) : error + Selection :=
  match defaultFields o with
  | _ :: _ =>
      match list_find (fun p => Allows hashA (allowedFields o) p = false) (defaultFields o) with
      | Some (_, p) => inl (Errors.Wrapf ErrConflictingPolicy ("default field " +:+ quoted p +:+ " is not allowed")%string)
      | None => default_from o (defaultFields o)
      end
  | [] =>
      if negb (MatchesAll (allowedFields o)) then
        match Roots (allowedFields o) with
        | [] => inl (Errors.Wrapf ErrDefaultFieldsRequired "the allow-list is empty")
        | roots => default_from o roots
        end
      else inr (mkSelection [] (deniedStorage o))
  end.

Fixpoint check_paths (paths : list bytes) : option error :=
  match paths with
  | [] => None
  | p :: paths => match checkPath p with Some err => Some err | None => check_paths paths end
  end.

Fixpoint check_required (o : translatorOptions) (required : list bytes) : option error :=
  match required with
  | [] => None
  | r :: required =>
      match overlapping r (deniedStorage o) with
      | Some d => Some (Errors.Wrapf ErrConflictingPolicy
                          ("required field " +:+ quoted r +:+ " overlaps denied field " +:+ quoted d)%string)
      | None => check_required o required
      end
  end.

Definition NewTranslatorContext (opts : list TranslatorOption) : error + translatorOptions :=
  let o := newTranslatorOptions opts in
  if untrustedInput o && FieldPolicy.IsEmpty (allowedFields o) then inl ErrAllowlistRequired
  else
    match check_paths (concat [deniedFields o; deniedStorageFields o; requiredFields o; defaultFields o]) with
    | Some err => inl err
    | None =>
        let o := set_deniedStorage
                   (sortedSet (deniedStorageFields o ++ concat (Reach hashM (fieldMapping o) <$> deniedFields o))) o in
        match check_required o (requiredFields o) with
        | Some err => inl err
        | None =>
            match resolveDefault o with
            | inl err => inl err
            | inr def => inr (set_defaultSelection def o)
            end
        end
    end.

(** The loop of [Resolve]. *)
Fixpoint resolve_names (o : translatorOptions) (paths include : list bytes) : error + list bytes :=
  match paths with
  | [] => inr include
  | p :: paths =>
      match checkPath p with
      | Some err => inl err
      | None =>
          if negb (Allows hashA (allowedFields o) p) then inl (Errors.Wrapf ErrFieldNotAllowed (text p))
          else
            match appendStorageNames o include p with
            | inl err => inl err
            | inr include => resolve_names o paths include
            end
      end
  end.
Definition Resolve (o : translatorOptions) (spec : Spec) : error + Selection :=
  if IsEmpty spec then inr (defaultSelection o)
  else
    match resolve_names o (Paths spec) [] with
    | inl err => inl err
    | inr include => inr (mkSelection (sortedSet (include ++ requiredFields o)) [])
    end.

(** ** MongoDB *)

Definition idField : bytes := bs "_id".

(** [collapse]; [out] is what is kept so far. *)
Fixpoint collapse_loop (paths out : list bytes) : list bytes :=
  match paths with
  | [] => out
  | p :: paths => collapse_loop paths (if existsb (Overlaps p) out then out else out ++ [p])
  end.
Definition collapse (paths : list bytes) : list bytes := collapse_loop paths [].

(** A document with one value for all of [paths]. *)
Definition document (paths : list bytes) (value : Z) : gmap bytes Z := list_to_map ((fun p => (p, value)) <$> paths).

(** The projection document; [None] is nil. *)
Definition mongo_Translate (o : translatorOptions) (spec : Spec) : error + option (gmap bytes Z) :=
  match Resolve o spec with
  | inl err => inl err
  | inr (mkSelection ((_ :: _) as inc) _) =>
      let paths := collapse inc in
      let out := document paths 1 in
      inr (Some (if existsb (fun p => Overlaps p idField) paths then out else <[idField := 0]> out))
  | inr (mkSelection [] ((_ :: _) as exc)) => inr (Some (document (collapse exc) 0))
  | inr _ => inr None
  end.

(** ** SQL *)

Fixpoint render_columns (style : SqlDialect.Style) (columns : list bytes) : error + list bytes :=
  match columns with
  | [] => inr []
  | name :: columns =>
      match SqlDialect.Table quoted style name with
      | inl err => inl (Errors.Wrapf ErrInvalidFieldPath (text name +:+ " is not a SQL column name: " +:+ Errors.text err)%string)
      | inr col => match render_columns style columns with inl err => inl err | inr cols => inr (col :: cols) end
      end
  end.
Definition render (style : SqlDialect.Style) (columns : list bytes) : error + bytes :=
  match render_columns style columns with inl err => inl err | inr cols => inr (Join (bs ", ") cols) end.

Definition sql_NewContext (style : SqlDialect.Style) (opts : list TranslatorOption) : error + translatorOptions :=
  match NewTranslatorContext opts with
  | inl err => inl err
  | inr o =>
      let def := defaultSelection o in
      match Exclude def with
      | _ :: _ =>
          inl (Errors.Wrapf ErrDefaultFieldsRequired
                 ("SQL cannot exclude denied columns [" +:+ text (Join (bs " ") (Exclude def)) +:+ "]")%string)
      | [] => match render style (Include def) with inl err => inl err | inr _ => inr o end
      end
  end.
Definition sql_Translate (style : SqlDialect.Style) (o : translatorOptions) (spec : Spec) : error + bytes :=
  match Resolve o spec with
  | inl err => inl err
  | inr sel => render style (Include sel)
  end.

End projection.
End Projection.
