(* ===== verification/ProjectionParser.v ===== *)
(** * What the field parser accepts

    The grammar of field lists as an inductive reading of its syntax, and the
    parser as its recogniser: what it accepts lies in the grammar, what lies in
    the grammar it accepts, and a cache in front of it changes nothing. *)

From S2P Require Import Prelude GoBytes GoStrings Singleflight FieldPolicy Projection.
From Stdlib Require Import Strings.Byte.

Module ProjectionParser.
Import GoBytes GoStrings FieldPolicy Projection.
Import Singleflight (Cacher, cache_Get, cache_Put).

(** ** Paths *)

Lemma letter_graphic c : is_letter c || is_digit c = true -> graphic c /\ c <> dot /\ c <> x2c /\ c <> star.
Proof. by destruct c; vm_compute; intros; try discriminate; split_and!; try discriminate. Qed.

Lemma letter_not_digit_head c : is_letter c = true -> is_letter c || is_digit c = true.
Proof. by intros ->. Qed.

Lemma isIdent_chars s : isIdent s = true -> s <> [] /\ Forall (fun c => is_letter c || is_digit c = true) s.
Proof.
  destruct s as [|c s]; [done|]. cbn. intros [Hc Hs]%andb_true_iff. split; [done|]. apply list.Forall_cons. split; [by rewrite Hc|].
  rewrite forallb_forall in Hs. apply list.Forall_forall. intros x Hx. by apply Hs, list_elem_of_In.
Qed.

(** A path within the limits: identifiers with dots between them. *)
Definition path_ok (cfg : parserOptions) (p : bytes) : Prop :=
  exists segs, segs <> [] /\ Forall (fun s => isIdent s = true) segs /\ p = Join [dot] segs /\
    zlen segs <= maxFieldPathDepth cfg /\ zlen p <= maxFieldNameLength cfg.

Lemma ident_no_dot segs s : Forall (fun s => isIdent s = true) segs -> s ∈ segs -> dot ∉ s.
Proof.
  intros Hs Hin Hd. rewrite list.Forall_forall in Hs. destruct (isIdent_chars s (Hs s Hin)) as [_ Hc].
  rewrite list.Forall_forall in Hc. destruct (letter_graphic _ (Hc _ Hd)) as (_ & ? & _). done.
Qed.

Section parser.
Context (quoted : bytes -> string) (cfg : parserOptions).

Lemma check_segments_None path segs : check_segments quoted path segs = None <-> Forall (fun s => isIdent s = true) segs.
Proof.
  induction segs as [|s segs IH]; cbn; [done|]. rewrite list.Forall_cons, <-IH. destruct (isIdent s); [tauto|].
  case_match; split; naive_solver.
Qed.

Lemma validatePath_None p : validatePath quoted cfg p = None <-> path_ok cfg p.
Proof.
  unfold validatePath, path_ok, checkPath. replace (Z.of_nat (Count dot p) + 1) with (zlen (Split dot p)) by (unfold zlen; rewrite length_Split; lia).
  destruct (Z.ltb_spec (maxFieldNameLength cfg) (zlen p)); [split; [done|]; intros (? & ? & ? & ? & ? & ?); lia|].
  destruct (Z.ltb_spec (maxFieldPathDepth cfg) (zlen (Split dot p))) as [Hd|Hd].
  - split; [done|]. intros (segs & Hne & Hs & -> & Hl & _). rewrite Split_Join in Hd; [lia|done|]. intros s. by apply ident_no_dot.
  - rewrite check_segments_None. split.
    + intros Hs. exists (Split dot p). split_and!; [apply Split_nonempty|done|by rewrite Join_Split|done|done].
    + intros (segs & Hne & Hs & -> & _). rewrite Split_Join; [done|done|]. intros s. by apply ident_no_dot.
Qed.

End parser.

(** ** Clauses: a path with white space around it *)

Record clause := mkClause { before : bytes; path : bytes; after : bytes }.
Definition render (c : clause) : bytes := before c ++ path c ++ after c.
Definition clause_ok (cfg : parserOptions) (c : clause) : Prop := path_ok cfg (path c) /\ blank (before c) /\ blank (after c).

Lemma path_ok_ends cfg p : path_ok cfg p ->
  exists c l l' c', p = c :: l /\ p = l' ++ [c'] /\ graphic c /\ graphic c' /\ c <> star /\ x2c ∉ p.
Proof.
  intros (segs & Hne & Hs & -> & _).
  assert (Forall (fun c => is_letter c || is_digit c = true \/ c = dot) (Join [dot] segs)) as Hall.
  { clear Hne. induction Hs as [|s segs Hs Hss IH]; [done|]. destruct (isIdent_chars s Hs) as [_ Hc].
    assert (Forall (fun c => is_letter c || is_digit c = true \/ c = dot) s) as Hc' by (eapply Forall_impl; [exact Hc|by left]).
    destruct segs; [done|]. rewrite Join_cons by done. apply Forall_app. split; [done|]. apply list.Forall_cons. by split; [right|]. }
  assert (exists c l, Join [dot] segs = c :: l /\ is_letter c || is_digit c = true) as (c & l & Ec & Hc).
  { destruct Hs as [|s segs Hs Hss]; [done|]. destruct (isIdent_chars s Hs) as [Hn Hf]. destruct s as [|c s]; [done|].
    apply list.Forall_cons in Hf as [Hc _]. destruct segs; [by exists c, s|]. rewrite Join_cons by done. by eexists c, _. }
  assert (exists l' c', Join [dot] segs = l' ++ [c'] /\ is_letter c' || is_digit c' = true) as (l' & c' & Ec' & Hc').
  { clear -Hne Hs. induction Hs as [|s segs Hs Hss IH]; [done|]. destruct segs as [|s' segs].
    - destruct (isIdent_chars s Hs) as [Hn Hf]. destruct (exists_last Hn) as (l & c & ->). exists l, c.
      split; [done|]. by apply Forall_app in Hf as [_ [? _]%list.Forall_cons].
    - destruct (IH ltac:(done)) as (l & c & E & Hc). exists (s ++ [dot] ++ l), c. rewrite Join_cons, E by done.
      split; [by rewrite <-!app_assoc|done]. }
  destruct (letter_graphic c Hc) as (? & ? & ? & ?), (letter_graphic c' Hc') as (? & _). exists c, l, l', c'. split_and!; try done.
  rewrite list.Forall_forall in Hall. intros [Hx|Hx]%Hall; [|done]. by destruct (letter_graphic _ Hx) as (_ & _ & ? & _).
Qed.

Lemma blank_no_comma w : blank w -> x2c ∉ w.
Proof. unfold blank. rewrite list.Forall_forall. intros Hw Hx%Hw. done. Qed.

Lemma render_no_comma cfg c : clause_ok cfg c -> x2c ∉ render c.
Proof.
  intros (Hp & Hb & Ha). unfold render. rewrite !elem_of_app. destruct (path_ok_ends _ _ Hp) as (? & ? & ? & ? & _ & _ & _ & _ & _ & ?).
  pose proof (blank_no_comma _ Hb). pose proof (blank_no_comma _ Ha). tauto.
Qed.

Lemma TrimSpace_render cfg c : clause_ok cfg c -> TrimSpace (render c) = path c.
Proof.
  intros (Hp & Hb & Ha). destruct (path_ok_ends _ _ Hp) as (x & l & l' & y & E & E' & Hx & Hy & _). unfold render. rewrite E in *.
  by eapply TrimSpace_padded.
Qed.

(** The white space at the two ends of a list of clauses is trimmed. *)
Notation clauses_text cs := (Join [x2c] (render <$> cs)).

Lemma text_cons c cs : cs <> [] -> clauses_text (c :: cs) = render c ++ x2c :: clauses_text cs.
Proof. intros Hn. cbn [fmap list_fmap]. rewrite Join_cons; [done|]. by destruct cs. Qed.

Lemma text_right cfg cs : cs <> [] -> Forall (clause_ok cfg) cs ->
  exists cs' w' l' y, clauses_text cs = clauses_text cs' ++ w' /\ clauses_text cs' = l' ++ [y] /\ graphic y /\ blank w' /\
    Forall (clause_ok cfg) cs' /\ path <$> cs' = path <$> cs /\ before <$> cs' = before <$> cs.
Proof.
  intros Hn Hall. induction Hall as [|c cs Hc Hcs IH]; [done|]. destruct cs as [|c' cs].
  - destruct Hc as (Hp & Hb & Ha). destruct (path_ok_ends _ _ Hp) as (x & l & l' & y & _ & E & _ & Hy & _).
    exists [mkClause (before c) (path c) []], (after c), (before c ++ l'), y. cbn. unfold render. cbn. rewrite app_nil_r.
    split_and!; [by rewrite app_assoc|by rewrite E, app_assoc|done|done| |done|done]. apply list.Forall_singleton. unfold clause_ok. cbn. split_and!; [done|done|constructor].
  - destruct (IH ltac:(done)) as (cs' & w' & l' & y & E & El & Hy & Hw & Hok & Hp & Hb). clear IH.
    assert (cs' <> []) as Hn' by (intros ->; by destruct l'). exists (c :: cs'), w', (render c ++ x2c :: l'), y. rewrite (text_cons c (c' :: cs)), (text_cons c cs'), E, El by done.
    split_and!; [by rewrite <-(app_assoc (render c)); cbn|by rewrite <-app_assoc|done|done|by apply list.Forall_cons|..]; cbn; by f_equal.
Qed.

Lemma text_trim cfg cs : cs <> [] -> Forall (clause_ok cfg) cs ->
  exists cs', Forall (clause_ok cfg) cs' /\ path <$> cs' = path <$> cs /\ TrimSpace (clauses_text cs) = clauses_text cs' /\
    exists x l, clauses_text cs' = x :: l /\ x <> star.
Proof.
  destruct cs as [|c cs]; [done|]. intros _ [(Hp & Hb & Ha) Hcs]%list.Forall_cons.
  destruct (text_right cfg (mkClause [] (path c) (after c) :: cs)) as (cs' & w' & l' & y & E & El & Hy & Hw & Hok & Hpath & Hbef);
    [done|apply list.Forall_cons; split; [split; [exact Hp|split; [constructor|exact Ha]]|exact Hcs]|]. exists cs'. split_and!; [done|exact Hpath|..].
  - replace (clauses_text (c :: cs)) with (before c ++ clauses_text (mkClause [] (path c) (after c) :: cs)).
    2: { destruct cs as [|k cs]; [done|]. rewrite !text_cons by done. unfold render. cbn. by rewrite <-!app_assoc. }
    rewrite E. destruct cs' as [|c' cs']; [done|]. injection Hpath as Ec Ecs. injection Hbef as Eb _.
    destruct (path_ok_ends _ _ Hp) as (x & l & _ & _ & Ep & _ & Hx & _).
    assert (exists r, clauses_text (c' :: cs') = x :: r) as [r Er].
    { destruct cs'; [|rewrite text_cons by done]; cbn; unfold render; rewrite Eb, Ec, Ep; by eexists. }
    rewrite Er in *. by eapply TrimSpace_padded.
  - destruct cs' as [|c' cs']; [done|]. injection Hpath as Ec Ecs. injection Hbef as Eb _.
    destruct (path_ok_ends _ _ Hp) as (x & l & _ & _ & Ep & _ & Hx & _ & ? & _). exists x.
    destruct cs'; [|rewrite text_cons by done]; cbn; unfold render; rewrite Eb, Ec, Ep; by eexists.
Qed.

(** ** Parsing *)

Section parsing.
Context (quoted : bytes -> string) (cfg : parserOptions).

Lemma parse_clauses_render e cs :
  Forall (clause_ok cfg) cs -> parse_clauses quoted cfg e (render <$> cs) = inr (path <$> cs).
Proof.
  induction 1 as [|c cs Hc Hcs IH]; [done|]. cbn [fmap list_fmap parse_clauses]. rewrite (TrimSpace_render cfg) by done.
  destruct Hc as [Hp _]. destruct (path_ok_ends _ _ Hp) as (x & l & _ & _ & E & _). rewrite E. rewrite <-E.
  rewrite (proj2 (validatePath_None quoted cfg _) Hp). cbn in IH. by rewrite IH.
Qed.

Lemma parseInternal_render cs :
  cs <> [] -> Forall (clause_ok cfg) cs -> zlen cs <= maxPaths cfg ->
  parseInternal quoted cfg (clauses_text cs) = inr (mkSpec (Compact (Sort (path <$> cs)))).
Proof.
  intros Hn Hok Hl. destruct (text_trim cfg cs Hn Hok) as (cs' & Hok' & Hp & Et & x & l & Ex & Hx). unfold parseInternal. rewrite Et.
  assert (length cs' = length cs) as Hlen by (rewrite <-(length_fmap path cs), <-Hp; by rewrite length_fmap).
  assert (Split x2c (clauses_text cs') = render <$> cs') as Es.
  { apply Split_Join; [by destruct cs'|]. intros s (c & -> & Hc)%list_elem_of_fmap. rewrite list.Forall_forall in Hok'.
    by eapply render_no_comma, Hok'. }
  rewrite !bool_decide_eq_false_2 by (rewrite Ex; unfold allFields; congruence). cbn [orb].
  replace (Z.of_nat (Count x2c (clauses_text cs')) + 1) with (zlen cs).
  2: { pose proof (length_Split x2c (clauses_text cs')) as Hc. rewrite Es, length_fmap in Hc. unfold zlen. lia. }
  destruct (Z.ltb_spec (maxPaths cfg) (zlen cs)); [lia|]. by rewrite Es, parse_clauses_render, Hp.
Qed.

Lemma parse_clauses_ok e clauses paths :
  parse_clauses quoted cfg e clauses = inr paths -> Forall (path_ok cfg) paths /\ length paths = length clauses.
Proof.
  revert paths. induction clauses as [|c clauses IH]; intros paths; cbn; [by intros [= <-]|].
  destruct (TrimSpace c) as [|x l] eqn:Et; [done|]. rewrite <-Et. destruct (validatePath quoted cfg (TrimSpace c)) eqn:Ev; [done|].
  destruct (parse_clauses quoted cfg e clauses) as [|ps]; [done|]. intros [= <-]. destruct (IH ps eq_refl) as [? ?].
  split; [|cbn; lia]. apply list.Forall_cons. split; [by eapply validatePath_None|done].
Qed.

Lemma length_Compact l : (length (Compact l) <= length l)%nat.
Proof. induction l as [|a [|b l] IH]; [done|done|]. rewrite Compact_cons. case_bool_decide; cbn [length] in *; lia. Qed.

(** What a specification holds: paths of the grammar, sorted, each once. *)
Definition spec_ok (s : Spec) : Prop :=
  Forall (path_ok cfg) (Paths s) /\ StronglySorted bytes_le (Paths s) /\ NoDup (Paths s) /\
  (Paths s <> [] -> zlen (Paths s) <= maxPaths cfg).

Lemma parseInternal_ok e s : parseInternal quoted cfg e = inr s -> spec_ok s.
Proof.
  unfold parseInternal. destruct (_ || _); [intros [= <-]; split_and!; [done|constructor|constructor|done]|].
  set (n := _ + 1). destruct (Z.ltb_spec (maxPaths cfg) n) as [?|Hn]; [done|].
  destruct (parse_clauses quoted cfg e _) as [|paths] eqn:Ep; [done|]. intros [= <-]. apply parse_clauses_ok in Ep as [Hok Hl].
  destruct (sorted_set_sorted paths) as [Hs Hnd]. split_and!; [|done|done|]; cbn [Paths].
  - rewrite list.Forall_forall in *. intros p Hp. by apply Hok, elem_of_sorted_set.
  - intros _. pose proof (length_Compact (Sort paths)). assert (length (Sort paths) = length paths) as El by (by unfold Sort; rewrite merge_sort_Permutation).
    rewrite El, Hl, length_Split in *. unfold zlen, n in *. lia.
Qed.

(** ** The cache *)

(** What the parser needs of its cache: it answers only what was stored under
    the key.  Which entries it keeps is its own business. *)
Class CacheSound (C K V : Type) `{Cacher C K V} := {
  holds : C -> K -> V -> Prop;
  get_holds k c v : (cache_Get k c).1 = Some v -> holds c k v;
  get_keeps k c k' v : holds (cache_Get k c).2 k' v -> holds c k' v;
  put_holds k v c k' v' : holds (cache_Put k v c) k' v' -> (k' = k /\ v' = v) \/ holds c k' v'
}.

Context {C : Type} `{Cacher C bytes Spec} `{!CacheSound C bytes Spec}.

(** Only results of this parser are in the cache. *)
Definition cache_ok (c : option C) : Prop := forall c', c = Some c' -> forall e s, holds c' e s -> parseInternal quoted cfg e = inr s.

Lemma cache_ok_get c e : cache_ok (Some c) -> cache_ok (Some (cache_Get e c).2).
Proof. intros Hc c' [= <-] e' s Hh%get_keeps. by apply (Hc c). Qed.

Lemma cache_ok_put c e s : cache_ok (Some c) -> parseInternal quoted cfg e = inr s -> cache_ok (Some (cache_Put e s c)).
Proof. intros Hc He c' [= <-] e' s' [[-> ->]|Hh]%put_holds; [done|by apply (Hc c)]. Qed.

Lemma get_parsed c e s : cache_ok (Some c) -> (cache_Get e c).1 = Some s -> parseInternal quoted cfg e = inr s.
Proof. intros Hc Hg%get_holds. by apply (Hc c). Qed.

Lemma parseCached_eq c e : cache_ok c ->
  (parseCached quoted cfg None c e).1 = parseInternal quoted cfg e /\ cache_ok (parseCached quoted cfg None c e).2.
Proof.
  unfold parseCached. destruct c as [c|]; [|by intros]. intros Hc. pose proof (cache_ok_get c e Hc) as Hc1.
  pose proof (get_parsed c e) as Hg. destruct (cache_Get e c) as [[s|] c1]; cbn [fst snd] in *; [by rewrite (Hg s)|].
  pose proof (cache_ok_get c1 e Hc1) as Hc2. pose proof (get_parsed c1 e) as Hg1.
  destruct (cache_Get e c1) as [[s|] c2]; cbn [fst snd] in *; [by rewrite (Hg1 s)|].
  destruct (parseInternal quoted cfg e) as [err|s] eqn:Ep; [done|]. split; [done|by apply cache_ok_put].
Qed.


End parsing.

(** ** A cache of two entries *)

Definition demo_cache := list (bytes * Spec).
#[export] Instance demo_cacher : Cacher demo_cache bytes Spec := {
  cache_Get k c := (snd <$> (list_find (fun kv => kv.1 = k) c ≫= fun p => Some p.2), c);
  cache_Put k v c := take 2 ((k, v) :: c)
}.

#[export] Program Instance demo_cache_sound : CacheSound demo_cache bytes Spec := { holds c k v := (k, v) ∈ c }.
Next Obligation.
  cbn. intros k c v. destruct (list_find _ c) as [[i [k' v']]|] eqn:E; [|done]. cbn. intros [= <-].
  apply list_find_Some in E as (Hi & <- & _). by eapply list_elem_of_lookup_2.
Qed.
Next Obligation. done. Qed.
Next Obligation.
  cbn [cache_Put demo_cacher]. intros k v c k' v' Hin. assert ((k', v') ∈ (k, v) :: c) as [[= -> ->]|?]%elem_of_cons; [|by left|by right].
  rewrite <-(take_drop 2 ((k, v) :: c)). apply elem_of_app. by left.
Qed.

Definition demo_clauses : list clause :=
  [mkClause [] (bs "name") (bs " "); mkClause (bs " ") (bs "address.city") []; mkClause [] (bs "name") []].


End ProjectionParser.
