(* ===== verification/ProjectionTheorems.v ===== *)
(** * What a projection selects

    The policy never lets a denied field through, in any rendering; the MongoDB
    document selects exactly what was resolved; the parser accepts its grammar,
    with or without a cache. *)

From S2P Require Import Prelude GoBytes GoStrings ImmutableMap FieldPolicy FieldPolicyTheorems SqlDialect Projection.
From S2P Require Import Singleflight SingleflightTheorems.
From Stdlib Require Import Strings.Byte.

Module ProjectionTheorems.
Import GoBytes GoStrings FieldPolicy FieldPolicyTheorems Projection.

Implicit Types (o : translatorOptions) (sel : Selection).

(** ** Clean names *)

Lemma elem_of_concat_fmap {A B} (f : A -> list B) (l : list A) x : x ∈ concat (f <$> l) <-> exists a, a ∈ l /\ x ∈ f a.
Proof.
  induction l as [|a l IH]; cbn [fmap list_fmap concat]; [setoid_rewrite elem_of_nil; naive_solver|].
  rewrite elem_of_app, IH. setoid_rewrite elem_of_cons. naive_solver.
Qed.

Definition clean o (l : list bytes) : Prop := forall s d, s ∈ l -> d ∈ deniedStorage o -> ~ overlap s d.

Lemma clean_app o l l' : clean o (l ++ l') <-> clean o l /\ clean o l'.
Proof. unfold clean. setoid_rewrite elem_of_app. naive_solver. Qed.

Lemma clean_set o l : clean o (sortedSet l) <-> clean o l.
Proof. unfold clean, sortedSet. by setoid_rewrite elem_of_sorted_set. Qed.

Lemma overlapping_None path set : overlapping path set = None <-> forall d, d ∈ set -> ~ overlap path d.
Proof.
  induction set as [|d set IH]; cbn; [split; [by intros _ d ?%elem_of_nil|done]|].
  destruct (Overlaps path d) eqn:E.
  - apply Overlaps_spec in E. split; [done|]. intros Hn. destruct (Hn d ltac:(by left) E).
  - rewrite IH. split; intros Hn d'; [|intros ?; apply Hn; by right].
    intros [->|?]%elem_of_cons; [|by apply Hn]. intros Ho%Overlaps_spec. congruence.
Qed.

Lemma check_denied_None o p names : check_denied o p names = None <-> clean o names.
Proof.
  unfold clean. induction names as [|s names IH]; cbn; [split; [by intros _ s d ?%elem_of_nil|done]|].
  destruct (overlapping s (deniedStorage o)) as [d|] eqn:E.
  - split; [done|]. intros Hn. assert (overlapping s (deniedStorage o) = None) as E'; [|congruence].
    apply overlapping_None. intros d' Hd. apply Hn; [by left|done].
  - rewrite IH. pose proof (proj1 (overlapping_None _ _) E) as Hs. split.
    + intros Hn s' d [->|Hin]%elem_of_cons Hd; [by apply Hs|by apply Hn].
    + intros Hn s' d Hin. apply Hn. by right.
Qed.

(** ** Collapsing *)

Lemma collapse_loop_spec paths out :
  StronglySorted bytes_le paths -> NoDup paths -> (forall x y, x ∈ out -> y ∈ paths -> bytes_le x y /\ x <> y) ->
  (forall x y, x ∈ out -> y ∈ out -> overlap x y -> x = y) ->
  let r := collapse_loop paths out in
  (forall x, x ∈ r -> x ∈ out \/ x ∈ paths) /\ (forall x, x ∈ out \/ x ∈ paths -> exists y, y ∈ r /\ within x y) /\
  (forall x y, x ∈ r -> y ∈ r -> overlap x y -> x = y).
Proof.
  revert out. induction paths as [|p paths IH]; intros out Hs Hn Hle Ho; cbn [collapse_loop].
  { split_and!; [by left| |done]. intros x [Hx|?%elem_of_nil]; [|done]. exists x. split; [done|apply within_refl]. }
  inversion Hs as [|? ? Hs' Hp]; subst. apply NoDup_cons in Hn as [Hnp Hn]. rewrite list.Forall_forall in Hp.
  destruct (existsb (Overlaps p) out) eqn:Ex.
  - apply existsb_exists in Ex as (k & Hk%list_elem_of_In & Hov%Overlaps_spec).
    destruct (IH out Hs' Hn) as (H1 & H2 & H3); [intros x y Hx Hy; apply Hle; [done|by right]|done|].
    split_and!; [intros x [?|?]%H1; [by left|right; by right]| |done].
    intros x [Hx|[->|Hx]%elem_of_cons]; [apply H2; by left| |apply H2; by right].
    destruct (H2 k (or_introl Hk)) as (y & Hy & Hw). exists y. split; [done|]. eapply within_trans; [|exact Hw].
    destruct Hov as [?|[->|[r ->]]]; [done|by left|]. exfalso. destruct (Hle (p ++ dot :: r) p Hk ltac:(by left)) as [Hl Hne].
    apply Hne. apply (anti_symm bytes_le); [done|apply bytes_le_app].
  - assert (forall k, k ∈ out -> ~ overlap p k) as Hno.
    { intros k Hk Hov%Overlaps_spec. assert (existsb (Overlaps p) out = true); [|congruence].
      apply existsb_exists. exists k. by rewrite <-list_elem_of_In. }
    destruct (IH (out ++ [p]) Hs' Hn) as (H1 & H2 & H3).
    + intros x y [Hx| ->%list_elem_of_singleton]%elem_of_app Hy; [apply Hle; [done|by right]|].
      split; [by apply Hp|]. by intros ->.
    + intros x y [Hx| ->%list_elem_of_singleton]%elem_of_app [Hy| ->%list_elem_of_singleton]%elem_of_app Hov; [by apply Ho|..|done].
      * destruct (Hno x Hx). by apply overlap_sym.
      * by destruct (Hno y Hy).
    + setoid_rewrite elem_of_app in H1. setoid_rewrite elem_of_app in H2. setoid_rewrite list_elem_of_singleton in H1.
      setoid_rewrite list_elem_of_singleton in H2. setoid_rewrite elem_of_cons. split_and!; [|naive_solver|done].
      intros x Hx. destruct (H1 x Hx) as [[?|?]|?]; tauto.
Qed.

Lemma collapse_spec paths :
  StronglySorted bytes_le paths -> NoDup paths ->
  (forall x, x ∈ collapse paths -> x ∈ paths) /\ (forall x, x ∈ paths -> exists y, y ∈ collapse paths /\ within x y) /\
  (forall x y, x ∈ collapse paths -> y ∈ collapse paths -> overlap x y -> x = y).
Proof.
  intros Hs Hn. destruct (collapse_loop_spec paths [] Hs Hn) as (H1 & H2 & H3); [by intros x y ?%elem_of_nil..|].
  split_and!; [|intros x Hx; apply H2; by right|done]. intros x [?%elem_of_nil|?]%H1; done.
Qed.

Lemma document_lookup paths v p w : document paths v !! p = Some w <-> p ∈ paths /\ w = v.
Proof.
  unfold document. induction paths as [|q paths IH]; cbn; [rewrite lookup_empty, elem_of_nil; naive_solver|].
  rewrite elem_of_cons, lookup_insert_Some, IH. destruct (decide (q = p)); naive_solver.
Qed.

(** ** Storage names *)

Section policy.
Context (quoted : bytes -> string) (hashA hashM : bytes -> Z).

Lemma AppendSubtree_app m dst p : AppendSubtree hashM m dst p = dst ++ Subtree hashM m p.
Proof. done. Qed.

Lemma append_ok o dst p dst' :
  appendStorageNames hashM o dst p = inr dst' ->
  dst' = dst ++ Subtree hashM (fieldMapping o) p /\ clean o (Subtree hashM (fieldMapping o) p) /\
  forall d, d ∈ deniedFields o -> ~ overlap p d.
Proof.
  unfold appendStorageNames. destruct (overlapping p (deniedFields o)) eqn:Ed; [done|]. cbv zeta.
  rewrite AppendSubtree_app, drop_app_length. destruct (check_denied o p _) eqn:Ec; [done|]. intros [= <-].
  split_and!; [done|by eapply check_denied_None|by apply overlapping_None].
Qed.

Lemma Subtree_nonempty m p : Subtree hashM m p <> [].
Proof. intros E. pose proof (proj1 (Subtree_spec hashM m p)) as H. rewrite E in H. by apply elem_of_nil in H. Qed.

Lemma default_names_ok o roots include names :
  clean o include -> default_names quoted hashM o roots include = inr names ->
  clean o names /\ names = include ++ concat (Subtree hashM (fieldMapping o) <$> roots).
Proof.
  revert include. induction roots as [|p roots IH]; intros include Hc; cbn [default_names fmap list_fmap concat].
  { intros [= <-]. by rewrite app_nil_r. }
  destruct (appendStorageNames hashM o include p) as [err|include'] eqn:Ea; [done|].
  apply append_ok in Ea as (-> & Hs & _). intros E. apply IH in E as [? ->]; [|by apply clean_app].
  split; [done|]. by rewrite <-app_assoc.
Qed.

Lemma resolve_names_ok o paths include names :
  clean o include -> resolve_names quoted hashA hashM o paths include = inr names ->
  clean o names /\ names = include ++ concat (Subtree hashM (fieldMapping o) <$> paths) /\
  forall p, p ∈ paths -> checkPath quoted p = None /\ Allows hashA (allowedFields o) p = true /\
    forall d, d ∈ deniedFields o -> ~ overlap p d.
Proof.
  revert include. induction paths as [|p paths IH]; intros include Hc; cbn [resolve_names fmap list_fmap concat].
  { intros [= <-]. rewrite app_nil_r. split_and!; [done|done|by intros p ?%elem_of_nil]. }
  destruct (checkPath quoted p) eqn:Ep; [done|]. destruct (Allows hashA (allowedFields o) p) eqn:Ew; [|done]. cbn [negb].
  destruct (appendStorageNames hashM o include p) as [err|include'] eqn:Ea; [done|].
  apply append_ok in Ea as (-> & Hs & Hd). intros E. apply IH in E as (? & -> & Hp); [|by apply clean_app].
  split_and!; [done|by rewrite <-app_assoc|]. intros q [->|Hq]%elem_of_cons; [done|by apply Hp].
Qed.

(** ** Contexts *)

(** What is selected: clean storage names, the required ones among them, or
    everything but what is denied. *)
Definition selection_ok o sel : Prop :=
  (Include sel <> [] /\ Exclude sel = [] /\ clean o (Include sel) /\ (forall r, r ∈ requiredFields o -> r ∈ Include sel) /\
   StronglySorted bytes_le (Include sel) /\ NoDup (Include sel)) \/
  (Include sel = [] /\ Exclude sel = deniedStorage o).

Definition context_ok o : Prop :=
  deniedStorage o = sortedSet (deniedStorageFields o ++ concat (Reach hashM (fieldMapping o) <$> deniedFields o)) /\
  clean o (requiredFields o) /\ selection_ok o (defaultSelection o).

Lemma sortedSet_selection o names :
  names <> [] -> clean o names -> clean o (requiredFields o) -> selection_ok o (mkSelection (sortedSet (names ++ requiredFields o)) []).
Proof.
  intros Hn Hc Hr. left. destruct (sorted_set_sorted (names ++ requiredFields o)) as [Hs Hnd].
  split_and!; cbn [Include Exclude]; [|done|by apply clean_set, clean_app| |done|done].
  - intros E. destruct names as [|x names]; [done|].
    assert (x ∈ sortedSet ((x :: names) ++ requiredFields o)) as Hin by (apply elem_of_sorted_set; by left).
    rewrite E in Hin. by apply elem_of_nil in Hin.
  - intros r Hin. apply elem_of_sorted_set, elem_of_app. by right.
Qed.

Lemma check_required_None o l : check_required quoted o l = None -> clean o l.
Proof.
  unfold clean. induction l as [|r l IH]; cbn; [by intros _ s d ?%elem_of_nil|].
  destruct (overlapping r (deniedStorage o)) eqn:E; [done|]. pose proof (proj1 (overlapping_None _ _) E) as Hr.
  intros Hl s d [->|Hin]%elem_of_cons Hd; [by apply Hr|by apply (IH Hl)].
Qed.

Lemma default_from_ok o roots sel :
  roots <> [] -> clean o (requiredFields o) -> default_from quoted hashM o roots = inr sel -> selection_ok o sel.
Proof.
  intros Hr Hq. unfold default_from. destruct (default_names quoted hashM o roots []) as [err|names] eqn:E; [done|].
  apply default_names_ok in E as [Hc ->]; [|by intros s d ?%elem_of_nil]. intros [= <-]. apply sortedSet_selection; [|done|done].
  destruct roots as [|p roots]; [done|]. cbn. intros [? _]%app_nil. by apply (Subtree_nonempty (fieldMapping o) p).
Qed.

Lemma resolveDefault_ok o sel : clean o (requiredFields o) -> resolveDefault quoted hashA hashM o = inr sel -> selection_ok o sel.
Proof.
  intros Hq. unfold resolveDefault. destruct (defaultFields o) as [|f fs] eqn:Ef.
  - destruct (MatchesAll (allowedFields o)); cbn [negb]; [intros [= <-]; by right|].
    destruct (Roots (allowedFields o)) as [|r rs]; [done|]. by apply default_from_ok.
  - destruct (list_find _ _) as [[? ?]|]; [done|]. by apply default_from_ok.
Qed.

Lemma NewTranslatorContext_ok opts o : NewTranslatorContext quoted hashA hashM opts = inr o -> context_ok o.
Proof.
  unfold NewTranslatorContext. cbv zeta. case_match; [done|]. case_match; [done|].
  set (o' := set_deniedStorage _ _). destruct (check_required quoted o' _) eqn:Er; [done|]. apply check_required_None in Er.
  destruct (resolveDefault quoted hashA hashM o') as [err|def] eqn:Ed; [done|]. intros [= <-].
  split; [done|]. split; [done|]. by eapply (resolveDefault_ok o').
Qed.

Lemma Resolve_ok o spec sel : context_ok o -> Resolve quoted hashA hashM o spec = inr sel -> selection_ok o sel.
Proof.
  intros (_ & Hq & Hdef). unfold Resolve. destruct (IsEmpty spec) eqn:Ee; [by intros [= <-]|].
  destruct (resolve_names quoted hashA hashM o (Paths spec) []) as [err|names] eqn:E; [done|].
  apply resolve_names_ok in E as (Hc & -> & _); [|by intros s d ?%elem_of_nil]. intros [= <-].
  apply sortedSet_selection; [|done|done]. unfold IsEmpty in Ee. destruct (Paths spec) as [|p ps]; [done|].
  cbn. intros [? _]%app_nil. by apply (Subtree_nonempty (fieldMapping o) p).
Qed.

(** A request that is not empty resolves to the storage names of its paths and
    the required ones. *)
Lemma Resolve_requested o spec sel :
  Paths spec <> [] -> Resolve quoted hashA hashM o spec = inr sel ->
  Exclude sel = [] /\ Include sel <> [] /\
  (forall s, s ∈ Include sel <-> s ∈ requiredFields o \/ exists p, p ∈ Paths spec /\ s ∈ Subtree hashM (fieldMapping o) p) /\
  (forall p, p ∈ Paths spec -> Allows hashA (allowedFields o) p = true /\ checkPath quoted p = None).
Proof.
  intros Hne. unfold Resolve. assert (IsEmpty spec = false) as -> by (unfold IsEmpty; by destruct (Paths spec)).
  destruct (resolve_names quoted hashA hashM o (Paths spec) []) as [err|names] eqn:En; [done|]. intros [= <-].
  apply resolve_names_ok in En as (_ & -> & Hp); [|by intros s d ?%elem_of_nil]. rewrite app_nil_l in *. cbn [Include Exclude].
  assert (forall s, s ∈ sortedSet (concat (Subtree hashM (fieldMapping o) <$> Paths spec) ++ requiredFields o) <->
    s ∈ requiredFields o \/ exists p, p ∈ Paths spec /\ s ∈ Subtree hashM (fieldMapping o) p) as Hin.
  { intros s. unfold sortedSet. rewrite elem_of_sorted_set, elem_of_app, elem_of_concat_fmap. tauto. }
  split_and!; [done| |exact Hin|intros p Hq; by destruct (Hp p Hq) as (? & ? & _)].
  intros E. rewrite E in Hin. destruct (Paths spec) as [|p ps]; [done|].
  destruct (Subtree hashM (fieldMapping o) p) as [|x l] eqn:Ex; [by apply Subtree_nonempty in Ex|].
  apply (elem_of_nil x), Hin. right. exists p. rewrite Ex. split; by left.
Qed.

End policy.

(** ** What MongoDB returns *)

(** A document that lists a path and one of its ancestors is an error. *)
Definition collision_free (doc : gmap bytes Z) : Prop :=
  forall p q v w, doc !! p = Some v -> doc !! q = Some w -> overlap p q -> p = q.

(** The stored fields a query returns under a projection document, as MongoDB
    documents it: all without one; with an inclusion what is at or below a
    listed path, and the primary key unless the document mentions it; with an
    exclusion everything else. *)
Class MongoProjection (returned : option (gmap bytes Z) -> bytes -> Prop) : Prop := {
  mongo_all f : returned None f;
  mongo_include doc f : collision_free doc -> (exists p, doc !! p = Some 1) ->
    (forall p v, doc !! p = Some v -> v = 1 \/ (p = idField /\ v = 0)) ->
    returned (Some doc) f <->
      (exists p, doc !! p = Some 1 /\ within f p) \/ (within f idField /\ forall p v, doc !! p = Some v -> ~ overlap p idField);
  mongo_exclude doc f : collision_free doc -> doc <> ∅ -> (forall p v, doc !! p = Some v -> v = 0) ->
    returned (Some doc) f <-> ~ exists p, doc !! p = Some 0 /\ within f p
}.

Section mongo.
Context (quoted : bytes -> string) (hashA hashM : bytes -> Z).
Context (returned : option (gmap bytes Z) -> bytes -> Prop) `{!MongoProjection returned}.

Definition selected sel (f : bytes) : Prop :=
  match Include sel with
  | [] => forall d, d ∈ Exclude sel -> ~ within f d
  | inc => exists s, s ∈ inc /\ within f s
  end.

Lemma include_document inc f :
  inc <> [] -> StronglySorted bytes_le inc -> NoDup inc ->
  let paths := collapse inc in
  let doc := if existsb (fun p => Overlaps p idField) paths then document paths 1 else <[idField := 0]> (document paths 1) in
  returned (Some doc) f <-> exists s, s ∈ inc /\ within f s.
Proof using All.
  intros Hne Hs Hn paths doc. destruct (collapse_spec inc Hs Hn) as (Hsub & Hcov & Hfree). fold paths in Hsub, Hcov, Hfree.
  assert (forall p v, doc !! p = Some v <-> (p ∈ paths /\ v = 1) \/
    (p = idField /\ v = 0 /\ forall q, q ∈ paths -> ~ overlap q idField)) as Hdoc.
  { intros p v. unfold doc. destruct (existsb _ paths) eqn:Ex.
    - rewrite document_lookup. apply existsb_exists in Ex as (k & Hk%list_elem_of_In & Ho%Overlaps_spec). naive_solver.
    - assert (forall q, q ∈ paths -> ~ overlap q idField) as Hno.
      { intros q Hq Ho%Overlaps_spec. assert (existsb (fun p => Overlaps p idField) paths = true); [|congruence].
        apply existsb_exists. exists q. by rewrite <-list_elem_of_In. }
      rewrite lookup_insert_Some, document_lookup. split.
      + intros [[<- <-]|[? [? ->]]]; [right; by split_and!|by left].
      + intros [[Hp ->]|(-> & -> & _)]; [|by left]. right. split; [|done]. intros <-. apply (Hno idField Hp). left. apply within_refl. }
  rewrite mongo_include.
  - split.
    + intros [(p & [[Hp _]|(_ & ? & _)]%Hdoc & Hw)|[Hw Hno]]; [exists p; split; [by apply Hsub|done]|done|].
      exfalso. destruct (decide (Exists (fun q => Overlaps q idField = true) paths)) as [Hex|Hall].
      * apply Exists_exists in Hex as (q & Hq & Ho%Overlaps_spec). apply (Hno q 1); [apply Hdoc; by left|done].
      * apply (Hno idField 0); [|left; apply within_refl]. apply Hdoc. right. split_and!; [done..|].
        intros q Hq Ho%Overlaps_spec. apply Hall, Exists_exists. by exists q.
    + intros (s0 & Hin & Hw). left. destruct (Hcov s0 Hin) as (y & Hy & Hsy). exists y. split; [apply Hdoc; by left|by eapply within_trans].
  - intros p q v w Hp Hq Ho. apply Hdoc in Hp as [[Hp _]|(-> & _ & Hp)], Hq as [[Hq _]|(-> & _ & Hq)]; [by apply Hfree|..|done].
    + destruct (Hq p Hp Ho).
    + destruct (Hp q Hq). by apply overlap_sym.
  - destruct inc as [|x inc]; [done|]. destruct (Hcov x ltac:(by left)) as (y & Hy & _). exists y. apply Hdoc. by left.
  - intros p v [[_ ->]|(-> & -> & _)]%Hdoc; [by left|by right].
Qed.

Lemma exclude_document exc f :
  exc <> [] -> StronglySorted bytes_le exc -> NoDup exc ->
  returned (Some (document (collapse exc) 0)) f <-> forall d, d ∈ exc -> ~ within f d.
Proof using All.
  intros Hne Hs Hn. destruct (collapse_spec exc Hs Hn) as (Hsub & Hcov & Hfree). rewrite mongo_exclude.
  - split.
    + intros Hno d Hd Hw. destruct (Hcov d Hd) as (y & Hy & Hdy). apply Hno. exists y. split; [by apply document_lookup|by eapply within_trans].
    + intros Hno (p & [Hp _]%document_lookup & Hw). by apply (Hno p); [apply Hsub|].
  - intros p q v w [Hp _]%document_lookup [Hq _]%document_lookup. by apply Hfree.
  - intros E. destruct exc as [|x exc]; [done|]. destruct (Hcov x ltac:(by left)) as (y & Hy & _).
    assert (document (collapse (x :: exc)) 0 !! y = Some 0) as Hl by (by apply document_lookup). by rewrite E, lookup_empty in Hl.
  - by intros p v [_ ->]%document_lookup.
Qed.

(** The document returns what was resolved. *)
Lemma mongo_selects o spec doc :
  context_ok hashM o -> mongo_Translate quoted hashA hashM o spec = inr doc ->
  exists sel, Resolve quoted hashA hashM o spec = inr sel /\ selection_ok o sel /\ forall f, returned doc f <-> selected sel f.
Proof using All.
  intros Ho. unfold mongo_Translate. destruct (Resolve quoted hashA hashM o spec) as [err|sel] eqn:Er; [done|].
  pose proof (Resolve_ok _ _ _ _ _ _ Ho Er) as Hsel. intros E. exists sel. split; [done|]. split; [done|]. intros f.
  destruct sel as [inc exc]. unfold selected. cbn [Include Exclude] in *. destruct inc as [|x inc].
  - destruct Hsel as [(? & _)|[_ Hx]]; [done|]. cbn [Exclude] in Hx. subst exc.
    destruct (deniedStorage o) as [|d ds] eqn:Ed; injection E as <-.
    + split; [by intros _ d ?%elem_of_nil|]. intros _. apply mongo_all.
    + destruct Ho as (Hd & _). rewrite Ed in Hd.
      destruct (sorted_set_sorted (deniedStorageFields o ++ concat (Reach hashM (fieldMapping o) <$> deniedFields o))) as [Hs Hn].
      unfold sortedSet in Hd. rewrite <-Hd in Hs, Hn. by apply exclude_document.
  - destruct Hsel as [(_ & _ & _ & _ & Hs & Hn)|[? _]]; [|done]. injection E as <-. by apply include_document.
Qed.

(** A clean selection returns nothing at or below a denied name. *)
Lemma selected_clean o sel d f : selection_ok o sel -> d ∈ deniedStorage o -> within f d -> ~ selected sel f.
Proof.
  intros [(Hne & _ & Hc & _)|[Ei Ex]] Hd Hf; unfold selected.
  - destruct (Include sel) as [|x inc]; [done|]. intros (s & Hs & Hw). apply (Hc s d Hs Hd). by eapply within_compare.
  - rewrite Ei, Ex. intros Hn. by apply (Hn d).
Qed.

(** C20: a denied field is never returned.  Under a policy that was accepted,
    whatever is requested, and whatever aliases the mapping has, the document
    for MongoDB returns no stored field at or below a denied storage path or a
    path that a denied API field reaches; and for a denied API field without an
    exact entry of its own it returns no field stored for it or for any API
    field below it. *)
Theorem denied_fields_hidden opts o spec doc f :
  NewTranslatorContext quoted hashA hashM opts = inr o -> mongo_Translate quoted hashA hashM o spec = inr doc ->
  (forall d, d ∈ deniedStorageFields o \/ (exists a, a ∈ deniedFields o /\ d ∈ Reach hashM (fieldMapping o) a) ->
     within f d -> ~ returned doc f) /\
  (forall E a g s, mapping_ok hashM (fieldMapping o) E -> dotKeys (fieldMapping o) = false ->
     a ∈ deniedFields o -> E !! a = None -> within g a -> s ∈ Subtree hashM (fieldMapping o) g -> within f s -> ~ returned doc f).
Proof using All.
  intros Ho%NewTranslatorContext_ok Ht. destruct (mongo_selects _ _ _ Ho Ht) as (sel & _ & Hsel & Hr).
  assert (forall d, d ∈ deniedStorageFields o \/ (exists a, a ∈ deniedFields o /\ d ∈ Reach hashM (fieldMapping o) a) ->
    within f d -> ~ returned doc f) as Hden.
  { intros d Hd. rewrite Hr. apply (selected_clean o); [done|]. destruct Ho as (-> & _). apply elem_of_sorted_set, elem_of_app.
    by rewrite elem_of_concat_fmap. }
  split; [exact Hden|]. intros E a g s Hok Hdot Ha Hex Hg Hs Hf.
  assert (exists t, t ∈ Subtree hashM (fieldMapping o) a /\ within s t) as (t & Ht' & Hst).
  { destruct Hg as [->|Hg]; [exists s; split; [done|apply within_refl]|]. by eapply Subtree_covered. }
  apply (Hden t); [right; exists a; split; [done|by apply Reach_Subtree]|by eapply within_trans].
Qed.

(** a request returns exactly what it asks for.  For a request that is not
    empty MongoDB returns the fields stored for the requested paths, with all
    below them, and the required ones, and no other; every requested path was
    allowed. *)
Theorem projection_exact opts o spec doc :
  NewTranslatorContext quoted hashA hashM opts = inr o -> mongo_Translate quoted hashA hashM o spec = inr doc -> Paths spec <> [] ->
  (forall f, returned doc f <->
     exists s, (s ∈ requiredFields o \/ exists p, p ∈ Paths spec /\ s ∈ Subtree hashM (fieldMapping o) p) /\ within f s) /\
  (forall p, p ∈ Paths spec -> Allows hashA (allowedFields o) p = true /\ checkPath quoted p = None).
Proof using All.
  intros Ho%NewTranslatorContext_ok Ht Hne. destruct (mongo_selects _ _ _ Ho Ht) as (sel & Er & Hsel & Hr).
  apply Resolve_requested in Er as (_ & Hi & Hin & Hp); [|done]. split; [|exact Hp]. intros f. rewrite Hr. unfold selected.
  setoid_rewrite <-Hin. by destruct (Include sel).
Qed.

End mongo.

(** ** A model of MongoDB *)

Definition mongo_returned (doc : option (gmap bytes Z)) (f : bytes) : Prop :=
  match doc with
  | None => True
  | Some doc =>
      ((exists p, doc !! p = Some 1 /\ within f p) \/
       ((exists p, doc !! p = Some 1) /\ within f idField /\ forall p v, doc !! p = Some v -> ~ overlap p idField)) \/
      ((forall p, doc !! p <> Some 1) /\ ~ exists p, doc !! p = Some 0 /\ within f p)
  end.

#[export] Instance mongo_returned_laws : MongoProjection mongo_returned.
Proof.
  split; [done| |]; intros doc f _.
  - intros Hex Hv. cbn. split; [|naive_solver]. intros [[?|(_ & ?)]|[Hn _]]; [by left|by right|]. destruct Hex as [p Hp]. by destruct (Hn p).
  - intros _ Hz. cbn. split.
    + intros [[(p & Hp & _)|[[p Hp] _]]|[_ ?]]; [by specialize (Hz _ _ Hp)..|done].
    + intros Hn. right. split; [|done]. intros p Hp. by specialize (Hz _ _ Hp).
Qed.

(** ** Witnesses *)

Definition demo_quoted (b : bytes) : string := text b.
Definition demo_hash (b : bytes) : Z := fold_left (fun h c => Z.lxor (h * 31) (Z_of_byte c)) b 7.

(** The password and its history are denied; the addresses are moved by a rule,
    their zip codes by an entry. *)
Definition demo_opts : list TranslatorOption :=
  [WithFieldPrefixMapping [(bs "address.", bs "addr."); (bs "login.", bs "auth.")];
   WithFieldMapping demo_hash [(bs "address.zip", bs "geo.zip"); (bs "name", bs "full_name")];
   WithDeniedFields [bs "login.password"]; WithDeniedStorageFields [bs "audit"]; WithRequiredFields [bs "tenant"]].
Definition demo_spec : Spec := mkSpec [bs "address"; bs "login.user"].

Definition demo_context : translatorOptions :=
  match NewTranslatorContext demo_quoted demo_hash demo_hash demo_opts with inr o => o | inl _ => defaultTranslatorOptions end.

Lemma demo_context_ok : NewTranslatorContext demo_quoted demo_hash demo_hash demo_opts = inr demo_context.
Proof. vm_compute. reflexivity. Qed.

Lemma demo_mapping_ok :
  mapping_ok demo_hash (fieldMapping demo_context) (list_to_map [(bs "address.zip", bs "geo.zip"); (bs "name", bs "full_name")]).
Proof.
  change (fieldMapping demo_context) with
    (WithExact demo_hash [(bs "address.zip", bs "geo.zip"); (bs "name", bs "full_name")]
       (WithPrefixes [(bs "address.", bs "addr."); (bs "login.", bs "auth.")] noMapping)).
  eapply WithExact_ok; [|done|eapply WithPrefixes_ok; [|apply noMapping_ok]];
    apply (bool_decide_unpack _); vm_compute; exact I.
Qed.

Definition demo_include : list bytes := [bs "addr"; bs "auth.user"; bs "geo.zip"; bs "tenant"].

Lemma demo_resolve :
  Resolve demo_quoted demo_hash demo_hash demo_context demo_spec = inr (mkSelection demo_include []) /\
  collapse demo_include = demo_include /\ existsb (fun p => Overlaps p idField) demo_include = false.
Proof. split_and!; vm_compute; reflexivity. Qed.

Lemma demo_translate :
  mongo_Translate demo_quoted demo_hash demo_hash demo_context demo_spec = inr (Some (<[idField := 0]> (document demo_include 1))).
Proof.
  destruct demo_resolve as (Hr & Hc & He). unfold mongo_Translate. rewrite Hr. change (bs "addr" :: _) with demo_include.
  cbv zeta. unfold demo_include at 1. fold demo_include. by rewrite Hc, He.
Qed.

Lemma denied_fields_hidden_witness :
  ~ mongo_returned (Some (<[idField := 0]> (document demo_include 1)))
      (bs "auth.password.hash").
Proof.
  apply (proj2 (denied_fields_hidden demo_quoted demo_hash demo_hash mongo_returned demo_opts demo_context demo_spec _
    (bs "auth.password.hash") demo_context_ok demo_translate)
    _ (bs "login.password") (bs "login.password.hash") (bs "auth.password.hash") demo_mapping_ok eq_refl).
  - vm_compute. by left.
  - vm_compute. reflexivity.
  - right. by exists (bs "hash").
  - vm_compute. by left.
  - by left.
Defined.

Lemma projection_exact_witness :
  mongo_returned (Some (<[idField := 0]> (document demo_include 1))) (bs "geo.zip").
Proof.
  apply (proj1 (projection_exact demo_quoted demo_hash demo_hash mongo_returned demo_opts demo_context demo_spec _
    demo_context_ok demo_translate ltac:(discriminate))).
  exists (bs "geo.zip"). split; [|by left]. right. exists (bs "address"). split; [by left|]. vm_compute. right. by left.
Defined.

(** A denied field with an exact entry of its own: the fields below it keep
    their names in the storage, and an alias reaches them. *)
Example exact_entry_leaks :
  let opts := [WithFieldMapping demo_hash [(bs "login", bs "auth"); (bs "public", bs "login.password")]; WithDeniedFields [bs "login"]] in
  match NewTranslatorContext demo_quoted demo_hash demo_hash opts with
  | inl _ => False
  | inr o =>
      Subtree demo_hash (fieldMapping o) (bs "login.password") = [bs "login.password"] /\
      Resolve demo_quoted demo_hash demo_hash o (mkSpec [bs "public"]) = inr (mkSelection [bs "login.password"] [])
  end.
Proof. vm_compute. by split. Qed.

End ProjectionTheorems.
