(* ===== verification/SqlTheorems.v ===== *)
(** * What reaches a SQL database

    Table and column names are spliced into the text of a statement, so they
    must be quoted identifiers and nothing else.  [lex] reads the text the way a
    database does; the column list of a projection reads back as its columns,
    none of them denied. *)

From S2P Require Import Prelude GoBytes GoStrings FieldPolicy FieldPolicyTheorems SqlDialect Projection ProjectionParser ProjectionTheorems.
From Stdlib Require Import Strings.Byte.

Module SqlTheorems.
Import GoBytes GoStrings FieldPolicy FieldPolicyTheorems Projection ProjectionParser ProjectionTheorems.
Import SqlDialect (Style, Quote, Ident, Table, MaxIdentLen, IndexName, Postgres, MySQL, Bind, Numbered).

(** ** Reading SQL text *)

(** A quoted identifier, or a byte outside of the quotes. *)
Inductive token := Name (n : bytes) | Symbol (c : byte).

(** [inside] holds the identifier being read; a doubled quote stands for
    itself.  [None] is an identifier that is not closed. *)
Fixpoint lex (q : byte) (inside : option bytes) (l : bytes) : option (list token) :=
  match l with
  | [] => match inside with None => Some [] | Some _ => None end
  | c :: l =>
      match inside with
      | None => if bool_decide (c = q) then lex q (Some []) l else cons (Symbol c) <$> lex q None l
      | Some n =>
          if bool_decide (c = q) then
            match l with
            | c' :: l' => if bool_decide (c' = q) then lex q (Some (n ++ [q])) l' else cons (Name n) <$> lex q None l
            | [] => Some [Name n]
            end
          else lex q (Some (n ++ [c])) l
      end
  end.

Definition comma : byte := x2c.
Definition space : byte := x20.

(** The tokens of a column of one or two parts, and of a list of columns. *)
Fixpoint column_tokens (parts : list bytes) : list token :=
  match parts with
  | [] => []
  | [p] => [Name p]
  | p :: parts => Name p :: Symbol dot :: column_tokens parts
  end.
Fixpoint list_tokens (columns : list (list bytes)) : list token :=
  match columns with
  | [] => []
  | [c] => column_tokens c
  | c :: columns => column_tokens c ++ Symbol comma :: Symbol space :: list_tokens columns
  end.

(** A storage name a database can address: a column, or a table and a column. *)
Definition column_ok (name : bytes) : Prop :=
  (length (Split dot name) <= 2)%nat /\ Forall (fun p => SqlDialect.isIdent p = true /\ zlen p <= MaxIdentLen) (Split dot name).

Definition style_ok (s : Style) : Prop := graphic (Quote s) /\ is_letter (Quote s) || is_digit (Quote s) = false /\
  Quote s <> dot /\ Quote s <> comma.

Lemma styles_ok : style_ok Postgres /\ style_ok MySQL.
Proof. by vm_compute. Qed.

(** ** Quoted names *)

Lemma ident_chars p : SqlDialect.isIdent p = true -> p <> [] /\ Forall (fun c => is_letter c || is_digit c = true) p.
Proof. apply isIdent_chars. Qed.

Lemma ident_notin c p : SqlDialect.isIdent p = true -> is_letter c || is_digit c = false -> c ∉ p.
Proof. intros [_ Hp]%ident_chars Hc Hin. rewrite list.Forall_forall in Hp. apply Hp in Hin. congruence. Qed.

Definition starts (q : byte) (l : bytes) : Prop := exists l', l = q :: l'.

Lemma lex_inside q n p l : q ∉ p -> ~ starts q l -> lex q (Some n) (p ++ q :: l) = cons (Name (n ++ p)) <$> lex q None l.
Proof.
  revert n. induction p as [|c p IH]; intros n Hq Hl; cbn [app lex].
  - rewrite bool_decide_eq_true_2, app_nil_r by done. destruct l as [|c l]; [done|].
    rewrite bool_decide_eq_false_2; [done|]. intros ->. apply Hl. by exists l.
  - apply not_elem_of_cons in Hq as [Hc Hq]. rewrite bool_decide_eq_false_2, IH by done. by rewrite <-app_assoc.
Qed.

Lemma lex_ident s p l : Quote s ∉ p -> ~ starts (Quote s) l -> lex (Quote s) None (Ident s p ++ l) = cons (Name p) <$> lex (Quote s) None l.
Proof.
  intros Hq Hl. unfold Ident. cbn [app lex]. rewrite bool_decide_eq_true_2 by done. rewrite <-app_assoc. cbn [app].
  by rewrite lex_inside.
Qed.

Lemma lex_symbol q c l : c <> q -> lex q None (c :: l) = cons (Symbol c) <$> lex q None l.
Proof. intros Hc. cbn. by rewrite bool_decide_eq_false_2. Qed.

Lemma fmap_cons_app {A} (x : A) (xs : list A) (o : option (list A)) : cons x <$> (app xs <$> o) = app (x :: xs) <$> o.
Proof. by destruct o. Qed.

(** The text of a column. *)
Definition column_text (s : Style) (parts : list bytes) : bytes := Join [dot] (Ident s <$> parts).

Lemma lex_column s parts l :
  style_ok s -> parts <> [] -> Forall (fun p => SqlDialect.isIdent p = true) parts -> ~ starts (Quote s) l ->
  lex (Quote s) None (column_text s parts ++ l) = app (column_tokens parts) <$> lex (Quote s) None l.
Proof.
  intros (_ & Hq & Hd & Hc) Hne Hp Hl. unfold column_text.
  induction Hp as [|p parts Hp Hps IH]; [done|]. apply ident_notin with (c := Quote s) in Hp; [|done]. destruct parts as [|p' parts].
  - cbn [fmap list_fmap Join column_tokens]. rewrite lex_ident by done. by destruct (lex _ _ _).
  - cbn [fmap list_fmap] in *. rewrite Join_cons, <-!app_assoc by done.
    rewrite lex_ident; [|done|intros [l' E]; injection E; congruence]. cbn [app]. rewrite lex_symbol by done.
    rewrite IH by done. by rewrite !fmap_cons_app.
Qed.

Lemma graphic_not_space c : graphic c -> c <> space.
Proof. intros [Hc _] ->. by apply Hc. Qed.

Lemma lex_columns s columns :
  style_ok s -> Forall (fun parts => parts <> [] /\ Forall (fun p => SqlDialect.isIdent p = true) parts) columns ->
  lex (Quote s) None (Join [comma; space] (column_text s <$> columns)) = Some (list_tokens columns).
Proof.
  intros Hs Hc. pose proof Hs as (Hg & _ & _ & Hcomma). induction Hc as [|c columns [Hn Hc] Hcs IH]; [done|]. destruct columns as [|c' columns].
  - cbn [fmap list_fmap Join list_tokens]. rewrite <-(app_nil_r (column_text s c)). rewrite lex_column; [|done..|by intros [l' ?]].
    cbn. by rewrite app_nil_r.
  - cbn [fmap list_fmap] in *. rewrite Join_cons by done. rewrite lex_column; [|done..|intros [l' E]; injection E; congruence].
    cbn [app]. rewrite lex_symbol by congruence. rewrite lex_symbol, IH by by apply not_eq_sym, graphic_not_space.
    done.
Qed.

Lemma Cut_None sep l : Cut sep l = None <-> sep ∉ l.
Proof.
  induction l as [|c l IH]; cbn; [split; [by intros _ ?%elem_of_nil|done]|]. rewrite elem_of_cons.
  case_bool_decide as E; [naive_solver|]. destruct (Cut sep l) as [[]|]; naive_solver.
Qed.

Lemma Cut_Some sep l a b : Cut sep l = Some (a, b) -> l = a ++ sep :: b /\ sep ∉ a.
Proof.
  revert a b. induction l as [|c l IH]; intros a b; cbn; [done|]. case_bool_decide as E.
  - intros [= <- <-]. subst. split; [done|by intros ?%elem_of_nil].
  - destruct (Cut sep l) as [[a' b']|]; [|done]. intros [= <- <-]. destruct (IH a' b' eq_refl) as [-> Hn].
    split; [done|]. by apply not_elem_of_cons.
Qed.

Lemma column_ok_parts columns : Forall column_ok columns ->
  Forall (fun parts => parts <> [] /\ Forall (fun p => SqlDialect.isIdent p = true) parts) (Split dot <$> columns).
Proof.
  intros Hc. apply Forall_fmap. eapply Forall_impl; [exact Hc|]. intros c [_ Hp]. split; [apply Split_nonempty|].
  eapply Forall_impl; [exact Hp|]. by intros p [? _].
Qed.

Lemma fmap_nil_iff {A B} (f : A -> B) (l : list A) : f <$> l = [] <-> l = [].
Proof. by destruct l. Qed.

Lemma Join_columns_nil s columns : Join [comma; space] (column_text s <$> (Split dot <$> columns)) = [] <-> column_text s <$> (Split dot <$> columns) = [].
Proof.
  split; [|by intros ->]. destruct columns as [|c columns]; [done|]. cbn [fmap list_fmap]. intros E. exfalso.
  assert (column_text s (Split dot c) <> []) as Hc.
  { unfold column_text. pose proof (Split_nonempty dot c). destruct (Split dot c) as [|p [|p' ps]]; [done|done|]. cbn [fmap list_fmap].
    by rewrite Join_cons. }
  destruct columns; [by cbn in E|]. rewrite Join_cons in E by done. apply app_nil in E as [? _]. done.
Qed.

Section denied.
Context (hashM : bytes -> Z) (o : translatorOptions).
Context (Ho : deniedStorage o = sortedSet (deniedStorageFields o ++ concat (Reach hashM (fieldMapping o) <$> deniedFields o))).

Lemma denied_elem d :
  d ∈ deniedStorageFields o \/ (exists a, a ∈ deniedFields o /\ d ∈ Reach hashM (fieldMapping o) a) -> d ∈ deniedStorage o.
Proof using Ho. rewrite Ho. unfold sortedSet. rewrite elem_of_sorted_set, elem_of_app, elem_of_concat_fmap. done. Qed.

Lemma nothing_denied : deniedStorage o = [] -> deniedStorageFields o = [] /\ deniedFields o = [].
Proof using Ho.
  intros E. pose proof denied_elem as Hd. rewrite E in Hd. split; apply elem_of_nil_inv.
  - intros d Hin. apply (elem_of_nil d), Hd. by left.
  - intros a Hin. destruct (Subtree hashM (fieldMapping o) a) as [|x l] eqn:Ex; [by apply Subtree_nonempty in Ex|].
    apply (elem_of_nil x), Hd. right. exists a. split; [done|]. apply Reach_Subtree. rewrite Ex. by left.
Qed.
End denied.

Section table.
Context (quoted : bytes -> string).

Lemma too_long_None parts : SqlDialect.too_long quoted parts = None <-> Forall (fun p => zlen p <= MaxIdentLen) parts.
Proof.
  induction parts as [|p parts IH]; cbn; [done|]. rewrite list.Forall_cons, <-IH.
  destruct (Z.ltb_spec MaxIdentLen (zlen p)); split; [done|lia|intros ?; split; [lia|done]|tauto].
Qed.

(** [Table] accepts exactly the column and table names, and quotes their parts. *)
Lemma Table_spec s name out : Table quoted s name = inr out <-> column_ok name /\ out = column_text s (Split dot name).
Proof.
  unfold Table, column_ok, column_text. change x2e with dot. destruct (Cut dot name) as [[a b]|] eqn:Ec.
  - apply Cut_Some in Ec as [-> Ha]. rewrite Split_app by done. destruct (SqlDialect.isIdent a) eqn:Ea; cbn [negb orb andb].
    2: { split; [done|]. intros [[_ [[? _] _]%list.Forall_cons] _]. congruence. }
    destruct (SqlDialect.isIdent b) eqn:Eb; cbn [negb].
    2: { split; [done|]. intros [[Hl Hall] _]. apply list.Forall_cons in Hall as [_ Hall]. pose proof (Split_nonempty dot b) as Hn.
      pose proof (Join_Split dot b) as Hj. destruct (Split dot b) as [|x [|y l]]; [done| |cbn in Hl; lia].
      cbn in Hj. subst. apply list.Forall_singleton in Hall as [? _]. congruence. }
    assert (Split dot b = [b]) as -> by (apply Split_notin, ident_notin; done).
    destruct (SqlDialect.too_long quoted [a; b]) as [err|] eqn:Et.
    + split; [done|]. intros [[_ Hall] _]. assert (SqlDialect.too_long quoted [a; b] = None); [|congruence].
      apply too_long_None. eapply Forall_impl; [exact Hall|by intros p [_ ?]].
    + apply too_long_None in Et as [Hla [Hlb _]%list.Forall_cons]%list.Forall_cons. cbn [fmap list_fmap Join]. unfold Ident. cbn [app].
      rewrite <-!app_assoc. cbn [app]. split; [intros [= <-]; split; [split; [done|by repeat constructor]|done]|by intros [_ ->]].
  - apply Cut_None in Ec. rewrite Split_notin by done. rewrite orb_false_r. destruct (SqlDialect.isIdent name) eqn:Ea; cbn [negb].
    2: { split; [done|]. intros [[_ [? _]%list.Forall_singleton] _]. congruence. }
    destruct (SqlDialect.too_long quoted [name; []]) as [err|] eqn:Et.
    + split; [done|]. intros [[_ [_ Hl]%list.Forall_singleton] _]. assert (SqlDialect.too_long quoted [name; []] = None); [|congruence].
      apply too_long_None. by repeat constructor.
    + apply too_long_None in Et as [Hla _]%list.Forall_cons. cbn [fmap list_fmap Join]. unfold Ident. rewrite app_nil_r.
      split; [intros [= <-]; split; [split; [cbn; lia|by apply list.Forall_singleton]|done]|by intros [_ ->]].
Qed.

Lemma render_spec s columns out :
  Projection.render quoted s columns = inr out ->
  Forall column_ok columns /\ out = Join [comma; space] (column_text s <$> (Split dot <$> columns)).
Proof.
  unfold Projection.render. destruct (render_columns quoted s columns) as [err|cols] eqn:E; [done|]. intros [= <-].
  assert (Forall column_ok columns /\ cols = column_text s <$> (Split dot <$> columns)) as [? ->]; [|done].
  revert cols E. induction columns as [|c columns IH]; intros cols; cbn; [by intros [= <-]|].
  destruct (Table quoted s c) as [|col] eqn:Et; [done|]. apply Table_spec in Et as [Hc ->].
  destruct (render_columns quoted s columns) as [|cs]; [done|]. intros [= <-]. destruct (IH cs eq_refl) as [? ->].
  split; [by apply list.Forall_cons|done].
Qed.

Lemma sql_context hashA hashM s opts o :
  sql_NewContext quoted hashA hashM s opts = inr o ->
  NewTranslatorContext quoted hashA hashM opts = inr o /\ Exclude (defaultSelection o) = [].
Proof.
  unfold sql_NewContext. destruct (NewTranslatorContext quoted hashA hashM opts) as [|o']; [done|]. cbv zeta.
  destruct (Exclude (defaultSelection o')) eqn:E; [|done]. destruct (Projection.render _ _ _); [done|]. by intros [= <-].
Qed.

(** C21: a projection splices nothing but allowed columns into a statement.
    For a context that was accepted, a database reads the translation as a list
    of quoted column names with commas between them; each is an identifier, or a
    table and a column, that no denied field reaches; for a request that is not
    empty they are exactly the storage names of the requested paths and the
    required ones; and the empty text, for which a caller writes the star, is
    returned only when nothing is denied. *)
Theorem sql_projection_exact hashA hashM s opts o spec out :
  style_ok s -> sql_NewContext quoted hashA hashM s opts = inr o -> sql_Translate quoted hashA hashM s o spec = inr out ->
  exists columns,
    lex (Quote s) None out = Some (list_tokens (Split dot <$> columns)) /\ Forall column_ok columns /\ NoDup columns /\
    (forall c d, c ∈ columns -> d ∈ deniedStorageFields o \/ (exists a, a ∈ deniedFields o /\ d ∈ Reach hashM (fieldMapping o) a) ->
       ~ overlap c d) /\
    (Paths spec <> [] -> forall c, c ∈ columns <->
       c ∈ requiredFields o \/ exists p, p ∈ Paths spec /\ c ∈ Subtree hashM (fieldMapping o) p) /\
    (columns = [] <-> out = []) /\ (out = [] -> deniedStorageFields o = [] /\ deniedFields o = []).
Proof.
  intros Hs Hctx. unfold sql_Translate. destruct (Resolve quoted hashA hashM o spec) as [err|sel] eqn:Er; [done|].
  apply sql_context in Hctx as [Hctx Hexc]. pose proof (NewTranslatorContext_ok _ _ _ _ _ Hctx) as Hok.
  intros [Hcols ->]%render_spec. exists (Include sel).
  pose proof (Resolve_ok _ _ _ _ _ _ Hok Er) as Hsel. pose proof (denied_elem hashM o (proj1 Hok)) as Hden.
  split_and!; [by apply lex_columns, column_ok_parts|done|..].
  - destruct Hsel as [(_ & _ & _ & _ & _ & ?)|[-> _]]; [done|constructor].
  - intros c d Hc Hd%Hden. destruct Hsel as [(_ & _ & Hclean & _)|[E _]]; [by apply Hclean|rewrite E in Hc; by apply elem_of_nil in Hc].
  - intros Hne. by destruct (Resolve_requested _ _ _ _ _ _ Hne Er) as (_ & _ & ? & _).
  - by rewrite Join_columns_nil, !fmap_nil_iff.
  - rewrite Join_columns_nil, !fmap_nil_iff. intros Hnil. apply (nothing_denied hashM o (proj1 Hok)).
    destruct Hsel as [(? & _)|[_ <-]]; [done|]. destruct (decide (Paths spec = [])) as [Hp|Hp].
    + unfold Resolve, IsEmpty in Er. rewrite Hp in Er. injection Er as <-. done.
    + by destruct (Resolve_requested _ _ _ _ _ _ Hp Er) as (_ & ? & _).
Qed.

End table.

(** ** Examples *)

(** Text with double quotes for single ones. *)
Definition bs_quoted (l : bytes) : bytes := (fun c => if bool_decide (c = x27) then x22 else c) <$> l.

Definition demo_sql_opts : list TranslatorOption :=
  [WithFieldMapping demo_hash [(bs "login", bs "u.login_name")]; WithAllowedFields demo_hash [bs "login"; bs "name"];
   WithDeniedStorageFields [bs "password"]; WithRequiredFields [bs "id"]].
Definition demo_sql_context : translatorOptions :=
  match sql_NewContext demo_quoted demo_hash demo_hash Postgres demo_sql_opts with inr o => o | inl _ => defaultTranslatorOptions end.

Lemma sql_projection_exact_witness :
  exists columns, lex x22 None (bs_quoted (bs "'id', 'u'.'login_name'")) = Some (list_tokens (Split dot <$> columns)) /\
    forall c, c ∈ columns <-> c ∈ requiredFields demo_sql_context \/
      exists p, p ∈ [bs "login"] /\ c ∈ Subtree demo_hash (fieldMapping demo_sql_context) p.
Proof.
  destruct (sql_projection_exact demo_quoted demo_hash demo_hash Postgres demo_sql_opts demo_sql_context (mkSpec [bs "login"])
    (bs_quoted (bs "'id', 'u'.'login_name'")) (proj1 styles_ok)) as (columns & Hl & _ & _ & _ & Hc & _).
  - vm_compute. reflexivity.
  - vm_compute. reflexivity.
  - exists columns. split; [exact Hl|]. by apply Hc.
Defined.

(** Two tables whose long index names agree: the hash has 32 bits. *)
Example index_names_collide :
  let a := bs "tenant_scheduled_notification_delivery_attempts_2162789" in
  let b := bs "tenant_scheduled_notification_delivery_attempts_2379192" in
  a <> b /\ IndexName Postgres a (bs "deadline") = IndexName Postgres b (bs "deadline") /\ is_Some (IndexName Postgres a (bs "deadline")).
Proof. cbv zeta. split; [by vm_compute|]. split; [by vm_compute|]. vm_compute. by eexists. Qed.

End SqlTheorems.
