(* ===== verification/Scope.v ===== *)
(** * Scopes, roles and the enforcer: auth/scope

    A registry says which scope an action requires, an authorizer whether a
    principal has it.  Scopes, roles and keys are strings, their bytes.  The
    registry is a Go map while it is built and a frozen table afterwards; a panic
    is [None]. *)

From S2P Require Import Prelude GoBytes GoStrings ImmutableMap ImmutableMapTheorems FieldPolicy FieldPolicyTheorems.
From Stdlib Require Import Strings.Byte.

Module Scope.
Import GoBytes GoStrings FieldPolicy.
Import ImmutableMap (ImmutableMap).

Definition ErrAccessDenied : error := ErrNew "scope: access denied".

(** ** Matching scopes *)

Definition Matcher := list bytes -> bytes -> bool.

Definition Exact : Matcher := fun granted required => bool_decide (required ∈ granted).

Definition Wildcard (sep : bytes) : Matcher := fun granted required =>
  existsb (fun g => bool_decide (g = required) || bool_decide (g = [star]) ||
                    (HasSuffix g (sep ++ [star]) && HasPrefix required (chop 1 g))) granted.

Section scope.
(** The hash of the frozen tables, and the order in which Go ranges over a map. *)
Context (hash : bytes -> Z) (range : gmap bytes bytes -> list (bytes * bytes)).
Context {P R : Type}.

(** ** Roles *)

(** A nil table is [None]. *)
Definition RoleScopes := option (ImmutableMap bytes (list bytes)).

Definition NewRoleScopes (mapping : list (bytes * list bytes)) : RoleScopes := Some (freeze hash [] mapping).

(** The inner loop of [ScopesFor]: a scope is added when it is new. *)
Definition add_new (out scopes : list bytes) : list bytes :=
  fold_left (fun out s => if bool_decide (s ∈ out) then out else out ++ [s]) scopes out.

Definition ScopesFor (rs : RoleScopes) (roles : list bytes) : list bytes :=
  match rs with
  | None => []
  | Some table =>
      fold_left (fun out role => match ImmutableMap.Get hash table role with None => out | Some scopes => add_new out scopes end) roles []
  end.

Definition RoleScopesOf (rolesOf : P -> list bytes) (rs : RoleScopes) : P -> list bytes := fun p => ScopesFor rs (rolesOf p).

(** ** Authorizers *)

Definition Authorizer := P -> bytes -> bool.

Definition ScopeAuthorizer (scopesOf : P -> list bytes) (m : Matcher) : Authorizer := fun p required => m (scopesOf p) required.
Definition RoleAuthorizer (rolesOf : P -> list bytes) (rs : RoleScopes) (m : Matcher) : Authorizer :=
  ScopeAuthorizer (RoleScopesOf rolesOf rs) m.

Definition AnyOf (authorizers : list Authorizer) : Authorizer := fun p required => existsb (fun a => a p required) authorizers.
Definition AllOf (authorizers : list Authorizer) : Authorizer := fun p required =>
  if forallb (fun a => a p required) authorizers then (0 <? length authorizers)%nat else false.

Definition ResourceAuthorizer := P -> R -> bytes -> bool.

Definition LiftAuthorizer (a : Authorizer) : ResourceAuthorizer := fun p _ required => a p required.
Definition ResourceAnyOf (authorizers : list ResourceAuthorizer) : ResourceAuthorizer := fun p r required =>
  existsb (fun a => a p r required) authorizers.
Definition ResourceAllOf (authorizers : list ResourceAuthorizer) : ResourceAuthorizer := fun p r required =>
  if forallb (fun a => a p r required) authorizers then (0 <? length authorizers)%nat else false.

(** ** The registry *)

Record Registry := mkRegistry { building : gmap bytes bytes; frozen : option (ImmutableMap bytes bytes) }.

Definition NewRegistry : Registry := mkRegistry ∅ None.

Definition Register (key scope : bytes) (r : Registry) : option Registry :=
  match frozen r with
  | Some _ => None
  | None => Some (mkRegistry (<[key := scope]> (building r)) None)
  end.

Definition RegisterMany (scope : bytes) (keys : list bytes) (r : Registry) : option Registry :=
  match frozen r with
  | Some _ => None
  | None => Some (mkRegistry (fold_left (fun m key => <[key := scope]> m) keys (building r)) None)
  end.

Definition Freeze (r : Registry) : Registry :=
  match frozen r with
  | Some _ => r
  | None => mkRegistry ∅ (Some (freeze hash [] (range (building r))))
  end.

Definition Required (r : Registry) (key : bytes) : option bytes :=
  match frozen r with
  | Some f => ImmutableMap.Get hash f key
  | None => building r !! key
  end.

Definition All (r : Registry) : list (bytes * bytes) :=
  match frozen r with Some f => ImmutableMap.All f | None => range (building r) end.
Definition Len (r : Registry) : Z :=
  match frozen r with Some f => ImmutableMap.Len f | None => Z.of_nat (size (building r)) end.

(** ** Enforcers *)

Record Enforcer := NewEnforcer { reg : Registry; authorize : Authorizer }.

Definition Enforce (e : Enforcer) (p : P) (key : bytes) : option error :=
  match Required (reg e) key with
  | None => Some ErrAccessDenied
  | Some required =>
      if bool_decide (required = []) then None
      else if negb (authorize e p required) then Some ErrAccessDenied
      else None
  end.

Record ResourceEnforcer := NewResourceEnforcer { r_reg : Registry; r_authorize : ResourceAuthorizer }.

Definition ResourceEnforce (e : ResourceEnforcer) (p : P) (r : R) (key : bytes) : option error :=
  match Required (r_reg e) key with
  | None => Some ErrAccessDenied
  | Some required =>
      if bool_decide (required = []) then None
      else if negb (r_authorize e p r required) then Some ErrAccessDenied
      else None
  end.

End scope.
End Scope.
