(* ===== verification/ScopeTheorems.v ===== *)
(** * Who may do what

    Access is denied unless the registry, the role table and the matcher all
    say so, whenever the registry is frozen. *)

From S2P Require Import Prelude GoBytes GoStrings ImmutableMap ImmutableMapTheorems FieldPolicy FieldPolicyTheorems Scope.
From Stdlib Require Import Strings.Byte.

Module ScopeTheorems.
Import GoBytes GoStrings FieldPolicy FieldPolicyTheorems Scope.

(** ** Matching *)

(** A grant covers a scope: it is the scope, it is the star, or it names a
    prefix up to the separator followed by a star. *)
Definition covers (sep g required : bytes) : Prop :=
  g = required \/ g = [star] \/ exists base rest, g = base ++ sep ++ [star] /\ required = base ++ sep ++ rest.

Lemma chop_star base sep : chop 1 (base ++ sep ++ [star]) = base ++ sep.
Proof.
  unfold chop. rewrite app_assoc. apply take_app_length'. rewrite (length_app _ [star]). cbn. lia.
Qed.

Lemma Wildcard_spec sep granted required :
  Wildcard sep granted required = true <-> exists g, g ∈ granted /\ covers sep g required.
Proof.
  unfold Wildcard. rewrite existsb_exists. setoid_rewrite <-list_elem_of_In. apply exist_proper. intros g.
  rewrite !orb_true_iff, andb_true_iff, !bool_decide_eq_true, HasSuffix_spec, HasPrefix_spec. unfold covers.
  split; intros [Hg Hc]; (split; [done|]).
  - destruct Hc as [[?|?]|[[base ->] [rest E]]]; [by left|right; by left|]. rewrite chop_star in E. right; right. exists base, rest.
    by rewrite E, <-app_assoc.
  - destruct Hc as [?|[?|(base & rest & -> & ->)]]; [left; by left|left; by right|]. right. split; [by exists base|]. exists rest.
    by rewrite chop_star, <-app_assoc.
Qed.

(** ** Roles *)

Lemma elem_of_add_new out scopes s : s ∈ add_new out scopes <-> s ∈ out \/ s ∈ scopes.
Proof.
  unfold add_new. revert out. induction scopes as [|x scopes IH]; intros out; cbn [fold_left]; [rewrite elem_of_nil; tauto|].
  rewrite IH, elem_of_cons. case_bool_decide as Hx; [naive_solver|]. rewrite elem_of_app, list_elem_of_singleton. tauto.
Qed.

Lemma add_new_NoDup out scopes : NoDup out -> NoDup (add_new out scopes).
Proof.
  unfold add_new. revert out. induction scopes as [|x scopes IH]; intros out Hn; cbn [fold_left]; [done|]. apply IH.
  case_bool_decide as Hx; [done|]. apply NoDup_app. split_and!; [done| |apply NoDup_singleton].
  by intros y Hy ->%list_elem_of_singleton.
Qed.

Section roles.
Context (hash : bytes -> Z).

Lemma ScopesFor_spec mapping roles s :
  NoDup mapping.*1 -> fits mapping ->
  s ∈ ScopesFor hash (NewRoleScopes hash mapping) roles <->
    exists role scopes, role ∈ roles /\ (role, scopes) ∈ mapping /\ s ∈ scopes.
Proof.
  intros Hn Hf. pose proof (freeze_frozen hash [] mapping Hn Hf) as Ht. unfold ScopesFor, NewRoleScopes.
  assert (forall out, s ∈ fold_left (fun out role => match ImmutableMap.Get hash (freeze hash [] mapping) role with
      None => out | Some scopes => add_new out scopes end) roles out <->
    s ∈ out \/ exists role scopes, role ∈ roles /\ (role, scopes) ∈ mapping /\ s ∈ scopes) as Hall; [|rewrite Hall, elem_of_nil; tauto].
  induction roles as [|role roles IH]; intros out; cbn [fold_left].
  { setoid_rewrite elem_of_nil. naive_solver. }
  rewrite IH, (ImmutableMapTheorems.frozen_Get _ _ _ Ht). setoid_rewrite elem_of_cons.
  destruct (list_to_map mapping !! role) as [scopes|] eqn:El.
  - rewrite elem_of_add_new. apply elem_of_list_to_map in El; [|done]. split; [naive_solver|].
    intros [?|(r & sc & [->|?] & Hin & Hs)]; [naive_solver| |naive_solver]. left. right.
    apply (elem_of_list_to_map_1 (M := gmap bytes)) in Hin; [|done]. apply (elem_of_list_to_map_1 (M := gmap bytes)) in El; [|done].
    congruence.
  - apply not_elem_of_list_to_map in El. split; [naive_solver|]. intros [?|(r & sc & [->|?] & Hin & Hs)]; [naive_solver| |naive_solver].
    destruct El. apply list_elem_of_fmap. by exists (role, sc).
Qed.

End roles.

(** ** The registry *)

(** The calls that build a registry. *)
Inductive call := CRegister (key scope : bytes) | CRegisterMany (scope : bytes) (keys : list bytes) | CFreeze.

(** The requirements registered by calls: the last one of a key counts. *)
Definition record (c : call) (M : gmap bytes bytes) : gmap bytes bytes :=
  match c with
  | CRegister key scope => <[key := scope]> M
  | CRegisterMany scope keys => fold_left (fun m key => <[key := scope]> m) keys M
  | CFreeze => M
  end.
Definition recorded (cs : list call) : gmap bytes bytes := fold_left (fun M c => record c M) cs ∅.

Section registry.
Context (hash : bytes -> Z) (range : gmap bytes bytes -> list (bytes * bytes)).
Context (Hrange : forall m, range m ≡ₚ map_to_list m).

Definition perform (c : call) (r : Registry) : option Registry :=
  match c with
  | CRegister key scope => Register key scope r
  | CRegisterMany scope keys => RegisterMany scope keys r
  | CFreeze => Some (Freeze hash range r)
  end.
Fixpoint perform_all (cs : list call) (r : Registry) : option Registry :=
  match cs with [] => Some r | c :: cs => r' ← perform c r; perform_all cs r' end.

(** What a registry answers is what was recorded. *)
Definition answers (r : Registry) (M : gmap bytes bytes) : Prop :=
  match frozen r with
  | Some f => ImmutableMapTheorems.frozen hash f M
  | None => building r = M
  end.

Lemma perform_answers c r r' M : Z.of_nat (size M) < 2 ^ 59 -> answers r M -> perform c r = Some r' -> answers r' (record c M).
Proof using Hrange.
  intros Hs. unfold answers, perform, Register, RegisterMany, Freeze. destruct r as [b [f|]]; cbn [frozen building].
  - by destruct c as [| |]; [done|done|intros ? [= <-]].
  - intros ->. destruct c as [key scope|scope keys|]; intros [= <-]; cbn [frozen building record]; [done|done|].
    rewrite <-(list_to_map_to_list M) at 2. erewrite <-(list_to_map_proper (range M)); [|..|apply Hrange].
    + apply freeze_frozen; [|].
      * rewrite Hrange. apply NoDup_fst_map_to_list.
      * unfold fits. by rewrite Hrange, length_map_to_list.
    + rewrite Hrange. apply NoDup_fst_map_to_list.
Qed.

Lemma size_insert_le (M : gmap bytes bytes) k v : (size M <= size (<[k := v]> M))%nat.
Proof. rewrite map_size_insert. case_match; cbn; lia. Qed.

Lemma record_size c M : (size M <= size (record c M))%nat.
Proof.
  destruct c as [key scope|scope keys|]; cbn; [apply size_insert_le| |done].
  revert M. induction keys as [|k keys IH]; intros M; cbn; [done|]. etransitivity; [|apply IH]. apply size_insert_le.
Qed.

Lemma recorded_size cs M : (size M <= size (fold_left (fun M c => record c M) cs M))%nat.
Proof. revert M. induction cs as [|c cs IH]; intros M; cbn; [done|]. etransitivity; [|apply IH]. apply record_size. Qed.

Lemma perform_all_answers cs r r' M :
  Z.of_nat (size (fold_left (fun M c => record c M) cs M)) < 2 ^ 59 -> answers r M -> perform_all cs r = Some r' ->
  answers r' (fold_left (fun M c => record c M) cs M).
Proof using Hrange.
  revert r M. induction cs as [|c cs IH]; intros r M Hs Ha; cbn; [by intros [= <-]|].
  destruct (perform c r) as [r1|] eqn:E; [|done]. cbn. apply IH; [done|]. eapply perform_answers; [|done|done].
  cbn in Hs. pose proof (recorded_size cs (record c M)). pose proof (record_size c M). lia.
Qed.

Lemma answers_Required r M key : answers r M -> Required hash r key = M !! key.
Proof using. unfold answers, Required. destruct (frozen r); [intros Hf; apply (ImmutableMapTheorems.frozen_Get _ _ _ Hf)|by intros ->]. Qed.

(** C22: access needs a registered action and a grant.  For a registry built by
    any calls, frozen or not, an enforcer over a role table allows an action
    exactly when the last registration of its key made it public, or when one of
    the principal's roles grants a scope that covers the required one; with a
    list of object-level authorizers on top, exactly when the list is not empty
    and each of them agrees as well; everything else is denied. *)
Theorem access_needs_grant {P R} cs r sep mapping (rolesOf : P -> list bytes) (owns : list (ResourceAuthorizer (P := P) (R := R))) p x key :
  Z.of_nat (size (recorded cs)) < 2 ^ 59 -> NoDup mapping.*1 -> fits mapping -> perform_all cs NewRegistry = Some r ->
  let scoped := RoleAuthorizer hash rolesOf (NewRoleScopes hash mapping) (Wildcard sep) in
  let granted required := exists role scopes g, role ∈ rolesOf p /\ (role, scopes) ∈ mapping /\ g ∈ scopes /\ covers sep g required in
  let result := Enforce hash (NewEnforcer r scoped) p key in
  let object := ResourceEnforce hash (NewResourceEnforcer r (ResourceAllOf (LiftAuthorizer scoped :: owns))) p x key in
  (result = None <-> exists required, recorded cs !! key = Some required /\ (required = [] \/ granted required)) /\
  (object = None <-> exists required, recorded cs !! key = Some required /\
     (required = [] \/ (granted required /\ Forall (fun o => o p x required = true) owns))) /\
  (result = None \/ result = Some ErrAccessDenied) /\ (object = None \/ object = Some ErrAccessDenied).
Proof using Hrange.
  intros Hs Hn Hf Hp scoped granted result object.
  assert (Required hash r key = recorded cs !! key) as Hr by (by eapply answers_Required, (perform_all_answers cs NewRegistry)).
  assert (forall required, scoped p required = true <-> granted required) as Hg.
  { intros required. unfold scoped, RoleAuthorizer, ScopeAuthorizer, RoleScopesOf, granted. rewrite Wildcard_spec.
    setoid_rewrite ScopesFor_spec; [|done..]. naive_solver. }
  unfold result, object, Enforce, ResourceEnforce, ResourceAllOf, LiftAuthorizer. cbn [reg authorize r_reg r_authorize forallb length].
  rewrite Hr. destruct (recorded cs !! key) as [required|]; [|naive_solver]. case_bool_decide as E; [naive_solver|].
  specialize (Hg required). destruct (scoped p required); cbn [negb andb].
  - assert (forallb (fun a => a p x required) owns = true <-> Forall (fun o => o p x required = true) owns) as Ho.
    { rewrite forallb_forall, list.Forall_forall. by setoid_rewrite list_elem_of_In. }
    clear Hr. destruct (forallb (fun a => a p x required) owns); cbn; naive_solver.
  - naive_solver.
Qed.

End registry.

(** ** Example *)

Definition demo_calls : list call :=
  [CRegister (bs "/files/Get") (bs "files:read"); CRegisterMany [] [bs "/health"]; CRegister (bs "/files/Get") (bs "files:meta:read"); CFreeze].

Lemma access_needs_grant_witness :
  let range := map_to_list : gmap bytes bytes -> list (bytes * bytes) in
  let hash := fun _ => 0 in
  exists r, perform_all hash range demo_calls NewRegistry = Some r /\
    Enforce hash (NewEnforcer r (RoleAuthorizer hash (fun _ => [bs "reader"])
      (NewRoleScopes hash [(bs "reader", [bs "files:*"])]) (Wildcard (bs ":")))) tt (bs "/files/Get") = None.
Proof.
  intros range hash. eexists. split; [reflexivity|].
  apply (proj1 (access_needs_grant hash range (fun m => reflexivity _) demo_calls _ (bs ":") [(bs "reader", [bs "files:*"])]
    (fun _ : unit => [bs "reader"]) ([] : list (ResourceAuthorizer (R := unit))) tt tt (bs "/files/Get")
    ltac:(vm_compute; reflexivity) (NoDup_singleton _) ltac:(vm_compute; reflexivity) eq_refl)).
  exists (bs "files:meta:read"). split; [vm_compute; reflexivity|]. right. exists (bs "reader"), [bs "files:*"], (bs "files:*").
  split_and!; [by left|by left|by left|]. right; right. by exists (bs "files"), (bs "meta:read").
Defined.

End ScopeTheorems.
