(* ===== verification/SchedulerStore.v ===== *)
(** * Task states of the scheduler and their memory storage

    service/scheduler/types.go and service/scheduler/storages/memory.  Every
    operation of the storage holds its mutex throughout, so it is one function on
    the maps.  Times are Unix seconds; the counter of revisions is not wrapped,
    which would take 2^63 writes of one task. *)

From S2P Require Import Prelude GoBytes GoStrings.
From Stdlib Require Import Strings.Byte.

Module SchedulerStore.
Import GoBytes GoStrings.

(** ** Types *)

Inductive TaskStatus :=
| TaskStatusUnspecified | TaskStatusActive | TaskStatusPaused | TaskStatusDisabled | TaskStatusRunning | TaskStatusCompleted.
#[export] Instance TaskStatus_eq_dec : EqDecision TaskStatus.
Proof. solve_decision. Defined.

Definition TaskPriorityUnspecified : Z := 0.
Definition TaskPriorityLow : Z := 1.
Definition TaskPriorityNormal : Z := 2.
Definition TaskPriorityHigh : Z := 3.
Definition TaskPriorityCritical : Z := 4.

Record TaskSummary := mkSummary {
  ID : bytes;
  Description : bytes;
  Status : TaskStatus;
  Priority : Z;
  Schedule : bytes;
  LastRunAt : Z;
  NextRunAt : Z;
  SkipNextRun : bool;
  DisableHistory : bool;
  Unmanaged : bool;
  OneShot : bool;
  Failures : Z
}.

Record TaskState := mkState {
  sum :> TaskSummary;
  LastRunID : bytes;
  RunStartedAt : Z;
  RunLeaseUntil : Z;
  RunLeaseID : bytes;
  RunAt : Z;
  Meta : gmap bytes bytes;
  CreatedAt : Z;
  UpdatedAt : Z;
  Revision : Z
}.

Record TaskHistory := mkHistory {
  h_ID : bytes;
  h_TaskID : bytes;
  h_RunID : bytes;
  h_Error : bytes;
  h_StartedAt : Z;
  h_EndedAt : Z;
  h_DurationMs : Z;
  h_Success : bool
}.

(** Assignments to the fields of a state. *)
Definition set_sum (f : TaskSummary -> TaskSummary) (s : TaskState) : TaskState :=
  mkState (f (sum s)) (LastRunID s) (RunStartedAt s) (RunLeaseUntil s) (RunLeaseID s) (RunAt s) (Meta s) (CreatedAt s) (UpdatedAt s)
    (Revision s).
Definition set_Status (v : TaskStatus) : TaskState -> TaskState := set_sum (fun s =>
  mkSummary (ID s) (Description s) v (Priority s) (Schedule s) (LastRunAt s) (NextRunAt s) (SkipNextRun s) (DisableHistory s)
    (Unmanaged s) (OneShot s) (Failures s)).
Definition set_LastRunAt (v : Z) : TaskState -> TaskState := set_sum (fun s =>
  mkSummary (ID s) (Description s) (Status s) (Priority s) (Schedule s) v (NextRunAt s) (SkipNextRun s) (DisableHistory s)
    (Unmanaged s) (OneShot s) (Failures s)).
Definition set_NextRunAt (v : Z) : TaskState -> TaskState := set_sum (fun s =>
  mkSummary (ID s) (Description s) (Status s) (Priority s) (Schedule s) (LastRunAt s) v (SkipNextRun s) (DisableHistory s)
    (Unmanaged s) (OneShot s) (Failures s)).
Definition set_SkipNextRun (v : bool) : TaskState -> TaskState := set_sum (fun s =>
  mkSummary (ID s) (Description s) (Status s) (Priority s) (Schedule s) (LastRunAt s) (NextRunAt s) v (DisableHistory s)
    (Unmanaged s) (OneShot s) (Failures s)).
Definition set_Failures (v : Z) : TaskState -> TaskState := set_sum (fun s =>
  mkSummary (ID s) (Description s) (Status s) (Priority s) (Schedule s) (LastRunAt s) (NextRunAt s) (SkipNextRun s)
    (DisableHistory s) (Unmanaged s) (OneShot s) v).
Definition set_run (runID : bytes) (startedAt : Z) (s : TaskState) : TaskState :=
  mkState (sum s) runID startedAt (RunLeaseUntil s) (RunLeaseID s) (RunAt s) (Meta s) (CreatedAt s) (UpdatedAt s) (Revision s).
Definition set_lease (until : Z) (runID : bytes) (s : TaskState) : TaskState :=
  mkState (sum s) (LastRunID s) (RunStartedAt s) until runID (RunAt s) (Meta s) (CreatedAt s) (UpdatedAt s) (Revision s).
Definition set_UpdatedAt (v : Z) (s : TaskState) : TaskState :=
  mkState (sum s) (LastRunID s) (RunStartedAt s) (RunLeaseUntil s) (RunLeaseID s) (RunAt s) (Meta s) (CreatedAt s) v (Revision s).
Definition set_Revision (v : Z) (s : TaskState) : TaskState :=
  mkState (sum s) (LastRunID s) (RunStartedAt s) (RunLeaseUntil s) (RunLeaseID s) (RunAt s) (Meta s) (CreatedAt s) (UpdatedAt s) v.

(** An [int32] counter. *)
Definition i32 (z : Z) : Z := (z + 2 ^ 31) mod 2 ^ 32 - 2 ^ 31.

Record TaskFence := mkFence { f_Status : TaskStatus; f_NextRunAt : Z; f_LastRunID : bytes; f_RunStartedAt : Z; f_Revision : Z }.
#[export] Instance TaskFence_eq_dec : EqDecision TaskFence.
Proof. solve_decision. Defined.

Definition FenceOf (s : TaskState) : TaskFence := mkFence (Status s) (NextRunAt s) (LastRunID s) (RunStartedAt s) (Revision s).

Record RunClaim := mkClaim { c_NextRunAt : Z; c_RunAt : Z; c_StartedAt : Z; c_RunID : bytes; c_LeaseUntil : Z }.

Definition ErrInvalidRunClaim : error := ErrNew "invalid run claim".

Definition Validate (c : RunClaim) : option error :=
  if c_StartedAt c <=? 0
  then Some (ErrSuffix ErrInvalidRunClaim (": StartedAt " +:+ pretty (c_StartedAt c) +:+ " is not positive")%string)
  else if bool_decide (c_RunID c = []) then Some (ErrSuffix ErrInvalidRunClaim ": empty RunID")
  else if c_LeaseUntil c <? 0
  then Some (ErrSuffix ErrInvalidRunClaim (": LeaseUntil " +:+ pretty (c_LeaseUntil c) +:+ " is negative")%string)
  else None.

Record RunResult := mkResult {
  r_StartedAt : Z;
  r_EndedAt : Z;
  r_NextRunAt : Z;
  r_RunAt : Z;
  r_Schedule : bytes;
  r_Success : bool
}.

(** ** The memory storage *)

Record Storage := mkStorage { tasks : gmap bytes TaskState; history : gmap bytes (list TaskHistory); maxHist : Z }.

Definition New (maxHistoryPerTask : Z) : Storage := mkStorage ∅ ∅ (if maxHistoryPerTask <=? 0 then 1000 else maxHistoryPerTask).

Definition put (id : bytes) (s : TaskState) (m : Storage) : Storage := mkStorage (<[id := s]> (tasks m)) (history m) (maxHist m).

Definition GetTask (id : bytes) (m : Storage) : option TaskState := tasks m !! id.

Definition UpsertTask (s : TaskState) (m : Storage) : Storage :=
  put (ID s) (set_Revision (match GetTask (ID s) m with Some cur => Revision cur + 1 | None => 1 end) s) m.

Definition CreateTask (s : TaskState) (m : Storage) : bool * Storage :=
  match GetTask (ID s) m with
  | Some _ => (false, m)
  | None => (true, put (ID s) (set_Revision 1 s) m)
  end.

Definition ReplaceTaskIf (s : TaskState) (expect : TaskFence) (m : Storage) : bool * Storage :=
  match GetTask (ID s) m with
  | None => (false, m)
  | Some cur =>
      if decide (FenceOf cur = expect) then (true, put (ID s) (set_Revision (Revision cur + 1) s) m) else (false, m)
  end.

Definition ClaimRun (id : bytes) (claim : RunClaim) (m : Storage) : (error + bool) * Storage :=
  match Validate claim with
  | Some err => (inl err, m)
  | None =>
      match GetTask id m with
      | None => (inr false, m)
      | Some s =>
          if negb (bool_decide (Status s = TaskStatusActive)) || negb (RunStartedAt s =? 0) then (inr false, m)
          else if negb (NextRunAt s =? c_NextRunAt claim) || negb (RunAt s =? c_RunAt claim) then (inr false, m)
          else
            let s := set_Status TaskStatusRunning s in
            let s := set_run (c_RunID claim) (c_StartedAt claim) s in
            let s := set_lease (c_LeaseUntil claim) (c_RunID claim) s in
            let s := set_UpdatedAt (c_StartedAt claim) s in
            (inr true, put id (set_Revision (Revision s + 1) s) m)
      end
  end.

Definition DeleteTask (id : bytes) (m : Storage) : Storage :=
  mkStorage (delete id (tasks m)) (delete id (history m)) (maxHist m).

(** Sorted by [ID]. *)
Definition by_ID (a b : TaskState) : Prop := bytes_le (ID a) (ID b).
#[export] Instance by_ID_dec a b : Decision (by_ID a b).
Proof. unfold by_ID. apply _. Defined.
Definition SortByID (l : list TaskState) : list TaskState := merge_sort by_ID l.

Definition Tasks (m : Storage) : list TaskState := SortByID ((map_to_list (tasks m)).*2).
Definition DueTasks (now : Z) (m : Storage) : list TaskState :=
  SortByID (filter (fun s : TaskState => Status s = TaskStatusActive /\ NextRunAt s <= now) (map_to_list (tasks m)).*2).

Definition AddHistory (h : TaskHistory) (m : Storage) : Storage :=
  let l := default [] (history m !! h_TaskID h) ++ [h] in
  mkStorage (tasks m) (<[h_TaskID h := if maxHist m <? zlen l then drop 1 l else l]> (history m)) (maxHist m).

(** [CleanupHistory] with its cutoff. *)
Definition CleanupHistory (cutoff : Z) (m : Storage) : Storage :=
  mkStorage (tasks m) (filter (fun h => ~ (h_EndedAt h < cutoff)) <$> history m) (maxHist m).

Definition ownsUnfinishedRun (s : option TaskState) (runID : bytes) : bool :=
  match s with
  | None => false
  | Some s => negb (bool_decide (runID = [])) && bool_decide (LastRunID s = runID) && negb (RunStartedAt s =? 0)
  end.

Definition FinishRun (id runID : bytes) (result : RunResult) (m : Storage) : bool * Storage :=
  match GetTask id m with
  | None => (false, m)
  | Some s =>
      if negb (ownsUnfinishedRun (Some s) runID) then (false, m)
      else
        let executed := OneShot s && (RunAt s =? r_RunAt result) in
        let s :=
          if executed then set_NextRunAt 0 (set_Status TaskStatusCompleted s)
          else if bool_decide (Status s = TaskStatusRunning) then set_Status TaskStatusActive s
          else s in
        let s := if negb (OneShot s) && bool_decide (Schedule s = r_Schedule result) then set_NextRunAt (r_NextRunAt result) s else s in
        let s := set_LastRunAt (r_StartedAt result) s in
        let s := set_run (LastRunID s) 0 s in
        let s := set_lease 0 [] s in
        let s := set_UpdatedAt (r_EndedAt result) s in
        let s := set_Failures (if r_Success result then 0 else i32 (Failures s + 1)) s in
        (true, put id (set_Revision (Revision s + 1) s) m)
  end.

Definition RenewRun (id runID : bytes) (leaseUntil : Z) (m : Storage) : bool * Storage :=
  match GetTask id m with
  | None => (false, m)
  | Some s =>
      if negb (ownsUnfinishedRun (Some s) runID) then (false, m)
      else
        let s := set_lease leaseUntil runID s in
        (true, put id (set_Revision (Revision s + 1) s) m)
  end.

(** *** Pages *)

(** A filter is its evaluation; [None] is no filter. *)
Fixpoint collect {A} (matches : A -> error + bool) (limit : Z) (l results : list A) : error + list A :=
  match l with
  | [] => inr results
  | x :: l =>
      match matches x with
      | inl err => inl err
      | inr true =>
          let results := results ++ [x] in
          if limit <? zlen results then inr results else collect matches limit l results
      | inr false => collect matches limit l results
      end
  end.

Definition page {A} (f : option (A -> error + bool)) (limit : Z) (l : list A) : error + list A :=
  match f with
  | None => inr (take (Z.to_nat (limit + 1)) l)
  | Some matches => collect matches limit l []
  end.

Definition TasksPaginated (afterID : bytes) (limit : Z) (f : option (TaskState -> error + bool)) (m : Storage) : error + list TaskState :=
  let states := Tasks m in
  if bool_decide (afterID = []) then page f limit states
  else
    match list_find (fun s : TaskState => ~ bytes_le (ID s) afterID) states with
    | None => page f limit []
    | Some (i, _) => page f limit (drop i states)
    end.

(** Latest start first, then descending [ID]. *)
Definition later (a b : TaskHistory) : Prop :=
  h_StartedAt b < h_StartedAt a \/ (h_StartedAt b = h_StartedAt a /\ bytes_le (h_ID b) (h_ID a)).
#[export] Instance later_dec a b : Decision (later a b).
Proof. unfold later. apply _. Defined.

Definition HistoryPaginated (taskID afterID : bytes) (afterStartedAt limit : Z) (f : option (TaskHistory -> error + bool)) (m : Storage) :
  error + list TaskHistory :=
  let sorted := merge_sort later (default [] (history m !! taskID)) in
  match sorted with
  | [] => inr []
  | _ =>
      let past h := h_StartedAt h < afterStartedAt \/ (h_StartedAt h = afterStartedAt /\ ~ bytes_le afterID (h_ID h)) in
      if bool_decide (afterID = []) then page f limit sorted
      else
        match list_find past sorted with
        | None => inr []
        | Some (i, _) => page f limit (drop i sorted)
        end
  end.

End SchedulerStore.
