(* ===== verification/Scheduler.v ===== *)
(** * The scheduler: service/scheduler

    Instances of the scheduler share a storage.  A goroutine is a program over
    [call]: the calls of the storage, and the steps at which it reads the clock,
    its context or what the goroutines of its instance share.  The world runs
    the programs of all instances with every interleaving of these calls, loses
    replies of the storage, and stops instances at any point.

    The memory of a registration is a cell of its instance, since a goroutine
    keeps the registration it was started for while another replaces it. *)

From S2P Require Import Prelude GoBytes GoStrings SchedulerStore.
From Stdlib Require Import Strings.Byte.

Module Scheduler.
Import GoBytes GoStrings SchedulerStore.

(** ** Errors, configuration and options *)

Definition ErrTaskNotFound : error := ErrNew "task not found".
Definition ErrTaskNotRegistered : error := ErrNew "task not registered".
Definition ErrTaskUnmanaged : error := ErrNew "task is unmanaged".
Definition ErrTaskNotPaused : error := ErrNew "task is not paused".
Definition ErrTaskNotDisabled : error := ErrNew "task is not disabled".
Definition ErrTaskDisabled : error := ErrNew "task is disabled".
Definition ErrTaskCompleted : error := ErrNew "task is completed".
Definition ErrTaskAlreadyDispatched : error := ErrNew "task already dispatched".
Definition ErrNotReady : error := ErrNew "subsystems not ready".
Definition ErrScheduleConflict : error := ErrNew "RunAt and Schedule are mutually exclusive".
Definition ErrConcurrentUpdate : error := ErrNew "task was modified concurrently".

(** [TaskConfig]; of the function only whether it is nil, and the timeout only
    reaches the context of the function. *)
Record TaskConfig := mkConfig {
  cfg_ID : bytes;
  cfg_Description : bytes;
  cfg_Schedule : bytes;
  cfg_hasFunc : bool;
  cfg_Priority : Z;
  cfg_RunOnStart : bool;
  cfg_DisableHistory : bool;
  cfg_Unmanaged : bool;
  cfg_RunAt : Z;
  cfg_Meta : gmap bytes bytes
}.

Definition with_priority (p : Z) (c : TaskConfig) : TaskConfig :=
  mkConfig (cfg_ID c) (cfg_Description c) (cfg_Schedule c) (cfg_hasFunc c) p (cfg_RunOnStart c) (cfg_DisableHistory c)
    (cfg_Unmanaged c) (cfg_RunAt c) (cfg_Meta c).

Record options := mkOptions {
  instanceID : bytes;
  staleTaskTimeout : Z;
  runOnStartGrace : Z;
  historyRetention : Z;
  dynamic : bool;
  maxConcurrentTasks : Z;
  reservedHighPrioritySlots : Z
}.

Definition second : Z := 1000000000.
Definition minRunLease : Z := 5 * second.
Definition maxOwnershipConfirmations : nat := 3.
Definition MaxUpdateAttempts : nat := 10.

(** ** What goroutines call *)

Inductive sop : Type -> Type :=
| SGetTask (id : bytes) : sop (option TaskState)
| SCreateTask (s : TaskState) : sop bool
| SReplaceTaskIf (s : TaskState) (expect : TaskFence) : sop bool
| SClaimRun (id : bytes) (claim : RunClaim) : sop (error + bool)
| SRenewRun (id runID : bytes) (leaseUntil : Z) : sop bool
| SFinishRun (id runID : bytes) (result : RunResult) : sop bool
| SDeleteTask (id : bytes) : sop unit
| STasks : sop (list TaskState)
| SDueTasks (now : Z) : sop (list TaskState)
| SAddHistory (h : TaskHistory) : sop unit
| SCleanupHistory (cutoff : Z) : sop unit.

Record pendingTask := mkPending { pt_task : nat; pt_config : TaskConfig; pt_state : TaskState }.

(** The two semaphores of the static mode. *)
Inductive semaphore := Shared | Reserved.

Inductive call : Type -> Type :=
| CStore {X} (o : sop X) : call (error + X)
| CNow : call Z
| CCtxErr : call (option error)
| CGenerateID : call bytes
| CLive (runID : bytes) : call unit
| CDead (runID : bytes) : call unit
| CIsLive (runID : bytes) : call bool
| CBody (id runID : bytes) : call (option error)
| CTasks : call (gmap bytes (nat * TaskConfig))
| CBind (id : bytes) (cfg : TaskConfig) : call unit
| CUnbind (id : bytes) : call unit
| CTryDispatch (task : nat) : call bool
| CRelease (task : nat) : call unit
| CDispatched (task : nat) : call bool
| CTryRun (task : nat) : call bool
| CEndRun (task : nat) : call unit
| CBeat (runID : bytes) : call unit
| CStopped (runID : bytes) : call bool
| CStop (runID : bytes) : call unit
| CCancelled (runID : bytes) : call unit
| CBeatEnd (runID : bytes) : call unit
| CWait (runID : bytes) : call unit
| CIsLeader : call bool
| CIsReady : call bool
| CLimit : call Z
| CPerTick : call Z
| CRunning : call Z
| CAddRunning (n : Z) : call unit
| CTrySem (q : semaphore) : call bool
| CAcquire (q : semaphore) : call bool
| CReleaseSem (q : semaphore) : call unit
| CSort (l : list pendingTask) : call (list pendingTask).

Inductive prog : Type -> Type :=
| Ret {A} (a : A) : prog A
| Do {A X} (c : call X) (k : X -> prog A) : prog A
| Spawn {A} (p : prog unit) (k : prog A) : prog A.

Fixpoint bind {A} (p : prog A) {B} : (A -> prog B) -> prog B :=
  match p with
  | Ret a => fun f => f a
  | Do c k => fun f => Do c (fun x => bind (k x) f)
  | Spawn q k => fun f => Spawn q (bind k f)
  end.

Definition ignore {A} (p : prog A) : prog unit := bind p (fun _ => Ret tt).

Declare Scope sched_scope.
Delimit Scope sched_scope with sched.
Notation "'call!' x := c 'in' k" := (Do c (fun x => k)) (at level 10, x pattern, c at level 100, k at level 200) : sched_scope.
Notation "'run!' x := p 'in' k" := (bind p (fun x => k)) (at level 10, x pattern, p at level 100, k at level 200) : sched_scope.
#[local] Open Scope sched_scope.

(** ** Runs and leases *)

Definition runIDSeparator : byte := x2f.

Definition runOwner (runID : bytes) : bytes :=
  match Cut runIDSeparator (rev runID) with Some (_, owner) => rev owner | None => [] end.

Definition runLease (o : options) : Z := Z.max (staleTaskTimeout o) minRunLease.
Definition leaseSeconds (lease : Z) : Z :=
  let sec := Z.quot lease second in if Z.rem lease second =? 0 then sec else sec + 1.

(** [registeredTask.matches]. *)
Definition matches (cfg : TaskConfig) (s : TaskState) : bool :=
  let oneShot := negb (Go.is_zero (cfg_RunAt cfg)) in
  if negb (Bool.eqb oneShot (OneShot s)) then false else negb oneShot || (Go.unix (cfg_RunAt cfg) =? RunAt s).

Section programs.
(** The cron parser, the rendering of a string by the verb %q, and the options of
    the instance. *)
Context (parse : bytes -> error + (Z -> Z)) (quoted : bytes -> string) (o : options).

Definition calculateNextRun (from : Z) (s : TaskState) : Z :=
  match parse (Schedule s) with inr next => next from | inl _ => from + 3600 * second end.

Definition renewRunLease (id runID : bytes) (leaseSec : Z) : prog (Z * (error + bool)) :=
  call! issued := CNow in
  call! renewed := CStore (SRenewRun id runID (Go.unix issued + leaseSec)) in
  Ret (issued, renewed).

(** [confirmRunOwnership]; [more] renewals may still be made. *)
Fixpoint confirmRunOwnership (more : nat) (id runID : bytes) (leaseSec leaseBase interval : Z) : prog (Z * bool) :=
  call! now := CNow in
  if Go.sub now leaseBase <? interval then Ret (leaseBase, true)
  else
    match more with
    | O => Ret (leaseBase, false)
    | S more =>
        run! (base, renewed) := renewRunLease id runID leaseSec in
        match renewed with
        | inl _ | inr false => Ret (leaseBase, false)
        | inr true =>
            match more with
            | O =>
                call! now := CNow in
                if interval <=? Go.sub now base then Ret (leaseBase, false)
                else confirmRunOwnership more id runID leaseSec base interval
            | S _ => confirmRunOwnership more id runID leaseSec base interval
            end
        end
    end.

(** The goroutine of [startRunHeartbeat] for at most [n] firings of its timer;
    then it waits for its context. *)
Fixpoint heartbeat (n : nat) (id runID : bytes) (leaseSec : Z) : prog unit :=
  let finish := call! _ := CBeatEnd runID in Ret tt in
  match n with
  | O => call! _ := CCancelled runID in finish
  | S n =>
      call! stopped := CStopped runID in
      if (stopped : bool) then finish
      else
        run! (_, renewed) := renewRunLease id runID leaseSec in
        call! stopped := CStopped runID in
        if (stopped : bool) then finish
        else
          match renewed with
          | inl _ => heartbeat n id runID leaseSec
          | inr false => finish
          | inr true => heartbeat n id runID leaseSec
          end
  end.

(** ** Execution *)

(** What [executeTask] does once its body has returned. *)
Definition record_result (s : TaskState) (runID : bytes) (startTime : Z) (execErr : option error) : prog unit :=
  call! endTime := CNow in
  let finish :=
    call! fresh := CStore (SGetTask (ID s)) in
    match fresh with
    | inl _ | inr None => Ret tt
    | inr (Some freshState) =>
        if negb (bool_decide (LastRunID freshState = runID)) then Ret tt
        else
          let nextRunAt := if OneShot freshState then 0 else Go.unix (calculateNextRun startTime freshState) in
          call! _ := CStore (SFinishRun (ID s) runID
            (mkResult (Go.unix startTime) (Go.unix endTime) nextRunAt (RunAt s) (Schedule freshState)
               (match execErr with None => true | Some _ => false end))) in
          Ret tt
    end in
  if DisableHistory s then finish
  else
    call! hid := CGenerateID in
    call! _ := CStore (SAddHistory (mkHistory hid (ID s) runID
      (match execErr with None => [] | Some err => bs (Errors.text err) end) (Go.unix startTime) (Go.unix endTime)
      (Z.quot (Go.sub endTime startTime) 1000000) (match execErr with None => true | Some _ => false end))) in
    finish.

(** From the claim on. *)
Definition claim_and_run (n : nat) (s : TaskState) (runID : bytes) (startTime : Z) : prog unit :=
  let lease := runLease o in
  let leaseSec := leaseSeconds lease in
  call! claimed := CStore (SClaimRun (ID s)
    (mkClaim (NextRunAt s) (RunAt s) (Go.unix startTime) runID (Go.unix startTime + leaseSec))) in
  match claimed with
  | inl _ | inr (inl _) | inr (inr false) => Ret tt
  | inr (inr true) =>
      run! (_, owned) := confirmRunOwnership maxOwnershipConfirmations (ID s) runID leaseSec startTime (Z.quot lease 3) in
      if negb owned then Ret tt
      else
        call! _ := CBeat runID in
        Spawn (heartbeat n (ID s) runID leaseSec)
          (call! execErr := CBody (ID s) runID in
           run! _ := record_result s runID startTime execErr in
           call! _ := CStop runID in
           call! _ := CWait runID in
           Ret tt)
  end.

Definition executeTask (n : nat) (task : nat) (cfg : TaskConfig) (s : TaskState) : prog unit :=
  call! first := CTryRun task in
  if negb first then Ret tt
  else
    run! _ :=
      (if negb (matches cfg s) then Ret tt
       else
         call! random := CGenerateID in
         let runID := instanceID o ++ [runIDSeparator] ++ random in
         call! startTime := CNow in
         call! _ := CLive runID in
         run! _ := claim_and_run n s runID startTime in
         call! _ := CDead runID in
         Ret tt) in
    call! _ := CEndRun task in
    Ret tt.

(** ** Dispatch *)

Definition runTaskWithSemaphore (n : nat) (task : nat) (cfg : TaskConfig) (s : TaskState) : prog unit :=
  let priority := cfg_Priority cfg in
  let execute := executeTask n task cfg s in
  let counted := call! _ := CAddRunning 1 in run! _ := execute in call! _ := CAddRunning (-1) in Ret tt in
  let holding q := run! _ := execute in call! _ := CReleaseSem q in Ret tt in
  let shared :=
    if priority =? TaskPriorityLow then call! got := CTrySem Shared in if (got : bool) then holding Shared else Ret tt
    else call! got := CAcquire Shared in if (got : bool) then holding Shared else Ret tt in
  if priority =? TaskPriorityCritical then execute
  else if dynamic o then counted
  else if maxConcurrentTasks o <=? 0 then counted
  else if (priority =? TaskPriorityHigh) && (0 <? reservedHighPrioritySlots o)
  then call! got := CTrySem Reserved in if (got : bool) then holding Reserved else shared
  else shared.

(** A goroutine of the dispatch, which frees the slot of its task at the end. *)
Definition dispatched_run (task : nat) (p : prog unit) : prog unit := run! _ := p in call! _ := CRelease task in Ret tt.
Definition counted_run (n : nat) (pt : pendingTask) : prog unit :=
  dispatched_run (pt_task pt)
    (run! _ := executeTask n (pt_task pt) (pt_config pt) (pt_state pt) in call! _ := CAddRunning (-1) in Ret tt).

Fixpoint dispatchStatic (n : nat) (pending : list pendingTask) : prog unit :=
  match pending with
  | [] => Ret tt
  | pt :: pending =>
      call! got := CTryDispatch (pt_task pt) in
      if negb got then dispatchStatic n pending
      else Spawn (dispatched_run (pt_task pt) (runTaskWithSemaphore n (pt_task pt) (pt_config pt) (pt_state pt))) (dispatchStatic n pending)
  end.

Fixpoint dispatchUnlimited (n : nat) (perTickCap dispatched : Z) (pending : list pendingTask) : prog unit :=
  match pending with
  | [] => Ret tt
  | pt :: pending =>
      call! got := CTryDispatch (pt_task pt) in
      if negb got then dispatchUnlimited n perTickCap dispatched pending
      else if cfg_Priority (pt_config pt) =? TaskPriorityCritical
      then Spawn (dispatched_run (pt_task pt) (executeTask n (pt_task pt) (pt_config pt) (pt_state pt)))
             (dispatchUnlimited n perTickCap dispatched pending)
      else if perTickCap <=? dispatched then call! _ := CRelease (pt_task pt) in Ret tt
      else
        call! _ := CAddRunning 1 in
        Spawn (counted_run n pt) (dispatchUnlimited n perTickCap (dispatched + 1) pending)
  end.

(** The two loops of [dispatchDynamic]: without a limit, and with one. *)
Fixpoint dispatch_all (n : nat) (pending : list pendingTask) : prog unit :=
  match pending with
  | [] => Ret tt
  | pt :: pending =>
      call! got := CTryDispatch (pt_task pt) in
      if negb got then dispatch_all n pending
      else call! _ := CAddRunning 1 in Spawn (counted_run n pt) (dispatch_all n pending)
  end.
Fixpoint dispatch_limited (n : nat) (available reserved : Z) (pending : list pendingTask) : prog unit :=
  match pending with
  | [] => Ret tt
  | pt :: pending =>
      let priority := cfg_Priority (pt_config pt) in
      call! got := CTryDispatch (pt_task pt) in
      if negb got then dispatch_limited n available reserved pending
      else if priority =? TaskPriorityCritical
      then Spawn (dispatched_run (pt_task pt) (executeTask n (pt_task pt) (pt_config pt) (pt_state pt)))
             (dispatch_limited n available reserved pending)
      else if available <=? 0 then call! _ := CRelease (pt_task pt) in Ret tt
      else if negb (priority =? TaskPriorityHigh) && (available <=? reserved) then call! _ := CRelease (pt_task pt) in Ret tt
      else
        call! _ := CAddRunning 1 in
        Spawn (counted_run n pt)
          (dispatch_limited n (available - 1)
             (if (priority =? TaskPriorityHigh) && (0 <? reserved) then reserved - 1 else reserved) pending)
  end.
Definition dispatchDynamic (n : nat) (pending : list pendingTask) : prog unit :=
  call! limit := CLimit in
  if limit <=? 0 then dispatch_all n pending
  else
    call! running := CRunning in
    dispatch_limited n (limit - running) (reservedHighPrioritySlots o) pending.

Definition dispatchPending (n : nat) (pending : list pendingTask) : prog unit :=
  if dynamic o then dispatchDynamic n pending
  else if maxConcurrentTasks o <=? 0 then call! procs := CPerTick in dispatchUnlimited n (procs * 4) 0 pending
  else dispatchStatic n pending.

(** [applySkip]; a failed write counts as not replaced. *)
Definition applySkip (now : Z) (id : bytes) (due : TaskFence) : prog unit :=
  call! fresh := CStore (SGetTask id) in
  match fresh with
  | inl _ | inr None => Ret tt
  | inr (Some fresh) =>
      if negb (SkipNextRun fresh) || negb (bool_decide (FenceOf fresh = due)) then Ret tt
      else
        let s := set_SkipNextRun false fresh in
        let s := if OneShot s then set_NextRunAt 0 (set_Status TaskStatusCompleted s)
                 else set_NextRunAt (Go.unix (calculateNextRun now s)) s in
        let s := set_UpdatedAt (Go.unix now) s in
        call! _ := CStore (SReplaceTaskIf s due) in
        Ret tt
  end.

Fixpoint collect_pending (now : Z) (registered : gmap bytes (nat * TaskConfig)) (states : list TaskState) (pending : list pendingTask) :
  prog (list pendingTask) :=
  match states with
  | [] => Ret pending
  | s :: states =>
      match registered !! ID s with
      | None => collect_pending now registered states pending
      | Some (task, cfg) =>
          call! busy := CDispatched task in
          if (busy : bool) || (Go.unix now <? NextRunAt s) || negb (matches cfg s) || negb (RunStartedAt s =? 0)
          then collect_pending now registered states pending
          else if SkipNextRun s
          then run! _ := applySkip now (ID s) (FenceOf s) in collect_pending now registered states pending
          else collect_pending now registered states (pending ++ [mkPending task cfg s])
      end
  end.

Definition tick (n : nat) : prog unit :=
  call! leader := CIsLeader in
  if negb leader then Ret tt
  else
    call! ready := CIsReady in
    if negb ready then Ret tt
    else
      call! registered := CTasks in
      call! now := CNow in
      call! due := CStore (SDueTasks (Go.unix now)) in
      match due with
      | inl _ => Ret tt
      | inr states =>
          run! pending := collect_pending now registered states [] in
          call! pending := CSort pending in
          dispatchPending n pending
      end.

Definition cleanup : prog unit :=
  call! now := CNow in
  call! _ := CStore (SCleanupHistory (Go.unix (now - historyRetention o))) in
  Ret tt.

(** ** Stale recovery *)

Definition runAbandoned (s : TaskState) (now leaseSec : Z) : prog bool :=
  if (RunStartedAt s =? 0) && negb (bool_decide (Status s = TaskStatusRunning)) then Ret false
  else if negb (bool_decide (LastRunID s = [])) && bool_decide (runOwner (LastRunID s) = instanceID o)
  then call! live := CIsLive (LastRunID s) in Ret (negb live)
  else if negb (RunLeaseUntil s =? 0) && negb (bool_decide (RunLeaseID s = [])) && bool_decide (RunLeaseID s = LastRunID s)
  then Ret (RunLeaseUntil s <? now)
  else
    let since := if RunStartedAt s =? 0 then UpdatedAt s else RunStartedAt s in
    let deadline := since + leaseSec in
    let deadline := if bool_decide (RunLeaseID s = []) then Z.max deadline (RunLeaseUntil s) else deadline in
    Ret (deadline <? now).

Definition resetStaleTask (id : bytes) (stale : TaskFence) (now : Z) : prog unit :=
  call! cur := CStore (SGetTask id) in
  match cur with
  | inl _ | inr None => Ret tt
  | inr (Some s) =>
      if negb (bool_decide (FenceOf s = stale)) then Ret tt
      else
        let s :=
          if bool_decide (Status s = TaskStatusRunning) then
            let s := set_Status TaskStatusActive s in
            if negb (OneShot s) && negb (bool_decide (Schedule s = [])) then set_NextRunAt (Go.unix (calculateNextRun now s)) s
            else if OneShot s then set_NextRunAt (Z.max (NextRunAt s) (Go.unix now)) s
            else s
          else s in
        let s := set_run (LastRunID s) 0 s in
        let s := set_lease 0 [] s in
        let s := set_Failures (i32 (Failures s + 1)) s in
        let s := set_UpdatedAt (Go.unix now) s in
        call! _ := CStore (SReplaceTaskIf s stale) in
        Ret tt
  end.

Fixpoint collect_stale (now leaseSec : Z) (states stale : list TaskState) : prog (list TaskState) :=
  match states with
  | [] => Ret stale
  | s :: states =>
      run! abandoned := runAbandoned s now leaseSec in
      collect_stale now leaseSec states (if (abandoned : bool) then stale ++ [s] else stale)
  end.
Fixpoint reset_all (now : Z) (stale : list TaskState) : prog unit :=
  match stale with
  | [] => Ret tt
  | s :: stale => run! _ := resetStaleTask (ID s) (FenceOf s) now in reset_all now stale
  end.

Definition recoverStaleTasks : prog unit :=
  call! now := CNow in
  call! all := CStore STasks in
  match all with
  | inl _ => Ret tt
  | inr states =>
      run! stale := collect_stale (Go.unix now) (leaseSeconds (runLease o)) states [] in
      reset_all now stale
  end.

(** ** Management *)

Fixpoint update_loop (n : nat) (id : bytes) (mutate : TaskState -> prog (error + TaskState)) : prog (option error) :=
  match n with
  | O => Ret (Some ErrConcurrentUpdate)
  | S n =>
      call! cur := CStore (SGetTask id) in
      match cur with
      | inl err => Ret (Some err)
      | inr None => Ret (Some ErrTaskNotFound)
      | inr (Some s) =>
          run! next := mutate s in
          match next with
          | inl err => Ret (Some err)
          | inr next =>
              call! replaced := CStore (SReplaceTaskIf next (FenceOf s)) in
              match replaced with
              | inl err => Ret (Some err)
              | inr true => Ret None
              | inr false =>
                  call! err := CCtxErr in
                  match err with Some err => Ret (Some err) | None => update_loop n id mutate end
              end
          end
      end
  end.
Definition updateTask (id : bytes) (mutate : TaskState -> prog (error + TaskState)) : prog (option error) :=
  update_loop MaxUpdateAttempts id mutate.

(** Pausing and disabling. *)
Definition suspend (status : TaskStatus) (s : TaskState) : prog (error + TaskState) :=
  if bool_decide (Status s = TaskStatusCompleted) then Ret (inl ErrTaskCompleted)
  else if Unmanaged s then Ret (inl ErrTaskUnmanaged)
  else
    call! now := CNow in
    Ret (inr (set_UpdatedAt (Go.unix now) (set_Status status s))).

(** Resuming and enabling. *)
Definition activate (status : TaskStatus) (refused : error) (s : TaskState) : prog (error + TaskState) :=
  if bool_decide (Status s = TaskStatusCompleted) then Ret (inl ErrTaskCompleted)
  else if negb (bool_decide (Status s = status)) then Ret (inl refused)
  else
    call! now := CNow in
    let s := set_Status TaskStatusActive s in
    let s :=
      if OneShot s then (if NextRunAt s <? Go.unix now then set_NextRunAt (Go.unix now) s else s)
      else set_NextRunAt (Go.unix (calculateNextRun now s)) s in
    Ret (inr (set_UpdatedAt (Go.unix now) s)).

Definition PauseTask (id : bytes) : prog (option error) := updateTask id (suspend TaskStatusPaused).
Definition DisableTask (id : bytes) : prog (option error) := updateTask id (suspend TaskStatusDisabled).
Definition ResumeTask (id : bytes) : prog (option error) := updateTask id (activate TaskStatusPaused ErrTaskNotPaused).
Definition EnableTask (id : bytes) : prog (option error) := updateTask id (activate TaskStatusDisabled ErrTaskNotDisabled).
Definition SkipNextRunOf (id : bytes) : prog (option error) := updateTask id (fun s =>
  call! now := CNow in
  Ret (inr (set_UpdatedAt (Go.unix now) (set_SkipNextRun true s)))).

Definition Unregister (id : bytes) : prog (option error) :=
  let remove :=
    call! r := CStore (SDeleteTask id) in
    match r with inl err => Ret (Some (Errors.WrapOperation err "delete task from storage")) | inr _ => Ret None end in
  call! registered := CTasks in
  match registered !! id with
  | Some _ => call! _ := CUnbind id in remove
  | None =>
      call! cur := CStore (SGetTask id) in
      match cur with
      | inl err => Ret (Some (Errors.WrapOperation err "get task from storage"))
      | inr None => Ret (Some ErrTaskNotRegistered)
      | inr (Some _) => remove
      end
  end.

Definition TriggerTask (n : nat) (id : bytes) : prog (option error) :=
  call! ready := CIsReady in
  if negb ready then Ret (Some ErrNotReady)
  else
    call! registered := CTasks in
    match registered !! id with
    | None => Ret (Some ErrTaskNotRegistered)
    | Some (task, cfg) =>
        call! cur := CStore (SGetTask id) in
        match cur with
        | inl err => Ret (Some err)
        | inr None => Ret (Some ErrTaskNotFound)
        | inr (Some s) =>
            if bool_decide (Status s = TaskStatusCompleted) then Ret (Some ErrTaskCompleted)
            else if bool_decide (Status s = TaskStatusDisabled) then Ret (Some ErrTaskDisabled)
            else
              call! got := CTryDispatch task in
              if negb got then Ret (Some ErrTaskAlreadyDispatched)
              else Spawn (dispatched_run task (runTaskWithSemaphore n task cfg s)) (Ret None)
        end
    end.

(** *** Registration *)

Definition completedFor (existing : TaskState) (runAt : Z) : bool :=
  if negb (RunAt existing =? 0) then RunAt existing =? runAt
  else negb (LastRunAt existing =? 0) && (runAt <=? LastRunAt existing).

(** The instant of a count of Unix seconds. *)
Definition of_unix (sec : Z) : Z := (sec + Go.unix_epoch_sec) * Go.nanos_per_sec.

Definition startedWithin (s : TaskState) (now grace : Z) : bool :=
  let last := Z.max (LastRunAt s) (RunStartedAt s) in
  if (grace <=? 0) || (last =? 0) then false else Go.sub now (of_unix last) <? grace.

(** The state of a new registration. *)
Definition base_state (cfg : TaskConfig) (isOneShot : bool) (nextRun now : Z) : TaskState :=
  mkState
    (mkSummary (cfg_ID cfg) (cfg_Description cfg) TaskStatusActive (cfg_Priority cfg) (cfg_Schedule cfg) 0 (Go.unix nextRun) false
       (cfg_DisableHistory cfg) (cfg_Unmanaged cfg) isOneShot 0)
    [] 0 0 [] (if isOneShot then Go.unix (cfg_RunAt cfg) else 0) (cfg_Meta cfg) (Go.unix now) (Go.unix now) 0.

(** The merge of a registration with the state that exists. *)
Definition merge_state (cfg : TaskConfig) (isOneShot : bool) (nextRun now : Z) (base existing : TaskState) : TaskState :=
  let next :=
    if isOneShot then Go.unix nextRun
    else if negb (bool_decide (Schedule existing = cfg_Schedule cfg)) then Go.unix nextRun
    else if cfg_RunOnStart cfg && negb (startedWithin existing now (runOnStartGrace o)) then Z.min (NextRunAt existing) (Go.unix now)
    else NextRunAt existing in
  let keep := bool_decide (Status existing = TaskStatusCompleted) && isOneShot && OneShot existing && completedFor existing (RunAt base) in
  let status :=
    if keep then TaskStatusCompleted
    else if bool_decide (Status existing = TaskStatusCompleted) then TaskStatusActive
    else if negb (bool_decide (Status existing = TaskStatusActive)) then Status existing
    else Status base in
  mkState
    (mkSummary (ID base) (Description base) status (Priority base) (Schedule base) (LastRunAt existing)
       (if keep then NextRunAt existing else next) (SkipNextRun base) (DisableHistory base) (Unmanaged base) (OneShot base)
       (Failures existing))
    (LastRunID existing) (RunStartedAt existing) (RunLeaseUntil existing) (RunLeaseID existing) (RunAt base) (Meta base)
    (CreatedAt existing) (UpdatedAt base) (Revision base).

Fixpoint register_loop (n : nat) (base : TaskState) (merge : TaskState -> TaskState) : prog (option error) :=
  match n with
  | O => Ret (Some ErrConcurrentUpdate)
  | S n =>
      let again :=
        call! err := CCtxErr in
        match err with Some err => Ret (Some err) | None => register_loop n base merge end in
      let written (r : error + bool) :=
        match r with
        | inl err => Ret (Some (Errors.WrapOperation err "save task state"))
        | inr true => Ret None
        | inr false => again
        end in
      call! cur := CStore (SGetTask (ID base)) in
      match cur with
      | inl err => Ret (Some (Errors.WrapOperation err "check existing task"))
      | inr None => call! created := CStore (SCreateTask base) in written created
      | inr (Some existing) => call! replaced := CStore (SReplaceTaskIf (merge existing) (FenceOf existing)) in written replaced
      end
  end.

Definition Register (cfg : TaskConfig) : prog (option error) :=
  if bool_decide (cfg_ID cfg = []) then Ret (Some (ErrNew "task ID cannot be empty"))
  else if negb (cfg_hasFunc cfg) then Ret (Some (ErrNew "task function cannot be nil"))
  else
    let cfg := if cfg_Priority cfg =? TaskPriorityUnspecified then with_priority TaskPriorityNormal cfg else cfg in
    let isOneShot := negb (Go.is_zero (cfg_RunAt cfg)) in
    let scheduled := negb (bool_decide (cfg_Schedule cfg = [])) in
    if isOneShot && scheduled then Ret (Some ErrScheduleConflict)
    else if isOneShot && (Go.unix (cfg_RunAt cfg) <=? 0) then Ret (Some (ErrNew "task RunAt must be after the Unix epoch"))
    else if negb isOneShot && negb scheduled
    then Ret (Some (ErrNew "task schedule is required (e.g., '@every 5m', '0 */5 * * * *')"))
    else
      let register (nextRunFrom : Z -> Z) :=
        call! now := CNow in
        let nextRun := nextRunFrom now in
        let base := base_state cfg isOneShot nextRun now in
        run! failed := register_loop MaxUpdateAttempts base (merge_state cfg isOneShot nextRun now base) in
        match failed with
        | Some err => Ret (Some err)
        | None => call! _ := CBind (cfg_ID cfg) cfg in Ret None
        end in
      if isOneShot then register (fun now => if Go.before (cfg_RunAt cfg) now then now else cfg_RunAt cfg)
      else
        match parse (cfg_Schedule cfg) with
        | inl err => Ret (Some (Errors.Wrapf err ("invalid cron schedule " +:+ quoted (cfg_Schedule cfg))%string))
        | inr next => register (fun now => if cfg_RunOnStart cfg then now else next now)
        end.

End programs.

(** ** The world *)

Definition store_op {X} (op : sop X) (m : Storage) : X * Storage :=
  match op in sop X return X * Storage with
  | SGetTask id => (GetTask id m, m)
  | SCreateTask s => CreateTask s m
  | SReplaceTaskIf s expect => ReplaceTaskIf s expect m
  | SClaimRun id claim => ClaimRun id claim m
  | SRenewRun id runID until => RenewRun id runID until m
  | SFinishRun id runID result => FinishRun id runID result m
  | SDeleteTask id => (tt, DeleteTask id m)
  | STasks => (Tasks m, m)
  | SDueTasks now => (DueTasks now m, m)
  | SAddHistory h => (tt, AddHistory h m)
  | SCleanupHistory cutoff => (tt, CleanupHistory cutoff m)
  end.

Record registeredTask := mkTask { config : TaskConfig; dispatched : bool; running : bool }.

(** What the goroutines of an instance share. *)
Record Scheduler := mkScheduler {
  opts : options;
  liveRuns : gset bytes;
  s_tasks : gmap bytes nat;
  cells : list registeredTask;
  runningCount : Z;
  semaphoreUsed : semaphore -> Z
}.

Definition new_scheduler (o : options) : Scheduler := mkScheduler o ∅ ∅ [] 0 (fun _ => 0).

Definition set_live (l : gset bytes) (s : Scheduler) : Scheduler :=
  mkScheduler (opts s) l (s_tasks s) (cells s) (runningCount s) (semaphoreUsed s).
Definition set_cell (a : nat) (c : registeredTask) (s : Scheduler) : Scheduler :=
  mkScheduler (opts s) (liveRuns s) (s_tasks s) (<[a := c]> (cells s)) (runningCount s) (semaphoreUsed s).
Definition set_used (q : semaphore) (n : Z) (s : Scheduler) : Scheduler :=
  mkScheduler (opts s) (liveRuns s) (s_tasks s) (cells s) (runningCount s)
    (fun q' => match q, q' with Shared, Shared | Reserved, Reserved => n | _, _ => semaphoreUsed s q' end).

(** The capacities [New] gives the semaphores. *)
Definition capacity (o : options) (q : semaphore) : Z :=
  match q with
  | Shared => Z.max (maxConcurrentTasks o - reservedHighPrioritySlots o) 1
  | Reserved => reservedHighPrioritySlots o
  end.

Definition lookup_tasks (s : Scheduler) : gmap bytes (nat * TaskConfig) :=
  omap (fun a => c ← cells s !! a; Some (a, config c)) (s_tasks s).

(** What can be seen of a run. *)
Inductive event :=
| EvClaim (id runID : bytes) (leaseUntil : Z)
| EvRenew (id runID : bytes) (leaseUntil : Z)
| EvFinish (id runID : bytes)
| EvDelete (id : bytes).

Definition events {X} (op : sop X) : X -> list event :=
  match op in sop X return X -> list event with
  | SClaimRun id claim => fun r => match r with inr true => [EvClaim id (c_RunID claim) (c_LeaseUntil claim)] | _ => [] end
  | SRenewRun id runID until => fun r => if (r : bool) then [EvRenew id runID until] else []
  | SFinishRun id runID _ => fun r => if (r : bool) then [EvFinish id runID] else []
  | SDeleteTask id => fun _ => [EvDelete id]
  | _ => fun _ => []
  end.

(** The lease last written for a run; the log has its latest event first. *)
Fixpoint last_lease (runID : bytes) (log : list event) : option Z :=
  match log with
  | [] => None
  | EvClaim _ r until :: log | EvRenew _ r until :: log => if decide (r = runID) then Some until else last_lease runID log
  | _ :: log => last_lease runID log
  end.

(** [beats] has the running heartbeats, and whether they are cancelled; [used] the
    run IDs of the past. *)
Record world := mkWorld {
  store : Storage;
  clock : Z;
  insts : gmap bytes Scheduler;
  beats : gmap bytes bool;
  used : gset bytes;
  threads : list (bytes * prog unit);
  log : list event
}.

Definition did {X} (op : sop X) (w : world) : world :=
  mkWorld (store_op op (store w)).2 (clock w) (insts w) (beats w) (used w) (threads w) (events op (store_op op (store w)).1 ++ log w).
Definition set_inst (i : bytes) (s : Scheduler) (w : world) : world :=
  mkWorld (store w) (clock w) (<[i := s]> (insts w)) (beats w) (used w) (threads w) (log w).
Definition set_beats (b : gmap bytes bool) (w : world) : world :=
  mkWorld (store w) (clock w) (insts w) b (used w) (threads w) (log w).
Definition set_threads (l : list (bytes * prog unit)) (w : world) : world :=
  mkWorld (store w) (clock w) (insts w) (beats w) (used w) l (log w).

(** A call that only concerns what its instance shares. *)
Definition local {X} (i : bytes) (f : Scheduler -> X -> Scheduler -> Prop) (w : world) (x : X) (w' : world) : Prop :=
  exists s s', insts w !! i = Some s /\ f s x s' /\ w' = set_inst i s' w.
Definition on_cell {X} (a : nat) (f : registeredTask -> X * registeredTask) (s : Scheduler) (x : X) (s' : Scheduler) : Prop :=
  exists c, cells s !! a = Some c /\ x = (f c).1 /\ s' = set_cell a (f c).2 s.

(** A call of an instance [i] that returns [x].  The storage may lose a call or
    its reply; identifiers are not drawn twice. *)
Definition exec {X} (i : bytes) (c : call X) : world -> X -> world -> Prop :=
  match c in call X return world -> X -> world -> Prop with
  | CStore op => fun w x w' =>
      (x = inr (store_op op (store w)).1 /\ w' = did op w) \/ (exists err, x = inl err /\ (w' = did op w \/ w' = w))
  | CNow => fun w x w' => x = clock w /\ w' = w
  | CCtxErr => fun w _ w' => w' = w
  | CGenerateID => fun w x w' =>
      runIDSeparator ∉ x /\ i ++ [runIDSeparator] ++ x ∉ used w /\
      w' = mkWorld (store w) (clock w) (insts w) (beats w) ({[i ++ [runIDSeparator] ++ x]} ∪ used w) (threads w) (log w)
  | CLive r => local i (fun s _ s' => s' = set_live ({[r]} ∪ liveRuns s) s)
  | CDead r => local i (fun s _ s' => s' = set_live (liveRuns s ∖ {[r]}) s)
  | CIsLive r => local i (fun s x s' => x = bool_decide (r ∈ liveRuns s) /\ s' = s)
  | CBody _ _ => fun w _ w' => w' = w
  | CTasks => local i (fun s x s' => x = lookup_tasks s /\ s' = s)
  | CBind id cfg => local i (fun s _ s' =>
      s' = mkScheduler (opts s) (liveRuns s) (<[id := length (cells s)]> (s_tasks s)) (cells s ++ [mkTask cfg false false])
             (runningCount s) (semaphoreUsed s))
  | CUnbind id => local i (fun s _ s' =>
      s' = mkScheduler (opts s) (liveRuns s) (delete id (s_tasks s)) (cells s) (runningCount s) (semaphoreUsed s))
  | CTryDispatch a => local i (on_cell a (fun c => (negb (dispatched c), mkTask (config c) true (running c))))
  | CRelease a => local i (on_cell a (fun c => (tt, mkTask (config c) false (running c))))
  | CDispatched a => local i (on_cell a (fun c => (dispatched c, c)))
  | CTryRun a => local i (on_cell a (fun c => (negb (running c), mkTask (config c) (dispatched c) true)))
  | CEndRun a => local i (on_cell a (fun c => (tt, mkTask (config c) (dispatched c) false)))
  | CBeat r => fun w _ w' => w' = set_beats (<[r := false]> (beats w)) w
  | CStopped r => fun w x w' => x = default true (beats w !! r) /\ w' = w
  | CStop r => fun w _ w' => w' = set_beats (if beats w !! r is Some _ then <[r := true]> (beats w) else beats w) w
  | CCancelled r => fun w _ w' => beats w !! r = Some true /\ w' = w
  | CBeatEnd r => fun w _ w' => w' = set_beats (delete r (beats w)) w
  | CWait r => fun w _ w' => beats w !! r = None /\ w' = w
  | CIsLeader | CIsReady | CLimit | CPerTick => fun w _ w' => w' = w
  | CRunning => local i (fun s x s' => x = runningCount s /\ s' = s)
  | CAddRunning n => local i (fun s _ s' =>
      s' = mkScheduler (opts s) (liveRuns s) (s_tasks s) (cells s) (runningCount s + n) (semaphoreUsed s))
  | CTrySem q => local i (fun s x s' =>
      let free := semaphoreUsed s q <? capacity (opts s) q in
      x = free /\ s' = if free then set_used q (semaphoreUsed s q + 1) s else s)
  | CAcquire q => local i (fun s x s' =>
      (x = true /\ semaphoreUsed s q < capacity (opts s) q /\ s' = set_used q (semaphoreUsed s q + 1) s) \/ (x = false /\ s' = s))
  | CReleaseSem q => local i (fun s _ s' => s' = set_used q (semaphoreUsed s q - 1) s)
  | CSort l => fun w x w' =>
      x ≡ₚ l /\ StronglySorted (fun a b => cfg_Priority (pt_config b) <= cfg_Priority (pt_config a)) x /\ w' = w
  end.

(** What an instance does on its own, and what its users call.  [n] bounds the
    renewals of the heartbeats that are started. *)
Inductive entry (parse : bytes -> error + (Z -> Z)) (quoted : bytes -> string) (o : options) : prog unit -> Prop :=
| entry_tick n : entry parse quoted o (tick parse o n)
| entry_recover : entry parse quoted o (recoverStaleTasks parse o)
| entry_cleanup : entry parse quoted o (cleanup o)
| entry_register cfg : entry parse quoted o (ignore (Register parse quoted o cfg))
| entry_unregister id : entry parse quoted o (ignore (Unregister id))
| entry_pause id : entry parse quoted o (ignore (PauseTask id))
| entry_resume id : entry parse quoted o (ignore (ResumeTask parse id))
| entry_disable id : entry parse quoted o (ignore (DisableTask id))
| entry_enable id : entry parse quoted o (ignore (EnableTask parse id))
| entry_skip id : entry parse quoted o (ignore (SkipNextRunOf id))
| entry_trigger n id : entry parse quoted o (ignore (TriggerTask parse o n id)).

Section steps.
Context (parse : bytes -> error + (Z -> Z)) (quoted : bytes -> string).

(** One step: a goroutine makes its next call or starts another one, an instance
    starts, begins something or stops, or time passes. *)
Inductive step (w : world) : world -> Prop :=
| step_call n i X (c : call X) k x w' :
    threads w !! n = Some (i, Do c k) -> exec i c w x w' -> step w (set_threads (<[n := (i, k x)]> (threads w')) w')
| step_spawn n i p k :
    threads w !! n = Some (i, Spawn p k) -> step w (set_threads (<[n := (i, k)]> (threads w) ++ [(i, p)]) w)
| step_enter i s p :
    insts w !! i = Some s -> entry parse quoted (opts s) p -> step w (set_threads (threads w ++ [(i, p)]) w)
| step_start i o :
    insts w !! i = None -> instanceID o = i -> step w (set_inst i (new_scheduler o) w)
| step_stop i :
    step w (mkWorld (store w) (clock w) (delete i (insts w)) (beats w) (used w) (filter (fun t => t.1 <> i) (threads w)) (log w))
| step_time t :
    clock w <= t -> step w (mkWorld (store w) t (insts w) (beats w) (used w) (threads w) (log w)).

(** A storage with the tasks of earlier releases, before any instance starts. *)
Definition initial (w : world) : Prop :=
  insts w = ∅ /\ threads w = [] /\ log w = [] /\ 0 < Go.unix (clock w) /\
  forall id (s : TaskState), tasks (store w) !! id = Some s -> ID s = id /\ (LastRunID s = [] \/ LastRunID s ∈ used w).

Definition reachable (w : world) : Prop := exists w0, initial w0 /\ rtc step w0 w.

End steps.

End Scheduler.
