(* ===== verification/SchedulerRun.v ===== *)
(** * Running the scheduler

    The world of the scheduler as functions: what a call returns when the storage
    answers, a program of one goroutine from its start to its end, and scripts of
    steps.  Each is a run of the step relation. *)

From S2P Require Import Prelude GoBytes GoStrings SchedulerStore Scheduler.
From Stdlib Require Import Strings.Byte.

Module SchedulerRun.
Import GoBytes GoStrings SchedulerStore Scheduler.
#[local] Open Scope sched_scope.

(** ** Calls *)

Definition by_priority (a b : pendingTask) : Prop := cfg_Priority (pt_config b) <= cfg_Priority (pt_config a).
#[export] Instance by_priority_dec a b : Decision (by_priority a b).
Proof. unfold by_priority. apply _. Defined.
#[export] Instance by_priority_trans : Transitive by_priority.
Proof. intros a b c. unfold by_priority. lia. Qed.
#[export] Instance by_priority_total : Total by_priority.
Proof. intros a b. unfold by_priority. lia. Qed.

(** A name of which the run is new. *)
Definition draw (i : bytes) (w : world) : option bytes :=
  let x := replicate (size (used w)) x61 in
  if decide (i ++ [runIDSeparator] ++ x ∈ used w) then None else Some x.

Section calls.
(** What the body of a task returns. *)
Context (outcome : bytes -> option error).

Definition on_inst {X} (i : bytes) (f : Scheduler -> option (X * Scheduler)) (w : world) : option (X * world) :=
  s ← insts w !! i; '(x, s') ← f s; Some (x, set_inst i s' w).
Definition at_cell {X} (a : nat) (f : registeredTask -> X * registeredTask) (s : Scheduler) : option (X * Scheduler) :=
  c ← cells s !! a; Some ((f c).1, set_cell a (f c).2 s).
Definition take_sem (q : semaphore) (s : Scheduler) : option Scheduler :=
  if semaphoreUsed s q <? capacity (opts s) q then Some (set_used q (semaphoreUsed s q + 1) s) else None.

Definition run_call {X} (i : bytes) (c : call X) : world -> option (X * world) :=
  match c in call X return world -> option (X * world) with
  | CStore op => fun w => Some (inr (store_op op (store w)).1, did op w)
  | CNow => fun w => Some (clock w, w)
  | CCtxErr => fun w => Some (None, w)
  | CGenerateID => fun w =>
      x ← draw i w;
      Some (x, mkWorld (store w) (clock w) (insts w) (beats w) ({[i ++ [runIDSeparator] ++ x]} ∪ used w) (threads w) (log w))
  | CLive r => on_inst i (fun s => Some (tt, set_live ({[r]} ∪ liveRuns s) s))
  | CDead r => on_inst i (fun s => Some (tt, set_live (liveRuns s ∖ {[r]}) s))
  | CIsLive r => on_inst i (fun s => Some (bool_decide (r ∈ liveRuns s), s))
  | CBody id _ => fun w => Some (outcome id, w)
  | CTasks => on_inst i (fun s => Some (lookup_tasks s, s))
  | CBind id cfg => on_inst i (fun s => Some (tt,
      mkScheduler (opts s) (liveRuns s) (<[id := length (cells s)]> (s_tasks s)) (cells s ++ [mkTask cfg false false])
        (runningCount s) (semaphoreUsed s)))
  | CUnbind id => on_inst i (fun s => Some (tt,
      mkScheduler (opts s) (liveRuns s) (delete id (s_tasks s)) (cells s) (runningCount s) (semaphoreUsed s)))
  | CTryDispatch a => on_inst i (at_cell a (fun c => (negb (dispatched c), mkTask (config c) true (running c))))
  | CRelease a => on_inst i (at_cell a (fun c => (tt, mkTask (config c) false (running c))))
  | CDispatched a => on_inst i (at_cell a (fun c => (dispatched c, c)))
  | CTryRun a => on_inst i (at_cell a (fun c => (negb (running c), mkTask (config c) (dispatched c) true)))
  | CEndRun a => on_inst i (at_cell a (fun c => (tt, mkTask (config c) (dispatched c) false)))
  | CBeat r => fun w => Some (tt, set_beats (<[r := false]> (beats w)) w)
  | CStopped r => fun w => Some (default true (beats w !! r), w)
  | CStop r => fun w => Some (tt, set_beats (if beats w !! r is Some _ then <[r := true]> (beats w) else beats w) w)
  | CCancelled r => fun w => if decide (beats w !! r = Some true) then Some (tt, w) else None
  | CBeatEnd r => fun w => Some (tt, set_beats (delete r (beats w)) w)
  | CWait r => fun w => if decide (beats w !! r = None) then Some (tt, w) else None
  | CIsLeader | CIsReady => fun w => Some (true, w)
  | CLimit | CPerTick => fun w => Some (0, w)
  | CRunning => on_inst i (fun s => Some (runningCount s, s))
  | CAddRunning n => on_inst i (fun s => Some (tt,
      mkScheduler (opts s) (liveRuns s) (s_tasks s) (cells s) (runningCount s + n) (semaphoreUsed s)))
  | CTrySem q => on_inst i (fun s => Some (match take_sem q s with Some s => (true, s) | None => (false, s) end))
  | CAcquire q => on_inst i (fun s => s ← take_sem q s; Some (true, s))
  | CReleaseSem q => on_inst i (fun s => Some (tt, set_used q (semaphoreUsed s q - 1) s))
  | CSort l => fun w => Some (merge_sort by_priority l, w)
  end.

Lemma on_inst_local {X} i (f : Scheduler -> option (X * Scheduler)) (R : Scheduler -> X -> Scheduler -> Prop) w x w' :
  (forall s x s', f s = Some (x, s') -> R s x s') -> on_inst i f w = Some (x, w') -> local i R w x w'.
Proof.
  intros HR. unfold on_inst. destruct (insts w !! i) as [s|] eqn:Hi; [|done]. cbn. destruct (f s) as [[y s']|] eqn:Hf; [|done].
  intros [= <- <-]. exists s, s'. split_and!; [done| |done]. by apply HR.
Qed.

Lemma at_cell_on {X} a (f : registeredTask -> X * registeredTask) s x s' : at_cell a f s = Some (x, s') -> on_cell a f s x s'.
Proof. unfold at_cell, on_cell. destruct (cells s !! a) as [c|]; [|done]. intros [= <- <-]. by exists c. Qed.

Lemma run_call_exec {X} i (c : call X) w x w' : run_call i c w = Some (x, w') -> exec i c w x w'.
Proof.
  destruct c; cbn; try by intros [= <- <-].
  all: try (apply on_inst_local; intros s y s'; try apply at_cell_on; try by intros [= <- <-]).
  - intros [= <- <-]. by left.
  - unfold draw. case_decide; [done|]. intros [= <- <-]. split; [|done]. intros [? _]%elem_of_replicate. done.
  - case_decide; [|done]. by intros [= <- <-].
  - case_decide; [|done]. by intros [= <- <-].
  - unfold take_sem. destruct (_ <? _); by intros [= <- <-].
  - unfold take_sem. destruct (_ <? _) eqn:Hlt; [|done]. intros [= <- <-]. left. split; [done|]. split; [lia|done].
  - intros [= <- <-]. split; [apply merge_sort_Permutation|]. split; [|done]. apply (StronglySorted_merge_sort by_priority).
Qed.

Lemma exec_threads {X} i (c : call X) w x w' : run_call i c w = Some (x, w') -> threads w' = threads w.
Proof.
  assert (forall Y (f : Scheduler -> option (Y * Scheduler)) y, on_inst i f w = Some (y, w') -> threads w' = threads w) as Hin.
  { intros Y f y. unfold on_inst. destruct (insts w !! i) as [s|]; [|done]. cbn. destruct (f s) as [[? ?]|]; [|done]. by intros [= _ <-]. }
  destruct c; cbn; try apply Hin; try by intros [= _ <-].
  - unfold draw. case_decide; [done|]. by intros [= _ <-].
  - case_decide; [|done]. by intros [= _ <-].
  - case_decide; [|done]. by intros [= _ <-].
Qed.

(** ** A program on its own *)

(** A program without interference, with the goroutines that it starts. *)
Fixpoint perform {A} (i : bytes) (p : prog A) : world -> option (A * world * list (prog unit)) :=
  match p with
  | Ret a => fun w => Some (a, w, [])
  | Do c k => fun w => '(x, w') ← run_call i c w; perform i (k x) w'
  | Spawn q k => fun w => '(a, w', started) ← perform i k w; Some (a, w', q :: started)
  end.

Lemma perform_bind {A B} i (p : prog A) (f : A -> prog B) w a w1 b w2 l1 l2 :
  perform i p w = Some (a, w1, l1) -> perform i (f a) w1 = Some (b, w2, l2) -> perform i (bind p f) w = Some (b, w2, l1 ++ l2).
Proof.
  revert B f w b w2 l1 l2. induction p as [A a'|A X c k IH|A q _ k IH]; intros B f w b w2 l1 l2; cbn.
  - by intros [= -> -> <-].
  - destruct (run_call i c w) as [[x w']|]; [|done]. cbn. apply IH.
  - destruct (perform i k w) as [[[a' w'] l']|] eqn:Hk; [|done]. cbn. intros [= -> -> <-] Hf. by rewrite (IH _ _ _ _ _ _ _ _ Hk Hf).
Qed.

(** ** Scripts *)

(** One step of a goroutine of [i], with what [put] makes of its rest. *)
Definition advance_with {A} (i : bytes) (p : prog A) (w : world) : (prog A -> list (bytes * prog unit)) -> option world :=
  match p with
  | Ret _ => fun _ => None
  | Do c k => fun put => '(x, w') ← run_call i c w; Some (set_threads (put (k x)) w')
  | Spawn q k => fun put => Some (set_threads (put k ++ [(i, q)]) w)
  end.
Definition advance (n : nat) (w : world) : option world :=
  '(i, p) ← threads w !! n; advance_with i p w (fun p => <[n := (i, p)]> (threads w)).

Lemma advance_with_inv {A} i (p : prog A) w put w' :
  advance_with i p w put = Some w' ->
  (exists X (c : call X) k x w1, p = Do c k /\ run_call i c w = Some (x, w1) /\ w' = set_threads (put (k x)) w1) \/
  (exists q k, p = Spawn q k /\ w' = set_threads (put k ++ [(i, q)]) w).
Proof.
  destruct p as [A a|A X c k|A q k]; cbn; [done| |].
  - destruct (run_call i c w) as [[x w1]|] eqn:Hc; [|done]. intros [= <-]. left. by exists X, c, k, x, w1.
  - intros [= <-]. right. by exists q, k.
Qed.

(** What happens in a script. *)
Inductive action :=
| Start (o : options)
| Begin (i : bytes) (what : operation)
| Go (n : nat)
| Wait (t : Z)
with operation := ToTick | ToRecover | ToRegister (cfg : TaskConfig) | ToPause (id : bytes) | ToTrigger (id : bytes).

Context (parse : bytes -> error + (Z -> Z)) (quoted : bytes -> string).

(** Heartbeats of a script renew once. *)
Definition operation_prog (o : options) (what : operation) : prog unit :=
  match what with
  | ToTick => tick parse o 1
  | ToRecover => recoverStaleTasks parse o
  | ToRegister cfg => ignore (Register parse quoted o cfg)
  | ToPause id => ignore (PauseTask id)
  | ToTrigger id => ignore (TriggerTask parse o 1 id)
  end.

Definition act (a : action) (w : world) : option world :=
  match a with
  | Start o => match insts w !! instanceID o with Some _ => None | None => Some (set_inst (instanceID o) (new_scheduler o) w) end
  | Begin i what => s ← insts w !! i; Some (set_threads (threads w ++ [(i, operation_prog (opts s) what)]) w)
  | Go n => advance n w
  | Wait t =>
      if clock w <=? t then Some (mkWorld (store w) t (insts w) (beats w) (used w) (threads w) (log w)) else None
  end.
Fixpoint script (l : list action) (w : world) : option world :=
  match l with [] => Some w | a :: l => w' ← act a w; script l w' end.

Lemma advance_sound n w w' : advance n w = Some w' -> step parse quoted w w'.
Proof.
  unfold advance. destruct (threads w !! n) as [[i p]|] eqn:Hn; [|done]. cbn.
  intros [(X & c & k & x & w1 & -> & Hc & ->)|(q & k & -> & ->)]%advance_with_inv.
  - rewrite <-(exec_threads _ _ _ _ _ Hc). eapply step_call; [done|by eapply run_call_exec].
  - by apply step_spawn.
Qed.

Lemma act_step a w w' : act a w = Some w' -> step parse quoted w w'.
Proof.
  destruct a as [o|i what|n|t]; cbn.
  - destruct (insts w !! _) eqn:Hi; [done|]. intros [= <-]. by apply step_start.
  - destruct (insts w !! i) as [s|] eqn:Hi; [|done]. intros [= <-]. eapply step_enter; [done|]. destruct what; constructor.
  - apply advance_sound.
  - destruct (_ <=? _) eqn:Ht; [|done]. intros [= <-]. apply step_time. lia.
Qed.

Lemma script_steps l w w' : script l w = Some w' -> rtc (step parse quoted) w w'.
Proof.
  revert w. induction l as [|a l IH]; intros w; cbn; [by intros [= <-]|]. destruct (act a w) as [w1|] eqn:Ha; [|done].
  cbn. intros Hl. eapply rtc_l; [by eapply act_step|by apply IH].
Qed.

End calls.

End SchedulerRun.
