(* ===== verification/SchedulerLogic.v ===== *)
(** * A logic for the goroutines of the scheduler

    What a goroutine may rely on and must guarantee.  The ghost state remembers
    the states that were ever stored and which runs were claimed or are over; the
    token of a goroutine is its right to a run.  A program is accepted when each
    of its calls respects the protocol, whatever the other goroutines do in
    between. *)

From S2P Require Import Prelude GoBytes GoStrings SchedulerStore Scheduler.
From Stdlib Require Import Strings.Byte.

Module SchedulerLogic.
Import GoBytes GoStrings SchedulerStore Scheduler.
#[local] Open Scope sched_scope.

(** ** Ghost state and tokens *)

(** [foreign] has the runs stored before the first instance started, [claimed]
    the task of every run claimed since. *)
Record ghost := mkGhost {
  seen : list TaskState;
  claimed : gmap bytes bytes;
  foreign : gset bytes;
  ended : gset bytes;
  removed : gset bytes;
  now : Z
}.

Record extends (g g' : ghost) : Prop := {
  ext_seen : forall s, s ∈ seen g -> s ∈ seen g';
  ext_claimed : claimed g ⊆ claimed g';
  ext_foreign : foreign g = foreign g';
  ext_ended : ended g ⊆ ended g';
  ext_removed : removed g ⊆ removed g';
  ext_now : now g <= now g'
}.

#[export] Instance extends_preorder : PreOrder extends.
Proof.
  split; [by split|]. intros a b c [] []. split; [by auto|by etrans|by etrans|by etrans|by etrans|lia].
Qed.

(** Every run in a stored state is known. *)
Record consistent (g : ghost) : Prop := {
  con_runs s : s ∈ seen g -> LastRunID s = [] \/ LastRunID s ∈ foreign g \/ claimed g !! LastRunID s = Some (ID s);
  con_now : 0 < Go.unix (now g)
}.

(** The phases of a run in the goroutine that executes it. *)
Inductive phase := Named | Live | Claimed (id : bytes) | Done.
Abbreviation token := (option (bytes * phase)).

(** The run of [s] is over: nobody executes it, or its lease has passed; or it
    is not a run with a lease of its own. *)
Definition over (g : ghost) (s : TaskState) : Prop :=
  LastRunID s = [] \/ LastRunID s ∈ ended g \/ LastRunID s ∈ foreign g \/ RunLeaseUntil s < Go.unix (now g) \/
  RunLeaseUntil s = 0 \/ RunLeaseID s <> LastRunID s.

(** A replacement keeps the run of [s], or ends a run that is over. *)
Definition keeps (s next : TaskState) : Prop :=
  ID next = ID s /\ LastRunID next = LastRunID s /\ RunStartedAt next = RunStartedAt s /\ RunLeaseUntil next = RunLeaseUntil s /\
  RunLeaseID next = RunLeaseID s.
Definition clears (s next : TaskState) : Prop := ID next = ID s /\ LastRunID next = LastRunID s /\ RunStartedAt next = 0.

(** A one-shot task that has completed stays so for its occurrence. *)
Definition sticky (s next : TaskState) : Prop :=
  Status s = TaskStatusCompleted -> OneShot s = true -> RunAt s <> 0 -> OneShot next = true -> RunAt next = RunAt s ->
  Status next = TaskStatusCompleted.

Definition store_pre {X} (g : ghost) (t : token) (op : sop X) : Prop :=
  match op with
  | SCreateTask s => LastRunID s = []
  | SReplaceTaskIf next expect => exists s, s ∈ seen g /\ FenceOf s = expect /\ sticky s next /\ (keeps s next \/ (clears s next /\ over g s))
  | SClaimRun id claim => t = Some (c_RunID claim, Live) /\ (0 < c_StartedAt claim -> 0 < c_LeaseUntil claim)
  | SRenewRun _ _ until => 0 < until
  | SFinishRun _ runID _ => t = Some (runID, Done)
  | _ => True
  end.

Definition pre {X} (g : ghost) (t : token) (c : call X) : Prop :=
  match c with
  | CStore op => store_pre g t op
  | CLive r => t = Some (r, Named)
  | CDead r => exists ph, t = Some (r, ph)
  | CBody id r => t = Some (r, Claimed id)
  | _ => True
  end.

Definition store_post {X} (g : ghost) (t : token) (op : sop X) : error + X -> token -> Prop :=
  match op in sop X return error + X -> token -> Prop with
  | SGetTask id => fun x t' => t' = t /\ forall s, x = inr (Some s) -> s ∈ seen g /\ ID s = id
  | STasks | SDueTasks _ => fun x t' => t' = t /\ forall l s, x = inr l -> s ∈ l -> s ∈ seen g
  | SClaimRun id claim => fun x t' =>
      t' = Some (c_RunID claim, match x with inr (inr true) => Claimed id | _ => Done end)
  | _ => fun _ t' => t' = t
  end.

Definition post {X} (i : bytes) (g : ghost) (t : token) (c : call X) : X -> token -> Prop :=
  match c in call X return X -> token -> Prop with
  | CStore op => store_post g t op
  | CNow => fun x t' => t' = t /\ x <= now g /\ 0 < Go.unix x
  | CGenerateID => fun x t' => t' = match t with None => Some (i ++ [runIDSeparator] ++ x, Named) | _ => t end
  | CLive r => fun _ t' => t' = Some (r, Live)
  | CDead r => fun _ t' => t' = None
  | CIsLive r => fun x t' =>
      t' = t /\ (x = false -> runOwner r = i -> r ∈ foreign g \/ is_Some (claimed g !! r) -> r ∈ ended g \/ r ∈ foreign g)
  | CBody _ r => fun _ t' => t' = Some (r, Done)
  | _ => fun _ t' => t' = t
  end.

(** ** Accepted programs *)

Section wp.
Context (i : bytes).

Fixpoint wp {A} (p : prog A) : ghost -> token -> (A -> ghost -> token -> Prop) -> Prop :=
  match p with
  | Ret a => fun g t Q => forall g', extends g g' -> consistent g' -> Q a g' t
  | Do c k => fun g t Q =>
      pre g t c /\ forall x g' t', extends g g' -> consistent g' -> post i g' t c x t' -> wp (k x) g' t' Q
  | Spawn q k => fun g t Q => wp q g None (fun _ _ _ => True) /\ wp k g t Q
  end.

Lemma over_extends g g' s : extends g g' -> over g s -> over g' s.
Proof.
  intros [_ _ Hf He _ Hn] Ho. unfold over in *. rewrite <-Hf. assert (Go.unix (now g) <= Go.unix (now g')).
  { unfold Go.unix. pose proof (Z.div_le_mono _ _ Go.nanos_per_sec ltac:(done) Hn). lia. }
  destruct Ho as [?|[?|[?|[?|[?|?]]]]]; [by left|right; left; set_solver|by right; right; left|right; right; right; left; lia| |];
    right; right; right; right; [by left|by right].
Qed.

Lemma pre_extends {X} g g' t (c : call X) : extends g g' -> pre g t c -> pre g' t c.
Proof.
  intros He. destruct c as [Y op| | | | | | | | | | | | | | | | | | | | | | | | | | | | | | |]; cbn; try done.
  destruct op; cbn; try done. intros (s0 & Hs & Hf & Hst & Hk). exists s0. split; [by apply He|]. split; [done|]. split; [done|].
  destruct Hk as [?|[? ?]]; [by left|right]. split; [done|by eapply over_extends].
Qed.

Lemma wp_extends {A} (p : prog A) g g' t Q : extends g g' -> wp p g t Q -> wp p g' t Q.
Proof.
  revert g g' t Q. induction p as [A a|A X c k IH|A q IHq k IHk]; intros g g' t Q He; cbn.
  - intros HQ g2 He2. apply HQ. by etrans.
  - intros [Hp Hk]. split; [by eapply pre_extends|]. intros x g2 t' He2. apply Hk. by etrans.
  - intros [Hq Hk]. split; [by eapply IHq|by eapply IHk].
Qed.

Lemma wp_weaken {A} (p : prog A) g t (Q Q' : A -> ghost -> token -> Prop) :
  (forall a g' t', extends g g' -> consistent g' -> Q a g' t' -> Q' a g' t') -> wp p g t Q -> wp p g t Q'.
Proof.
  revert g t Q Q'. induction p as [A a|A X c k IH|A q IHq k IHk]; intros g t Q Q' HQ; cbn.
  - intros H g' He Hc. apply HQ; [done|done|]. by apply H.
  - intros [Hp Hk]. split; [done|]. intros x g' t' He Hc Hx. eapply IH; [|by eapply Hk]. intros a g2 t2 He2. apply HQ. by etrans.
  - intros [Hq Hk]. split; [done|by eapply IHk].
Qed.

Lemma wp_then {A B} (p : prog A) (f : A -> prog B) g t Q :
  wp p g t (fun a g' t' => wp (f a) g' t' Q) -> consistent g -> wp (bind p f) g t Q.
Proof.
  revert B f g t Q. induction p as [A a|A X c k IH|A q IHq k IHk]; intros B f g t Q; cbn.
  - intros Hf Hc. by apply Hf.
  - intros [Hp Hk] Hc. split; [done|]. intros x g' t' He Hc' Hx. apply IH; [by eapply Hk|done].
  - intros [Hq Hk] Hc. split; [done|by apply IHk].
Qed.

End wp.

(** Steps of a proof: the next call, with the ghost state of then. *)
Ltac wp_next := let x := fresh "x" in let g' := fresh "g" in let t' := fresh "t" in
  let He := fresh "He" in let Hg := fresh "Hg" in let Hx := fresh "Hx" in intros x g' t' He Hg Hx; cbn in Hx;
  first [subst t'|destruct Hx as [-> Hx]|idtac].
Ltac wp_do := split; [try exact I|wp_next].
Ltac wp_ret := let g' := fresh "g" in let He := fresh "He" in let Hg := fresh "Hg" in intros g' He Hg.

(** ** The programs respect the protocol *)

Section programs.
Context (i : bytes) (parse : bytes -> error + (Z -> Z)) (quoted : bytes -> string) (o : options).
Context (Ho : instanceID o = i).

(** The token is the same at the end. *)
Abbreviation same t := (fun _ (_ : ghost) (t' : token) => t' = t).

Lemma wp_same {A} (p : prog A) g t (Q : A -> ghost -> token -> Prop) :
  wp i p g t (same t) -> (forall a g', extends g g' -> consistent g' -> Q a g' t) -> wp i p g t Q.
Proof. intros Hp HQ. eapply wp_weaken; [|exact Hp]. intros a g' t' He Hg ->. by apply HQ. Qed.

Lemma leaseSeconds_nonneg : 0 <= leaseSeconds (runLease o).
Proof.
  unfold leaseSeconds, runLease, minRunLease, second. pose proof (Z.quot_pos (Z.max (staleTaskTimeout o) (5 * 1000000000)) 1000000000).
  case_match; lia.
Qed.

Lemma wp_renew g t id r sec : 0 <= sec -> wp i (renewRunLease id r sec) g t (same t).
Proof.
  intros Hs. wp_do. destruct Hx as [_ Hx]. split; [cbn; lia|wp_next]. by wp_ret.
Qed.

Lemma wp_confirm more g t id r sec base interval : 0 <= sec -> wp i (confirmRunOwnership more id r sec base interval) g t (same t).
Proof.
  intros Hs. revert g base. induction more as [|more IH]; intros g base; cbn [confirmRunOwnership]; wp_do;
    (destruct (_ <? _); [by wp_ret|]); [by wp_ret|].
  apply wp_then; [|done]. apply wp_same; [by apply wp_renew|]. intros [issued [err|[|]]] ? ? ?; cbv beta iota; [by wp_ret| |by wp_ret].
  destruct more; [|apply IH]. wp_do. destruct (_ <=? _); [by wp_ret|apply IH].
Qed.

Lemma wp_heartbeat n g id r sec : 0 <= sec -> wp i (heartbeat n id r sec) g None (fun _ _ _ => True).
Proof.
  intros Hs. revert g. assert (forall g, wp i (call! _ := CBeatEnd r in Ret tt) g None (fun _ _ _ => True)) as Hend.
  { intros g. wp_do. by wp_ret. }
  induction n as [|n IH]; intros g; cbn [heartbeat]; wp_do; [apply Hend|]. destruct x; [apply Hend|].
  apply wp_then; [|done]. apply wp_same; [by apply wp_renew|]. intros [issued renewed] ? ? ?; cbv beta iota.
  wp_do. destruct x; [apply Hend|]. destruct renewed as [err|[|]]; [apply IH|apply IH|apply Hend].
Qed.

Lemma wp_record s r start err g :
  wp i (record_result parse s r start err) g (Some (r, Done)) (same (Some (r, Done))).
Proof.
  unfold record_result. wp_do. set (finish := call! fresh := CStore (SGetTask (ID s)) in _).
  assert (forall g, wp i finish g (Some (r, Done)) (same (Some (r, Done)))) as Hf.
  { intros g1. unfold finish. wp_do. destruct x0 as [?|[f|]]; [by wp_ret| |by wp_ret].
    destruct (negb _); [by wp_ret|]. split; [done|wp_next]. by wp_ret. }
  destruct (DisableHistory s); [apply Hf|]. wp_do. wp_do. apply Hf.
Qed.

Lemma wp_claim_and_run n s r start g :
  0 < Go.unix start -> wp i (claim_and_run parse o n s r start) g (Some (r, Live)) (fun _ _ t' => exists ph, t' = Some (r, ph)).
Proof.
  intros Hs. unfold claim_and_run. pose proof leaseSeconds_nonneg as Hl. split; [cbn; split; [done|lia]|wp_next].
  destruct x as [err|[err|[|]]]; [wp_ret; by eexists| wp_ret; by eexists| |wp_ret; by eexists].
  apply wp_then; [|done]. apply wp_same; [by apply wp_confirm|]. intros [base [|]] ? ? ?; cbn [negb]; [|wp_ret; by eexists].
  wp_do. split; [by apply wp_heartbeat|]. split; [done|wp_next].
  apply wp_then; [|done]. apply wp_same; [apply wp_record|]. intros _ ? ? ?. wp_do. wp_do. wp_ret. by eexists.
Qed.

Lemma wp_run_task n a cfg s g : wp i (executeTask parse o n a cfg s) g None (same None).
Proof using Ho.
  unfold executeTask. wp_do. destruct (negb x); [by wp_ret|].
  apply wp_then; [|done]. apply wp_same; [|intros _ ? ? ?; wp_do; by wp_ret].
  destruct (negb (matches cfg s)); [by wp_ret|]. wp_do. rewrite Ho. wp_do. destruct Hx as [_ Hpos].
  split; [done|wp_next]. apply wp_then; [|done]. eapply wp_weaken; [|by apply wp_claim_and_run].
  intros _ ? ? ? ? [ph ->]. split; [by eexists|wp_next]. by wp_ret.
Qed.

(** A run and a step that no protocol concerns. *)
Lemma wp_run_then n a cfg s g {X} (c : call X) :
  (forall g, pre g None c) -> (forall g x t', post i g None c x t' -> t' = None) -> consistent g ->
  wp i (run! _ := executeTask parse o n a cfg s in call! _ := c in Ret tt) g None (same None).
Proof using Ho.
  intros Hp Hq Hg. apply wp_then; [|done]. apply wp_same; [apply wp_run_task|]. intros _ g1 ? ?. split; [done|].
  intros x g2 t2 ? ? ->%Hq. by wp_ret.
Qed.

Ltac wp_run := apply wp_run_then; [done|by intros ? ? ? ?|done].

Lemma wp_semaphore n a cfg s g : wp i (runTaskWithSemaphore parse o n a cfg s) g None (same None).
Proof using Ho.
  unfold runTaskWithSemaphore. assert (forall q g, wp i (call! got := CAcquire q in if got : bool then
    run! _ := executeTask parse o n a cfg s in call! _ := CReleaseSem q in Ret tt else Ret tt) g None (same None)) as Ha.
  { intros q g1. wp_do. case_match; [wp_run|by wp_ret]. }
  assert (forall q g rest, (forall g, consistent g -> wp i rest g None (same None)) -> wp i (call! got := CTrySem q in if got : bool then
    run! _ := executeTask parse o n a cfg s in call! _ := CReleaseSem q in Ret tt else rest) g None (same None)) as Ht.
  { intros q g1 rest Hr. wp_do. case_match; [wp_run|by apply Hr]. }
  assert (forall g, wp i (call! _ := CAddRunning 1 in run! _ := executeTask parse o n a cfg s in call! _ := CAddRunning (-1) in Ret tt)
    g None (same None)) as Hc by (intros; wp_do; wp_run).
  cbv zeta. set (shared := if cfg_Priority cfg =? TaskPriorityLow then _ else _).
  assert (forall g, wp i shared g None (same None)) as Hs.
  { intros g1. unfold shared. case_match; [apply Ht; intros; by wp_ret|apply Ha]. }
  destruct (_ =? TaskPriorityCritical); [apply wp_run_task|]. destruct (dynamic o); [apply Hc|].
  destruct (_ <=? 0); [apply Hc|]. destruct (_ && _); [apply Ht; intros; apply Hs|apply Hs].
Qed.

Lemma wp_dispatched a p g : consistent g -> wp i p g None (same None) -> wp i (dispatched_run a p) g None (fun _ _ _ => True).
Proof.
  intros Hg Hp. unfold dispatched_run. apply wp_then; [|done]. apply wp_same; [done|]. intros _ ? ? ?. wp_do. by wp_ret.
Qed.
Lemma wp_counted n pt g : consistent g -> wp i (counted_run parse o n pt) g None (fun _ _ _ => True).
Proof using Ho. intros Hg. apply wp_dispatched; [done|]. wp_run. Qed.

(** Dispatch starts goroutines that hold no token. *)
Ltac wp_dispatch IH :=
  wp_do; case_match; [apply IH|]; repeat case_match;
    repeat first [by wp_ret|apply IH|apply wp_run_task|apply wp_semaphore|by apply wp_counted|apply wp_dispatched; [done|]|split; [exact I|wp_next]|split].

Lemma wp_static n l g : wp i (dispatchStatic parse o n l) g None (same None).
Proof using Ho. revert g. induction l as [|pt l IH]; intros g; cbn [dispatchStatic]; [by wp_ret|]. wp_dispatch IH. Qed.
Lemma wp_unlimited n cap d l g : wp i (dispatchUnlimited parse o n cap d l) g None (same None).
Proof using Ho. revert g d. induction l as [|pt l IH]; intros g d; cbn [dispatchUnlimited]; [by wp_ret|]. wp_dispatch IH. Qed.
Lemma wp_all n l g : wp i (dispatch_all parse o n l) g None (same None).
Proof using Ho. revert g. induction l as [|pt l IH]; intros g; cbn [dispatch_all]; [by wp_ret|]. wp_dispatch IH. Qed.
Lemma wp_limited n av res l g : wp i (dispatch_limited parse o n av res l) g None (same None).
Proof using Ho. revert g av res. induction l as [|pt l IH]; intros g av res; cbn [dispatch_limited]; [by wp_ret|]. wp_dispatch IH. Qed.

Lemma wp_dispatchPending n l g : wp i (dispatchPending parse o n l) g None (same None).
Proof using Ho.
  unfold dispatchPending, dispatchDynamic. case_match; [|case_match; [wp_do; apply wp_unlimited|apply wp_static]].
  wp_do. case_match; [apply wp_all|]. wp_do. apply wp_limited.
Qed.

(** ** Replacements *)

Lemma wp_applySkip now id due g : wp i (applySkip parse now id due) g None (same None).
Proof.
  unfold applySkip. wp_do. destruct x as [?|[f|]]; [by wp_ret| |by wp_ret]. destruct (negb (bool_decide _)) eqn:Hd.
  { rewrite orb_true_r. by wp_ret. }
  rewrite orb_false_r. case_match; [by wp_ret|]. apply negb_false_iff, bool_decide_eq_true in Hd.
  split; [|wp_next; by wp_ret]. destruct (Hx f eq_refl) as [Hf _]. exists f. split; [done|]. split; [done|].
  split; [unfold sticky; cbn; case_match; cbn; congruence|left; by case_match].
Qed.

Lemma wp_collect_pending now reg l pending g : wp i (collect_pending parse now reg l pending) g None (same None).
Proof.
  revert g pending. induction l as [|s l IH]; intros g pending; cbn [collect_pending]; [by wp_ret|].
  destruct (reg !! _) as [[a cfg]|]; [|apply IH]. wp_do. destruct (_ || _); [apply IH|]. case_match; [|apply IH].
  apply wp_then; [|done]. apply wp_same; [apply wp_applySkip|]. intros _ ? ? ?. apply IH.
Qed.

Lemma wp_tick n g : wp i (tick parse o n) g None (same None).
Proof using Ho.
  unfold tick. wp_do. case_match; [by wp_ret|]. wp_do. case_match; [by wp_ret|]. wp_do. wp_do. wp_do. case_match; [by wp_ret|].
  apply wp_then; [|done]. apply wp_same; [apply wp_collect_pending|]. intros pending ? ? ?. wp_do. apply wp_dispatchPending.
Qed.

Lemma wp_cleanup g : wp i (cleanup o) g None (same None).
Proof. unfold cleanup. wp_do. wp_do. by wp_ret. Qed.

(** ** Recovery *)

Lemma unix_mono a b : a <= b -> Go.unix a <= Go.unix b.
Proof. intros H. unfold Go.unix. pose proof (Z.div_le_mono _ _ Go.nanos_per_sec ltac:(done) H). lia. Qed.

Lemma wp_runAbandoned s now leaseSec g :
  s ∈ seen g -> now <= Go.unix (SchedulerLogic.now g) ->
  wp i (runAbandoned o s now leaseSec) g None (fun a g' t' => t' = None /\ (a = true -> over g' s)).
Proof using Ho.
  intros Hs Hn. unfold runAbandoned. case_match; [by wp_ret|].
  destruct (negb (bool_decide (LastRunID s = [])) && bool_decide (runOwner (LastRunID s) = instanceID o)) eqn:Hown.
  { apply andb_true_iff in Hown as [Hne%negb_true_iff%bool_decide_eq_false Hown%bool_decide_eq_true]. wp_do. wp_ret. split; [done|].
    intros ->%negb_true_iff. eapply over_extends; [done|]. assert (s ∈ seen g0) as Hs0 by by apply He.
    destruct (Hx eq_refl) as [?|?]; [congruence| |by right; left|by right; right; left].
    destruct (con_runs _ Hg s Hs0) as [?|[?|Hc]]; [done|by left|right; by eexists]. }
  case_match eqn:Hl.
  { wp_ret. split; [done|]. intros Hlt%Z.ltb_lt. do 3 right. left. pose proof (unix_mono _ _ (ext_now _ _ He)). lia. }
  wp_ret. split; [done|]. intros _. destruct (decide (LastRunID s = [])); [by left|]. do 4 right.
  apply andb_false_iff in Hl as [Hl|Hl%bool_decide_eq_false]; [|by right].
  apply andb_false_iff in Hl as [Hl%negb_false_iff%Z.eqb_eq|Hl%negb_false_iff%bool_decide_eq_true]; [by left|right; congruence].
Qed.

Lemma wp_resetStale s now g :
  s ∈ seen g -> over g s -> wp i (resetStaleTask parse (ID s) (FenceOf s) now) g None (same None).
Proof.
  intros Hs Hover. unfold resetStaleTask. wp_do. destruct x as [?|[f|]]; [by wp_ret| |by wp_ret].
  case_match eqn:Hd; [by wp_ret|]. apply negb_false_iff, bool_decide_eq_true in Hd. split; [|wp_next; by wp_ret].
  destruct (Hx f eq_refl) as [Hf Hid]. exists s. split; [by apply He|]. split; [done|].
  split; [intros Hst _ _ _ _; assert (Status f = TaskStatusCompleted) by (injection Hd; congruence); cbn; rewrite bool_decide_false; congruence|].
  right. split; [|by eapply over_extends].
  assert (LastRunID f = LastRunID s) by (by injection Hd). unfold clears. cbn. by repeat case_match.
Qed.

Lemma wp_collect_stale now leaseSec l stale g :
  (forall s, s ∈ l -> s ∈ seen g) -> now <= Go.unix (SchedulerLogic.now g) ->
  (forall s, s ∈ stale -> s ∈ seen g /\ over g s) -> consistent g ->
  wp i (collect_stale o now leaseSec l stale) g None (fun r g' t' => t' = None /\ forall s, s ∈ r -> s ∈ seen g' /\ over g' s).
Proof using Ho.
  revert g stale. induction l as [|s l IH]; intros g stale Hl Hn Hst Hg; cbn [collect_stale].
  { wp_ret. split; [done|]. intros s [? ?]%Hst. split; [by apply He|by eapply over_extends]. }
  apply wp_then; [|done]. eapply wp_weaken; [|apply wp_runAbandoned; [apply Hl; by left|done]].
  intros a g' t' He Hg' [-> Ha]. pose proof (unix_mono _ _ (ext_now _ _ He)). apply IH; [|lia| |done].
  { intros s' Hs'. apply He, Hl. by right. }
  assert (forall s, s ∈ stale -> s ∈ seen g' /\ over g' s) as Hst' by (intros s' [? ?]%Hst; split; [by apply He|by eapply over_extends]).
  destruct a; [|done]. intros s' [Hs'| ->%list_elem_of_singleton]%elem_of_app; [by apply Hst'|].
  split; [apply He, Hl; by left|by apply Ha].
Qed.

Lemma wp_reset_all now stale g :
  (forall s, s ∈ stale -> s ∈ seen g /\ over g s) -> consistent g -> wp i (reset_all parse now stale) g None (same None).
Proof.
  revert g. induction stale as [|s stale IH]; intros g Hst Hg; cbn [reset_all]; [by wp_ret|].
  apply wp_then; [|done]. apply wp_same; [apply wp_resetStale; apply Hst; by left|]. intros _ g' He Hg'. apply IH; [|done].
  intros s' Hs'. destruct (Hst s') as [? ?]; [by right|]. split; [by apply He|by eapply over_extends].
Qed.

Lemma wp_recover g : wp i (recoverStaleTasks parse o) g None (same None).
Proof using Ho.
  unfold recoverStaleTasks. wp_do. destruct Hx as [Hle _]. wp_do. destruct x0 as [?|states]; [by wp_ret|].
  apply wp_then; [|done]. eapply wp_weaken; [|apply wp_collect_stale; [by intros; eapply Hx|..|done]].
  - intros r g' t' ? ? [-> Hr]. by apply wp_reset_all.
  - apply unix_mono. pose proof (ext_now _ _ He0). lia.
  - by intros ? ?%elem_of_nil.
Qed.

(** ** Management *)

Lemma wp_updateTask id mutate g :
  (forall s g, consistent g -> wp i (mutate s) g None (fun r _ t' => t' = None /\ forall next, r = inr next -> sticky s next /\ keeps s next)) ->
  wp i (updateTask id mutate) g None (same None).
Proof.
  intros Hm. unfold updateTask. generalize MaxUpdateAttempts. intros n. revert g. induction n as [|n IH]; intros g; cbn [update_loop]; [by wp_ret|].
  wp_do. destruct x as [?|[f|]]; [by wp_ret| |by wp_ret]. apply wp_then; [|done]. eapply wp_weaken; [|by apply Hm].
  intros [?|next] g' t' Hex Hg' [-> Hk]; [by wp_ret|]. split; [|wp_next].
  { destruct (Hx f eq_refl) as [Hf _]. exists f. split; [by apply Hex|]. split; [done|]. destruct (Hk next eq_refl). split; [done|by left]. }
  case_match; [by wp_ret|]. case_match; [by wp_ret|]. wp_do. case_match; [by wp_ret|apply IH].
Qed.

Lemma wp_suspend st s g : consistent g ->
  wp i (suspend st s) g None (fun r _ t' => t' = None /\ forall next, r = inr next -> sticky s next /\ keeps s next).
Proof.
  intros Hg. unfold suspend. case_bool_decide; [by wp_ret|]. case_match; [by wp_ret|]. wp_do. wp_ret. split; [done|]. intros ? [= <-].
  split; [by intros ?|done].
Qed.
Lemma wp_activate st err s g : consistent g ->
  wp i (activate parse st err s) g None (fun r _ t' => t' = None /\ forall next, r = inr next -> sticky s next /\ keeps s next).
Proof.
  intros Hg. unfold activate. case_bool_decide; [by wp_ret|]. case_match; [by wp_ret|]. wp_do. wp_ret. split; [done|]. intros ? [= <-].
  split; [by intros ?|by repeat case_match].
Qed.

Lemma wp_skip id g : wp i (SkipNextRunOf id) g None (same None).
Proof. apply wp_updateTask. intros s g' Hg. wp_do. wp_ret. split; [done|]. intros ? [= <-]. split; [by intros ?|done]. Qed.

Lemma wp_unregister id g : wp i (Unregister id) g None (same None).
Proof.
  unfold Unregister. wp_do. case_match; [wp_do|wp_do; repeat case_match; try by wp_ret]; wp_do; case_match; by wp_ret.
Qed.

Lemma wp_trigger n id g : wp i (TriggerTask parse o n id) g None (same None).
Proof using Ho.
  unfold TriggerTask. wp_do. case_match; [by wp_ret|]. wp_do. case_match; [|by wp_ret]. case_match. wp_do.
  repeat (case_match; try by wp_ret). wp_do. case_match; [by wp_ret|]. split; [|by wp_ret]. apply wp_dispatched; [done|apply wp_semaphore].
Qed.

Lemma merge_sticky cfg b next now (base s : TaskState) : OneShot base = b -> sticky s (merge_state o cfg b next now base s).
Proof.
  intros Hb Hs Hone Hne Hn Hr. cbn in *. rewrite (bool_decide_true _ Hs), <-Hb, Hn, Hone. unfold completedFor. rewrite Hr.
  by rewrite (proj2 (Z.eqb_neq _ _) Hne), Z.eqb_refl.
Qed.

Lemma wp_register_loop n base merge g :
  LastRunID base = [] -> (forall s : TaskState, ID s = ID base -> sticky s (merge s) /\ keeps s (merge s)) ->
  wp i (register_loop n base merge) g None (same None).
Proof.
  intros Hb Hm. revert g. induction n as [|n IH]; intros g; cbn [register_loop]; [by wp_ret|].
  wp_do. destruct x as [?|[f|]]; [by wp_ret| |].
  - destruct (Hx f eq_refl) as [Hf Hid]. split; [exists f; destruct (Hm f Hid); split_and!; [done|done|done|by left]|wp_next].
    case_match; [by wp_ret|]. case_match; [by wp_ret|]. wp_do. case_match; [by wp_ret|apply IH].
  - split; [done|wp_next]. case_match; [by wp_ret|]. case_match; [by wp_ret|]. wp_do. case_match; [by wp_ret|apply IH].
Qed.

Lemma wp_register cfg g : wp i (Register parse quoted o cfg) g None (same None).
Proof.
  unfold Register. repeat (case_match; [by wp_ret|]). cbv zeta. set (cfg' := if _ =? _ then _ else _).
  assert (forall (b : bool) f g, wp i (call! now := CNow in
    let base := base_state cfg' b (f now) now in
    run! failed := register_loop MaxUpdateAttempts base (merge_state o cfg' b (f now) now base) in
    match failed with Some err => Ret (Some err) | None => call! _ := CBind (cfg_ID cfg') cfg' in Ret None end) g None (same None)) as Hreg.
  { intros b f g1. wp_do. apply wp_then; [|done]. apply wp_same; [apply wp_register_loop; [done|]|].
    - intros s Hs. split; [|by split]. by apply merge_sticky.
    - intros [?|] ? ? ?; [by wp_ret|]. wp_do. by wp_ret. }
  repeat case_match; first [by wp_ret|apply Hreg].
Qed.

Theorem wp_entry p g : consistent g -> entry parse quoted o p -> wp i p g None (fun _ _ _ => True).
Proof using Ho.
  intros Hg Hp. assert (forall A (q : prog A), wp i q g None (same None) -> wp i (ignore q) g None (fun _ _ _ => True)) as Hi.
  { intros A q Hq. apply wp_then; [|done]. apply wp_same; [done|]. intros. by wp_ret. }
  assert (forall q : prog unit, wp i q g None (same None) -> wp i q g None (fun _ _ _ => True)) as Hj by (intros; by apply wp_same).
  destruct Hp; first [apply Hi|apply Hj]; eauto using wp_tick, wp_recover, wp_cleanup, wp_register, wp_unregister, wp_skip, wp_trigger;
    apply wp_updateTask; intros; by first [apply wp_suspend|apply wp_activate].
Qed.

End programs.

End SchedulerLogic.
