(* ===== verification/SchedulerTheorems.v ===== *)
(** * At most one live run of a task

    The worlds of the scheduler keep the protocol of its goroutines, so two runs of
    a task are only in their bodies at once when a lease was let pass or the task
    was deleted in between. *)

From S2P Require Import Prelude GoBytes GoStrings SchedulerStore Scheduler SchedulerRun SchedulerLogic.
From Stdlib Require Import Strings.Byte.

Module SchedulerTheorems.
Import GoBytes GoStrings SchedulerStore Scheduler SchedulerRun SchedulerLogic.
#[local] Open Scope sched_scope.

(** ** What a token stands for *)

Definition live (w : world) (i r : bytes) : Prop := exists s, insts w !! i = Some s /\ r ∈ liveRuns s.

(** The stored state has the run, under the lease last written for it. *)
Definition owns (w : world) (r id : bytes) : Prop := exists s : TaskState,
  tasks (store w) !! id = Some s /\ LastRunID s = r /\ RunStartedAt s <> 0 /\ RunLeaseID s = r /\ RunLeaseUntil s <> 0 /\
  last_lease r (log w) = Some (RunLeaseUntil s).

Definition lapsed (w : world) (r : bytes) : Prop := exists until, last_lease r (log w) = Some until /\ until < Go.unix (clock w).

(** The run was taken away after its lease. *)
Definition lost (w : world) (r id : bytes) : Prop :=
  lapsed w r /\ forall s : TaskState, tasks (store w) !! id = Some s -> LastRunID s = r -> RunStartedAt s = 0.

Definition holds (g : ghost) (w : world) (r id : bytes) : Prop := id ∈ removed g \/ owns w r id \/ lost w r id.

Definition phase_ok (g : ghost) (w : world) (i r : bytes) (ph : phase) : Prop :=
  match ph with
  | Named => claimed g !! r = None /\ r ∉ ended g
  | Live => claimed g !! r = None /\ live w i r /\ r ∉ ended g
  | Claimed id => claimed g !! r = Some id /\ live w i r /\ r ∉ ended g /\ holds g w r id
  | Done => True
  end.
Definition token_ok (g : ghost) (w : world) (i : bytes) (t : token) : Prop :=
  match t with
  | None => True
  | Some (r, ph) => r <> [] /\ r ∈ used w /\ r ∉ foreign g /\ runOwner r = i /\ phase_ok g w i r ph
  end.
Definition run_of (t : token) : option bytes := fst <$> t.

(** ** The ghost state of a world *)

Record ghost_ok (g : ghost) (w : world) : Prop := {
  go_con : consistent g;
  go_now : now g = clock w;
  go_keys id (s : TaskState) : tasks (store w) !! id = Some s -> ID s = id /\ s ∈ seen g;
  go_removed id : id ∈ removed g -> EvDelete id ∈ log w;
  go_fun (s1 s2 : TaskState) :
    s1 ∈ seen g -> s2 ∈ seen g -> ID s1 = ID s2 -> ID s1 ∉ removed g -> Revision s1 = Revision s2 -> s1 = s2;
  go_cur (s : TaskState) :
    s ∈ seen g -> ID s ∉ removed g -> exists cur : TaskState, tasks (store w) !! ID s = Some cur /\ Revision s <= Revision cur;
  go_foreign r : r ∈ foreign g -> r ∈ used w;
  go_claimed r id : claimed g !! r = Some id -> r ∈ used w;
  go_ended r : r ∈ ended g -> r ∈ used w;
  go_live r id : claimed g !! r = Some id -> r ∈ ended g \/ live w (runOwner r) r
}.

(** A token of another run than [own]. *)
Definition apart (own : option bytes) (u : token) : Prop := forall r, own = Some r -> run_of u <> Some r.

(** A step that keeps what the tokens stand for, those of the run [own] apart. *)
Record safe (own : option bytes) (g : ghost) (w : world) (g' : ghost) (w' : world) : Prop := {
  safe_extends : extends g g';
  safe_ghost : ghost_ok g' w';
  safe_token j u : apart own u -> token_ok g w j u -> token_ok g' w' j u
}.

Lemma holds_other g w g' w' r id :
  removed g ⊆ removed g' -> tasks (store w') !! id = tasks (store w) !! id -> last_lease r (log w') = last_lease r (log w) ->
  clock w' = clock w -> holds g w r id -> holds g' w' r id.
Proof.
  unfold holds, owns, lost, lapsed. intros Hr -> -> ->. naive_solver.
Qed.

(** A token is kept when its run is still held. *)
Lemma token_frame g w g' w' j u :
  used w ⊆ used w' -> foreign g' = foreign g ->
  (forall r ph, u = Some (r, ph) -> claimed g' !! r = claimed g !! r /\ (r ∈ ended g' -> r ∈ ended g) /\ (live w j r -> live w' j r)) ->
  (forall r id, u = Some (r, Claimed id) -> r <> [] -> r ∉ foreign g -> r ∉ ended g -> claimed g !! r = Some id ->
    holds g w r id -> holds g' w' r id) ->
  token_ok g w j u -> token_ok g' w' j u.
Proof.
  intros Hu Hf Hsame Hh. destruct u as [[r ph]|]; [|done]. intros (Hne & Hused & Hnf & Hown & Hph).
  destruct (Hsame r ph eq_refl) as (Hc & He & Hl). split; [done|]. split; [by apply Hu|]. rewrite Hf. split; [done|]. split; [done|].
  destruct ph; cbn in *; rewrite ?Hc; [by intuition|by intuition| |done].
  destruct Hph as (? & ? & ? & ?). split_and!; [done|by apply Hl|by auto|by apply (Hh r id)].
Qed.

(** ** The storage *)

(** A call of the storage that leaves the tasks. *)
Lemma safe_idle {X} (op : sop X) g w :
  tasks (store_op op (store w)).2 = tasks (store w) -> events op (store_op op (store w)).1 = [] ->
  ghost_ok g w -> safe None g w g (did op w).
Proof.
  intros Ht Hev Hg. split; [done| |].
  - destruct Hg. split; cbn; rewrite ?Ht, ?Hev; try done.
  - intros j u _. apply token_frame; [done|done|done|]. intros r id _ _ _ _ _. apply holds_other; cbn; rewrite ?Ht, ?Hev; done.
Qed.

Definition saw (s : TaskState) (g : ghost) : ghost := mkGhost (s :: seen g) (claimed g) (foreign g) (ended g) (removed g) (now g).
Definition claims (r id : bytes) (g : ghost) : ghost :=
  mkGhost (seen g) (<[r := id]> (claimed g)) (foreign g) (ended g) (removed g) (now g).

Lemma extends_saw s g : extends g (saw s g).
Proof. split; cbn; try done. intros. by right. Qed.
Lemma extends_claims r id g : claimed g !! r = None -> extends g (claims r id g).
Proof. intros H. split; cbn; try done. by apply insert_subseteq. Qed.

(** A new revision of a task, or a task the storage does not have. *)
Lemma ghost_put {X} (op : sop X) g w (s : TaskState) :
  tasks (store_op op (store w)).2 = <[ID s := s]> (tasks (store w)) ->
  match tasks (store w) !! ID s with Some cur => Revision s = Revision cur + 1 | None => True end ->
  LastRunID s = [] \/ LastRunID s ∈ foreign g \/ claimed g !! LastRunID s = Some (ID s) ->
  ghost_ok g w -> ghost_ok (saw s g) (did op w).
Proof.
  intros Ht Hrev Hrun [[Hcon Hnow] ? Hkeys Hrem Hfun Hcur Hfor Hcl Hen Hlive].
  assert (forall s0 : TaskState, s0 ∈ seen g -> ID s0 = ID s -> ID s ∉ removed g -> Revision s0 < Revision s) as Hnew.
  { intros s0 Hs0 Hid Hnr. rewrite <-Hid in Hnr. destruct (Hcur s0 Hs0 Hnr) as (cur & Hc & Hle). rewrite Hid in Hc. rewrite Hc in Hrev. lia. }
  split; cbn [did saw seen claimed foreign ended removed now store clock used log]; try done.
  - split; [|done]. intros s0 [->|?]%elem_of_cons; [done|by apply Hcon].
  - rewrite Ht. intros id s0 [[<- <-]|[_ Hs0]]%lookup_insert_Some; [split; [done|by left]|]. apply Hkeys in Hs0 as [? ?]. split; [done|by right].
  - intros id Hid. apply elem_of_app. right. by apply Hrem.
  - intros s1 s2 [->|H1]%elem_of_cons [->|H2]%elem_of_cons Hid Hnr Hr; [done| | |by apply Hfun].
    + specialize (Hnew s2 H2 (eq_sym Hid) Hnr). lia.
    + rewrite Hid in Hnr. specialize (Hnew s1 H1 Hid Hnr). lia.
  - rewrite Ht. intros s0 [->|H0]%elem_of_cons Hnr; [exists s; by rewrite lookup_insert_eq|].
    destruct (decide (ID s0 = ID s)) as [Hid|Hid].
    + exists s. rewrite Hid, lookup_insert_eq. rewrite Hid in Hnr. specialize (Hnew s0 H0 Hid Hnr). split; [done|lia].
    + rewrite lookup_insert_ne by done. by apply Hcur.
Qed.

Lemma safe_put {X} (op : sop X) own g w (s : TaskState) :
  tasks (store_op op (store w)).2 = <[ID s := s]> (tasks (store w)) ->
  match tasks (store w) !! ID s with Some cur => Revision s = Revision cur + 1 | None => True end ->
  LastRunID s = [] \/ LastRunID s ∈ foreign g \/ claimed g !! LastRunID s = Some (ID s) ->
  (forall r id, claimed g !! r = Some id -> own <> Some r -> r ∉ foreign g -> id <> ID s -> last_lease r (log (did op w)) = last_lease r (log w)) ->
  (forall r, claimed g !! r = Some (ID s) -> own <> Some r -> r <> [] -> r ∉ foreign g -> r ∉ ended g -> ID s ∉ removed g ->
    owns w r (ID s) \/ lost w r (ID s) -> owns (did op w) r (ID s) \/ lost (did op w) r (ID s)) ->
  ghost_ok g w -> safe own g w (saw s g) (did op w).
Proof.
  intros Ht Hrev Hrun Hother Hsame Hg. split; [apply extends_saw|by apply ghost_put|]. intros j u Hap.
  apply token_frame; [done|done|done|]. intros r id -> Hne Hnf Hend Hc Hh.
  assert (own <> Some r) as Hr by (intros Ho; by apply (Hap r)). destruct (decide (id = ID s)) as [->|Hid].
  - destruct Hh as [?|Hh]; [by left|]. destruct (decide (ID s ∈ removed g)); [by left|right; by apply Hsame].
  - eapply holds_other; [done| |by eapply Hother|done|done]. cbn. rewrite Ht. by rewrite lookup_insert_ne.
Qed.

Lemma create_ok s g w : ghost_ok g w -> LastRunID s = [] -> exists g', safe None g w g' (did (SCreateTask s) w).
Proof.
  intros Hg Hs. destruct (GetTask (ID s) (store w)) as [cur|] eqn:Hcur.
  { exists g. apply safe_idle; [|done|done]. cbn. unfold CreateTask. by rewrite Hcur. }
  exists (saw (set_Revision 1 s) g). pose proof Hcur as Hnone. unfold GetTask in Hnone. apply safe_put; [| | | | |done].
  - cbn. unfold CreateTask. by rewrite Hcur.
  - cbn. by rewrite Hnone.
  - by left.
  - done.
  - cbn. intros r Hc _ Hne Hnf Hend Hnr [(s0 & Hs0 & _)|[Hl Hlost]]; [congruence|]. right. split; [done|]. cbn. unfold CreateTask. rewrite Hcur.
    cbn. intros s0 [[_ <-]|[? _]]%lookup_insert_Some; [|done]. cbn. congruence.
Qed.

(** The state that a successful replacement is about. *)
Lemma fence_same g w (s cur : TaskState) :
  ghost_ok g w -> s ∈ seen g -> tasks (store w) !! ID s = Some cur -> FenceOf cur = FenceOf s -> ID s ∉ removed g -> cur = s.
Proof.
  intros Hg Hs Hcur Hf Hnr. destruct (go_keys _ _ Hg _ _ Hcur) as [Hid Hin]. eapply go_fun; [done|done|done|done|by rewrite Hid|by injection Hf].
Qed.

Lemma replace_ok next expect g w :
  ghost_ok g w -> store_pre g None (SReplaceTaskIf next expect) -> exists g', safe None g w g' (did (SReplaceTaskIf next expect) w).
Proof.
  intros Hg (s & Hs & Hf & _ & Hk). assert (ID next = ID s /\ LastRunID next = LastRunID s) as [Hid Hrun].
  { destruct Hk as [(? & ? & _)|[(? & ? & _) _]]; done. }
  assert (forall m, ReplaceTaskIf next expect m = (false, m) \/ exists cur, tasks m !! ID next = Some cur /\ FenceOf cur = expect /\
    ReplaceTaskIf next expect m = (true, put (ID next) (set_Revision (Revision cur + 1) next) m)) as Hcase.
  { intros m. unfold ReplaceTaskIf, GetTask. destruct (tasks m !! ID next) as [cur|] eqn:Hcur; [|by left].
    case_decide; [right; by exists cur|by left]. }
  destruct (Hcase (store w)) as [Heq|(cur & Hcur & Hfence & Heq)].
  { exists g. apply safe_idle; [|done|done]. cbn. by rewrite Heq. }
  exists (saw (set_Revision (Revision cur + 1) next) g). apply safe_put; [cbn; by rewrite Heq|cbn; by rewrite Hcur| |done| |done].
  { cbn. rewrite Hid, Hrun. by apply (go_con _ _ Hg). }
  cbn. intros r Hc _ Hne Hnf Hend Hnr Hh. assert (cur = s) as -> by (eapply (fence_same g w); rewrite <-?Hid; congruence).
  assert (tasks (store (did (SReplaceTaskIf next expect) w)) !! ID next = Some (set_Revision (Revision s + 1) next)) as Hnew.
  { cbn. rewrite Heq. cbn. by rewrite lookup_insert_eq. }
  destruct Hh as [(s0 & Hs0 & Hl & Hst & Hlid & Hun & Hlast)|[Hl Hlost]].
  - assert (s0 = s) as -> by congruence. destruct Hk as [(_ & _ & Hk1 & Hk2 & Hk3)|[(_ & _ & Hk) Hover]].
    + left. exists (set_Revision (Revision s + 1) next). cbn. split_and!; [done|congruence..].
    + right. split; [|rewrite Hnew; by intros ? [= <-]]. exists (RunLeaseUntil s). split; [done|]. cbn. rewrite <-(go_now _ _ Hg).
      destruct Hover as [?|[?|[?|[?|[?|?]]]]]; congruence || done.
  - right. split; [done|]. rewrite Hnew. intros ? [= <-]. cbn. intros Hr. rewrite Hrun in Hr.
    assert (RunStartedAt s = 0) by (by apply Hlost). destruct Hk as [(_ & _ & -> & _)|[(_ & _ & ->) _]]; done.
Qed.

Lemma safe_trans own g w g1 w1 g2 w2 : safe own g w g1 w1 -> safe own g1 w1 g2 w2 -> safe own g w g2 w2.
Proof. intros [He1 _ Ht1] [He2 Hg2 Ht2]. split; [by etrans|done|]. intros j u Hap Hu. by apply Ht2, Ht1. Qed.

Lemma safe_weaken own g w g' w' : safe None g w g' w' -> safe own g w g' w'.
Proof. intros [? ? Ht]. split; [done|done|]. intros j u _. by apply Ht. Qed.

(** The task and the claim of a run that the storage has unfinished. *)
Lemma unfinished_run g w id r (s : TaskState) :
  ghost_ok g w -> tasks (store w) !! id = Some s -> ownsUnfinishedRun (Some s) r = true ->
  ID s = id /\ LastRunID s = r /\ RunStartedAt s <> 0 /\ (LastRunID s = [] \/ LastRunID s ∈ foreign g \/ claimed g !! LastRunID s = Some (ID s)) /\
  forall id', claimed g !! r = Some id' -> r ∉ foreign g -> id' = id.
Proof.
  intros Hg Hs Hown. destruct (go_keys _ _ Hg _ _ Hs) as [Hid Hin]. apply andb_true_iff in Hown as [Hown Hst%negb_true_iff%Z.eqb_neq].
  apply andb_true_iff in Hown as [Hne%negb_true_iff%bool_decide_eq_false Hr%bool_decide_eq_true].
  pose proof (con_runs _ (go_con _ _ Hg) s Hin) as Hrun. split_and!; [done..|]. intros id' Hc Hnf. rewrite Hr in Hrun.
  destruct Hrun as [?|[?|?]]; congruence.
Qed.

Lemma renew_ok id r until g w : ghost_ok g w -> 0 < until -> exists g', safe None g w g' (did (SRenewRun id r until) w).
Proof.
  intros Hg Hpos. destruct (tasks (store w) !! id) as [cur|] eqn:Hcur.
  2:{ exists g. apply safe_idle; [| |done]; cbn; unfold RenewRun, GetTask; by rewrite Hcur. }
  destruct (ownsUnfinishedRun (Some cur) r) eqn:Hown.
  2:{ exists g. apply safe_idle; [| |done]; cbn; unfold RenewRun, GetTask; by rewrite Hcur, Hown. }
  destruct (unfinished_run _ _ _ _ _ Hg Hcur Hown) as (<- & Hr & Hst & Hrun & Huniq).
  set (s := set_Revision (Revision cur + 1) (set_lease until r cur)).
  assert (store_op (SRenewRun (ID cur) r until) (store w) = (true, put (ID cur) s (store w))) as Heq.
  { cbn. unfold RenewRun, GetTask. by rewrite Hcur, Hown. }
  exists (saw s g). apply safe_put; [by rewrite Heq|cbn; by rewrite Hcur|done| | |done]; unfold did; rewrite Heq; cbn.
  - intros r' id' Hc _ Hnf Hne. case_decide; [|done]. subst r'. by rewrite (Huniq id') in Hne.
  - intros r' Hc _ Hne Hnf Hend Hnr [(s0 & Hs0 & Hl & Hst0 & Hlid & Hun & Hlast)|[Hl Hlost]].
    + assert (s0 = cur) as -> by congruence. left. exists s. cbn. rewrite lookup_insert_eq, decide_True by congruence.
      split_and!; [done|congruence|congruence|congruence|lia|done].
    + right. assert (r <> r') by (intros <-; by destruct Hst; apply Hlost). split.
      * destruct Hl as (u & Hu & Hlt). exists u. cbn. by rewrite decide_False.
      * cbn. rewrite lookup_insert_eq. intros ? [= <-] Hr'. cbn in Hr'. congruence.
Qed.

Lemma finish_ok id r result g w : ghost_ok g w -> exists g', safe (Some r) g w g' (did (SFinishRun id r result) w).
Proof.
  intros Hg. destruct (tasks (store w) !! id) as [cur|] eqn:Hcur.
  2:{ exists g. apply safe_weaken, safe_idle; [| |done]; cbn; unfold FinishRun, GetTask; by rewrite Hcur. }
  destruct (ownsUnfinishedRun (Some cur) r) eqn:Hown.
  2:{ exists g. apply safe_weaken, safe_idle; [| |done]; cbn; unfold FinishRun, GetTask; by rewrite Hcur, Hown. }
  destruct (unfinished_run _ _ _ _ _ Hg Hcur Hown) as (<- & Hr & Hst & Hrun & Huniq).
  assert (exists s : TaskState, store_op (SFinishRun (ID cur) r result) (store w) = (true, put (ID cur) s (store w)) /\
    ID s = ID cur /\ LastRunID s = r /\ RunStartedAt s = 0 /\ Revision s = Revision cur + 1) as (s & Heq & Hid & Hs & Hs0 & Hrev).
  { cbn. unfold FinishRun, GetTask. rewrite Hcur, Hown. eexists. split; [done|]. cbn. repeat case_match; by rewrite <-Hr. }
  exists (saw s g). apply safe_put; [by rewrite Heq, Hid|by rewrite Hid, Hcur|rewrite Hid; congruence| | |done]; unfold did; rewrite Heq; cbn.
  - done.
  - rewrite Hid. intros r' Hc Hne' Hne Hnf Hend Hnr [(s0 & Hs0' & Hl & _)|[Hl Hlost]]; [congruence|].
    right. split; [done|]. cbn. rewrite lookup_insert_eq. by intros ? [= <-] ?.
Qed.

Lemma delete_ok id g w : ghost_ok g w -> exists g', safe None g w g' (did (SDeleteTask id) w).
Proof.
  intros Hg. exists (mkGhost (seen g) (claimed g) (foreign g) (ended g) ({[id]} ∪ removed g) (now g)). split.
  - split; cbn; [done..|set_solver|done].
  - destruct Hg as [[Hcon Hnow] ? Hkeys Hrem Hfun Hcur Hfor Hcl Hen Hlive]. split; cbn; try done.
    + intros id' s [_ ?]%lookup_delete_Some. by apply Hkeys.
    + intros id' [->%elem_of_singleton|?%Hrem]%elem_of_union; [by left|by right].
    + intros s1 s2 H1 H2 Hid Hnr. apply Hfun; [done|done|done|set_solver].
    + intros s Hs Hnr. rewrite lookup_delete_ne by set_solver. apply Hcur; [done|set_solver].
  - intros j u _. apply token_frame; [done|done|done|]. intros r id' _ _ _ _ _ Hh. destruct (decide (id' = id)) as [->|Hne].
    + left. cbn. set_solver.
    + eapply holds_other; [|..|exact Hh]; cbn; [set_solver| |done|done]. by rewrite lookup_delete_ne.
Qed.

Lemma safe_claims r id g w i : ghost_ok g w -> token_ok g w i (Some (r, Live)) -> safe (Some r) g w (claims r id g) w.
Proof.
  intros Hg (Hne & Hused & Hnf & Hown & Hc & Hlive & Hend). split; [by apply extends_claims| |].
  - destruct Hg as [[Hcon Hnow] ? Hkeys Hrem Hfun Hcur Hfor Hcl Hen Hl]. split; cbn; try done.
    + split; [|done]. cbn. intros s Hs. destruct (Hcon s Hs) as [?|[?|Hs']]; [by left|by right; left|]. right. right.
      rewrite lookup_insert_ne; [done|]. intros ->. congruence.
    + intros r' id' [[<- _]|[_ ?]]%lookup_insert_Some; [done|by eapply Hcl].
    + intros r' id' [[<- _]|[_ ?]]%lookup_insert_Some; [right; by rewrite Hown|by eapply Hl].
  - intros j u Hap. apply token_frame; [done|done| |by intros; eapply holds_other].
    intros r' ph ->. cbn. rewrite lookup_insert_ne; [done|]. intros <-. by apply (Hap r).
Qed.

Lemma claim_ok id claim g w i :
  ghost_ok g w -> token_ok g w i (Some (c_RunID claim, Live)) -> (0 < c_StartedAt claim -> 0 < c_LeaseUntil claim) ->
  exists g', safe (Some (c_RunID claim)) g w g' (did (SClaimRun id claim) w) /\
    ((store_op (SClaimRun id claim) (store w)).1 = inr true -> token_ok g' (did (SClaimRun id claim) w) i (Some (c_RunID claim, Claimed id))).
Proof.
  intros Hg Htok Hpos. set (r := c_RunID claim).
  assert (store_op (SClaimRun id claim) (store w) = ((ClaimRun id claim (store w)).1, store w) /\ (ClaimRun id claim (store w)).1 <> inr true \/
    exists cur s : TaskState, tasks (store w) !! id = Some cur /\ RunStartedAt cur = 0 /\
    store_op (SClaimRun id claim) (store w) = (inr true, put id s (store w)) /\ ID s = ID cur /\ Revision s = Revision cur + 1 /\
    LastRunID s = r /\ RunLeaseID s = r /\ RunLeaseUntil s = c_LeaseUntil claim /\ RunStartedAt s = c_StartedAt claim /\
    0 < c_StartedAt claim) as Hcase.
  { cbn. unfold ClaimRun. destruct (Validate claim) eqn:Hv; [by left|]. unfold GetTask. destruct (tasks _ !! id) as [cur|] eqn:Hcur; [|by left].
    destruct (_ || _) eqn:Hst; [by left|]. destruct (negb (_ =? _) || _); [by left|]. right. exists cur. eexists.
    apply orb_false_iff in Hst as [_ Hst%negb_false_iff%Z.eqb_eq]. split_and!; [done|done|done|done..|]. unfold Validate in Hv.
    destruct (_ <=? 0) eqn:Hle; [done|lia]. }
  destruct Hcase as [[Heq Hr]|(cur & s & Hcur & Hst & Heq & Hid & Hrev & Hlast & Hlid & Hun & Hs & Hst')].
  { exists g. split; [|by rewrite Heq]. apply safe_weaken, safe_idle; [by rewrite Heq| |done]. rewrite Heq. cbn. by repeat case_match. }
  destruct (go_keys _ _ Hg _ _ Hcur) as [Hidc Hin]. rewrite Hidc in Hid. subst id.
  pose proof (safe_claims r (ID s) g w i Hg Htok) as Hcl. exists (saw s (claims r (ID s) g)). split.
  - eapply safe_trans; [exact Hcl|]. apply safe_put; [by rewrite Heq|by rewrite Hcur| | | |apply Hcl]; unfold did; rewrite ?Heq; cbn.
    + right. right. rewrite Hlast. by rewrite lookup_insert_eq.
    + intros r' id' _ Hr' _ _. fold r. rewrite decide_False; [done|]. congruence.
    + intros r' _ Hr' Hne Hnf Hend Hnr [(s0 & Hs0 & _ & Hs0' & _)|[Hl Hlost]]; [congruence|]. right. split.
      * destruct Hl as (u & Hu & Hlt). exists u. cbn. fold r. rewrite decide_False; [done|congruence].
      * cbn. rewrite lookup_insert_eq. intros ? [= <-] ?. congruence.
  - intros _. destruct Htok as (Hne & Hused & Hnf & Hown & Hc & Hlive & Hend). split_and!; [done..|]. cbn [phase_ok].
    split; [cbn; by rewrite lookup_insert_eq|]. split_and!; [done..|]. right. left. exists s. unfold did. rewrite Heq. cbn.
    rewrite lookup_insert_eq. fold r. rewrite decide_True by done. split_and!; [done|done|lia|done|lia|by rewrite Hun].
Qed.

Lemma elem_of_stored (m : Storage) s : s ∈ (map_to_list (tasks m)).*2 -> exists id, tasks m !! id = Some s.
Proof. intros ([id s'] & -> & Hin%elem_of_map_to_list)%list_elem_of_fmap. by exists id. Qed.
Lemma elem_of_Tasks m s : s ∈ Tasks m -> exists id, tasks m !! id = Some s.
Proof. unfold Tasks, SortByID. rewrite merge_sort_Permutation. apply elem_of_stored. Qed.
Lemma elem_of_DueTasks now m s : s ∈ DueTasks now m -> exists id, tasks m !! id = Some s.
Proof. unfold DueTasks, SortByID. rewrite merge_sort_Permutation. intros [_ ?]%list_elem_of_filter. by apply elem_of_stored. Qed.

(** Every call of the storage that respects the protocol. *)
Lemma store_ok {X} (op : sop X) g w i t x :
  ghost_ok g w -> token_ok g w i t -> store_pre g t op -> x = inr (store_op op (store w)).1 \/ (exists err, x = inl err) ->
  exists g' t', safe (run_of t) g w g' (did op w) /\ store_post g' t op x t' /\ token_ok g' (did op w) i t' /\ run_of t' = run_of t.
Proof.
  intros Hg Htok Hpre Hx.
  assert ((exists g', safe None g w g' (did op w)) -> (forall g', safe None g w g' (did op w) -> store_post g' t op x t) ->
    exists g' t', safe (run_of t) g w g' (did op w) /\ store_post g' t op x t' /\ token_ok g' (did op w) i t' /\ run_of t' = run_of t) as Hsame.
  { intros [g' Hs] Hp. exists g', t. split; [by apply safe_weaken|]. split; [by apply Hp|]. split; [|done]. by eapply safe_token. }
  destruct op; cbn in Hpre.
  - apply Hsame; [exists g; by apply safe_idle|]. intros g' Hs. split; [done|]. intros s ->. destruct Hx as [[= Hx]|[? [=]]].
    destruct (go_keys _ _ Hg id s) as [? ?]; [by symmetry|]. split; [by apply Hs|done].
  - apply Hsame; [by apply create_ok|done].
  - apply Hsame; [by apply replace_ok|done].
  - destruct Hpre as [-> Hpos]. destruct (claim_ok id claim g w i Hg Htok Hpos) as (g' & Hs & Hc). exists g'. eexists. split; [done|].
    split; [done|]. split; [|done]. assert (token_ok g' (did (SClaimRun id claim) w) i (Some (c_RunID claim, Done))) as Hdone.
    { destruct Htok as (? & ? & ? & ? & _). pose proof (ext_foreign _ _ (safe_extends _ _ _ _ _ Hs)) as Hf. split_and!; [done|done|by rewrite <-Hf|done|done]. }
    destruct x as [?|[?|[|]]]; try done. apply Hc. by destruct Hx as [[= Hx]|[? [=]]].
  - apply Hsame; [by apply renew_ok|done].
  - subst t. destruct (finish_ok id runID result g w Hg) as [g' Hs]. exists g', (Some (runID, Done)). split; [done|]. split; [done|]. split; [|done].
    destruct Htok as (? & ? & ? & ? & _). pose proof (ext_foreign _ _ (safe_extends _ _ _ _ _ Hs)) as Hf. split_and!; [done|done|by rewrite <-Hf|done|done].
  - apply Hsame; [by apply delete_ok|done].
  - apply Hsame; [exists g; by apply safe_idle|]. intros g' Hs. split; [done|]. intros l s -> Hin. destruct Hx as [[= ->]|[? [=]]].
    apply Hs. apply elem_of_Tasks in Hin as [id Hid]. by apply (go_keys _ _ Hg id).
  - apply Hsame; [exists g; by apply safe_idle|]. intros g' Hs. split; [done|]. intros l s -> Hin. destruct Hx as [[= ->]|[? [=]]].
    apply Hs. apply elem_of_DueTasks in Hin as [id Hid]. by apply (go_keys _ _ Hg id).
  - apply Hsame; [exists g; by apply safe_idle|done].
  - apply Hsame; [exists g; by apply safe_idle|done].
Qed.

(** ** The other calls *)

Lemma safe_refl own g w : ghost_ok g w -> safe own g w g w.
Proof. by split. Qed.

Lemma live_inst w i s s' j r :
  insts w !! i = Some s -> (j = i -> r ∈ liveRuns s -> r ∈ liveRuns s') -> live w j r -> live (set_inst i s' w) j r.
Proof.
  intros Hi Hl (s0 & Hs0 & Hr). unfold live. cbn. destruct (decide (j = i)) as [->|Hne].
  - exists s'. rewrite lookup_insert_eq. split; [done|]. apply Hl; [done|congruence].
  - exists s0. by rewrite lookup_insert_ne.
Qed.

Lemma safe_inst own g w i s s' :
  ghost_ok g w -> insts w !! i = Some s -> liveRuns s ⊆ liveRuns s' -> safe own g w g (set_inst i s' w).
Proof.
  intros Hg Hi Hl. split; [done| |].
  - destruct Hg. split; cbn; try done. intros r id Hc. destruct (go_live0 r id Hc); [by left|right]. eapply live_inst; [done| |done]. set_solver.
  - intros j u _. apply token_frame; [done|done| |by intros]. intros r ph _. split_and!; [done|done|]. apply (live_inst w i s); [done|set_solver].
Qed.

(** A run that is dropped from the live ones is over. *)
Lemma safe_dead g w i s r :
  ghost_ok g w -> insts w !! i = Some s -> r ∈ used w ->
  safe (Some r) g w (mkGhost (seen g) (claimed g) (foreign g) ({[r]} ∪ ended g) (removed g) (now g))
    (set_inst i (set_live (liveRuns s ∖ {[r]}) s) w).
Proof.
  intros Hg Hi Hr. split; [split; cbn; [done|done|done|set_solver|done|done]| |].
  - destruct Hg as [[Hcon Hnow] ? Hkeys Hrem Hfun Hcur Hfor Hcl Hen Hl]. split; cbn; try done; [set_solver|].
    intros r' id Hc. destruct (decide (r' = r)) as [->|Hne]; [left; set_solver|]. destruct (Hl r' id Hc) as [?|?]; [left; set_solver|right].
    eapply live_inst; [done| |done]. cbn. set_solver.
  - intros j u Hap. apply token_frame; [done|done| |by intros]. intros r' ph ->. assert (r' <> r) by (intros ->; by apply (Hap r)). cbn.
    split_and!; [done|set_solver|]. apply (live_inst w i s); [done|]. cbn. set_solver.
Qed.

Lemma safe_used own g w r :
  ghost_ok g w -> safe own g w g (mkWorld (store w) (clock w) (insts w) (beats w) ({[r]} ∪ used w) (threads w) (log w)).
Proof.
  intros Hg. split; [done| |].
  - destruct Hg. split; cbn; try done; set_solver.
  - intros j u _. apply token_frame; [set_solver|done|by intros|by intros].
Qed.

Lemma runOwner_name i x : runIDSeparator ∉ x -> runOwner (i ++ [runIDSeparator] ++ x) = i.
Proof.
  intros Hx. unfold runOwner. rewrite !rev_app_distr, <-app_assoc. cbn. rewrite Cut_app; [by rewrite rev_involutive|].
  by rewrite list_elem_of_In, <-in_rev, <-list_elem_of_In.
Qed.

(** The token after a call is the one before, none, or one of a new run. *)
Definition next_token (w : world) (t t' : token) : Prop :=
  run_of t' = run_of t \/ t' = None \/ exists r, t = None /\ run_of t' = Some r /\ r ∉ used w.

Lemma exec_ok {X} (c : call X) g w i t x w' :
  ghost_ok g w -> token_ok g w i t -> pre g t c -> exec i c w x w' ->
  exists g' t', safe (run_of t) g w g' w' /\ post i g' t c x t' /\ token_ok g' w' i t' /\ next_token w t t'.
Proof.
  intros Hg Htok Hpre Hex.
  assert (safe None g w g w' -> post i g t c x t ->
    exists g' t', safe (run_of t) g w g' w' /\ post i g' t c x t' /\ token_ok g' w' i t' /\ next_token w t t') as Hsame.
  { intros Hs Hp. exists g, t. split; [by apply safe_weaken|]. split; [done|]. split; [by eapply safe_token|by left]. }
  destruct c; cbn in Hpre, Hex.
  { destruct Hex as [[-> ->]|(err & -> & [->| ->])].
    - destruct (store_ok o g w i t _ Hg Htok Hpre (or_introl eq_refl)) as (g' & t' & ? & ? & ? & ?). exists g', t'. split_and!; [done..|by left].
    - destruct (store_ok o g w i t (inl err) Hg Htok Hpre) as (g' & t' & ? & ? & ? & ?); [right; by eexists|].
      exists g', t'. split_and!; [done..|by left].
    - exists g. destruct o; try (exists t; split_and!; [by apply safe_refl|done|done|by left]). exists (Some (c_RunID claim, Done)).
      destruct Hpre as [-> _]. destruct Htok as (? & ? & ? & ? & _). split_and!; [by apply safe_refl|done| |by left]. by split_and!. }
  all: try (destruct Hex as (s & s' & Hi & Hf & ->)).
  { destruct Hex as [-> ->]. apply Hsame; [by apply safe_refl|]. cbn. split; [done|]. rewrite <-(go_now _ _ Hg).
    split; [done|apply (go_con _ _ Hg)]. }
  { subst w'. apply Hsame; [by apply safe_refl|done]. }
  { destruct Hex as (Hsep & Hnew & ->). pose proof (safe_used (run_of t) g w (i ++ [runIDSeparator] ++ x) Hg) as Hs.
    exists g. eexists. split; [done|]. split; [done|]. destruct t as [t|]; [split; [|by left]|split].
    - eapply safe_token; [by apply (safe_used None)|done|done].
    - split_and!; [by destruct i|cbn; set_solver| |by apply runOwner_name|].
      + by intros ?%(go_foreign _ _ Hg).
      + cbn. split; [|by intros ?%(go_ended _ _ Hg)]. destruct (claimed g !! _) eqn:Hc; [|done]. by apply (go_claimed _ _ Hg) in Hc.
    - right. right. by eexists. }
  { subst s' t. exists g, (Some (runID, Live)). destruct Htok as (? & ? & ? & ? & ? & ?). split_and!; [|done| |by left].
    - eapply safe_inst; [done|done|cbn; set_solver].
    - split_and!; [done..|]. cbn. split_and!; [done| |done]. eexists. cbn. rewrite lookup_insert_eq. split; [done|cbn; set_solver]. }
  { subst s'. destruct Hpre as [ph ->]. destruct Htok as (? & ? & ? & ? & _). eexists _, None.
    split; [by apply safe_dead|]. split_and!; [done|done|]. right. by left. }
  { destruct Hf as [-> ->]. apply Hsame; [by eapply safe_inst|]. cbn. split; [done|]. intros Hx%bool_decide_eq_false Hown [?|[id Hc]]; [by right|].
    destruct (go_live _ _ Hg _ _ Hc) as [?|(s0 & Hs0 & Hr)]; [by left|]. rewrite Hown in Hs0. congruence. }
  { subst w' t. exists g, (Some (runID, Done)). destruct Htok as (? & ? & ? & ? & _). split_and!; [by apply safe_refl|done| |by left]. by split_and!. }
  all: apply Hsame; [|done].
  all: first [destruct Hf as (c & _ & _ & ->); by eapply safe_inst|subst s'; by eapply safe_inst|destruct Hf as [-> ->]; by eapply safe_inst|idtac].
  all: try (first [subst w'|destruct Hex as [_ ->]|destruct Hex as (_ & _ & ->)]; by apply safe_refl).
  all: try (subst w'; split; [done|by destruct Hg|by intros]).
  - destruct Hf as [-> ->]. eapply safe_inst; [done|done|]. by case_match.
  - destruct Hf as [(_ & _ & ->)|[_ ->]]; by eapply safe_inst.
Qed.

Lemma exec_frame {X} (c : call X) w i x w' :
  exec i c w x w' -> threads w' = threads w /\ forall j s', insts w' !! j = Some s' -> exists s, insts w !! j = Some s /\ opts s' = opts s.
Proof.
  assert (forall s s', insts w !! i = Some s -> opts s' = opts s -> threads (set_inst i s' w) = threads w /\
    forall j s0, insts (set_inst i s' w) !! j = Some s0 -> exists s, insts w !! j = Some s /\ opts s0 = opts s) as Hset.
  { intros s s' Hi Ho. split; [done|]. cbn. intros j s0 [[<- <-]|[_ ?]]%lookup_insert_Some; by eexists. }
  destruct c; cbn; intros Hex; try (destruct Hex as (s & s' & Hi & Hf & ->); apply (Hset s); [done|]; unfold on_cell in Hf).
  all: repeat match goal with H : _ /\ _ |- _ => destruct H | H : _ \/ _ |- _ => destruct H | H : exists _, _ |- _ => destruct H end.
  all: subst; repeat case_match; by eauto.
Qed.

(** ** The invariant *)

Abbreviation thread := (bytes * prog unit * token)%type.

Definition runs (l : list thread) : list bytes := omap (fun e => run_of e.2) l.

Record inv (g : ghost) (w : world) (l : list thread) : Prop := {
  inv_ghost : ghost_ok g w;
  inv_threads : threads w ≡ₚ l.*1;
  inv_each i p t : (i, p, t) ∈ l -> wp i p g t (fun _ _ _ => True) /\ token_ok g w i t;
  inv_runs : NoDup (runs l);
  inv_insts i s : insts w !! i = Some s -> instanceID (opts s) = i
}.

Lemma runs_cons i p t l : runs ((i, p, t) :: l) = match run_of t with Some r => r :: runs l | None => runs l end.
Proof. done. Qed.
Lemma elem_of_runs i p t r l : (i, p, t) ∈ l -> run_of t = Some r -> r ∈ runs l.
Proof. intros Hl Hr. apply list_elem_of_omap. by exists (i, p, t). Qed.
#[export] Instance runs_Permutation : Proper (Permutation ==> Permutation) runs.
Proof. intros l l' Hl. unfold runs. by rewrite Hl. Qed.

(** A thread of the world with its token, and the others. *)
Lemma inv_focus g w l n i p :
  inv g w l -> threads w !! n = Some (i, p) ->
  exists t rest, inv g w ((i, p, t) :: rest) /\ forall y, <[n := y]> (threads w) ≡ₚ y :: rest.*1.
Proof.
  intros [Hg Hth Heach Hruns Hin] Hn. pose proof (delete_Permutation _ _ _ Hn) as Hdel.
  rewrite Hdel in Hth. apply Permutation_map_inv in Hth as (l' & Hl' & Hperm). destruct l' as [|[x t] rest]; [done|].
  injection Hl' as <- Hrest. exists t, rest. split.
  - split; [done| |by intros j q u Hj; apply Heach; rewrite Hperm|by rewrite <-Hperm|done]. by rewrite Hdel, Hrest.
  - intros y. change (map fst rest) with rest.*1 in Hrest. rewrite insert_take_drop by by eapply lookup_lt_Some.
    by rewrite <-Permutation_middle, <-delete_take_drop, Hrest.
Qed.

(** The steps. *)
Lemma inv_call g w l n i X (c : call X) k x w' :
  inv g w l -> threads w !! n = Some (i, Do c k) -> exec i c w x w' ->
  exists g' l', inv g' (set_threads (<[n := (i, k x)]> (threads w')) w') l'.
Proof.
  intros Hinv Hn Hex. destruct (inv_focus _ _ _ _ _ _ Hinv Hn) as (t & rest & [Hg Hth Heach Hruns Hin] & Hput).
  destruct (Heach i (Do c k) t) as [[Hpre Hwp] Htok]; [by left|].
  destruct (exec_ok c g w i t x w' Hg Htok Hpre Hex) as (g' & t' & [Hext Hg' Hframe] & Hpost & Htok' & Hnext).
  destruct (exec_frame _ _ _ _ _ Hex) as [Hth' Hin']. exists g', ((i, k x, t') :: rest). split; [by destruct Hg'|rewrite Hth'; apply Hput| | |].
  - intros j p u [[= -> -> ->]|Hu]%elem_of_cons; [split; [by apply Hwp; [|apply Hg'|]|done]|].
    destruct (Heach j p u) as [Hp Hu']; [by right|]. split; [by eapply wp_extends|]. apply Hframe; [|done].
    intros r Hr Hu2. rewrite runs_cons, Hr in Hruns. apply NoDup_cons in Hruns as [Hnew _]. by apply Hnew, (elem_of_runs j p u).
  - rewrite runs_cons in Hruns |- *. destruct Hnext as [->|[->|(r & -> & -> & Hr)]]; [done| |].
    + cbn. destruct (run_of t); [by apply NoDup_cons in Hruns as [_ ?]|done].
    + apply NoDup_cons. split; [|done]. intros ([[j p] u] & Hu & Hur)%list_elem_of_omap. destruct u as [[r' ph]|]; [|done].
      injection Hur as ->. destruct (Heach j p (Some (r, ph))) as [_ (_ & ? & _)]; [by right|done].
  - intros j s' Hs'. apply Hin' in Hs' as (s & Hs & ->). by apply Hin.
Qed.

Lemma inv_spawn g w l n i p k :
  inv g w l -> threads w !! n = Some (i, Spawn p k) -> exists g' l', inv g' (set_threads (<[n := (i, k)]> (threads w) ++ [(i, p)]) w) l'.
Proof.
  intros Hinv Hn. destruct (inv_focus _ _ _ _ _ _ Hinv Hn) as (t & rest & [Hg Hth Heach Hruns Hin] & Hput).
  destruct (Heach i (Spawn p k) t) as [[Hp Hk] Htok]; [by left|]. exists g, ((i, p, None) :: (i, k, t) :: rest). split; [by destruct Hg| | | |done].
  - cbn. by rewrite Hput, <-Permutation_cons_append.
  - intros j q u [[= -> -> ->]|[[= -> -> ->]|Hu]%elem_of_cons]%elem_of_cons; [done|done|]. destruct (Heach j q u); [by right|done].
  - rewrite runs_cons in Hruns. by rewrite !runs_cons.
Qed.

Lemma inv_enter parse quoted g w l i s p :
  inv g w l -> insts w !! i = Some s -> entry parse quoted (opts s) p -> exists g' l', inv g' (set_threads (threads w ++ [(i, p)]) w) l'.
Proof.
  intros [Hg Hth Heach Hruns Hin] Hi Hp. exists g, ((i, p, None) :: l). split; [by destruct Hg| | |done|done].
  - cbn. by rewrite <-Permutation_cons_append, Hth.
  - intros j q u [[= -> -> ->]|Hu]%elem_of_cons; [|by apply Heach]. split; [|done]. eapply wp_entry; [by apply Hin|apply Hg|done].
Qed.

(** Steps of the world that leave the threads. *)
Lemma inv_world g w l g' w' :
  inv g w l -> threads w' = threads w -> safe None g w g' w' -> (forall i s, insts w' !! i = Some s -> instanceID (opts s) = i) -> inv g' w' l.
Proof.
  intros [Hg Hth Heach Hruns Hin] Hsame [Hext Hg' Hframe] Hin'. split; [done|by rewrite Hsame| |done|done].
  intros i p t Ht. destruct (Heach i p t Ht) as [Hp Htok]. split; [by eapply wp_extends|by apply Hframe].
Qed.

Lemma safe_start g w i o : ghost_ok g w -> insts w !! i = None -> safe None g w g (set_inst i (new_scheduler o) w).
Proof.
  intros Hg Hi. assert (forall j r, live w j r -> live (set_inst i (new_scheduler o) w) j r) as Hl.
  { intros j r (s & Hs & Hr). exists s. cbn. rewrite lookup_insert_ne; [done|]. congruence. }
  split; [done| |intros j u _; apply token_frame; [done|done|by intros; auto|by intros]].
  destruct Hg. split; cbn; try done. intros r id Hc. destruct (go_live0 r id Hc); auto.
Qed.

Lemma holds_time g w t r id now' :
  clock w <= t -> holds g w r id ->
  holds (mkGhost (seen g) (claimed g) (foreign g) (ended g) (removed g) now')
    (mkWorld (store w) t (insts w) (beats w) (used w) (threads w) (log w)) r id.
Proof.
  intros Ht%unix_mono [?|[?|[(u & Hu & Hlt) ?]]]; [by left|by right; left|]. right. right. split; [|done]. exists u. cbn. split; [done|lia].
Qed.

Lemma safe_time g w t :
  ghost_ok g w -> clock w <= t ->
  safe None g w (mkGhost (seen g) (claimed g) (foreign g) (ended g) (removed g) t)
    (mkWorld (store w) t (insts w) (beats w) (used w) (threads w) (log w)).
Proof.
  intros Hg Ht. split.
  - split; cbn; try done. by rewrite (go_now _ _ Hg).
  - destruct Hg as [[Hcon Hnow] Hn ? ? ? ? ? ? ? ?]. split; cbn; try done. split; [done|]. cbn. rewrite Hn in Hnow.
    pose proof (unix_mono _ _ Ht). lia.
  - intros j u _. apply token_frame; [done|done|done|]. intros. by apply holds_time.
Qed.

(** An instance that stops ends its runs. *)
Definition stopped (i : bytes) (g : ghost) : ghost :=
  mkGhost (seen g) (claimed g) (foreign g) (ended g ∪ dom (filter (fun e => runOwner e.1 = i) (claimed g))) (removed g) (now g).

Lemma elem_of_stopped i g r : r ∈ ended (stopped i g) <-> r ∈ ended g \/ runOwner r = i /\ is_Some (claimed g !! r).
Proof.
  cbn. rewrite elem_of_union, elem_of_dom. split; (intros [?|Hr]; [by left|right]).
  - destruct Hr as [id [? ?]%map_lookup_filter_Some]. by split; [|eexists].
  - destruct Hr as [? [id ?]]. exists id. by apply map_lookup_filter_Some.
Qed.

Lemma inv_stop g w l i :
  inv g w l -> exists g' l',
    inv g' (mkWorld (store w) (clock w) (delete i (insts w)) (beats w) (used w) (filter (fun t => t.1 <> i) (threads w)) (log w)) l'.
Proof.
  intros [Hg Hth Heach Hruns Hin]. assert (extends g (stopped i g)) as Hext by (split; cbn; try done; set_solver).
  exists (stopped i g), (filter (fun e : thread => e.1.1 <> i) l). split.
  - destruct Hg as [[Hcon Hnow] ? Hkeys Hrem Hfun Hcur Hfor Hcl Hen Hl]. split; try done.
    + intros r [?|[_ [id ?]]]%elem_of_stopped; [by apply Hen|by eapply Hcl].
    + intros r id Hc. rewrite elem_of_stopped. destruct (decide (runOwner r = i)) as [Hi|Hi]; [left; right; by split; [|eexists]|].
      destruct (Hl r id Hc) as [?|(s & Hs & Hr)]; [by left; left|]. right. exists s. cbn. by rewrite lookup_delete_ne.
  - cbn. rewrite Hth. clear. induction l as [|[[j p] t] l IH]; [done|]. rewrite fmap_cons, !filter_cons. cbn.
    destruct (decide (j <> i)); cbn; by rewrite IH.
  - intros j p t [Hj Hl]%list_elem_of_filter. cbn in Hj. destruct (Heach j p t Hl) as [Hp Htok]. split; [by eapply wp_extends|].
    assert (forall r ph, t = Some (r, ph) -> runOwner r = j) as Hown by (intros r ph ->; by destruct Htok as (_ & _ & _ & ? & _)).
    revert Htok. apply token_frame; [done|done| |by intros]. intros r ph Ht. split; [done|].
    split; [intros [?|[? _]]%elem_of_stopped; [done|by rewrite (Hown r ph Ht) in *]|]. intros (s & Hs & Hr). exists s. cbn. by rewrite lookup_delete_ne.
  - eapply sublist_NoDup; [exact Hruns|]. clear. induction l as [|[[j p] t] l IH]; [constructor|]. rewrite filter_cons. cbn [fst].
    destruct (decide (j <> i)); rewrite !runs_cons; destruct (run_of t); by repeat constructor.
  - cbn. intros j s [_ ?]%lookup_delete_Some. by apply Hin.
Qed.

Lemma inv_next parse quoted g w l w' : inv g w l -> step parse quoted w w' -> exists g' l', inv g' w' l'.
Proof.
  intros Hinv Hstep. destruct Hstep as [n i X c k x w' Hn Hex|n i p k Hn|i s p Hi Hp|i o Hi Ho|i|t Ht].
  - by eapply inv_call.
  - by eapply inv_spawn.
  - by eapply inv_enter.
  - exists g, l. eapply inv_world; [done|done|apply safe_start; [apply Hinv|done]|].
    cbn. intros j s [[<- <-]|[_ ?]]%lookup_insert_Some; [done|by apply Hinv].
  - by apply (inv_stop g w l).
  - eexists _, l. eapply inv_world; [done| |by apply safe_time; [apply Hinv|]|apply Hinv]. done.
Qed.

Lemma inv_initial w : initial w -> exists g, inv g w [].
Proof.
  intros (Hi & Hth & Hlog & Hpos & Hst). exists (mkGhost (map_to_list (tasks (store w))).*2 ∅ (used w) ∅ ∅ (clock w)).
  assert (forall s : TaskState, s ∈ (map_to_list (tasks (store w))).*2 -> tasks (store w) !! ID s = Some s) as Hkey.
  { intros s [id Hid]%elem_of_stored. by destruct (Hst id s Hid) as [-> _]. }
  split; [|by rewrite Hth|by intros ? ? ? ?%elem_of_nil|constructor|by rewrite Hi]. split; cbn; try done.
  - split; [|done]. cbn. intros s Hs%Hkey. destruct (Hst _ _ Hs) as [_ [?|?]]; [by left|by right; left].
  - intros id s Hs. split; [by apply Hst|]. apply list_elem_of_fmap. exists (id, s). split; [done|]. by apply elem_of_map_to_list.
  - intros s1 s2 H1%Hkey H2%Hkey Hid _ _. congruence.
  - intros s Hs%Hkey _. by exists s.
Qed.

Lemma reachable_inv parse quoted w : reachable parse quoted w -> exists g l, inv g w l.
Proof.
  intros (w0 & [g Hinv]%inv_initial & Hsteps). revert g Hinv. generalize ([] : list thread). induction Hsteps as [|w w1 w2 Hs _ IH]; intros l g Hinv; [by eauto|].
  destruct (inv_next _ _ _ _ _ _ Hinv Hs) as (g' & l' & Hinv'). by eapply IH.
Qed.

(** The task and the run of a goroutine that is in its body. *)
Definition in_body {A} (p : prog A) : option (bytes * bytes) :=
  match p with Do (CBody id r) _ => Some (id, r) | _ => None end.

Lemma in_body_token {A} i (p : prog A) g t Q id r : wp i p g t Q -> in_body p = Some (id, r) -> t = Some (r, Claimed id).
Proof. destruct p as [|? ? [] ?|]; try done. cbn. by intros [? _] [= -> ->]. Qed.

(** C5: Across all instances and goroutines, two runs of one task are in their
    bodies at the same time only if the task was deleted meanwhile or one of the
    two let the lease it last wrote to the storage pass.  The storage may lose
    calls and replies, and instances may stop and restart, at every point. *)
Theorem at_most_one_live_run parse quoted w n1 n2 i1 i2 p1 p2 id r1 r2 :
  reachable parse quoted w -> n1 <> n2 ->
  threads w !! n1 = Some (i1, p1) -> in_body p1 = Some (id, r1) ->
  threads w !! n2 = Some (i2, p2) -> in_body p2 = Some (id, r2) ->
  EvDelete id ∈ log w \/ lapsed w r1 \/ lapsed w r2.
Proof.
  intros (g & l & Hinv)%reachable_inv Hne H1 Hb1 H2 Hb2.
  destruct (inv_focus _ _ _ _ _ _ Hinv H1) as (t1 & rest & [Hg Hth Heach Hruns _] & Hput).
  assert (exists t2, (i2, p2, t2) ∈ rest) as [t2 Hrest].
  { assert ((i2, p2) ∈ rest.*1) as ([[? ?] t2] & [= <- <-] & ?)%list_elem_of_fmap; [|by exists t2].
    assert ((i2, p2) ∈ <[n1 := (i1, Ret tt)]> (threads w)) as Hin.
    { apply (list_elem_of_lookup_2 _ n2). by rewrite list_lookup_insert_ne. }
    rewrite Hput in Hin. apply elem_of_cons in Hin as [[= -> ->]|?]; done. }
  destruct (Heach i1 p1 t1) as [Hw1 Ht1]; [by left|]. destruct (Heach i2 p2 t2) as [Hw2 Ht2]; [by right|].
  rewrite (in_body_token _ _ _ _ _ _ _ Hw1 Hb1) in *. rewrite (in_body_token _ _ _ _ _ _ _ Hw2 Hb2) in *.
  assert (r1 <> r2) as Hr.
  { intros <-. rewrite runs_cons in Hruns. apply NoDup_cons in Hruns as [Hnew _]. by apply Hnew, (elem_of_runs i2 p2 (Some (r1, Claimed id))). }
  destruct Ht1 as (_ & _ & _ & _ & _ & _ & _ & Hh1), Ht2 as (_ & _ & _ & _ & _ & _ & _ & Hh2).
  destruct Hh1 as [?%(go_removed _ _ Hg)|[(s1 & Hs1 & ? & _)|[? _]]]; [by left| |by right; left].
  destruct Hh2 as [?%(go_removed _ _ Hg)|[(s2 & Hs2 & ? & _)|[? _]]]; [by left| |by right; right]. congruence.
Qed.

(** An instance that hangs in the body of a task while another one recovers the
    task and runs it. *)
Definition hang_options (i : string) : options := mkOptions (bs i) 0 0 0 false 0 0.
Definition hang_config : TaskConfig := mkConfig (bs "t") [] (bs "@every 1m") true 0 false false false 0 ∅.
Definition hang_world : world := mkWorld (New 0) (of_unix 1000) ∅ ∅ ∅ [] [].
Definition hang_script : list action :=
  [Start (hang_options "a"); Start (hang_options "b"); Begin (bs "a") (ToRegister hang_config)] ++ replicate 4 (Go 0) ++
  [Begin (bs "a") (ToTrigger (bs "t"))] ++ replicate 5 (Go 1) ++ replicate 9 (Go 2) ++
  [Wait (of_unix 1100); Begin (bs "b") (ToRegister hang_config)] ++ replicate 4 (Go 4) ++
  [Begin (bs "b") ToRecover] ++ replicate 4 (Go 5) ++
  [Begin (bs "b") (ToTrigger (bs "t"))] ++ replicate 5 (Go 6) ++ replicate 9 (Go 7).
Definition hang : option world :=
  script (fun _ => None) (fun _ => inr (fun t => t + 60 * second)) (fun _ => EmptyString) hang_script hang_world.

(** What goroutine [n] does in a world. *)
Definition body_at (n : nat) (w : world) : option (bytes * (bytes * bytes)) := '(i, p) ← threads w !! n; b ← in_body p; Some (i, b).
Lemma body_at_Some n w i id r :
  body_at n w = Some (i, (id, r)) -> exists p, threads w !! n = Some (i, p) /\ in_body p = Some (id, r).
Proof.
  unfold body_at. destruct (threads w !! n) as [[j p]|]; [|done]. cbn. destruct (in_body p) eqn:Hb; [|done].
  intros [= -> ->]. by exists p.
Qed.

Lemma hang_runs : exists w, hang = Some w /\ body_at 2 w = Some (bs "a", (bs "t", bs "a/")) /\ body_at 7 w = Some (bs "b", (bs "t", bs "b/a")).
Proof.
  assert ((w ← hang; Some (body_at 2 w, body_at 7 w)) = Some (Some (bs "a", (bs "t", bs "a/")), Some (bs "b", (bs "t", bs "b/a")))) as Hrun
    by (vm_compute; reflexivity).
  destruct hang as [w|]; [|done]. exists w. by injection Hrun as -> ->.
Qed.

Lemma hang_initial : initial hang_world.
Proof. split_and!; [done|done|done|reflexivity|]. cbn. intros id s Hs. by rewrite lookup_empty in Hs. Qed.

Lemma at_most_one_live_run_witness : exists w,
  body_at 2 w = Some (bs "a", (bs "t", bs "a/")) /\ body_at 7 w = Some (bs "b", (bs "t", bs "b/a")) /\
  (EvDelete (bs "t") ∈ log w \/ lapsed w (bs "a/") \/ lapsed w (bs "b/a")).
Proof.
  destruct hang_runs as (w & Hrun & H2 & H7). exists w. split; [exact H2|]. split; [exact H7|].
  destruct (body_at_Some _ _ _ _ _ H2) as (p1 & Hp1 & Hb1), (body_at_Some _ _ _ _ _ H7) as (p2 & Hp2 & Hb2).
  eapply (at_most_one_live_run (fun _ => inr (fun t => t + 60 * second)) (fun _ => EmptyString) w 2 7); [|done|exact Hp1|exact Hb1|exact Hp2|exact Hb2].
  exists hang_world. split; [apply hang_initial|by eapply script_steps].
Defined.

End SchedulerTheorems.
