(* ===== verification/SchedulerRecovery.v ===== *)
(** * Recovery of abandoned runs

    What [recoverStaleTasks] does to the stored tasks when nothing interferes:
    the runs that nobody executes any more are freed, so that their tasks can be
    claimed again, and every other task is left as it is. *)

From S2P Require Import Prelude GoBytes GoStrings SchedulerStore Scheduler SchedulerRun SchedulerTheorems.
From Stdlib Require Import Strings.Byte.

Module SchedulerRecovery.
Import GoBytes GoStrings SchedulerStore Scheduler SchedulerRun SchedulerTheorems.
#[local] Open Scope sched_scope.

#[local] Arguments i32 : simpl never.
#[local] Arguments Go.unix : simpl never.
#[local] Arguments calculateNextRun : simpl never.

(** ** Abandoned runs *)

Definition unfinished (s : TaskState) : bool := negb (RunStartedAt s =? 0) || bool_decide (Status s = TaskStatusRunning).
Definition own (i : bytes) (s : TaskState) : bool := bool_decide (LastRunID s <> [] /\ runOwner (LastRunID s) = i).
Definition leased (s : TaskState) : bool := bool_decide (RunLeaseUntil s <> 0 /\ RunLeaseID s <> [] /\ RunLeaseID s = LastRunID s).

(** Until when a run of another instance is respected.  A run without a lease of
    its own is given the one that this instance would have written, or the lease
    of a release that did not name its run. *)
Definition deadline (sec : Z) (s : TaskState) : Z :=
  if leased s then RunLeaseUntil s
  else
    let d := (if RunStartedAt s =? 0 then UpdatedAt s else RunStartedAt s) + sec in
    if decide (RunLeaseID s = []) then Z.max d (RunLeaseUntil s) else d.

Definition abandoned (i : bytes) (live : gset bytes) (now sec : Z) (s : TaskState) : bool :=
  unfinished s && (if own i s then bool_decide (LastRunID s ∉ live) else deadline sec s <? now).

Section recovery.
Context (outcome : bytes -> option error) (parse : bytes -> error + (Z -> Z)) (o : options).
Abbreviation i := (instanceID o).
Abbreviation perform := (perform outcome).

(** The state of a task whose run is freed. *)
Definition freed (now : Z) (s : TaskState) : TaskState :=
  let due :=
    if negb (bool_decide (Status s = TaskStatusRunning)) then NextRunAt s
    else if OneShot s then Z.max (NextRunAt s) (Go.unix now)
    else if decide (Schedule s = []) then NextRunAt s
    else Go.unix (calculateNextRun parse now s) in
  let status := if decide (Status s = TaskStatusRunning) then TaskStatusActive else Status s in
  mkState
    (mkSummary (ID s) (Description s) status (Priority s) (Schedule s) (LastRunAt s) due (SkipNextRun s) (DisableHistory s) (Unmanaged s)
       (OneShot s) (i32 (Failures s + 1)))
    (LastRunID s) 0 0 [] (RunAt s) (Meta s) (CreatedAt s) (Go.unix now) (Revision s + 1).

Lemma set_inst_id w j s : insts w !! j = Some s -> set_inst j s w = w.
Proof. intros Hs. unfold set_inst. rewrite insert_id by done. by destruct w. Qed.

Lemma perform_runAbandoned w sch s now sec :
  insts w !! i = Some sch -> perform i (runAbandoned o s now sec) w = Some (abandoned i (liveRuns sch) now sec s, w, []).
Proof.
  intros Hi. unfold runAbandoned, abandoned, deadline.
  assert ((RunStartedAt s =? 0) && negb (bool_decide (Status s = TaskStatusRunning)) = negb (unfinished s)) as ->
    by (unfold unfinished; by destruct (_ =? 0), (bool_decide _)).
  assert (negb (bool_decide (LastRunID s = [])) && bool_decide (runOwner (LastRunID s) = i) = own i s) as ->.
  { unfold own. do 3 case_bool_decide; cbn; naive_solver. }
  assert (negb (RunLeaseUntil s =? 0) && negb (bool_decide (RunLeaseID s = [])) && bool_decide (RunLeaseID s = LastRunID s) = leased s) as ->.
  { unfold leased. destruct (Z.eqb_spec (RunLeaseUntil s) 0); do 3 case_bool_decide; cbn; naive_solver. }
  destruct (unfinished s); [|done]. cbn [negb andb]. destruct (own i s).
  - cbn. unfold on_inst. rewrite Hi. cbn. by rewrite set_inst_id, <-bool_decide_not.
  - destruct (leased s); [done|]. cbn. by case_bool_decide; case_decide.
Qed.

Lemma perform_collect_stale w sch now sec l stale :
  insts w !! i = Some sch ->
  perform i (collect_stale o now sec l stale) w = Some (stale ++ filter (fun s => abandoned i (liveRuns sch) now sec s = true) l, w, []).
Proof.
  intros Hi. revert stale. induction l as [|s l IH]; intros stale; cbn [collect_stale].
  - by rewrite filter_nil, app_nil_r.
  - erewrite (perform_bind outcome i (runAbandoned o s now sec) _ w _ w _ w [] []); [reflexivity|by apply perform_runAbandoned|].
    rewrite IH, filter_cons. destruct (abandoned _ _ _ _ _) eqn:Ha; [|done]. by rewrite <-app_assoc.
Qed.

(** ** The writes *)

Lemma did_read {X} (op : sop X) w : (store_op op (store w)).2 = store w -> events op (store_op op (store w)).1 = [] -> did op w = w.
Proof. intros Hs He. unfold did. rewrite Hs, He. by destruct w. Qed.

Lemma perform_reset w now (s : TaskState) :
  tasks (store w) !! ID s = Some s ->
  exists w', perform i (resetStaleTask parse (ID s) (FenceOf s) now) w = Some (tt, w', []) /\
    insts w' = insts w /\ tasks (store w') = <[ID s := freed now s]> (tasks (store w)).
Proof.
  intros Hs. unfold resetStaleTask. cbn. rewrite did_read by done. unfold GetTask. rewrite Hs. cbn.
  rewrite (bool_decide_true (FenceOf s = FenceOf s)) by done. cbn. eexists. split; [done|]. split; [done|]. cbn.
  unfold ReplaceTaskIf, GetTask, freed.
  destruct (decide (Status s = TaskStatusRunning)) as [Hr|Hr]; rewrite ?(bool_decide_true _ Hr), ?(bool_decide_false _ Hr); cbn.
  - destruct (OneShot s) eqn:Ho; cbn; [|case_bool_decide; [rewrite decide_True by done|rewrite decide_False by done]]; cbn;
      rewrite ?Hs, ?Ho; cbn; rewrite ?Hs, decide_True by done; rewrite <-Ho; reflexivity.
  - rewrite Hs, decide_True by done. reflexivity.
Qed.

Lemma perform_reset_all now (l : list TaskState) w :
  NoDup ((fun s : TaskState => ID s) <$> l) -> (forall s : TaskState, s ∈ l -> tasks (store w) !! ID s = Some s) ->
  exists w', perform i (reset_all parse now l) w = Some (tt, w', []) /\
    (forall s : TaskState, s ∈ l -> tasks (store w') !! ID s = Some (freed now s)) /\
    (forall id, id ∉ (fun s : TaskState => ID s) <$> l -> tasks (store w') !! id = tasks (store w) !! id).
Proof.
  revert w. induction l as [|s l IH]; intros w Hnd Hl; cbn [reset_all].
  { exists w. split; [done|]. split; [by intros s ?%elem_of_nil|done]. }
  rewrite fmap_cons in *. apply NoDup_cons in Hnd as [Hnew Hnd]. destruct (perform_reset w now s) as (w1 & Hw1 & _ & Ht1); [apply Hl; by left|].
  destruct (IH w1) as (w2 & Hw2 & Hin & Hout); [done| |].
  { intros s' Hs'. rewrite Ht1, lookup_insert_ne; [apply Hl; by right|]. intros Heq. apply Hnew. rewrite Heq.
    by apply (list_elem_of_fmap_2 (fun s : TaskState => ID s)). }
  exists w2. split; [by apply (perform_bind outcome i _ _ w tt w1 tt w2 [] [])|]. split.
  - intros s' [->|Hs']%elem_of_cons; [|by apply Hin]. by rewrite Hout, Ht1, lookup_insert_eq.
  - intros id [? ?]%not_elem_of_cons. by rewrite Hout, Ht1, lookup_insert_ne.
Qed.

Lemma NoDup_stored (P : TaskState -> Prop) `{!forall s, Decision (P s)} (m : gmap bytes TaskState) (l : list TaskState) :
  (forall id (s : TaskState), m !! id = Some s -> ID s = id) -> l ≡ₚ (map_to_list m).*2 ->
  NoDup ((fun s : TaskState => ID s) <$> filter P l) /\ forall s : TaskState, s ∈ filter P l <-> P s /\ m !! ID s = Some s.
Proof.
  intros Hk Hl. assert (forall s : TaskState, s ∈ l <-> m !! ID s = Some s) as Hin.
  { intros s. rewrite Hl, list_elem_of_fmap. split.
    - intros ([id s'] & -> & Hs%elem_of_map_to_list). cbn. by rewrite (Hk _ _ Hs).
    - intros Hs. exists (ID s, s). by rewrite elem_of_map_to_list. }
  split; [|by intros; rewrite list_elem_of_filter, Hin]. eapply sublist_NoDup; [|apply fmap_sublist, sublist_filter].
  rewrite Hl, <-list_fmap_compose. rewrite (list_fmap_ext _ fst (map_to_list m)); [apply NoDup_fst_map_to_list|].
  intros n [id s] Hs%list_elem_of_lookup_2%elem_of_map_to_list. by apply Hk in Hs.
Qed.

Lemma freed_claimable now (s : TaskState) r at' until m :
  tasks m !! ID s = Some (freed now s) -> Status s = TaskStatusRunning -> 0 < at' -> r <> [] -> 0 <= until ->
  (ClaimRun (ID s) (mkClaim (NextRunAt (freed now s)) (RunAt s) at' r until) m).1 = inr true.
Proof.
  intros Hm Hs Hat Hr Hu. unfold ClaimRun, Validate. cbn [c_StartedAt c_RunID c_LeaseUntil c_NextRunAt c_RunAt].
  rewrite (proj2 (Z.leb_gt _ _) Hat), bool_decide_false, (proj2 (Z.ltb_ge _ _) Hu) by done. unfold GetTask. rewrite Hm.
  assert (Status (freed now s) = TaskStatusActive) as -> by (cbn; by rewrite decide_True).
  change (RunStartedAt (freed now s)) with 0. change (RunAt (freed now s)) with (RunAt s). by rewrite !Z.eqb_refl.
Qed.

End recovery.

(** C15: Recovery by an instance of a reachable world that nothing interferes with
    frees exactly the abandoned runs: those of this instance that it no longer
    executes, and those of others of which the lease or the deadline has passed.
    A task it freed while running can be claimed again; other tasks keep their
    states. *)
Theorem recovery_exact outcome parse quoted w i sch :
  reachable parse quoted w -> insts w !! i = Some sch ->
  let o := opts sch in
  let gone := abandoned i (liveRuns sch) (Go.unix (clock w)) (leaseSeconds (runLease o)) in
  exists w', perform outcome i (recoverStaleTasks parse o) w = Some (tt, w', []) /\
    tasks (store w') = (fun s => if gone s then freed parse (clock w) s else s) <$> tasks (store w) /\
    forall id (s : TaskState), tasks (store w) !! id = Some s -> gone s = true -> Status s = TaskStatusRunning ->
      forall r at' until, 0 < at' -> r <> [] -> 0 <= until ->
      (ClaimRun id (mkClaim (NextRunAt (freed parse (clock w) s)) (RunAt s) at' r until) (store w')).1 = inr true.
Proof.
  intros (g & l & Hinv)%reachable_inv Hi o gone. pose proof (inv_insts _ _ _ Hinv _ _ Hi) as <-.
  assert (forall id (s : TaskState), tasks (store w) !! id = Some s -> ID s = id) as Hk.
  { intros id s Hs. by apply (go_keys _ _ (inv_ghost _ _ _ Hinv)) in Hs as [? _]. }
  destruct (NoDup_stored (fun s => gone s = true) _ (Tasks (store w)) Hk (merge_sort_Permutation _ _)) as [Hnd Hin].
  destruct (perform_reset_all outcome parse o (clock w) (filter (fun s => gone s = true) (Tasks (store w))) w Hnd) as (w' & Hw' & Hyes & Hno).
  { by intros s [_ ?]%Hin. }
  assert (tasks (store w') = (fun s => if gone s then freed parse (clock w) s else s) <$> tasks (store w)) as Heq.
  { apply map_eq. intros id. rewrite lookup_fmap. destruct (tasks (store w) !! id) as [s|] eqn:Hs; cbn.
    - pose proof (Hk _ _ Hs) as <-. destruct (gone s) eqn:Hg; [by apply Hyes, Hin|]. rewrite Hno; [done|].
      intros (s' & Heq & Hs')%list_elem_of_fmap. apply Hin in Hs' as [Hg' Hs']. rewrite <-Heq in Hs'. congruence.
    - rewrite Hno; [done|]. intros (s' & -> & [_ Hs']%Hin)%list_elem_of_fmap. congruence. }
  exists w'. split; [|split; [done|]].
  - cbn. rewrite did_read by done. cbn.
    eapply (perform_bind outcome _ _ _ w _ w tt w' [] []); [by apply perform_collect_stale|exact Hw'].
  - intros id s Hs Hg Hr r at' until. pose proof (Hk _ _ Hs) as <-. apply freed_claimable; [|done]. by apply Hyes, Hin.
Qed.

(** The instance that hangs, and one that was not told to run anything. *)
Definition stuck : option world :=
  script (fun _ => None) (fun _ => inr (fun t => t + 60 * second)) (fun _ => EmptyString) (take 23 hang_script) hang_world.

Lemma recovery_exact_witness : exists w w' sch s,
  insts w !! bs "b" = Some sch /\ tasks (store w) !! bs "t" = Some s /\
  abandoned (bs "b") (liveRuns sch) (Go.unix (clock w)) (leaseSeconds (runLease (opts sch))) s = true /\
  perform (fun _ => None) (bs "b") (recoverStaleTasks (fun _ => inr (fun t => t + 60 * second)) (opts sch)) w = Some (tt, w', []).
Proof.
  assert ((w ← stuck; sch ← insts w !! bs "b"; s ← tasks (store w) !! bs "t";
    Some (abandoned (bs "b") (liveRuns sch) (Go.unix (clock w)) (leaseSeconds (runLease (opts sch))) s)) = Some true) as Hrun
    by (vm_compute; reflexivity).
  apply bind_Some in Hrun as (w & Hw & Hrun). apply bind_Some in Hrun as (sch & Hi & Hrun). apply bind_Some in Hrun as (s & Hs & Hrun).
  injection Hrun as Hrun.
  destruct (recovery_exact (fun _ => None) (fun _ => inr (fun t => t + 60 * second)) (fun _ => EmptyString) w (bs "b") sch) as (w' & Hp & _);
    [|exact Hi|exists w, w', sch, s; by split_and!].
  exists hang_world. split; [apply hang_initial|by eapply script_steps].
Defined.

End SchedulerRecovery.
