(* ===== verification/SchedulerOneShot.v ===== *)
(** * One-shot tasks run once

    A one-shot task that has completed is not claimed again for the same
    occurrence, whatever is registered, paused, resumed, triggered or recovered
    meanwhile, as long as the task is not deleted. *)

From S2P Require Import Prelude GoBytes GoStrings SchedulerStore Scheduler SchedulerRun SchedulerLogic SchedulerTheorems.
From Stdlib Require Import Strings.Byte.

Module SchedulerOneShot.
Import GoBytes GoStrings SchedulerStore Scheduler SchedulerRun SchedulerLogic SchedulerTheorems.

(** The task is stored for the occurrence at [a]; the occurrence has completed. *)
Definition occurrence (id : bytes) (a : Z) (w : world) : Prop := exists s : TaskState,
  tasks (store w) !! id = Some s /\ OneShot s = true /\ RunAt s = a.
Definition completed (id : bytes) (a : Z) (w : world) : Prop := exists s : TaskState,
  tasks (store w) !! id = Some s /\ OneShot s = true /\ RunAt s = a /\ Status s = TaskStatusCompleted.

Definition is_claim (id : bytes) (e : event) : bool := match e with EvClaim id' _ _ => bool_decide (id' = id) | _ => false end.
Definition claims_of (id : bytes) (log : list event) : list event := filter (fun e => is_claim id e = true) log.

(** What a call of the storage makes of a completed occurrence. *)
Definition settled (id : bytes) (a : Z) (m : Storage) : Prop := forall s : TaskState,
  tasks m !! id = Some s -> OneShot s = true -> RunAt s = a -> Status s = TaskStatusCompleted.

Lemma settled_put id a id' (s : TaskState) m :
  settled id a m -> (id' = id -> OneShot s = true -> RunAt s = a -> Status s = TaskStatusCompleted) -> settled id a (put id' s m).
Proof. intros Hm Hs s'. cbn. intros [[<- <-]|[_ ?]]%lookup_insert_Some; [by apply Hs|by apply Hm]. Qed.

Section calls.
Context (g : ghost) (w : world) (id : bytes) (a : Z) (s : TaskState).
Context (Hg : ghost_ok g w) (Ha : a <> 0) (Hnr : id ∉ removed g).
Context (Hs : tasks (store w) !! id = Some s) (Hone : OneShot s = true) (Hrun : RunAt s = a) (Hst : Status s = TaskStatusCompleted).

Lemma settled_now : settled id a (store w).
Proof using Hs Hst. intros s' Hs'. congruence. Qed.

Lemma replace_settled next expect t :
  store_pre g t (SReplaceTaskIf next expect) -> settled id a (ReplaceTaskIf next expect (store w)).2.
Proof using All.
  intros (s0 & Hs0 & Hf & Hsticky & Hk). unfold ReplaceTaskIf, GetTask. destruct (tasks _ !! ID next) as [cur|] eqn:Hcur; [|apply settled_now].
  case_decide as Hfence; [|apply settled_now]. apply settled_put; [apply settled_now|]. cbn. intros Hid Hn Hr. subst id.
  assert (ID next = ID s0) as Hid by (destruct Hk as [(? & _)|[(? & _) _]]; done). rewrite Hid in *.
  assert (cur = s0) as -> by (eapply fence_same; [exact Hg|done|done|congruence|done]). assert (s0 = s) as -> by congruence.
  apply Hsticky; congruence.
Qed.

Lemma finish_settled id' r result : settled id a (FinishRun id' r result (store w)).2.
Proof using Hs Hst Hone.
  unfold FinishRun, GetTask. destruct (tasks _ !! id') as [cur|] eqn:Hcur; [|apply settled_now].
  destruct (negb _); [apply settled_now|]. apply settled_put; [apply settled_now|]. intros ->. assert (cur = s) as -> by congruence.
  intros _ _. cbn. rewrite bool_decide_false by congruence. repeat case_match; done.
Qed.

Lemma store_settled {X} (op : sop X) t :
  store_pre g t op -> EvDelete id ∉ log (did op w) ->
  settled id a (store (did op w)) /\ claims_of id (log (did op w)) = claims_of id (log w).
Proof using All.
  intros Hpre Hdel. destruct op; cbn in Hpre; try (split; [apply settled_now|done]).
  - split; [|done]. cbn. unfold CreateTask. destruct (GetTask _ _) eqn:Hc; [apply settled_now|]. apply settled_put; [apply settled_now|].
    intros <-. unfold GetTask in Hc. congruence.
  - split; [|done]. by apply (replace_settled _ _ t).
  - cbn. unfold ClaimRun. destruct (Validate claim); [split; [apply settled_now|done]|]. unfold GetTask.
    destruct (tasks _ !! id0) as [cur|] eqn:Hc; [|split; [apply settled_now|done]]. destruct (negb (bool_decide _) || _) eqn:Hact; [split; [apply settled_now|done]|].
    destruct (negb (_ =? _) || _); [split; [apply settled_now|done]|]. assert (id0 <> id) as Hne.
    { intros ->. assert (cur = s) as -> by congruence. by rewrite bool_decide_false in Hact by congruence. }
    split; [by apply settled_put; [apply settled_now|]|]. cbn. unfold claims_of. cbn. by rewrite bool_decide_false.
  - cbn. unfold RenewRun, GetTask. destruct (tasks _ !! id0) as [cur|] eqn:Hc; [|split; [apply settled_now|done]].
    destruct (negb _); [split; [apply settled_now|done]|]. split; [|done]. apply settled_put; [apply settled_now|]. intros ->. cbn. congruence.
  - split; [apply finish_settled|]. cbn. by destruct (FinishRun _ _ _ _) as [[|] ?].
  - cbn in *. split; [|done]. intros s'. cbn. intros [_ Hs']%lookup_delete_Some. by apply settled_now.
Qed.

End calls.

(** ** Steps *)

Lemma exec_settled {X} i (c : call X) g w t x w' id a (s : TaskState) :
  ghost_ok g w -> pre g t c -> exec i c w x w' -> a <> 0 -> EvDelete id ∉ log w -> EvDelete id ∉ log w' ->
  tasks (store w) !! id = Some s -> OneShot s = true -> RunAt s = a -> Status s = TaskStatusCompleted ->
  settled id a (store w') /\ claims_of id (log w') = claims_of id (log w).
Proof.
  intros Hg Hpre Hex Ha Hnd Hnd' Hs Hone Hr Hst. assert (settled id a (store w)) as Hnow by by eapply settled_now.
  assert (id ∉ removed g) as Hnr by (intros ?; by apply Hnd, (go_removed _ _ Hg)).
  destruct c; try (destruct Hex as (? & ? & _ & _ & ->); done).
  { assert (w' = did o w \/ w' = w) as [->| ->]; [|by eapply (store_settled g w id a s)|done].
    destruct Hex as [[_ ->]|(? & _ & [->| ->])]; by auto. }
  all: cbn in Hex; repeat match goal with H : _ /\ _ |- _ => destruct H end; by subst w'.
Qed.

Lemma exec_log {X} i (c : call X) w x w' e : exec i c w x w' -> e ∈ log w -> e ∈ log w'.
Proof.
  intros Hex He. destruct c; try (by destruct Hex as (? & ? & _ & _ & ->)).
  { assert (w' = did o w \/ w' = w) as [->| ->]; [|apply elem_of_app; by right|done].
    destruct Hex as [[_ ->]|(? & _ & [->| ->])]; by auto. }
  all: cbn in Hex; repeat match goal with H : _ /\ _ |- _ => destruct H end; by subst w'.
Qed.

Section steps.
Context (parse : bytes -> error + (Z -> Z)) (quoted : bytes -> string).

Lemma step_log w w' e : step parse quoted w w' -> e ∈ log w -> e ∈ log w'.
Proof. intros []; cbn; try done. by eapply exec_log. Qed.

Lemma step_settled w w' id a :
  reachable parse quoted w -> step parse quoted w w' -> a <> 0 -> completed id a w -> EvDelete id ∉ log w' ->
  settled id a (store w') /\ claims_of id (log w') = claims_of id (log w).
Proof.
  intros (g & l & Hinv)%reachable_inv Hstep Ha (s & Hs & Hone & Hr & Hst) Hdel.
  assert (EvDelete id ∉ log w) as Hdel0 by (intros ?; by eapply Hdel, step_log).
  assert (settled id a (store w)) as Hnow by by eapply settled_now. destruct Hstep as [n i X c k x w' Hn Hex|n i p k Hn|i s' p Hi Hp|i o Hi Ho|i|t Ht]; try done.
  destruct (inv_focus _ _ _ _ _ _ Hinv Hn) as (t & rest & [Hg _ Heach _ _] & _). destruct (Heach i (Do c k) t) as [[Hpre _] _]; [by left|].
  by eapply (exec_settled i c g w t x w').
Qed.

(** The worlds between which a task stays stored for one occurrence. *)
Definition during (id : bytes) (a : Z) (w w' : world) : Prop := step parse quoted w w' /\ occurrence id a w'.

(** C16: A one-shot task that completed an occurrence stays completed and is never
    claimed again while it is stored for that occurrence and not deleted: neither
    registering it again, nor resuming, triggering or recovering it runs it twice. *)
Theorem one_shot_runs_once w w' id a :
  reachable parse quoted w -> a <> 0 -> completed id a w -> rtc (during id a) w w' -> EvDelete id ∉ log w' ->
  completed id a w' /\ claims_of id (log w') = claims_of id (log w).
Proof.
  intros Hw Ha Hc Hsteps Hdel. induction Hsteps as [w|w w1 w2 [Hs (s1 & Hs1 & Ho & Hr)] Hrest IH]; [done|].
  assert (EvDelete id ∉ log w1) as Hdel1.
  { intros Hin. apply Hdel. revert Hin. clear -Hrest. induction Hrest as [|? ? ? [Hs _] _ IH]; [done|]. intros Hin. by eapply IH, step_log. }
  destruct (step_settled w w1 id a Hw Hs Ha Hc Hdel1) as [Hset Hcl]. rewrite <-Hcl. apply IH; [|by exists s1; split_and!; auto|done].
  destruct Hw as (w0 & ? & ?). exists w0. split; [done|]. by eapply rtc_r.
Qed.

End steps.

(** ** A task registered and triggered again after it completed *)

Definition occurs (id : bytes) (a : Z) (w : world) : bool :=
  match GetTask id (store w) with Some s => OneShot s && (RunAt s =? a) | None => false end.

Section through.
Context (outcome : bytes -> option error) (parse : bytes -> error + (Z -> Z)) (quoted : bytes -> string) (id : bytes) (a : Z).

Fixpoint script_during (l : list action) (w : world) : option world :=
  match l with
  | [] => Some w
  | x :: l => w' ← act outcome parse quoted x w; if occurs id a w' then script_during l w' else None
  end.

Lemma script_during_rtc l w w' : script_during l w = Some w' -> rtc (during parse quoted id a) w w'.
Proof.
  revert w. induction l as [|x l IH]; intros w; cbn; [by intros [= <-]|]. destruct (act _ _ _ x w) as [w1|] eqn:Hx; [|done]. cbn.
  destruct (occurs id a w1) eqn:Ho; [|done]. intros Hl. eapply rtc_l; [|by apply IH]. split; [by eapply act_step|].
  unfold occurs, GetTask in Ho. destruct (tasks (store w1) !! id) as [s|] eqn:Hs; [|done]. apply andb_true_iff in Ho as [? ?%Z.eqb_eq]. by exists s.
Qed.
End through.

Definition once_config : TaskConfig := mkConfig (bs "t") [] [] true 0 false false false (of_unix 900) ∅.
Definition once_state : TaskState :=
  mkState (mkSummary (bs "t") [] TaskStatusCompleted 2 [] 900 0 false false false true 0) [] 0 0 [] 900 ∅ 800 900 5.
Definition once_world : world :=
  mkWorld (mkStorage {[bs "t" := once_state]} ∅ 1000) (of_unix 1000) ∅ ∅ ∅ [] [].
Definition once_script : list action :=
  [Start (hang_options "a"); Begin (bs "a") (ToRegister once_config)] ++ replicate 4 (Go 0) ++
  [Begin (bs "a") (ToTrigger (bs "t"))] ++ replicate 3 (Go 1).

Lemma one_shot_runs_once_witness : exists w',
  rtc (during (fun _ => inl ErrNotReady) (fun _ => EmptyString) (bs "t") 900) once_world w' /\ completed (bs "t") 900 w' /\
  claims_of (bs "t") (log w') = claims_of (bs "t") (log once_world).
Proof.
  assert ((w ← script_during (fun _ => None) (fun _ => inl ErrNotReady) (fun _ => EmptyString) (bs "t") 900 once_script once_world;
    Some (log w)) = Some []) as Hrun by (vm_compute; reflexivity).
  apply bind_Some in Hrun as (w' & Hw & Hlog). injection Hlog as Hlog. apply script_during_rtc in Hw. exists w'. split; [exact Hw|].
  assert (tasks (store once_world) !! bs "t" = Some once_state) as Hs by (vm_compute; reflexivity).
  apply (one_shot_runs_once (fun _ => inl ErrNotReady) (fun _ => EmptyString) once_world w' (bs "t") 900).
  - exists once_world. split; [|reflexivity]. split_and!; [reflexivity|reflexivity|reflexivity|reflexivity|].
    cbn. intros id s [<- <-]%lookup_singleton_Some. split; [reflexivity|by left].
  - done.
  - by exists once_state.
  - exact Hw.
  - rewrite Hlog. apply not_elem_of_nil.
Defined.

(** ** Triggered tasks *)

(** The status of the task and the log after a script. *)
Definition after (l : list action) : option (TaskStatus * Z * list event) :=
  w ← script (fun _ => None) (fun _ => inl ErrNotReady) (fun _ => EmptyString) l hang_world;
  option_map (fun s : TaskState => (Status s, NextRunAt s, log w)) (GetTask (bs "t") (store w)).
Definition later_config : TaskConfig := mkConfig (bs "t") [] [] true 0 false false false (of_unix 5000) ∅.

(** A one-shot task that is triggered before its time does not fire at its time. *)
Example trigger_consumes_one_shot :
  after ([Start (hang_options "a"); Begin (bs "a") (ToRegister later_config)] ++ replicate 4 (Go 0)) = Some (TaskStatusActive, 5000, []) /\
  after ([Start (hang_options "a"); Begin (bs "a") (ToRegister later_config)] ++ replicate 4 (Go 0) ++
    [Begin (bs "a") (ToTrigger (bs "t"))] ++ replicate 5 (Go 1) ++ replicate 15 (Go 2)) =
  Some (TaskStatusCompleted, 0, [EvFinish (bs "t") (bs "a/"); EvClaim (bs "t") (bs "a/") 1005]).
Proof. split; vm_compute; reflexivity. Qed.

(** Triggering a paused task starts a goroutine, as for any other, and the goroutine
    claims nothing. *)
Example trigger_paused_runs_nothing :
  after ([Start (hang_options "a"); Begin (bs "a") (ToRegister later_config)] ++ replicate 4 (Go 0) ++
    [Begin (bs "a") (ToPause (bs "t"))] ++ replicate 3 (Go 1) ++
    [Begin (bs "a") (ToTrigger (bs "t"))] ++ replicate 5 (Go 2) ++ replicate 10 (Go 3)) = Some (TaskStatusPaused, 5000, []).
Proof. vm_compute. reflexivity. Qed.

End SchedulerOneShot.
